(* ===== verification/_CoqProject ===== *)
-Q . S2P
Prelude.v
Runtime.v
Shared.v
StakingState.v
Staking.v
StakingInv.v
EscrowState.v
Fees.v
Trade.v
Dispute.v
Escrow.v
CaseInv.v
EscrowInv.v
TradeInv.v
DisputeInv.v
ExecuteInv.v
EscrowSafety.v
Frame.v
System.v
Relay.v
Scenario.v
Lifecycle.v
SystemScenario.v
EscrowTheorems.v
NoAbort.v
DisputeTheorems.v
RewardTheorems.v
SystemTheorems.v
Limits.v
GovernanceState.v
Governance.v
GovernanceInv.v
GovernanceHistory.v
GovernanceScenario.v
GovernanceTheorems.v
Presale.v
PresaleInv.v
PresaleTheorems.v
PresaleSolvency.v
PresaleScenario.v
BanGate.v
Peers.v
Rewards.v
Schedule.v
Slashing.v
Pricing.v
Statements.v
Offers.v
MarketState.v
Reservations.v
Settlements.v
Cases.v
Market.v
LiquidityInv.v
DisputeBook.v
MarketTheorems.v
MarketScenario.v
ChainReads.v
Blockhash.v
ChainRelay.v
ChainScenario.v
ProposalIndex.v
ProposalJoin.v
ProposalScenario.v
Cid.v
Identity.v
IdentityTheorems.v
TradeChannel.v
ChannelTheorems.v
Gossip.v
GossipTheorems.v
GossipFlow.v
Reviews.v
Sessions.v
Challenges.v
ServiceRegistry.v
Oracles.v
Evidence.v
Standing.v
NodeScenario.v
