(* ===== verification/Prelude.v ===== *)
(** * OpenFiat core: a verification development

    OpenFiat is a marketplace for trading tokens against fiat money.  Its
    repository has two halves.  Four Solana programs hold the money:
    [programs/escrow] (liquidity, trades, disputes), [programs/staking],
    [programs/governance] and [programs/presale].  A node, built from the crates
    under [crates/], keeps a replicated book of the marketplace: signed events
    travel by gossip, every node applies them to its own store, and what the
    programs decide is read back from the chain.  Source paths below are under
    [src/].

    ** The programs

    - [Prelude] (this file): machine integers as [Z] with their width, the
      [result] of an instruction, record updates, sums over maps, the closure
      [steps] of a transition relation, and runs of transaction lists.
    - [Runtime]: addresses, program-derived ones included, the token program as
      the class [TokenLedger] with its laws and an instance [simple_ledger],
      hashing as the class [Hashing], little-endian bytes.
    - [Shared]: [programs/shared]; roles, outcomes, the ban check, and the
      widening draw of arbitrators.
    - [StakingState], [Staking], [StakingInv]: [programs/staking].  One
      definition per instruction ([handle_*]); [Staking.process] dispatches.
      Solvency of the stake vault, the stake-age clock.
    - [EscrowState], [Fees], [Trade], [Dispute], [Escrow]: [programs/escrow]; the
      accounts, the fee split, vault and trade instructions, dispute
      instructions, and [Escrow.process] with the reachable states.
    - [CaseInv], [EscrowInv], [TradeInv], [DisputeInv], [ExecuteInv],
      [EscrowSafety], [Lifecycle], [NoAbort]: the escrow program's invariant, its
      preservation by every instruction, what a step may do to one escrow or
      case, and the absence of arithmetic aborts.
    - [EscrowTheorems], [DisputeTheorems], [RewardTheorems], [Limits]: solvency,
      the trade state machine, exact payouts of a verdict, termination of
      disputes, rewards, eligibility, and where comments promise more than the
      code does.
    - [Frame], [System], [Relay], [SystemTheorems]: escrow and staking on one
      chain.  Each leaves the other's accounts alone, and the two sides of the
      stake-recovery debt agree: the composition refines both programs.
    - [GovernanceState], [Governance], [GovernanceInv], [GovernanceHistory],
      [GovernanceTheorems], [BanGate]: [programs/governance]; proposals, votes,
      tallies, the ban list, and the list as the other programs see it.
    - [Presale], [PresaleInv], [PresaleTheorems], [PresaleSolvency]:
      [programs/presale]; contributions, swaps through a foreign program (class
      [SwapProgram]), claims and when a sale can pay what it sold.

    ** The node

    - [Peers], [Statements]: identities, byte order, the domain-separated bytes
      a signature covers, and every signed statement the modelled crates
      exchange.  Signatures, peer ids, base 58 and JSON are the class [Wire].
    - [Pricing], [Offers], [Reservations], [Settlements], [Cases], [MarketState],
      [Market]: the crates [advertisements], [reservations], [settlement] and
      [disputes]; a node is four maps, [market_step] applies one event.
      [LiquidityInv], [DisputeBook], [MarketTheorems]: conservation of
      liquidity, the trade state machine, settlements and disputes in step.
    - [Rewards], [Schedule], [Slashing]: the crates [rewards] and [slashing].
    - [ChainReads], [Blockhash], [ChainRelay]: reading the programs' accounts
      back from bytes, the chain head, and the relay of transactions ([chain],
      [snapshot], [rpc/src/actor.rs], [rpc/src/onchain_*.rs]).
    - [ProposalIndex], [ProposalJoin]: the crate [governance] and the polls of
      the node; the join proves that the verdict a node adopts is the one the
      governance program reached.
    - [Identity], [IdentityTheorems]: the crate [identity].
    - [Cid]: [crypto/src/cid.rs].  [Challenges]: [crypto/src/challenge.rs] and
      [registry/src/earnings.rs].
    - [TradeChannel], [ChannelTheorems]: the crate [tradechannel]; the cipher is
      the class [Aead].
    - [Gossip], [GossipTheorems], [GossipFlow]: the crate [gossip]; what a node
      stores, forwards, charges for and forgets, and floods on a network of
      such nodes.  Key extraction and encoded sizes are the class [Transport].
    - [Reviews], [Sessions]: the crates [reviews] and [sessions].
    - [ServiceRegistry], [Oracles]: the crates [registry] and [oracles];
      registrations, the price of a fee in another token, and the median rate
      that price is read from.
    - [Evidence]: the crate [risk], and of [content] the index of attachments
      and the retention rule.
    - [Standing]: the crates [reputation] and [trade], read off the book.

    The files named [*Scenario] run the definitions on concrete inputs; they
    hold the instances of the theorems stated under hypotheses.

    ** What the theorems show

    - Money: vaults hold what is owed ([escrow_solvent], [stakes_are_backed],
      [contribution_is_backed], [covered_sale_pays]); a verdict pays exactly
      what it says ([verdict_pays_exactly]).
    - Control: state machines of trades, disputes, proposals and bans; nothing
      happens without its signer, its vote or its delay ([ban_needs_vote],
      [outcome_is_votes], [only_the_chain_resolves]).
    - Progress: the executions of a dispute run out ([dispute_terminates]),
      accepted actions execute,
      no escrow instruction aborts on arithmetic, floods die out, the chain's
      verdict reaches a node that polls.
    - Agreement: the programs compose; accounts decode to what was encoded; a
      node adopts the chain's verdicts; indexes whose rule is order-free
      converge, and on the last statement of each author ([reviews_converge]);
      a quoted fee is an accepted one.
    - Authenticity: what a node stores was signed by whom it says, statements
      of different kinds never share a signature, a nonce opens one door.  Of a
      settlement this is said of the keys it has on file: the initiating
      statement names the seller's key and nothing compares it with the seller
      ([initiator_approves_as_seller]).
    - Limits: theorems that state what the code does where a comment promises
      otherwise, or where a stranger can do harm.

    ** Conventions and assumptions

    An instruction is a function from state and arguments to [result]; an abort
    carries no state because the runtime rolls back.  Account constraints of
    Anchor are part of each handler.  Two accounts of one instruction may be the
    same account; theorems that an instruction succeeds say where they must
    differ.  Bump seeds appear only where an account's bytes are encoded.
    An event that panics the node is no step of it.  A clock is read once per
    event.  The key-value store keeps what is written and its wire codec is
    lossless.  The RPC endpoint's answers are an argument of each tick, and may
    lag behind the chain.  In [Gossip] the swarm is the messages delivered and
    the outputs produced; clocks, instants and the answer of the forward filters
    are arguments.  A hash map's walk is some order of its entries ([HashOrder]).
    Doubles are binary64 of [SpecFloat]; [powi] is repeated squaring, which the
    language leaves to the platform, so agreement of two nodes on a price is
    agreement of nodes whose platform computes it so.  Text that is inspected
    character by character is a list of Unicode scalar values.

    The swap program of a contribution is any program but the presale itself,
    which the code does not check and [SwapProgram] excludes: no other program
    writes the presale's accounts.  In [IdentityTheorems] what is said of a
    revoked claim holds until the node's next sweep of expired claims.  A
    reservation request writes the advertisement before it computes its
    deadline, which cannot overflow until the clock is within the skew and the
    window of the end of its range; the model drops that case ([apply_request]).

    Fuel: [Pricing.powi_loop] takes eight turns, an exponent having at most
    eight bits; [Cid.varint_loop] nine, the bytes the source allows;
    [Cid.encode_groups] two, since at most twelve bits are pending.  Every other
    recursion is on its data.

    ** Not modelled

    - Third-party code: the Solana runtime beyond its documented account rules,
      the token program, libp2p, Ed25519, X25519 and the ciphers, JSON,
      postcard, RocksDB.  They are the classes above, each instantiated in a
      scenario.
    - Input and output: [api], [cli], [wallet], [metrics], [notifications],
      [database], [storage], [swqos], and the JSON-RPC parameter
      handling of [rpc], which forward to the modelled operations.
    - [discovery], [network] beyond address checks: they drive libp2p.
    - [content] beyond the attachment index and retention: blocks, gateway and
      pinning move bytes to and from an IPFS daemon.
    - The query filters of [advertisements] and the recovery report of
      [settlement] are derived views.  The producing and importing of [snapshot]
      moves whole stores.
    - The gossip front end each crate carries for running alone; the node runs
      the combined handler, which is modelled.
    - [programs/mock-jupiter] and the tests, scripts and clients. *)

From stdpp Require Export base tactics gmap list numbers strings.

#[export] Set Warnings "-clear-no-such-hyp".

#[export] Set Default Goal Selector "!".
#[export] Set Default Proof Using "Type".

Declare Scope openfiat_scope.
Delimit Scope openfiat_scope with openfiat.
#[global] Open Scope openfiat_scope.
#[global] Open Scope Z_scope.

(** ** Records

    A record type registers its eta-expansion as an instance of [Settable];
    [r <| f := v |>] then replaces one field.  The setter is computed from the
    expansion by abstracting the projection, so [simpl] reduces a projection of
    an update. *)

Class Settable (R : Type) := eta_record : R → R.

Class Setter {R T : Type} (proj : R → T) := set_field : (T → T) → R → R.

Ltac derive_setter R T proj inst :=
  let eta := eval hnf in inst in
  lazymatch eta with
  | (fun r => @?body r) =>
      exact (fun (g : T → T) (r : R) =>
        ltac:(let b := eval cbv beta in (body r) in
              let p := eval pattern (proj r) in b in
              lazymatch p with
              | ?F (proj r) => let res := eval cbv beta in (F (g (proj r))) in exact res
              end))
  end.

#[export] Hint Extern 1 (@Setter ?R ?T ?proj) =>
  let inst := constr:(_ : Settable R) in
  derive_setter R T proj inst : typeclass_instances.

Arguments set_field {R T} proj {_} g r /.

#[warning="-postfix-notation-not-level-1"]
Notation "r <| f := v |>" := (set_field f (fun _ => v) r)
  (at level 12, left associativity, f at next level, v at level 200,
   format "r  <| f  :=  v |>") : openfiat_scope.

(** ** Machine integers

    A value of a fixed-width Rust integer is a [Z] in the width's range.  The
    checked operations of the standard library return [None] outside it; the
    plain operators abort the instruction, since the programs are built with
    overflow checks on (see [sub_or_panic] below). *)

Definition U64_MAX : Z := 18446744073709551615.
Definition U128_MAX : Z := 340282366920938463463374607431768211455.
Definition I64_MIN : Z := -9223372036854775808.
Definition I64_MAX : Z := 9223372036854775807.

Definition u8 (z : Z) : Prop := 0 ≤ z ≤ 255.
Definition u16 (z : Z) : Prop := 0 ≤ z ≤ 65535.
Definition u32 (z : Z) : Prop := 0 ≤ z ≤ 4294967295.
Definition u64 (z : Z) : Prop := 0 ≤ z ≤ U64_MAX.
Definition u128 (z : Z) : Prop := 0 ≤ z ≤ U128_MAX.
Definition i64 (z : Z) : Prop := I64_MIN ≤ z ≤ I64_MAX.

#[export] Instance u8_dec z : Decision (u8 z).
Proof. unfold u8. apply _. Defined.
#[export] Instance u16_dec z : Decision (u16 z).
Proof. unfold u16. apply _. Defined.
#[export] Instance u32_dec z : Decision (u32 z).
Proof. unfold u32. apply _. Defined.
#[export] Instance u64_dec z : Decision (u64 z).
Proof. unfold u64. apply _. Defined.
#[export] Instance u128_dec z : Decision (u128 z).
Proof. unfold u128. apply _. Defined.
#[export] Instance i64_dec z : Decision (i64 z).
Proof. unfold i64. apply _. Defined.

(** Keep a mathematical result only when it fits the width [W]. *)
Definition checked (W : Z → Prop) `{∀ z, Decision (W z)} (z : Z) : option Z :=
  if decide (W z) then Some z else None.

Definition checked_add_u64 (a b : Z) : option Z := checked u64 (a + b).
Definition checked_sub_u64 (a b : Z) : option Z := checked u64 (a - b).
Definition checked_mul_u64 (a b : Z) : option Z := checked u64 (a * b).
Definition checked_add_u32 (a b : Z) : option Z := checked u32 (a + b).
Definition checked_add_u8 (a b : Z) : option Z := checked u8 (a + b).
Definition checked_add_u16 (a b : Z) : option Z := checked u16 (a + b).
Definition checked_add_i64 (a b : Z) : option Z := checked i64 (a + b).
Definition checked_sub_i64 (a b : Z) : option Z := checked i64 (a - b).
Definition checked_add_u128 (a b : Z) : option Z := checked u128 (a + b).
Definition checked_mul_u128 (a b : Z) : option Z := checked u128 (a * b).
Definition checked_div_u128 (a b : Z) : option Z :=
  if decide (b = 0) then None else Some (a / b).

(** Unsigned and signed saturating operations. *)
Definition saturating_sub_u64 (a b : Z) : Z := Z.max 0 (a - b).
Definition saturating_add_u64 (a b : Z) : Z := Z.min U64_MAX (a + b).
Definition saturating_add_u32 (a b : Z) : Z := Z.min 4294967295 (a + b).
Definition saturating_sub_i64 (a b : Z) : Z := Z.max I64_MIN (Z.min I64_MAX (a - b)).

(** [as u64] truncates to the low 64 bits. *)
Definition as_u64 (z : Z) : Z := z mod 18446744073709551616.

Ltac unfold_ints :=
  unfold checked_add_u64, checked_sub_u64, checked_mul_u64, checked_add_u32,
    checked_add_u8, checked_add_u16, checked_add_i64, checked_sub_i64,
    checked_add_u128, checked_mul_u128, saturating_sub_u64, saturating_add_u64,
    saturating_add_u32, saturating_sub_i64, u8, u16, u32, u64, u128, i64,
    U64_MAX, U128_MAX, I64_MIN, I64_MAX in *.

(** Linear arithmetic over machine-integer ranges. *)
Ltac ilia := unfold_ints; lia.

Lemma checked_Some (W : Z → Prop) `{∀ z, Decision (W z)} (z r : Z) :
  checked W z = Some r ↔ r = z ∧ W z.
Proof. unfold checked. case_decide; naive_solver. Qed.

Lemma checked_None (W : Z → Prop) `{∀ z, Decision (W z)} (z : Z) :
  checked W z = None ↔ ¬ W z.
Proof. unfold checked. case_decide; naive_solver. Qed.

Lemma checked_div_u128_Some a b r :
  checked_div_u128 a b = Some r ↔ r = a / b ∧ b ≠ 0.
Proof. unfold checked_div_u128. case_decide; naive_solver. Qed.

Lemma as_u64_id z : u64 z → as_u64 z = z.
Proof. intros ?. unfold as_u64. apply Z.mod_small. ilia. Qed.

Lemma as_u64_range z : u64 (as_u64 z).
Proof.
  unfold as_u64. pose proof (Z.mod_pos_bound z 18446744073709551616). ilia.
Qed.

(** ** Results

    An instruction returns a value or aborts.  An abort is the program's own
    error code, a failed account constraint, a failed token transfer or a
    panic; in every case the transaction is rolled back, which is why an
    aborting result carries no state. *)

Inductive anchor_error :=
  | AccountNotInitialized
  | AccountAlreadyInUse
  | AccountDidNotDeserialize
  | AccountOwnedByWrongProgram
  | ConstraintHasOne
  | ConstraintRaw
  | ConstraintAddress
  | ConstraintTokenMint
  | ConstraintTokenOwner
  | ConstraintSeeds.

Inductive fault (E : Type) :=
  | Code (e : E)
  | Anchor (a : anchor_error)
  | TokenProgram
  | Panic.
Arguments Code {E}.
Arguments Anchor {E}.
Arguments TokenProgram {E}.
Arguments Panic {E}.

Inductive result (E A : Type) :=
  | Ok (a : A)
  | Err (f : fault E).
Arguments Ok {E A}.
Arguments Err {E A}.

#[export] Instance result_ret {E} : MRet (result E) := λ A a, Ok a.
#[export] Instance result_bind {E} : MBind (result E) := λ A B f m,
  match m with Ok a => f a | Err e => Err e end.
#[export] Instance result_fmap {E} : FMap (result E) := λ A B f m,
  match m with Ok a => Ok (f a) | Err e => Err e end.

Definition fail {E A} (f : fault E) : result E A := Err f.

(** [require!(P, e)]. *)
Definition require {E} (P : Prop) `{Decision P} (f : fault E) : result E unit :=
  if decide P then Ok () else Err f.

(** [o.ok_or(e)]. *)
Definition ok_or {E A} (o : option A) (f : fault E) : result E A :=
  match o with Some a => Ok a | None => Err f end.

(** [a -= b] on an unsigned integer under overflow checks. *)
Definition sub_or_panic {E} (a b : Z) : result E Z :=
  if decide (b ≤ a) then Ok (a - b) else Err Panic.

Lemma bind_Ok {E A B} (m : result E A) (f : A → result E B) b :
  (m ≫= f) = Ok b ↔ ∃ a, m = Ok a ∧ f a = Ok b.
Proof. destruct m; cbn; naive_solver. Qed.

Lemma bind_Ok_intro {E A B} (m : result E A) (f : A → result E B) a b :
  m = Ok a → f a = Ok b → (m ≫= f) = Ok b.
Proof. by intros ->. Qed.

Lemma bind_ext {E A B} (m : result E A) (f g : A → result E B) :
  (∀ a, f a = g a) → (m ≫= f) = (m ≫= g).
Proof. intros Hfg. destruct m; simpl; [apply Hfg|done]. Qed.

Lemma require_Ok {E} (P : Prop) `{Decision P} (f : fault E) u :
  require P f = Ok u ↔ P.
Proof. unfold require. destruct u. case_decide; naive_solver. Qed.

Lemma require_true {E A} (P : Prop) `{Decision P} (f : fault E) (k : unit → result E A) :
  P → (require P f ≫= k) = k ().
Proof. intros HP. unfold require. by rewrite decide_True. Qed.

Lemma ok_or_Ok {E A} (o : option A) (f : fault E) a : ok_or o f = Ok a ↔ o = Some a.
Proof. destruct o; naive_solver. Qed.

Lemma sub_or_panic_Ok {E} a b r :
  sub_or_panic (E:=E) a b = Ok r ↔ r = a - b ∧ b ≤ a.
Proof. unfold sub_or_panic. case_decide; naive_solver. Qed.

Lemma sub_or_panic_le {E} a b : b ≤ a → sub_or_panic (E:=E) a b = Ok (a - b).
Proof. intros. unfold sub_or_panic. by rewrite decide_True. Qed.

(** One step of carrying a run out: the first call succeeds by [tac]. *)
Ltac run_step tac := eapply bind_Ok_intro; [solve [tac]|]; cbn beta iota.

(** One step of inverting a successful run: peel a bind, turn a guard into its
    condition, a checked operation into its range. *)
Ltac inv_ok_step :=
  match goal with
  | H : Ok _ = Ok _ |- _ => injection H as H; try subst
  | H : Err _ = Ok _ |- _ => discriminate H
  | H : Some _ = Some _ |- _ => injection H as H; try subst
  | H : fail _ = Ok _ |- _ => discriminate H
  | H : mret _ = Ok _ |- _ => unfold mret, result_ret in H
  | H : (_ ≫= _) = Ok _ |- _ => apply bind_Ok in H as (? & ? & H)
  | H : require _ _ = Ok _ |- _ => apply require_Ok in H
  | H : ok_or _ _ = Ok _ |- _ => apply ok_or_Ok in H
  | H : sub_or_panic _ _ = Ok _ |- _ => apply sub_or_panic_Ok in H as [? ?]; try subst
  | H : checked_add_u64 _ _ = Some _ |- _ => apply checked_Some in H as [? ?]; try subst
  | H : checked_sub_u64 _ _ = Some _ |- _ => apply checked_Some in H as [? ?]; try subst
  | H : checked_mul_u64 _ _ = Some _ |- _ => apply checked_Some in H as [? ?]; try subst
  | H : checked_add_u32 _ _ = Some _ |- _ => apply checked_Some in H as [? ?]; try subst
  | H : checked_add_u8 _ _ = Some _ |- _ => apply checked_Some in H as [? ?]; try subst
  | H : checked_add_u16 _ _ = Some _ |- _ => apply checked_Some in H as [? ?]; try subst
  | H : checked_add_i64 _ _ = Some _ |- _ => apply checked_Some in H as [? ?]; try subst
  | H : checked_sub_i64 _ _ = Some _ |- _ => apply checked_Some in H as [? ?]; try subst
  | H : checked_add_u128 _ _ = Some _ |- _ => apply checked_Some in H as [? ?]; try subst
  | H : checked_mul_u128 _ _ = Some _ |- _ => apply checked_Some in H as [? ?]; try subst
  | H : checked_div_u128 _ _ = Some _ |- _ => apply checked_div_u128_Some in H as [? ?]; try subst
  end.

Ltac inv_ok := repeat (inv_ok_step; cbn beta iota in * ).

(** ** Sums over lists and finite maps *)

Definition sum_list (l : list Z) : Z := foldr Z.add 0 l.

Lemma sum_list_cons x l : sum_list (x :: l) = x + sum_list l.
Proof. done. Qed.

Lemma sum_list_app l k : sum_list (l ++ k) = sum_list l + sum_list k.
Proof. induction l; simpl; lia. Qed.

Lemma sum_list_zeros {A} (l : list A) : sum_list ((λ _, 0) <$> l) = 0.
Proof. induction l as [|a l IH]; [done|]. rewrite fmap_cons, sum_list_cons. lia. Qed.

Lemma sum_list_nonneg l : Forall (λ z, 0 ≤ z) l → 0 ≤ sum_list l.
Proof. induction 1; simpl; lia. Qed.

Lemma sum_list_insert l i x y :
  l !! i = Some x → sum_list (<[i:=y]> l) = sum_list l - x + y.
Proof.
  revert i. induction l as [|a l IH]; intros [|i]; simpl; try done.
  - intros [= ->]. lia.
  - intros H%IH. change (list_insert i y l) with (<[i:=y]> l). lia.
Qed.

Section map_sum.
Context {K V : Type} `{Countable K}.
Implicit Types (f g : K → V → Z) (m : gmap K V).

Definition map_sum f m : Z := map_fold (λ k v acc, f k v + acc) 0 m.

Lemma map_sum_empty f : map_sum f ∅ = 0.
Proof. apply map_fold_empty. Qed.

Lemma map_sum_insert_None f m k v :
  m !! k = None → map_sum f (<[k:=v]> m) = f k v + map_sum f m.
Proof.
  intros Hk. unfold map_sum. rewrite map_fold_insert_L; [done| |done].
  intros; lia.
Qed.

Lemma map_sum_delete f m k v :
  m !! k = Some v → map_sum f m = f k v + map_sum f (delete k m).
Proof.
  intros Hk. rewrite <-(insert_delete_id m k v) at 1 by done.
  apply map_sum_insert_None, lookup_delete_eq.
Qed.

Lemma map_sum_insert f m k v v' :
  m !! k = Some v → map_sum f (<[k:=v']> m) = map_sum f m - f k v + f k v'.
Proof.
  intros Hk. rewrite (map_sum_delete f m k v) by done.
  rewrite <-insert_delete_eq, map_sum_insert_None by apply lookup_delete_eq. lia.
Qed.

Lemma map_sum_ext f g m :
  (∀ k v, m !! k = Some v → f k v = g k v) → map_sum f m = map_sum g m.
Proof.
  induction m as [|k v m Hk IH] using map_ind; intros Hfg.
  - by rewrite !map_sum_empty.
  - rewrite !map_sum_insert_None by done. rewrite (Hfg k v) by apply lookup_insert_eq.
    f_equal. apply IH. intros j w Hj. apply Hfg. rewrite lookup_insert_ne; naive_solver.
Qed.

Lemma map_sum_add f g m : map_sum (λ k v, f k v + g k v) m = map_sum f m + map_sum g m.
Proof.
  induction m as [|k v m Hk IH] using map_ind; [by rewrite !map_sum_empty|].
  rewrite !map_sum_insert_None, IH by done. lia.
Qed.

(** Replacing one entry while the weights of the others stay. *)
Lemma map_sum_update f g m k v v' :
  m !! k = Some v → (∀ j w, j ≠ k → m !! j = Some w → g j w = f j w) →
  map_sum g (<[k:=v']> m) = map_sum f m - f k v + g k v'.
Proof.
  intros Hk Hgf. rewrite (map_sum_delete f m k v) by done.
  rewrite <-insert_delete_eq, map_sum_insert_None by apply lookup_delete_eq.
  rewrite (map_sum_ext g f (delete k m)); [lia|].
  intros j w [Hj Hw]%lookup_delete_Some. by apply Hgf.
Qed.

Lemma map_sum_nonneg f m :
  (∀ k v, m !! k = Some v → 0 ≤ f k v) → 0 ≤ map_sum f m.
Proof.
  induction m as [|k v m Hk IH] using map_ind; intros Hf.
  - by rewrite map_sum_empty.
  - rewrite map_sum_insert_None by done.
    assert (0 ≤ f k v) by (apply Hf, lookup_insert_eq).
    assert (0 ≤ map_sum f m); [|lia].
    apply IH. intros j w Hj. apply Hf. rewrite lookup_insert_ne; naive_solver.
Qed.

Lemma map_sum_lookup_le f m k v :
  m !! k = Some v → (∀ k v, m !! k = Some v → 0 ≤ f k v) → f k v ≤ map_sum f m.
Proof.
  intros Hk Hf. rewrite (map_sum_delete f m k v) by done.
  assert (0 ≤ map_sum f (delete k m)); [|lia].
  apply map_sum_nonneg. intros j w [_ Hj]%lookup_delete_Some. by apply Hf in Hj.
Qed.

Lemma map_sum_mono f g m :
  (∀ k v, m !! k = Some v → f k v ≤ g k v) → map_sum f m ≤ map_sum g m.
Proof.
  induction m as [|k v m Hk IH] using map_ind; intros Hfg.
  - by rewrite !map_sum_empty.
  - rewrite !map_sum_insert_None by done.
    assert (f k v ≤ g k v) by apply Hfg, lookup_insert_eq.
    assert (map_sum f m ≤ map_sum g m); [|lia].
    apply IH. intros j w Hj. apply Hfg. rewrite lookup_insert_ne; naive_solver.
Qed.

Lemma map_sum_zero f m : (∀ k v, m !! k = Some v → f k v = 0) → map_sum f m = 0.
Proof.
  intros Hf.
  assert (0 ≤ map_sum f m) by (apply map_sum_nonneg; intros k v Hk; by rewrite (Hf k v Hk)).
  assert (0 ≤ map_sum (λ k v, - f k v) m).
  { apply map_sum_nonneg. intros k v Hk. rewrite (Hf k v Hk). lia. }
  assert (map_sum (λ k v, - f k v) m = - map_sum f m); [|lia].
  clear. induction m as [|k v m Hk IH] using map_ind; [by rewrite !map_sum_empty|].
  rewrite !map_sum_insert_None by done. lia.
Qed.
End map_sum.

(** ** Division *)

Lemma mul_div_le_den a b d : 0 ≤ a → 0 ≤ b ≤ d → 0 < d → 0 ≤ a * b / d ≤ a.
Proof.
  intros. split; [apply Z.div_pos; nia|].
  apply Z.div_le_upper_bound; nia.
Qed.

(** ** Reachability

    The reflexive-transitive closure of a step relation, with the induction
    that turns a preserved predicate into an invariant. *)

Inductive steps {S : Type} (step : S → S → Prop) : S → S → Prop :=
  | steps_refl s : steps step s s
  | steps_snoc s1 s2 s3 : steps step s1 s2 → step s2 s3 → steps step s1 s3.

Lemma steps_invariant {S} (step : S → S → Prop) (I : S → Prop) s1 s2 :
  (∀ a b, I a → step a b → I b) → steps step s1 s2 → I s1 → I s2.
Proof. intros Hstep. induction 1; eauto. Qed.

Lemma steps_trans {S} (step : S → S → Prop) s1 s2 s3 :
  steps step s1 s2 → steps step s2 s3 → steps step s1 s3.
Proof. intros H12 H23. induction H23; eauto using steps_snoc. Qed.

Lemma steps_one {S} (step : S → S → Prop) s1 s2 : step s1 s2 → steps step s1 s2.
Proof. eauto using steps_refl, steps_snoc. Qed.

Create HintDb openfiat.
#[export] Hint Resolve steps_refl steps_snoc as_u64_range : openfiat.

(** ** Evaluating a program on a list of transactions

    A concrete run of a program, as a path of its transition system. *)

Section runner.
Context {E S T : Type} (exec : T → S → result E S) (s0 : S).

Fixpoint run_all (txs : list T) (s : S) : result E S :=
  match txs with
  | [] => Ok s
  | x :: rest => s ← exec x s; run_all rest s
  end.

(** Whether a run succeeds from the initial state, and where it leads. *)
Definition succeeds (txs : list T) : bool :=
  if run_all txs s0 is Ok _ then true else false.

Definition after (txs : list T) : S :=
  match run_all txs s0 with Ok s => s | Err _ => s0 end.

Lemma run_all_after txs : succeeds txs = true → run_all txs s0 = Ok (after txs).
Proof. unfold succeeds, after. by destruct (run_all _ _). Qed.

Lemma run_all_app a b s : run_all (a ++ b) s = (run_all a s ≫= run_all b).
Proof.
  revert s. induction a as [|x a IH]; intros s; [done|]. simpl.
  destruct (exec x s); simpl; [apply IH|done].
Qed.

Lemma after_snoc txs x :
  succeeds (txs ++ [x]) = true → exec x (after txs) = Ok (after (txs ++ [x])).
Proof.
  intros Hrun%run_all_after. rewrite run_all_app in Hrun.
  apply bind_Ok in Hrun as (s1 & Hs1 & Hrun). simpl in Hrun.
  apply bind_Ok in Hrun as (s2 & Hs2 & Hrun). injection Hrun as <-.
  unfold after at 1. by rewrite Hs1.
Qed.

(** The transition system the run follows: a well-typed transaction, not
    before the last one, is a step. *)
Context (step : Z * S → Z * S → Prop) (time : T → Z) (typed : T → bool).
Hypothesis exec_step : ∀ t x s s',
  t ≤ time x → typed x = true → exec x s = Ok s' → step (t, s) (time x, s').

Fixpoint timely (t : Z) (txs : list T) : bool :=
  match txs with
  | [] => true
  | x :: rest => bool_decide (t ≤ time x) && typed x && timely (time x) rest
  end.

Definition end_time (t : Z) (txs : list T) : Z := foldl (λ _ x, time x) t txs.

Lemma run_all_steps t txs s s' :
  timely t txs = true → run_all txs s = Ok s' → steps step (t, s) (end_time t txs, s').
Proof using exec_step.
  revert t s. induction txs as [|x txs IH]; intros t s Hok Hrun; simpl in *.
  - injection Hrun as ->. apply steps_refl.
  - apply bind_Ok in Hrun as (s1 & Hs1 & Hrun).
    rewrite !andb_true_iff, bool_decide_eq_true in Hok. destruct Hok as [[Ht Hi] Hok].
    eapply steps_trans; [|by apply IH]. apply steps_one. by apply exec_step.
Qed.

Lemma after_steps t txs :
  timely t txs = true → succeeds txs = true → steps step (t, s0) (end_time t txs, after txs).
Proof using exec_step. intros Hok Hrun. apply run_all_steps; [done|]. by apply run_all_after. Qed.

(** Continuing a run. *)
Lemma after_steps_app t a b :
  timely t (a ++ b) = true → succeeds (a ++ b) = true →
  steps step (end_time t a, after a) (end_time t (a ++ b), after (a ++ b)).
Proof using exec_step.
  intros Hok Hrun%run_all_after. rewrite run_all_app in Hrun.
  apply bind_Ok in Hrun as (s1 & Hs1 & Hrun).
  assert (after a = s1) as -> by (unfold after; by rewrite Hs1).
  unfold end_time. rewrite foldl_app. apply run_all_steps; [|done].
  clear Hs1 Hrun. revert t Hok. induction a as [|x a IH]; intros t Hok; [done|]. simpl in *.
  rewrite !andb_true_iff in Hok. apply IH. apply Hok.
Qed.
End runner.

(** A system without a clock runs with any clock. *)
Lemma steps_untimed {S : Type} (step : S → S → Prop) (w w' : Z * S) :
  steps (λ a b, step a.2 b.2) w w' → steps step w.2 w'.2.
Proof. induction 1 as [w|w1 w2 w3 _ IH Hstep]; [apply steps_refl|by eapply steps_snoc]. Qed.
