(* ===== verification/Runtime.v ===== *)
(** * Runtime: addresses, token program, hashing

    What the programs use of the platform they run on.  Addresses of
    program-derived accounts are identified by program and seeds, so two
    derivations agree exactly when their seeds do.  The SPL token programs and
    SHA-256 are not part of the repository: they are type classes stating the
    documented behaviour the programs rely on, with a concrete ledger instance
    that satisfies every law. *)

From S2P Require Import Prelude.

(** ** Addresses *)

Inductive program_id := ESCROW | STAKING | GOVERNANCE | PRESALE | ASSOCIATED_TOKEN | SYSTEM.

(** The PDA seed prefixes the programs declare in their [constants.rs]; the
    associated token program derives its addresses without a prefix, which is
    [NO_PREFIX] here. *)
Inductive seed :=
  | LIQUIDITY_VAULT_SEED | LIQUIDITY_VAULT_TOKENS_SEED | TRADE_ESCROW_SEED
  | TRADE_ESCROW_TOKENS_SEED | FEE_CONFIG_SEED | DISPUTE_CASE_SEED
  | ARBITRATION_POOL_SEED | ARBITRATION_POLICY_SEED | STAKE_RECOVERY_CLAIM_SEED
  | STAKING_CONFIG_SEED | STAKE_VAULT_SEED | REWARDS_VAULT_SEED
  | STAKE_ACCOUNT_SEED | STAKE_RECOVERY_RECEIPT_SEED
  | GOVERNANCE_CONFIG_SEED | DEPOSIT_VAULT_SEED | PROPOSAL_SEED
  | VOTE_RECORD_SEED | PROPOSAL_ACTION_SEED | EMERGENCY_AUTHORITY_SEED | BAN_SEED
  | SALE_CONFIG_SEED | PRESALE_VAULT_SEED | SALE_USDC_VAULT_SEED | CONTRIBUTION_SEED
  | NO_PREFIX.

(** An account address: an ordinary key, or the address derived by a program
    from a seed prefix followed by nothing, keys or one integer. *)
Inductive pubkey :=
  | Key (k : N)
  | Pda (p : program_id) (t : seed)
  | PdaKey (p : program_id) (t : seed) (a : pubkey)
  | PdaKeys (p : program_id) (t : seed) (a b : pubkey)
  | PdaNum (p : program_id) (t : seed) (n : Z)
  | PdaKeyNum (p : program_id) (t : seed) (a : pubkey) (n : Z).

#[export] Instance program_id_eq_dec : EqDecision program_id.
Proof. solve_decision. Defined.
#[export] Instance seed_eq_dec : EqDecision seed.
Proof. solve_decision. Defined.
#[export] Instance pubkey_eq_dec : EqDecision pubkey.
Proof. solve_decision. Defined.

Definition all_programs : list program_id := 
  [ESCROW; STAKING; GOVERNANCE; PRESALE; ASSOCIATED_TOKEN; SYSTEM].
Definition all_seeds : list seed :=
  [ LIQUIDITY_VAULT_SEED; LIQUIDITY_VAULT_TOKENS_SEED; TRADE_ESCROW_SEED;
    TRADE_ESCROW_TOKENS_SEED; FEE_CONFIG_SEED; DISPUTE_CASE_SEED;
    ARBITRATION_POOL_SEED; ARBITRATION_POLICY_SEED; STAKE_RECOVERY_CLAIM_SEED;
    STAKING_CONFIG_SEED; STAKE_VAULT_SEED; REWARDS_VAULT_SEED;
    STAKE_ACCOUNT_SEED; STAKE_RECOVERY_RECEIPT_SEED;
    GOVERNANCE_CONFIG_SEED; DEPOSIT_VAULT_SEED; PROPOSAL_SEED;
    VOTE_RECORD_SEED; PROPOSAL_ACTION_SEED; EMERGENCY_AUTHORITY_SEED; BAN_SEED;
    SALE_CONFIG_SEED; PRESALE_VAULT_SEED; SALE_USDC_VAULT_SEED; CONTRIBUTION_SEED;
    NO_PREFIX ].

Definition index_of {A} `{EqDecision A} (l : list A) (x : A) : nat :=
  default 0%nat (fst <$> list_find (λ y, y = x) l).

#[export] Instance program_id_countable : Countable program_id.
Proof.
  refine (inj_countable (index_of all_programs) (λ n, all_programs !! n) _).
  by intros [].
Defined.
#[export] Instance seed_countable : Countable seed.
Proof.
  refine (inj_countable (index_of all_seeds) (λ n, all_seeds !! n) _).
  by intros [].
Defined.

(** Addresses encode as trees whose leaves carry the atoms. *)
Definition pubkey_atom : Type := N + (program_id * seed * Z).

Fixpoint pubkey_tree (k : pubkey) : gen_tree pubkey_atom :=
  match k with
  | Key n => GenLeaf (inl n)
  | Pda p t => GenNode 0 [GenLeaf (inr (p, t, 0))]
  | PdaKey p t a => GenNode 1 [GenLeaf (inr (p, t, 0)); pubkey_tree a]
  | PdaKeys p t a b => GenNode 2 [GenLeaf (inr (p, t, 0)); pubkey_tree a; pubkey_tree b]
  | PdaNum p t n => GenNode 3 [GenLeaf (inr (p, t, n))]
  | PdaKeyNum p t a n => GenNode 4 [GenLeaf (inr (p, t, n)); pubkey_tree a]
  end.

Fixpoint tree_pubkey (g : gen_tree pubkey_atom) : pubkey :=
  match g with
  | GenLeaf (inl n) => Key n
  | GenNode 0 [GenLeaf (inr (p, t, _))] => Pda p t
  | GenNode 1 [GenLeaf (inr (p, t, _)); a] => PdaKey p t (tree_pubkey a)
  | GenNode 2 [GenLeaf (inr (p, t, _)); a; b] => PdaKeys p t (tree_pubkey a) (tree_pubkey b)
  | GenNode 3 [GenLeaf (inr (p, t, n))] => PdaNum p t n
  | GenNode 4 [GenLeaf (inr (p, t, n)); a] => PdaKeyNum p t (tree_pubkey a) n
  | _ => Key 0
  end.

#[export] Instance pubkey_countable : Countable pubkey.
Proof.
  refine (inj_countable' pubkey_tree tree_pubkey _).
  induction x; simpl; congruence.
Defined.

(** Whether the address is derived by program [p]: such an address has no
    private key, so only [p] can sign for it. *)
Definition derived_by (p : program_id) (k : pubkey) : bool :=
  match k with
  | Key _ => false
  | Pda q _ | PdaKey q _ _ | PdaKeys q _ _ _ | PdaNum q _ _ | PdaKeyNum q _ _ _ =>
      bool_decide (p = q)
  end.

(** [AccountInfo]: what an unchecked account exposes. *)
Record account_info := mkInfo { info_owner : program_id; info_data : list Z }.

(** The inputs an instruction reads from the chain: the clock, accounts of
    other programs as raw bytes, and the slot-hashes sysvar. *)
Record chain := mkChain {
  now : Z;
  info_at : pubkey → account_info;
  slot_hashes : list Z;
}.

(** An address nothing was ever written to. *)
Definition empty_info : account_info := mkInfo SYSTEM [].

(** ** Token program *)

Record token_account := mkTokenAccount {
  ta_mint : pubkey;
  ta_owner : pubkey;
  ta_amount : Z;
  ta_delegate : option pubkey;
  ta_frozen : bool;
}.
#[export] Instance token_account_eta : Settable token_account := fun r =>
  mkTokenAccount (ta_mint r) (ta_owner r) (ta_amount r) (ta_delegate r) (ta_frozen r).
#[export] Instance token_account_eq_dec : EqDecision token_account.
Proof. solve_decision. Defined.

(** A freshly initialised token account. *)
Definition new_token_account (mint owner : pubkey) : token_account :=
  mkTokenAccount mint owner 0 None false.

(** The account table after moving [n] from [from] to [to]; a transfer of an
    account to itself leaves it as it is. *)
Definition moved (acc : pubkey → option token_account) (from to : pubkey) (n : Z)
    (k : pubkey) : option token_account :=
  if decide (from = to) then acc k
  else if decide (k = from) then (λ a, a <| ta_amount := ta_amount a - n |>) <$> acc k
  else if decide (k = to) then (λ a, a <| ta_amount := ta_amount a + n |>) <$> acc k
  else acc k.

(** The token programs, as the sources use them: mints without transfer-fee
    or hook extensions.  [transfer_checked] moves exactly the amount asked for,
    on the authority of the owner or of a delegate. *)
Class TokenLedger (L : Type) := {
  account_of : L → pubkey → option token_account;
  decimals_of : L → pubkey → option Z;
  transfer_checked : L → pubkey → pubkey → pubkey → pubkey → Z → Z → option L;
  create_token_account : L → pubkey → pubkey → pubkey → option L;
  account_of_u64 : ∀ l k a, account_of l k = Some a → u64 (ta_amount a);
  transfer_checked_Some : ∀ l from mint to auth n d l',
    transfer_checked l from mint to auth n d = Some l' →
    (∃ a b, account_of l from = Some a ∧ account_of l to = Some b ∧
       ta_mint a = mint ∧ ta_mint b = mint ∧
       (ta_owner a = auth ∨ ta_delegate a = Some auth) ∧
       0 ≤ n ≤ ta_amount a ∧ decimals_of l mint = Some d) ∧
    (∀ k, (ta_amount <$> account_of l' k) = (ta_amount <$> moved (account_of l) from to n k)
        ∧ (ta_mint <$> account_of l' k) = (ta_mint <$> account_of l k)
        ∧ (ta_owner <$> account_of l' k) = (ta_owner <$> account_of l k)
        ∧ (ta_frozen <$> account_of l' k) = (ta_frozen <$> account_of l k)
        ∧ (ta_delegate <$> account_of l k = Some None →
           ta_delegate <$> account_of l' k = Some None)) ∧
    (∀ m, decimals_of l' m = decimals_of l m);
  transfer_checked_succeeds : ∀ l from mint to auth n d a b,
    account_of l from = Some a → account_of l to = Some b →
    ta_mint a = mint → ta_mint b = mint → ta_owner a = auth →
    ta_frozen a = false → ta_frozen b = false →
    0 ≤ n ≤ ta_amount a → (from ≠ to → ta_amount b + n ≤ U64_MAX) →
    decimals_of l mint = Some d →
    is_Some (transfer_checked l from mint to auth n d);
  create_token_account_Some : ∀ l k mint owner l',
    create_token_account l k mint owner = Some l' →
    account_of l k = None ∧
    (∀ j, account_of l' j =
       if decide (j = k) then Some (new_token_account mint owner) else account_of l j) ∧
    (∀ m, decimals_of l' m = decimals_of l m);
}.

(** *** Consequences of the token laws *)

Section ledger.
Context {L : Type} `{TokenLedger L}.
Implicit Types (l : L) (k : pubkey).

(** The balance of a token account, zero where there is none. *)
Definition balance l k : Z := default 0 (ta_amount <$> account_of l k).

Lemma balance_u64 l k : u64 (balance l k).
Proof.
  unfold balance. destruct (account_of l k) as [a|] eqn:Ha; simpl; [|ilia].
  by eapply account_of_u64.
Qed.

Lemma balance_account l k a : account_of l k = Some a → balance l k = ta_amount a.
Proof. intros Ha. unfold balance. by rewrite Ha. Qed.

(** A program's vault: it exists, has the given mint and owner, and nobody
    was approved to spend from it. *)
Definition vault_account l k (mint owner : pubkey) : Prop :=
  ∃ a, account_of l k = Some a ∧ ta_mint a = mint ∧ ta_owner a = owner ∧ ta_delegate a = None.

Context (l l' : L) (from mint to auth : pubkey) (n d : Z).
Hypothesis Htransfer : transfer_checked l from mint to auth n d = Some l'.

Lemma transfer_nonneg : 0 ≤ n ≤ balance l from.
Proof using Htransfer.
  apply transfer_checked_Some in Htransfer as ((a & b & Ha & _ & _ & _ & _ & Hn & _) & _).
  by rewrite (balance_account _ _ _ Ha).
Qed.

Lemma transfer_balance k :
  balance l' k = balance l k
    + (if decide (from = to) then 0
       else if decide (k = from) then - n else if decide (k = to) then n else 0).
Proof using Htransfer.
  apply transfer_checked_Some in Htransfer as ((a & b & Ha & Hb & _) & Hall & _).
  destruct (Hall k) as (Hk & _). unfold balance. rewrite Hk. unfold moved.
  repeat case_decide; subst; simpl; rewrite ?Ha, ?Hb; simpl; lia.
Qed.

(** Only the source account can lose tokens. *)
Lemma transfer_balance_mono k : k ≠ from → balance l k ≤ balance l' k.
Proof using Htransfer.
  intros Hk. rewrite transfer_balance. pose proof transfer_nonneg.
  repeat case_decide; lia || congruence.
Qed.

Lemma transfer_vault_account k m o : vault_account l k m o → vault_account l' k m o.
Proof using Htransfer.
  intros (a & Ha & <- & <- & Hd).
  apply transfer_checked_Some in Htransfer as (_ & Hall & _).
  destruct (Hall k) as (_ & Hm & Ho & _ & Hdel). rewrite Ha in Hm, Ho, Hdel. simpl in *.
  destruct (account_of l' k) as [a'|] eqn:Ha'; [|done]. simplify_eq/=.
  exists a'. repeat split; try done.
  rewrite Hd in Hdel. specialize (Hdel eq_refl). naive_solver.
Qed.

(** The authority of a transfer out of a vault is its owner. *)
Lemma transfer_from_vault m o : vault_account l from m o → auth = o.
Proof using Htransfer.
  intros (a & Ha & _ & <- & Hd).
  apply transfer_checked_Some in Htransfer as ((a' & b & Ha' & _ & _ & _ & Hauth & _) & _).
  rewrite Ha in Ha'. simplify_eq. destruct Hauth; [done|congruence].
Qed.

Lemma transfer_decimals m : decimals_of l' m = decimals_of l m.
Proof using Htransfer. by apply transfer_checked_Some in Htransfer as (_ & _ & ?). Qed.
End ledger.

(** A change of the ledger made outside program [p]: no vault owned by an
    address of [p] loses tokens or changes hands, and no token account appears
    at an address of [p], since creating one needs the program's signature. *)
Record ledger_respects {L} `{TokenLedger L} (p : program_id) (l l' : L) : Prop := {
  respects_vault : ∀ k m o, derived_by p o = true → vault_account l k m o →
    vault_account l' k m o ∧ balance l k ≤ balance l' k;
  respects_fresh : ∀ k, derived_by p k = true → account_of l k = None → account_of l' k = None;
}.

Lemma ledger_respects_refl {L} `{TokenLedger L} p (l : L) : ledger_respects p l l.
Proof. split; [|done]. intros k m o _ Hv. split; [done|lia]. Qed.

Lemma ledger_respects_trans {L} `{TokenLedger L} p (l1 l2 l3 : L) :
  ledger_respects p l1 l2 → ledger_respects p l2 l3 → ledger_respects p l1 l3.
Proof.
  intros [H12 F12] [H23 F23]. split; [|auto].
  intros k m o Hp Hv. destruct (H12 k m o Hp Hv) as [Hv2 ?].
  destruct (H23 k m o Hp Hv2). split; [done|lia].
Qed.

(** A transfer creates no account. *)
Lemma transfer_fresh {L} `{TokenLedger L} (l l' : L) from mint to auth n d k :
  transfer_checked l from mint to auth n d = Some l' →
  account_of l k = None → account_of l' k = None.
Proof.
  intros (_ & Hall & _)%transfer_checked_Some Hk. destruct (Hall k) as (_ & Hm & _).
  rewrite Hk in Hm. by destruct (account_of l' k).
Qed.

(** A transfer changes nothing of an account but its balance and delegate. *)
Lemma transfer_account {L} `{TokenLedger L} (l l' : L) from mint to auth n d k a :
  transfer_checked l from mint to auth n d = Some l' → account_of l k = Some a →
  ∃ a', account_of l' k = Some a' ∧ ta_mint a' = ta_mint a ∧ ta_owner a' = ta_owner a ∧
    ta_frozen a' = ta_frozen a ∧ ta_amount a' = balance l' k.
Proof.
  intros (_ & Hall & _)%transfer_checked_Some Hk. destruct (Hall k) as (_ & Hm & Ho & Hf & _).
  unfold balance. rewrite Hk in *. destruct (account_of l' k) as [a'|]; [|done]. simplify_eq/=. eauto 10.
Qed.

(** A transfer signed by anyone else leaves a program's vaults alone. *)
Lemma transfer_respects {L} `{TokenLedger L} p (l l' : L) from mint to auth n d :
  transfer_checked l from mint to auth n d = Some l' →
  derived_by p auth = false → ledger_respects p l l'.
Proof.
  intros Ht Hauth. split; [|by intros k _; eapply transfer_fresh].
  intros k m o Hp Hv. split; [by eapply transfer_vault_account|].
  eapply transfer_balance_mono; [done|]. intros ->.
  eapply transfer_from_vault in Hv; [|done]. congruence.
Qed.

Section ledger_create.
Context {L : Type} `{TokenLedger L}.

Lemma create_balance (l l' : L) k m o j :
  create_token_account l k m o = Some l' → balance l' j = balance l j.
Proof.
  intros (Hnone & Hall & _)%create_token_account_Some. unfold balance. rewrite Hall.
  case_decide; [|done]. subst. by rewrite Hnone.
Qed.

Lemma create_vault_account (l l' : L) k m o j m' o' :
  create_token_account l k m o = Some l' →
  vault_account l j m' o' → vault_account l' j m' o'.
Proof.
  intros (Hnone & Hall & _)%create_token_account_Some (a & Ha & Hrest).
  exists a. split; [|done]. rewrite Hall. case_decide; [congruence|done].
Qed.

Lemma create_vault_account_new (l l' : L) k m o :
  create_token_account l k m o = Some l' → vault_account l' k m o.
Proof.
  intros (Hnone & Hall & _)%create_token_account_Some.
  exists (new_token_account m o). rewrite Hall, decide_True by done. done.
Qed.

Lemma create_fresh (l l' : L) k m o j :
  create_token_account l k m o = Some l' → j ≠ k →
  account_of l j = None → account_of l' j = None.
Proof. intros (_ & Hall & _)%create_token_account_Some Hj Hn. by rewrite Hall, decide_False. Qed.

(** A program's new token account, at an address of its own, leaves the vaults
    of any other program alone. *)
Lemma create_respects p (l l' : L) k m o :
  create_token_account l k m o = Some l' → derived_by p k = false → ledger_respects p l l'.
Proof.
  intros Hc Hk. split.
  - intros j m' o' _ Hv. split; [by eapply create_vault_account|].
    by rewrite (create_balance _ _ _ _ _ j Hc).
  - intros j Hj. eapply create_fresh; [done|]. by intros ->; congruence.
Qed.
End ledger_create.

(** Wallets hold a private key: no program derives them.  Two programs never
    derive the same address. *)
Definition is_wallet (k : pubkey) : bool := if k is Key _ then true else false.

Lemma wallet_not_derived p k : is_wallet k = true → derived_by p k = false.
Proof. by destruct k. Qed.

Lemma derived_once p q k : derived_by q k = true → p ≠ q → derived_by p k = false.
Proof.
  intros Hq Hp. destruct k; simpl in *; try done; apply bool_decide_eq_true in Hq as ->;
    by apply bool_decide_eq_false.
Qed.

#[export] Hint Resolve balance_u64 : openfiat.

(** *** Account loading in an instruction

    Anchor deserialises each declared account before the handler runs; a CPI
    that fails aborts the instruction. *)

Definition load {E T} (m : gmap pubkey T) (k : pubkey) : result E T :=
  ok_or (m !! k) (Anchor AccountNotInitialized).

Definition load_token {E L} `{TokenLedger L} (l : L) (k : pubkey) : result E token_account :=
  ok_or (account_of l k) (Anchor AccountNotInitialized).

Definition load_mint {E L} `{TokenLedger L} (l : L) (m : pubkey) : result E Z :=
  ok_or (decimals_of l m) (Anchor AccountNotInitialized).

(** [transfer_checked(.., amount, mint.decimals)?] *)
Definition token_transfer {E L} `{TokenLedger L} (l : L) (from mint to auth : pubkey) (n : Z)
    : result E L :=
  d ← load_mint l mint;
  ok_or (transfer_checked l from mint to auth n d) TokenProgram.

(** [init] on a typed account: the address must be unused. *)
Definition init_account {E T} (m : gmap pubkey T) (k : pubkey) : result E unit :=
  require (m !! k = None) (Anchor AccountAlreadyInUse).

(** [init] on a token account. *)
Definition init_token {E L} `{TokenLedger L} (l : L) (k mint owner : pubkey) : result E L :=
  ok_or (create_token_account l k mint owner) (Anchor AccountAlreadyInUse).

Lemma load_Ok {E T} (m : gmap pubkey T) k x : load (E:=E) m k = Ok x ↔ m !! k = Some x.
Proof. apply ok_or_Ok. Qed.

Lemma load_token_Ok {E L} `{TokenLedger L} (l : L) k x :
  load_token (E:=E) l k = Ok x ↔ account_of l k = Some x.
Proof. apply ok_or_Ok. Qed.

Lemma load_mint_Ok {E L} `{TokenLedger L} (l : L) k x :
  load_mint (E:=E) l k = Ok x ↔ decimals_of l k = Some x.
Proof. apply ok_or_Ok. Qed.

Lemma init_account_Ok {E T} (m : gmap pubkey T) k u :
  init_account (E:=E) m k = Ok u ↔ m !! k = None.
Proof. apply require_Ok. Qed.

Lemma init_token_Ok {E L} `{TokenLedger L} (l l' : L) k m o :
  init_token (E:=E) l k m o = Ok l' ↔ create_token_account l k m o = Some l'.
Proof. apply ok_or_Ok. Qed.

Lemma token_transfer_Ok {E L} `{TokenLedger L} (l l' : L) from mint to auth n :
  token_transfer (E:=E) l from mint to auth n = Ok l' →
  ∃ d, transfer_checked l from mint to auth n d = Some l'.
Proof. unfold token_transfer. intros (d & _ & Ht%ok_or_Ok)%bind_Ok. eauto. Qed.

(** Inversion of a successful run, account loading included. *)
Ltac inv_run_step :=
  first
  [ inv_ok_step
  | match goal with
    | H : load _ _ = Ok _ |- _ => apply load_Ok in H
    | H : load_token _ _ = Ok _ |- _ => apply load_token_Ok in H
    | H : load_mint _ _ = Ok _ |- _ => apply load_mint_Ok in H
    | H : init_account _ _ = Ok _ |- _ => apply init_account_Ok in H
    | H : init_token _ _ _ _ = Ok _ |- _ => apply init_token_Ok in H
    | H : token_transfer _ _ _ _ _ _ = Ok _ |- _ => apply token_transfer_Ok in H as [? H]
    end ].
Ltac inv_run := repeat (inv_run_step; cbn beta iota in * ).

(** *** A concrete ledger

    Accounts and mints in finite maps; it satisfies every law of
    [TokenLedger], which shows the laws consistent, and evaluates. *)

Record simple_ledger := mkLedger {
  sl_accounts : gmap pubkey token_account;
  sl_mints : gmap pubkey Z;
}.

Definition sl_account_of (l : simple_ledger) (k : pubkey) : option token_account :=
  a ← sl_accounts l !! k;
  if decide (u64 (ta_amount a)) then Some a else None.

Definition sl_transfer (l : simple_ledger) (from mint to auth : pubkey) (n d : Z)
    : option simple_ledger :=
  a ← sl_account_of l from;
  b ← sl_account_of l to;
  if decide (ta_mint a = mint ∧ ta_mint b = mint ∧ ta_owner a = auth ∧
             ta_frozen a = false ∧ ta_frozen b = false ∧ 0 ≤ n ≤ ta_amount a ∧
             sl_mints l !! mint = Some d)
  then
    if decide (from = to) then Some l
    else if decide (ta_amount b + n ≤ U64_MAX) then
      Some (mkLedger
        (<[to := b <| ta_amount := ta_amount b + n |>]>
          (<[from := a <| ta_amount := ta_amount a - n |>]> (sl_accounts l)))
        (sl_mints l))
    else None
  else None.

Definition sl_create (l : simple_ledger) (k mint owner : pubkey) : option simple_ledger :=
  match sl_accounts l !! k with
  | Some _ => None
  | None => Some (mkLedger (<[k := new_token_account mint owner]> (sl_accounts l)) (sl_mints l))
  end.

Lemma sl_account_of_Some l k a :
  sl_account_of l k = Some a ↔ sl_accounts l !! k = Some a ∧ u64 (ta_amount a).
Proof.
  unfold sl_account_of. destruct (sl_accounts l !! k) as [b|]; simpl; [|naive_solver].
  case_decide; naive_solver.
Qed.

Lemma sl_account_of_insert m ms k a j :
  u64 (ta_amount a) →
  sl_account_of (mkLedger (<[k:=a]> m) ms) j =
  if decide (j = k) then Some a else sl_account_of (mkLedger m ms) j.
Proof.
  intros Ha. unfold sl_account_of. simpl. case_decide; subst.
  - rewrite lookup_insert_eq. simpl. by rewrite decide_True.
  - by rewrite lookup_insert_ne by congruence.
Qed.

#[export] Program Instance simple_token_ledger : TokenLedger simple_ledger := {|
  account_of := sl_account_of;
  decimals_of l m := sl_mints l !! m;
  transfer_checked := sl_transfer;
  create_token_account := sl_create;
|}.
Next Obligation. by intros l k a [_ ?]%sl_account_of_Some. Qed.
Next Obligation.
  intros [m ms] from mint to auth n d l'. unfold sl_transfer.
  destruct (sl_account_of _ from) as [a|] eqn:Ha; simpl; [|done].
  destruct (sl_account_of _ to) as [b|] eqn:Hb; simpl; [|done].
  case_decide as Hc; [|done]. destruct Hc as (Hma & Hmb & Ho & _ & _ & Hn & Hd).
  pose proof (proj2 (proj1 (sl_account_of_Some _ _ _) Ha)) as Hua.
  pose proof (proj2 (proj1 (sl_account_of_Some _ _ _) Hb)) as Hub.
  intros Hl'. split; [exists a, b; naive_solver|].
  unfold moved. case_decide; simplify_eq; [naive_solver|].
  case_decide; simplify_eq. split; [|done]. intros k.
  rewrite !sl_account_of_insert by (simpl; ilia).
  repeat case_decide; subst; try done; rewrite ?Ha, ?Hb; simpl; auto.
Qed.
Next Obligation.
  intros l from mint to auth n d a b Ha Hb Hma Hmb Ho Hfa Hfb Hn Hmax Hd.
  unfold sl_transfer. rewrite Ha, Hb. simpl. rewrite decide_True by done.
  case_decide; [eauto|]. rewrite decide_True by auto. eauto.
Qed.
Next Obligation.
  intros [m ms] k mint owner l'. unfold sl_create. simpl.
  destruct (m !! k) eqn:Hk; [done|]. intros [= <-].
  split; [by unfold sl_account_of; simpl; rewrite Hk|]. split; [|done].
  intros j. apply sl_account_of_insert. simpl. ilia.
Qed.

(** ** Hashing

    SHA-256 and the 32-byte encoding of an address.  Nothing is assumed of the
    digest beyond its shape; where an argument needs distinct inputs to give
    distinct digests, the theorem says so. *)

Definition byte (z : Z) : Prop := 0 ≤ z < 256.
#[export] Instance byte_dec z : Decision (byte z).
Proof. unfold byte. apply _. Defined.

Class Hashing := {
  sha256 : list Z → list Z;
  key_bytes : pubkey → list Z;
  sha256_length : ∀ m, length (sha256 m) = 32%nat;
  sha256_bytes : ∀ m, Forall byte (sha256 m);
  key_bytes_length : ∀ k, length (key_bytes k) = 32%nat;
}.

(** The bytes of a string literal. *)
Definition bytes_of (s : string) : list Z :=
  (λ a, Z.of_N (Ascii.N_of_ascii a)) <$> String.list_ascii_of_string s.
#[global] Arguments bytes_of s%_string_scope.

(** Anchor tags each account type with the first eight bytes of a hash of its
    name. *)
Definition anchor_discriminator `{Hashing} (name : string) : list Z :=
  take 8 (sha256 (bytes_of "account:" ++ bytes_of name)).
#[global] Arguments anchor_discriminator {_} name%_string_scope.

Lemma anchor_discriminator_length `{Hashing} name :
  length (anchor_discriminator name) = 8%nat.
Proof. unfold anchor_discriminator. rewrite length_take, sha256_length. lia. Qed.

(** [data[off..off+len]]. *)
Definition slice (off len : nat) (data : list Z) : list Z := take len (drop off data).

Lemma slice_app_r off len (a b : list Z) :
  off = length a → slice off len (a ++ b) = take len b.
Proof. intros ->. unfold slice. by rewrite drop_app_length. Qed.

(** [u64::from_le_bytes] and [to_le_bytes], at any width. *)
Fixpoint from_le (bs : list Z) : Z :=
  match bs with [] => 0 | b :: bs => b + 256 * from_le bs end.

Fixpoint to_le (w : nat) (z : Z) : list Z :=
  match w with O => [] | S w => z mod 256 :: to_le w (z / 256) end.

Lemma to_le_length w z : length (to_le w z) = w.
Proof. revert z. induction w; intros; simpl; [done|]. by rewrite IHw. Qed.

Lemma to_le_bytes w z : Forall byte (to_le w z).
Proof.
  revert z. induction w; intros; simpl; constructor; [|done].
  apply Z.mod_pos_bound. lia.
Qed.

Lemma from_le_range bs : Forall byte bs → 0 ≤ from_le bs < 256 ^ Z.of_nat (length bs).
Proof.
  induction 1 as [|b bs Hb _ IH]; [simpl; lia|].
  cbn [from_le length]. rewrite Nat2Z.inj_succ, Z.pow_succ_r by lia. unfold byte in Hb. lia.
Qed.

Lemma from_to_le w z : 0 ≤ z < 256 ^ Z.of_nat w → from_le (to_le w z) = z.
Proof.
  revert z. induction w as [|w IH]; intros z Hz; [simpl in *; lia|].
  cbn [to_le from_le]. rewrite Nat2Z.inj_succ, Z.pow_succ_r in Hz by lia.
  rewrite IH.
  - pose proof (Z.div_mod z 256). lia.
  - split; [apply Z.div_pos; lia|]. apply Z.div_lt_upper_bound; lia.
Qed.

Lemma to_from_le bs : Forall byte bs → to_le (length bs) (from_le bs) = bs.
Proof.
  induction 1 as [|b bs Hb _ IH]; [done|]. unfold byte in Hb. cbn [from_le length to_le].
  replace ((b + 256 * from_le bs) mod 256) with b
    by (rewrite (Z.mul_comm 256), Z.mod_add, Z.mod_small; lia).
  replace ((b + 256 * from_le bs) / 256) with (from_le bs)
    by (rewrite (Z.mul_comm 256), Z.div_add, Z.div_small; lia).
  by rewrite IH.
Qed.
