(* ===== verification/Shared.v ===== *)
(** * Shared: the types every program uses, the ban gate, the arbitrator draw

    Models [programs/shared/src/lib.rs] and [programs/shared/src/sortition.rs]:
    the ticket a stake account draws for a case, the threshold that widens over
    the commit window, and the seat test that compares them. *)

From S2P Require Import Prelude Runtime.

Inductive Role :=
  | Merchant | Arbitrator | NodeOperator | NotificationProvider
  | OracleProvider | RiskIntelligenceProvider | SnapshotProvider.

Definition all_roles : list Role :=
  [ Merchant; Arbitrator; NodeOperator; NotificationProvider; OracleProvider;
    RiskIntelligenceProvider; SnapshotProvider ].

(** [Role::COUNT] *)
Definition ROLE_COUNT : nat := 7.

(** [Role::index]; the borsh discriminant [role as u8] used in seeds is the
    same number, since the variants carry no explicit discriminant. *)
Definition role_index (r : Role) : nat :=
  match r with
  | Merchant => 0
  | Arbitrator => 1
  | NodeOperator => 2
  | NotificationProvider => 3
  | OracleProvider => 4
  | RiskIntelligenceProvider => 5
  | SnapshotProvider => 6
  end.

Inductive ProposalCategory :=
  | Informational | Standards | Parameter_ | Treasury | ProtocolUpgrade | Constitutional.

Inductive VaultState :=
  | Available | Reserved | AwaitingFiatSettlement | Released | Cancelled | Frozen.

Inductive DisputeOutcome :=
  | BuyerWins | MerchantWins | MutualSettlement | InvalidDispute.

#[export] Instance Role_eq_dec : EqDecision Role.
Proof. solve_decision. Defined.
#[export] Instance ProposalCategory_eq_dec : EqDecision ProposalCategory.
Proof. solve_decision. Defined.
#[export] Instance VaultState_eq_dec : EqDecision VaultState.
Proof. solve_decision. Defined.
#[export] Instance DisputeOutcome_eq_dec : EqDecision DisputeOutcome.
Proof. solve_decision. Defined.

Definition ban_record_key (wallet : pubkey) : pubkey := PdaKey GOVERNANCE BAN_SEED wallet.

(** The gate fails closed: data or a governance owner is a ban. *)
Definition wallet_is_banned (ban_record : account_info) : Prop :=
  info_data ban_record ≠ [] ∨ info_owner ban_record = GOVERNANCE.

#[export] Instance wallet_is_banned_dec i : Decision (wallet_is_banned i).
Proof. unfold wallet_is_banned. apply _. Defined.

Lemma role_index_lt r : (role_index r < ROLE_COUNT)%nat.
Proof. destruct r; unfold ROLE_COUNT; simpl; lia. Qed.

Lemma role_index_inj r1 r2 : role_index r1 = role_index r2 → r1 = r2.
Proof. by destruct r1, r2. Qed.

Lemma empty_not_banned : ¬ wallet_is_banned empty_info.
Proof. by intros [? | ?]. Qed.

#[export] Hint Resolve role_index_lt empty_not_banned : openfiat.

(** ** Sortition *)

Definition SORTITION_BPS_DENOMINATOR : Z := 10000.
Definition SORTITION_WIDENING_STEPS : Z := 8.

Definition SORTITION_DOMAIN : list Z := bytes_of "openfiat-arbitrator-sortition".

Section ticket.
Context `{Hashing}.

Definition sortition_ticket_bps (case_seed : list Z) (stake_account : pubkey) : Z :=
  let digest := sha256 (SORTITION_DOMAIN ++ case_seed ++ key_bytes stake_account) in
  let head := take 8 digest in
  from_le head mod SORTITION_BPS_DENOMINATOR.
End ticket.

(** [u32::checked_shl]: only the shift amount is checked, the bits shifted out
    are dropped. *)
Definition checked_shl_u32 (x s : Z) : option Z :=
  if decide (s < 32) then Some (Z.shiftl x s mod 4294967296) else None.

(** [Ord::clamp] on [0..hi]. *)
Definition clamp (lo hi z : Z) : Z := Z.max lo (Z.min hi z).

Definition sortition_threshold_bps (initial_bps window_start window_end now : Z) : Z :=
  let initial := initial_bps in
  if decide (initial = 0 ∨ SORTITION_BPS_DENOMINATOR ≤ initial) then SORTITION_BPS_DENOMINATOR
  else
    match checked_sub_i64 window_end window_start with
    | None => SORTITION_BPS_DENOMINATOR
    | Some window =>
        if decide (0 < window) then
          let elapsed := clamp 0 window (saturating_sub_i64 now window_start) in
          let step := Z.quot (elapsed * SORTITION_WIDENING_STEPS) window mod 4294967296 in
          let step := Z.min step (SORTITION_WIDENING_STEPS - 1) in
          if decide (step = SORTITION_WIDENING_STEPS - 1) then SORTITION_BPS_DENOMINATOR
          else
            Z.min (default SORTITION_BPS_DENOMINATOR (checked_shl_u32 initial step))
              SORTITION_BPS_DENOMINATOR
        else SORTITION_BPS_DENOMINATOR
    end.

Section seat.
Context `{Hashing}.

Definition qualifies_for_seat (case_seed : list Z) (stake_account : pubkey)
    (initial_bps window_start window_end now : Z) : bool :=
  if decide (initial_bps = 0) then true
  else
    let threshold := sortition_threshold_bps initial_bps window_start window_end now in
    bool_decide (sortition_ticket_bps case_seed stake_account < threshold).
End seat.

(** ** The schedule as a closed form

    The slice of the window the clock is in, from 0 to 7, and the threshold of
    a slice: the initial value doubled once per slice, capped, and fully open
    in the last one. *)

Definition slice_at (window_start window_end now : Z) : Z :=
  Z.min 7 (8 * clamp 0 (window_end - window_start) (now - window_start)
           / (window_end - window_start)).

Definition slice_threshold (initial_bps slice : Z) : Z :=
  if decide (slice = 7) then 10000 else Z.min 10000 (initial_bps * 2 ^ slice).

Lemma slice_at_range ws we now : ws < we → 0 ≤ slice_at ws we now ≤ 7.
Proof.
  intros Hw. unfold slice_at, clamp.
  assert (0 ≤ 8 * Z.max 0 (Z.min (we - ws) (now - ws)) / (we - ws)) by (apply Z.div_pos; lia).
  lia.
Qed.

Lemma slice_at_mono ws we n1 n2 : ws < we → n1 ≤ n2 → slice_at ws we n1 ≤ slice_at ws we n2.
Proof.
  intros Hw Hn. unfold slice_at, clamp. apply Z.min_le_compat_l, Z.div_le_mono; lia.
Qed.

(** The last eighth of the window is the last slice. *)
Lemma slice_at_last ws we now : ws < we → 7 * (we - ws) ≤ 8 * (now - ws) → slice_at ws we now = 7.
Proof.
  intros Hw Hl. unfold slice_at, clamp. apply Z.min_l, Z.div_le_lower_bound; lia.
Qed.

Lemma slice_threshold_mono i s1 s2 :
  0 < i → 0 ≤ s1 ≤ s2 → s2 ≤ 7 → slice_threshold i s1 ≤ slice_threshold i s2.
Proof.
  intros Hi Hs H7. unfold slice_threshold.
  assert (2 ^ s1 ≤ 2 ^ s2) by (apply Z.pow_le_mono_r; lia).
  assert (0 < 2 ^ s1) by (apply Z.pow_pos_nonneg; lia).
  repeat case_decide; subst; nia || lia.
Qed.

(** The program's integer arithmetic computes the closed form. *)
Lemma sortition_threshold_closed_form i ws we now :
  0 < i < 10000 → i64 ws → i64 we → i64 now → ws < we → we - ws ≤ I64_MAX →
  sortition_threshold_bps i ws we now = slice_threshold i (slice_at ws we now).
Proof.
  intros Hi Hws Hwe Hnow Hlt Hmax. unfold sortition_threshold_bps.
  rewrite decide_False by (unfold SORTITION_BPS_DENOMINATOR; lia).
  assert (checked_sub_i64 we ws = Some (we - ws)) as -> by (apply checked_Some; split; ilia).
  rewrite decide_True by lia.
  assert (clamp 0 (we - ws) (saturating_sub_i64 now ws) = clamp 0 (we - ws) (now - ws)) as ->
    by (unfold clamp; ilia).
  unfold SORTITION_WIDENING_STEPS, SORTITION_BPS_DENOMINATOR.
  set (e := clamp 0 (we - ws) (now - ws)).
  assert (0 ≤ e ≤ we - ws) by (unfold e, clamp; lia).
  rewrite Z.quot_div_nonneg by lia.
  assert (0 ≤ e * 8 / (we - ws) ≤ 8)
    by (split; [apply Z.div_pos; lia | apply Z.div_le_upper_bound; lia]).
  rewrite (Z.mod_small (e * 8 / (we - ws))) by lia.
  assert (slice_at ws we now = Z.min (e * 8 / (we - ws)) 7) as ->
    by (unfold slice_at; fold e; rewrite (Z.mul_comm 8), Z.min_comm; done).
  change (8 - 1) with 7. set (s := Z.min (e * 8 / (we - ws)) 7).
  assert (0 ≤ s ≤ 7) by lia. unfold slice_threshold. case_decide as Hs; [done|].
  unfold checked_shl_u32. rewrite decide_True by lia. simpl.
  rewrite Z.shiftl_mul_pow2 by lia.
  assert (2 ^ s ≤ 2 ^ 6) by (apply Z.pow_le_mono_r; lia).
  assert (0 < 2 ^ s) by (apply Z.pow_pos_nonneg; lia).
  rewrite Z.mod_small by nia. apply Z.min_comm.
Qed.

Lemma sortition_threshold_degenerate i ws we now :
  i = 0 ∨ 10000 ≤ i ∨ we ≤ ws ∨ I64_MAX < we - ws →
  sortition_threshold_bps i ws we now = 10000.
Proof.
  intros Hd. unfold sortition_threshold_bps, SORTITION_BPS_DENOMINATOR.
  case_decide; [done|]. destruct (checked_sub_i64 we ws) as [w|] eqn:Hw; [|done].
  apply checked_Some in Hw as [-> Hw]. rewrite decide_False by ilia. done.
Qed.

(** Both together, for any setting and window. *)
Lemma sortition_threshold_schedule i ws we now :
  u16 i → i64 ws → i64 we → i64 now →
  sortition_threshold_bps i ws we now =
    if decide (i = 0 ∨ 10000 ≤ i ∨ we ≤ ws ∨ I64_MAX < we - ws) then 10000
    else slice_threshold i (slice_at ws we now).
Proof.
  intros Hi Hws Hwe Hnow. case_decide as Hd.
  - by apply sortition_threshold_degenerate.
  - apply sortition_threshold_closed_form; try done; ilia.
Qed.

Section facts.
Context `{Hashing}.

Lemma sortition_ticket_range seed k : 0 ≤ sortition_ticket_bps seed k < 10000.
Proof.
  unfold sortition_ticket_bps, SORTITION_BPS_DENOMINATOR. apply Z.mod_pos_bound. lia.
Qed.
End facts.
