(* ===== verification/StakingState.v ===== *)
(** * StakingState: accounts of the staking program

    Models [programs/staking/src/state.rs], [constants.rs], [error.rs],
    [events.rs] and the byte-level reader of escrow's claim in
    [escrow_claim.rs].  Bump seeds are part of address derivation and are not
    stored: an address is its seeds. *)

From S2P Require Import Prelude Runtime Shared.

Definition BPS_DENOMINATOR : Z := 10000.

Module StakingError.
Inductive ErrorCode :=
  | Unauthorized | NotSlashingAuthority | NotRewardsAuthority | InvalidSlashBps
  | InvalidUnbondingPeriod | InsufficientStakedAmount | StillUnbonding
  | NoUnbondingBalance | NoPendingRewards | ZeroAmount | StakeBelowRoleMinimum
  | AlreadyMigrated | WrongMint | ZeroAuthority | Overflow | WalletBanned
  | StakeAccountAlreadyMigrated | NotAStakeAccount | NotARecoveryClaim
  | NotARecoveryReceipt | NothingToRecover | NoStakeToRecoverFrom
  | StakeRecoveryOutstanding.
End StakingError.

(** [pub struct StakingConfig]; the per-role arrays are lists of length
    [Role::COUNT]. *)
Record StakingConfig := mkStakingConfig {
  sc_admin : pubkey;
  sc_mint : pubkey;
  min_stake_by_role : list Z;
  unbonding_period_secs_by_role : list Z;
  slash_bps : Z;
  slashing_authority : pubkey;
  slash_destination : pubkey;
  rewards_authority : pubkey;
}.
#[export] Instance StakingConfig_eta : Settable StakingConfig := fun r =>
  mkStakingConfig (sc_admin r) (sc_mint r) (min_stake_by_role r)
    (unbonding_period_secs_by_role r) (slash_bps r) (slashing_authority r)
    (slash_destination r) (rewards_authority r).

(** [min_stake_for], [unbonding_period_for]: the arrays have one entry per
    role, so the default is never taken for a well-formed config. *)
Definition min_stake_for (c : StakingConfig) (r : Role) : Z :=
  default 0 (min_stake_by_role c !! role_index r).

Definition unbonding_period_for (c : StakingConfig) (r : Role) : Z :=
  default 0 (unbonding_period_secs_by_role c !! role_index r).

Definition is_legal_balance (c : StakingConfig) (r : Role) (amount : Z) : Prop :=
  amount = 0 ∨ min_stake_for c r ≤ amount.
#[export] Instance is_legal_balance_dec c r a : Decision (is_legal_balance c r a).
Proof. unfold is_legal_balance. apply _. Defined.

Record StakeAccount := mkStakeAccount {
  sa_owner : pubkey;
  sa_role : Role;
  sa_amount : Z;
  unbonding_amount : Z;
  unbonding_release_at : Z;
  slashed_total : Z;
  pending_rewards : Z;
  first_staked_at : Z;
}.
#[export] Instance StakeAccount_eta : Settable StakeAccount := fun r =>
  mkStakeAccount (sa_owner r) (sa_role r) (sa_amount r) (unbonding_amount r)
    (unbonding_release_at r) (slashed_total r) (pending_rewards r) (first_staked_at r).

Definition stake_account_key (owner : pubkey) (r : Role) : pubkey :=
  PdaKeyNum STAKING STAKE_ACCOUNT_SEED owner (Z.of_nat (role_index r)).
Definition staking_config_key : pubkey := Pda STAKING STAKING_CONFIG_SEED.
Definition stake_vault_key : pubkey := Pda STAKING STAKE_VAULT_SEED.
Definition rewards_vault_key : pubkey := Pda STAKING REWARDS_VAULT_SEED.
Definition recovery_receipt_key (merchant : pubkey) : pubkey :=
  PdaKey STAKING STAKE_RECOVERY_RECEIPT_SEED merchant.
Definition recovery_claim_key (merchant mint : pubkey) : pubkey :=
  PdaKeys ESCROW STAKE_RECOVERY_CLAIM_SEED merchant mint.

Definition stake_age_secs (a : StakeAccount) (now : Z) : option Z :=
  if decide (sa_amount a = 0 ∨ first_staked_at a = 0) then None
  else Some (saturating_sub_i64 now (first_staked_at a)).

Definition meets_stake_age (a : StakeAccount) (now min_age_secs : Z) : Prop :=
  if decide (min_age_secs ≤ 0) then True
  else match stake_age_secs a now with Some age => min_age_secs ≤ age | None => False end.
#[export] Instance meets_stake_age_dec a n m : Decision (meets_stake_age a n m).
Proof. unfold meets_stake_age. destruct (decide (m ≤ 0)), (stake_age_secs a n); apply _. Defined.

Definition effective_stake (a : StakeAccount) (c : StakingConfig) : Z :=
  if decide (min_stake_for c (sa_role a) ≤ sa_amount a) then sa_amount a else 0.

Record StakeRecoveryReceipt := mkReceipt {
  rr_merchant : pubkey;
  recovered_total : Z;
  recovery_count : Z;
}.
#[export] Instance Receipt_eta : Settable StakeRecoveryReceipt := fun r =>
  mkReceipt (rr_merchant r) (recovered_total r) (recovery_count r).

(** ** Events *)

Inductive staking_event :=
  | RewardDistributed (stake_account owner : pubkey) (role : Role)
      (epoch amount pending timestamp : Z)
  | RewardsClaimed (stake_account owner : pubkey) (role : Role) (amount : Z)
      (destination : pubkey) (timestamp : Z)
  | SlashApplied (stake_account owner : pubkey) (role : Role)
      (misconduct_code amount remaining_stake slashed : Z) (eligible_after : bool)
      (destination : pubkey) (timestamp : Z)
  | StakeShortfallRecovered (stake_account merchant claim : pubkey)
      (amount from_unbonding from_active owed recovered outstanding remaining_stake
       remaining_unbonding : Z) (eligible_after : bool) (destination : pubkey) (timestamp : Z)
  | RewardsVaultFunded (funder : pubkey) (amount vault_balance timestamp : Z)
  | StakingConfigUpdated (admin slashing destination rewards : pubkey) (bps : Z)
      (min_stakes unbonding_periods : list Z) (timestamp : Z)
  | StakeAccountMigrated (stake_account : pubkey) (owner : list Z)
      (amount first_staked timestamp : Z).

(** ** The bytes of a receipt and of escrow's claim

    [StakeRecoveryReceipt] as Anchor stores it: discriminator, fields in
    declaration order, little-endian. *)

Section bytes.
Context `{Hashing}.

Definition encode_receipt (r : StakeRecoveryReceipt) (bump : Z) : list Z :=
  anchor_discriminator "StakeRecoveryReceipt" ++ key_bytes (rr_merchant r)
    ++ to_le 8 (recovered_total r) ++ to_le 4 (recovery_count r) ++ [bump].

(** [StakeRecoveryReceipt::recovered_total_of] *)
Definition recovered_total_of (info : account_info) (merchant : pubkey)
    : result StakingError.ErrorCode Z :=
  if decide (info_data info = []) then Ok 0
  else
    _ ← require (info_owner info = STAKING) (Code StakingError.NotARecoveryReceipt);
    let data := info_data info in
    _ ← require (48 ≤ length data)%nat (Code StakingError.NotARecoveryReceipt);
    _ ← require (take 8 data = anchor_discriminator "StakeRecoveryReceipt")
          (Code StakingError.NotARecoveryReceipt);
    _ ← require (slice 8 32 data = key_bytes merchant) (Code StakingError.NotARecoveryReceipt);
    Ok (from_le (slice 40 8 data)).

Definition STAKE_RECOVERY_CLAIM_DISCRIMINATOR : list Z :=
  [209; 252; 118; 180; 132; 41; 13; 159].
Definition CLAIM_MERCHANT_OFFSET : nat := 8.
Definition CLAIM_MINT_OFFSET : nat := CLAIM_MERCHANT_OFFSET + 32.
Definition CLAIM_OWED_TOTAL_OFFSET : nat := CLAIM_MINT_OFFSET + 32.
Definition CLAIM_PREFIX_LEN : nat := CLAIM_OWED_TOTAL_OFFSET + 8.

Record StakeRecoveryClaimView := mkClaimView {
  cv_merchant : list Z;
  cv_mint : list Z;
  cv_owed_total : Z;
}.

Definition read_stake_recovery_claim (info : account_info) (merchant mint : pubkey)
    : result StakingError.ErrorCode (option StakeRecoveryClaimView) :=
  if decide (info_data info = []) then Ok None
  else
    _ ← require (info_owner info = ESCROW) (Code StakingError.NotARecoveryClaim);
    let data := info_data info in
    _ ← require (CLAIM_PREFIX_LEN ≤ length data)%nat (Code StakingError.NotARecoveryClaim);
    _ ← require (take 8 data = STAKE_RECOVERY_CLAIM_DISCRIMINATOR)
          (Code StakingError.NotARecoveryClaim);
    let view := mkClaimView (slice CLAIM_MERCHANT_OFFSET 32 data)
                  (slice CLAIM_MINT_OFFSET 32 data)
                  (from_le (slice CLAIM_OWED_TOTAL_OFFSET 8 data)) in
    _ ← require (cv_merchant view = key_bytes merchant) (Code StakingError.NotARecoveryClaim);
    _ ← require (cv_mint view = key_bytes mint) (Code StakingError.NotARecoveryClaim);
    Ok (Some view).
End bytes.

Definition outstanding (owed_total recovered_total : Z) : Z :=
  saturating_sub_u64 owed_total recovered_total.

(** ** Facts about the pure readers *)

Lemma effective_stake_zero_or_min a c :
  effective_stake a c = 0 ∨ min_stake_for c (sa_role a) ≤ effective_stake a c.
Proof. unfold effective_stake. case_decide; auto. Qed.

Lemma effective_stake_le a c : 0 ≤ sa_amount a → 0 ≤ effective_stake a c ≤ sa_amount a.
Proof. intros. unfold effective_stake. case_decide; lia. Qed.

Lemma effective_stake_legal a c :
  is_legal_balance c (sa_role a) (sa_amount a) → effective_stake a c = sa_amount a.
Proof. unfold is_legal_balance, effective_stake. case_decide; lia. Qed.

Section bytes_facts.
Context `{Hashing}.

(** Reading back what was written. *)
Lemma recovered_total_of_encode r bump :
  u64 (recovered_total r) →
  recovered_total_of (mkInfo STAKING (encode_receipt r bump)) (rr_merchant r)
  = Ok (recovered_total r).
Proof.
  intros Hr. unfold recovered_total_of, encode_receipt. cbn [info_data info_owner].
  pose proof (anchor_discriminator_length "StakeRecoveryReceipt") as Hd.
  set (d := anchor_discriminator "StakeRecoveryReceipt") in *.
  rewrite decide_False.
  2: { intros Hnil%(f_equal length). rewrite length_app, Hd in Hnil. simpl in Hnil. lia. }
  rewrite !require_true.
  - rewrite (app_assoc d), slice_app_r by (by rewrite length_app, Hd, key_bytes_length).
    rewrite take_app_length' by (by rewrite to_le_length).
    rewrite from_to_le; [done|]. simpl. ilia.
  - rewrite slice_app_r by done. by rewrite take_app_length' by (by rewrite key_bytes_length).
  - by rewrite take_app_length'.
  - rewrite !length_app, Hd, key_bytes_length, !to_le_length. simpl. lia.
  - done.
Qed.

Lemma recovered_total_of_empty m : recovered_total_of empty_info m = Ok 0.
Proof. done. Qed.
End bytes_facts.
