(* ===== verification/Staking.v ===== *)
(** * Staking: instructions of the staking program

    Models [programs/staking/src/instructions/].  Each handler is preceded by
    the constraints of its [#[derive(Accounts)]] struct.  Raw accounts of the
    escrow and governance programs are read through the chain view. *)

From S2P Require Import Prelude Runtime Shared StakingState.
Import StakingError.

Record staking_state (L : Type) := mkStaking {
  st_config : option StakingConfig;
  st_accounts : gmap pubkey StakeAccount;
  st_receipts : gmap pubkey StakeRecoveryReceipt;
  st_ledger : L;
  st_events : list staking_event;
}.
Arguments mkStaking {L}.
Arguments st_config {L}.
Arguments st_accounts {L}.
Arguments st_receipts {L}.
Arguments st_ledger {L}.
Arguments st_events {L}.
#[export] Instance staking_state_eta L : Settable (staking_state L) := fun r =>
  mkStaking (st_config r) (st_accounts r) (st_receipts r) (st_ledger r) (st_events r).

(** [InitializeStakingConfigParams]; [UpdateStakingConfigParams] has the same
    fields without the destination, which comes as an account. *)
Record staking_params := mkStakingParams {
  p_min_stake_by_role : list Z;
  p_unbonding_period_secs_by_role : list Z;
  p_slash_bps : Z;
  p_slashing_authority : pubkey;
  p_rewards_authority : pubkey;
}.

(** [Pubkey::default()] *)
Definition default_key : pubkey := Key 0.

Section staking.
Context {L : Type} `{TokenLedger L} `{Hashing}.
Abbreviation state := (staking_state L).
Abbreviation res := (result ErrorCode).
Implicit Types (s : state) (c : chain).

Definition load_config s : res StakingConfig :=
  ok_or (st_config s) (Anchor AccountNotInitialized).

Definition emit s (e : staking_event) : state := s <| st_events := st_events s ++ [e] |>.

Definition require_valid_unbonding_periods (periods : list Z) : res unit :=
  require (Forall (λ secs, 0 < secs) periods) (Code InvalidUnbondingPeriod).

(** [initialize_staking_config]: creates the config and both vaults. *)
Definition handle_initialize_staking_config (admin mint destination : pubkey)
    (p : staking_params) s : res state :=
  _ ← load_mint (st_ledger s) mint;
  _ ← require (st_config s = None) (Anchor AccountAlreadyInUse);
  l ← init_token (st_ledger s) stake_vault_key mint staking_config_key;
  l ← init_token l rewards_vault_key mint staking_config_key;
  _ ← require (p_slash_bps p ≤ BPS_DENOMINATOR) (Code InvalidSlashBps);
  _ ← require_valid_unbonding_periods (p_unbonding_period_secs_by_role p);
  Ok (s <| st_ledger := l |>
        <| st_config := Some (mkStakingConfig admin mint (p_min_stake_by_role p)
             (p_unbonding_period_secs_by_role p) (p_slash_bps p) (p_slashing_authority p)
             destination (p_rewards_authority p)) |>).

Definition handle_update_staking_config c (admin mint destination : pubkey)
    (p : staking_params) s : res state :=
  cfg ← load_config s;
  _ ← require (sc_admin cfg = admin) (Code Unauthorized);
  _ ← load_mint (st_ledger s) mint;
  _ ← require (mint = sc_mint cfg) (Code WrongMint);
  dest ← load_token (st_ledger s) destination;
  _ ← require (ta_mint dest = mint) (Anchor ConstraintTokenMint);
  _ ← require (p_slash_bps p ≤ BPS_DENOMINATOR) (Code InvalidSlashBps);
  _ ← require_valid_unbonding_periods (p_unbonding_period_secs_by_role p);
  _ ← require (p_slashing_authority p ≠ default_key) (Code ZeroAuthority);
  _ ← require (p_rewards_authority p ≠ default_key) (Code ZeroAuthority);
  let cfg := mkStakingConfig (sc_admin cfg) (sc_mint cfg) (p_min_stake_by_role p)
               (p_unbonding_period_secs_by_role p) (p_slash_bps p)
               (p_slashing_authority p) destination (p_rewards_authority p) in
  Ok (emit (s <| st_config := Some cfg |>)
        (StakingConfigUpdated admin (slashing_authority cfg) (slash_destination cfg)
           (rewards_authority cfg) (slash_bps cfg) (min_stake_by_role cfg)
           (unbonding_period_secs_by_role cfg) (now c))).

Definition handle_initialize_stake_account (owner : pubkey) (role : Role) s : res state :=
  let k := stake_account_key owner role in
  _ ← init_account (st_accounts s) k;
  Ok (s <| st_accounts := <[k := mkStakeAccount owner role 0 0 0 0 0 0]> (st_accounts s) |>).

(** The constraints on an owner-signed stake account: its address is derived
    from the signer and the stored role, and [has_one = owner]. *)
Definition load_own_stake s (owner k : pubkey) : res StakeAccount :=
  a ← load (st_accounts s) k;
  _ ← require (k = stake_account_key owner (sa_role a)) (Anchor ConstraintSeeds);
  _ ← require (sa_owner a = owner) (Anchor ConstraintHasOne);
  Ok a.

(** Where the signer is an authority, the address is derived from the stored
    owner. *)
Definition load_any_stake s (k : pubkey) : res StakeAccount :=
  a ← load (st_accounts s) k;
  _ ← require (k = stake_account_key (sa_owner a) (sa_role a)) (Anchor ConstraintSeeds);
  Ok a.

Definition handle_stake c (owner k from mint : pubkey) (amount : Z) s : res state :=
  cfg ← load_config s;
  _ ← require (sc_mint cfg = mint) (Anchor ConstraintRaw);
  a ← load_own_stake s owner k;
  _ ← load_token (st_ledger s) stake_vault_key;
  f ← load_token (st_ledger s) from;
  _ ← require (ta_mint f = mint) (Anchor ConstraintRaw);
  _ ← require (¬ wallet_is_banned (info_at c (ban_record_key owner))) (Code WalletBanned);
  new_amount ← ok_or (checked_add_u64 (sa_amount a) amount) (Code Overflow);
  _ ← require (is_legal_balance cfg (sa_role a) new_amount) (Code StakeBelowRoleMinimum);
  l ← token_transfer (st_ledger s) from mint stake_vault_key owner amount;
  let a := if decide (sa_amount a = 0 ∧ 0 < new_amount)
           then a <| first_staked_at := now c |> else a in
  Ok (s <| st_ledger := l |>
        <| st_accounts := <[k := a <| sa_amount := new_amount |>]> (st_accounts s) |>).

Definition handle_request_unstake c (owner k : pubkey) (amount : Z) s : res state :=
  cfg ← load_config s;
  a ← load_own_stake s owner k;
  _ ← require (amount ≤ sa_amount a) (Code InsufficientStakedAmount);
  let remaining := sa_amount a - amount in
  _ ← require (is_legal_balance cfg (sa_role a) remaining) (Code StakeBelowRoleMinimum);
  let a := a <| sa_amount := remaining |> in
  let a := if decide (remaining = 0) then a <| first_staked_at := 0 |> else a in
  u ← ok_or (checked_add_u64 (unbonding_amount a) amount) (Code Overflow);
  r ← ok_or (checked_add_i64 (now c) (unbonding_period_for cfg (sa_role a))) (Code Overflow);
  Ok (s <| st_accounts :=
        <[k := a <| unbonding_amount := u |> <| unbonding_release_at := r |>]> (st_accounts s) |>).

(** The receipt of a wallet as the raw account [withdraw_unstaked] is handed;
    its bump byte is not read. *)
Definition receipt_info s (merchant : pubkey) : account_info :=
  match st_receipts s !! recovery_receipt_key merchant with
  | Some r => mkInfo STAKING (encode_receipt r 0)
  | None => empty_info
  end.

Definition handle_withdraw_unstaked c (owner k to mint : pubkey) s : res state :=
  cfg ← load_config s;
  _ ← require (sc_mint cfg = mint) (Anchor ConstraintRaw);
  a ← load_own_stake s owner k;
  _ ← load_token (st_ledger s) stake_vault_key;
  t ← load_token (st_ledger s) to;
  _ ← require (ta_mint t = mint) (Anchor ConstraintRaw);
  _ ← require (0 < unbonding_amount a) (Code NoUnbondingBalance);
  _ ← require (unbonding_release_at a ≤ now c) (Code StillUnbonding);
  _ ← (if decide (sa_role a = Merchant) then
         claim ← read_stake_recovery_claim (info_at c (recovery_claim_key owner mint)) owner mint;
         let owed_total := default 0 (cv_owed_total <$> claim) in
         recovered ← recovered_total_of (receipt_info s owner) owner;
         require (outstanding owed_total recovered = 0) (Code StakeRecoveryOutstanding)
       else Ok ());
  l ← token_transfer (st_ledger s) stake_vault_key mint to staking_config_key
        (unbonding_amount a);
  Ok (s <| st_ledger := l |>
        <| st_accounts := <[k := a <| unbonding_amount := 0 |>]> (st_accounts s) |>).

Definition handle_slash c (authority k destination mint : pubkey) (misconduct_code : Z) s
    : res state :=
  cfg ← load_config s;
  _ ← require (authority = slashing_authority cfg) (Code NotSlashingAuthority);
  _ ← require (sc_mint cfg = mint) (Anchor ConstraintRaw);
  a ← load_any_stake s k;
  _ ← load_token (st_ledger s) stake_vault_key;
  _ ← load_token (st_ledger s) destination;
  _ ← require (destination = slash_destination cfg) (Anchor ConstraintRaw);
  p ← ok_or (checked_mul_u128 (sa_amount a) (slash_bps cfg)) (Code Overflow);
  q ← ok_or (checked_div_u128 p BPS_DENOMINATOR) (Code Overflow);
  let slash_amount := as_u64 q in
  l ← (if decide (0 < slash_amount)
       then token_transfer (st_ledger s) stake_vault_key mint destination staking_config_key
              slash_amount
       else Ok (st_ledger s));
  amount ← ok_or (checked_sub_u64 (sa_amount a) slash_amount) (Code Overflow);
  slashed ← ok_or (checked_add_u64 (slashed_total a) slash_amount) (Code Overflow);
  let a := a <| sa_amount := amount |> <| slashed_total := slashed |> in
  let a := if decide (amount = 0) then a <| first_staked_at := 0 |> else a in
  Ok (emit (s <| st_ledger := l |> <| st_accounts := <[k := a]> (st_accounts s) |>)
        (SlashApplied k (sa_owner a) (sa_role a) misconduct_code slash_amount amount slashed
           (bool_decide (min_stake_for cfg (sa_role a) ≤ amount)) destination (now c))).

Definition handle_fund_rewards_vault c (funder from mint : pubkey) (amount : Z) s : res state :=
  cfg ← load_config s;
  _ ← require (sc_mint cfg = mint) (Anchor ConstraintRaw);
  _ ← load_token (st_ledger s) rewards_vault_key;
  f ← load_token (st_ledger s) from;
  _ ← require (ta_mint f = mint) (Anchor ConstraintRaw);
  _ ← require (¬ wallet_is_banned (info_at c (ban_record_key funder))) (Code WalletBanned);
  _ ← require (0 < amount) (Code ZeroAmount);
  l ← token_transfer (st_ledger s) from mint rewards_vault_key funder amount;
  vault ← load_token l rewards_vault_key;
  Ok (emit (s <| st_ledger := l |>)
        (RewardsVaultFunded funder amount (ta_amount vault) (now c))).

Definition handle_distribute_reward c (authority k : pubkey) (epoch amount : Z) s : res state :=
  cfg ← load_config s;
  _ ← require (authority = rewards_authority cfg) (Code NotRewardsAuthority);
  a ← load_any_stake s k;
  p ← ok_or (checked_add_u64 (pending_rewards a) amount) (Code Overflow);
  let a := a <| pending_rewards := p |> in
  Ok (emit (s <| st_accounts := <[k := a]> (st_accounts s) |>)
        (RewardDistributed k (sa_owner a) (sa_role a) epoch amount p (now c))).

Definition handle_claim_rewards c (owner k to mint : pubkey) s : res state :=
  cfg ← load_config s;
  _ ← require (sc_mint cfg = mint) (Anchor ConstraintRaw);
  a ← load_own_stake s owner k;
  _ ← load_token (st_ledger s) rewards_vault_key;
  t ← load_token (st_ledger s) to;
  _ ← require (ta_mint t = mint) (Anchor ConstraintRaw);
  let amount := pending_rewards a in
  _ ← require (0 < amount) (Code NoPendingRewards);
  l ← token_transfer (st_ledger s) rewards_vault_key mint to staking_config_key amount;
  Ok (emit (s <| st_ledger := l |>
              <| st_accounts := <[k := a <| pending_rewards := 0 |>]> (st_accounts s) |>)
        (RewardsClaimed k owner (sa_role a) amount to (now c))).

(** [recover_stake_shortfall]; the payer only funds the receipt's rent. *)
Definition handle_recover_stake_shortfall c (k mint : pubkey) s : res state :=
  _ ← load_mint (st_ledger s) mint;
  cfg ← load_config s;
  _ ← require (sc_mint cfg = mint) (Code WrongMint);
  a ← load (st_accounts s) k;
  _ ← require (k = stake_account_key (sa_owner a) Merchant) (Anchor ConstraintSeeds);
  _ ← require (sa_role a = Merchant) (Code NotAStakeAccount);
  _ ← load_token (st_ledger s) stake_vault_key;
  let merchant := sa_owner a in
  let rk := recovery_receipt_key merchant in
  (* init_if_needed *)
  let receipt := default (mkReceipt default_key 0 0) (st_receipts s !! rk) in
  let destination := PdaKeys ESCROW LIQUIDITY_VAULT_TOKENS_SEED merchant mint in
  _ ← load_token (st_ledger s) destination;
  claim ← read_stake_recovery_claim (info_at c (recovery_claim_key merchant mint)) merchant mint;
  let owed_total := default 0 (cv_owed_total <$> claim) in
  let due := outstanding owed_total (recovered_total receipt) in
  _ ← require (0 < due) (Code NothingToRecover);
  let from_unbonding := Z.min due (unbonding_amount a) in
  let from_active := Z.min (saturating_sub_u64 due from_unbonding) (sa_amount a) in
  amount ← ok_or (checked_add_u64 from_unbonding from_active) (Code Overflow);
  _ ← require (0 < amount) (Code NoStakeToRecoverFrom);
  l ← token_transfer (st_ledger s) stake_vault_key mint destination staking_config_key amount;
  u ← ok_or (checked_sub_u64 (unbonding_amount a) from_unbonding) (Code Overflow);
  act ← ok_or (checked_sub_u64 (sa_amount a) from_active) (Code Overflow);
  let a := a <| unbonding_amount := u |> <| sa_amount := act |> in
  let a := if decide (act = 0) then a <| first_staked_at := 0 |> else a in
  rec ← ok_or (checked_add_u64 (recovered_total receipt) amount) (Code Overflow);
  cnt ← ok_or (checked_add_u32 (recovery_count receipt) 1) (Code Overflow);
  Ok (emit (s <| st_ledger := l |>
              <| st_accounts := <[k := a]> (st_accounts s) |>
              <| st_receipts := <[rk := mkReceipt merchant rec cnt]> (st_receipts s) |>)
        (StakeShortfallRecovered k merchant (recovery_claim_key merchant mint) amount
           from_unbonding from_active owed_total rec (outstanding owed_total rec) act u
           (bool_decide (min_stake_for cfg Merchant ≤ act)) destination (now c))).

(** ** Dispatch

    The [#[program]] module: one instruction per entry point, with its signer
    and arguments. *)

Inductive staking_ix :=
  | InitializeStakingConfig (admin mint destination : pubkey) (p : staking_params)
  | UpdateStakingConfig (admin mint destination : pubkey) (p : staking_params)
  | InitializeStakeAccount (owner : pubkey) (role : Role)
  | Stake (owner k from mint : pubkey) (amount : Z)
  | RequestUnstake (owner k : pubkey) (amount : Z)
  | WithdrawUnstaked (owner k to mint : pubkey)
  | Slash (authority k destination mint : pubkey) (misconduct_code : Z)
  | FundRewardsVault (funder from mint : pubkey) (amount : Z)
  | DistributeReward (authority k : pubkey) (epoch amount : Z)
  | ClaimRewards (owner k to mint : pubkey)
  | RecoverStakeShortfall (k mint : pubkey).

Definition process c (i : staking_ix) s : res state :=
  match i with
  | InitializeStakingConfig admin mint d p => handle_initialize_staking_config admin mint d p s
  | UpdateStakingConfig admin mint d p => handle_update_staking_config c admin mint d p s
  | InitializeStakeAccount owner role => handle_initialize_stake_account owner role s
  | Stake owner k from mint amount => handle_stake c owner k from mint amount s
  | RequestUnstake owner k amount => handle_request_unstake c owner k amount s
  | WithdrawUnstaked owner k to mint => handle_withdraw_unstaked c owner k to mint s
  | Slash auth k d mint code => handle_slash c auth k d mint code s
  | FundRewardsVault funder from mint amount => handle_fund_rewards_vault c funder from mint amount s
  | DistributeReward auth k epoch amount => handle_distribute_reward c auth k epoch amount s
  | ClaimRewards owner k to mint => handle_claim_rewards c owner k to mint s
  | RecoverStakeShortfall k mint => handle_recover_stake_shortfall c k mint s
  end.

(** What the transaction format guarantees of an instruction: integers fit
    their declared width, arrays have their declared length, and a signer
    holds a private key, so it is not an address this program derives. *)
Definition params_typed (p : staking_params) : Prop :=
  length (p_min_stake_by_role p) = ROLE_COUNT ∧ Forall u64 (p_min_stake_by_role p) ∧
  length (p_unbonding_period_secs_by_role p) = ROLE_COUNT ∧
  Forall i64 (p_unbonding_period_secs_by_role p) ∧ u16 (p_slash_bps p).

Definition ix_typed (i : staking_ix) : Prop :=
  match i with
  | InitializeStakingConfig _ _ _ p | UpdateStakingConfig _ _ _ p => params_typed p
  | Stake owner _ _ _ amount => derived_by STAKING owner = false ∧ u64 amount
  | RequestUnstake _ _ amount => u64 amount
  | FundRewardsVault funder _ _ amount => derived_by STAKING funder = false ∧ u64 amount
  | DistributeReward _ _ _ amount => u64 amount
  | _ => True
  end.

(** One transition: an instruction that succeeds, or a change of the ledger
    made by other programs. *)
Inductive staking_step : state → state → Prop :=
  | step_ix c i s s' : i64 (now c) → ix_typed i → process c i s = Ok s' → staking_step s s'
  | step_ledger s l' :
      ledger_respects STAKING (st_ledger s) l' → staking_step s (s <| st_ledger := l' |>).
End staking.
