(* ===== verification/StakingInv.v ===== *)
(** * StakingInv: solvency of the stake vault and the stake-age clock

    The invariant of the staking program, preserved by every instruction and
    by anything other programs do to the ledger, and what follows from it. *)

From S2P Require Import Prelude Runtime Shared StakingState Staking.
Import StakingError.

Definition config_wf (cfg : StakingConfig) : Prop :=
  length (min_stake_by_role cfg) = ROLE_COUNT ∧ Forall u64 (min_stake_by_role cfg) ∧
  length (unbonding_period_secs_by_role cfg) = ROLE_COUNT ∧
  Forall (λ z, 0 < z) (unbonding_period_secs_by_role cfg) ∧ 0 ≤ slash_bps cfg ≤ 10000.

(** A stake account's counters fit their width, and an empty position has no
    age. *)
Definition stake_wf (a : StakeAccount) : Prop :=
  u64 (sa_amount a) ∧ u64 (unbonding_amount a) ∧ u64 (slashed_total a) ∧
  u64 (pending_rewards a) ∧ (sa_amount a = 0 → first_staked_at a = 0).

(** What the program owes out of its stake vault. *)
Definition owed_to (a : StakeAccount) : Z := sa_amount a + unbonding_amount a.

Definition staked_total (m : gmap pubkey StakeAccount) : Z := map_sum (λ _, owed_to) m.

Section inv.
Context {L : Type} `{TokenLedger L} `{Hashing}.
Abbreviation state := (staking_state L).
Implicit Types (s : state) (l : L) (c : chain).

Definition vaults_ok l (mint : pubkey) : Prop :=
  vault_account l stake_vault_key mint staking_config_key ∧
  vault_account l rewards_vault_key mint staking_config_key.

Record staking_inv s : Prop := {
  inv_accounts : ∀ k a, st_accounts s !! k = Some a →
    k = stake_account_key (sa_owner a) (sa_role a) ∧ stake_wf a;
  inv_config : ∀ cfg, st_config s = Some cfg →
    config_wf cfg ∧ vaults_ok (st_ledger s) (sc_mint cfg);
  inv_empty : st_config s = None → staked_total (st_accounts s) = 0;
  inv_backing : staked_total (st_accounts s) ≤ balance (st_ledger s) stake_vault_key;
  inv_receipts : ∀ k r, st_receipts s !! k = Some r →
    k = recovery_receipt_key (rr_merchant r) ∧ u64 (recovered_total r);
}.

Lemma config_key_derived : derived_by STAKING staking_config_key = true.
Proof. done. Qed.

Lemma owed_to_nonneg a : stake_wf a → 0 ≤ owed_to a.
Proof. unfold stake_wf, owed_to. ilia. Qed.

Lemma transfer_vaults_ok l l' from m to auth n d mint :
  transfer_checked l from m to auth n d = Some l' → vaults_ok l mint → vaults_ok l' mint.
Proof. intros Ht [? ?]. split; by eapply transfer_vault_account. Qed.

(** Replacing one stake account, together with the ledger: the invariant needs
    only that the vault moved at least as much as the account's claim. *)
Lemma inv_update s l' k a a' receipts events cfg :
  staking_inv s → st_config s = Some cfg → st_accounts s !! k = Some a →
  sa_owner a' = sa_owner a → sa_role a' = sa_role a → stake_wf a' →
  vaults_ok l' (sc_mint cfg) →
  owed_to a' - owed_to a ≤ balance l' stake_vault_key - balance (st_ledger s) stake_vault_key →
  (∀ k r, receipts !! k = Some r → k = recovery_receipt_key (rr_merchant r) ∧ u64 (recovered_total r)) →
  staking_inv (mkStaking (st_config s) (<[k:=a']> (st_accounts s)) receipts l' events).
Proof.
  intros Hinv Hcfg Ha Ho Hr Hwf Hv Hbal Hrec. split; simpl.
  - intros j b. rewrite lookup_insert. case_decide as Hjk; intros Hb.
    + simplify_eq. destruct (inv_accounts _ Hinv _ _ Ha) as [-> _]. by rewrite Ho, Hr.
    + by eapply inv_accounts.
  - intros cfg' Hcfg'. simplify_eq. split; [by eapply inv_config|done].
  - congruence.
  - unfold staked_total. rewrite (map_sum_insert _ _ _ a) by done.
    pose proof (inv_backing _ Hinv). unfold staked_total in *. lia.
  - done.
Qed.

Lemma stake_backed s k a :
  staking_inv s → st_accounts s !! k = Some a →
  sa_amount a + unbonding_amount a ≤ balance (st_ledger s) stake_vault_key.
Proof.
  intros Hinv Ha. etrans; [|apply (inv_backing _ Hinv)]. unfold staked_total.
  apply (map_sum_lookup_le (λ _, owed_to) _ _ _ Ha).
  intros j b Hb. by eapply owed_to_nonneg, inv_accounts.
Qed.

Lemma stake_key_role owner r r' : stake_account_key owner r = stake_account_key owner r' → r' = r.
Proof. intros [= Hi%Nat2Z.inj]. symmetry. by apply role_index_inj. Qed.

Lemma inv_emit s e : staking_inv s → staking_inv (emit s e).
Proof. intros []. by split. Qed.

Lemma load_own_stake_Ok s owner k a :
  load_own_stake s owner k = Ok a →
  st_accounts s !! k = Some a ∧ k = stake_account_key owner (sa_role a) ∧ sa_owner a = owner.
Proof. unfold load_own_stake. intros. inv_run. done. Qed.

Lemma load_any_stake_Ok s k a :
  load_any_stake s k = Ok a →
  st_accounts s !! k = Some a ∧ k = stake_account_key (sa_owner a) (sa_role a).
Proof. unfold load_any_stake. intros. inv_run. done. Qed.
End inv.

Ltac inv_staking :=
  repeat (inv_run_step || match goal with
    | H : load_own_stake _ _ _ = Ok _ |- _ => apply load_own_stake_Ok in H as (? & ? & ?)
    | H : load_any_stake _ _ = Ok _ |- _ => apply load_any_stake_Ok in H as (? & ?)
    | H : load_config _ = Ok _ |- _ => apply ok_or_Ok in H
    | H : require_valid_unbonding_periods _ = Ok _ |- _ => apply require_Ok in H
    end; cbn beta iota in * ).

Section preservation.
Context {L : Type} `{TokenLedger L} `{Hashing}.
Abbreviation state := (staking_state L).
Implicit Types (s : state) (l : L) (c : chain).

(** A transfer into or out of the stake vault, as a bound on its balance. *)
Lemma stake_vault_credit l l' from mint to owner n d m :
  transfer_checked l from mint to owner n d = Some l' →
  vault_account l stake_vault_key m staking_config_key →
  derived_by STAKING owner = false → to = stake_vault_key →
  balance l' stake_vault_key = balance l stake_vault_key + n.
Proof.
  intros Ht Hv Hown ->. rewrite (transfer_balance _ _ _ _ _ _ _ _ Ht).
  assert (from ≠ stake_vault_key).
  { intros ->. eapply transfer_from_vault in Hv; [|done]. subst. done. }
  repeat case_decide; congruence || lia.
Qed.

Lemma vault_debit l l' from mint to auth n d :
  transfer_checked l from mint to auth n d = Some l' →
  - n ≤ balance l' from - balance l from.
Proof.
  intros Ht. rewrite (transfer_balance _ _ _ _ _ _ _ _ Ht).
  pose proof (transfer_nonneg _ _ _ _ _ _ _ _ Ht).
  repeat case_decide; congruence || lia.
Qed.

Lemma initialize_staking_config_inv admin mint d p s s' :
  params_typed p → staking_inv s →
  handle_initialize_staking_config admin mint d p s = Ok s' → staking_inv s'.
Proof.
  intros (Hl1 & Hu & Hl2 & _ & Hbps) Hinv Hrun. unfold handle_initialize_staking_config in Hrun.
  inv_staking. split; simpl.
  - by apply inv_accounts.
  - intros cfg [= <-]. simpl. split.
    + unfold config_wf. simpl. unfold BPS_DENOMINATOR in *. split_and!; try done; ilia.
    + split; [|by eapply create_vault_account_new].
      eapply create_vault_account; [done|]. by eapply create_vault_account_new.
  - done.
  - match goal with
    | H1 : create_token_account ?l1 _ _ _ = Some ?l2, H2 : create_token_account _ _ _ _ = Some ?l1 |- _ =>
        rewrite (create_balance _ _ _ _ _ _ H1), (create_balance _ _ _ _ _ _ H2)
    end. by apply inv_backing.
  - by apply inv_receipts.
Qed.

Lemma update_staking_config_inv c admin mint d p s s' :
  params_typed p → staking_inv s →
  handle_update_staking_config c admin mint d p s = Ok s' → staking_inv s'.
Proof.
  intros (Hl1 & Hu & Hl2 & _ & Hbps) Hinv Hrun. unfold handle_update_staking_config in Hrun.
  inv_staking. apply inv_emit. destruct Hinv as [Ha Hc He Hb Hr].
  split; simpl; try done. intros cfg [= <-]. simpl. split.
  - unfold config_wf. simpl. unfold BPS_DENOMINATOR in *. split_and!; try done; ilia.
  - by apply Hc.
Qed.

Lemma initialize_stake_account_inv owner role s s' :
  staking_inv s → handle_initialize_stake_account owner role s = Ok s' → staking_inv s'.
Proof.
  intros [Ha Hc He Hb Hr] Hrun. unfold handle_initialize_stake_account in Hrun. inv_staking.
  assert (staked_total (<[stake_account_key owner role := mkStakeAccount owner role 0 0 0 0 0 0]>
    (st_accounts s)) = staked_total (st_accounts s)) as Htot.
  { unfold staked_total. by rewrite map_sum_insert_None. }
  split; simpl; try done.
  - intros k a. rewrite lookup_insert. case_decide; intros ?; simplify_eq; [|eauto].
    split; [done|]. unfold stake_wf. simpl. split_and!; ilia.
  - by rewrite Htot.
  - by rewrite Htot.
Qed.

Lemma stake_inv c owner k from mint n s s' :
  derived_by STAKING owner = false → u64 n → staking_inv s →
  handle_stake c owner k from mint n s = Ok s' → staking_inv s'.
Proof.
  intros Hown Hn Hinv Hrun. unfold handle_stake in Hrun. inv_staking.
  destruct (inv_config _ Hinv _ ltac:(eassumption)) as [Hcw Hv].
  destruct (inv_accounts _ Hinv _ _ ltac:(eassumption)) as [_ Hwf].
  unfold stake_wf in Hwf. destruct_and! Hwf.
  eapply inv_update; try eassumption; simpl; try (case_decide; done).
  - unfold stake_wf. case_decide; simpl; split_and!; try done; ilia.
  - by eapply transfer_vaults_ok.
  - erewrite stake_vault_credit; [|done|apply Hv|done|done].
    unfold owed_to. case_decide; simpl; lia.
  - by apply inv_receipts.
Qed.

Lemma request_unstake_inv c owner k n s s' :
  u64 n → staking_inv s → handle_request_unstake c owner k n s = Ok s' → staking_inv s'.
Proof.
  intros Hn Hinv Hrun. unfold handle_request_unstake in Hrun. inv_staking.
  destruct (inv_config _ Hinv _ ltac:(eassumption)) as [Hcw Hv].
  destruct (inv_accounts _ Hinv _ _ ltac:(eassumption)) as [_ Hwf].
  unfold stake_wf in Hwf. destruct_and! Hwf.
  eapply inv_update; try eassumption; simpl; try (case_decide; done).
  - unfold stake_wf. case_decide; simpl in *; split_and!; try done; ilia.
  - unfold owed_to. case_decide; simpl in *; lia.
  - by apply inv_receipts.
Qed.

Lemma withdraw_unstaked_inv c owner k to mint s s' :
  staking_inv s → handle_withdraw_unstaked c owner k to mint s = Ok s' → staking_inv s'.
Proof.
  intros Hinv Hrun. unfold handle_withdraw_unstaked in Hrun. inv_staking.
  destruct (inv_config _ Hinv _ ltac:(eassumption)) as [Hcw Hv].
  destruct (inv_accounts _ Hinv _ _ ltac:(eassumption)) as [_ Hwf].
  unfold stake_wf in Hwf. destruct_and! Hwf.
  eapply inv_update; try eassumption; simpl; try done.
  - by eapply transfer_vaults_ok.
  - etrans; [|by eapply vault_debit]. unfold owed_to. simpl. lia.
  - by apply inv_receipts.
Qed.

(** The slashed amount never exceeds the active stake. *)
Lemma slash_amount_le cfg a :
  config_wf cfg → stake_wf a →
  as_u64 (sa_amount a * slash_bps cfg / BPS_DENOMINATOR) = sa_amount a * slash_bps cfg / 10000 ∧
  0 ≤ sa_amount a * slash_bps cfg / 10000 ≤ sa_amount a.
Proof.
  intros (_ & _ & _ & _ & Hb) (Ha & _).
  pose proof (mul_div_le_den (sa_amount a) (slash_bps cfg) 10000 ltac:(ilia) Hb ltac:(lia)).
  split; [|done]. unfold BPS_DENOMINATOR. apply as_u64_id. ilia.
Qed.

Lemma slash_inv c auth k d mint code s s' :
  staking_inv s → handle_slash c auth k d mint code s = Ok s' → staking_inv s'.
Proof.
  intros Hinv Hrun. unfold handle_slash in Hrun. inv_staking.
  destruct (inv_config _ Hinv _ ltac:(eassumption)) as [Hcw Hv].
  destruct (inv_accounts _ Hinv _ _ ltac:(eassumption)) as [_ Hwf].
  destruct (slash_amount_le _ _ Hcw Hwf) as [Heq Hle]. rewrite Heq in *.
  unfold stake_wf in Hwf. destruct_and! Hwf. apply inv_emit.
  match goal with Ht : (if decide (0 < ?q) then _ else _) = Ok ?l' |- _ =>
    assert (vaults_ok l' (sc_mint x) ∧
            - q ≤ balance l' stake_vault_key - balance (st_ledger s) stake_vault_key) as [Hv' Hd]
      by (case_decide; inv_staking; eauto using transfer_vaults_ok, vault_debit with lia);
    clear Ht
  end.
  eapply inv_update; try eassumption; simpl; try (case_decide; done).
  - unfold owed_to. case_decide; simpl; lia.
  - by apply inv_receipts.
Qed.

Lemma fund_rewards_vault_inv c funder from mint n s s' :
  derived_by STAKING funder = false → staking_inv s →
  handle_fund_rewards_vault c funder from mint n s = Ok s' → staking_inv s'.
Proof.
  intros Hf Hinv Hrun. unfold handle_fund_rewards_vault in Hrun. inv_staking.
  apply inv_emit. destruct Hinv as [Ha Hc He Hb Hr]. split; simpl; try done.
  - intros cfg Hcfg. destruct (Hc _ Hcfg). split; [done|]. by eapply transfer_vaults_ok.
  - destruct (Hc _ ltac:(eassumption)) as [_ [Hv _]].
    destruct (respects_vault _ _ _
      (transfer_respects STAKING _ _ _ _ _ _ _ _ ltac:(eassumption) Hf)
      stake_vault_key _ _ config_key_derived Hv). lia.
Qed.

Lemma distribute_reward_inv c auth k epoch n s s' :
  u64 n → staking_inv s → handle_distribute_reward c auth k epoch n s = Ok s' → staking_inv s'.
Proof.
  intros Hn Hinv Hrun. unfold handle_distribute_reward in Hrun. inv_staking.
  destruct (inv_config _ Hinv _ ltac:(eassumption)) as [Hcw Hv].
  destruct (inv_accounts _ Hinv _ _ ltac:(eassumption)) as [_ Hwf].
  unfold stake_wf in Hwf. destruct_and! Hwf. apply inv_emit.
  eapply inv_update; try eassumption; simpl; try done.
  - unfold owed_to. simpl. lia.
  - by apply inv_receipts.
Qed.

Lemma claim_rewards_inv c owner k to mint s s' :
  staking_inv s → handle_claim_rewards c owner k to mint s = Ok s' → staking_inv s'.
Proof.
  intros Hinv Hrun. unfold handle_claim_rewards in Hrun. inv_staking.
  destruct (inv_config _ Hinv _ ltac:(eassumption)) as [Hcw Hv].
  destruct (inv_accounts _ Hinv _ _ ltac:(eassumption)) as [_ Hwf].
  unfold stake_wf in Hwf. destruct_and! Hwf. apply inv_emit.
  eapply inv_update; try eassumption; simpl; try done.
  - by eapply transfer_vaults_ok.
  - match goal with Ht : transfer_checked _ _ _ _ _ _ _ = Some _ |- _ =>
      pose proof (transfer_balance_mono _ _ _ _ _ _ _ _ Ht stake_vault_key ltac:(done)) end.
    unfold owed_to. simpl. lia.
  - by apply inv_receipts.
Qed.

Lemma recover_stake_shortfall_inv c k mint s s' :
  staking_inv s → handle_recover_stake_shortfall c k mint s = Ok s' → staking_inv s'.
Proof.
  intros Hinv Hrun. unfold handle_recover_stake_shortfall in Hrun. inv_staking.
  destruct (inv_config _ Hinv _ ltac:(eassumption)) as [Hcw Hv].
  destruct (inv_accounts _ Hinv _ _ ltac:(eassumption)) as [_ Hwf].
  unfold stake_wf in Hwf. destruct_and! Hwf. apply inv_emit.
  eapply inv_update; try eassumption; simpl; try (case_decide; done).
  - by eapply transfer_vaults_ok.
  - etrans; [|by eapply vault_debit]. unfold owed_to. case_decide; simpl; lia.
  - intros j r. rewrite lookup_insert. case_decide; intros ?; simplify_eq; [done|].
    by eapply inv_receipts.
Qed.

Lemma staking_step_inv s s' : staking_inv s → staking_step s s' → staking_inv s'.
Proof.
  intros Hinv Hstep. destruct Hstep as [c i s1 s2 Hnow Htyped Hrun | s1 l' [Hl _]].
  - destruct i; simpl in *;
      try match type of Htyped with _ ∧ _ => destruct Htyped end;
      eauto using initialize_staking_config_inv, update_staking_config_inv,
        initialize_stake_account_inv, stake_inv, request_unstake_inv, withdraw_unstaked_inv,
        slash_inv, fund_rewards_vault_inv, distribute_reward_inv, claim_rewards_inv,
        recover_stake_shortfall_inv.
  - destruct Hinv as [Ha Hc He Hb Hr]. split; simpl; try done.
    + intros cfg Hcfg. destruct (Hc _ Hcfg) as [? [Hv1 Hv2]]. split; [done|].
      split; by eapply Hl.
    + destruct (st_config s1) as [cfg|] eqn:Hcfg.
      * destruct (Hc _ eq_refl) as [_ [Hv _]].
        destruct (Hl stake_vault_key _ _ config_key_derived Hv). lia.
      * rewrite He by done. pose proof (balance_u64 l' stake_vault_key). ilia.
Qed.

(** The state before the program's first instruction. *)
Definition staking_init (l : L) : state := mkStaking None ∅ ∅ l [].

Lemma staking_init_inv l : staking_inv (staking_init l).
Proof.
  split; simpl; try done.
  unfold staked_total. rewrite map_sum_empty. pose proof (balance_u64 l stake_vault_key). ilia.
Qed.

Lemma staking_reachable_inv l s :
  steps staking_step (staking_init l) s → staking_inv s.
Proof. intros Hs. eapply steps_invariant; eauto using staking_step_inv, staking_init_inv. Qed.
End preservation.

(** ** The age of a stake

    [first_staked_at] is set when a position opens and cleared when it
    empties, so the age of a stake is the time it has been positive without a
    break.  No sequence of instructions makes a stake look older. *)

Section clock.
Context {L : Type} `{TokenLedger L} `{Hashing}.
Implicit Types (s : staking_state L) (c : chain) (a : StakeAccount).

(** What one instruction may do to a position: leave it empty, keep its start,
    or start it now. *)
Definition clock_move (t : Z) (old : option StakeAccount) a : Prop :=
  sa_amount a = 0 ∨ first_staked_at a = t ∨
  ∃ b, old = Some b ∧ 0 < sa_amount b ∧ first_staked_at a = first_staked_at b.

Lemma clock_same s k a t : staking_inv s → st_accounts s !! k = Some a → clock_move t (st_accounts s !! k) a.
Proof.
  intros Hinv Ha. destruct (inv_accounts _ Hinv _ _ Ha) as [_ [[? _] _]].
  destruct (decide (sa_amount a = 0)); [by left|]. right; right. exists a. split_and!; done || lia.
Qed.

Lemma clock_untouched s k a b t :
  staking_inv s → st_accounts s !! k = Some a → sa_amount b = sa_amount a →
  first_staked_at b = first_staked_at a → clock_move t (Some a) b.
Proof.
  intros Hinv Ha Hn Hf. pose proof (clock_same s k a t Hinv Ha) as Hm. rewrite Ha in Hm.
  unfold clock_move in *. rewrite Hn, Hf. done.
Qed.

Lemma clock_write s k a b j b' t :
  staking_inv s → st_accounts s !! k = Some a → clock_move t (Some a) b →
  <[k := b]> (st_accounts s) !! j = Some b' → clock_move t (st_accounts s !! j) b'.
Proof.
  intros Hinv Ha Hm. rewrite lookup_insert. case_decide as Hj; intros Hb.
  - simplify_eq. by rewrite Ha.
  - by apply clock_same.
Qed.

Ltac the_account s :=
  match goal with Ha : st_accounts s !! _ = Some ?b |- _ => rename b into acct end.

Lemma process_clock c i s s' k a :
  staking_inv s → ix_typed i → process c i s = Ok s' → st_accounts s' !! k = Some a →
  clock_move (now c) (st_accounts s !! k) a.
Proof.
  intros Hinv Hty Hrun Hk. destruct i; simpl in Hrun.
  - unfold handle_initialize_staking_config in Hrun. inv_staking. by apply clock_same.
  - unfold handle_update_staking_config in Hrun. inv_staking. by apply clock_same.
  - unfold handle_initialize_stake_account in Hrun. inv_staking. simpl in Hk.
    rewrite lookup_insert in Hk. case_decide; simplify_eq; [by left|]. by apply clock_same.
  - unfold handle_stake in Hrun. inv_staking. the_account s. eapply clock_write; [done|done| |exact Hk].
    destruct (inv_accounts _ Hinv _ _ ltac:(eassumption)) as [_ [[? _] _]]. unfold clock_move.
    case_decide as Hnew; simpl; [auto|].
    destruct (decide (0 < sa_amount acct)); [right; right; by eexists|left; ilia].
  - unfold handle_request_unstake in Hrun. inv_staking. the_account s. eapply clock_write; [done|done| |exact Hk].
    destruct (inv_accounts _ Hinv _ _ ltac:(eassumption)) as [_ [[? _] _]]. simpl in Hty. unfold clock_move.
    case_decide; simpl; [by left|]. right; right. eexists. split_and!; [done| |done]. ilia.
  - unfold handle_withdraw_unstaked in Hrun. inv_staking. the_account s. eapply clock_write; [done|done| |exact Hk].
    by eapply clock_untouched.
  - unfold handle_slash in Hrun. inv_staking. the_account s. eapply clock_write; [done|done| |exact Hk].
    destruct (inv_config _ Hinv _ ltac:(eassumption)) as [Hcw _].
    destruct (inv_accounts _ Hinv _ _ ltac:(eassumption)) as [_ Hwf].
    destruct (slash_amount_le _ _ Hcw Hwf) as [Heq Hle]. rewrite Heq in *.
    match goal with Ht : (if decide _ then _ else _) = Ok _ |- _ => clear Ht end. unfold clock_move. case_decide; simpl; [by left|].
    right; right. eexists. split_and!; [done| |done]. ilia.
  - unfold handle_fund_rewards_vault in Hrun. inv_staking. by apply clock_same.
  - unfold handle_distribute_reward in Hrun. inv_staking. the_account s. eapply clock_write; [done|done| |exact Hk].
    by eapply clock_untouched.
  - unfold handle_claim_rewards in Hrun. inv_staking. the_account s. eapply clock_write; [done|done| |exact Hk].
    by eapply clock_untouched.
  - unfold handle_recover_stake_shortfall in Hrun. inv_staking. the_account s. eapply clock_write; [done|done| |exact Hk].
    unfold clock_move. case_decide; simpl; [by left|].
    right; right. eexists. split_and!; [done| |done]. ilia.
Qed.
End clock.
