(* ===== verification/EscrowState.v ===== *)
(** * EscrowState: accounts of the escrow program

    Models [programs/escrow/src/state.rs], [constants.rs], [error.rs],
    [events.rs] and [arbitration.rs].  Bump seeds are part of address
    derivation and are not stored: an address is its seeds. *)

From S2P Require Import Prelude Runtime Shared StakingState.

Definition MIN_DISPUTE_WINDOW_SECS : Z := 60.
Definition MAX_DISPUTE_WINDOW_SECS : Z := 7 * 24 * 60 * 60.
Definition MAX_DISPUTE_ROUNDS : Z := 3.
Definition MAX_SETTLEMENT_MINTS : nat := 16.
Definition MAX_ARBITRATORS : nat := 7.
Definition MIN_ARBITRATORS : nat := 3.
Definition MAX_BARRED_ARBITRATORS : nat := MAX_ARBITRATORS * (Z.to_nat MAX_DISPUTE_ROUNDS - 1).

(** The four addresses, decoded from base 58: wrapped SOL, the two devnet
    stablecoins and the devnet settlement mint. *)
Definition DEFAULT_SETTLEMENT_MINTS : list pubkey :=
  [ Key 2988679396378646993494765771507681406623014513651778753134412041978399162369;
    Key 10692902582852901851496932827077340756527844884039973431271564122059422094259;
    Key 74372239346116591509303890537392658677826731754067352033861618501104807682505;
    Key 2932751781741708051749652571849075024280585424566835141664714667937513685660 ].

Module EscrowError.
Inductive ErrorCode :=
  | Unauthorized | InvalidFeeSplit | ArbitratorBarredFromCase | InvalidFeeBps
  | InvalidTimeout | InsufficientAvailableLiquidity | InsufficientReservedLiquidity
  | InvalidVaultState | NotYetExpired | NotAPartyToThisTrade | CommitWindowClosed
  | NotInRevealWindow | DisputeCaseFull | AlreadyCommitted | NoCommitmentFound
  | AlreadyRevealed | CommitmentMismatch | RevealWindowStillOpen
  | DisputeAlreadyResolved | NoVotesRevealed | ArbitratorStakeBelowMinimum
  | DisputeWindowOutOfRange | DepositVaultAliasesSettlementVault | NoFeeConfigured
  | DisputeNotDecided | NotAWinningArbitrator | RewardAlreadyClaimed | Overflow
  | WalletBanned | ArbitratorStakeTooYoung | NotDrawnForThisCase
  | SlotHashesUnavailable | FeeConfigAlreadyMigrated | InvalidStakeAge
  | InvalidSortitionThreshold | SettlementMintNotAllowed | SettlementMintListFull
  | InvalidSettlementMint | EmptySettlementMintList | ArbitrationPoolNotInitialized
  | NothingToAbsorb | RecoveredTokensMissing | NoDepositShortfall
  | NoLiquidityForShortfall | InvalidArbitrationPolicy.
End EscrowError.

(** ** Accounts *)

Record LiquidityVault := mkVault {
  lv_merchant : pubkey;
  lv_mint : pubkey;
  lv_total : Z;
  lv_reserved : Z;
  lv_available : Z;
  lv_settled : Z;
  lv_pending_settlement : Z;
}.
#[export] Instance LiquidityVault_eta : Settable LiquidityVault := fun r =>
  mkVault (lv_merchant r) (lv_mint r) (lv_total r) (lv_reserved r) (lv_available r)
    (lv_settled r) (lv_pending_settlement r).

Record TradeEscrowVault := mkEscrow {
  te_reservation_id : Z;
  te_buyer : pubkey;
  te_seller : pubkey;
  te_mint : pubkey;
  te_amount : Z;
  te_state : VaultState;
  te_approved : bool;
  te_created_at : Z;
  te_timeout_at : Z;
}.
#[export] Instance TradeEscrowVault_eta : Settable TradeEscrowVault := fun r =>
  mkEscrow (te_reservation_id r) (te_buyer r) (te_seller r) (te_mint r) (te_amount r)
    (te_state r) (te_approved r) (te_created_at r) (te_timeout_at r).

Record FeeConfig := mkFeeConfig {
  fc_admin : pubkey;
  fc_ad_listing_fee : Z;
  fc_dispute_filing_fee : Z;
  fc_settlement_fee_bps : Z;
  fc_dev_treasury : pubkey;
  fc_ecosystem_treasury : pubkey;
  fc_infra_treasury : pubkey;
  fc_emergency_reserve : pubkey;
  fc_dev_treasury_bps : Z;
  fc_ecosystem_treasury_bps : Z;
  fc_infra_treasury_bps : Z;
  fc_emergency_reserve_bps : Z;
  fc_timeout_secs : Z;
  fc_min_arbitrator_stake_age_secs : Z;
  fc_arbitrator_sortition_bps : Z;
  fc_settlement_mints : list pubkey;
  fc_settlement_mint_count : Z;
}.

(** Only the first [settlement_mint_count] entries are live. *)
Definition allows_settlement_mint (f : FeeConfig) (mint : pubkey) : Prop :=
  let live := Nat.min (Z.to_nat (fc_settlement_mint_count f)) MAX_SETTLEMENT_MINTS in
  mint ∈ take live (fc_settlement_mints f).
#[export] Instance allows_settlement_mint_dec f m : Decision (allows_settlement_mint f m).
Proof. unfold allows_settlement_mint. apply _. Defined.

Record ArbitrationPolicy := mkPolicy {
  ap_admin : pubkey;
  ap_eligible_arbitrators : Z;
  ap_updated_at : Z;
}.

Inductive TerminalSplitReason :=
  | NoConsensus | QuorumNotReached | RoundUnstaffed | PoolExhausted.
#[export] Instance TerminalSplitReason_eq_dec : EqDecision TerminalSplitReason.
Proof. solve_decision. Defined.

Record DisputeCase := mkCase {
  dc_reservation_id : Z;
  dc_trade_escrow : pubkey;
  dc_opened_at : Z;
  dc_commit_deadline : Z;
  dc_reveal_deadline : Z;
  dc_resolved : bool;
  dc_round : Z;
  dc_commit_window_secs : Z;
  dc_reveal_window_secs : Z;
  dc_case_seed : list Z;
  dc_round_opened_at : Z;
  dc_arbitrators : list pubkey;
  dc_commitments : list (list Z);
  dc_revealed_outcomes : list (option DisputeOutcome);
  dc_weights : list Z;
  dc_reward_claimed : list bool;
  dc_barred : list pubkey;
  dc_deposit_vault : pubkey;
  dc_deposit_mint : pubkey;
  dc_deposit : Z;
  dc_deposit_shortfall : Z;
  dc_outcome : option DisputeOutcome;
  dc_winning_weight : Z;
  dc_reward_pool : Z;
  dc_reward_remaining : Z;
  dc_deposit_settled : bool;
  dc_seats_taken_total : Z;
  dc_terminal_reason : option TerminalSplitReason;
}.
#[export] Instance DisputeCase_eta : Settable DisputeCase := fun r =>
  mkCase (dc_reservation_id r) (dc_trade_escrow r) (dc_opened_at r) (dc_commit_deadline r)
    (dc_reveal_deadline r) (dc_resolved r) (dc_round r) (dc_commit_window_secs r)
    (dc_reveal_window_secs r) (dc_case_seed r) (dc_round_opened_at r) (dc_arbitrators r)
    (dc_commitments r) (dc_revealed_outcomes r) (dc_weights r) (dc_reward_claimed r)
    (dc_barred r) (dc_deposit_vault r) (dc_deposit_mint r) (dc_deposit r)
    (dc_deposit_shortfall r) (dc_outcome r) (dc_winning_weight r) (dc_reward_pool r)
    (dc_reward_remaining r) (dc_deposit_settled r) (dc_seats_taken_total r)
    (dc_terminal_reason r).

Record StakeRecoveryClaim := mkClaim {
  rc_merchant : pubkey;
  rc_mint : pubkey;
  rc_owed_total : Z;
  rc_credited_total : Z;
  rc_case_count : Z;
}.
#[export] Instance StakeRecoveryClaim_eta : Settable StakeRecoveryClaim := fun r =>
  mkClaim (rc_merchant r) (rc_mint r) (rc_owed_total r) (rc_credited_total r) (rc_case_count r).

(** [StakeRecoveryClaim::absorbable] *)
Definition absorbable (c : StakeRecoveryClaim) (recovered_total : Z) : Z :=
  saturating_sub_u64 recovered_total (rc_credited_total c).

(** ** Addresses *)

Definition liquidity_vault_key (merchant mint : pubkey) : pubkey :=
  PdaKeys ESCROW LIQUIDITY_VAULT_SEED merchant mint.
Definition liquidity_tokens_key (merchant mint : pubkey) : pubkey :=
  PdaKeys ESCROW LIQUIDITY_VAULT_TOKENS_SEED merchant mint.
Definition trade_escrow_key (rid : Z) : pubkey := PdaNum ESCROW TRADE_ESCROW_SEED rid.
Definition trade_escrow_tokens_key (rid : Z) : pubkey := PdaNum ESCROW TRADE_ESCROW_TOKENS_SEED rid.
Definition dispute_case_key (rid : Z) : pubkey := PdaNum ESCROW DISPUTE_CASE_SEED rid.
Definition fee_config_key : pubkey := Pda ESCROW FEE_CONFIG_SEED.
Definition arbitration_pool_key : pubkey := Pda ESCROW ARBITRATION_POOL_SEED.
Definition arbitration_policy_key : pubkey := Pda ESCROW ARBITRATION_POLICY_SEED.

(** ** The arbitrator-pool floor *)

Record PoolFloor := mkFloor {
  pf_barred : Z;
  pf_seats_taken_total : Z;
  pf_seats_this_round : Z;
  pf_counted_reveals : Z;
  pf_published_pool : Z;
}.

Definition MIN_DECIDABLE_ARBITRATOR_POOL : Z :=
  Z.of_nat MIN_ARBITRATORS + Z.of_nat MAX_BARRED_ARBITRATORS.

Definition required_for_next_round (f : PoolFloor) : Z :=
  Z.of_nat MIN_ARBITRATORS + pf_barred f.

Definition evidenced_pool (f : PoolFloor) : Z :=
  Z.max (pf_published_pool f) (pf_seats_taken_total f).

Definition next_round_is_staffable (f : PoolFloor) : bool :=
  if decide (pf_published_pool f = 0) then true
  else bool_decide (required_for_next_round f ≤ evidenced_pool f).

Definition exhausted_rounds_reason (f : PoolFloor) : TerminalSplitReason :=
  if decide (pf_seats_this_round f < Z.of_nat MIN_ARBITRATORS) then RoundUnstaffed
  else if decide (pf_counted_reveals f < Z.of_nat MIN_ARBITRATORS) then QuorumNotReached
  else NoConsensus.

(** ** Events *)

Inductive escrow_event :=
  | EscrowReleased (reservation_id : Z) (buyer seller mint : pubkey)
      (amount buyer_amount fee dev ecosystem infra emergency : Z) (via_dispute : bool)
      (timestamp : Z)
  | DisputeResolved (reservation_id : Z) (buyer seller : pubkey)
      (outcome : option DisputeOutcome) (round winning_weight arbitrator_count reward_pool
       deposit_refunded timestamp : Z)
  | DisputeTerminalSplit (reservation_id : Z) (reason : TerminalSplitReason)
      (round seats_this_round counted_reveals barred seats_taken_total required_pool
       published_pool timestamp : Z)
  | ArbitratorPoolSizePublished (admin : pubkey)
      (previous eligible_arbitrators min_decidable_pool timestamp : Z)
  | ArbitrationDepositTaken (reservation_id : Z) (merchant opened_by deposit_vault mint : pubkey)
      (amount shortfall timestamp : Z)
  | StakeRecoveryClaimRecorded (reservation_id : Z) (merchant claim mint : pubkey)
      (shortfall owed_total credited_total case_count timestamp : Z)
  | StakeRecoveryAbsorbed (merchant claim mint : pubkey)
      (amount owed_total credited_total outstanding vault_available timestamp : Z)
  | ArbitrationDepositToppedUp (reservation_id : Z) (merchant mint : pubkey)
      (amount deposit remaining_shortfall vault_available timestamp : Z)
  | ArbitrationRewardClaimed (reservation_id : Z) (arbitrator : pubkey)
      (weight winning_weight amount : Z) (destination : pubkey) (timestamp : Z)
  | AdListingFeeCharged (merchant : pubkey) (advertisement_id : list Z) (mint : pubkey)
      (amount vault_available timestamp : Z).

(** ** Program state *)

Record escrow_state (L : Type) := mkEscrowState {
  es_fee : option FeeConfig;
  es_policy : option ArbitrationPolicy;
  es_vaults : gmap pubkey LiquidityVault;
  es_escrows : gmap pubkey TradeEscrowVault;
  es_cases : gmap pubkey DisputeCase;
  es_claims : gmap pubkey StakeRecoveryClaim;
  es_ledger : L;
  es_events : list escrow_event;
}.
Arguments mkEscrowState {L}.
Arguments es_fee {L}.
Arguments es_policy {L}.
Arguments es_vaults {L}.
Arguments es_escrows {L}.
Arguments es_cases {L}.
Arguments es_claims {L}.
Arguments es_ledger {L}.
Arguments es_events {L}.
#[export] Instance escrow_state_eta L : Settable (escrow_state L) := fun r =>
  mkEscrowState (es_fee r) (es_policy r) (es_vaults r) (es_escrows r) (es_cases r)
    (es_claims r) (es_ledger r) (es_events r).

(** The staking program's accounts, as the dispute path deserialises them. *)
Record staking_view := mkView {
  sv_config : option StakingConfig;
  sv_accounts : gmap pubkey StakeAccount;
  sv_receipts : gmap pubkey StakeRecoveryReceipt;
}.
