(* ===== verification/Fees.v ===== *)
(** * Fees: the fee configuration and the four-way fee split

    Models the arithmetic of [instructions/shared_logic.rs] and the
    instructions [initialize_fee_config], [update_fee_config],
    [initialize_arbitration_pool] and [publish_arbitrator_pool_size]. *)

From S2P Require Import Prelude Runtime Shared StakingState EscrowState.
Import EscrowError.

Abbreviation eres := (result ErrorCode).

(** One share of the fee: [fee * bps / 10_000] in 128 bits, cast to 64. *)
Definition bps_share (fee bps : Z) : eres Z :=
  p ← ok_or (checked_mul_u128 fee bps) (Code Overflow);
  q ← ok_or (checked_div_u128 p BPS_DENOMINATOR) (Code Overflow);
  Ok (as_u64 q).

(** The loop of [split_fee_four_ways]: the shares and their running total. *)
Fixpoint split_loop (fee : Z) (splits : list Z) (allocated : Z) : eres (list Z * Z) :=
  match splits with
  | [] => Ok ([], allocated)
  | bps :: rest =>
      share ← bps_share fee bps;
      allocated ← ok_or (checked_add_u64 allocated share) (Code Overflow);
      '(shares, total) ← split_loop fee rest allocated;
      Ok (share :: shares, total)
  end.

Definition fee_splits (f : FeeConfig) : list Z :=
  [ fc_dev_treasury_bps f; fc_ecosystem_treasury_bps f; fc_infra_treasury_bps f;
    fc_emergency_reserve_bps f ].

Definition ECOSYSTEM_TREASURY_SHARE : nat := 1.

Definition split_fee_four_ways (f : FeeConfig) (fee : Z) : eres (list Z) :=
  '(shares, allocated) ← split_loop fee (fee_splits f) 0;
  remainder ← ok_or (checked_sub_u64 fee allocated) (Code Overflow);
  eco ← ok_or (shares !! ECOSYSTEM_TREASURY_SHARE) Panic;
  eco ← ok_or (checked_add_u64 eco remainder) (Code Overflow);
  Ok (<[ECOSYSTEM_TREASURY_SHARE := eco]> shares).

Definition compute_fee_split (f : FeeConfig) (amount : Z) : eres (Z * list Z) :=
  fee ← bps_share amount (fc_settlement_fee_bps f);
  buyer_amount ← ok_or (checked_sub_u64 amount fee) (Code Overflow);
  shares ← split_fee_four_ways f fee;
  Ok (buyer_amount, shares).

(** ** Configuration instructions *)

(** The fields [InitializeFeeConfigParams] and [UpdateFeeConfigParams] share. *)
Record fee_params := mkFeeParams {
  fp_ad_listing_fee : Z;
  fp_dispute_filing_fee : Z;
  fp_settlement_fee_bps : Z;
  fp_dev_treasury_bps : Z;
  fp_ecosystem_treasury_bps : Z;
  fp_infra_treasury_bps : Z;
  fp_emergency_reserve_bps : Z;
  fp_timeout_secs : Z;
}.

(** The four treasury addresses. *)
Record treasuries := mkTreasuries {
  t_dev : pubkey;
  t_ecosystem : pubkey;
  t_infra : pubkey;
  t_emergency : pubkey;
}.

(** Checks both configuration instructions open with. *)
Definition require_fee_params (p : fee_params) : eres unit :=
  _ ← require (fp_settlement_fee_bps p ≤ BPS_DENOMINATOR) (Code InvalidFeeBps);
  let split_total := fp_dev_treasury_bps p + fp_ecosystem_treasury_bps p
                     + fp_infra_treasury_bps p + fp_emergency_reserve_bps p in
  _ ← require (split_total = BPS_DENOMINATOR) (Code InvalidFeeSplit);
  require (0 < fp_timeout_secs p) (Code InvalidTimeout).

(** [Pubkey::default()] *)
Definition default_pubkey : pubkey := Key 0.

(** A list padded to the fixed array length. *)
Definition padded_mints (mints : list pubkey) : list pubkey :=
  mints ++ replicate (MAX_SETTLEMENT_MINTS - length mints) default_pubkey.

(** The loop over the supplied mints: none is the padding key, none repeats an
    earlier one. *)
Fixpoint check_mints (seen mints : list pubkey) : eres unit :=
  match mints with
  | [] => Ok ()
  | m :: rest =>
      _ ← require (m ≠ default_pubkey) (Code InvalidSettlementMint);
      _ ← require (m ∉ seen) (Code InvalidSettlementMint);
      check_mints (seen ++ [m]) rest
  end.

Section config.
Context {L : Type} `{TokenLedger L}.
Abbreviation state := (escrow_state L).
Implicit Types (s : state) (c : chain).

Definition load_fee s : eres FeeConfig := ok_or (es_fee s) (Anchor AccountNotInitialized).

Definition handle_initialize_fee_config (admin : pubkey) (t : treasuries) (p : fee_params) s
    : eres state :=
  _ ← require (es_fee s = None) (Anchor AccountAlreadyInUse);
  _ ← require_fee_params p;
  Ok (s <| es_fee := Some (mkFeeConfig admin (fp_ad_listing_fee p) (fp_dispute_filing_fee p)
        (fp_settlement_fee_bps p) (t_dev t) (t_ecosystem t) (t_infra t) (t_emergency t)
        (fp_dev_treasury_bps p) (fp_ecosystem_treasury_bps p) (fp_infra_treasury_bps p)
        (fp_emergency_reserve_bps p) (fp_timeout_secs p) 0 0
        (padded_mints DEFAULT_SETTLEMENT_MINTS)
        (Z.of_nat (length DEFAULT_SETTLEMENT_MINTS))) |>).

(** [#[account(token::mint = mint)]] on one treasury account. *)
Definition require_token_mint (l : L) (k mint : pubkey) : eres unit :=
  a ← load_token l k;
  require (ta_mint a = mint) (Anchor ConstraintTokenMint).

Definition handle_update_fee_config (admin mint : pubkey) (t : treasuries) (p : fee_params)
    (min_stake_age sortition_bps : Z) (mints : list pubkey) s : eres state :=
  f ← load_fee s;
  _ ← require (fc_admin f = admin) (Code Unauthorized);
  _ ← load_mint (es_ledger s) mint;
  _ ← require_token_mint (es_ledger s) (t_dev t) mint;
  _ ← require_token_mint (es_ledger s) (t_ecosystem t) mint;
  _ ← require_token_mint (es_ledger s) (t_infra t) mint;
  _ ← require_token_mint (es_ledger s) (t_emergency t) mint;
  _ ← require_fee_params p;
  _ ← require (0 ≤ min_stake_age) (Code InvalidStakeAge);
  _ ← require (sortition_bps < BPS_DENOMINATOR) (Code InvalidSortitionThreshold);
  _ ← require (mints ≠ []) (Code EmptySettlementMintList);
  _ ← require (length mints ≤ MAX_SETTLEMENT_MINTS)%nat (Code SettlementMintListFull);
  _ ← check_mints [] mints;
  Ok (s <| es_fee := Some (mkFeeConfig (fc_admin f) (fp_ad_listing_fee p)
        (fp_dispute_filing_fee p) (fp_settlement_fee_bps p) (t_dev t) (t_ecosystem t)
        (t_infra t) (t_emergency t) (fp_dev_treasury_bps p) (fp_ecosystem_treasury_bps p)
        (fp_infra_treasury_bps p) (fp_emergency_reserve_bps p) (fp_timeout_secs p)
        min_stake_age sortition_bps (padded_mints mints) (Z.of_nat (length mints))) |>).

Definition handle_initialize_arbitration_pool (admin mint : pubkey) s : eres state :=
  f ← load_fee s;
  _ ← require (admin = fc_admin f) (Code Unauthorized);
  _ ← load_mint (es_ledger s) mint;
  l ← init_token (es_ledger s) arbitration_pool_key mint fee_config_key;
  Ok (s <| es_ledger := l |>).

Definition handle_publish_arbitrator_pool_size c (admin : pubkey) (eligible : Z) s
    : eres state :=
  f ← load_fee s;
  _ ← require (admin = fc_admin f) (Code Unauthorized);
  (* init_if_needed: an absent policy reads as zero *)
  let previous := default 0 (ap_eligible_arbitrators <$> es_policy s) in
  Ok (s <| es_policy := Some (mkPolicy (fc_admin f) eligible (now c)) |>
        <| es_events := es_events s ++
             [ArbitratorPoolSizePublished admin previous eligible MIN_DECIDABLE_ARBITRATOR_POOL
                (now c)] |>).
End config.

(** ** What a stored configuration satisfies *)

Record fee_config_wf (f : FeeConfig) : Prop := {
  fw_settlement : 0 ≤ fc_settlement_fee_bps f ≤ 10000;
  fw_nonneg : Forall (λ b, 0 ≤ b) (fee_splits f);
  fw_sum : sum_list (fee_splits f) = 10000;
  fw_timeout : 0 < fc_timeout_secs f;
  fw_age : 0 ≤ fc_min_arbitrator_stake_age_secs f;
  fw_sortition : 0 ≤ fc_arbitrator_sortition_bps f < 10000;
  fw_ad_fee : u64 (fc_ad_listing_fee f);
  fw_filing_fee : u64 (fc_dispute_filing_fee f);
  fw_mints_length : length (fc_settlement_mints f) = MAX_SETTLEMENT_MINTS;
  fw_count : 0 < fc_settlement_mint_count f ≤ 16;
}.

(** [u16] and [u64] parameters, as the instruction decodes them. *)
Definition fee_params_typed (p : fee_params) : Prop :=
  u64 (fp_ad_listing_fee p) ∧ u64 (fp_dispute_filing_fee p) ∧ u16 (fp_settlement_fee_bps p) ∧
  u16 (fp_dev_treasury_bps p) ∧ u16 (fp_ecosystem_treasury_bps p) ∧
  u16 (fp_infra_treasury_bps p) ∧ u16 (fp_emergency_reserve_bps p) ∧ i64 (fp_timeout_secs p).

(** ** The split *)

Lemma bps_share_Ok fee bps r :
  bps_share fee bps = Ok r → r = as_u64 (fee * bps / 10000).
Proof. unfold bps_share, BPS_DENOMINATOR. intros. inv_ok. done. Qed.

(** For a 64-bit fee and a rate of at most one the share is exact and bounded. *)
Lemma bps_share_total fee bps :
  u64 fee → 0 ≤ bps ≤ 10000 → bps_share fee bps = Ok (fee * bps / 10000).
Proof.
  intros Hf Hb. unfold bps_share, BPS_DENOMINATOR.
  assert (checked_mul_u128 fee bps = Some (fee * bps)) as ->
    by (apply checked_Some; split; [done|]; unfold_ints; nia).
  simpl. pose proof (mul_div_le_den fee bps 10000 ltac:(ilia) Hb ltac:(lia)).
  rewrite as_u64_id by ilia. done.
Qed.

Lemma split_loop_total fee splits allocated :
  u64 fee → 0 ≤ allocated → Forall (λ b, 0 ≤ b) splits →
  allocated + sum_list ((λ b, fee * b / 10000) <$> splits) ≤ fee →
  sum_list splits ≤ 10000 →
  split_loop fee splits allocated =
    Ok ((λ b, fee * b / 10000) <$> splits,
        allocated + sum_list ((λ b, fee * b / 10000) <$> splits)).
Proof.
  intros Hf. revert allocated. induction splits as [|b splits IH]; intros a Ha Hs Hle Hsum.
  - simpl. by rewrite Z.add_0_r.
  - apply Forall_cons in Hs as [Hb Hs]. rewrite fmap_cons, sum_list_cons in *.
    pose proof (sum_list_nonneg _ Hs).
    assert (0 ≤ sum_list ((λ b, fee * b / 10000) <$> splits)).
    { apply sum_list_nonneg, Forall_fmap. eapply Forall_impl; [exact Hs|]. simpl. intros.
      apply Z.div_pos; [|lia]. ilia || (unfold_ints; nia). }
    pose proof (mul_div_le_den fee b 10000 ltac:(ilia) ltac:(lia) ltac:(lia)).
    cbn [split_loop]. rewrite bps_share_total by (done || lia). cbn [mbind result_bind].
    assert (checked_add_u64 a (fee * b / 10000) = Some (a + fee * b / 10000)) as ->
      by (apply checked_Some; split; [done|ilia]).
    cbn [ok_or mbind result_bind]. rewrite IH by (done || lia). cbn. do 2 f_equal. lia.
Qed.

(** Truncated shares never add up to more than the fee. *)
Lemma sum_shares_le fee splits :
  0 ≤ fee → Forall (λ b, 0 ≤ b) splits →
  10000 * sum_list ((λ b, fee * b / 10000) <$> splits) ≤ fee * sum_list splits.
Proof.
  intros Hf. induction 1 as [|b splits Hb _ IH]; [simpl; lia|].
  rewrite fmap_cons, !sum_list_cons.
  pose proof (Z.mul_div_le (fee * b) 10000 ltac:(lia)). lia.
Qed.

(** Each truncation loses less than one unit. *)
Lemma sum_shares_gt fee splits :
  fee * sum_list splits - 9999 * Z.of_nat (length splits)
    ≤ 10000 * sum_list ((λ b, fee * b / 10000) <$> splits).
Proof.
  induction splits as [|b splits IH]; [simpl; lia|].
  rewrite fmap_cons, !sum_list_cons. cbn [length]. rewrite Nat2Z.inj_succ.
  pose proof (Z.mod_pos_bound (fee * b) 10000). pose proof (Z.div_mod (fee * b) 10000). lia.
Qed.

(** The truncated share of one treasury. *)
Definition floor_share (fee bps : Z) : Z := fee * bps / 10000.

(** The split of a well-formed configuration in closed form: three truncated
    shares, and the ecosystem treasury with the rest. *)
Lemma split_fee_four_ways_total f fee :
  fee_config_wf f → u64 fee →
  let d := floor_share fee (fc_dev_treasury_bps f) in
  let i := floor_share fee (fc_infra_treasury_bps f) in
  let m := floor_share fee (fc_emergency_reserve_bps f) in
  split_fee_four_ways f fee = Ok [d; fee - d - i - m; i; m] ∧
  0 ≤ d ∧ 0 ≤ i ∧ 0 ≤ m ∧
  floor_share fee (fc_ecosystem_treasury_bps f) ≤ fee - d - i - m
    < floor_share fee (fc_ecosystem_treasury_bps f) + 4.
Proof.
  intros [Hs Hn Hsum] Hf d i m.
  pose proof (sum_shares_le fee _ ltac:(ilia) Hn) as Hle. rewrite Hsum in Hle.
  pose proof (sum_shares_gt fee (fee_splits f)) as Hgt. rewrite Hsum in Hgt.
  unfold split_fee_four_ways.
  rewrite split_loop_total by (done || lia).
  unfold fee_splits in *. cbn in Hle, Hgt. cbn -[checked_sub_u64 checked_add_u64].
  repeat (apply Forall_cons in Hn as [? Hn]).
  set (e := floor_share fee (fc_ecosystem_treasury_bps f)) in *.
  change (fee * fc_dev_treasury_bps f / 10000) with d in *.
  change (fee * fc_infra_treasury_bps f / 10000) with i in *.
  change (fee * fc_emergency_reserve_bps f / 10000) with m in *.
  change (fee * fc_ecosystem_treasury_bps f / 10000) with e in *.
  assert (0 ≤ d ∧ 0 ≤ i ∧ 0 ≤ m ∧ 0 ≤ e) as (? & ? & ? & ?)
    by (unfold d, i, m, e, floor_share; split_and!; apply Z.div_pos; unfold_ints; nia).
  split; [|split_and!; try done; lia].
  match goal with |- context [checked_sub_u64 fee ?a] =>
    replace (checked_sub_u64 fee a) with (Some (fee - d - e - i - m))
      by (symmetry; apply checked_Some; split; [lia|ilia]) end.
  cbn -[checked_add_u64].
  assert (checked_add_u64 e (fee - d - e - i - m) = Some (fee - d - i - m)) as ->
    by (apply checked_Some; split; [lia|ilia]).
  done.
Qed.

Lemma split_fee_four_ways_sum f fee shares :
  split_fee_four_ways f fee = Ok shares → fee_config_wf f → u64 fee →
  length shares = 4%nat ∧ sum_list shares = fee ∧ Forall (λ x, 0 ≤ x) shares.
Proof.
  intros Hrun Hwf Hf. destruct (split_fee_four_ways_total f fee Hwf Hf) as (Hs & Hd & Hi & Hm & He).
  rewrite Hs in Hrun. injection Hrun as <-.
  assert (0 ≤ floor_share fee (fc_ecosystem_treasury_bps f)).
  { destruct Hwf as [_ Hn]. repeat (apply Forall_cons in Hn as [? Hn]).
    apply Z.div_pos; unfold_ints; nia. }
  split; [done|]. split; [simpl; lia|]. repeat constructor; lia.
Qed.

Lemma compute_fee_split_total f amount :
  fee_config_wf f → u64 amount →
  ∃ shares,
    let fee := floor_share amount (fc_settlement_fee_bps f) in
    compute_fee_split f amount = Ok (amount - fee, shares) ∧
    split_fee_four_ways f fee = Ok shares ∧ 0 ≤ fee ≤ amount ∧
    length shares = 4%nat ∧ sum_list shares = fee ∧ Forall (λ x, 0 ≤ x) shares.
Proof.
  intros Hwf Ha. destruct (Hwf) as [Hb _ _].
  pose proof (mul_div_le_den amount _ 10000 ltac:(ilia) Hb ltac:(lia)) as Hfee.
  fold (floor_share amount (fc_settlement_fee_bps f)) in Hfee.
  destruct (split_fee_four_ways_total f (floor_share amount (fc_settlement_fee_bps f)) Hwf
    ltac:(ilia)) as (Hsplit & Hd & Hi & Hm & He).
  eexists. split; [|split; [exact Hsplit|]].
  - unfold compute_fee_split. rewrite bps_share_total by done. cbn [mbind result_bind].
    fold (floor_share amount (fc_settlement_fee_bps f)).
    assert (checked_sub_u64 amount (floor_share amount (fc_settlement_fee_bps f)) =
      Some (amount - floor_share amount (fc_settlement_fee_bps f))) as ->
      by (apply checked_Some; split; [done|ilia]).
    cbn [ok_or mbind result_bind]. rewrite Hsplit. done.
  - split; [done|]. split; [done|]. split; [simpl; lia|].
    assert (0 ≤ floor_share (floor_share amount (fc_settlement_fee_bps f))
      (fc_ecosystem_treasury_bps f)).
    { destruct Hwf as [_ Hn _]. unfold fee_splits in Hn.
      repeat (apply Forall_cons in Hn as [? Hn]). apply Z.div_pos; nia. }
    repeat constructor; lia.
Qed.

Lemma require_fee_params_Ok p u :
  require_fee_params p = Ok u →
  fp_settlement_fee_bps p ≤ 10000 ∧
  fp_dev_treasury_bps p + fp_ecosystem_treasury_bps p + fp_infra_treasury_bps p
    + fp_emergency_reserve_bps p = 10000 ∧ 0 < fp_timeout_secs p.
Proof. unfold require_fee_params, BPS_DENOMINATOR. intros. inv_ok. done. Qed.

Lemma padded_mints_length ms :
  (length ms ≤ MAX_SETTLEMENT_MINTS)%nat → length (padded_mints ms) = MAX_SETTLEMENT_MINTS.
Proof. intros. unfold padded_mints. rewrite length_app, length_replicate. lia. Qed.

Section config_facts.
Context {L : Type} `{TokenLedger L}.
Implicit Types (s : escrow_state L).

Lemma initialize_fee_config_wf admin t p s s' :
  fee_params_typed p → handle_initialize_fee_config admin t p s = Ok s' →
  ∃ f, s' = s <| es_fee := Some f |> ∧ fee_config_wf f ∧ fc_admin f = admin.
Proof.
  intros Ht Hrun. unfold handle_initialize_fee_config in Hrun.
  unfold fee_params_typed in Ht. destruct_and! Ht. inv_run.
  match goal with H : require_fee_params _ = _ |- _ =>
    apply require_fee_params_Ok in H as (? & ? & ?) end.
  eexists. split; [reflexivity|]. split; [|done].
  split; unfold fee_splits; simpl; first [done | ilia | rewrite !Forall_cons, Forall_nil; split_and!; ilia].
Qed.

Lemma update_fee_config_wf admin mint t p age bps mints s s' :
  fee_params_typed p → u16 bps →
  handle_update_fee_config admin mint t p age bps mints s = Ok s' →
  ∃ f, s' = s <| es_fee := Some f |> ∧ fee_config_wf f ∧
    (fc_admin <$> es_fee s) = Some (fc_admin f) ∧ fc_admin f = admin.
Proof.
  intros Ht Hb Hrun. unfold handle_update_fee_config in Hrun.
  unfold fee_params_typed in Ht. destruct_and! Ht. inv_run.
  match goal with H : require_fee_params _ = _ |- _ =>
    apply require_fee_params_Ok in H as (? & ? & ?) end.
  match goal with H : load_fee _ = Ok _ |- _ => apply ok_or_Ok in H end.
  assert (length mints ≠ 0%nat) by (by destruct mints).
  eexists. split; [reflexivity|]. split.
  - unfold BPS_DENOMINATOR, MAX_SETTLEMENT_MINTS in *.
    split; unfold fee_splits; simpl in *; first [done | by apply padded_mints_length | ilia
      | rewrite !Forall_cons, Forall_nil; split_and!; ilia].
  - simpl. split; [by simplify_option_eq|done].
Qed.
End config_facts.
