(* ===== verification/Trade.v ===== *)
(** * Trade: liquidity vaults and the trade-escrow lifecycle

    Models the fund-movement helpers of [instructions/shared_logic.rs] and the
    instructions that create, fund, approve, release, cancel and expire a
    trade escrow, with the liquidity vault behind it.  Each handler starts
    with the constraints of its accounts struct. *)

From S2P Require Import Prelude Runtime Shared StakingState EscrowState Fees.
Import EscrowError.

Section trade.
Context {L : Type} `{TokenLedger L}.
Abbreviation state := (escrow_state L).
Implicit Types (s : state) (c : chain) (l : L) (v : LiquidityVault) (e : TradeEscrowVault).

(** ** Loading *)

(** A liquidity vault at the address its seeds give, with the
    [liquidity_vault.mint == mint] constraint. *)
Definition load_vault s (merchant mint : pubkey) : eres LiquidityVault :=
  v ← load (es_vaults s) (liquidity_vault_key merchant mint);
  _ ← require (lv_mint v = mint) (Anchor ConstraintRaw);
  Ok v.

(** The same with [has_one = merchant]. *)
Definition load_own_vault s (merchant mint : pubkey) : eres LiquidityVault :=
  v ← load_vault s merchant mint;
  _ ← require (lv_merchant v = merchant) (Anchor ConstraintHasOne);
  Ok v.

(** A trade escrow whose address is derived from the id it stores. *)
Definition load_escrow s (te : pubkey) : eres TradeEscrowVault :=
  e ← load (es_escrows s) te;
  _ ← require (te = trade_escrow_key (te_reservation_id e)) (Anchor ConstraintSeeds);
  Ok e.

(** [buyer_token_account]: owned by the buyer, in the trade's mint. *)
Definition load_buyer_account l e (k mint : pubkey) : eres unit :=
  b ← load_token l k;
  _ ← require (ta_owner b = te_buyer e) (Anchor ConstraintRaw);
  require (ta_mint b = mint) (Anchor ConstraintRaw).

(** The four treasury accounts, pinned to the configured addresses. *)
Definition load_treasuries l (f : FeeConfig) (t : treasuries) (err : fault ErrorCode)
    : eres unit :=
  _ ← require (fc_dev_treasury f = t_dev t) err;
  _ ← require (fc_ecosystem_treasury f = t_ecosystem t) err;
  _ ← require (fc_infra_treasury f = t_infra t) err;
  _ ← require (fc_emergency_reserve f = t_emergency t) err;
  _ ← load_token l (t_dev t);
  _ ← load_token l (t_ecosystem t);
  _ ← load_token l (t_infra t);
  _ ← load_token l (t_emergency t);
  Ok ().

Definition put_vault s (merchant mint : pubkey) v : state :=
  s <| es_vaults := <[liquidity_vault_key merchant mint := v]> (es_vaults s) |>.
Definition put_escrow s (te : pubkey) e : state :=
  s <| es_escrows := <[te := e]> (es_escrows s) |>.
Definition put_ledger s l : state := s <| es_ledger := l |>.
Definition emit_event s (ev : escrow_event) : state := s <| es_events := es_events s ++ [ev] |>.

(** ** Fund movement *)

(** The transfer loops: one transfer per destination, zero amounts skipped. *)
Fixpoint pay_all l (from mint auth : pubkey) (dests : list (pubkey * Z)) : eres L :=
  match dests with
  | [] => Ok l
  | (to, n) :: rest =>
      l ← (if decide (n = 0) then Ok l else token_transfer l from mint to auth n);
      pay_all l from mint auth rest
  end.

Definition release_reservation_marking v (amount : Z) : eres LiquidityVault :=
  _ ← require (amount ≤ lv_reserved v) (Code InsufficientReservedLiquidity);
  r ← sub_or_panic (lv_reserved v) amount;
  a ← ok_or (checked_add_u64 (lv_available v) amount) (Code Overflow);
  Ok (v <| lv_reserved := r |> <| lv_available := a |>).

Definition unwind_funded_trade_escrow e v l (mint : pubkey) : eres (LiquidityVault * L) :=
  let amount := te_amount e in
  l ← token_transfer l (trade_escrow_tokens_key (te_reservation_id e)) mint
        (liquidity_tokens_key (te_seller e) mint) (trade_escrow_key (te_reservation_id e)) amount;
  p ← sub_or_panic (lv_pending_settlement v) amount;
  a ← ok_or (checked_add_u64 (lv_available v) amount) (Code Overflow);
  Ok (v <| lv_pending_settlement := p |> <| lv_available := a |>, l).

Definition split_trade_escrow_evenly e v l (mint buyer_account : pubkey)
    : eres (TradeEscrowVault * LiquidityVault * L) :=
  let amount := te_amount e in
  let buyer_share := amount / 2 in
  seller_share ← ok_or (checked_sub_u64 amount buyer_share) (Code Overflow);
  l ← pay_all l (trade_escrow_tokens_key (te_reservation_id e)) mint
        (trade_escrow_key (te_reservation_id e))
        [(buyer_account, buyer_share); (liquidity_tokens_key (te_seller e) mint, seller_share)];
  p ← sub_or_panic (lv_pending_settlement v) amount;
  a ← ok_or (checked_add_u64 (lv_available v) seller_share) (Code Overflow);
  st ← ok_or (checked_add_u64 (lv_settled v) buyer_share) (Code Overflow);
  Ok (e <| te_state := Released |>,
      v <| lv_pending_settlement := p |> <| lv_available := a |> <| lv_settled := st |>, l).

Definition release_trade_escrow_funds e v l (f : FeeConfig) (t : treasuries)
    (mint buyer_account : pubkey)
    : eres (TradeEscrowVault * LiquidityVault * L * (Z * list Z)) :=
  let amount := te_amount e in
  '(buyer_amount, fee_shares) ← compute_fee_split f amount;
  l ← pay_all l (trade_escrow_tokens_key (te_reservation_id e)) mint
        (trade_escrow_key (te_reservation_id e))
        (zip [buyer_account; t_dev t; t_ecosystem t; t_infra t; t_emergency t]
             (buyer_amount :: fee_shares));
  p ← sub_or_panic (lv_pending_settlement v) amount;
  st ← ok_or (checked_add_u64 (lv_settled v) amount) (Code Overflow);
  Ok (e <| te_state := Released |>,
      v <| lv_pending_settlement := p |> <| lv_settled := st |>, l, (buyer_amount, fee_shares)).

(** ** Liquidity *)

(** A mint is admitted when it is on the settlement list or is the arbitration
    pool's own mint. *)
Definition handle_create_liquidity_vault (merchant mint : pubkey) s : eres state :=
  _ ← load_mint (es_ledger s) mint;
  f ← load_fee s;
  _ ← init_account (es_vaults s) (liquidity_vault_key merchant mint);
  l ← init_token (es_ledger s) (liquidity_tokens_key merchant mint) mint
        (liquidity_vault_key merchant mint);
  _ ← (if decide (allows_settlement_mint f mint) then Ok ()
       else
         pool ← ok_or (account_of l arbitration_pool_key) (Code ArbitrationPoolNotInitialized);
         require (mint = ta_mint pool) (Code SettlementMintNotAllowed));
  Ok (put_ledger (put_vault s merchant mint (mkVault merchant mint 0 0 0 0 0)) l).

Definition handle_deposit_liquidity c (merchant from mint : pubkey) (amount : Z) s : eres state :=
  v ← load_own_vault s merchant mint;
  _ ← load_token (es_ledger s) (liquidity_tokens_key merchant mint);
  fa ← load_token (es_ledger s) from;
  _ ← require (ta_mint fa = mint) (Anchor ConstraintRaw);
  _ ← require (¬ wallet_is_banned (info_at c (ban_record_key merchant))) (Code WalletBanned);
  l ← token_transfer (es_ledger s) from mint (liquidity_tokens_key merchant mint) merchant amount;
  tot ← ok_or (checked_add_u64 (lv_total v) amount) (Code Overflow);
  a ← ok_or (checked_add_u64 (lv_available v) amount) (Code Overflow);
  Ok (put_ledger (put_vault s merchant mint (v <| lv_total := tot |> <| lv_available := a |>)) l).

(** [reserve_liquidity]: the vault's address is derived from its own mint. *)
Definition handle_reserve_liquidity c (merchant mint : pubkey) (amount : Z) s : eres state :=
  v ← load_own_vault s merchant mint;
  f ← load_fee s;
  _ ← require (¬ wallet_is_banned (info_at c (ban_record_key merchant))) (Code WalletBanned);
  _ ← require (allows_settlement_mint f (lv_mint v)) (Code SettlementMintNotAllowed);
  _ ← require (amount ≤ lv_available v) (Code InsufficientAvailableLiquidity);
  a ← sub_or_panic (lv_available v) amount;
  r ← ok_or (checked_add_u64 (lv_reserved v) amount) (Code Overflow);
  Ok (put_vault s merchant mint (v <| lv_available := a |> <| lv_reserved := r |>)).

Definition handle_withdraw_liquidity (merchant to mint : pubkey) (amount : Z) s : eres state :=
  v ← load_own_vault s merchant mint;
  _ ← load_token (es_ledger s) (liquidity_tokens_key merchant mint);
  t ← load_token (es_ledger s) to;
  _ ← require (ta_mint t = mint) (Anchor ConstraintRaw);
  _ ← require (amount ≤ lv_available v) (Code InsufficientAvailableLiquidity);
  l ← token_transfer (es_ledger s) (liquidity_tokens_key merchant mint) mint to
        (liquidity_vault_key merchant mint) amount;
  a ← sub_or_panic (lv_available v) amount;
  tot ← ok_or (checked_sub_u64 (lv_total v) amount) (Code Overflow);
  Ok (put_ledger (put_vault s merchant mint (v <| lv_available := a |> <| lv_total := tot |>)) l).

Definition handle_charge_ad_listing_fee c (merchant mint : pubkey) (t : treasuries)
    (advertisement_id : list Z) s : eres state :=
  f ← load_fee s;
  v ← load_own_vault s merchant mint;
  _ ← load_token (es_ledger s) (liquidity_tokens_key merchant mint);
  _ ← load_treasuries (es_ledger s) f t (Code Unauthorized);
  _ ← require_token_mint (es_ledger s) (t_dev t) mint;
  _ ← require_token_mint (es_ledger s) (t_ecosystem t) mint;
  _ ← require_token_mint (es_ledger s) (t_infra t) mint;
  _ ← require_token_mint (es_ledger s) (t_emergency t) mint;
  let amount := fc_ad_listing_fee f in
  _ ← require (0 < amount) (Code NoFeeConfigured);
  _ ← require (amount ≤ lv_available v) (Code InsufficientAvailableLiquidity);
  shares ← split_fee_four_ways f amount;
  l ← pay_all (es_ledger s) (liquidity_tokens_key merchant mint) mint
        (liquidity_vault_key merchant mint)
        (zip [t_dev t; t_ecosystem t; t_infra t; t_emergency t] shares);
  a ← ok_or (checked_sub_u64 (lv_available v) amount) (Code Overflow);
  tot ← ok_or (checked_sub_u64 (lv_total v) amount) (Code Overflow);
  Ok (emit_event
        (put_ledger (put_vault s merchant mint (v <| lv_available := a |> <| lv_total := tot |>)) l)
        (AdListingFeeCharged merchant advertisement_id mint amount a (now c))).

(** ** Trade escrows *)

Definition handle_create_trade_escrow c (merchant buyer mint : pubkey)
    (reservation_id amount timeout_secs : Z) s : eres state :=
  _ ← load_mint (es_ledger s) mint;
  f ← load_fee s;
  v ← load_own_vault s merchant mint;
  let te := trade_escrow_key reservation_id in
  _ ← init_account (es_escrows s) te;
  l ← init_token (es_ledger s) (trade_escrow_tokens_key reservation_id) mint te;
  _ ← require (¬ wallet_is_banned (info_at c (ban_record_key merchant))) (Code WalletBanned);
  _ ← require (allows_settlement_mint f mint) (Code SettlementMintNotAllowed);
  _ ← require (amount ≤ lv_reserved v) (Code InsufficientReservedLiquidity);
  _ ← require (0 < timeout_secs) (Code InvalidTimeout);
  timeout_at ← ok_or (checked_add_i64 (now c) timeout_secs) (Code Overflow);
  Ok (put_ledger (put_escrow s te
        (mkEscrow reservation_id buyer merchant mint amount Reserved false (now c) timeout_at)) l).

Definition handle_fund_trade_escrow (merchant te mint : pubkey) s : eres state :=
  v ← load_own_vault s merchant mint;
  _ ← load_token (es_ledger s) (liquidity_tokens_key merchant mint);
  e ← load_escrow s te;
  _ ← require (te_seller e = merchant) (Anchor ConstraintRaw);
  _ ← require (te_mint e = mint) (Anchor ConstraintRaw);
  _ ← require (te_state e = Reserved) (Code InvalidVaultState);
  _ ← load_token (es_ledger s) (trade_escrow_tokens_key (te_reservation_id e));
  let amount := te_amount e in
  _ ← require (amount ≤ lv_reserved v) (Code InsufficientReservedLiquidity);
  l ← token_transfer (es_ledger s) (liquidity_tokens_key merchant mint) mint
        (trade_escrow_tokens_key (te_reservation_id e)) (liquidity_vault_key merchant mint) amount;
  r ← sub_or_panic (lv_reserved v) amount;
  p ← ok_or (checked_add_u64 (lv_pending_settlement v) amount) (Code Overflow);
  Ok (put_ledger (put_escrow
        (put_vault s merchant mint (v <| lv_reserved := r |> <| lv_pending_settlement := p |>))
        te (e <| te_state := AwaitingFiatSettlement |>)) l).

Definition handle_approve_settlement (merchant te : pubkey) s : eres state :=
  e ← load_escrow s te;
  _ ← require (te_seller e = merchant) (Anchor ConstraintRaw);
  _ ← require (te_state e = AwaitingFiatSettlement) (Code InvalidVaultState);
  Ok (put_escrow s te (e <| te_approved := true |>)).

Definition handle_release_escrow c (te mint buyer_account : pubkey) (t : treasuries) s
    : eres state :=
  e ← load_escrow s te;
  v ← load_vault s (te_seller e) mint;
  _ ← require (te_mint e = mint) (Anchor ConstraintRaw);
  _ ← require (te_state e = AwaitingFiatSettlement) (Code InvalidVaultState);
  _ ← require (te_approved e = true) (Code InvalidVaultState);
  _ ← load_token (es_ledger s) (trade_escrow_tokens_key (te_reservation_id e));
  _ ← load_buyer_account (es_ledger s) e buyer_account mint;
  f ← load_fee s;
  _ ← load_treasuries (es_ledger s) f t (Anchor ConstraintRaw);
  let amount := te_amount e in
  '(e', v', l, (buyer_amount, shares)) ←
    release_trade_escrow_funds e v (es_ledger s) f t mint buyer_account;
  fee ← ok_or (checked_sub_u64 amount buyer_amount) (Code Overflow);
  Ok (emit_event (put_ledger (put_escrow (put_vault s (te_seller e) mint v') te e') l)
        (EscrowReleased (te_reservation_id e) (te_buyer e) (te_seller e) mint amount buyer_amount
           fee (shares !!! 0%nat) (shares !!! 1%nat) (shares !!! 2%nat) (shares !!! 3%nat)
           false (now c))).

(** The account constraints cancelling and expiring share. *)
Definition load_reservation s (te mint : pubkey) : eres (TradeEscrowVault * LiquidityVault) :=
  e ← load_escrow s te;
  v ← load_vault s (te_seller e) mint;
  _ ← require (te_mint e = mint) (Anchor ConstraintRaw);
  _ ← require (te_approved e = false) (Code InvalidVaultState);
  _ ← require (te_state e = Reserved ∨ te_state e = AwaitingFiatSettlement)
        (Code InvalidVaultState);
  _ ← load_token (es_ledger s) (trade_escrow_tokens_key (te_reservation_id e));
  _ ← load_token (es_ledger s) (liquidity_tokens_key (te_seller e) mint);
  Ok (e, v).

(** And their body: give back the funded tokens, or only the reservation
    marking, and close the escrow. *)
Definition unwind_reservation s (te mint : pubkey) e v : eres state :=
  '(v', l) ← (if decide (te_state e = AwaitingFiatSettlement)
              then unwind_funded_trade_escrow e v (es_ledger s) mint
              else v' ← release_reservation_marking v (te_amount e); Ok (v', es_ledger s));
  Ok (put_ledger (put_escrow (put_vault s (te_seller e) mint v') te
        (e <| te_state := Cancelled |>)) l).

Definition handle_cancel_reservation (signer te mint : pubkey) s : eres state :=
  '(e, v) ← load_reservation s te mint;
  _ ← require (signer = te_buyer e ∨ signer = te_seller e) (Code NotAPartyToThisTrade);
  unwind_reservation s te mint e v.

Definition handle_expire_reservation c (te mint : pubkey) s : eres state :=
  '(e, v) ← load_reservation s te mint;
  _ ← require (te_timeout_at e < now c) (Code NotYetExpired);
  unwind_reservation s te mint e v.
End trade.
