(* ===== verification/Dispute.v ===== *)
(** * Dispute: opening, voting, tallying and executing a case

    Models [instructions/open_dispute_case.rs], [commit_dispute_vote.rs],
    [reveal_dispute_vote.rs], [execute_dispute_outcome.rs],
    [claim_arbitration_reward.rs], [top_up_arbitration_deposit.rs],
    [absorb_stake_recovery.rs] and [latch_case_seed]. *)

From S2P Require Import Prelude Runtime Shared StakingState EscrowState Fees Trade.
Import EscrowError.

(** ** Tally *)

(** [*outcome as usize] *)
Definition outcome_index (o : DisputeOutcome) : nat :=
  match o with BuyerWins => 0 | MerchantWins => 1 | MutualSettlement => 2 | InvalidDispute => 3 end.

(** The accumulation loop.  At most seven 64-bit weights are added, so the
    128-bit totals cannot overflow. *)
Fixpoint tally_loop (votes : list (option DisputeOutcome * Z)) (totals : list Z) (counted : nat)
    : list Z * nat :=
  match votes with
  | [] => (totals, counted)
  | (outcome, weight) :: rest =>
      if decide (weight = 0) then tally_loop rest totals counted
      else match outcome with
           | Some o => tally_loop rest (alter (λ t, t + weight) (outcome_index o) totals) (S counted)
           | None => tally_loop rest totals counted
           end
  end.

Definition votes_of (d : DisputeCase) : list (option DisputeOutcome * Z) :=
  zip (dc_revealed_outcomes d) (dc_weights d).

Definition tally (d : DisputeCase) : option DisputeOutcome * nat :=
  let '(totals, counted) := tally_loop (votes_of d) [0; 0; 0; 0] 0 in
  if decide (counted < MIN_ARBITRATORS)%nat then (None, counted)
  else
    let max := foldr Z.max 0 totals in
    let winners := filter (λ i, totals !! i = Some max) (seq 0 4) in
    match winners with
    | [w] =>
        let outcome := match w with
                       | 0%nat => BuyerWins
                       | 1%nat => MerchantWins
                       | 2%nat => MutualSettlement
                       | _ => InvalidDispute
                       end in
        (Some outcome, counted)
    | _ => (None, counted)
    end.

(** [winning_weight]: the weights revealed for [o]; the sum aborts on
    overflow. *)
Definition winning_weight_of (d : DisputeCase) (o : DisputeOutcome) : eres Z :=
  let ws := snd <$> filter (λ v, v.1 = Some o) (votes_of d) in
  _ ← require (u64 (sum_list ws)) Panic;
  Ok (sum_list ws).

(** ** Rounds *)

(** The loop of [bar_silent_seats] over the seats from [index] on. *)
Fixpoint bar_loop (stored : list pubkey) (outcomes : list (option DisputeOutcome))
    (seats : list pubkey) (index : nat) (acc : list pubkey) : list pubkey :=
  match seats with
  | [] => acc
  | arbitrator :: rest =>
      if decide (MAX_BARRED_ARBITRATORS ≤ length stored + length acc)%nat then acc
      else
        let revealed := match outcomes !! index with Some (Some _) => true | _ => false end in
        let acc := if decide (revealed = false ∧ arbitrator ∉ stored)
                   then acc ++ [arbitrator] else acc in
        bar_loop stored outcomes rest (S index) acc
  end.

Definition bar_silent_seats (d : DisputeCase) : DisputeCase :=
  d <| dc_barred := dc_barred d
       ++ bar_loop (dc_barred d) (dc_revealed_outcomes d) (dc_arbitrators d) 0 [] |>.

(** ** Accounts of [execute_dispute_outcome]

    The accounts the caller names. *)
Record exec_accounts := mkExecAccounts {
  xa_case : pubkey;
  xa_escrow : pubkey;
  xa_mint : pubkey;
  xa_buyer_account : pubkey;
  xa_treasuries : treasuries;
  xa_deposit_mint : pubkey;
  xa_open_vault : pubkey;
  xa_policy : option pubkey;
}.

(** The accounts the instruction changes, as Anchor holds them while it runs. *)
Record exec (L : Type) := mkExec {
  x_case : DisputeCase;
  x_escrow : TradeEscrowVault;
  x_vault : LiquidityVault;
  x_open : LiquidityVault;
  x_ledger : L;
  x_events : list escrow_event;
}.
Arguments mkExec {L}.
Arguments x_case {L}.
Arguments x_escrow {L}.
Arguments x_vault {L}.
Arguments x_open {L}.
Arguments x_ledger {L}.
Arguments x_events {L}.
#[export] Instance exec_eta L : Settable (exec L) := fun r =>
  mkExec (x_case r) (x_escrow r) (x_vault r) (x_open r) (x_ledger r) (x_events r).

Section dispute.
Context {L : Type} `{TokenLedger L} `{Hashing}.
Abbreviation state := (escrow_state L).
Implicit Types (s : state) (c : chain) (l : L) (d : DisputeCase).

(** The slot-hashes sysvar: an 8-byte count, then 40-byte entries. *)
Definition latch_case_seed c (reservation_id : Z) (trade_escrow : pubkey) : eres (list Z) :=
  let data := slot_hashes c in
  _ ← require (48 ≤ length data)%nat (Code SlotHashesUnavailable);
  _ ← require (0 < from_le (take 8 data)) (Code SlotHashesUnavailable);
  Ok (sha256 (bytes_of "openfiat-dispute-case-seed" ++ slice 8 40 data
              ++ to_le 8 reservation_id ++ key_bytes trade_escrow)).

Definition reopen_round c d (next_round : Z) : eres DisputeCase :=
  seed ← latch_case_seed c (dc_reservation_id d) (dc_trade_escrow d);
  commit_deadline ← ok_or (checked_add_i64 (now c) (dc_commit_window_secs d)) (Code Overflow);
  reveal_deadline ← ok_or (checked_add_i64 commit_deadline (dc_reveal_window_secs d)) (Code Overflow);
  Ok (d <| dc_round := next_round |> <| dc_round_opened_at := now c |>
        <| dc_commit_deadline := commit_deadline |> <| dc_reveal_deadline := reveal_deadline |>
        <| dc_case_seed := seed |> <| dc_arbitrators := [] |> <| dc_commitments := [] |>
        <| dc_revealed_outcomes := [] |> <| dc_weights := [] |> <| dc_reward_claimed := [] |>).

Definition load_case s (dk : pubkey) : eres DisputeCase :=
  d ← load (es_cases s) dk;
  _ ← require (dk = dispute_case_key (dc_reservation_id d)) (Anchor ConstraintSeeds);
  Ok d.

Definition put_case s (dk : pubkey) d : state := s <| es_cases := <[dk := d]> (es_cases s) |>.
Definition put_claim s (k : pubkey) (r : StakeRecoveryClaim) : state :=
  s <| es_claims := <[k := r]> (es_claims s) |>.

(** ** Opening a case *)

(** [init_if_needed] plus the writes: identify the claim, and add a shortfall
    to the debt. *)
Definition record_shortfall (r : option StakeRecoveryClaim) (merchant mint : pubkey)
    (shortfall : Z) : eres StakeRecoveryClaim :=
  let r := default (mkClaim default_pubkey default_pubkey 0 0 0) r in
  let r := r <| rc_merchant := merchant |> <| rc_mint := mint |> in
  if decide (0 < shortfall) then
    owed ← ok_or (checked_add_u64 (rc_owed_total r) shortfall) (Code Overflow);
    count ← ok_or (checked_add_u32 (rc_case_count r) 1) (Code Overflow);
    Ok (r <| rc_owed_total := owed |> <| rc_case_count := count |>)
  else Ok r.

(** Take [deposit] out of the merchant's OPEN vault into the pool. *)
Definition take_deposit l (v : LiquidityVault) (merchant mint : pubkey) (deposit : Z)
    : eres (LiquidityVault * L) :=
  l ← token_transfer l (liquidity_tokens_key merchant mint) mint arbitration_pool_key
        (liquidity_vault_key merchant mint) deposit;
  a ← ok_or (checked_sub_u64 (lv_available v) deposit) (Code Overflow);
  tot ← ok_or (checked_sub_u64 (lv_total v) deposit) (Code Overflow);
  Ok (v <| lv_available := a |> <| lv_total := tot |>, l).

Definition handle_open_dispute_case c (signer te deposit_mint : pubkey)
    (commit_window_secs reveal_window_secs : Z) s : eres state :=
  e ← load_escrow s te;
  _ ← require (signer = te_buyer e ∨ signer = te_seller e) (Code NotAPartyToThisTrade);
  _ ← require (te_state e = AwaitingFiatSettlement) (Code InvalidVaultState);
  let dk := dispute_case_key (te_reservation_id e) in
  _ ← init_account (es_cases s) dk;
  f ← load_fee s;
  _ ← load_mint (es_ledger s) deposit_mint;
  let merchant := te_seller e in
  v ← load_vault s merchant deposit_mint;
  _ ← load_token (es_ledger s) (liquidity_tokens_key merchant deposit_mint);
  pool ← load_token (es_ledger s) arbitration_pool_key;
  _ ← require (ta_mint pool = deposit_mint) (Anchor ConstraintRaw);
  _ ← require (¬ wallet_is_banned (info_at c (ban_record_key signer))) (Code WalletBanned);
  _ ← require (MIN_DISPUTE_WINDOW_SECS ≤ commit_window_secs ≤ MAX_DISPUTE_WINDOW_SECS)
        (Code DisputeWindowOutOfRange);
  _ ← require (MIN_DISPUTE_WINDOW_SECS ≤ reveal_window_secs ≤ MAX_DISPUTE_WINDOW_SECS)
        (Code DisputeWindowOutOfRange);
  commit_deadline ← ok_or (checked_add_i64 (now c) commit_window_secs) (Code Overflow);
  reveal_deadline ← ok_or (checked_add_i64 commit_deadline reveal_window_secs) (Code Overflow);
  let configured := fc_dispute_filing_fee f in
  let deposit := Z.min configured (lv_available v) in
  shortfall ← ok_or (checked_sub_u64 configured deposit) (Code Overflow);
  '(v', l) ← (if decide (0 < deposit)
              then take_deposit (es_ledger s) v merchant deposit_mint deposit
              else Ok (v, es_ledger s));
  let ck := recovery_claim_key merchant deposit_mint in
  r ← record_shortfall (es_claims s !! ck) merchant deposit_mint shortfall;
  seed ← latch_case_seed c (te_reservation_id e) te;
  let d := mkCase (te_reservation_id e) te (now c) commit_deadline reveal_deadline false 0
             commit_window_secs reveal_window_secs seed (now c) [] [] [] [] [] []
             (liquidity_vault_key merchant deposit_mint) deposit_mint deposit shortfall
             None 0 0 0 false 0 None in
  let s := emit_event s (ArbitrationDepositTaken (te_reservation_id e) merchant signer
             (liquidity_vault_key merchant deposit_mint) deposit_mint deposit shortfall (now c)) in
  let s := if decide (0 < shortfall)
           then emit_event s (StakeRecoveryClaimRecorded (te_reservation_id e) merchant ck
                  deposit_mint shortfall (rc_owed_total r) (rc_credited_total r)
                  (rc_case_count r) (now c))
           else s in
  Ok (put_claim (put_case (put_ledger (put_escrow (put_vault s merchant deposit_mint v')
        te (e <| te_state := Frozen |>)) l) dk d) ck r).

(** ** Voting *)

Definition load_arbitrator_stake (sv : staking_view) (arbitrator : pubkey)
    : eres (StakingConfig * StakeAccount) :=
  cfg ← ok_or (sv_config sv) (Anchor AccountNotInitialized);
  a ← load (sv_accounts sv) (stake_account_key arbitrator Arbitrator);
  Ok (cfg, a).

Definition handle_commit_dispute_vote c (sv : staking_view) (arbitrator dk : pubkey)
    (commitment : list Z) s : eres state :=
  d ← load_case s dk;
  '(cfg, a) ← load_arbitrator_stake sv arbitrator;
  f ← load_fee s;
  _ ← require (min_stake_for cfg Arbitrator ≤ effective_stake a cfg)
        (Code ArbitratorStakeBelowMinimum);
  _ ← require (meets_stake_age a (now c) (fc_min_arbitrator_stake_age_secs f))
        (Code ArbitratorStakeTooYoung);
  _ ← require (now c < dc_commit_deadline d) (Code CommitWindowClosed);
  _ ← require (arbitrator ∉ dc_barred d) (Code ArbitratorBarredFromCase);
  _ ← require (qualifies_for_seat (dc_case_seed d) (stake_account_key arbitrator Arbitrator)
         (fc_arbitrator_sortition_bps f) (dc_round_opened_at d) (dc_commit_deadline d) (now c)
         = true) (Code NotDrawnForThisCase);
  _ ← require (arbitrator ∉ dc_arbitrators d) (Code AlreadyCommitted);
  _ ← require (length (dc_arbitrators d) < MAX_ARBITRATORS)%nat (Code DisputeCaseFull);
  taken ← ok_or (checked_add_u32 (dc_seats_taken_total d) 1) (Code Overflow);
  Ok (put_case s dk
        (d <| dc_arbitrators := dc_arbitrators d ++ [arbitrator] |>
           <| dc_commitments := dc_commitments d ++ [commitment] |>
           <| dc_revealed_outcomes := dc_revealed_outcomes d ++ [None] |>
           <| dc_weights := dc_weights d ++ [0] |>
           <| dc_seats_taken_total := taken |>)).

(** [iter().position(|a| *a == arbitrator)] *)
Definition seat_of d (arbitrator : pubkey) : option nat :=
  fst <$> list_find (λ a, a = arbitrator) (dc_arbitrators d).

Definition commitment_of (o : DisputeOutcome) (salt : list Z) : list Z :=
  sha256 (Z.of_nat (outcome_index o) :: salt).

Definition handle_reveal_dispute_vote c (sv : staking_view) (arbitrator dk : pubkey)
    (outcome : DisputeOutcome) (salt : list Z) s : eres state :=
  d ← load_case s dk;
  '(cfg, a) ← load_arbitrator_stake sv arbitrator;
  _ ← require (dc_commit_deadline d ≤ now c ∧ now c < dc_reveal_deadline d)
        (Code NotInRevealWindow);
  index ← ok_or (seat_of d arbitrator) (Code NoCommitmentFound);
  revealed ← ok_or (dc_revealed_outcomes d !! index) Panic;
  _ ← require (revealed = None) (Code AlreadyRevealed);
  commitment ← ok_or (dc_commitments d !! index) Panic;
  _ ← require (commitment_of outcome salt = commitment) (Code CommitmentMismatch);
  _ ← require (index < length (dc_weights d))%nat Panic;
  Ok (put_case s dk
        (d <| dc_revealed_outcomes := <[index := Some outcome]> (dc_revealed_outcomes d) |>
           <| dc_weights := <[index := effective_stake a cfg]> (dc_weights d) |>)).

(** ** Executing the outcome *)


(** The account constraints: the case is open, its escrow is frozen, the
    deposit vault is the recorded one and is not the settlement vault. *)
Definition load_exec (a : exec_accounts) s : eres (exec L * FeeConfig) :=
  d ← load_case s (xa_case a);
  _ ← load_mint (es_ledger s) (xa_mint a);
  _ ← require (dc_resolved d = false) (Code DisputeAlreadyResolved);
  e ← load_escrow s (xa_escrow a);
  _ ← require (xa_escrow a = dc_trade_escrow d) (Anchor ConstraintRaw);
  _ ← require (te_mint e = xa_mint a) (Anchor ConstraintRaw);
  _ ← require (te_state e = Frozen) (Code InvalidVaultState);
  _ ← load_token (es_ledger s) (trade_escrow_tokens_key (te_reservation_id e));
  v ← load_vault s (te_seller e) (xa_mint a);
  _ ← load_token (es_ledger s) (liquidity_tokens_key (te_seller e) (xa_mint a));
  _ ← load_buyer_account (es_ledger s) e (xa_buyer_account a) (xa_mint a);
  f ← load_fee s;
  _ ← load_treasuries (es_ledger s) f (xa_treasuries a) (Anchor ConstraintRaw);
  _ ← require (xa_deposit_mint a = dc_deposit_mint d) (Anchor ConstraintRaw);
  _ ← load_mint (es_ledger s) (xa_deposit_mint a);
  pool ← load_token (es_ledger s) arbitration_pool_key;
  _ ← require (ta_mint pool = xa_deposit_mint a) (Anchor ConstraintRaw);
  ov ← load (es_vaults s) (xa_open_vault a);
  _ ← require (xa_open_vault a = dc_deposit_vault d) (Anchor ConstraintRaw);
  _ ← require (xa_open_vault a ≠ liquidity_vault_key (te_seller e) (xa_mint a))
        (Code DepositVaultAliasesSettlementVault);
  _ ← load_token (es_ledger s) (liquidity_tokens_key (lv_merchant ov) (xa_deposit_mint a));
  Ok (mkExec d e v ov (es_ledger s) (es_events s), f).

(** Writing the changed accounts back when the instruction returns. *)
Definition store_exec (a : exec_accounts) s (x : exec L) : state :=
  s <| es_cases := <[xa_case a := x_case x]> (es_cases s) |>
    <| es_escrows := <[xa_escrow a := x_escrow x]> (es_escrows s) |>
    <| es_vaults := <[xa_open_vault a := x_open x]>
         (<[liquidity_vault_key (te_seller (x_escrow x)) (xa_mint a) := x_vault x]> (es_vaults s)) |>
    <| es_ledger := x_ledger x |>
    <| es_events := x_events x |>.

(** An absent account reads as zero; anything but the canonical policy address
    is refused. *)
Definition published_pool_size (remaining : option pubkey) (policy : option ArbitrationPolicy)
    : eres Z :=
  match remaining with
  | None => Ok 0
  | Some k =>
      _ ← require (k = arbitration_policy_key) (Code InvalidArbitrationPolicy);
      p ← ok_or policy (Anchor AccountNotInitialized);
      Ok (ap_eligible_arbitrators p)
  end.

(** Forfeit the deposit to the reward pool on [BuyerWins], return it to the
    merchant's OPEN vault otherwise.  Returns what was forfeited and what was
    refunded. *)
Definition settle_deposit (a : exec_accounts) (outcome : option DisputeOutcome) (x : exec L)
    : eres (exec L * (Z * Z)) :=
  let d := x_case x in
  if decide (dc_deposit_settled d = true ∨ dc_deposit d = 0) then Ok (x, (0, 0))
  else
    let deposit := dc_deposit d in
    if decide (outcome = Some BuyerWins) then
      Ok (x <| x_case := d <| dc_deposit_settled := true |> <| dc_reward_pool := deposit |>
                           <| dc_reward_remaining := deposit |> |>, (deposit, 0))
    else
      let ov := x_open x in
      l ← token_transfer (x_ledger x) arbitration_pool_key (xa_deposit_mint a)
            (liquidity_tokens_key (lv_merchant ov) (xa_deposit_mint a)) fee_config_key deposit;
      av ← ok_or (checked_add_u64 (lv_available ov) deposit) (Code Overflow);
      tot ← ok_or (checked_add_u64 (lv_total ov) deposit) (Code Overflow);
      Ok (x <| x_ledger := l |> <| x_open := ov <| lv_available := av |> <| lv_total := tot |> |>
            <| x_case := d <| dc_deposit_settled := true |> |>, (0, deposit)).

(** The even split, on the loaded accounts. *)
Definition exec_split (a : exec_accounts) (x : exec L) : eres (exec L) :=
  '(e, v, l) ← split_trade_escrow_evenly (x_escrow x) (x_vault x) (x_ledger x) (xa_mint a)
                 (xa_buyer_account a);
  Ok (x <| x_escrow := e |> <| x_vault := v |> <| x_ledger := l |>).

Definition handle_undecided_round c (a : exec_accounts) (policy : option ArbitrationPolicy)
    (counted_reveals : nat) (x : exec L) : eres (exec L) :=
  next_round ← ok_or (checked_add_u8 (dc_round (x_case x)) 1) (Code Overflow);
  let seats_this_round := Z.of_nat (length (dc_arbitrators (x_case x))) in
  let d := bar_silent_seats (x_case x) in
  let x := x <| x_case := d |> in
  published ← published_pool_size (xa_policy a) policy;
  let floor := mkFloor (Z.of_nat (length (dc_barred d))) (dc_seats_taken_total d)
                 seats_this_round (Z.of_nat counted_reveals) published in
  if decide (next_round < MAX_DISPUTE_ROUNDS ∧ next_round_is_staffable floor = true) then
    d ← reopen_round c d next_round;
    Ok (x <| x_case := d |>)
  else
    let reason := if decide (MAX_DISPUTE_ROUNDS ≤ next_round)
                  then exhausted_rounds_reason floor else PoolExhausted in
    '(x, (reward_pool, refunded)) ← settle_deposit a None x;
    x ← exec_split a x;
    let d := x_case x <| dc_resolved := true |> <| dc_outcome := None |>
               <| dc_terminal_reason := Some reason |> in
    let e := x_escrow x in
    Ok (x <| x_case := d |>
          <| x_events := x_events x ++
              [ DisputeResolved (dc_reservation_id d) (te_buyer e) (te_seller e) None (dc_round d)
                  0 (Z.of_nat (length (dc_arbitrators d))) reward_pool refunded (now c);
                DisputeTerminalSplit (dc_reservation_id d) reason (dc_round d) seats_this_round
                  (Z.of_nat counted_reveals) (pf_barred floor) (pf_seats_taken_total floor)
                  (required_for_next_round floor) published (now c) ] |>).

(** Moving the trade's funds according to the verdict. *)
Definition pay_verdict c (a : exec_accounts) (f : FeeConfig) (outcome : DisputeOutcome)
    (x : exec L) : eres (exec L) :=
  let e := x_escrow x in
  match outcome with
  | BuyerWins =>
      '(e', v, l, (buyer_amount, shares)) ←
        release_trade_escrow_funds e (x_vault x) (x_ledger x) f (xa_treasuries a) (xa_mint a)
          (xa_buyer_account a);
      fee ← ok_or (checked_sub_u64 (te_amount e) buyer_amount) (Code Overflow);
      Ok (x <| x_escrow := e' |> <| x_vault := v |> <| x_ledger := l |>
            <| x_events := x_events x ++
                 [EscrowReleased (te_reservation_id e) (te_buyer e) (te_seller e) (xa_mint a)
                    (te_amount e) buyer_amount fee (shares !!! 0%nat) (shares !!! 1%nat)
                    (shares !!! 2%nat) (shares !!! 3%nat) true (now c)] |>)
  | MerchantWins | InvalidDispute =>
      '(v, l) ← unwind_funded_trade_escrow e (x_vault x) (x_ledger x) (xa_mint a);
      Ok (x <| x_vault := v |> <| x_ledger := l |> <| x_escrow := e <| te_state := Cancelled |> |>)
  | MutualSettlement => exec_split a x
  end.

Definition execute_outcome c (a : exec_accounts) (f : FeeConfig)
    (policy : option ArbitrationPolicy) (x : exec L) : eres (exec L) :=
  _ ← require (dc_reveal_deadline (x_case x) ≤ now c) (Code RevealWindowStillOpen);
  match tally (x_case x) with
  | (None, counted_reveals) => handle_undecided_round c a policy counted_reveals x
  | (Some outcome, _) =>
      winning_weight ← winning_weight_of (x_case x) outcome;
      '(x, (reward_pool, refunded)) ← settle_deposit a (Some outcome) x;
      x ← pay_verdict c a f outcome x;
      let d := x_case x in
      let d := d <| dc_resolved := true |> <| dc_outcome := Some outcome |>
                 <| dc_winning_weight := winning_weight |>
                 <| dc_reward_claimed := replicate (length (dc_arbitrators d)) false |> in
      let e := x_escrow x in
      Ok (x <| x_case := d |>
            <| x_events := x_events x ++
                 [DisputeResolved (dc_reservation_id d) (te_buyer e) (te_seller e) (Some outcome)
                    (dc_round d) winning_weight (Z.of_nat (length (dc_arbitrators d)))
                    reward_pool refunded (now c)] |>)
  end.

Definition handle_execute_dispute_outcome c (a : exec_accounts) s : eres state :=
  '(x, f) ← load_exec a s;
  x ← execute_outcome c a f (es_policy s) x;
  Ok (store_exec a s x).

(** ** Rewards and the deposit shortfall *)

(** A seat that voted for the outcome with weight and has not been paid. *)
Definition unpaid_winner d (outcome : DisputeOutcome) (i : nat) : Prop :=
  dc_reward_claimed d !! i = Some false ∧
  mjoin (dc_revealed_outcomes d !! i) = Some outcome ∧
  0 < default 0 (dc_weights d !! i).
#[export] Instance unpaid_winner_dec d o i : Decision (unpaid_winner d o i).
Proof. unfold unpaid_winner. apply _. Defined.

(** What the seat with [weight] is paid: its pro-rata share, or all that is
    left when it is the last. *)
Definition reward_amount d (outcome : DisputeOutcome) (weight : Z) : eres Z :=
  let outstanding :=
    length (filter (λ i, unpaid_winner d outcome i) (seq 0 (length (dc_reward_claimed d)))) in
  if decide (outstanding ≤ 1)%nat then Ok (dc_reward_remaining d)
  else
    p ← ok_or (checked_mul_u128 (dc_reward_pool d) weight) (Code Overflow);
    q ← ok_or (checked_div_u128 p (Z.max (dc_winning_weight d) 1)) (Code Overflow);
    Ok (Z.min (as_u64 q) (dc_reward_remaining d)).

Definition handle_claim_arbitration_reward c (arbitrator dk to mint : pubkey) s : eres state :=
  d ← load_case s dk;
  _ ← require (dc_resolved d = true) (Code DisputeNotDecided);
  _ ← load_fee s;
  _ ← load_mint (es_ledger s) mint;
  _ ← require (mint = dc_deposit_mint d) (Anchor ConstraintRaw);
  pool ← load_token (es_ledger s) arbitration_pool_key;
  _ ← require (ta_mint pool = mint) (Anchor ConstraintRaw);
  t ← load_token (es_ledger s) to;
  _ ← require (ta_mint t = mint) (Anchor ConstraintRaw);
  outcome ← ok_or (dc_outcome d) (Code DisputeNotDecided);
  _ ← require (0 < dc_reward_remaining d) (Code NoFeeConfigured);
  index ← ok_or (seat_of d arbitrator) (Code NotAWinningArbitrator);
  _ ← require (mjoin (dc_revealed_outcomes d !! index) = Some outcome)
        (Code NotAWinningArbitrator);
  _ ← require (default true (dc_reward_claimed d !! index) = false) (Code RewardAlreadyClaimed);
  let weight := default 0 (dc_weights d !! index) in
  _ ← require (0 < weight) (Code NotAWinningArbitrator);
  amount ← reward_amount d outcome weight;
  l ← token_transfer (es_ledger s) arbitration_pool_key mint to fee_config_key amount;
  rem ← ok_or (checked_sub_u64 (dc_reward_remaining d) amount) (Code Overflow);
  Ok (emit_event
        (put_ledger (put_case s dk
           (d <| dc_reward_claimed := <[index := true]> (dc_reward_claimed d) |>
              <| dc_reward_remaining := rem |>)) l)
        (ArbitrationRewardClaimed (dc_reservation_id d) arbitrator weight (dc_winning_weight d)
           amount to (now c))).

Definition handle_top_up_arbitration_deposit c (dk te mint : pubkey) s : eres state :=
  d ← load_case s dk;
  _ ← require (dc_resolved d = false) (Code DisputeAlreadyResolved);
  e ← load (es_escrows s) te;
  _ ← require (te = trade_escrow_key (dc_reservation_id d)) (Anchor ConstraintSeeds);
  _ ← require (te = dc_trade_escrow d) (Anchor ConstraintRaw);
  _ ← require (te_state e = Frozen) (Code InvalidVaultState);
  _ ← load_mint (es_ledger s) mint;
  _ ← require (mint = dc_deposit_mint d) (Anchor ConstraintRaw);
  let merchant := te_seller e in
  v ← load_vault s merchant mint;
  _ ← require (liquidity_vault_key merchant mint = dc_deposit_vault d) (Anchor ConstraintRaw);
  _ ← load_token (es_ledger s) (liquidity_tokens_key merchant mint);
  pool ← load_token (es_ledger s) arbitration_pool_key;
  _ ← require (ta_mint pool = mint) (Anchor ConstraintRaw);
  let shortfall := dc_deposit_shortfall d in
  _ ← require (0 < shortfall) (Code NoDepositShortfall);
  let amount := Z.min shortfall (lv_available v) in
  _ ← require (0 < amount) (Code NoLiquidityForShortfall);
  '(v', l) ← take_deposit (es_ledger s) v merchant mint amount;
  dep ← ok_or (checked_add_u64 (dc_deposit d) amount) (Code Overflow);
  rem ← ok_or (checked_sub_u64 (dc_deposit_shortfall d) amount) (Code Overflow);
  Ok (emit_event
        (put_case (put_ledger (put_vault s merchant mint v') l) dk
           (d <| dc_deposit := dep |> <| dc_deposit_shortfall := rem |>))
        (ArbitrationDepositToppedUp (dc_reservation_id d) merchant mint amount dep rem
           (lv_available v') (now c))).

Definition handle_absorb_stake_recovery c (sv : staking_view) (ck mint : pubkey) s : eres state :=
  _ ← load_mint (es_ledger s) mint;
  r ← load (es_claims s) ck;
  _ ← require (ck = recovery_claim_key (rc_merchant r) mint) (Anchor ConstraintSeeds);
  _ ← require (rc_mint r = mint) (Anchor ConstraintRaw);
  let merchant := rc_merchant r in
  receipt ← load (sv_receipts sv) (recovery_receipt_key merchant);
  _ ← require (rr_merchant receipt = merchant) (Anchor ConstraintRaw);
  v ← load_vault s merchant mint;
  tokens ← load_token (es_ledger s) (liquidity_tokens_key merchant mint);
  let recovered := recovered_total receipt in
  let amount := absorbable r recovered in
  _ ← require (0 < amount) (Code NothingToAbsorb);
  backed ← ok_or (checked_add_u64 (lv_total v) amount) (Code Overflow);
  _ ← require (backed ≤ ta_amount tokens) (Code RecoveredTokensMissing);
  av ← ok_or (checked_add_u64 (lv_available v) amount) (Code Overflow);
  cr ← ok_or (checked_add_u64 (rc_credited_total r) amount) (Code Overflow);
  Ok (emit_event
        (put_claim (put_vault s merchant mint (v <| lv_total := backed |> <| lv_available := av |>))
           ck (r <| rc_credited_total := cr |>))
        (StakeRecoveryAbsorbed merchant ck mint amount (rc_owed_total r) cr
           (saturating_sub_u64 (rc_owed_total r) recovered) av (now c))).
End dispute.
