(* ===== verification/Escrow.v ===== *)
(** * Escrow: dispatch and the program's transition system

    Models [programs/escrow/src/lib.rs]: one instruction per entry point. *)

From S2P Require Import Prelude Runtime Shared StakingState EscrowState Fees Trade Dispute.
Import EscrowError.

Inductive escrow_ix :=
  | InitializeFeeConfig (admin : pubkey) (t : treasuries) (p : fee_params)
  | UpdateFeeConfig (admin mint : pubkey) (t : treasuries) (p : fee_params)
      (min_stake_age sortition_bps : Z) (mints : list pubkey)
  | InitializeArbitrationPool (admin mint : pubkey)
  | PublishArbitratorPoolSize (admin : pubkey) (eligible : Z)
  | CreateLiquidityVault (merchant mint : pubkey)
  | DepositLiquidity (merchant from mint : pubkey) (amount : Z)
  | ReserveLiquidity (merchant mint : pubkey) (amount : Z)
  | WithdrawLiquidity (merchant to mint : pubkey) (amount : Z)
  | ChargeAdListingFee (merchant mint : pubkey) (t : treasuries) (advertisement_id : list Z)
  | CreateTradeEscrow (merchant buyer mint : pubkey) (reservation_id amount timeout_secs : Z)
  | FundTradeEscrow (merchant te mint : pubkey)
  | ApproveSettlement (merchant te : pubkey)
  | ReleaseEscrow (te mint buyer_account : pubkey) (t : treasuries)
  | CancelReservation (signer te mint : pubkey)
  | ExpireReservation (te mint : pubkey)
  | OpenDisputeCase (signer te deposit_mint : pubkey) (commit_window reveal_window : Z)
  | CommitDisputeVote (arbitrator dk : pubkey) (commitment : list Z)
  | RevealDisputeVote (arbitrator dk : pubkey) (outcome : DisputeOutcome) (salt : list Z)
  | ExecuteDisputeOutcome (a : exec_accounts)
  | ClaimArbitrationReward (arbitrator dk to mint : pubkey)
  | TopUpArbitrationDeposit (dk te mint : pubkey)
  | AbsorbStakeRecovery (ck mint : pubkey).

Section escrow.
Context {L : Type} `{TokenLedger L} `{Hashing}.
Abbreviation state := (escrow_state L).
Implicit Types (s : state) (c : chain).

Definition process c (sv : staking_view) (i : escrow_ix) s : eres state :=
  match i with
  | InitializeFeeConfig admin t p => handle_initialize_fee_config admin t p s
  | UpdateFeeConfig admin mint t p age bps mints =>
      handle_update_fee_config admin mint t p age bps mints s
  | InitializeArbitrationPool admin mint => handle_initialize_arbitration_pool admin mint s
  | PublishArbitratorPoolSize admin n => handle_publish_arbitrator_pool_size c admin n s
  | CreateLiquidityVault merchant mint => handle_create_liquidity_vault merchant mint s
  | DepositLiquidity merchant from mint n => handle_deposit_liquidity c merchant from mint n s
  | ReserveLiquidity merchant mint n => handle_reserve_liquidity c merchant mint n s
  | WithdrawLiquidity merchant to mint n => handle_withdraw_liquidity merchant to mint n s
  | ChargeAdListingFee merchant mint t ad => handle_charge_ad_listing_fee c merchant mint t ad s
  | CreateTradeEscrow merchant buyer mint rid n timeout =>
      handle_create_trade_escrow c merchant buyer mint rid n timeout s
  | FundTradeEscrow merchant te mint => handle_fund_trade_escrow merchant te mint s
  | ApproveSettlement merchant te => handle_approve_settlement merchant te s
  | ReleaseEscrow te mint b t => handle_release_escrow c te mint b t s
  | CancelReservation signer te mint => handle_cancel_reservation signer te mint s
  | ExpireReservation te mint => handle_expire_reservation c te mint s
  | OpenDisputeCase signer te dm cw rw => handle_open_dispute_case c signer te dm cw rw s
  | CommitDisputeVote arb dk cm => handle_commit_dispute_vote c sv arb dk cm s
  | RevealDisputeVote arb dk o salt => handle_reveal_dispute_vote c sv arb dk o salt s
  | ExecuteDisputeOutcome a => handle_execute_dispute_outcome c a s
  | ClaimArbitrationReward arb dk to mint => handle_claim_arbitration_reward c arb dk to mint s
  | TopUpArbitrationDeposit dk te mint => handle_top_up_arbitration_deposit c dk te mint s
  | AbsorbStakeRecovery ck mint => handle_absorb_stake_recovery c sv ck mint s
  end.

(** What decoding guarantees: integers fit their width and a signer is not an
    address the program derives. *)
Definition ix_typed (i : escrow_ix) : Prop :=
  match i with
  | InitializeFeeConfig _ _ p => fee_params_typed p
  | UpdateFeeConfig _ _ _ p _ bps _ => fee_params_typed p ∧ u16 bps
  | DepositLiquidity merchant _ _ n => derived_by ESCROW merchant = false ∧ u64 n
  | ReserveLiquidity _ _ n | WithdrawLiquidity _ _ _ n => u64 n
  | CreateTradeEscrow _ _ _ rid n timeout => u64 rid ∧ u64 n ∧ i64 timeout
  | _ => True
  end.

(** The staking accounts the dispute path reads hold 64-bit amounts. *)
Definition view_typed (sv : staking_view) : Prop :=
  (∀ k a, sv_accounts sv !! k = Some a → u64 (sa_amount a)) ∧
  (∀ k r, sv_receipts sv !! k = Some r → u64 (recovered_total r)).

(** A transaction at or after the last one's time, or anything the rest of the
    chain does to the ledger while time passes. *)
Inductive escrow_step : Z * state → Z * state → Prop :=
  | step_ix t c sv i s s' :
      t ≤ now c → i64 (now c) → view_typed sv → ix_typed i → process c sv i s = Ok s' →
      escrow_step (t, s) (now c, s')
  | step_ledger t t' s l' :
      t ≤ t' → ledger_respects ESCROW (es_ledger s) l' →
      escrow_step (t, s) (t', s <| es_ledger := l' |>).

(** The state before the first instruction. *)
Definition escrow_init (l : L) : state := mkEscrowState None None ∅ ∅ ∅ ∅ l [].
End escrow.
