(* ===== verification/CaseInv.v ===== *)
(** * CaseInv: facts about one dispute case

    The tally against its specification, the barring loop, the reward shares,
    and the well-formedness of a case that every instruction preserves. *)

From S2P Require Import Prelude Runtime Shared StakingState EscrowState Fees Trade.
From S2P Require Import Dispute.
Import EscrowError.

(** ** The tally, specified

    The weight revealed for an outcome, and the number of votes that carry
    weight. *)

Definition weight_for (o : DisputeOutcome) (votes : list (option DisputeOutcome * Z)) : Z :=
  sum_list ((λ v, if decide (v.1 = Some o) then v.2 else 0) <$> votes).

Definition counts (v : option DisputeOutcome * Z) : bool :=
  match v.1 with Some _ => bool_decide (v.2 ≠ 0) | None => false end.

Definition counted_votes (votes : list (option DisputeOutcome * Z)) : nat :=
  length (filter (λ v, counts v = true) votes).

(** [o] has strictly more weight than every other outcome. *)
Definition strict_plurality (o : DisputeOutcome) (votes : list (option DisputeOutcome * Z)) : Prop :=
  ∀ o', o' ≠ o → weight_for o' votes < weight_for o votes.

Lemma weight_for_cons o v votes :
  weight_for o (v :: votes) = (if decide (v.1 = Some o) then v.2 else 0) + weight_for o votes.
Proof. done. Qed.

Lemma counted_votes_cons v votes :
  counted_votes (v :: votes) = ((if counts v then 1 else 0) + counted_votes votes)%nat.
Proof. unfold counted_votes. rewrite filter_cons. by destruct (counts v). Qed.

Ltac tally_eq :=
  apply (f_equal2 pair); [repeat (apply (f_equal2 cons); [lia|]); done|lia].

Lemma tally_loop_spec votes a b c d n :
  tally_loop votes [a; b; c; d] n =
    ([ a + weight_for BuyerWins votes; b + weight_for MerchantWins votes;
       c + weight_for MutualSettlement votes; d + weight_for InvalidDispute votes ],
     (n + counted_votes votes)%nat).
Proof.
  revert a b c d n. induction votes as [|[o w] votes IH]; intros a b c d n.
  - unfold weight_for, counted_votes. simpl. by rewrite Nat.add_0_r, !Z.add_0_r.
  - cbn [tally_loop]. rewrite !weight_for_cons, counted_votes_cons. unfold counts. cbn [fst snd].
    case_decide as Hw.
    + subst. rewrite IH. destruct o as [[]|]; simpl; tally_eq.
    + destruct o as [[]|]; simpl alter; rewrite IH, ?bool_decide_true by done;
        simpl; tally_eq.
Qed.

Lemma weight_for_nonneg o votes :
  Forall (λ v, 0 ≤ v.2) votes → 0 ≤ weight_for o votes.
Proof.
  intros Hv. apply sum_list_nonneg, Forall_fmap. eapply Forall_impl; [exact Hv|].
  intros v Hnn. cbn in *. case_decide; lia.
Qed.

Lemma tally_counted d : (tally d).2 = counted_votes (votes_of d).
Proof.
  unfold tally. rewrite tally_loop_spec. simpl. case_decide; [done|].
  repeat case_match; done.
Qed.

(** The four candidates' weights, in the order the program stores them. *)
Lemma tally_unfold d (Hv : Forall (λ v, 0 ≤ v.2) (votes_of d)) :
  tally d =
    (if decide (counted_votes (votes_of d) < MIN_ARBITRATORS)%nat then None
     else
       let ws := (λ o, weight_for o (votes_of d)) <$>
                 [BuyerWins; MerchantWins; MutualSettlement; InvalidDispute] in
       match filter (λ i, ws !! i = Some (foldr Z.max 0 ws)) (seq 0 4) with
       | [0%nat] => Some BuyerWins
       | [1%nat] => Some MerchantWins
       | [2%nat] => Some MutualSettlement
       | [_] => Some InvalidDispute
       | _ => None
       end, counted_votes (votes_of d)).
Proof.
  unfold tally. rewrite tally_loop_spec. simpl. case_decide; [done|].
  destruct (filter _ _) as [|[|[|[|w]]] [|]]; done.
Qed.

Lemma max_four_winner (a b c d : Z) :
  0 ≤ a → 0 ≤ b → 0 ≤ c → 0 ≤ d →
  let ws := [a; b; c; d] in
  match filter (λ i, ws !! i = Some (foldr Z.max 0 ws)) (seq 0 4) with
  | [0%nat] => b < a ∧ c < a ∧ d < a
  | [1%nat] => a < b ∧ c < b ∧ d < b
  | [2%nat] => a < c ∧ b < c ∧ d < c
  | [_] => a < d ∧ b < d ∧ c < d
  | _ => ¬ (b < a ∧ c < a ∧ d < a) ∧ ¬ (a < b ∧ c < b ∧ d < b) ∧
         ¬ (a < c ∧ b < c ∧ d < c) ∧ ¬ (a < d ∧ b < d ∧ c < d)
  end.
Proof.
  intros Ha Hb Hc Hd ws. unfold ws.
  cbn [seq foldr]. rewrite !filter_cons, filter_nil. cbn [lookup list_lookup].
  repeat case_decide; simplify_eq; repeat match goal with
    | H : ¬ Some _ = Some _ |- _ => assert (¬ (_ = _)) by (intros Heq; apply H; f_equal; exact Heq); clear H
    end; lia.
Qed.

Lemma tally_decides d o :
  Forall (λ v, 0 ≤ v.2) (votes_of d) →
  (tally d).1 = Some o ↔
    (MIN_ARBITRATORS ≤ counted_votes (votes_of d))%nat ∧ strict_plurality o (votes_of d).
Proof.
  intros Hv. rewrite tally_unfold by done. cbn [fst].
  pose proof (max_four_winner (weight_for BuyerWins (votes_of d))
    (weight_for MerchantWins (votes_of d)) (weight_for MutualSettlement (votes_of d))
    (weight_for InvalidDispute (votes_of d))) as Hmax.
  do 4 (specialize (Hmax ltac:(by apply weight_for_nonneg))).
  case_decide as Hn; [split; [done|intros [? _]; lia]|].
  assert (MIN_ARBITRATORS ≤ counted_votes (votes_of d))%nat as Hge by lia.
  assert (∀ P, (P ↔ (MIN_ARBITRATORS ≤ counted_votes (votes_of d))%nat ∧
    strict_plurality o (votes_of d)) ↔ (P ↔ strict_plurality o (votes_of d))) as ->
    by (intros; tauto).
  assert (strict_plurality o (votes_of d) ↔
    (∀ o', o' ≠ o → weight_for o' (votes_of d) < weight_for o (votes_of d))) as -> by done.
  cbn [fmap list_fmap] in *. revert Hmax.
  destruct (filter _ _) as [|[|[|[|w]]] [|]]; intros Hmax; split.
  all: try (intros [= <-]; intros [] ?; (done || lia)).
  all: try done.
  all: intros Hp; destruct o; try done.
  all: pose proof (Hp BuyerWins) as H1; pose proof (Hp MerchantWins) as H2;
    pose proof (Hp MutualSettlement) as H3; pose proof (Hp InvalidDispute) as H4.
  all: try (specialize (H1 ltac:(done))); try (specialize (H2 ltac:(done)));
    try (specialize (H3 ltac:(done))); try (specialize (H4 ltac:(done))); try done; lia.
Qed.

(** A decided case has weight behind its outcome. *)
Lemma strict_plurality_pos o votes :
  Forall (λ v, 0 ≤ v.2) votes → strict_plurality o votes → 0 < weight_for o votes.
Proof.
  intros Hv Hp.
  assert (∃ o', o' ≠ o) as [o' Ho'] by (destruct o; [exists MerchantWins|exists BuyerWins..]; done).
  specialize (Hp o' Ho'). pose proof (weight_for_nonneg o' votes Hv). lia.
Qed.

(** The sum over the filtered votes is the winning outcome's tally. *)
Lemma winning_sum d o :
  sum_list (snd <$> filter (λ v, v.1 = Some o) (votes_of d)) = weight_for o (votes_of d).
Proof.
  unfold weight_for. induction (votes_of d) as [|v votes IH]; [done|].
  rewrite filter_cons, fmap_cons, sum_list_cons.
  repeat case_decide; rewrite ?fmap_cons, ?sum_list_cons; cbn in *; done || lia.
Qed.

(** The denominator of the rewards. *)
Lemma winning_weight_of_spec d o w :
  winning_weight_of d o = Ok w ↔ w = weight_for o (votes_of d) ∧ u64 w.
Proof.
  unfold winning_weight_of. rewrite winning_sum. split.
  - intros Hrun. by inv_ok.
  - intros [-> Hu]. by rewrite require_true.
Qed.

(** ** Barring silent seats *)

(** Whether the seat at [i] committed and never revealed. *)
Definition silent (outcomes : list (option DisputeOutcome)) (i : nat) : bool :=
  match outcomes !! i with Some (Some _) => false | _ => true end.

Lemma bar_loop_length stored outcomes seats i acc :
  (length stored ≤ MAX_BARRED_ARBITRATORS → length stored + length acc ≤ MAX_BARRED_ARBITRATORS →
   length stored + length (bar_loop stored outcomes seats i acc) ≤ MAX_BARRED_ARBITRATORS)%nat.
Proof.
  revert i acc. induction seats as [|a seats IH]; intros i acc Hs Hacc; simpl; [done|].
  case_decide; [done|]. apply IH; [done|].
  case_decide; rewrite ?length_app; simpl; lia.
Qed.

Lemma bar_loop_grows stored outcomes seats i acc :
  (length (bar_loop stored outcomes seats i acc) ≤ length acc + length seats)%nat.
Proof.
  revert i acc. induction seats as [|a seats IH]; intros i acc; simpl; [lia|].
  case_decide; [lia|]. etrans; [apply IH|]. case_decide; rewrite ?length_app; simpl; lia.
Qed.

(** Every newly barred wallet held a silent seat and was not barred before. *)
Lemma bar_loop_elem stored outcomes seats i acc a :
  a ∈ bar_loop stored outcomes seats i acc →
  a ∈ acc ∨ ((a ∉ stored) ∧ ∃ j, seats !! j = Some a ∧ silent outcomes (i + j) = true).
Proof.
  revert i acc. induction seats as [|b seats IH]; intros i acc; simpl; [auto|].
  case_decide; [auto|]. intros [Hin|(Hns & j & Hj & Hsil)]%IH.
  - case_decide as Hc; [|auto]. apply elem_of_app in Hin as [?| ->%list_elem_of_singleton]; [auto|].
    right. split; [tauto|]. exists 0%nat. rewrite Nat.add_0_r. split; [done|].
    unfold silent. destruct Hc as [Hc _]. by destruct (outcomes !! i) as [[]|].
  - right. split; [done|]. exists (S j). rewrite Nat.add_succ_r. auto.
Qed.

Lemma bar_loop_NoDup stored outcomes seats i acc :
  NoDup seats → NoDup acc → (∀ a, a ∈ seats → a ∉ acc) → (∀ a, a ∈ acc → a ∉ stored) →
  NoDup (bar_loop stored outcomes seats i acc).
Proof.
  revert i acc. induction seats as [|b seats IH]; intros i acc Hs Ha Hd Hst; simpl; [done|].
  apply NoDup_cons in Hs as [Hb Hs]. case_decide; [done|]. apply IH; [done| | |].
  - case_decide; [|done]. apply NoDup_app. split; [done|]. split; [|apply NoDup_singleton].
    intros x Hx ->%list_elem_of_singleton. eapply Hd; [left|done].
  - intros x Hx. case_decide; [|apply Hd; by right].
    rewrite elem_of_app, list_elem_of_singleton. intros [?| ->]; [|done].
    eapply Hd; [by right|done].
  - case_decide as Hc; [|done]. intros x [?| ->%list_elem_of_singleton]%elem_of_app; [auto|tauto].
Qed.

(** Below the cap every silent seat is barred. *)
Lemma bar_loop_complete stored outcomes seats i acc j a :
  (length stored + length acc + length seats ≤ MAX_BARRED_ARBITRATORS)%nat →
  seats !! j = Some a → silent outcomes (i + j) = true → a ∉ stored →
  a ∈ bar_loop stored outcomes seats i acc.
Proof.
  assert (∀ seats i acc b, b ∈ acc → b ∈ bar_loop stored outcomes seats i acc) as Hmono.
  { induction seats0 as [|x seats0 IH]; intros i0 acc0 b Hb; simpl; [done|].
    case_decide; [done|]. apply IH. case_decide; [apply elem_of_app; auto|done]. }
  revert i acc j. induction seats as [|b seats IH]; intros i acc j Hlen Hj Hsil Hns; [done|].
  simpl in *. rewrite decide_False by lia. destruct j as [|j]; simplify_eq/=.
  - apply Hmono. rewrite Nat.add_0_r in Hsil. unfold silent in Hsil.
    rewrite decide_True; [apply elem_of_app; right; left|].
    split; [|done]. by destruct (outcomes !! i) as [[]|].
  - rewrite Nat.add_succ_r in Hsil. eapply IH; [|done|done|done].
    case_decide; rewrite ?length_app; simpl; lia.
Qed.

(** ** Rewards

    A seat's truncated pro-rata share, and the shares still to be paid. *)

Definition seat_weight (d : DisputeCase) (i : nat) : Z := default 0 (dc_weights d !! i).

Definition pro_rata (d : DisputeCase) (i : nat) : Z :=
  dc_reward_pool d * seat_weight d i / Z.max (dc_winning_weight d) 1.

Definition unpaid_shares (d : DisputeCase) (o : DisputeOutcome) : Z :=
  sum_list ((λ i, if decide (unpaid_winner d o i) then pro_rata d i else 0)
            <$> seq 0 (length (dc_reward_claimed d))).

(** Paying one seat. *)
Definition pay_seat (d : DisputeCase) (i : nat) (amount : Z) : DisputeCase :=
  d <| dc_reward_claimed := <[i := true]> (dc_reward_claimed d) |>
    <| dc_reward_remaining := dc_reward_remaining d - amount |>.

(** A sum over indices that differ at one place. *)
Lemma sum_seq_update (f g : nat → Z) n i :
  (i < n)%nat → (∀ j, j ≠ i → f j = g j) →
  sum_list (f <$> seq 0 n) = sum_list (g <$> seq 0 n) - g i + f i.
Proof.
  intros Hi Hfg.
  assert (∀ m k, (∀ j, (m ≤ j < m + k)%nat → j ≠ i) →
    sum_list (f <$> seq m k) = sum_list (g <$> seq m k)) as Hsame.
  { intros m k Hne. f_equal. apply list_fmap_ext. intros ? j Hj.
    apply Hfg, Hne. apply lookup_seq in Hj. lia. }
  replace n with (i + (1 + (n - i - 1)))%nat by lia.
  rewrite !seq_app, !fmap_app, !sum_list_app.
  rewrite (Hsame 0%nat i) by lia. rewrite (Hsame (0 + i + 1)%nat (n - i - 1)%nat) by lia.
  simpl. lia.
Qed.

Lemma sum_seq_nonneg (f : nat → Z) n :
  (∀ i, 0 ≤ f i) → 0 ≤ sum_list (f <$> seq 0 n).
Proof. intros Hf. apply sum_list_nonneg, Forall_fmap, Forall_forall. intros. apply Hf. Qed.

Lemma sum_seq_lookup_le (f : nat → Z) n i :
  (i < n)%nat → (∀ i, 0 ≤ f i) → f i ≤ sum_list (f <$> seq 0 n).
Proof.
  intros Hi Hf.
  rewrite (sum_seq_update f (λ j, if decide (j = i) then 0 else f j) n i Hi).
  - rewrite decide_True by done.
    pose proof (sum_seq_nonneg (λ j, if decide (j = i) then 0 else f j) n).
    assert (∀ j, 0 ≤ (if decide (j = i) then 0 else f j)) by (intros; case_decide; auto with lia).
    intuition lia.
  - intros j Hj. by rewrite decide_False.
Qed.

Lemma unpaid_winner_lt d o i : unpaid_winner d o i → (i < length (dc_reward_claimed d))%nat.
Proof. intros (Hc & _). by eapply lookup_lt_Some. Qed.

Lemma unpaid_winner_pay d o i j amount :
  unpaid_winner d o i → unpaid_winner (pay_seat d i amount) o j ↔ j ≠ i ∧ unpaid_winner d o j.
Proof.
  intros Hi. pose proof (unpaid_winner_lt _ _ _ Hi). unfold unpaid_winner, pay_seat. simpl.
  destruct (decide (j = i)) as [->|].
  - rewrite list_lookup_insert_eq by done. naive_solver.
  - rewrite list_lookup_insert_ne by done. naive_solver.
Qed.

(** The only unpaid winner, when the count says there is one. *)
Lemma last_unpaid d o i j :
  (length (filter (λ i, unpaid_winner d o i) (seq 0 (length (dc_reward_claimed d)))) ≤ 1)%nat →
  unpaid_winner d o i → unpaid_winner d o j → j = i.
Proof.
  intros Hlen Hi Hj.
  assert (∀ k, unpaid_winner d o k →
    k ∈ filter (λ i, unpaid_winner d o i) (seq 0 (length (dc_reward_claimed d)))) as Hin.
  { intros k Hk. apply list_elem_of_filter. split; [done|].
    apply elem_of_seq. pose proof (unpaid_winner_lt _ _ _ Hk). lia. }
  apply Hin in Hi. apply Hin in Hj.
  destruct (filter _ _) as [|x [|y r]]; simpl in Hlen; [by apply not_elem_of_nil in Hi| |lia].
  apply list_elem_of_singleton in Hi as ->. by apply list_elem_of_singleton in Hj.
Qed.

(** The state of a decided case's reward pool: what remains covers every
    share still to be paid, and once the winners are paid nothing remains. *)
Definition rewards_ok (d : DisputeCase) (o : DisputeOutcome) : Prop :=
  0 ≤ dc_reward_remaining d ≤ dc_reward_pool d ∧ u64 (dc_reward_pool d) ∧
  unpaid_shares d o ≤ dc_reward_remaining d ∧
  ((∀ i, ¬ unpaid_winner d o i) → dc_reward_remaining d = 0).

Section shares.
Context (d : DisputeCase) (o : DisputeOutcome).
Hypothesis Hw : Forall u64 (dc_weights d).
Hypothesis Hok : rewards_ok d o.

Lemma seat_weight_u64 i : u64 (seat_weight d i).
Proof using Hw.
  unfold seat_weight. destruct (dc_weights d !! i) eqn:Hi; simpl; [|ilia].
  by eapply Forall_lookup_1 in Hi.
Qed.

Lemma pro_rata_nonneg i : 0 ≤ pro_rata d i.
Proof using Hw Hok.
  destruct Hok as (_ & Hp & _). pose proof (seat_weight_u64 i).
  unfold pro_rata. apply Z.div_pos; unfold_ints; nia.
Qed.

Lemma pro_rata_le_unpaid i : unpaid_winner d o i → pro_rata d i ≤ unpaid_shares d o.
Proof using Hw Hok.
  intros Hi. unfold unpaid_shares.
  pose proof (sum_seq_lookup_le (λ i, if decide (unpaid_winner d o i) then pro_rata d i else 0)
    (length (dc_reward_claimed d)) i (unpaid_winner_lt _ _ _ Hi)) as Hle.
  simpl in Hle. rewrite decide_True in Hle by done. apply Hle.
  intros j. case_decide; [apply pro_rata_nonneg|lia].
Qed.

(** What a winning seat is paid: its share, or all that is left. *)
Lemma reward_amount_spec i :
  unpaid_winner d o i →
  ∃ amount, reward_amount d o (seat_weight d i) = Ok amount ∧
    pro_rata d i ≤ amount ≤ dc_reward_remaining d ∧
    ((∃ j, j ≠ i ∧ unpaid_winner d o j) ∧ amount = pro_rata d i ∨
     (∀ j, unpaid_winner d o j → j = i) ∧ amount = dc_reward_remaining d).
Proof using Hw Hok.
  intros Hi. pose proof (pro_rata_le_unpaid i Hi) as Hle.
  pose proof (pro_rata_nonneg i). pose proof (seat_weight_u64 i) as Hwi.
  destruct Hok as (Hrem & Hpool & Hun & _). unfold reward_amount. case_decide as Hc.
  { eexists. split; [done|]. split; [lia|]. right. split; [|done].
    intros j Hj. by eapply last_unpaid. }
  assert (checked_mul_u128 (dc_reward_pool d) (seat_weight d i) =
    Some (dc_reward_pool d * seat_weight d i)) as ->
    by (apply checked_Some; split; [done|]; unfold_ints; nia).
  cbn [ok_or mbind result_bind].
  assert (checked_div_u128 (dc_reward_pool d * seat_weight d i) (Z.max (dc_winning_weight d) 1)
    = Some (pro_rata d i)) as -> by (apply checked_div_u128_Some; split; [done|lia]).
  cbn [ok_or mbind result_bind]. rewrite as_u64_id by ilia. rewrite Z.min_l by lia.
  eexists. split; [done|]. split; [lia|]. left. split; [|done].
  destruct (filter _ _) as [|x [|y r]] eqn:Hf; simpl in Hc; [lia..|].
  assert (NoDup (x :: y :: r)) as Hnd by (rewrite <-Hf; apply NoDup_filter, NoDup_seq).
  assert (unpaid_winner d o x ∧ unpaid_winner d o y) as [Hx Hy].
  { split; eapply (list_elem_of_filter (λ i, unpaid_winner d o i)); rewrite Hf;
      [left|right; left]. }
  apply NoDup_cons in Hnd as [Hxy _].
  destruct (decide (x = i)) as [->|]; [|eauto]. exists y. split; [|done].
  intros ->. apply Hxy. left.
Qed.
End shares.

Lemma unpaid_shares_pay d o i amount :
  unpaid_winner d o i →
  unpaid_shares (pay_seat d i amount) o = unpaid_shares d o - pro_rata d i.
Proof.
  intros Hi. unfold unpaid_shares.
  replace (length (dc_reward_claimed (pay_seat d i amount))) with (length (dc_reward_claimed d))
    by (unfold pay_seat; simpl; by rewrite length_insert).
  erewrite (sum_seq_update _ (λ j, if decide (unpaid_winner d o j) then pro_rata d j else 0) _ i).
  - cbn beta. rewrite decide_True by done. rewrite decide_False; [lia|].
    rewrite unpaid_winner_pay by done. tauto.
  - by eapply unpaid_winner_lt.
  - intros j Hj. change (pro_rata (pay_seat d i amount) j) with (pro_rata d j).
    apply decide_ext. rewrite unpaid_winner_pay by done. tauto.
Qed.

(** Paying a winner keeps the pool able to pay the others. *)
Lemma pay_seat_rewards_ok d o i amount :
  Forall u64 (dc_weights d) → rewards_ok d o → unpaid_winner d o i →
  reward_amount d o (seat_weight d i) = Ok amount → rewards_ok (pay_seat d i amount) o.
Proof.
  intros Hw Hok Hi Ha. pose proof (unpaid_shares_pay d o i amount Hi) as Hun.
  destruct (reward_amount_spec d o Hw Hok i Hi) as (a & Ha' & Hle & Hcase). simplify_eq.
  rewrite Ha in Ha'. injection Ha' as ->.
  pose proof (pro_rata_nonneg d o Hw Hok i).
  destruct Hok as (Hrem & Hpool & Hsum & _).
  split; [|split; [done|split]]; [simpl; lia| |].
  - rewrite Hun. change (dc_reward_remaining (pay_seat d i a)) with (dc_reward_remaining d - a).
    destruct Hcase as [[_ ->]|[Hlast ->]]; [lia|].
    assert (unpaid_shares (pay_seat d i (dc_reward_remaining d)) o = 0) as Hz; [|
      rewrite unpaid_shares_pay in Hz by done; lia].
    unfold unpaid_shares. etrans; [apply f_equal; apply (list_fmap_ext _ (λ _, 0))|].
    + intros ? j _. apply decide_False. rewrite unpaid_winner_pay by done.
      intros [Hne Hj]. by apply Hne, Hlast.
    + apply sum_list_zeros.
  - intros Hno. change (dc_reward_remaining (pay_seat d i a)) with (dc_reward_remaining d - a).
    destruct Hcase as [[(j & Hji & Hj) _]|[_ ->]]; [|lia].
    destruct (Hno j). by apply unpaid_winner_pay.
Qed.

(** The weight behind an outcome, summed by seat. *)
Lemma weight_for_seats o os ws :
  length os = length ws →
  weight_for o (zip os ws) =
  sum_list ((λ i, if decide (mjoin (os !! i) = Some o) then default 0 (ws !! i) else 0)
            <$> seq 0 (length os)).
Proof.
  revert ws. induction os as [|x os IH]; intros [|w ws] Hlen; simpl in Hlen; try done.
  injection Hlen as Hlen. cbn [zip zip_with length seq fmap list_fmap].
  rewrite weight_for_cons, sum_list_cons, IH by done. cbn [fst snd]. f_equal.
  rewrite <-fmap_S_seq, <-list_fmap_compose. done.
Qed.

Lemma sum_seq_floor_le (w : nat → Z) p W n :
  0 ≤ p → 0 < W → (∀ i, 0 ≤ w i) →
  W * sum_list ((λ i, p * w i / W) <$> seq 0 n) ≤ p * sum_list (w <$> seq 0 n).
Proof.
  intros Hp HW Hw. induction (seq 0 n) as [|i l IH]; [simpl; lia|].
  rewrite !fmap_cons, !sum_list_cons.
  pose proof (Z.mul_div_le (p * w i) W HW). lia.
Qed.

(** A freshly decided case covers its winners. *)
Lemma decided_rewards_ok d o :
  length (dc_revealed_outcomes d) = length (dc_arbitrators d) →
  length (dc_weights d) = length (dc_arbitrators d) →
  Forall u64 (dc_weights d) → u64 (dc_reward_pool d) →
  dc_reward_remaining d = dc_reward_pool d →
  dc_reward_claimed d = replicate (length (dc_arbitrators d)) false →
  dc_winning_weight d = weight_for o (votes_of d) → 0 < dc_winning_weight d →
  rewards_ok d o.
Proof.
  intros Hlr Hlw Hw Hpool Hrem Hcl HW Hpos. rewrite <-Hlr in Hcl.
  assert (∀ i, 0 ≤ seat_weight d i) as Hsw by (intros i; pose proof (seat_weight_u64 d Hw i); ilia).
  set (win := λ i, if decide (mjoin (dc_revealed_outcomes d !! i) = Some o)
                   then seat_weight d i else 0).
  assert (∀ i, 0 ≤ win i) as Hwin by (intros i; unfold win; case_decide; auto with lia).
  assert (dc_winning_weight d =
    sum_list (win <$> seq 0 (length (dc_revealed_outcomes d)))) as HWs.
  { rewrite HW. unfold votes_of. rewrite weight_for_seats by congruence. done. }
  assert (length (dc_reward_claimed d) = length (dc_revealed_outcomes d)) as Hn
    by (by rewrite Hcl, length_replicate).
  split; [rewrite Hrem; ilia|]. split; [done|]. rewrite Hrem. split.
  - pose proof (sum_seq_floor_le win (dc_reward_pool d) (dc_winning_weight d)
      (length (dc_revealed_outcomes d)) ltac:(ilia) Hpos Hwin) as Hle.
    rewrite <-HWs in Hle. unfold unpaid_shares. rewrite Hn.
    enough (sum_list ((λ i, if decide (unpaid_winner d o i) then pro_rata d i else 0) <$>
        seq 0 (length (dc_revealed_outcomes d))) ≤
      sum_list ((λ i, dc_reward_pool d * win i / dc_winning_weight d) <$>
        seq 0 (length (dc_revealed_outcomes d)))) by nia.
    clear Hle HWs. induction (seq 0 _) as [|i l IH]; [done|].
    rewrite !fmap_cons, !sum_list_cons.
    assert ((if decide (unpaid_winner d o i) then pro_rata d i else 0) ≤
      dc_reward_pool d * win i / dc_winning_weight d); [|lia].
    case_decide as Hu; [|apply Z.div_pos; [specialize (Hwin i); unfold_ints; nia|lia]].
    destruct Hu as (_ & Ho & _). unfold win, pro_rata. rewrite decide_True by done.
    by rewrite Z.max_l by lia.
  - intros Hno. exfalso.
    enough (dc_winning_weight d = 0) by lia. rewrite HWs.
    etrans; [apply f_equal, (list_fmap_ext _ (λ _, 0))|].
    + intros ? i Hi%lookup_seq. unfold win. case_decide as Ho; [|done].
      specialize (Hno i). specialize (Hsw i). unfold unpaid_winner in Hno.
      rewrite Hcl, lookup_replicate_2 in Hno by lia. unfold seat_weight in *.
      destruct (decide (0 < default 0 (dc_weights d !! i))); [naive_solver|lia].
    + apply sum_list_zeros.
Qed.

(** ** Well-formed cases *)

(** The bench of the current round: parallel arrays, distinct seats within the
    cap, and no weight without a revealed vote. *)
Record bench_wf (d : DisputeCase) : Prop := {
  bw_commit : length (dc_commitments d) = length (dc_arbitrators d);
  bw_reveal : length (dc_revealed_outcomes d) = length (dc_arbitrators d);
  bw_weight : length (dc_weights d) = length (dc_arbitrators d);
  bw_seats : (length (dc_arbitrators d) ≤ MAX_ARBITRATORS)%nat;
  bw_distinct : NoDup (dc_arbitrators d);
  bw_weights : Forall u64 (dc_weights d);
  bw_silent : ∀ i, dc_revealed_outcomes d !! i = Some None → dc_weights d !! i = Some 0;
}.

(** The rounds: bounded, with the barred list inside its capacity, and the
    windows the case was opened with. *)
Record rounds_wf (d : DisputeCase) : Prop := {
  rw_round : 0 ≤ dc_round d < MAX_DISPUTE_ROUNDS;
  rw_barred : (length (dc_barred d) ≤ MAX_BARRED_ARBITRATORS)%nat;
  rw_barred_distinct : NoDup (dc_barred d);
  rw_barred_rounds : dc_resolved d = false →
    (length (dc_barred d) ≤ MAX_ARBITRATORS * Z.to_nat (dc_round d))%nat;
  rw_excluded : dc_resolved d = false → ∀ a, a ∈ dc_arbitrators d → a ∉ dc_barred d;
  rw_windows : 60 ≤ dc_commit_window_secs d ≤ 604800 ∧ 60 ≤ dc_reveal_window_secs d ≤ 604800;
  rw_deadlines : dc_commit_deadline d = dc_round_opened_at d + dc_commit_window_secs d ∧
    dc_reveal_deadline d = dc_commit_deadline d + dc_reveal_window_secs d;
}.

(** The money: an open case has not settled its deposit; a decided one covers
    its winners; any other resolved case holds nothing. *)
Record money_wf (d : DisputeCase) : Prop := {
  mw_deposit : u64 (dc_deposit d) ∧ u64 (dc_deposit_shortfall d);
  mw_open : dc_resolved d = false →
    dc_outcome d = None ∧ dc_reward_pool d = 0 ∧ dc_reward_remaining d = 0 ∧
    dc_deposit_settled d = false ∧ dc_terminal_reason d = None;
  mw_decided : ∀ o, dc_outcome d = Some o →
    dc_resolved d = true ∧ length (dc_reward_claimed d) = length (dc_arbitrators d) ∧
    dc_winning_weight d = weight_for o (votes_of d) ∧ 0 < dc_winning_weight d ∧
    (if decide (o = BuyerWins) then rewards_ok d o else dc_reward_remaining d = 0);
  mw_undecided : dc_resolved d = true → dc_outcome d = None →
    dc_reward_remaining d = 0 ∧ is_Some (dc_terminal_reason d);
}.

Record case_wf (d : DisputeCase) : Prop := {
  cw_bench : bench_wf d;
  cw_rounds : rounds_wf d;
  cw_money : money_wf d;
}.

Lemma bench_votes_nonneg d : bench_wf d → Forall (λ v, 0 ≤ v.2) (votes_of d).
Proof.
  intros Hb. unfold votes_of. apply Forall_forall. intros [o w] Hin.
  apply elem_of_zip_r in Hin. eapply Forall_forall in Hin; [|apply bw_weights, Hb].
  simpl in *. ilia.
Qed.

Lemma seat_of_Some d a i :
  seat_of d a = Some i → dc_arbitrators d !! i = Some a.
Proof.
  unfold seat_of. destruct (list_find _ _) as [[j b]|] eqn:Hf; [|done]. intros [= ->].
  by apply list_find_Some in Hf as (? & -> & _).
Qed.

Lemma bench_wf_empty d :
  dc_arbitrators d = [] → dc_commitments d = [] → dc_revealed_outcomes d = [] →
  dc_weights d = [] → bench_wf d.
Proof.
  intros Ha Hc Hr Hw. split; rewrite ?Ha, ?Hc, ?Hr, ?Hw; simpl; try done; try lia; constructor.
Qed.

Lemma bench_wf_commit d a cm :
  bench_wf d → a ∉ dc_arbitrators d → (length (dc_arbitrators d) < MAX_ARBITRATORS)%nat →
  bench_wf (d <| dc_arbitrators := dc_arbitrators d ++ [a] |>
             <| dc_commitments := dc_commitments d ++ [cm] |>
             <| dc_revealed_outcomes := dc_revealed_outcomes d ++ [None] |>
             <| dc_weights := dc_weights d ++ [0] |>).
Proof.
  intros [Hc Hr Hw Hs Hd Hu Hz] Ha Hl. split; simpl; rewrite ?length_app; simpl; try lia.
  - apply NoDup_app. split; [done|]. split; [|apply NoDup_singleton].
    by intros x Hx ->%list_elem_of_singleton.
  - apply Forall_app. split; [done|]. apply Forall_singleton. ilia.
  - intros i Hi. destruct (decide (i < length (dc_arbitrators d))%nat).
    + rewrite lookup_app_l in Hi by lia. rewrite lookup_app_l by lia. auto.
    + rewrite lookup_app_r in Hi by lia. rewrite lookup_app_r by lia. apply lookup_lt_Some in Hi as Hi'. simpl in Hi'.
      replace (i - length (dc_weights d))%nat with 0%nat by lia. done.
Qed.

Lemma bench_wf_reveal d i o w :
  bench_wf d → u64 w →
  bench_wf (d <| dc_revealed_outcomes := <[i := Some o]> (dc_revealed_outcomes d) |>
             <| dc_weights := <[i := w]> (dc_weights d) |>).
Proof.
  intros [Hc Hr Hw Hs Hd Hu Hz] Hwu. split; simpl; rewrite ?length_insert; try done.
  - by apply Forall_insert.
  - intros j Hj. destruct (decide (j = i)) as [->|].
    + apply list_lookup_insert_Some in Hj. naive_solver.
    + rewrite list_lookup_insert_ne in Hj by done. rewrite list_lookup_insert_ne by done. auto.
Qed.

Lemma bar_silent_seats_rounds d :
  bench_wf d → rounds_wf d →
  (length (dc_barred (bar_silent_seats d)) ≤ MAX_BARRED_ARBITRATORS)%nat ∧
  NoDup (dc_barred (bar_silent_seats d)).
Proof.
  intros Hb [_ Hlen Hnd _ _ _ _]. unfold bar_silent_seats. simpl. rewrite length_app. split.
  - apply bar_loop_length; simpl; lia.
  - apply NoDup_app. split; [done|]. split.
    + intros a Ha Hin. apply bar_loop_elem in Hin as [Hnil|[Hns _]]; [by apply not_elem_of_nil in Hnil|done].
    + apply bar_loop_NoDup; [apply Hb|constructor|..]; intros a Ha.
      * apply not_elem_of_nil.
      * by apply not_elem_of_nil in Ha.
Qed.

(** The capacity is never reached before the last round: each undecided round
    adds at most a full bench. *)
Lemma bar_silent_seats_grows d :
  bench_wf d → rounds_wf d → dc_resolved d = false →
  (length (dc_barred (bar_silent_seats d)) ≤ MAX_ARBITRATORS * Z.to_nat (dc_round d + 1))%nat.
Proof.
  intros Hb Hr Hres. unfold bar_silent_seats. simpl. rewrite length_app.
  pose proof (bar_loop_grows (dc_barred d) (dc_revealed_outcomes d) (dc_arbitrators d) 0 []).
  pose proof (rw_barred_rounds _ Hr Hres). pose proof (bw_seats _ Hb). pose proof (rw_round _ Hr).
  assert (Z.to_nat (dc_round d + 1) = S (Z.to_nat (dc_round d))) as -> by lia.
  unfold MAX_ARBITRATORS in *. cbn [length] in *. lia.
Qed.

Lemma bar_silent_seats_complete d i a :
  bench_wf d → rounds_wf d → dc_resolved d = false → dc_round d + 1 < MAX_DISPUTE_ROUNDS →
  dc_arbitrators d !! i = Some a → silent (dc_revealed_outcomes d) i = true →
  a ∈ dc_barred (bar_silent_seats d).
Proof.
  intros Hb Hr Hres Hn Ha Hs. unfold bar_silent_seats. simpl. apply elem_of_app. right.
  eapply bar_loop_complete; try done.
  - pose proof (rw_barred_rounds _ Hr Hres). pose proof (bw_seats _ Hb). pose proof (rw_round _ Hr).
    unfold MAX_BARRED_ARBITRATORS, MAX_DISPUTE_ROUNDS, MAX_ARBITRATORS in *.
    change (Z.to_nat 3) with 3%nat. cbn [length]. lia.
  - apply (rw_excluded _ Hr Hres). by eapply list_elem_of_lookup_2.
Qed.
