(* ===== verification/EscrowInv.v ===== *)
(** * EscrowInv: the invariant of the escrow program

    Vault counters balance, what is pending is what live escrows hold, every
    frozen escrow has an open case, and each token account the program owns
    holds at least what the books say it owes. *)

From S2P Require Import Prelude Runtime Shared StakingState EscrowState Fees Trade Dispute.
From S2P Require Import Escrow CaseInv.
Import EscrowError.

(** ** The books *)

(** Counters of a vault: 64-bit, and adding up to [total]. *)
Record vault_wf (v : LiquidityVault) : Prop := {
  vw_reserved : 0 ≤ lv_reserved v;
  vw_available : 0 ≤ lv_available v;
  vw_settled : 0 ≤ lv_settled v;
  vw_pending : 0 ≤ lv_pending_settlement v;
  vw_total : lv_total v =
    lv_available v + lv_reserved v + lv_pending_settlement v + lv_settled v;
  vw_max : lv_total v ≤ U64_MAX;
}.

(** An escrow that holds tokens. *)
Definition live (e : TradeEscrowVault) : Prop :=
  te_state e = AwaitingFiatSettlement ∨ te_state e = Frozen.
#[export] Instance live_dec e : Decision (live e).
Proof. unfold live. apply _. Defined.

Definition live_amount (e : TradeEscrowVault) : Z := if decide (live e) then te_amount e else 0.

Lemma live_amount_live e : live e → live_amount e = te_amount e.
Proof. intros. unfold live_amount. by rewrite decide_True. Qed.
Lemma live_amount_idle e : ¬ live e → live_amount e = 0.
Proof. intros. unfold live_amount. by rewrite decide_False. Qed.
Ltac live_state := unfold live; simpl; first [by auto | intuition congruence].

(** The vault an escrow was funded from. *)
Definition vault_of (e : TradeEscrowVault) : pubkey := liquidity_vault_key (te_seller e) (te_mint e).

Definition live_total (vk : pubkey) (m : gmap pubkey TradeEscrowVault) : Z :=
  map_sum (λ _ e, if decide (vault_of e = vk) then live_amount e else 0) m.

(** What the arbitration pool owes on account of one case. *)
Definition obligation (d : DisputeCase) : Z :=
  if dc_resolved d then dc_reward_remaining d else dc_deposit d.

(** What the token account at [k] must hold. *)
Definition required (vs : gmap pubkey LiquidityVault) (es : gmap pubkey TradeEscrowVault)
    (cs : gmap pubkey DisputeCase) (k : pubkey) : Z :=
  match k with
  | PdaKeys ESCROW LIQUIDITY_VAULT_TOKENS_SEED m mint =>
      default 0 ((λ v, lv_available v + lv_reserved v) <$> vs !! liquidity_vault_key m mint)
  | PdaNum ESCROW TRADE_ESCROW_TOKENS_SEED rid =>
      default 0 (live_amount <$> es !! trade_escrow_key rid)
  | Pda ESCROW ARBITRATION_POOL_SEED => map_sum (λ _, obligation) cs
  | _ => 0
  end.

Lemma required_vault vs es cs m mint v k :
  required (<[liquidity_vault_key m mint := v]> vs) es cs k =
  if decide (k = liquidity_tokens_key m mint) then lv_available v + lv_reserved v
  else required vs es cs k.
Proof.
  case_decide as Hk.
  - subst k. simpl. by rewrite lookup_insert_eq.
  - destruct k as [| | |[] []| |]; try done. simpl.
    rewrite lookup_insert_ne; [done|]. intros [= -> ->]. by apply Hk.
Qed.

Lemma required_escrow vs es cs rid e k :
  required vs (<[trade_escrow_key rid := e]> es) cs k =
  if decide (k = trade_escrow_tokens_key rid) then live_amount e else required vs es cs k.
Proof.
  case_decide as Hk.
  - subst k. simpl. by rewrite lookup_insert_eq.
  - destruct k as [| | | |[] []|]; try done. simpl.
    rewrite lookup_insert_ne; [done|]. intros [= ->]. by apply Hk.
Qed.

Lemma required_case vs es cs dk d d' k :
  cs !! dk = Some d →
  required vs es (<[dk := d']> cs) k =
  required vs es cs k + (if decide (k = arbitration_pool_key) then obligation d' - obligation d else 0).
Proof.
  intros Hd. case_decide as Hk.
  - subst k. simpl. rewrite (map_sum_insert _ _ _ d) by done. lia.
  - destruct k as [|[] []| | | |]; rewrite Z.add_0_r; done.
Qed.

Lemma required_new_case vs es cs dk d' k :
  cs !! dk = None →
  required vs es (<[dk := d']> cs) k =
  required vs es cs k + (if decide (k = arbitration_pool_key) then obligation d' else 0).
Proof.
  intros Hd. case_decide as Hk.
  - subst k. simpl. rewrite map_sum_insert_None by done. lia.
  - destruct k as [|[] []| | | |]; rewrite Z.add_0_r; done.
Qed.

(** ** Token movements *)

Section ledger.
Context {L : Type} `{TokenLedger L}.
Implicit Types (l : L).

(** A balance after a transfer, with the self-transfer cancelling out. *)
Lemma transfer_balance_eq l l' from mint to auth n d k :
  transfer_checked l from mint to auth n d = Some l' →
  balance l' k = balance l k + (if decide (k = to) then n else 0)
                 - (if decide (k = from) then n else 0).
Proof.
  intros Ht. rewrite (transfer_balance _ _ _ _ _ _ _ _ Ht).
  repeat case_decide; congruence || lia.
Qed.

(** What every instruction keeps of the ledger: the program's vaults stay
    vaults, and no arbitration pool appears. *)
Record keeps l l' : Prop := {
  keeps_vault : ∀ k m o, derived_by ESCROW o = true → vault_account l k m o → vault_account l' k m o;
  keeps_fresh : account_of l arbitration_pool_key = None → account_of l' arbitration_pool_key = None;
}.

Lemma keeps_refl l : keeps l l.
Proof. split; auto. Qed.
Lemma keeps_transfer l l' from mint to auth n d :
  transfer_checked l from mint to auth n d = Some l' → keeps l l'.
Proof. intros Ht. split; [intros k m o _; by eapply transfer_vault_account|by eapply transfer_fresh]. Qed.
Lemma keeps_create l l' k m o :
  create_token_account l k m o = Some l' → k ≠ arbitration_pool_key → keeps l l'.
Proof.
  intros Hc Hk. split; [intros j m' o' _; by eapply create_vault_account|by eapply create_fresh].
Qed.
Lemma keeps_respects l l' : ledger_respects ESCROW l l' → keeps l l'.
Proof.
  intros [Hv Hf]. split; [intros k m o Ho Hk; by apply (Hv k m o)|by apply Hf].
Qed.
Lemma keeps_trans l1 l2 l3 : keeps l1 l2 → keeps l2 l3 → keeps l1 l3.
Proof. intros [] []. split; auto. Qed.

(** The three kinds of vault authority. *)
Lemma keeps_liquidity l l' k m a b :
  keeps l l' → vault_account l k m (liquidity_vault_key a b) →
  vault_account l' k m (liquidity_vault_key a b).
Proof. intros Hk. by apply (keeps_vault _ _ Hk). Qed.
Lemma keeps_escrow l l' k m rid :
  keeps l l' → vault_account l k m (trade_escrow_key rid) →
  vault_account l' k m (trade_escrow_key rid).
Proof. intros Hk. by apply (keeps_vault _ _ Hk). Qed.
Lemma keeps_fee l l' k m :
  keeps l l' → vault_account l k m fee_config_key → vault_account l' k m fee_config_key.
Proof. intros Hk. by apply (keeps_vault _ _ Hk). Qed.

(** The arbitration pool, once there, is the program's. *)
Definition pool_ok l : Prop :=
  ∀ a, account_of l arbitration_pool_key = Some a →
    vault_account l arbitration_pool_key (ta_mint a) fee_config_key.

Lemma keeps_pool l l' : pool_ok l → keeps l l' → pool_ok l'.
Proof.
  intros Hp [Hv Hf] a Ha. destruct (account_of l arbitration_pool_key) as [b|] eqn:Hb.
  - specialize (Hp _ Hb). apply Hv in Hp; [|done]. destruct Hp as (x & Hx & Hm & Ho & Hd).
    assert (x = a) as -> by congruence. exists a. auto.
  - rewrite Hf in Ha; done.
Qed.

Definition paid_to (k : pubkey) (dests : list (pubkey * Z)) : Z :=
  sum_list ((λ p, if decide (k = p.1) then p.2 else 0) <$> dests).

(** The transfer loop: each destination gains what it was sent, the source
    loses the total. *)
Lemma pay_all_spec l l' from mint auth dests :
  pay_all l from mint auth dests = Ok l' →
  keeps l l' ∧
  ∀ k, balance l' k = balance l k + paid_to k dests
         - (if decide (k = from) then sum_list (snd <$> dests) else 0).
Proof.
  revert l. induction dests as [|[to n] dests IH]; intros l Hrun; simpl in Hrun.
  - inv_run. split; [apply keeps_refl|]. intros k. unfold paid_to. simpl. case_decide; lia.
  - inv_run. apply IH in Hrun as [Hkeep Hbal].
    match goal with Ht : (if decide (n = 0) then _ else _) = Ok ?l1 |- _ =>
      assert (keeps l l1 ∧ ∀ k, balance l1 k = balance l k
        + (if decide (k = to) then n else 0) - (if decide (k = from) then n else 0)) as [Hk1 Hb1]
    end.
    { case_decide; inv_run.
      - split; [apply keeps_refl|]. intros k. repeat case_decide; lia.
      - split; [by eapply keeps_transfer|]. intros k. by eapply transfer_balance_eq. }
    split; [by eapply keeps_trans|]. intros k. rewrite Hbal, Hb1. unfold paid_to.
    rewrite !fmap_cons, !sum_list_cons. cbn [fst snd]. repeat case_decide; lia.
Qed.

(** Nothing is taken from a destination. *)
Lemma pay_all_nonneg l l' from mint auth dests k :
  pay_all l from mint auth dests = Ok l' → 0 ≤ paid_to k dests.
Proof.
  revert l. induction dests as [|[to n] dests IH]; intros l Hrun; simpl in Hrun; [done|].
  inv_run. apply IH in Hrun. unfold paid_to in *. rewrite fmap_cons, sum_list_cons. cbn [fst snd].
  match goal with Ht : (if decide (n = 0) then _ else _) = Ok _ |- _ =>
    assert (0 ≤ n); [revert Ht|clear Ht; case_decide; lia] end.
  case_decide; [lia|]. intros Ht. inv_run. by eapply transfer_nonneg in Ht as [? _].
Qed.
End ledger.

#[export] Hint Resolve keeps_liquidity keeps_escrow keeps_fee keeps_refl keeps_transfer keeps_pool
  : openfiat.

(** ** The invariant *)

Section inv.
Context {L : Type} `{TokenLedger L}.
Abbreviation state := (escrow_state L).
Implicit Types (s : state) (l : L) (v : LiquidityVault) (e : TradeEscrowVault) (d : DisputeCase).

(** A case belongs to the escrow it froze, and its deposit to that seller's
    vault. *)
Definition case_ok s (k : pubkey) d : Prop :=
  k = dispute_case_key (dc_reservation_id d) ∧
  dc_trade_escrow d = trade_escrow_key (dc_reservation_id d) ∧ case_wf d ∧
  ∃ e, es_escrows s !! trade_escrow_key (dc_reservation_id d) = Some e ∧
    (dc_resolved d = false → te_state e = Frozen) ∧
    (dc_resolved d = true → te_state e = Released ∨ te_state e = Cancelled) ∧
    dc_deposit_vault d = liquidity_vault_key (te_seller e) (dc_deposit_mint d) ∧
    is_Some (es_vaults s !! dc_deposit_vault d).

Record escrow_inv s : Prop := {
  ei_fee : ∀ f, es_fee s = Some f → fee_config_wf f;
  ei_vault : ∀ k v, es_vaults s !! k = Some v →
    k = liquidity_vault_key (lv_merchant v) (lv_mint v) ∧ vault_wf v ∧
    vault_account (es_ledger s) (liquidity_tokens_key (lv_merchant v) (lv_mint v)) (lv_mint v)
      (liquidity_vault_key (lv_merchant v) (lv_mint v));
  ei_escrow : ∀ k e, es_escrows s !! k = Some e →
    k = trade_escrow_key (te_reservation_id e) ∧ u64 (te_amount e) ∧
    is_Some (es_vaults s !! vault_of e) ∧
    vault_account (es_ledger s) (trade_escrow_tokens_key (te_reservation_id e)) (te_mint e)
      (trade_escrow_key (te_reservation_id e));
  ei_pending : ∀ k v, es_vaults s !! k = Some v →
    lv_pending_settlement v = live_total k (es_escrows s);
  ei_case : ∀ k d, es_cases s !! k = Some d →
    case_ok s k d ∧ vault_account (es_ledger s) arbitration_pool_key (dc_deposit_mint d) fee_config_key;
  ei_frozen : ∀ k e, es_escrows s !! k = Some e → te_state e = Frozen →
    ∃ d, es_cases s !! dispute_case_key (te_reservation_id e) = Some d ∧ dc_resolved d = false;
  ei_claim : ∀ k r, es_claims s !! k = Some r →
    k = recovery_claim_key (rc_merchant r) (rc_mint r) ∧ u64 (rc_owed_total r) ∧
    u64 (rc_credited_total r);
  ei_pool : pool_ok (es_ledger s);
  ei_backing : ∀ k,
    required (es_vaults s) (es_escrows s) (es_cases s) k ≤ balance (es_ledger s) k;
}.

Lemma live_amount_nonneg e : u64 (te_amount e) → 0 ≤ live_amount e.
Proof. intros. unfold live_amount. case_decide; ilia. Qed.

(** A live escrow's amount is within its vault's pending counter, so
    subtracting it cannot abort. *)
Lemma pending_covers s te e v :
  escrow_inv s → es_escrows s !! te = Some e → live e → es_vaults s !! vault_of e = Some v →
  te_amount e ≤ lv_pending_settlement v.
Proof.
  intros Hinv He Hl Hv. rewrite (ei_pending _ Hinv _ _ Hv). unfold live_total.
  etrans; [|apply (map_sum_lookup_le (λ _ e, if decide (vault_of e = vault_of _) then live_amount e else 0) _ _ _ He)].
  - rewrite decide_True by done. unfold live_amount. by rewrite decide_True.
  - intros k e' He'. case_decide; [|done]. apply live_amount_nonneg. by eapply ei_escrow.
Qed.

Lemma live_total_update s te e e' vk :
  es_escrows s !! te = Some e → vault_of e' = vault_of e →
  live_total vk (<[te := e']> (es_escrows s)) = live_total vk (es_escrows s)
    + (if decide (vault_of e = vk) then live_amount e' - live_amount e else 0).
Proof.
  intros He Hv. unfold live_total. rewrite (map_sum_insert _ _ _ e) by done. rewrite Hv.
  case_decide; lia.
Qed.

(** Reading a vault through the loader. *)
Lemma load_vault_Ok s m mint v :
  load_vault s m mint = Ok v → es_vaults s !! liquidity_vault_key m mint = Some v ∧ lv_mint v = mint.
Proof. unfold load_vault. intros. inv_run. done. Qed.

Lemma load_own_vault_Ok s m mint v :
  load_own_vault s m mint = Ok v →
  es_vaults s !! liquidity_vault_key m mint = Some v ∧ lv_mint v = mint ∧ lv_merchant v = m.
Proof.
  unfold load_own_vault. intros. inv_run.
  match goal with H : load_vault _ _ _ = Ok _ |- _ => apply load_vault_Ok in H as [? ?] end. done.
Qed.

Lemma load_escrow_Ok s te e :
  load_escrow s te = Ok e →
  es_escrows s !! te = Some e ∧ te = trade_escrow_key (te_reservation_id e).
Proof. unfold load_escrow. intros. inv_run. done. Qed.

Lemma load_case_Ok s dk d :
  load_case s dk = Ok d → es_cases s !! dk = Some d ∧ dk = dispute_case_key (dc_reservation_id d).
Proof. unfold load_case. intros. inv_run. done. Qed.

Lemma vault_key s m mint v :
  escrow_inv s → es_vaults s !! liquidity_vault_key m mint = Some v →
  lv_merchant v = m ∧ lv_mint v = mint.
Proof.
  intros Hinv Hv. destruct (ei_vault _ Hinv _ _ Hv) as [Hk _].
  unfold liquidity_vault_key in Hk. naive_solver.
Qed.
End inv.

Ltac inv_escrow :=
  repeat (inv_run_step || match goal with
    | H : load_own_vault _ _ _ = Ok _ |- _ => apply load_own_vault_Ok in H as (? & ? & ?)
    | H : load_vault _ _ _ = Ok _ |- _ => apply load_vault_Ok in H as (? & ?)
    | H : load_escrow _ _ = Ok _ |- _ => apply load_escrow_Ok in H as (? & ?)
    | H : load_case _ _ = Ok _ |- _ => apply load_case_Ok in H as (? & ?)
    | H : load_fee _ = Ok _ |- _ => apply ok_or_Ok in H
    | H : (let '(_, _) := ?p in _) = Ok _ |- _ => destruct p
    end; cbn beta iota in * ).

(** ** Preservation: the shapes of a state change *)

Section preserve.
Context {L : Type} `{TokenLedger L}.
Abbreviation state := (escrow_state L).
Implicit Types (s : state) (l : L) (v : LiquidityVault) (e : TradeEscrowVault) (d : DisputeCase).

(** Two escrow records of the same trade. *)
Definition same_trade e e' : Prop :=
  te_reservation_id e' = te_reservation_id e ∧ te_seller e' = te_seller e ∧
  te_mint e' = te_mint e ∧ te_amount e' = te_amount e ∧ te_buyer e' = te_buyer e.

Lemma same_trade_vault e e' : same_trade e e' → vault_of e' = vault_of e.
Proof. intros (_ & Hs & Hm & _). unfold vault_of. by rewrite Hs, Hm. Qed.

(** An escrow that was never disputed has no case. *)
Lemma undisputed s te e :
  escrow_inv s → es_escrows s !! te = Some e →
  te_state e = Reserved ∨ te_state e = AwaitingFiatSettlement →
  es_cases s !! dispute_case_key (te_reservation_id e) = None.
Proof.
  intros Hinv He Hst. destruct (es_cases s !! _) as [d|] eqn:Hd; [|done].
  destruct (ei_case _ Hinv _ _ Hd) as [(Hk & _ & _ & e' & He' & Hopen & Hres & _) _].
  unfold dispute_case_key in Hk. injection Hk as Hk. rewrite <-Hk in He'.
  destruct (ei_escrow _ Hinv _ _ He) as [-> _]. simplify_eq.
  destruct (dc_resolved d); [destruct (Hres eq_refl)|pose proof (Hopen eq_refl)];
    destruct Hst; congruence.
Qed.

(** A case keeps its facts when escrows of other trades and vaults change. *)
Lemma case_ok_frame s s' k d te e e' :
  case_ok s k d → es_escrows s !! te = Some e → same_trade e e' →
  (te = trade_escrow_key (dc_reservation_id d) → te_state e' = te_state e) →
  es_escrows s' = <[te := e']> (es_escrows s) →
  (∀ j, is_Some (es_vaults s !! j) → is_Some (es_vaults s' !! j)) → case_ok s' k d.
Proof.
  intros (Hk & Hte & Hwf & e0 & He0 & Hopen & Hres & Hdv & Hsome) He Hsame Hst Hes Hvs.
  split; [done|]. split; [done|]. split; [done|]. rewrite Hes.
  destruct (decide (te = trade_escrow_key (dc_reservation_id d))) as [->|Hne].
  - exists e'. rewrite lookup_insert_eq. simplify_eq. destruct Hsame as (_ & Hs & _).
    rewrite Hst, Hs by done. split_and!; auto.
  - exists e0. rewrite lookup_insert_ne by done. split_and!; auto.
Qed.

Lemma case_ok_frame_vault s s' k d :
  case_ok s k d → es_escrows s' = es_escrows s →
  (∀ j, is_Some (es_vaults s !! j) → is_Some (es_vaults s' !! j)) → case_ok s' k d.
Proof.
  intros (Hk & Hte & Hwf & e0 & He0 & Hopen & Hres & Hdv & Hsome) Hes Hvs.
  split; [done|]. split; [done|]. split; [done|]. exists e0. rewrite Hes. split_and!; auto.
Qed.

Lemma insert_is_Some {V} (m : gmap pubkey V) k x j : is_Some (m !! j) → is_Some (<[k:=x]> m !! j).
Proof. rewrite lookup_insert_is_Some. destruct (decide (k = j)); auto. Qed.

(** Changing one vault (and claims, ledger, events). *)
Lemma inv_vault s m mint v v' claims' l' ev :
  escrow_inv s → es_vaults s !! liquidity_vault_key m mint = Some v →
  lv_merchant v' = lv_merchant v → lv_mint v' = lv_mint v →
  lv_pending_settlement v' = lv_pending_settlement v → vault_wf v' →
  keeps (es_ledger s) l' →
  (∀ k r, claims' !! k = Some r → k = recovery_claim_key (rc_merchant r) (rc_mint r) ∧
    u64 (rc_owed_total r) ∧ u64 (rc_credited_total r)) →
  (∀ k, required (<[liquidity_vault_key m mint := v']> (es_vaults s)) (es_escrows s)
    (es_cases s) k ≤ balance l' k) →
  escrow_inv (mkEscrowState (es_fee s) (es_policy s)
    (<[liquidity_vault_key m mint := v']> (es_vaults s)) (es_escrows s) (es_cases s) claims' l' ev).
Proof.
  intros Hinv Hv Hm Hmint Hp Hwf Hkeep Hclaims Hback.
  destruct (ei_vault _ Hinv _ _ Hv) as (Hk & _ & Hacc).
  split; simpl; try done.
  - by apply ei_fee.
  - intros j w. rewrite lookup_insert. case_decide as Hj; intros Hw; simplify_eq.
    + rewrite Hm, Hmint. eauto with openfiat.
    + destruct (ei_vault _ Hinv _ _ Hw) as (? & ? & ?). eauto with openfiat.
  - intros j e He. destruct (ei_escrow _ Hinv _ _ He) as (? & ? & ? & ?).
    split_and!; eauto using insert_is_Some with openfiat.
  - intros j w. rewrite lookup_insert. case_decide as Hj; intros Hw; simplify_eq.
    + rewrite Hp. by apply (ei_pending _ Hinv).
    + by apply (ei_pending _ Hinv).
  - intros j d Hd. destruct (ei_case _ Hinv _ _ Hd) as [Hok Hpool]. split; [|by eapply keeps_fee].
    eapply case_ok_frame_vault; [done|done|]. intros i. simpl. apply insert_is_Some.
  - by apply (ei_frozen _ Hinv).
  - eapply keeps_pool; [apply (ei_pool _ Hinv)|done].
Qed.

(** Changing one undisputed escrow together with its vault. *)
Lemma inv_vault_escrow s te e e' v v' l' ev :
  escrow_inv s → es_escrows s !! te = Some e → es_vaults s !! vault_of e = Some v →
  te_state e = Reserved ∨ te_state e = AwaitingFiatSettlement → te_state e' ≠ Frozen →
  same_trade e e' → lv_merchant v' = lv_merchant v → lv_mint v' = lv_mint v → vault_wf v' →
  lv_pending_settlement v' - lv_pending_settlement v = live_amount e' - live_amount e →
  keeps (es_ledger s) l' →
  (∀ k, required (<[vault_of e := v']> (es_vaults s)) (<[te := e']> (es_escrows s))
    (es_cases s) k ≤ balance l' k) →
  escrow_inv (mkEscrowState (es_fee s) (es_policy s) (<[vault_of e := v']> (es_vaults s))
    (<[te := e']> (es_escrows s)) (es_cases s) (es_claims s) l' ev).
Proof.
  intros Hinv He Hv Hst Hnf Hsame Hm Hmint Hwf Hp Hkeep Hback.
  destruct (ei_vault _ Hinv _ _ Hv) as (Hk & _ & Hacc).
  destruct (ei_escrow _ Hinv _ _ He) as (Hte & Hamt & Hsome & Htok).
  pose proof (undisputed _ _ _ Hinv He Hst) as Hnone.
  split; simpl; try done.
  - by apply ei_fee.
  - intros j w. rewrite lookup_insert. case_decide as Hj; intros Hw; simplify_eq.
    + rewrite Hm, Hmint. eauto with openfiat.
    + destruct (ei_vault _ Hinv _ _ Hw) as (? & ? & ?). eauto with openfiat.
  - intros j f. rewrite lookup_insert. case_decide as Hj; intros Hf; simplify_eq.
    + rewrite (same_trade_vault _ _ Hsame). destruct Hsame as (-> & _ & -> & -> & _).
      split_and!; eauto using insert_is_Some with openfiat.
    + destruct (ei_escrow _ Hinv _ _ Hf) as (? & ? & ? & ?).
      split_and!; eauto using insert_is_Some with openfiat.
  - intros j w. rewrite (live_total_update s te e e') by (done || by apply same_trade_vault).
    rewrite lookup_insert. case_decide as Hj; intros Hw; simplify_eq.
    + pose proof (ei_pending _ Hinv _ _ Hv). lia.
    + rewrite Z.add_0_r. by apply (ei_pending _ Hinv).
  - intros j d Hd. destruct (ei_case _ Hinv _ _ Hd) as [Hok Hpool]. split; [|by eapply keeps_fee].
    eapply (case_ok_frame s _ j d te e e'); simpl; try done; [|intros i; apply insert_is_Some].
    intros Heq. exfalso. destruct Hok as (Hj & _). rewrite Hte in Heq. injection Heq as Heq.
    rewrite Hj, <-Heq, Hnone in Hd. done.
  - intros j f. rewrite lookup_insert. case_decide; intros Hf; simplify_eq; [done|].
    by eapply (ei_frozen _ Hinv).
  - by apply (ei_claim _ Hinv).
  - eapply keeps_pool; [apply (ei_pool _ Hinv)|done].
Qed.
End preserve.
