(* ===== verification/TradeInv.v ===== *)
(** * TradeInv: the vault and trade instructions preserve the invariant *)

From S2P Require Import Prelude Runtime Shared StakingState EscrowState Fees Trade Dispute.
From S2P Require Import Escrow CaseInv EscrowInv.
Import EscrowError.

(** Who a release pays, for the configured rates. *)
Definition release_dests (f : FeeConfig) (b : pubkey) (amount : Z) : list (pubkey * Z) :=
  let fee := floor_share amount (fc_settlement_fee_bps f) in
  let dev := floor_share fee (fc_dev_treasury_bps f) in
  let infra := floor_share fee (fc_infra_treasury_bps f) in
  let emergency := floor_share fee (fc_emergency_reserve_bps f) in
  [ (b, amount - fee); (fc_dev_treasury f, dev);
    (fc_ecosystem_treasury f, fee - dev - infra - emergency);
    (fc_infra_treasury f, infra); (fc_emergency_reserve f, emergency) ].

(** And a decided or terminal dispute: the merchant's tokens go back to the
    vault, a split leaves the odd unit with the merchant. *)
Definition verdict_dests (f : FeeConfig) (e : TradeEscrowVault) (b : pubkey)
    (o : option DisputeOutcome) : list (pubkey * Z) :=
  let amount := te_amount e in
  let vault := liquidity_tokens_key (te_seller e) (te_mint e) in
  match o with
  | Some BuyerWins => release_dests f b amount
  | Some MerchantWins | Some InvalidDispute => [(vault, amount)]
  | Some MutualSettlement | None => [(b, amount / 2); (vault, amount - amount / 2)]
  end.
#[global] Arguments verdict_dests : simpl never.
#[global] Arguments release_dests : simpl never.

Section trade_inv.
Context {L : Type} `{TokenLedger L}.
Abbreviation state := (escrow_state L).
Implicit Types (s : state) (l : L) (v : LiquidityVault) (e : TradeEscrowVault) (c : chain).

(** ** Backing, account by account *)

Lemma backing_vault s m mint v :
  escrow_inv s → es_vaults s !! liquidity_vault_key m mint = Some v →
  lv_available v + lv_reserved v ≤ balance (es_ledger s) (liquidity_tokens_key m mint).
Proof.
  intros Hinv Hv. pose proof (ei_backing _ Hinv (liquidity_tokens_key m mint)) as Hb.
  simpl in Hb. by rewrite Hv in Hb.
Qed.

Lemma backing_escrow s e :
  escrow_inv s → es_escrows s !! trade_escrow_key (te_reservation_id e) = Some e →
  live_amount e ≤ balance (es_ledger s) (trade_escrow_tokens_key (te_reservation_id e)).
Proof.
  intros Hinv He. pose proof (ei_backing _ Hinv (trade_escrow_tokens_key (te_reservation_id e))) as Hb.
  simpl in Hb. by rewrite He in Hb.
Qed.

(** Where something is owed there is a vault account the program owns. *)
Lemma required_owned s k :
  escrow_inv s →
  required (es_vaults s) (es_escrows s) (es_cases s) k = 0 ∨
  ∃ m o, vault_account (es_ledger s) k m o ∧ derived_by ESCROW o = true.
Proof.
  intros Hinv. destruct k as [|[] []| |[] []|[] []|]; try (by left); simpl.
  - destruct (decide (es_cases s = ∅)) as [->|Hne]; [left; apply map_sum_empty|].
    apply map_choose in Hne as (j & d & Hd). right.
    destruct (ei_case _ Hinv _ _ Hd) as [_ Hp]. eauto.
  - destruct (es_vaults s !! _) as [v|] eqn:Hv; [|by left]. right.
    destruct (vault_key _ _ _ _ Hinv Hv) as [<- <-].
    destruct (ei_vault _ Hinv _ _ Hv) as (_ & _ & Hacc). eauto.
  - destruct (es_escrows s !! _) as [e|] eqn:He; [|by left]. right.
    destruct (ei_escrow _ Hinv _ _ He) as (Hk & _ & _ & Hacc). injection Hk as ->. eauto.
Qed.

(** The books stay covered by a ledger that respects the program's vaults. *)
Lemma backing_respects s l' k :
  escrow_inv s → ledger_respects ESCROW (es_ledger s) l' →
  required (es_vaults s) (es_escrows s) (es_cases s) k ≤ balance l' k.
Proof.
  intros Hinv Hl. destruct (required_owned s k Hinv) as [->|(m & o & Hv & Ho)].
  - pose proof (balance_u64 l' k). ilia.
  - destruct (respects_vault _ _ _ Hl _ _ _ Ho Hv). pose proof (ei_backing _ Hinv k). lia.
Qed.

(** Creating a token account moves nothing. *)
Lemma backing_create s l' k0 m o k :
  escrow_inv s → create_token_account (es_ledger s) k0 m o = Some l' →
  required (es_vaults s) (es_escrows s) (es_cases s) k ≤ balance l' k.
Proof.
  intros Hinv Hc. rewrite (create_balance _ _ _ _ _ _ Hc). apply (ei_backing _ Hinv).
Qed.

(** ** Liquidity *)

Lemma create_liquidity_vault_inv merchant mint s s' :
  escrow_inv s → handle_create_liquidity_vault merchant mint s = Ok s' → escrow_inv s'.
Proof.
  intros Hinv Hrun. unfold handle_create_liquidity_vault in Hrun. inv_escrow.
  match goal with Hc : create_token_account _ _ _ _ = Some ?l, Hn : es_vaults s !! _ = None |- _ =>
    rename Hc into Hcr; rename Hn into Hnone; set (l' := l) in * end.
  match goal with Hif : (if decide _ then _ else _) = Ok _ |- _ => clear Hif end.
  pose proof (keeps_create _ _ _ _ _ Hcr ltac:(done)) as Hkeep.
  assert (live_total (liquidity_vault_key merchant mint) (es_escrows s) = 0) as Hz.
  { unfold live_total. rewrite (map_sum_ext _ (λ _ _, 0)).
    - unfold map_sum. apply (map_fold_weak_ind (λ r _, r = 0)); lia || done.
    - intros k e He. rewrite decide_False; [done|]. intros Heq.
      destruct (ei_escrow _ Hinv _ _ He) as (_ & _ & [w Hw] & _). congruence. }
  destruct Hinv as [Hf Hv He Hp Hc Hfr Hcl Hpo Hb] eqn:Heq. clear Heq.
  unfold put_ledger, put_vault. split; simpl; try done.
  - intros j w. rewrite lookup_insert. case_decide as Hj; intros Hw; simplify_eq.
    + simpl. split; [done|]. split; [split; simpl; ilia|]. by eapply create_vault_account_new.
    + destruct (Hv _ _ Hw) as (? & ? & ?). eauto with openfiat.
  - intros j w Hw. destruct (He _ _ Hw) as (? & ? & ? & ?).
    eauto 7 using insert_is_Some with openfiat.
  - intros j w. rewrite lookup_insert. case_decide as Hj; intros Hw; simplify_eq; [done|auto].
  - intros j d Hd. destruct (Hc _ _ Hd) as [Hok Hpool]. split; [|by eapply keeps_fee].
    eapply case_ok_frame_vault; [done|done|]. intros i. simpl. apply insert_is_Some.
  - by eapply keeps_pool.
  - intros k. rewrite required_vault. case_decide.
    + simpl. pose proof (balance_u64 l' k). ilia.
    + by eapply backing_create.
Qed.

Lemma deposit_liquidity_inv c merchant from mint n s s' :
  derived_by ESCROW merchant = false → escrow_inv s →
  handle_deposit_liquidity c merchant from mint n s = Ok s' → escrow_inv s'.
Proof.
  intros Hsig Hinv Hrun. unfold handle_deposit_liquidity in Hrun. inv_escrow.
  match goal with Ht : transfer_checked _ _ _ _ _ _ _ = Some _ |- _ => rename Ht into Htr end.
  match goal with Hv : es_vaults s !! _ = Some _ |- _ => rename Hv into Hvault end.
  destruct (ei_vault _ Hinv _ _ Hvault) as (_ & Hwf & Hacc).
  pose proof (transfer_nonneg _ _ _ _ _ _ _ _ Htr).
  eapply (inv_vault s); try done; simpl.
  - destruct Hwf. split; simpl; ilia.
  - by eapply keeps_transfer.
  - by apply (ei_claim _ Hinv).
  - intros k. rewrite required_vault. case_decide as Hk; simpl.
    + pose proof (backing_vault _ _ _ _ Hinv Hvault). subst k.
      rewrite (transfer_balance_eq _ _ _ _ _ _ _ _ _ Htr), decide_True by done.
      rewrite decide_False; [lia|]. intros <-.
      destruct (vault_key _ _ _ _ Hinv Hvault) as [Hm Hmi]. rewrite Hm, Hmi in Hacc.
      apply (transfer_from_vault _ _ _ _ _ _ _ _ Htr) in Hacc.
      by rewrite Hacc in Hsig.
    + apply backing_respects; [done|]. by eapply transfer_respects.
Qed.

(** A vault change that touches no tokens but its own account's. *)
Lemma backing_vault_change s m mint v v' l' :
  escrow_inv s → es_vaults s !! liquidity_vault_key m mint = Some v →
  lv_available v' + lv_reserved v' - (lv_available v + lv_reserved v)
    ≤ balance l' (liquidity_tokens_key m mint)
      - balance (es_ledger s) (liquidity_tokens_key m mint) →
  (∀ k, k ≠ liquidity_tokens_key m mint → balance (es_ledger s) k ≤ balance l' k) →
  ∀ k, required (<[liquidity_vault_key m mint := v']> (es_vaults s)) (es_escrows s)
    (es_cases s) k ≤ balance l' k.
Proof.
  intros Hinv Hv Hown Hother k. rewrite required_vault. case_decide as Hk.
  - subst k. pose proof (backing_vault _ _ _ _ Hinv Hv). lia.
  - pose proof (ei_backing _ Hinv k). specialize (Hother k Hk). lia.
Qed.

Lemma reserve_liquidity_inv c merchant mint n s s' :
  u64 n → escrow_inv s → handle_reserve_liquidity c merchant mint n s = Ok s' → escrow_inv s'.
Proof.
  intros Hn Hinv Hrun. unfold handle_reserve_liquidity in Hrun. inv_escrow.
  match goal with Hv : es_vaults s !! _ = Some _ |- _ => rename Hv into Hvault end.
  destruct (ei_vault _ Hinv _ _ Hvault) as (_ & Hwf & _).
  eapply (inv_vault s); try done; simpl.
  - destruct Hwf. split; simpl; ilia.
  - by apply (ei_claim _ Hinv).
  - eapply backing_vault_change; try done; simpl; lia.
Qed.

Lemma withdraw_liquidity_inv merchant to mint n s s' :
  escrow_inv s → handle_withdraw_liquidity merchant to mint n s = Ok s' → escrow_inv s'.
Proof.
  intros Hinv Hrun. unfold handle_withdraw_liquidity in Hrun. inv_escrow.
  match goal with Ht : transfer_checked _ _ _ _ _ _ _ = Some _ |- _ => rename Ht into Htr end.
  match goal with Hv : es_vaults s !! _ = Some _ |- _ => rename Hv into Hvault end.
  destruct (ei_vault _ Hinv _ _ Hvault) as (_ & Hwf & _).
  pose proof (transfer_nonneg _ _ _ _ _ _ _ _ Htr).
  eapply (inv_vault s); try done; simpl.
  - destruct Hwf. split; simpl; ilia.
  - by eapply keeps_transfer.
  - by apply (ei_claim _ Hinv).
  - eapply backing_vault_change; try done; simpl; [|by eapply transfer_balance_mono].
    rewrite (transfer_balance_eq _ _ _ _ _ _ _ _ _ Htr). repeat case_decide; lia || done.
Qed.

Lemma charge_ad_listing_fee_inv c merchant mint t ad s s' :
  escrow_inv s → handle_charge_ad_listing_fee c merchant mint t ad s = Ok s' → escrow_inv s'.
Proof.
  intros Hinv Hrun. unfold handle_charge_ad_listing_fee in Hrun. inv_escrow.
  match goal with Hp : pay_all _ _ _ _ _ = Ok _ |- _ => rename Hp into Hpay end.
  match goal with Hv : es_vaults s !! _ = Some _ |- _ => rename Hv into Hvault end.
  match goal with Hv : es_fee s = Some _ |- _ => apply (ei_fee _ Hinv) in Hv as Hfwf end.
  match goal with Hs : split_fee_four_ways _ _ = Ok _ |- _ => rename Hs into Hsplit end.
  destruct (ei_vault _ Hinv _ _ Hvault) as (_ & Hwf & _).
  apply split_fee_four_ways_sum in Hsplit as (Hlen & Hsum & Hnn); [|done|by apply Hfwf].
  pose proof (λ k, pay_all_nonneg _ _ _ _ _ _ k Hpay) as Hge.
  apply pay_all_spec in Hpay as [Hkeep Hbal]. rewrite snd_zip, Hsum in Hbal by (simpl; lia).
  eapply (inv_vault s); try done; simpl.
  - destruct Hwf. split; simpl; ilia.
  - by apply (ei_claim _ Hinv).
  - eapply backing_vault_change; try done; simpl; [|intros k Hk]; rewrite Hbal;
      [specialize (Hge (liquidity_tokens_key merchant mint))|specialize (Hge k)];
      case_decide; done || lia.
Qed.

(** ** Escrow lifecycle *)

Lemma create_trade_escrow_inv c merchant buyer mint rid n timeout s s' :
  u64 n → escrow_inv s →
  handle_create_trade_escrow c merchant buyer mint rid n timeout s = Ok s' → escrow_inv s'.
Proof.
  intros Hn Hinv Hrun. unfold handle_create_trade_escrow in Hrun. inv_escrow.
  match goal with Hc : create_token_account _ _ _ _ = Some _ |- _ => rename Hc into Hcr end.
  match goal with Hn : es_escrows s !! _ = None |- _ => rename Hn into Hnone end.
  match goal with Hv : es_vaults s !! _ = Some _ |- _ => rename Hv into Hvault end.
  pose proof (keeps_create _ _ _ _ _ Hcr ltac:(done)) as Hkeep.
  pose proof Hinv as [Hf Hv He Hp Hc Hfr Hcl Hpo Hb].
  unfold put_ledger, put_escrow. split; simpl; try done.
  - intros j w Hw. destruct (Hv _ _ Hw) as (? & ? & ?). eauto with openfiat.
  - intros j w. rewrite lookup_insert. case_decide as Hj; intros Hw; simplify_eq.
    + simpl. split; [done|]. split; [done|]. split; [by eexists|].
      by eapply create_vault_account_new.
    + destruct (He _ _ Hw) as (? & ? & ? & ?). eauto with openfiat.
  - intros j w Hw. unfold live_total. rewrite map_sum_insert_None by done.
    rewrite (Hp _ _ Hw). unfold live_total. case_decide; done.
  - intros j d Hd. destruct (Hc _ _ Hd) as [(Hk & Ht & Hwf & e & Hes & Hrest) Hpool].
    split; [|by eapply keeps_fee]. split_and!; try done. exists e. simpl.
    rewrite lookup_insert_ne; [done|]. congruence.
  - intros j w. rewrite lookup_insert. case_decide as Hj; intros Hw; simplify_eq; [done|eauto].
  - by eapply keeps_pool.
  - intros k. rewrite required_escrow. case_decide.
    + pose proof (balance_u64 x3 k). unfold live_amount. simpl. ilia.
    + by eapply backing_create.
Qed.

Lemma fund_trade_escrow_inv merchant te mint s s' :
  escrow_inv s → handle_fund_trade_escrow merchant te mint s = Ok s' → escrow_inv s'.
Proof.
  intros Hinv Hrun. unfold handle_fund_trade_escrow in Hrun. inv_escrow.
  match goal with Ht : transfer_checked _ _ _ _ _ _ _ = Some _ |- _ => rename Ht into Htr end.
  match goal with Hv : es_vaults s !! _ = Some _ |- _ => rename Hv into Hvault end.
  match goal with He : es_escrows s !! _ = Some ?x |- _ => rename He into Hesc; set (e := x) in * end.
  match goal with Hs : te_state e = Reserved |- _ => rename Hs into Hst end.
  destruct (ei_vault _ Hinv _ _ Hvault) as (_ & Hwf & _).
  destruct (ei_escrow _ Hinv _ _ Hesc) as (Hk & Hamt & _).
  pose proof (transfer_nonneg _ _ _ _ _ _ _ _ Htr).
  change (liquidity_vault_key (te_seller e) (te_mint e)) with (vault_of e) in *.
  eapply (inv_vault_escrow s); try done; simpl; auto.
  - destruct Hwf. split; simpl; ilia.
  - rewrite live_amount_live by live_state. rewrite live_amount_idle by live_state. simpl. lia.
  - by eapply keeps_transfer.
  - intros k. rewrite Hk, required_escrow. unfold vault_of. rewrite required_vault.
    rewrite (transfer_balance_eq _ _ _ _ _ _ _ _ _ Htr).
    pose proof (ei_backing _ Hinv k). pose proof (backing_vault _ _ _ _ Hinv Hvault).
    pose proof (balance_u64 (es_ledger s) k).
    rewrite live_amount_live by live_state. simpl.
    repeat case_decide; subst; try done; ilia.
Qed.

(** An escrow field that moves no tokens. *)
Lemma approve_settlement_inv merchant te s s' :
  escrow_inv s → handle_approve_settlement merchant te s = Ok s' → escrow_inv s'.
Proof.
  intros Hinv Hrun. unfold handle_approve_settlement in Hrun. inv_escrow.
  match goal with He : es_escrows s !! _ = Some ?x |- _ => rename He into Hesc; set (e := x) in * end.
  match goal with Hs : te_state e = _ |- _ => rename Hs into Hst end.
  destruct (ei_escrow _ Hinv _ _ Hesc) as (Hk & _ & [v Hv] & _).
  pose proof (inv_vault_escrow s _ e (e <| te_approved := true |>) v v (es_ledger s) (es_events s)
    Hinv Hesc Hv) as Hpres.
  unfold put_escrow. simpl. rewrite (insert_id (es_vaults s) (vault_of e) v Hv) in Hpres.
  apply Hpres; try done; simpl; auto.
  - by rewrite Hst.
  - by eapply ei_vault.
  - rewrite !live_amount_live by live_state. simpl. lia.
  - intros k. rewrite Hk, required_escrow. case_decide as Hkk; [|apply (ei_backing _ Hinv)].
    subst k. rewrite Hk in Hesc. apply backing_escrow in Hesc; [|done].
    rewrite live_amount_live in * by live_state. done.
Qed.

(** ** Paying an escrow out

    Every way out of a funded escrow empties the pending marking, moves tokens
    only out of the escrow's own account, and adds to the vault's free
    counters no more than the vault's account receives. *)
Record settles (mint : pubkey) e v l v' l' : Prop := {
  st_keeps : keeps l l';
  st_merchant : lv_merchant v' = lv_merchant v;
  st_mint : lv_mint v' = lv_mint v;
  st_pending : lv_pending_settlement v' = lv_pending_settlement v - te_amount e;
  st_wf : vault_wf v → vault_wf v';
  st_mono : ∀ k, k ≠ trade_escrow_tokens_key (te_reservation_id e) → balance l k ≤ balance l' k;
  st_vault : lv_available v' + lv_reserved v' - (lv_available v + lv_reserved v)
    ≤ balance l' (liquidity_tokens_key (te_seller e) mint)
      - balance l (liquidity_tokens_key (te_seller e) mint);
}.

Lemma unwind_settles mint e v l v' l' :
  unwind_funded_trade_escrow e v l mint = Ok (v', l') → settles mint e v l v' l'.
Proof.
  unfold unwind_funded_trade_escrow. intros Hrun. inv_run.
  match goal with Ht : transfer_checked _ _ _ _ _ _ _ = Some _ |- _ => rename Ht into Htr end.
  pose proof (transfer_nonneg _ _ _ _ _ _ _ _ Htr). split; simpl; try done.
  - by eapply keeps_transfer.
  - intros []. split; simpl in *; ilia.
  - by eapply transfer_balance_mono.
  - rewrite (transfer_balance_eq _ _ _ _ _ _ _ _ _ Htr), decide_True, decide_False by done. lia.
Qed.

Lemma split_settles mint b e v l e' v' l' :
  u64 (te_amount e) → split_trade_escrow_evenly e v l mint b = Ok (e', v', l') →
  e' = e <| te_state := Released |> ∧ settles mint e v l v' l'.
Proof.
  unfold split_trade_escrow_evenly. intros Hamt Hrun. inv_run. split; [done|].
  match goal with Hp : pay_all _ _ _ _ _ = Ok _ |- _ => rename Hp into Hpay end.
  pose proof (λ k, pay_all_nonneg _ _ _ _ _ _ k Hpay) as Hge.
  apply pay_all_spec in Hpay as [Hkeep Hbal].
  assert (0 ≤ te_amount e / 2 ≤ te_amount e) 
    by (split; [apply Z.div_pos|apply Z.div_le_upper_bound]; ilia).
  split; simpl; try done.
  - intros []. split; simpl in *; ilia.
  - intros k Hk. rewrite Hbal, decide_False by done. specialize (Hge k). lia.
  - rewrite Hbal, decide_False by done. unfold paid_to. simpl. repeat case_decide; done || lia.
Qed.

Lemma release_settles mint b f t e v l e' v' l' shares :
  fee_config_wf f → u64 (te_amount e) →
  release_trade_escrow_funds e v l f t mint b = Ok (e', v', l', shares) →
  e' = e <| te_state := Released |> ∧ settles mint e v l v' l'.
Proof.
  unfold release_trade_escrow_funds. intros Hwf Hamt Hrun. inv_run.
  match goal with x : Z * list Z |- _ => destruct x as [ba fs] end. cbn beta iota in *. inv_run.
  split; [done|].
  match goal with Hp : pay_all _ _ _ _ _ = Ok _ |- _ => rename Hp into Hpay end.
  pose proof (λ k, pay_all_nonneg _ _ _ _ _ _ k Hpay) as Hge.
  apply pay_all_spec in Hpay as [Hkeep Hbal].
  split; simpl; try done.
  - intros []. split; simpl in *; ilia.
  - intros k Hk. rewrite Hbal, decide_False by done. specialize (Hge k). lia.
  - rewrite Hbal, decide_False by done.
    specialize (Hge (liquidity_tokens_key (te_seller e) mint)). lia.
Qed.

Lemma release_funds_dests e v l f t mint b e' v' l' shares :
  fee_config_wf f → u64 (te_amount e) →
  (t_dev t = fc_dev_treasury f ∧ t_ecosystem t = fc_ecosystem_treasury f ∧
   t_infra t = fc_infra_treasury f ∧ t_emergency t = fc_emergency_reserve f) →
  release_trade_escrow_funds e v l f t mint b = Ok (e', v', l', shares) →
  e' = e <| te_state := Released |> ∧
  v' = v <| lv_pending_settlement := lv_pending_settlement v - te_amount e |>
         <| lv_settled := lv_settled v + te_amount e |> ∧
  ∀ k, balance l' k = balance l k + paid_to k (release_dests f b (te_amount e))
    - (if decide (k = trade_escrow_tokens_key (te_reservation_id e)) then te_amount e else 0).
Proof.
  intros Hf Hamt (Hd & He & Hi & Hm) Hrun. unfold release_trade_escrow_funds in Hrun.
  destruct (compute_fee_split_total f (te_amount e) Hf Hamt) as (sh & Hsplit & Hfour & Hfee & Hlen & Hsum & _).
  rewrite Hsplit in Hrun. cbn [mbind result_bind] in Hrun. inv_run.
  split; [done|]. split; [done|]. intros k.
  match goal with Hp : pay_all _ _ _ _ _ = Ok _ |- _ => apply pay_all_spec in Hp as [_ ->] end.
  destruct (split_fee_four_ways_total f (floor_share (te_amount e) (fc_settlement_fee_bps f)) Hf
    ltac:(ilia)) as (Hfour' & _). rewrite Hfour in Hfour'. injection Hfour' as ->.
  unfold release_dests. rewrite <-Hd, <-He, <-Hi, <-Hm. cbn [zip zip_with fmap list_fmap snd].
  f_equal. case_decide; [|done]. unfold sum_list. simpl. lia.
Qed.


Lemma unwind_dests e v l v' l' f b o :
  o = MerchantWins ∨ o = InvalidDispute →
  unwind_funded_trade_escrow e v l (te_mint e) = Ok (v', l') →
  ∀ k, balance l' k = balance l k + paid_to k (verdict_dests f e b (Some o))
    - (if decide (k = trade_escrow_tokens_key (te_reservation_id e)) then te_amount e else 0).
Proof.
  intros Ho Hrun k. unfold unwind_funded_trade_escrow in Hrun. inv_run.
  match goal with Ht : transfer_checked _ _ _ _ _ _ _ = Some _ |- _ =>
    rewrite (transfer_balance_eq _ _ _ _ _ _ _ _ _ Ht) end.
  destruct Ho as [-> | ->]; unfold verdict_dests, paid_to; simpl; lia.
Qed.

Lemma split_dests e v l e' v' l' f b o :
  o = Some MutualSettlement ∨ o = None →
  split_trade_escrow_evenly e v l (te_mint e) b = Ok (e', v', l') →
  ∀ k, balance l' k = balance l k + paid_to k (verdict_dests f e b o)
    - (if decide (k = trade_escrow_tokens_key (te_reservation_id e)) then te_amount e else 0).
Proof.
  intros Ho Hrun k. unfold split_trade_escrow_evenly in Hrun. inv_run.
  match goal with Hp : pay_all _ _ _ _ _ = Ok _ |- _ => apply pay_all_spec in Hp as [_ ->] end.
  destruct Ho as [-> | ->]; unfold verdict_dests, paid_to, sum_list; simpl; repeat case_decide; lia.
Qed.

Lemma backing_settle s e e' v v' l' :
  escrow_inv s → es_escrows s !! trade_escrow_key (te_reservation_id e) = Some e →
  es_vaults s !! vault_of e = Some v →
  settles (te_mint e) e v (es_ledger s) v' l' → ¬ live e' →
  ∀ k, required (<[vault_of e := v']> (es_vaults s))
    (<[trade_escrow_key (te_reservation_id e) := e']> (es_escrows s)) (es_cases s) k ≤ balance l' k.
Proof.
  intros Hinv He Hv Hs Hidle k. rewrite required_escrow, live_amount_idle by done.
  unfold vault_of in *. rewrite required_vault.
  pose proof (balance_u64 l' k). case_decide as Hk; [ilia|].
  pose proof (st_vault _ _ _ _ _ _ Hs). pose proof (st_mono _ _ _ _ _ _ Hs k Hk).
  pose proof (ei_backing _ Hinv k). pose proof (backing_vault _ _ _ _ Hinv Hv).
  case_decide; subst; lia.
Qed.

Lemma inv_settle s e e' v v' l' ev :
  escrow_inv s → es_escrows s !! trade_escrow_key (te_reservation_id e) = Some e →
  es_vaults s !! vault_of e = Some v → te_state e = AwaitingFiatSettlement →
  settles (te_mint e) e v (es_ledger s) v' l' → same_trade e e' →
  te_state e' = Released ∨ te_state e' = Cancelled →
  escrow_inv (mkEscrowState (es_fee s) (es_policy s) (<[vault_of e := v']> (es_vaults s))
    (<[trade_escrow_key (te_reservation_id e) := e']> (es_escrows s)) (es_cases s) (es_claims s)
    l' ev).
Proof.
  intros Hinv He Hv Hst Hs Hsame Hdone.
  assert (¬ live e') by live_state.
  eapply inv_vault_escrow; try done; try apply Hs; auto.
  - destruct Hdone as [-> | ->]; done.
  - by eapply ei_vault.
  - rewrite (st_pending _ _ _ _ _ _ Hs), (live_amount_live e), (live_amount_idle e') by live_state. lia.
  - by eapply backing_settle.
Qed.

Lemma release_escrow_inv c te mint b t s s' :
  escrow_inv s → handle_release_escrow c te mint b t s = Ok s' → escrow_inv s'.
Proof.
  intros Hinv Hrun. unfold handle_release_escrow in Hrun. inv_escrow.
  match goal with He : es_escrows s !! _ = Some ?x |- _ => rename He into Hesc; set (e := x) in * end.
  match goal with Hs : te_state e = _ |- _ => rename Hs into Hst end.
  match goal with Hv : es_fee s = Some _ |- _ => apply (ei_fee _ Hinv) in Hv as Hfwf end.
  match goal with Hr : release_trade_escrow_funds _ _ _ _ _ _ _ = _ |- _ =>
    apply release_settles in Hr as [-> Hset]; [|done|by eapply ei_escrow] end.
  match goal with Hm : te_mint e = _ |- _ => rewrite <-Hm in * end.
  unfold emit_event, put_ledger, put_escrow, put_vault. simpl.
  change (liquidity_vault_key (te_seller e) (te_mint e)) with (vault_of e) in *.
  eapply inv_settle; try done. by left.
Qed.

(** Cancelling and expiring share their body. *)
Lemma unwind_reservation_inv te mint e v s s' :
  escrow_inv s → load_reservation s te mint = Ok (e, v) →
  unwind_reservation s te mint e v = Ok s' → escrow_inv s'.
Proof.
  intros Hinv Hload Hrun. unfold load_reservation in Hload. inv_escrow.
  unfold unwind_reservation in Hrun. apply bind_Ok in Hrun as ([v' l'] & Hbody & Hrun). inv_ok.
  match goal with He : es_escrows s !! _ = Some _ |- _ => rename He into Hesc end.
  match goal with Hs : te_state e = _ ∨ _ |- _ => rename Hs into Hst end.
  match goal with Hv : es_vaults s !! _ = Some _ |- _ => rename Hv into Hvault end.
  destruct (ei_escrow _ Hinv _ _ Hesc) as (_ & Hamt & _).
  match goal with Hm : te_mint e = _ |- _ => rewrite <-Hm in * end.
  destruct (ei_vault _ Hinv _ _ Hvault) as (_ & Hwf & _).
  unfold put_ledger, put_escrow, put_vault. simpl.
  change (liquidity_vault_key (te_seller e) (te_mint e)) with (vault_of e) in *.
  destruct (decide (te_state e = AwaitingFiatSettlement)) as [Haw|Hres].
  - apply unwind_settles in Hbody. eapply inv_settle; try done. by right.
  - unfold release_reservation_marking in Hbody. inv_run.
    eapply (inv_vault_escrow s); try done; simpl.
    + destruct Hwf. split; simpl; ilia.
    + rewrite !live_amount_idle by live_state. lia.
    + intros k. rewrite required_escrow, live_amount_idle by live_state.
      unfold vault_of in *. rewrite required_vault. simpl.
      pose proof (balance_u64 (es_ledger s) k).
      pose proof (ei_backing _ Hinv k). pose proof (backing_vault _ _ _ _ Hinv Hvault).
      repeat case_decide; subst; ilia.
Qed.
End trade_inv.
