(* ===== verification/DisputeInv.v ===== *)
(** * DisputeInv: the dispute instructions preserve the invariant *)

From S2P Require Import Prelude Runtime Shared StakingState EscrowState Fees Trade.
From S2P Require Import Dispute Escrow CaseInv EscrowInv TradeInv.
Import EscrowError.

Section dispute_inv.
Context {L : Type} `{TokenLedger L} `{Hashing}.
Abbreviation state := (escrow_state L).
Implicit Types (s : state) (l : L) (v : LiquidityVault) (e : TradeEscrowVault)
  (d : DisputeCase) (c : chain).

(** Two records of the same case. *)
Definition same_case d d' : Prop :=
  dc_reservation_id d' = dc_reservation_id d ∧ dc_trade_escrow d' = dc_trade_escrow d ∧
  dc_deposit_vault d' = dc_deposit_vault d ∧ dc_deposit_mint d' = dc_deposit_mint d.

(** Changing one case without resolving it, and the ledger. *)
Lemma inv_case s dk d d' l' ev :
  escrow_inv s → es_cases s !! dk = Some d → same_case d d' →
  dc_resolved d' = dc_resolved d → case_wf d' → keeps (es_ledger s) l' →
  (∀ k, required (es_vaults s) (es_escrows s) (<[dk := d']> (es_cases s)) k ≤ balance l' k) →
  escrow_inv (mkEscrowState (es_fee s) (es_policy s) (es_vaults s) (es_escrows s)
    (<[dk := d']> (es_cases s)) (es_claims s) l' ev).
Proof.
  intros Hinv Hd (Hr & Ht & Hv & Hm) Hres Hwf Hkeep Hback.
  split; simpl; try done; try apply Hinv.
  - intros j w Hw. destruct (ei_vault _ Hinv _ _ Hw) as (? & ? & ?). eauto with openfiat.
  - intros j w Hw. destruct (ei_escrow _ Hinv _ _ Hw) as (? & ? & ? & ?). eauto with openfiat.
  - intros j w. rewrite lookup_insert. case_decide as Hj; intros Hw.
    + injection Hw as <-. subst j. destruct (ei_case _ Hinv _ _ Hd) as [(Hk & Hte & _ & e & Hrest) Hp].
      unfold case_ok. simpl. rewrite Hr, Ht, Hv, Hm, Hres. eauto 10 with openfiat.
    + destruct (ei_case _ Hinv _ _ Hw) as [Hok Hp]. split; [|by eapply keeps_fee]. by destruct Hok.
  - intros j e He Hst. destruct (ei_frozen _ Hinv _ _ He Hst) as (d0 & Hd0 & Hr0).
    rewrite lookup_insert. case_decide; subst; simplify_eq; [|eauto].
    exists d'. split; [done|congruence].
  - eapply keeps_pool; [apply (ei_pool _ Hinv)|done].
Qed.

(** Freezing an escrow under a new case. *)
Lemma inv_freeze s e d ev :
  escrow_inv s → es_escrows s !! trade_escrow_key (te_reservation_id e) = Some e →
  te_state e = AwaitingFiatSettlement → case_wf d → dc_resolved d = false →
  dc_reservation_id d = te_reservation_id e →
  dc_trade_escrow d = trade_escrow_key (te_reservation_id e) →
  dc_deposit_vault d = liquidity_vault_key (te_seller e) (dc_deposit_mint d) →
  is_Some (es_vaults s !! dc_deposit_vault d) →
  vault_account (es_ledger s) arbitration_pool_key (dc_deposit_mint d) fee_config_key →
  let te := trade_escrow_key (te_reservation_id e) in
  let dk := dispute_case_key (te_reservation_id e) in
  (∀ k, required (es_vaults s) (<[te := e <| te_state := Frozen |>]> (es_escrows s))
    (<[dk := d]> (es_cases s)) k ≤ balance (es_ledger s) k) →
  escrow_inv (mkEscrowState (es_fee s) (es_policy s) (es_vaults s)
    (<[te := e <| te_state := Frozen |>]> (es_escrows s)) (<[dk := d]> (es_cases s))
    (es_claims s) (es_ledger s) ev).
Proof.
  intros Hinv He Hst Hwf Hres Hr Ht Hdv Hvs Hpool te dk Hback.
  pose proof (undisputed _ _ _ Hinv He (or_intror Hst)) as Hnone.
  destruct (ei_escrow _ Hinv _ _ He) as (_ & Hamt & Hsome & Htok).
  split; simpl; try done; try apply Hinv.
  - intros j f. rewrite lookup_insert. case_decide as Hj; intros Hf; simplify_eq.
    + done.
    + by apply (ei_escrow _ Hinv).
  - intros j w Hw. rewrite (live_total_update s te e) by done. rewrite (ei_pending _ Hinv _ _ Hw).
    rewrite !live_amount_live by live_state. simpl. case_decide; lia.
  - intros j w. rewrite lookup_insert. case_decide as Hj; intros Hw; simplify_eq.
    + split; [|done]. unfold case_ok. simpl. rewrite Hr. split_and!; try done.
      exists (e <| te_state := Frozen |>). rewrite lookup_insert_eq.
      split_and!; try done; by rewrite Hres.
    + destruct (ei_case _ Hinv _ _ Hw) as [Hok Hp]. split; [|done].
      eapply (case_ok_frame s _ j w te e (e <| te_state := Frozen |>)); simpl; try done. intros Heq. exfalso.
      destruct Hok as (Hk & _). injection Heq as Heq. apply Hj. by rewrite Hk, <-Heq.
  - intros j f. rewrite lookup_insert. case_decide as Hj; intros Hf Hfz.
    + injection Hf as <-. simpl. rewrite lookup_insert_eq. eauto.
    + destruct (ei_frozen _ Hinv _ _ Hf Hfz) as (d0 & Hd0 & Hr0). exists d0.
      rewrite lookup_insert_ne; [done|]. intros Heq. injection Heq as Heq.
      destruct (ei_escrow _ Hinv _ _ Hf) as (Hk & _). by rewrite <-Heq in Hk.
Qed.

(** ** The deposit *)

(** Moving [n] from a vault into the pool. *)
Record took (m mint : pubkey) (n : Z) v l v' l' : Prop := {
  tk_keeps : keeps l l';
  tk_merchant : lv_merchant v' = lv_merchant v;
  tk_mint : lv_mint v' = lv_mint v;
  tk_available : lv_available v' = lv_available v - n;
  tk_reserved : lv_reserved v' = lv_reserved v;
  tk_settled : lv_settled v' = lv_settled v;
  tk_pending : lv_pending_settlement v' = lv_pending_settlement v;
  tk_total : lv_total v' = lv_total v - n;
  tk_balance : ∀ k, balance l' k = balance l k
    + (if decide (k = arbitration_pool_key) then n else 0)
    - (if decide (k = liquidity_tokens_key m mint) then n else 0);
}.

Lemma take_deposit_took l v m mint n v' l' :
  take_deposit l v m mint n = Ok (v', l') → took m mint n v l v' l'.
Proof.
  unfold take_deposit. intros Hrun. inv_run. split; simpl; try done.
  - by eapply keeps_transfer.
  - intros k. by eapply transfer_balance_eq.
Qed.

Lemma took_zero m mint v l : took m mint 0 v l v l.
Proof. split; try lia; eauto with openfiat. intros k. repeat case_decide; lia. Qed.

Lemma took_wf m mint n v l v' l' :
  took m mint n v l v' l' → 0 ≤ n ≤ lv_available v → vault_wf v → vault_wf v'.
Proof. intros [] Hn []. split; lia. Qed.

(** The vault and pool changes, before the case is written. *)
Lemma inv_took s m mint n v v' claims' l' ev :
  escrow_inv s → es_vaults s !! liquidity_vault_key m mint = Some v →
  took m mint n v (es_ledger s) v' l' → 0 ≤ n ≤ lv_available v →
  (∀ k r, claims' !! k = Some r → k = recovery_claim_key (rc_merchant r) (rc_mint r) ∧
    u64 (rc_owed_total r) ∧ u64 (rc_credited_total r)) →
  escrow_inv (mkEscrowState (es_fee s) (es_policy s)
    (<[liquidity_vault_key m mint := v']> (es_vaults s)) (es_escrows s) (es_cases s) claims' l' ev).
Proof.
  intros Hinv Hv Htk Hn Hcl. destruct (ei_vault _ Hinv _ _ Hv) as (_ & Hwf & _).
  eapply inv_vault; try done; try apply Htk.
  - by eapply took_wf.
  - eapply backing_vault_change; try done; [|intros k Hk]; rewrite (tk_balance _ _ _ _ _ _ _ Htk);
      rewrite ?(tk_available _ _ _ _ _ _ _ Htk), ?(tk_reserved _ _ _ _ _ _ _ Htk);
      repeat case_decide; done || lia.
Qed.

(** The pool holds the deposit taken. *)
Lemma backing_took s m mint n v v' l' k :
  escrow_inv s → es_vaults s !! liquidity_vault_key m mint = Some v →
  took m mint n v (es_ledger s) v' l' → 0 ≤ n →
  required (<[liquidity_vault_key m mint := v']> (es_vaults s)) (es_escrows s) (es_cases s) k
    + (if decide (k = arbitration_pool_key) then n else 0) ≤ balance l' k.
Proof.
  intros Hinv Hv Htk Hn. rewrite required_vault, (tk_balance _ _ _ _ _ _ _ Htk).
  rewrite (tk_available _ _ _ _ _ _ _ Htk), (tk_reserved _ _ _ _ _ _ _ Htk).
  pose proof (ei_backing _ Hinv k). pose proof (backing_vault _ _ _ _ Hinv Hv).
  repeat case_decide; subst; done || lia.
Qed.

Lemma record_shortfall_claims s m mint shortfall r :
  escrow_inv s → 0 ≤ shortfall →
  record_shortfall (es_claims s !! recovery_claim_key m mint) m mint shortfall = Ok r →
  ∀ k r', <[recovery_claim_key m mint := r]> (es_claims s) !! k = Some r' →
    k = recovery_claim_key (rc_merchant r') (rc_mint r') ∧
    u64 (rc_owed_total r') ∧ u64 (rc_credited_total r').
Proof.
  intros Hinv Hs Hrun k r'. rewrite lookup_insert. case_decide as Hk; intros Hr'; [|by apply (ei_claim _ Hinv)].
  injection Hr' as <-. subst k.
  assert (u64 (rc_owed_total (default (mkClaim default_pubkey default_pubkey 0 0 0)
            (es_claims s !! recovery_claim_key m mint))) ∧
          u64 (rc_credited_total (default (mkClaim default_pubkey default_pubkey 0 0 0)
            (es_claims s !! recovery_claim_key m mint)))) as [Ho Hc].
  { destruct (es_claims s !! _) eqn:Hcl; simpl; [by apply (ei_claim _ Hinv) in Hcl as (_ & ? & ?)|].
    split; ilia. }
  unfold record_shortfall in Hrun. case_decide; inv_run; simpl; done.
Qed.

Definition new_case (rid : Z) (te : pubkey) (t0 cd rd cw rw : Z) (seed : list Z) (dv dm : pubkey)
    (deposit shortfall : Z) : DisputeCase :=
  mkCase rid te t0 cd rd false 0 cw rw seed t0 [] [] [] [] [] [] dv dm deposit shortfall
    None 0 0 0 false 0 None.

Lemma new_case_wf rid te t0 cw rw seed dv dm deposit shortfall :
  60 ≤ cw ≤ 604800 → 60 ≤ rw ≤ 604800 → u64 deposit → u64 shortfall →
  case_wf (new_case rid te t0 (t0 + cw) (t0 + cw + rw) cw rw seed dv dm deposit shortfall).
Proof.
  intros. split; [by apply bench_wf_empty| |]; split; simpl; try done; try lia.
  - constructor.
  - by intros _ a ?%not_elem_of_nil.
Qed.

(** What a successful [open_dispute_case] has checked and what it does. *)
Lemma open_dispute_case_Ok c signer te dm cw rw s s' :
  handle_open_dispute_case c signer te dm cw rw s = Ok s' →
  ∃ e f v pool v' l' r seed ev,
    let deposit := Z.min (fc_dispute_filing_fee f) (lv_available v) in
    let shortfall := fc_dispute_filing_fee f - deposit in
    te = trade_escrow_key (te_reservation_id e) ∧ es_escrows s !! te = Some e ∧
    (signer = te_buyer e ∨ signer = te_seller e) ∧ te_state e = AwaitingFiatSettlement ∧
    es_fee s = Some f ∧ es_vaults s !! liquidity_vault_key (te_seller e) dm = Some v ∧
    account_of (es_ledger s) arbitration_pool_key = Some pool ∧ ta_mint pool = dm ∧
    60 ≤ cw ≤ 604800 ∧ 60 ≤ rw ≤ 604800 ∧ u64 shortfall ∧
    (if decide (0 < deposit) then take_deposit (es_ledger s) v (te_seller e) dm deposit
     else Ok (v, es_ledger s)) = Ok (v', l') ∧
    record_shortfall (es_claims s !! recovery_claim_key (te_seller e) dm) (te_seller e) dm shortfall
      = Ok r ∧
    s' = mkEscrowState (es_fee s) (es_policy s)
      (<[liquidity_vault_key (te_seller e) dm := v']> (es_vaults s))
      (<[te := e <| te_state := Frozen |>]> (es_escrows s))
      (<[dispute_case_key (te_reservation_id e) :=
         new_case (te_reservation_id e) te (now c) (now c + cw) (now c + cw + rw) cw rw seed
           (liquidity_vault_key (te_seller e) dm) dm deposit shortfall]> (es_cases s))
      (<[recovery_claim_key (te_seller e) dm := r]> (es_claims s)) l' ev.
Proof.
  intros Hrun. unfold handle_open_dispute_case in Hrun. inv_escrow.
  match goal with |- context [if decide (0 < ?a - ?b) then _ else _] =>
    destruct (decide (0 < a - b)) end.
  all: do 9 eexists; cbn zeta; split_and!; done || (unfold MIN_DISPUTE_WINDOW_SECS,
    MAX_DISPUTE_WINDOW_SECS in *; lia).
Qed.

Lemma deposit_took s v m mint n v' l' :
  0 ≤ n → (if decide (0 < n) then take_deposit (es_ledger s) v m mint n
           else Ok (v, es_ledger s)) = Ok (v', l') →
  took m mint n v (es_ledger s) v' l'.
Proof.
  intros Hn. case_decide; [apply take_deposit_took|]. intros Hrun. inv_run.
  replace n with 0 by lia. apply took_zero.
Qed.

Lemma open_dispute_case_inv c signer te dm cw rw s s' :
  escrow_inv s → handle_open_dispute_case c signer te dm cw rw s = Ok s' → escrow_inv s'.
Proof.
  intros Hinv Hrun. apply open_dispute_case_Ok in Hrun as (e & f & v & pool & v' & l' & r & seed & ev &
    -> & He & _ & Hst & Hf & Hv & Hpool & Hmint & Hcw & Hrw & Hsf & Htake & Hrec & ->).
  destruct (ei_vault _ Hinv _ _ Hv) as (_ & Hwf & _). pose proof (vw_available _ Hwf).
  pose proof (vw_max _ Hwf). pose proof (fw_filing_fee _ (ei_fee _ Hinv _ Hf)).
  apply (ei_pool _ Hinv) in Hpool. rewrite Hmint in Hpool.
  set (dep := Z.min (fc_dispute_filing_fee f) (lv_available v)) in *.
  assert (0 ≤ dep ≤ lv_available v ∧ u64 dep) as [Hdep Hdu] by (unfold dep; split; ilia).
  apply deposit_took in Htake as Htk; [|lia].
  pose proof (inv_took _ _ _ _ _ _ _ _ ev Hinv Hv Htk Hdep
    (record_shortfall_claims _ _ _ _ _ Hinv (proj1 Hsf) Hrec)) as Hinv1.
  refine (inv_freeze _ e _ ev Hinv1 He Hst _ _ _ _ _ _ _ _); simpl; try done.
  - by apply new_case_wf.
  - rewrite lookup_insert_eq. eauto.
  - eapply keeps_fee; [apply Htk|done].
  - intros k. rewrite required_new_case by (eapply undisputed; eauto).
    rewrite required_escrow, live_amount_live by live_state. simpl.
    unfold obligation. simpl.
    destruct (decide (k = trade_escrow_tokens_key (te_reservation_id e))) as [->|Hk].
    + apply backing_escrow in He; [|done]. rewrite live_amount_live in He by live_state.
      rewrite (tk_balance _ _ _ _ _ _ _ Htk). repeat case_decide; done || lia.
    + eapply backing_took; done || lia.
Qed.

(** ** Voting *)

(** Resolved cases are past their reveal deadline. *)
Definition settled_before (t : Z) s : Prop :=
  ∀ k d, es_cases s !! k = Some d → dc_resolved d = true → dc_reveal_deadline d ≤ t.

Lemma inv_case_wf s dk d : escrow_inv s → es_cases s !! dk = Some d → case_wf d.
Proof. intros Hinv Hd. by destruct (ei_case _ Hinv _ _ Hd) as [(_ & _ & ? & _) _]. Qed.

Lemma same_obligation s dk d d' :
  escrow_inv s → es_cases s !! dk = Some d → obligation d' = obligation d →
  ∀ k, required (es_vaults s) (es_escrows s) (<[dk := d']> (es_cases s)) k ≤ balance (es_ledger s) k.
Proof.
  intros Hinv Hd Ho k. rewrite (required_case _ _ _ _ d) by done. pose proof (ei_backing _ Hinv k).
  case_decide; lia.
Qed.

Lemma money_wf_open d d' :
  money_wf d → dc_resolved d = false → dc_resolved d' = false → dc_outcome d' = dc_outcome d →
  dc_reward_pool d' = dc_reward_pool d → dc_reward_remaining d' = dc_reward_remaining d →
  dc_deposit_settled d' = dc_deposit_settled d → dc_terminal_reason d' = dc_terminal_reason d →
  u64 (dc_deposit d') → u64 (dc_deposit_shortfall d') → money_wf d'.
Proof.
  intros [_ Hopen _ _] Hr Hr' Ho Hp Hrem Hs Ht Hd Hsf. destruct (Hopen Hr) as (Ho0 & ?).
  split; rewrite ?Ho, ?Hp, ?Hrem, ?Hs, ?Ht, ?Hr'; try done. intros o. by rewrite Ho0.
Qed.

Lemma commit_dispute_vote_inv c sv arb dk cm s s' :
  escrow_inv s → settled_before (now c) s →
  handle_commit_dispute_vote c sv arb dk cm s = Ok s' → escrow_inv s'.
Proof.
  intros Hinv Hclock Hrun. unfold handle_commit_dispute_vote in Hrun. inv_escrow.
  match goal with Hd : es_cases s !! _ = Some ?x |- _ => rename Hd into Hcase; set (d := x) in * end.
  pose proof (inv_case_wf _ _ _ Hinv Hcase) as [Hb Hr Hm].
  destruct (rw_deadlines _ Hr) as [_ Hdl]. destruct (rw_windows _ Hr).
  assert (dc_resolved d = false) as Hopen.
  { destruct (dc_resolved d) eqn:Hres; [|done]. specialize (Hclock _ _ Hcase Hres). lia. }
  unfold put_case. simpl. eapply inv_case; try done; simpl.
  - split; simpl.
    + by destruct (bench_wf_commit _ arb cm Hb); try split.
    + destruct Hr as [? ? ? Hex ? ?]. split; simpl; try done.
      intros _ a [?| ->%list_elem_of_singleton]%elem_of_app; auto.
    + eapply money_wf_open; try done; apply Hm.
  - by eapply same_obligation.
Qed.

Lemma reveal_dispute_vote_inv c sv arb dk o salt s s' :
  view_typed sv → escrow_inv s → settled_before (now c) s →
  handle_reveal_dispute_vote c sv arb dk o salt s = Ok s' → escrow_inv s'.
Proof.
  intros Hview Hinv Hclock Hrun. unfold handle_reveal_dispute_vote, load_arbitrator_stake in Hrun.
  inv_escrow.
  match goal with Hd : es_cases s !! _ = Some ?x |- _ => rename Hd into Hcase; set (d := x) in * end.
  match goal with Ha : sv_accounts _ !! _ = Some ?x |- _ => apply Hview in Ha as Hstake; set (a := x) in * end.
  pose proof (inv_case_wf _ _ _ Hinv Hcase) as [Hb Hr Hm].
  assert (dc_resolved d = false) as Hopen.
  { destruct (dc_resolved d) eqn:Hres; [|done]. specialize (Hclock _ _ Hcase Hres). lia. }
  unfold put_case. simpl. eapply inv_case; try done; simpl.
  - split; simpl.
    + apply bench_wf_reveal; [done|].
      match goal with cfg : StakingConfig |- _ => pose proof (effective_stake_le a cfg) end.
      unfold_ints. lia.
    + by destruct Hr; split.
    + eapply money_wf_open; try done; apply Hm.
  - by eapply same_obligation.
Qed.

(** ** Rewards, top-up and recovery *)

Lemma reward_amount_pos_seat d o i a :
  seat_of d a = Some i → mjoin (dc_revealed_outcomes d !! i) = Some o →
  default true (dc_reward_claimed d !! i) = false → 0 < default 0 (dc_weights d !! i) →
  unpaid_winner d o i.
Proof.
  intros _ Ho Hc Hw. split_and!; try done. destruct (dc_reward_claimed d !! i); simpl in Hc; congruence.
Qed.

Lemma claim_arbitration_reward_inv c arb dk to mint s s' :
  escrow_inv s → handle_claim_arbitration_reward c arb dk to mint s = Ok s' → escrow_inv s'.
Proof.
  intros Hinv Hrun. unfold handle_claim_arbitration_reward in Hrun. inv_escrow.
  match goal with Hd : es_cases s !! _ = Some ?x |- _ => rename Hd into Hcase; set (d := x) in * end.
  match goal with Ht : transfer_checked _ _ _ _ _ ?n _ = Some _ |- _ => rename Ht into Htr; set (amt := n) in * end.
  match goal with Ho : dc_outcome d = Some ?x |- _ => rename Ho into Hout; set (o := x) in * end.
  match goal with Hi : seat_of _ _ = Some ?x |- _ => rename Hi into Hseat; set (i := x) in * end.
  assert (unpaid_winner d o i) as Hwin by (by eapply reward_amount_pos_seat).
  pose proof (inv_case_wf _ _ _ Hinv Hcase) as [Hb Hr Hm].
  destruct (mw_decided _ Hm _ Hout) as (Hres & Hlen & Hww & Hpos & Hrw).
  destruct (decide (o = BuyerWins)); [|lia].
  pose proof (pay_seat_rewards_ok _ _ _ amt (bw_weights _ Hb) Hrw Hwin ltac:(done)) as Hrw'.
  unfold emit_event, put_ledger, put_case. simpl. eapply inv_case; try done; simpl.
  - split; [by destruct Hb; split|by destruct Hr; split|]. destruct Hm as [? ? ? ?].
    split; simpl; try done.
    + intros Hf. congruence.
    + intros o'. intros Ho'. assert (o' = o) as -> by congruence. rewrite length_insert.
      rewrite decide_True by done. split_and!; try done.
    + congruence.
  - by eapply keeps_transfer.
  - intros k. rewrite (required_case _ _ _ _ d) by done. unfold obligation. simpl. rewrite Hres.
    rewrite (transfer_balance_eq _ _ _ _ _ _ _ _ _ Htr).
    pose proof (ei_backing _ Hinv k). pose proof (transfer_nonneg _ _ _ _ _ _ _ _ Htr).
    repeat case_decide; done || lia.
Qed.

Lemma top_up_inv c dk te mint s s' :
  escrow_inv s → handle_top_up_arbitration_deposit c dk te mint s = Ok s' → escrow_inv s'.
Proof.
  intros Hinv Hrun. unfold handle_top_up_arbitration_deposit in Hrun. inv_escrow.
  match goal with Hd : es_cases s !! _ = Some ?x |- _ => rename Hd into Hcase; set (d := x) in * end.
  match goal with Hv : es_vaults s !! liquidity_vault_key (te_seller ?x) _ = Some ?y |- _ =>
    rename Hv into Hvault; set (e := x) in *; set (v := y) in * end.
  match goal with Ht : take_deposit _ _ _ _ ?n = Ok _ |- _ =>
    apply take_deposit_took in Ht as Htk; set (amt := n) in * end.
  destruct (ei_vault _ Hinv _ _ Hvault) as (_ & Hwf & _).
  pose proof (inv_case_wf _ _ _ Hinv Hcase) as [Hb Hr Hm].
  destruct (mw_deposit _ Hm) as [? ?].
  pose proof (inv_took _ _ _ _ _ _ _ _ (es_events s) Hinv Hvault Htk ltac:(lia)
    (ei_claim _ Hinv)) as Hinv1.
  unfold emit_event, put_ledger, put_vault, put_case. simpl.
  refine (inv_case _ _ d _ _ _ Hinv1 Hcase _ _ _ _ _); simpl; try done.
  - split; [by destruct Hb; split|by destruct Hr; split|].
    eapply money_wf_open; try done.
  - intros k. rewrite (required_case _ _ _ _ d) by done. unfold obligation. simpl.
    match goal with Ho : dc_resolved d = false |- _ => rewrite Ho end.
    pose proof (backing_took _ _ _ _ _ _ _ k Hinv Hvault Htk ltac:(lia)).
    repeat case_decide; lia.
Qed.

Lemma absorb_stake_recovery_inv c sv ck mint s s' :
  escrow_inv s → handle_absorb_stake_recovery c sv ck mint s = Ok s' → escrow_inv s'.
Proof.
  intros Hinv Hrun. unfold handle_absorb_stake_recovery in Hrun. inv_escrow.
  match goal with Hc : es_claims s !! _ = Some _ |- _ => rename Hc into Hclaim end.
  match goal with Hv : es_vaults s !! _ = Some ?y |- _ => rename Hv into Hvault; set (v := y) in * end.
  match goal with Ha : account_of _ _ = Some _ |- _ => apply balance_account in Ha as Hbal end.
  destruct (ei_vault _ Hinv _ _ Hvault) as (_ & Hwf & _).
  unfold emit_event, put_claim, put_vault. simpl.
  eapply (inv_vault s); try done; simpl.
  - destruct Hwf. split; simpl; ilia.
  - intros k r. rewrite lookup_insert. case_decide as Hk; intros Hr; [|by apply (ei_claim _ Hinv)].
    injection Hr as <-. subst k. apply (ei_claim _ Hinv) in Hclaim as (? & ? & ?). simpl.
    split_and!; done.
  - intros k. rewrite required_vault. case_decide; [|apply (ei_backing _ Hinv)]. subst k.
    destruct Hwf. simpl. lia.
Qed.
End dispute_inv.
