(* ===== verification/ExecuteInv.v ===== *)
(** * ExecuteInv: executing a dispute's outcome

    Settling the deposit, paying the trade out, reopening or resolving the
    case; that [execute_dispute_outcome] preserves the invariant, and the
    invariant of the whole program. *)

From S2P Require Import Prelude Runtime Shared StakingState EscrowState Fees Trade.
From S2P Require Import Dispute Escrow CaseInv EscrowInv TradeInv DisputeInv.
Import EscrowError.

Section execute.
Context {L : Type} `{TokenLedger L} `{Hashing}.
Abbreviation state := (escrow_state L).
Implicit Types (s : state) (l : L) (v : LiquidityVault) (e : TradeEscrowVault)
  (d : DisputeCase) (c : chain) (x : exec L) (a : exec_accounts).

(** ** What the accounts are when the handler starts *)

Record exec_loaded a s x f : Prop := {
  xl_case : es_cases s !! xa_case a = Some (x_case x);
  xl_case_key : xa_case a = dispute_case_key (dc_reservation_id (x_case x));
  xl_open : dc_resolved (x_case x) = false;
  xl_escrow : es_escrows s !! xa_escrow a = Some (x_escrow x);
  xl_escrow_key : xa_escrow a = trade_escrow_key (te_reservation_id (x_escrow x));
  xl_trade : xa_escrow a = dc_trade_escrow (x_case x);
  xl_mint : te_mint (x_escrow x) = xa_mint a;
  xl_frozen : te_state (x_escrow x) = Frozen;
  xl_vault : es_vaults s !! vault_of (x_escrow x) = Some (x_vault x);
  xl_fee : es_fee s = Some f;
  xl_treasuries : t_dev (xa_treasuries a) = fc_dev_treasury f ∧
    t_ecosystem (xa_treasuries a) = fc_ecosystem_treasury f ∧
    t_infra (xa_treasuries a) = fc_infra_treasury f ∧
    t_emergency (xa_treasuries a) = fc_emergency_reserve f;
  xl_buyer : ∃ b, account_of (es_ledger s) (xa_buyer_account a) = Some b ∧
    ta_owner b = te_buyer (x_escrow x) ∧ ta_mint b = te_mint (x_escrow x);
  xl_deposit_mint : xa_deposit_mint a = dc_deposit_mint (x_case x);
  xl_open_vault : es_vaults s !! xa_open_vault a = Some (x_open x);
  xl_deposit_vault : xa_open_vault a = dc_deposit_vault (x_case x);
  xl_distinct : xa_open_vault a ≠ vault_of (x_escrow x);
  xl_ledger : x_ledger x = es_ledger s;
  xl_events : x_events x = es_events s;
}.

Lemma load_treasuries_Ok l f t err u :
  load_treasuries l f t err = Ok u →
  t_dev t = fc_dev_treasury f ∧ t_ecosystem t = fc_ecosystem_treasury f ∧
  t_infra t = fc_infra_treasury f ∧ t_emergency t = fc_emergency_reserve f.
Proof. unfold load_treasuries. intros Hrun. inv_run. done. Qed.

Lemma load_buyer_account_Ok l e k mint u :
  load_buyer_account l e k mint = Ok u →
  ∃ b, account_of l k = Some b ∧ ta_owner b = te_buyer e ∧ ta_mint b = mint.
Proof. unfold load_buyer_account. intros Hrun. inv_run. eauto. Qed.

Lemma load_exec_Ok a s x f : load_exec a s = Ok (x, f) → exec_loaded a s x f.
Proof.
  unfold load_exec. intros Hrun. inv_escrow.
  match goal with Ht : load_treasuries _ _ _ _ = Ok _ |- _ => apply load_treasuries_Ok in Ht end.
  match goal with Hb : load_buyer_account _ _ _ _ = Ok _ |- _ => apply load_buyer_account_Ok in Hb end.
  split; simpl; try done; unfold vault_of;
    match goal with Hm : te_mint _ = xa_mint _ |- _ => by rewrite Hm end.
Qed.

(** ** The deposit and the payout *)

(** Where the deposit goes: [r] back to the merchant, the rest to the
    winners. *)
Definition refund_of d (outcome : option DisputeOutcome) : Z :=
  if decide (outcome = Some BuyerWins) then 0 else dc_deposit d.

Definition settled_case d (r : Z) : DisputeCase :=
  d <| dc_deposit_settled := if decide (dc_deposit d = 0) then false else true |>
    <| dc_reward_pool := dc_deposit d - r |> <| dc_reward_remaining := dc_deposit d - r |>.

Record refunded (a : exec_accounts) (r : Z) x x' : Prop := {
  rf_keeps : keeps (x_ledger x) (x_ledger x');
  rf_escrow : x_escrow x' = x_escrow x;
  rf_vault : x_vault x' = x_vault x;
  rf_open : x_open x' = x_open x <| lv_available := lv_available (x_open x) + r |>
                                 <| lv_total := lv_total (x_open x) + r |>;
  rf_range : 0 ≤ r ≤ dc_deposit (x_case x) ∧ lv_total (x_open x) + r ≤ U64_MAX;
  rf_balance : ∀ k, balance (x_ledger x') k = balance (x_ledger x) k
    + (if decide (k = liquidity_tokens_key (lv_merchant (x_open x)) (xa_deposit_mint a)) then r else 0)
    - (if decide (k = arbitration_pool_key) then r else 0);
}.

Lemma settle_deposit_spec a outcome x x' fo re :
  money_wf (x_case x) → dc_resolved (x_case x) = false → vault_wf (x_open x) →
  settle_deposit a outcome x = Ok (x', (fo, re)) →
  refunded a (refund_of (x_case x) outcome) x x' ∧
  x_case x' = settled_case (x_case x) (refund_of (x_case x) outcome) ∧
  re = refund_of (x_case x) outcome ∧ fo = dc_deposit (x_case x) - re.
Proof.
  intros Hm Hres Hov Hrun. destruct (mw_open _ Hm Hres) as (_ & Hp & Hrem & Hset & _).
  destruct (mw_deposit _ Hm) as [Hdep _].
  unfold settle_deposit in Hrun. rewrite Hset in Hrun. unfold refund_of.
  destruct (decide (false = true ∨ dc_deposit (x_case x) = 0)) as [[|Hz]|Hnz]; [done| |].
  - inv_ok. assert ((if decide (outcome = Some BuyerWins) then 0 else dc_deposit (x_case x')) = 0)
      as -> by (case_decide; lia).
    split; [|split; [|lia]].
    + split; try done; try lia.
      * destruct x' as [? ? ? [] ? ?]; simpl. by rewrite !Z.add_0_r.
      * destruct Hov; lia.
      * intros k. repeat case_decide; lia.
    + unfold settled_case. rewrite decide_True by done. destruct (x_case x'); simpl in *; by subst.
  - destruct (decide (outcome = Some BuyerWins)) as [->|Ho].
    + inv_ok. split; [|split; [|lia]].
      * split; simpl; try done; try lia.
        -- destruct (x_open x); simpl. by rewrite !Z.add_0_r.
        -- destruct Hov; ilia.
        -- intros k. repeat case_decide; lia.
      * unfold settled_case. rewrite decide_False by tauto. by rewrite Z.sub_0_r.
    + inv_run.
      match goal with Ht : transfer_checked _ _ _ _ _ _ _ = Some _ |- _ => rename Ht into Htr end.
      pose proof (transfer_nonneg _ _ _ _ _ _ _ _ Htr). split; [|split; [|lia]].
      * split; simpl; try done; try (split; ilia); [by eapply keeps_transfer|].
        intros k. by eapply transfer_balance_eq.
      * unfold settled_case. rewrite decide_False by tauto. rewrite Z.sub_diag.
        destruct (x_case x); simpl in *; by subst.
Qed.

(** The trade's funds leave by the verdict, and nothing else changes. *)
Record paid_out a (dests : list (pubkey * Z)) x x' : Prop := {
  po_open : x_open x' = x_open x;
  po_trade : same_trade (x_escrow x) (x_escrow x');
  po_state : te_state (x_escrow x') = Released ∨ te_state (x_escrow x') = Cancelled;
  po_settles : settles (xa_mint a) (x_escrow x) (x_vault x) (x_ledger x) (x_vault x') (x_ledger x');
  po_balance : ∀ k, balance (x_ledger x') k = balance (x_ledger x) k + paid_to k dests
    - (if decide (k = trade_escrow_tokens_key (te_reservation_id (x_escrow x)))
       then te_amount (x_escrow x) else 0);
}.

Lemma exec_split_spec a f o x x' :
  u64 (te_amount (x_escrow x)) → te_mint (x_escrow x) = xa_mint a →
  o = Some MutualSettlement ∨ o = None → exec_split a x = Ok x' →
  paid_out a (verdict_dests f (x_escrow x) (xa_buyer_account a) o) x x' ∧ x_case x' = x_case x ∧
  te_state (x_escrow x') = Released.
Proof.
  intros Hamt Hmint Ho Hrun. unfold exec_split in Hrun. inv_escrow.
  match goal with Hs : split_trade_escrow_evenly _ _ _ _ _ = _ |- _ => rename Hs into Hsplit end.
  apply split_settles in Hsplit as Hset; [|done]. destruct Hset as [-> Hset]. rewrite <-Hmint in Hsplit.
  split; [|done]. split; simpl; auto; [by split_and!|]. by eapply split_dests.
Qed.

(** The state a verdict leaves the escrow in. *)
Definition verdict_state (o : DisputeOutcome) : VaultState :=
  match o with BuyerWins | MutualSettlement => Released | MerchantWins | InvalidDispute => Cancelled end.

Lemma pay_verdict_spec c a f o x x' :
  fee_config_wf f → u64 (te_amount (x_escrow x)) → te_mint (x_escrow x) = xa_mint a →
  (t_dev (xa_treasuries a) = fc_dev_treasury f ∧
   t_ecosystem (xa_treasuries a) = fc_ecosystem_treasury f ∧
   t_infra (xa_treasuries a) = fc_infra_treasury f ∧
   t_emergency (xa_treasuries a) = fc_emergency_reserve f) →
  pay_verdict c a f o x = Ok x' →
  paid_out a (verdict_dests f (x_escrow x) (xa_buyer_account a) (Some o)) x x' ∧
  x_case x' = x_case x ∧ te_state (x_escrow x') = verdict_state o.
Proof.
  intros Hf Hamt Hmint Htr Hrun. unfold pay_verdict in Hrun.
  destruct o; [| |eapply exec_split_spec; eauto|]; inv_escrow.
  - match goal with Hs : release_trade_escrow_funds _ _ _ _ _ _ _ = _ |- _ => rename Hs into Hrel end.
    apply release_settles in Hrel as Hset; [|done|done]. destruct Hset as [-> Hset].
    apply release_funds_dests in Hrel as (_ & _ & Hbal); [|done..].
    split; [|done]. split; simpl; auto. by split_and!.
  - match goal with Hs : unwind_funded_trade_escrow _ _ _ _ = _ |- _ => rename Hs into Hun end.
    apply unwind_settles in Hun as Hset. rewrite <-Hmint in Hun.
    split; [|done]. split; simpl; auto; [by split_and!|].
    exact (unwind_dests _ _ _ _ _ f (xa_buyer_account a) MerchantWins (or_introl eq_refl) Hun).
  - match goal with Hs : unwind_funded_trade_escrow _ _ _ _ = _ |- _ => rename Hs into Hun end.
    apply unwind_settles in Hun as Hset. rewrite <-Hmint in Hun.
    split; [|done]. split; simpl; auto; [by split_and!|].
    exact (unwind_dests _ _ _ _ _ f (xa_buyer_account a) InvalidDispute (or_intror eq_refl) Hun).
Qed.

(** ** Resolving a case *)

Lemma loaded_keys a s x f :
  escrow_inv s → exec_loaded a s x f →
  te_reservation_id (x_escrow x) = dc_reservation_id (x_case x) ∧
  xa_open_vault a = liquidity_vault_key (te_seller (x_escrow x)) (xa_deposit_mint a) ∧
  lv_merchant (x_open x) = te_seller (x_escrow x) ∧ lv_mint (x_open x) = xa_deposit_mint a.
Proof.
  intros Hinv Hl. destruct (ei_case _ Hinv _ _ (xl_case _ _ _ _ Hl)) as
    [(_ & Hte & _ & e & He & _ & _ & Hdv & _) _].
  rewrite <-Hte, <-(xl_trade _ _ _ _ Hl), (xl_escrow _ _ _ _ Hl) in He. injection He as <-.
  assert (te_reservation_id (x_escrow x) = dc_reservation_id (x_case x)) as Hr.
  { pose proof (xl_escrow_key _ _ _ _ Hl) as Hk. rewrite (xl_trade _ _ _ _ Hl), Hte in Hk.
    by injection Hk. }
  assert (xa_open_vault a = liquidity_vault_key (te_seller (x_escrow x)) (xa_deposit_mint a)) as Ho.
  { by rewrite (xl_deposit_vault _ _ _ _ Hl), Hdv, (xl_deposit_mint _ _ _ _ Hl). }
  pose proof (xl_open_vault _ _ _ _ Hl) as Hov. rewrite Ho in Hov.
  by apply vault_key in Hov as [? ?].
Qed.

(** The state the handler writes back when the case is resolved. *)
Definition resolved_state a s x d' ev : state :=
  mkEscrowState (es_fee s) (es_policy s)
    (<[liquidity_vault_key (te_seller (x_escrow x)) (xa_deposit_mint a) := x_open x]>
       (<[vault_of (x_escrow x) := x_vault x]> (es_vaults s)))
    (<[trade_escrow_key (te_reservation_id (x_escrow x)) := x_escrow x]> (es_escrows s))
    (<[dispute_case_key (te_reservation_id (x_escrow x)) := d']> (es_cases s))
    (es_claims s) (x_ledger x) ev.

Section resolve.
Context (a : exec_accounts) (s : state) (x x1 x2 : exec L) (f : FeeConfig) (n : Z).
Context (d' : DisputeCase) (ev : list escrow_event).
Hypothesis Hinv : escrow_inv s.
Hypothesis Hload : exec_loaded a s x f.
Hypothesis Hrf : refunded a n x x1.
Context (dests : list (pubkey * Z)).
Hypothesis Hpo : paid_out a dests x1 x2.
Hypothesis Hwf' : case_wf d'.
Hypothesis Hsame : same_case (x_case x) d'.
Hypothesis Hres : dc_resolved d' = true.
Hypothesis Hrem : dc_reward_remaining d' = dc_deposit (x_case x) - n.
Abbreviation e := (x_escrow x).
Abbreviation dm := (xa_deposit_mint a).

Lemma resolve_trade : same_trade e (x_escrow x2) ∧ ¬ live (x_escrow x2).
Proof using Hrf Hpo.
  split; [|destruct (po_state _ _ _ _ Hpo) as [Hs|Hs]; unfold live; rewrite Hs; intuition done].
  rewrite <-(rf_escrow _ _ _ _ Hrf). apply Hpo.
Qed.

Lemma resolve_settles : settles (te_mint e) e (x_vault x) (x_ledger x1) (x_vault x2) (x_ledger x2).
Proof using Hload Hrf Hpo.
  rewrite <-(rf_escrow _ _ _ _ Hrf) at 2. rewrite <-(rf_vault _ _ _ _ Hrf).
  rewrite (xl_mint _ _ _ _ Hload). apply Hpo.
Qed.

Lemma resolve_open : x_open x2 = x_open x <| lv_available := lv_available (x_open x) + n |>
                                          <| lv_total := lv_total (x_open x) + n |>.
Proof using Hrf Hpo. rewrite (po_open _ _ _ _ Hpo). apply Hrf. Qed.

Lemma resolve_backing k :
  required (<[liquidity_vault_key (te_seller e) dm := x_open x2]>
      (<[vault_of e := x_vault x2]> (es_vaults s)))
    (<[trade_escrow_key (te_reservation_id e) := x_escrow x2]> (es_escrows s))
    (<[dispute_case_key (te_reservation_id e) := d']> (es_cases s)) k
  ≤ balance (x_ledger x2) k.
Proof using Hinv Hload Hrf Hpo Hres Hrem.
  destruct resolve_trade as [_ Hidle]. pose proof resolve_settles as Hset.
  destruct (loaded_keys _ _ _ _ Hinv Hload) as (Hr & Hok & Hom & Hmi).
  assert (es_cases s !! dispute_case_key (te_reservation_id e) = Some (x_case x)) as Hcase
    by (rewrite Hr, <-(xl_case_key _ _ _ _ Hload); apply Hload).
  assert (es_vaults s !! liquidity_vault_key (te_seller e) dm = Some (x_open x)) as Hov
    by (rewrite <-Hok; apply Hload).
  pose proof (backing_vault _ _ _ _ Hinv Hov) as Hbo.
  pose proof (backing_vault _ _ _ _ Hinv (xl_vault _ _ _ _ Hload)) as Hbv.
  rewrite (required_case _ _ _ _ (x_case x)) by done. unfold obligation.
  rewrite Hres, (xl_open _ _ _ _ Hload), Hrem, required_escrow, required_vault.
  unfold vault_of. rewrite required_vault, live_amount_idle by done. rewrite resolve_open.
  pose proof (st_mono _ _ _ _ _ _ Hset k) as Hmono. pose proof (st_vault _ _ _ _ _ _ Hset) as Hvt.
  pose proof (rf_balance _ _ _ _ Hrf k) as Hb1.
  pose proof (rf_balance _ _ _ _ Hrf (liquidity_tokens_key (te_seller e) (te_mint e))) as Hb2.
  rewrite Hom, (xl_ledger _ _ _ _ Hload) in Hb1, Hb2.
  pose proof (ei_backing _ Hinv k). pose proof (balance_u64 (x_ledger x2) k).
  pose proof (rf_range _ _ _ _ Hrf) as [? _]. simpl.
  assert (liquidity_tokens_key (te_seller e) (te_mint e) ≠ liquidity_tokens_key (te_seller e) dm) as Hne.
  { intros [= Heq]. apply (xl_distinct _ _ _ _ Hload). rewrite Hok. unfold vault_of. by rewrite Heq. }
  rewrite (decide_False (P := liquidity_tokens_key _ _ = arbitration_pool_key)), decide_False in Hb2 by done.
  clear Hidle Hset. unfold_ints.
  destruct (decide (k = trade_escrow_tokens_key (te_reservation_id e))) as [->|Hk1];
    [rewrite !decide_False in * by done; lia|]. specialize (Hmono Hk1).
  destruct (decide (k = liquidity_tokens_key (te_seller e) dm)) as [->|Hk2];
    [rewrite !decide_False in * by done; lia|].
  destruct (decide (k = liquidity_tokens_key (te_seller e) (te_mint e))) as [->|Hk3];
    [rewrite !decide_False in * by done; lia|].
  destruct (decide (k = arbitration_pool_key)); lia.
Qed.

Lemma resolve_vaults k v :
  <[liquidity_vault_key (te_seller e) dm := x_open x2]>
    (<[vault_of e := x_vault x2]> (es_vaults s)) !! k = Some v →
  k = liquidity_vault_key (lv_merchant v) (lv_mint v) ∧ vault_wf v ∧
  vault_account (es_ledger s) (liquidity_tokens_key (lv_merchant v) (lv_mint v)) (lv_mint v)
    (liquidity_vault_key (lv_merchant v) (lv_mint v)) ∧
  lv_pending_settlement v = live_total k (es_escrows s)
    - (if decide (vault_of e = k) then te_amount e else 0).
Proof using Hinv Hload Hrf Hpo.
  pose proof resolve_settles as Hset. destruct (loaded_keys _ _ _ _ Hinv Hload) as (_ & Hok & Hom & Hmi).
  pose proof (xl_open_vault _ _ _ _ Hload) as Hov. pose proof (xl_vault _ _ _ _ Hload) as Hv.
  pose proof (xl_distinct _ _ _ _ Hload) as Hne. rewrite Hok in Hov, Hne.
  pose proof (rf_range _ _ _ _ Hrf) as [? ?].
  rewrite lookup_insert. case_decide as Hk; [|rewrite lookup_insert; case_decide as Hk'].
  - intros [= <-]. subst k. rewrite resolve_open. simpl. rewrite Hom, Hmi.
    destruct (ei_vault _ Hinv _ _ Hov) as (_ & Hwf & Hacc). rewrite Hom, Hmi in Hacc.
    split; [done|]. split; [destruct Hwf; split; simpl; lia|]. split; [done|].
    rewrite decide_False by congruence. rewrite (ei_pending _ Hinv _ _ Hov). lia.
  - intros [= <-]. subst k. rewrite (st_merchant _ _ _ _ _ _ Hset), (st_mint _ _ _ _ _ _ Hset).
    destruct (ei_vault _ Hinv _ _ Hv) as (? & Hwf & Hacc).
    rewrite (st_pending _ _ _ _ _ _ Hset), (ei_pending _ Hinv _ _ Hv).
    split_and!; try done. by apply Hset.
  - intros Hw. destruct (ei_vault _ Hinv _ _ Hw) as (? & ? & ?).
    rewrite (ei_pending _ Hinv _ _ Hw). split_and!; done || lia.
Qed.

Lemma resolve_case_ok (ledger : L) claims events :
  case_ok (mkEscrowState (es_fee s) (es_policy s)
    (<[liquidity_vault_key (te_seller e) dm := x_open x2]>
      (<[vault_of e := x_vault x2]> (es_vaults s)))
    (<[trade_escrow_key (te_reservation_id e) := x_escrow x2]> (es_escrows s))
    (<[dispute_case_key (te_reservation_id e) := d']> (es_cases s)) claims ledger events)
    (dispute_case_key (te_reservation_id e)) d'.
Proof using Hinv Hload Hrf Hpo Hwf' Hsame Hres.
  destruct Hsame as (Hrid & Hte & Hdv & Hdm).
  destruct (loaded_keys _ _ _ _ Hinv Hload) as (Hr & Hok & _).
  destruct resolve_trade as [(_ & Hsel & _) _].
  unfold case_ok. simpl. rewrite Hrid, Hte, Hdv, Hdm, <-Hr, Hres.
  rewrite <-(xl_trade _ _ _ _ Hload), <-(xl_deposit_vault _ _ _ _ Hload).
  rewrite <-(xl_deposit_mint _ _ _ _ Hload), Hok.
  split_and!; try done; [by rewrite (xl_escrow_key _ _ _ _ Hload)|].
  exists (x_escrow x2). rewrite lookup_insert_eq, Hsel. split_and!; try done.
  - intros _. apply Hpo.
  - rewrite lookup_insert_eq. eauto.
Qed.

Lemma resolve_inv : escrow_inv (resolved_state a s x2 d' ev).
Proof using All.
  destruct resolve_trade as [Htr Hidle]. pose proof resolve_settles as Hset.
  pose proof (keeps_trans _ _ _ (rf_keeps _ _ _ _ Hrf) (st_keeps _ _ _ _ _ _ Hset)) as Hkeep.
  rewrite (xl_ledger _ _ _ _ Hload) in Hkeep.
  pose proof (xl_escrow _ _ _ _ Hload) as He. rewrite (xl_escrow_key _ _ _ _ Hload) in He.
  destruct (ei_escrow _ Hinv _ _ He) as (_ & Hamt & Hvs & Htok).
  pose proof (same_trade_vault _ _ Htr) as Hvo. pose proof Htr as (Hrid & Hsel & Hmint & Ham & _).
  unfold resolved_state. rewrite Hvo, Hrid, Hsel. split; simpl; try apply Hinv.
  - intros k v Hv. apply resolve_vaults in Hv as (? & ? & ? & _). eauto with openfiat.
  - intros k e0. rewrite lookup_insert. case_decide as Hk; intros He0.
    + injection He0 as <-. rewrite Hvo, Hrid, Hmint, Ham. subst k.
      eauto 7 using insert_is_Some with openfiat.
    + destruct (ei_escrow _ Hinv _ _ He0) as (? & ? & ? & ?).
      eauto 7 using insert_is_Some with openfiat.
  - intros k v Hv. apply resolve_vaults in Hv as (_ & _ & _ & ->).
    rewrite (live_total_update _ _ e) by done. rewrite (live_amount_live e), live_amount_idle
      by (done || right; apply Hload). case_decide; lia.
  - intros k d. rewrite lookup_insert. case_decide as Hk; intros Hd.
    + injection Hd as <-. subst k. split; [apply resolve_case_ok|]. destruct Hsame as (_ & _ & _ & ->).
      eapply keeps_fee; [done|]. apply (ei_case _ Hinv _ _ (xl_case _ _ _ _ Hload)).
    + destruct (ei_case _ Hinv _ _ Hd) as [Hok Hpool]. split; [|by eapply keeps_fee].
      eapply (case_ok_frame s _ k d _ e (x_escrow x2)); simpl; try done.
      * intros Heq. exfalso. destruct Hok as (Hk0 & _). injection Heq as Heq.
        apply Hk. by rewrite Hk0, Heq.
      * intros j Hj. by do 2 apply insert_is_Some.
  - intros k e0. rewrite lookup_insert. case_decide as Hk; intros He0 Hfz.
    + injection He0 as <-. exfalso. apply Hidle. by right.
    + destruct (ei_frozen _ Hinv _ _ He0 Hfz) as (d0 & Hd0 & Hr0). exists d0.
      rewrite lookup_insert_ne; [done|]. intros [= Heq].
      destruct (ei_escrow _ Hinv _ _ He0) as (Hk0 & _). by rewrite <-Heq in Hk0.
  - eapply keeps_pool; [apply Hinv|done].
  - apply resolve_backing.
Qed.
End resolve.

Lemma store_exec_resolved a s x x' f :
  escrow_inv s → exec_loaded a s x f → same_trade (x_escrow x) (x_escrow x') →
  store_exec a s x' = resolved_state a s x' (x_case x') (x_events x').
Proof.
  intros Hinv Hl (Hrid & Hsel & Hmint & _). destruct (loaded_keys _ _ _ _ Hinv Hl) as (Hr & Hok & _).
  unfold store_exec, resolved_state, vault_of. simpl.
  by rewrite Hrid, Hsel, Hmint, Hok, (xl_mint _ _ _ _ Hl), (xl_escrow_key _ _ _ _ Hl),
    (xl_case_key _ _ _ _ Hl), Hr.
Qed.

(** ** The case after a verdict, and after the last round *)

Definition decided_case d (o : DisputeOutcome) (w : Z) : DisputeCase :=
  settled_case d (refund_of d (Some o)) <| dc_resolved := true |> <| dc_outcome := Some o |>
    <| dc_winning_weight := w |>
    <| dc_reward_claimed := replicate (length (dc_arbitrators d)) false |>.

Lemma decided_case_wf d o w :
  case_wf d → dc_resolved d = false → (tally d).1 = Some o → winning_weight_of d o = Ok w →
  case_wf (decided_case d o w).
Proof.
  intros [Hb Hr Hm] Hres Ht Hw. apply winning_weight_of_spec in Hw as [Hw Hwu].
  pose proof (bench_votes_nonneg _ Hb) as Hnn. apply tally_decides in Ht as [_ Hp]; [|done].
  apply strict_plurality_pos in Hp; [|done].
  split; [by destruct Hb; split|by destruct Hr; split|].
  destruct (mw_deposit _ Hm) as [Hdep Hsf].
  split; simpl; try done. intros o' [= <-]. rewrite length_replicate.
  split_and!; try done; [by rewrite Hw|].
  case_decide as Ho; unfold refund_of; [|rewrite decide_False by congruence; lia]. subst o.
  apply decided_rewards_ok; simpl; try done; try apply Hb; try by rewrite Hw.
  unfold refund_of. rewrite decide_True by done. by rewrite Z.sub_0_r.
Qed.

Definition terminal_case d (reason : TerminalSplitReason) : DisputeCase :=
  settled_case (bar_silent_seats d) (dc_deposit d) <| dc_resolved := true |>
    <| dc_outcome := None |> <| dc_terminal_reason := Some reason |>.

Lemma terminal_case_wf d reason :
  case_wf d → case_wf (terminal_case d reason).
Proof.
  intros [Hb Hr Hm]. destruct (bar_silent_seats_rounds _ Hb Hr) as [Hlen Hnd].
  split; [by destruct Hb; split|by destruct Hr; split|].
  destruct (mw_deposit _ Hm) as [Hdep Hsf]. split; simpl; try done. intros _ _. split; [lia|eauto].
Qed.

(** A reopened round: the windows of the case, an empty bench. *)
Lemma reopen_round_Ok c d next d' :
  reopen_round c d next = Ok d' →
  ∃ seed, latch_case_seed c (dc_reservation_id d) (dc_trade_escrow d) = Ok seed ∧
    d' = d <| dc_round := next |> <| dc_round_opened_at := now c |>
           <| dc_commit_deadline := now c + dc_commit_window_secs d |>
           <| dc_reveal_deadline := now c + dc_commit_window_secs d + dc_reveal_window_secs d |>
           <| dc_case_seed := seed |> <| dc_arbitrators := [] |> <| dc_commitments := [] |>
           <| dc_revealed_outcomes := [] |> <| dc_weights := [] |> <| dc_reward_claimed := [] |>.
Proof. unfold reopen_round. intros Hrun. inv_run. eauto. Qed.

Lemma reopen_case_wf c d d' :
  case_wf d → dc_resolved d = false → dc_round d + 1 < MAX_DISPUTE_ROUNDS →
  reopen_round c (bar_silent_seats d) (dc_round d + 1) = Ok d' →
  case_wf d' ∧ same_case d d' ∧ dc_resolved d' = false ∧ obligation d' = obligation d.
Proof.
  intros [Hb Hr Hm] Hres Hn (seed & _ & ->)%reopen_round_Ok.
  destruct (bar_silent_seats_rounds _ Hb Hr) as [Hlen Hnd].
  split; [|unfold obligation; simpl; by rewrite Hres].
  split; [by apply bench_wf_empty| |].
  - pose proof (rw_round _ Hr). pose proof (bar_silent_seats_grows d Hb Hr Hres). destruct Hr.
    split; simpl; try done; [lia|]. by intros _ x ?%not_elem_of_nil.
  - destruct (mw_deposit _ Hm). eapply money_wf_open; try done.
Qed.

(** ** The three ways an execution ends *)

(** What is known of the arbitrator pool when a round ends undecided. *)
Definition floor_after d (counted : nat) (published : Z) : PoolFloor :=
  mkFloor (Z.of_nat (length (dc_barred (bar_silent_seats d)))) (dc_seats_taken_total d)
    (Z.of_nat (length (dc_arbitrators d))) (Z.of_nat counted) published.

Inductive executed c a f (policy : option ArbitrationPolicy) x x' : Prop :=
  | ex_decided o w x1 :
      (tally (x_case x)).1 = Some o → winning_weight_of (x_case x) o = Ok w →
      refunded a (refund_of (x_case x) (Some o)) x x1 →
      paid_out a (verdict_dests f (x_escrow x) (xa_buyer_account a) (Some o)) x1 x' →
      te_state (x_escrow x') = verdict_state o →
      x_case x' = decided_case (x_case x) o w → executed c a f policy x x'
  | ex_reopened d' :
      (tally (x_case x)).1 = None → dc_round (x_case x) + 1 < MAX_DISPUTE_ROUNDS →
      reopen_round c (bar_silent_seats (x_case x)) (dc_round (x_case x) + 1) = Ok d' →
      x' = x <| x_case := d' |> → executed c a f policy x x'
  | ex_terminal reason x1 published :
      (tally (x_case x)).1 = None →
      published_pool_size (xa_policy a) policy = Ok published →
      (let fl := floor_after (x_case x) (tally (x_case x)).2 published in
       if decide (MAX_DISPUTE_ROUNDS ≤ dc_round (x_case x) + 1)
       then reason = exhausted_rounds_reason fl
       else reason = PoolExhausted ∧ next_round_is_staffable fl = false) →
      refunded a (dc_deposit (x_case x)) x x1 →
      paid_out a (verdict_dests f (x_escrow x) (xa_buyer_account a) None) x1 x' →
      te_state (x_escrow x') = Released →
      x_case x' = terminal_case (x_case x) reason → executed c a f policy x x'.

Lemma refunded_case a n x d x1 :
  dc_deposit d = dc_deposit (x_case x) → refunded a n (x <| x_case := d |>) x1 → refunded a n x x1.
Proof. intros Hd []. split; simpl in *; try done. by rewrite <-Hd. Qed.

Lemma paid_out_case a dests x x' d ev :
  paid_out a dests x x' → paid_out a dests x (x' <| x_case := d |> <| x_events := ev |>).
Proof. by intros []. Qed.

Lemma execute_outcome_Ok c a s x x' f :
  escrow_inv s → exec_loaded a s x f → execute_outcome c a f (es_policy s) x = Ok x' →
  dc_reveal_deadline (x_case x) ≤ now c ∧ executed c a f (es_policy s) x x'.
Proof.
  intros Hinv Hl Hrun. unfold execute_outcome in Hrun. inv_run. split; [done|].
  pose proof (inv_case_wf _ _ _ Hinv (xl_case _ _ _ _ Hl)) as Hwf.
  destruct (ei_vault _ Hinv _ _ (xl_open_vault _ _ _ _ Hl)) as (_ & Hovwf & _).
  destruct (ei_escrow _ Hinv _ _ (xl_escrow _ _ _ _ Hl)) as (_ & Hamt & _).
  destruct (tally (x_case x)) as [[o|] counted] eqn:Ht.
  - inv_escrow.
    match goal with Hs : settle_deposit _ _ _ = Ok (_, (_, _)) |- _ =>
      apply settle_deposit_spec in Hs as (Hrf & Hc1 & _); [|apply Hwf|apply Hl|done] end.
    match goal with Hp : pay_verdict _ _ _ _ _ = _ |- _ =>
      apply pay_verdict_spec in Hp as (Hpo & Hc2 & Hst);
        rewrite ?(rf_escrow _ _ _ _ Hrf) in *; [|by eapply ei_fee, Hl|done|apply Hl|apply Hl] end.
    eapply (ex_decided _ _ _ _ _ _ o); try done; [by rewrite Ht|by apply paid_out_case|].
    simpl. rewrite Hc2, Hc1. done.
  - unfold handle_undecided_round in Hrun. inv_escrow. case_decide as Hc.
    + inv_run. eapply ex_reopened; try done; [by rewrite Ht|lia].
    + inv_escrow.
      match goal with Hs : settle_deposit _ _ _ = Ok (_, (_, _)) |- _ =>
        apply settle_deposit_spec in Hs as (Hrf & Hc1 & _); simpl; [|..|apply Hl|done] end.
      2:{ apply (money_wf_open (x_case x)); try done; try apply Hwf; apply Hl. }
      match goal with Hp : exec_split _ _ = _ |- _ =>
        apply (exec_split_spec a f None) in Hp as (Hpo & Hc2 & Hst);
          rewrite ?(rf_escrow _ _ _ _ Hrf) in *; [|done|apply Hl|by right] end.
      unfold refund_of in Hrf, Hc1. rewrite decide_False in Hrf, Hc1 by done.
      eapply ex_terminal;
        [by rewrite Ht|done| |exact (refunded_case _ _ _ (bar_silent_seats (x_case x)) _ eq_refl Hrf)|
         by apply paid_out_case|done|simpl; rewrite Hc2, Hc1; reflexivity].
      cbv zeta. rewrite Ht. simpl. unfold floor_after.
      destruct (decide (MAX_DISPUTE_ROUNDS ≤ _)) as [|Hlt]; [done|]. split; [done|].
      apply not_true_is_false. intros Hstaff. apply Hc. split; [simpl; lia|done].
Qed.

(** Writing back only a changed case. *)
Lemma store_exec_case a s x f d' :
  escrow_inv s → exec_loaded a s x f →
  store_exec a s (x <| x_case := d' |>) =
  mkEscrowState (es_fee s) (es_policy s) (es_vaults s) (es_escrows s)
    (<[xa_case a := d']> (es_cases s)) (es_claims s) (es_ledger s) (es_events s).
Proof.
  intros Hinv Hl. unfold store_exec. simpl. pose proof (xl_vault _ _ _ _ Hl) as Hv.
  unfold vault_of in Hv. rewrite (xl_mint _ _ _ _ Hl) in Hv.
  rewrite (insert_id (es_escrows s)) by apply Hl. rewrite (insert_id (es_vaults s)) by done.
  rewrite (insert_id (es_vaults s)) by apply Hl. by rewrite (xl_ledger _ _ _ _ Hl), (xl_events _ _ _ _ Hl).
Qed.

Lemma handle_execute_Ok c a s s' :
  escrow_inv s → handle_execute_dispute_outcome c a s = Ok s' →
  ∃ x x' f, exec_loaded a s x f ∧ dc_reveal_deadline (x_case x) ≤ now c ∧ executed c a f (es_policy s) x x' ∧
    s' = store_exec a s x'.
Proof.
  intros Hinv Hrun. unfold handle_execute_dispute_outcome in Hrun. inv_escrow.
  match goal with Hl : load_exec _ _ = _ |- _ => apply load_exec_Ok in Hl as Hload end.
  match goal with He : execute_outcome _ _ _ _ _ = _ |- _ =>
    eapply execute_outcome_Ok in He as [? Hex]; [|done|done] end. eauto 7.
Qed.

Lemma execute_dispute_outcome_inv c a s s' :
  escrow_inv s → handle_execute_dispute_outcome c a s = Ok s' → escrow_inv s'.
Proof.
  intros Hinv Hrun. apply handle_execute_Ok in Hrun as (x & x' & f & Hload & _ & Hex & ->); [|done].
  pose proof (inv_case_wf _ _ _ Hinv (xl_case _ _ _ _ Hload)) as Hwf.
  pose proof (xl_open _ _ _ _ Hload) as Hopen.
  destruct Hex as [o w x1 Ht Hw Hrf Hpo _ Hc|d' Ht Hn Hre ->|reason x1 pub Ht _ Hn Hrf Hpo _ Hc].
  - destruct (resolve_trade a x x1 x' _ Hrf _ Hpo) as [Htr _].
    erewrite store_exec_resolved by done. eapply resolve_inv; try done; rewrite Hc; try done.
    by apply decided_case_wf.
  - apply (reopen_case_wf c (x_case x) d' Hwf Hopen) in Hre as (Hwf' & Hsame & Hr' & Ho); [|done].
    erewrite store_exec_case by done. eapply inv_case; try done; [apply Hload|congruence|].
    eapply same_obligation; try done. apply Hload.
  - destruct (resolve_trade a x x1 x' _ Hrf _ Hpo) as [Htr _].
    erewrite store_exec_resolved by done. eapply resolve_inv; try done; rewrite Hc; try done.
    by apply terminal_case_wf.
Qed.
End execute.
