(* ===== verification/EscrowSafety.v ===== *)
(** * EscrowSafety: the reachable states of the escrow program

    Every instruction, and everything the rest of the chain does to the
    ledger, preserves the invariant; what that means for the merchants,
    traders and arbitrators whose tokens the program holds. *)

From S2P Require Import Prelude Runtime Shared StakingState EscrowState Fees Trade.
From S2P Require Import Dispute Escrow CaseInv EscrowInv TradeInv DisputeInv ExecuteInv.
Import EscrowError.

Section safety.
Context {L : Type} `{TokenLedger L} `{Hashing}.
Abbreviation state := (escrow_state L).
Implicit Types (s : state) (l : L) (v : LiquidityVault) (e : TradeEscrowVault)
  (d : DisputeCase) (c : chain).

(** Replacing the fee configuration or the policy. *)
Lemma inv_config s f p ev :
  escrow_inv s → (∀ g, f = Some g → fee_config_wf g) →
  escrow_inv (mkEscrowState f p (es_vaults s) (es_escrows s) (es_cases s) (es_claims s)
    (es_ledger s) ev).
Proof. by intros [] Hf. Qed.

(** Replacing the ledger. *)
Lemma inv_ledger s l' :
  escrow_inv s →
  (∀ k m o, derived_by ESCROW o = true → vault_account (es_ledger s) k m o → vault_account l' k m o) →
  pool_ok l' →
  (∀ k, required (es_vaults s) (es_escrows s) (es_cases s) k ≤ balance l' k) →
  escrow_inv (s <| es_ledger := l' |>).
Proof.
  intros Hinv Hk Hp Hb. split; simpl; try apply Hinv; try done.
  - intros k v Hv. destruct (ei_vault _ Hinv _ _ Hv) as (? & ? & ?). auto.
  - intros k e He. destruct (ei_escrow _ Hinv _ _ He) as (? & ? & ? & ?). auto.
  - intros k d Hd. destruct (ei_case _ Hinv _ _ Hd) as [? ?]. auto.
Qed.

Lemma initialize_arbitration_pool_inv admin mint s s' :
  escrow_inv s → handle_initialize_arbitration_pool admin mint s = Ok s' → escrow_inv s'.
Proof.
  intros Hinv Hrun. unfold handle_initialize_arbitration_pool in Hrun. inv_escrow.
  match goal with Hc : create_token_account _ _ _ _ = Some _ |- _ => rename Hc into Hcr end.
  pose proof (create_vault_account_new _ _ _ _ _ Hcr) as (a & Ha & Hm & Ho & Hd).
  apply inv_ledger; [done| | |].
  - intros k m o _. by eapply create_vault_account.
  - intros a' Ha'. assert (a' = a) as -> by congruence. exists a. auto.
  - intros k. by eapply backing_create.
Qed.

(** Instructions that do not touch cases. *)
Lemma process_cases c sv i s s' :
  process c sv i s = Ok s' →
  match i with
  | OpenDisputeCase _ _ _ _ _ | CommitDisputeVote _ _ _ | RevealDisputeVote _ _ _ _
  | ExecuteDisputeOutcome _ | ClaimArbitrationReward _ _ _ _ | TopUpArbitrationDeposit _ _ _ => True
  | _ => es_cases s' = es_cases s
  end.
Proof.
  destruct i; simpl; try done; intros Hrun.
  - unfold handle_initialize_fee_config in Hrun. by inv_escrow.
  - unfold handle_update_fee_config in Hrun. by inv_escrow.
  - unfold handle_initialize_arbitration_pool in Hrun. by inv_escrow.
  - unfold handle_publish_arbitrator_pool_size in Hrun. by inv_escrow.
  - unfold handle_create_liquidity_vault in Hrun. by inv_escrow.
  - unfold handle_deposit_liquidity in Hrun. by inv_escrow.
  - unfold handle_reserve_liquidity in Hrun. by inv_escrow.
  - unfold handle_withdraw_liquidity in Hrun. by inv_escrow.
  - unfold handle_charge_ad_listing_fee in Hrun. by inv_escrow.
  - unfold handle_create_trade_escrow in Hrun. by inv_escrow.
  - unfold handle_fund_trade_escrow in Hrun. by inv_escrow.
  - unfold handle_approve_settlement in Hrun. by inv_escrow.
  - unfold handle_release_escrow in Hrun. by inv_escrow.
  - unfold handle_cancel_reservation, unwind_reservation in Hrun. by inv_escrow.
  - unfold handle_expire_reservation, unwind_reservation in Hrun. by inv_escrow.
  - unfold handle_absorb_stake_recovery in Hrun. by inv_escrow.
Qed.

(** ** The clock: a resolved case is past its reveal deadline *)

Lemma settled_insert t s s' dk d' :
  settled_before t s → es_cases s' = <[dk := d']> (es_cases s) →
  (dc_resolved d' = true → dc_reveal_deadline d' ≤ t) → settled_before t s'.
Proof.
  intros Hs Hc Hd k d. rewrite Hc, lookup_insert. case_decide; [by intros [= <-]|apply Hs].
Qed.

Lemma execute_settled c a s s' :
  escrow_inv s → settled_before (now c) s → handle_execute_dispute_outcome c a s = Ok s' →
  settled_before (now c) s'.
Proof.
  intros Hinv Hs Hrun. apply handle_execute_Ok in Hrun as (x & x' & f & Hload & Hdl & Hex & ->); [|done].
  apply (settled_insert _ s _ (xa_case a) (x_case x')); [done|done|].
  destruct Hex as [o w x1 _ _ _ _ _ ->|d' _ _ (seed & _ & ->)%reopen_round_Ok ->|reason x1 pub _ _ _ _ _ _ ->];
    simpl; [done| |done]. by rewrite (xl_open _ _ _ _ Hload).
Qed.

Lemma process_settled c sv i s s' :
  escrow_inv s → settled_before (now c) s → process c sv i s = Ok s' → settled_before (now c) s'.
Proof.
  intros Hinv Hs Hrun. pose proof (process_cases _ _ _ _ _ Hrun) as Hc.
  destruct i; simpl in *; try (intros k d; rewrite Hc; apply Hs).
  - apply open_dispute_case_Ok in Hrun as (e & f & v & pool & v' & l' & r & seed & ev &
      _ & _ & _ & _ & _ & _ & _ & _ & _ & _ & _ & _ & _ & ->).
    by eapply (settled_insert _ s).
  - unfold handle_commit_dispute_vote in Hrun. inv_escrow. eapply (settled_insert _ s); [done..|].
    simpl. by eapply Hs.
  - unfold handle_reveal_dispute_vote in Hrun. inv_escrow. eapply (settled_insert _ s); [done..|].
    simpl. by eapply Hs.
  - by eapply execute_settled.
  - unfold handle_claim_arbitration_reward in Hrun. inv_escrow. eapply (settled_insert _ s); [done..|].
    simpl. by eapply Hs.
  - unfold handle_top_up_arbitration_deposit in Hrun. inv_escrow.
    eapply (settled_insert _ s); [done..|]. simpl. by eapply Hs.
Qed.

(** ** Every step *)

Lemma process_inv c sv i s s' :
  view_typed sv → ix_typed i → escrow_inv s → settled_before (now c) s →
  process c sv i s = Ok s' → escrow_inv s'.
Proof.
  intros Hview Hty Hinv Hs Hrun. destruct i; simpl in *.
  - apply initialize_fee_config_wf in Hrun as (g & -> & Hg & _); [|done].
    apply (inv_config s (Some g)); [done|]. intros g0 Hg0. by simplify_eq.
  - destruct Hty as [Hty Hb]. apply update_fee_config_wf in Hrun as (g & -> & Hg & _); [|done..].
    apply (inv_config s (Some g)); [done|]. intros g0 Hg0. by simplify_eq.
  - by eapply initialize_arbitration_pool_inv.
  - unfold handle_publish_arbitrator_pool_size in Hrun. inv_escrow. apply (inv_config s); [done|apply Hinv].
  - by eapply create_liquidity_vault_inv.
  - destruct Hty. by eapply deposit_liquidity_inv.
  - by eapply reserve_liquidity_inv.
  - by eapply withdraw_liquidity_inv.
  - by eapply charge_ad_listing_fee_inv.
  - destruct Hty as (_ & ? & _). by eapply create_trade_escrow_inv.
  - by eapply fund_trade_escrow_inv.
  - by eapply approve_settlement_inv.
  - by eapply release_escrow_inv.
  - unfold handle_cancel_reservation in Hrun. inv_escrow. by eapply unwind_reservation_inv.
  - unfold handle_expire_reservation in Hrun. inv_escrow. by eapply unwind_reservation_inv.
  - by eapply open_dispute_case_inv.
  - by eapply commit_dispute_vote_inv.
  - by eapply reveal_dispute_vote_inv.
  - by eapply execute_dispute_outcome_inv.
  - by eapply claim_arbitration_reward_inv.
  - by eapply top_up_inv.
  - by eapply absorb_stake_recovery_inv.
Qed.

(** The invariant of a timed state. *)
Definition world_inv (w : Z * state) : Prop := escrow_inv w.2 ∧ settled_before w.1 w.2.

Lemma escrow_step_inv w w' : world_inv w → escrow_step w w' → world_inv w'.
Proof.
  intros [Hinv Hs] Hstep. destruct Hstep as [t c sv i s s' Ht _ Hview Hty Hrun|t t' s l' Ht Hl]; simpl in *.
  - assert (settled_before (now c) s) as Hs'.
    { intros k d Hd Hr. specialize (Hs k d Hd Hr). lia. }
    split; [by eapply process_inv|by eapply process_settled].
  - pose proof (keeps_respects _ _ Hl) as Hk.
    split; [|intros k d Hd Hr; specialize (Hs k d Hd Hr); simpl; lia].
    apply inv_ledger; [done|apply Hk| |].
    + eapply keeps_pool; [apply Hinv|done].
    + intros k. by apply backing_respects.
Qed.

(** At genesis no arbitration pool exists. *)
Lemma escrow_init_inv t l :
  account_of l arbitration_pool_key = None → world_inv (t, escrow_init l).
Proof.
  intros Hp. split; [|by intros k d]. split; simpl; try (intros ? ? Hx; by rewrite lookup_empty in Hx).
  - done.
  - intros a Ha. congruence.
  - intros k. pose proof (balance_u64 l k).
    assert (required ∅ ∅ ∅ k = 0) as ->; [|ilia].
    destruct k as [|[] []| |[] []|[] []|]; try done; simpl; by rewrite ?lookup_empty, ?map_sum_empty.
Qed.

Definition escrow_reachable (w : Z * state) : Prop :=
  ∃ t l, account_of l arbitration_pool_key = None ∧ steps escrow_step (t, escrow_init l) w.

Lemma escrow_reachable_inv w : escrow_reachable w → world_inv w.
Proof.
  intros (t & l & Hp & Hsteps). eapply (steps_invariant _ world_inv); [|done|by apply escrow_init_inv].
  intros ? ?. apply escrow_step_inv.
Qed.
End safety.
