(* ===== verification/Frame.v ===== *)
(** * Frame: what one program's instructions leave alone

    An instruction of the escrow program, whatever it does to its own vaults,
    respects the token accounts of every other program; the same holds of the
    staking program.  This discharges the assumption each program's transition
    system makes about the rest of the chain. *)

From S2P Require Import Prelude Runtime Shared StakingState Staking StakingInv.
From S2P Require Import EscrowState Fees Trade Dispute Escrow CaseInv EscrowInv.

Create HintDb frame.

(** Every signature a transaction carries is a wallet's. *)
Definition escrow_signer (i : escrow_ix) : option pubkey :=
  match i with
  | InitializeFeeConfig k _ _ | UpdateFeeConfig k _ _ _ _ _ _ | InitializeArbitrationPool k _
  | PublishArbitratorPoolSize k _ | CreateLiquidityVault k _ | DepositLiquidity k _ _ _
  | ReserveLiquidity k _ _ | WithdrawLiquidity k _ _ _ | ChargeAdListingFee k _ _ _
  | CreateTradeEscrow k _ _ _ _ _ | FundTradeEscrow k _ _ | ApproveSettlement k _
  | CancelReservation k _ _ | OpenDisputeCase k _ _ _ _ | CommitDisputeVote k _ _
  | RevealDisputeVote k _ _ _ | ClaimArbitrationReward k _ _ _ => Some k
  | _ => None
  end.

Definition staking_signer (i : staking_ix) : option pubkey :=
  match i with
  | InitializeStakingConfig k _ _ _ | UpdateStakingConfig k _ _ _ | InitializeStakeAccount k _
  | Stake k _ _ _ _ | RequestUnstake k _ _ | WithdrawUnstaked k _ _ _ | Slash k _ _ _ _
  | FundRewardsVault k _ _ _ | DistributeReward k _ _ _ | ClaimRewards k _ _ _ => Some k
  | RecoverStakeShortfall _ _ => None
  end.

Definition signed (k : option pubkey) : Prop := ∀ w, k = Some w → is_wallet w = true.

Section escrow.
Context {L : Type} `{TokenLedger L} `{Hashing}.
Implicit Types (s : escrow_state L) (l : L) (c : chain).

(** The owner of none of the accounts the escrow program signs for. *)
Definition foreign (p : program_id) : Prop := p ≠ ESCROW.

Lemma foreign_vault p m mint : foreign p → derived_by p (liquidity_vault_key m mint) = false.
Proof. by apply derived_once. Qed.
Lemma foreign_tokens p m mint : foreign p → derived_by p (liquidity_tokens_key m mint) = false.
Proof. by apply derived_once. Qed.
Lemma foreign_escrow p rid : foreign p → derived_by p (trade_escrow_key rid) = false.
Proof. by apply derived_once. Qed.
Lemma foreign_escrow_tokens p rid : foreign p → derived_by p (trade_escrow_tokens_key rid) = false.
Proof. by apply derived_once. Qed.
Lemma foreign_fee p : foreign p → derived_by p fee_config_key = false.
Proof. by apply derived_once. Qed.
Lemma foreign_pool p : foreign p → derived_by p arbitration_pool_key = false.
Proof. by apply derived_once. Qed.

#[local] Hint Resolve foreign_vault foreign_tokens foreign_escrow foreign_escrow_tokens
  foreign_fee foreign_pool ledger_respects_refl : frame.
#[local] Hint Extern 2 (ledger_respects _ _ _) =>
  match goal with
  | Ht : transfer_checked _ _ _ _ _ _ _ = Some _ |- _ =>
      eapply transfer_respects; [exact Ht|solve [auto with frame]]
  | Ht : create_token_account _ _ _ _ = Some _ |- _ =>
      eapply create_respects; [exact Ht|solve [auto with frame]]
  end : frame.

Lemma pay_all_respects p l l' from mint auth dests :
  pay_all l from mint auth dests = Ok l' → derived_by p auth = false → ledger_respects p l l'.
Proof.
  revert l. induction dests as [|[to n] dests IH]; intros l Hrun Ha; simpl in Hrun.
  - inv_ok. auto with frame.
  - inv_run. eapply ledger_respects_trans; [|by apply IH].
    case_decide; inv_run; auto with frame.
Qed.

Lemma take_deposit_respects p l v m mint n v' l' :
  foreign p → take_deposit l v m mint n = Ok (v', l') → ledger_respects p l l'.
Proof. intros Hp Hrun. unfold take_deposit in Hrun. inv_run. auto with frame. Qed.

Lemma unwind_respects p e v l mint v' l' :
  foreign p → unwind_funded_trade_escrow e v l mint = Ok (v', l') → ledger_respects p l l'.
Proof. intros Hp Hrun. unfold unwind_funded_trade_escrow in Hrun. inv_run. auto with frame. Qed.

Lemma split_respects p e v l mint b e' v' l' :
  foreign p → split_trade_escrow_evenly e v l mint b = Ok (e', v', l') → ledger_respects p l l'.
Proof.
  intros Hp Hrun. unfold split_trade_escrow_evenly in Hrun. inv_run.
  eapply pay_all_respects; [done|auto with frame].
Qed.

Lemma release_funds_respects p e v l f t mint b e' v' l' out :
  foreign p → release_trade_escrow_funds e v l f t mint b = Ok (e', v', l', out) →
  ledger_respects p l l'.
Proof.
  intros Hp Hrun. unfold release_trade_escrow_funds in Hrun. inv_escrow.
  eapply pay_all_respects; [done|auto with frame].
Qed.

Lemma settle_deposit_respects p a o (x x' : exec L) out :
  foreign p → settle_deposit a o x = Ok (x', out) → ledger_respects p (x_ledger x) (x_ledger x').
Proof.
  intros Hp Hrun. unfold settle_deposit in Hrun. repeat case_decide; inv_run; simpl; auto with frame.
Qed.

Lemma exec_split_respects p a (x x' : exec L) :
  foreign p → exec_split a x = Ok x' → ledger_respects p (x_ledger x) (x_ledger x').
Proof. intros Hp Hrun. unfold exec_split in Hrun. inv_escrow. by eapply split_respects. Qed.

Lemma pay_verdict_respects p c a f o (x x' : exec L) :
  foreign p → pay_verdict c a f o x = Ok x' → ledger_respects p (x_ledger x) (x_ledger x').
Proof.
  intros Hp Hrun. unfold pay_verdict in Hrun. destruct o; inv_escrow;
    eauto using release_funds_respects, unwind_respects, exec_split_respects.
Qed.

Lemma execute_respects p c a s s' :
  foreign p → handle_execute_dispute_outcome c a s = Ok s' →
  ledger_respects p (es_ledger s) (es_ledger s').
Proof.
  intros Hp Hrun. unfold handle_execute_dispute_outcome in Hrun.
  apply bind_Ok in Hrun as ([x f] & Hl & Hrun). apply bind_Ok in Hrun as (x' & Hrun & ?). inv_ok.
  assert (x_ledger x = es_ledger s) as <- by (unfold load_exec in Hl; by inv_escrow).
  simpl. unfold execute_outcome in Hrun. apply bind_Ok in Hrun as (_ & _ & Hrun).
  destruct (tally (x_case x)) as [[o|] n].
  - apply bind_Ok in Hrun as (w & _ & Hrun). apply bind_Ok in Hrun as ([x1 [rp rf]] & Hs & Hrun).
    apply bind_Ok in Hrun as (x2 & Hpv & ?). inv_ok. simpl.
    eapply ledger_respects_trans; [by eapply settle_deposit_respects|by eapply pay_verdict_respects].
  - unfold handle_undecided_round in Hrun. apply bind_Ok in Hrun as (r & _ & Hrun).
    apply bind_Ok in Hrun as (pub & _ & Hrun). case_decide.
    + apply bind_Ok in Hrun as (d' & _ & ?). inv_ok. apply ledger_respects_refl.
    + apply bind_Ok in Hrun as ([x1 [rp rf]] & Hs & Hrun).
      apply bind_Ok in Hrun as (x2 & Hpv & ?). inv_ok. simpl.
      apply (settle_deposit_respects p) in Hs; [|done].
      eapply ledger_respects_trans; [exact Hs|by eapply exec_split_respects].
Qed.

Lemma unwind_reservation_respects p s te mint e v s' :
  foreign p → unwind_reservation s te mint e v = Ok s' → ledger_respects p (es_ledger s) (es_ledger s').
Proof.
  intros Hp Hrun. unfold unwind_reservation in Hrun. apply bind_Ok in Hrun as ([v' l'] & Hl & ?).
  inv_ok. simpl. case_decide; [by eapply unwind_respects|]. inv_run. apply ledger_respects_refl.
Qed.

Lemma process_respects p c sv i s s' :
  foreign p → signed (escrow_signer i) → process c sv i s = Ok s' →
  ledger_respects p (es_ledger s) (es_ledger s').
Proof.
  intros Hp Hsig Hrun. destruct i; simpl in Hrun.
  - unfold handle_initialize_fee_config in Hrun. inv_escrow. auto with frame.
  - unfold handle_update_fee_config in Hrun. inv_escrow. auto with frame.
  - unfold handle_initialize_arbitration_pool in Hrun. inv_escrow. simpl. auto with frame.
  - unfold handle_publish_arbitrator_pool_size in Hrun. inv_escrow. auto with frame.
  - unfold handle_create_liquidity_vault in Hrun. inv_escrow. simpl. auto with frame.
  - unfold handle_deposit_liquidity in Hrun. inv_escrow. simpl.
    eapply transfer_respects; [done|]. by apply wallet_not_derived, Hsig.
  - unfold handle_reserve_liquidity in Hrun. inv_escrow. auto with frame.
  - unfold handle_withdraw_liquidity in Hrun. inv_escrow. simpl. auto with frame.
  - unfold handle_charge_ad_listing_fee in Hrun. inv_escrow. simpl.
    eapply pay_all_respects; [done|auto with frame].
  - unfold handle_create_trade_escrow in Hrun. inv_escrow. simpl. auto with frame.
  - unfold handle_fund_trade_escrow in Hrun. inv_escrow. simpl. auto with frame.
  - unfold handle_approve_settlement in Hrun. inv_escrow. auto with frame.
  - unfold handle_release_escrow in Hrun. inv_escrow. simpl. by eapply release_funds_respects.
  - unfold handle_cancel_reservation in Hrun. inv_escrow. by eapply unwind_reservation_respects.
  - unfold handle_expire_reservation in Hrun. inv_escrow. by eapply unwind_reservation_respects.
  - unfold handle_open_dispute_case in Hrun. inv_escrow.
    match goal with Ht : (if decide (0 < _) then take_deposit _ _ _ _ _ else _) = Ok (_, ?l') |- _ =>
      assert (ledger_respects p (es_ledger s) l')
        by (case_decide; [by eapply take_deposit_respects|inv_ok; apply ledger_respects_refl]) end.
    simpl. by case_decide.
  - unfold handle_commit_dispute_vote in Hrun. inv_escrow. auto with frame.
  - unfold handle_reveal_dispute_vote in Hrun. inv_escrow. auto with frame.
  - by eapply execute_respects.
  - unfold handle_claim_arbitration_reward in Hrun. inv_escrow. simpl. auto with frame.
  - unfold handle_top_up_arbitration_deposit in Hrun. inv_escrow. simpl.
    by eapply take_deposit_respects.
  - unfold handle_absorb_stake_recovery in Hrun. inv_escrow. auto with frame.
Qed.
End escrow.

Section staking.
Context {L : Type} `{TokenLedger L} `{Hashing}.
Implicit Types (s : staking_state L) (l : L) (c : chain).

Lemma staking_respects p c i s s' :
  p ≠ STAKING → signed (staking_signer i) → Staking.process c i s = Ok s' →
  ledger_respects p (st_ledger s) (st_ledger s').
Proof.
  intros Hp Hsig Hrun.
  assert (derived_by p staking_config_key = false) as Hcfg by (by apply (derived_once p STAKING)).
  destruct i; simpl in Hrun.
  - unfold handle_initialize_staking_config in Hrun. inv_staking. simpl.
    eapply ledger_respects_trans; (eapply create_respects; [done|by apply (derived_once p STAKING)]).
  - unfold handle_update_staking_config in Hrun. inv_staking. apply ledger_respects_refl.
  - unfold handle_initialize_stake_account in Hrun. inv_staking. apply ledger_respects_refl.
  - unfold handle_stake in Hrun. inv_staking. simpl.
    eapply transfer_respects; [done|]. by apply wallet_not_derived, Hsig.
  - unfold handle_request_unstake in Hrun. inv_staking. apply ledger_respects_refl.
  - unfold handle_withdraw_unstaked in Hrun. inv_staking. by eapply transfer_respects.
  - unfold handle_slash in Hrun. inv_staking. simpl.
    match goal with Ht : (if decide (0 < ?q) then _ else _) = Ok _ |- _ => revert Ht end.
    case_decide; intros Ht; inv_run; [by eapply transfer_respects|apply ledger_respects_refl].
  - unfold handle_fund_rewards_vault in Hrun. inv_staking. simpl.
    eapply transfer_respects; [done|]. by apply wallet_not_derived, Hsig.
  - unfold handle_distribute_reward in Hrun. inv_staking. apply ledger_respects_refl.
  - unfold handle_claim_rewards in Hrun. inv_staking. by eapply transfer_respects.
  - unfold handle_recover_stake_shortfall in Hrun. inv_staking. by eapply transfer_respects.
Qed.
End staking.
