(* ===== verification/System.v ===== *)
(** * System: the escrow and staking programs on one chain

    The two programs share the token ledger and read each other's accounts:
    escrow reads stake accounts, the staking configuration and recovery
    receipts; staking reads escrow's recovery claims, as bytes.  Here those
    reads are the other program's actual state, so what each program assumes
    of its environment is proved instead of assumed. *)

From S2P Require Import Prelude Runtime Shared StakingState Staking StakingInv.
From S2P Require Import EscrowState Fees Trade Dispute Escrow CaseInv EscrowInv TradeInv DisputeInv.
From S2P Require Import ExecuteInv EscrowSafety Frame.

Record system (L : Type) := mkSystem {
  sy_escrow : escrow_state L;
  sy_staking : staking_state L;
}.
Arguments mkSystem {L}.
Arguments sy_escrow {L}.
Arguments sy_staking {L}.

Section system.
Context {L : Type} `{TokenLedger L} `{Hashing}.
Implicit Types (es : escrow_state L) (st : staking_state L) (y : system L) (l : L) (c : chain).

(** What escrow reads of the staking program. *)
Definition staking_view_of st : staking_view :=
  mkView (st_config st) (st_accounts st) (st_receipts st).

(** A recovery claim as Anchor stores it, fields in declaration order. *)
Definition encode_claim (r : StakeRecoveryClaim) (bump : Z) : list Z :=
  anchor_discriminator "StakeRecoveryClaim" ++ key_bytes (rc_merchant r) ++ key_bytes (rc_mint r)
    ++ to_le 8 (rc_owed_total r) ++ to_le 8 (rc_credited_total r) ++ to_le 4 (rc_case_count r) ++ [bump].

(** What staking finds at the address of a claim; the bump is not read. *)
Definition claim_info es (m mint : pubkey) : account_info :=
  match es_claims es !! recovery_claim_key m mint with
  | Some r => mkInfo ESCROW (encode_claim r 0)
  | None => empty_info
  end.

Definition chain_reads c es : Prop :=
  ∀ m mint, info_at c (recovery_claim_key m mint) = claim_info es m mint.

(** A transaction of either program, or anything the other programs of the
    chain do to the ledger. *)
Inductive sys_step : Z * system L → Z * system L → Prop :=
  | sys_escrow t c i y es' :
      t ≤ now c → i64 (now c) → Escrow.ix_typed i → signed (escrow_signer i) →
      Escrow.process c (staking_view_of (sy_staking y)) i (sy_escrow y) = Ok es' →
      sys_step (t, y) (now c, mkSystem es' (sy_staking y <| st_ledger := es_ledger es' |>))
  | sys_staking t c i y st' :
      t ≤ now c → i64 (now c) → Staking.ix_typed i → signed (staking_signer i) →
      chain_reads c (sy_escrow y) → Staking.process c i (sy_staking y) = Ok st' →
      sys_step (t, y) (now c, mkSystem (sy_escrow y <| es_ledger := st_ledger st' |>) st')
  | sys_ledger t t' y l' :
      t ≤ t' → ledger_respects ESCROW (st_ledger (sy_staking y)) l' →
      ledger_respects STAKING (st_ledger (sy_staking y)) l' →
      sys_step (t, y) (t', mkSystem (sy_escrow y <| es_ledger := l' |>) (sy_staking y <| st_ledger := l' |>)).

Definition sys_init l : system L := mkSystem (escrow_init l) (staking_init l).

Definition sys_reachable (w : Z * system L) : Prop :=
  ∃ t l, account_of l arbitration_pool_key = None ∧ steps sys_step (t, sys_init l) w.

Record sys_inv (w : Z * system L) : Prop := {
  si_escrow : world_inv (w.1, sy_escrow w.2);
  si_staking : staking_inv (sy_staking w.2);
  si_ledger : es_ledger (sy_escrow w.2) = st_ledger (sy_staking w.2);
}.

Lemma view_of_typed st : staking_inv st → view_typed (staking_view_of st).
Proof.
  intros Hinv. split; simpl.
  - intros k a Ha. by destruct (inv_accounts _ Hinv _ _ Ha) as [_ [? _]].
  - intros k r Hr. by destruct (inv_receipts _ Hinv _ _ Hr).
Qed.

(** A step of the system is a step of each program. *)
Lemma sys_step_escrow w w' :
  sys_inv w → sys_step w w' → escrow_step (w.1, sy_escrow w.2) (w'.1, sy_escrow w'.2).
Proof.
  intros [_ Hst Hl] Hstep. destruct Hstep as [t c i y es' Ht Hn Hty Hs Hrun|t c i y st' Ht Hn Hty Hs Hr Hrun|t t' y l' Ht Hpe Hps];
    simpl in *.
  - eapply step_ix; [done|done|by apply view_of_typed|done|done].
  - apply step_ledger; [done|]. rewrite Hl. by eapply staking_respects.
  - apply step_ledger; [done|]. by rewrite Hl.
Qed.

Lemma sys_step_staking w w' :
  sys_inv w → sys_step w w' → staking_step (sy_staking w.2) (sy_staking w'.2).
Proof.
  intros [_ Hst Hl] Hstep. destruct Hstep as [t c i y es' Ht Hn Hty Hs Hrun|t c i y st' Ht Hn Hty Hs Hr Hrun|t t' y l' Ht Hpe Hps];
    simpl in *.
  - apply Staking.step_ledger. rewrite <-Hl. by eapply process_respects.
  - by eapply Staking.step_ix.
  - by apply Staking.step_ledger.
Qed.

Lemma sys_step_ledger w w' :
  sys_step w w' → es_ledger (sy_escrow w'.2) = st_ledger (sy_staking w'.2).
Proof. by intros []. Qed.

Lemma sys_step_inv w w' : sys_inv w → sys_step w w' → sys_inv w'.
Proof.
  intros Hinv Hstep. split.
  - eapply escrow_step_inv; [apply (si_escrow _ Hinv)|by apply sys_step_escrow].
  - eapply staking_step_inv; [apply (si_staking _ Hinv)|by apply sys_step_staking].
  - by eapply sys_step_ledger.
Qed.

Lemma sys_init_inv t l : account_of l arbitration_pool_key = None → sys_inv (t, sys_init l).
Proof.
  intros Hp. split; simpl; [by apply escrow_init_inv|apply staking_init_inv|done].
Qed.

Lemma sys_reachable_inv w : sys_reachable w → sys_inv w.
Proof.
  intros (t & l & Hp & Hsteps). eapply (steps_invariant _ sys_inv); [|done|by apply sys_init_inv].
  intros ? ?. apply sys_step_inv.
Qed.

(** What holds of the reachable states of a program alone holds of it in the
    system. *)
Lemma sys_steps_escrow w w' :
  sys_inv w → steps sys_step w w' → steps escrow_step (w.1, sy_escrow w.2) (w'.1, sy_escrow w'.2).
Proof.
  intros Hinv Hsteps. induction Hsteps as [w|w w1 w2 Hsteps IH Hstep]; [apply steps_refl|].
  eapply steps_snoc; [by apply IH|]. apply sys_step_escrow; [|done].
  eapply (steps_invariant _ sys_inv); [|done|done]. intros ? ?. apply sys_step_inv.
Qed.

Lemma sys_reachable_escrow t y : sys_reachable (t, y) → escrow_reachable (t, sy_escrow y).
Proof.
  intros (t0 & l & Hp & Hsteps). exists t0, l. split; [done|].
  apply (sys_steps_escrow (t0, sys_init l) (t, y)); [by apply sys_init_inv|done].
Qed.

Lemma sys_steps_staking w w' :
  sys_inv w → steps sys_step w w' → steps staking_step (sy_staking w.2) (sy_staking w'.2).
Proof.
  intros Hinv Hsteps. induction Hsteps as [w|w w1 w2 Hsteps IH Hstep]; [apply steps_refl|].
  eapply steps_snoc; [by apply IH|]. apply sys_step_staking; [|done].
  eapply (steps_invariant _ sys_inv); [|done|done]. intros ? ?. apply sys_step_inv.
Qed.

Lemma sys_reachable_staking t y :
  sys_reachable (t, y) → ∃ l, steps staking_step (staking_init l) (sy_staking y).
Proof.
  intros (t0 & l & Hp & Hsteps). exists l.
  apply (sys_steps_staking (t0, sys_init l) (t, y)); [by apply sys_init_inv|done].
Qed.
End system.
