(* ===== verification/Relay.v ===== *)
(** * Relay: the debt the two programs keep between them

    Escrow publishes what a merchant owes, staking publishes what it has
    recovered, escrow records what it has credited.  The three counters agree
    across the programs: credited never leads recovered, recovered never leads
    owed. *)

From S2P Require Import Prelude Runtime Shared StakingState Staking StakingInv.
From S2P Require Import EscrowState Fees Trade Dispute Escrow CaseInv EscrowInv TradeInv DisputeInv.
From S2P Require Import ExecuteInv EscrowSafety Frame System.

Section relay.
Context {L : Type} `{TokenLedger L} `{Hashing}.
Implicit Types (es : escrow_state L) (st : staking_state L) (y : system L) (l : L) (c : chain).

(** ** Reading a claim's bytes *)

Lemma encode_claim_length (r : StakeRecoveryClaim) bump : length (encode_claim r bump) = 93%nat.
Proof.
  unfold encode_claim.
  by rewrite !length_app, anchor_discriminator_length, !key_bytes_length, !to_le_length.
Qed.

Lemma encode_claim_fields (r : StakeRecoveryClaim) bump :
  u64 (rc_owed_total r) →
  take 8 (encode_claim r bump) = anchor_discriminator "StakeRecoveryClaim" ∧
  slice CLAIM_MERCHANT_OFFSET 32 (encode_claim r bump) = key_bytes (rc_merchant r) ∧
  slice CLAIM_MINT_OFFSET 32 (encode_claim r bump) = key_bytes (rc_mint r) ∧
  from_le (slice CLAIM_OWED_TOTAL_OFFSET 8 (encode_claim r bump)) = rc_owed_total r.
Proof.
  intros Ho. unfold encode_claim, CLAIM_OWED_TOTAL_OFFSET, CLAIM_MINT_OFFSET, CLAIM_MERCHANT_OFFSET.
  pose proof (anchor_discriminator_length "StakeRecoveryClaim") as Hd.
  set (d := anchor_discriminator "StakeRecoveryClaim") in *.
  split_and!.
  - by rewrite take_app_length'.
  - rewrite slice_app_r by done. by rewrite take_app_length' by (by rewrite key_bytes_length).
  - rewrite (app_assoc d), slice_app_r by (by rewrite length_app, Hd, key_bytes_length).
    by rewrite take_app_length' by (by rewrite key_bytes_length).
  - rewrite (app_assoc d), (app_assoc (d ++ _)), slice_app_r
      by (by rewrite !length_app, Hd, !key_bytes_length).
    rewrite take_app_length' by (by rewrite to_le_length). rewrite from_to_le; [done|]. simpl. ilia.
Qed.

Lemma read_claim_encode (r : StakeRecoveryClaim) bump :
  anchor_discriminator "StakeRecoveryClaim" = STAKE_RECOVERY_CLAIM_DISCRIMINATOR →
  u64 (rc_owed_total r) →
  read_stake_recovery_claim (mkInfo ESCROW (encode_claim r bump)) (rc_merchant r) (rc_mint r)
  = Ok (Some (mkClaimView (key_bytes (rc_merchant r)) (key_bytes (rc_mint r)) (rc_owed_total r))).
Proof.
  intros Hdisc Ho. destruct (encode_claim_fields r bump Ho) as (Hd & Hm & Hi & Hw).
  unfold read_stake_recovery_claim. cbn [info_data info_owner].
  rewrite decide_False by (intros Hnil%(f_equal length); by rewrite encode_claim_length in Hnil).
  rewrite Hd, Hm, Hi, Hw. cbn [cv_merchant cv_mint]. rewrite !require_true; try done.
  by rewrite encode_claim_length; vm_compute; lia.
Qed.

(** Whatever staking reads of a claim is escrow's counter. *)
Lemma read_claim_owed es m mint view :
  escrow_inv es → read_stake_recovery_claim (claim_info es m mint) m mint = Ok view →
  default 0 (cv_owed_total <$> view) =
  default 0 (rc_owed_total <$> es_claims es !! recovery_claim_key m mint).
Proof.
  intros Hinv. unfold claim_info. destruct (es_claims es !! _) as [r|] eqn:Hr.
  - destruct (ei_claim _ Hinv _ _ Hr) as (_ & Ho & _).
    destruct (encode_claim_fields r 0 Ho) as (_ & _ & _ & Hw). unfold read_stake_recovery_claim.
    cbn [info_data info_owner]. case_decide as Hnil.
    { apply (f_equal length) in Hnil. by rewrite encode_claim_length in Hnil. }
    intros Hrun. inv_run. simpl. done.
  - intros Hrun. unfold read_stake_recovery_claim in Hrun. simpl in Hrun. by inv_ok.
Qed.

Lemma read_claim_total es m mint :
  anchor_discriminator "StakeRecoveryClaim" = STAKE_RECOVERY_CLAIM_DISCRIMINATOR →
  escrow_inv es → ∃ view, read_stake_recovery_claim (claim_info es m mint) m mint = Ok view.
Proof.
  intros Hdisc Hinv. unfold claim_info. destruct (es_claims es !! _) as [r|] eqn:Hr.
  - destruct (ei_claim _ Hinv _ _ Hr) as ([= -> ->] & Ho & _). eexists. by apply read_claim_encode.
  - by eexists.
Qed.

(** ** Escrow's side *)

(** An instruction that touches no claim. *)
Lemma process_claims_same c sv i es es' :
  process c sv i es = Ok es' →
  match i with
  | OpenDisputeCase _ _ _ _ _ | AbsorbStakeRecovery _ _ => True
  | _ => es_claims es' = es_claims es
  end.
Proof.
  destruct i; simpl; try done; intros Hrun.
  - unfold handle_initialize_fee_config in Hrun. by inv_escrow.
  - unfold handle_update_fee_config in Hrun. by inv_escrow.
  - unfold handle_initialize_arbitration_pool in Hrun. by inv_escrow.
  - unfold handle_publish_arbitrator_pool_size in Hrun. by inv_escrow.
  - unfold handle_create_liquidity_vault in Hrun. by inv_escrow.
  - unfold handle_deposit_liquidity in Hrun. by inv_escrow.
  - unfold handle_reserve_liquidity in Hrun. by inv_escrow.
  - unfold handle_withdraw_liquidity in Hrun. by inv_escrow.
  - unfold handle_charge_ad_listing_fee in Hrun. by inv_escrow.
  - unfold handle_create_trade_escrow in Hrun. by inv_escrow.
  - unfold handle_fund_trade_escrow in Hrun. by inv_escrow.
  - unfold handle_approve_settlement in Hrun. by inv_escrow.
  - unfold handle_release_escrow in Hrun. by inv_escrow.
  - unfold handle_cancel_reservation, unwind_reservation in Hrun. by inv_escrow.
  - unfold handle_expire_reservation, unwind_reservation in Hrun. by inv_escrow.
  - unfold handle_commit_dispute_vote in Hrun. by inv_escrow.
  - unfold handle_reveal_dispute_vote in Hrun. by inv_escrow.
  - unfold handle_execute_dispute_outcome in Hrun. by inv_escrow.
  - unfold handle_claim_arbitration_reward in Hrun. by inv_escrow.
  - unfold handle_top_up_arbitration_deposit in Hrun. by inv_escrow.
Qed.

Definition owed es (k : pubkey) : Z := default 0 (rc_owed_total <$> es_claims es !! k).
Definition credited es (k : pubkey) : Z := default 0 (rc_credited_total <$> es_claims es !! k).
Definition recovered (receipts : gmap pubkey StakeRecoveryReceipt) (m : pubkey) : Z :=
  default 0 (recovered_total <$> receipts !! recovery_receipt_key m).

(** The receipt a recovery starts from: an absent one reads as zero. *)
Definition recovered_receipt (receipts : gmap pubkey StakeRecoveryReceipt) (m : pubkey) : Z :=
  recovered_total (default (mkReceipt default_key 0 0) (receipts !! recovery_receipt_key m)).

Lemma recovered_receipt_total receipts m : recovered_receipt receipts m = recovered receipts m.
Proof. unfold recovered_receipt, recovered. by destruct (receipts !! _). Qed.

(** Unbonding stake first, then active stake, together reach as far as both. *)
Lemma recovery_split due u n :
  0 ≤ due → 0 ≤ u → 0 ≤ n →
  Z.min due u + Z.min (saturating_sub_u64 due (Z.min due u)) n = Z.min due (u + n).
Proof. intros. unfold saturating_sub_u64. lia. Qed.

Lemma owed_nonneg es k : escrow_inv es → 0 ≤ owed es k.
Proof.
  intros Hinv. unfold owed. destruct (es_claims es !! k) as [r|] eqn:Hr; simpl; [|lia].
  destruct (ei_claim _ Hinv _ _ Hr) as (_ & [? _] & _). lia.
Qed.

(** Debts only grow, and what is credited is what staking recovered. *)
Lemma process_claims c sv i es es' m mint :
  escrow_inv es → process c sv i es = Ok es' →
  owed es (recovery_claim_key m mint) ≤ owed es' (recovery_claim_key m mint) ∧
  (credited es' (recovery_claim_key m mint) = credited es (recovery_claim_key m mint) ∨
   credited es' (recovery_claim_key m mint) = recovered (sv_receipts sv) m).
Proof.
  intros Hinv Hrun. pose proof (process_claims_same _ _ _ _ _ Hrun) as Hsame.
  destruct i; try (unfold owed, credited; rewrite Hsame; auto with lia); clear Hsame; simpl in Hrun.
  - apply open_dispute_case_Ok in Hrun as (e & f & v & pool & v' & l' & r & seed & ev &
      -> & He & Hsig & Hst & Hf & Hv & Hpool & Hmint & Hcw & Hrw & Hsf & Htake & Hrec & ->).
    clear Htake. unfold owed, credited. simpl. rewrite lookup_insert. case_decide as Hk; [|auto with lia].
    injection Hk as <- <-. unfold record_shortfall in Hrec.
    case_decide; inv_run; destruct (es_claims es !! _) as [r0|] eqn:Hr0; simpl; auto with lia.
  - unfold handle_absorb_stake_recovery in Hrun. inv_escrow. unfold owed, credited. simpl.
    rewrite lookup_insert. case_decide as Hk; [|auto with lia].
    match goal with Hc : es_claims es !! ?ck = Some ?r, He : ?ck = recovery_claim_key _ _ |- _ =>
      rewrite He in *; injection Hk as <- <-; rewrite Hc end. simpl.
    split; [lia|right]. unfold recovered.
    match goal with Hrc : sv_receipts sv !! _ = Some _ |- _ => rewrite Hrc end. simpl.
    unfold absorbable, saturating_sub_u64 in *. lia.
Qed.

(** ** Staking's side *)

Lemma recovered_nonneg st m : staking_inv st → 0 ≤ recovered (st_receipts st) m.
Proof.
  intros Hinv. unfold recovered. destruct (st_receipts st !! _) as [r|] eqn:Hr; simpl; [|lia].
  destruct (inv_receipts _ Hinv _ _ Hr) as [_ [? _]]. lia.
Qed.

(** What a withdrawal reads of its owner's receipt. *)
Lemma receipt_read st m :
  staking_inv st → recovered_total_of (receipt_info st m) m = Ok (recovered (st_receipts st) m).
Proof.
  intros Hinv. unfold receipt_info, recovered. destruct (st_receipts st !! _) as [r|] eqn:Hr.
  - destruct (inv_receipts _ Hinv _ _ Hr) as [[= ->] Hu]. by apply recovered_total_of_encode.
  - apply recovered_total_of_empty.
Qed.

(** An instruction that touches no receipt. *)
Lemma staking_receipts_same c i st st' :
  Staking.process c i st = Ok st' →
  match i with
  | RecoverStakeShortfall _ _ => True
  | _ => st_receipts st' = st_receipts st
  end.
Proof.
  destruct i; simpl; try done; intros Hrun.
  - unfold handle_initialize_staking_config in Hrun. by inv_staking.
  - unfold handle_update_staking_config in Hrun. by inv_staking.
  - unfold handle_initialize_stake_account in Hrun. by inv_staking.
  - unfold handle_stake in Hrun. by inv_staking.
  - unfold handle_request_unstake in Hrun. by inv_staking.
  - unfold handle_withdraw_unstaked in Hrun. by inv_staking.
  - unfold handle_slash in Hrun. by inv_staking.
  - unfold handle_fund_rewards_vault in Hrun. by inv_staking.
  - unfold handle_distribute_reward in Hrun. by inv_staking.
  - unfold handle_claim_rewards in Hrun. by inv_staking.
Qed.

(** Recovery only grows, and stops at what the claim says is owed. *)
Lemma staking_receipts c i st st' m :
  Staking.process c i st = Ok st' →
  recovered (st_receipts st) m ≤ recovered (st_receipts st') m ∧
  (recovered (st_receipts st') m = recovered (st_receipts st) m ∨
   ∃ cfg view, st_config st = Some cfg ∧
     read_stake_recovery_claim (info_at c (recovery_claim_key m (sc_mint cfg))) m (sc_mint cfg) = Ok view ∧
     recovered (st_receipts st') m ≤ default 0 (cv_owed_total <$> view)).
Proof.
  intros Hrun. pose proof (staking_receipts_same _ _ _ _ Hrun) as Hsame.
  destruct i; try (rewrite Hsame; auto with lia); clear Hsame; simpl in Hrun.
  unfold handle_recover_stake_shortfall in Hrun. inv_staking. unfold recovered. simpl.
  rewrite lookup_insert. case_decide as Hk; [|auto with lia]. injection Hk as <-. simpl.
  unfold outstanding, saturating_sub_u64 in *.
  destruct (st_receipts st !! _) as [r|] eqn:Hr; simpl in *; (split; [lia|right]);
    do 2 eexists; (split; [done|]); (split; [done|]); lia.
Qed.

Lemma staking_config_kept c i st st' cfg :
  Staking.process c i st = Ok st' → st_config st = Some cfg →
  ∃ cfg', st_config st' = Some cfg' ∧ sc_mint cfg' = sc_mint cfg.
Proof.
  destruct i; simpl; intros Hrun Hcfg.
  - unfold handle_initialize_staking_config in Hrun. inv_staking. congruence.
  - unfold handle_update_staking_config in Hrun. inv_staking. simplify_eq. simpl. eauto.
  - unfold handle_initialize_stake_account in Hrun. inv_staking. eauto.
  - unfold handle_stake in Hrun. inv_staking. eauto.
  - unfold handle_request_unstake in Hrun. inv_staking. eauto.
  - unfold handle_withdraw_unstaked in Hrun. inv_staking. eauto.
  - unfold handle_slash in Hrun. inv_staking. eauto.
  - unfold handle_fund_rewards_vault in Hrun. inv_staking. eauto.
  - unfold handle_distribute_reward in Hrun. inv_staking. eauto.
  - unfold handle_claim_rewards in Hrun. inv_staking. eauto.
  - unfold handle_recover_stake_shortfall in Hrun. inv_staking. eauto.
Qed.

(** ** Together *)

Record relay_ok y : Prop := {
  ro_credited : ∀ m mint,
    credited (sy_escrow y) (recovery_claim_key m mint) ≤ recovered (st_receipts (sy_staking y)) m;
  ro_recovered : ∀ m, recovered (st_receipts (sy_staking y)) m ≤ 0 ∨
    ∃ cfg, st_config (sy_staking y) = Some cfg ∧
      recovered (st_receipts (sy_staking y)) m ≤
      owed (sy_escrow y) (recovery_claim_key m (sc_mint cfg));
}.

Lemma relay_step w w' : sys_inv w → relay_ok w.2 → sys_step w w' → relay_ok w'.2.
Proof.
  intros [[He _] Hst _] [Hc Hr] Hstep.
  destruct Hstep as [t c i y es' Ht Hn Hty Hs Hrun|t c i y st' Ht Hn Hty Hs Hrd Hrun|t t' y l' Ht Hpe Hps];
    simpl in *; [| |done].
  - split; simpl.
    + intros m mint. destruct (process_claims _ _ _ _ _ m mint He Hrun) as [_ [->| ->]]; [apply Hc|done].
    + intros m. destruct (Hr m) as [?|(cfg & Hcfg & ?)]; [auto|right]. exists cfg. split; [done|].
      destruct (process_claims _ _ _ _ _ m (sc_mint cfg) He Hrun). lia.
  - split; simpl.
    + intros m mint. specialize (Hc m mint). destruct (staking_receipts _ _ _ _ m Hrun). unfold credited in *. simpl. lia.
    + intros m. destruct (staking_receipts _ _ _ _ m Hrun) as [_ [->|(cfg & view & Hcfg & Hread & Hle)]].
      * destruct (Hr m) as [?|(cfg & Hcfg & ?)]; [auto|right].
        destruct (staking_config_kept _ _ _ _ _ Hrun Hcfg) as (cfg' & ? & Hm). rewrite <-Hm in *. eauto.
      * right. destruct (staking_config_kept _ _ _ _ _ Hrun Hcfg) as (cfg' & ? & Hm).
        exists cfg'. split; [done|]. rewrite Hrd in Hread. rewrite <-Hm in *.
        apply read_claim_owed in Hread as Ho; [|done]. unfold owed. simpl. lia.
Qed.

Lemma sys_reachable_relay w : sys_reachable w → relay_ok w.2.
Proof.
  intros (t & l & Hp & Hsteps).
  enough (sys_inv w ∧ relay_ok w.2) by tauto.
  eapply (steps_invariant _ (λ w, sys_inv w ∧ relay_ok w.2)); [|done|].
  - intros a b [Ha Hr] Hstep. split; [by eapply sys_step_inv|by eapply relay_step].
  - split; [by apply sys_init_inv|]. split; [done|]. intros m. left. done.
Qed.
End relay.
