(* ===== verification/Scenario.v ===== *)
(** * Scenario: a concrete run of the escrow program

    A ledger, a clock and a hash to evaluate the handlers on, and a runner that
    turns a list of transactions into a path of the transition system.  The
    witnesses of the theorems are evaluated here: one trade settled by its
    parties, one decided by arbitrators. *)

From S2P Require Import Prelude Runtime Shared StakingState EscrowState Fees Trade.
From S2P Require Import Dispute Escrow CaseInv EscrowInv TradeInv DisputeInv ExecuteInv.
From S2P Require Import EscrowSafety.
Import EscrowError.

(** ** A hash to compute with *)

Definition toy_sha256 (m : list Z) : list Z :=
  if decide (m = bytes_of "account:" ++ bytes_of "StakeRecoveryClaim")
  then STAKE_RECOVERY_CLAIM_DISCRIMINATOR ++ replicate 24 0
  else to_le 32 (foldr (λ b acc, b + 257 * acc) 1 m).

#[export] Program Instance toy_hashing : Hashing := {|
  sha256 := toy_sha256;
  key_bytes k := to_le 32 (Z.pos (encode k));
|}.
Next Obligation. intros m. unfold toy_sha256. case_decide; [done|apply to_le_length]. Qed.
Next Obligation.
  intros m. unfold toy_sha256. case_decide; [|apply to_le_bytes].
  apply (bool_decide_unpack _). by vm_compute.
Qed.
Next Obligation. intros k. apply to_le_length. Qed.

(** ** Running transactions *)

Definition tx : Type := chain * staking_view * escrow_ix.

#[export] Instance ix_typed_dec (i : escrow_ix) : Decision (ix_typed i).
Proof. destruct i; simpl; unfold fee_params_typed; apply _. Defined.

Fixpoint run_txs (txs : list tx) (s : escrow_state simple_ledger)
    : eres (escrow_state simple_ledger) :=
  match txs with
  | [] => Ok s
  | (c, sv, i) :: rest => s ← process c sv i s; run_txs rest s
  end.

(** Times do not go back, and every transaction is well typed. *)
Fixpoint txs_ok (t : Z) (txs : list tx) : bool :=
  match txs with
  | [] => true
  | (c, sv, i) :: rest =>
      bool_decide (t ≤ now c) && bool_decide (i64 (now c)) && bool_decide (ix_typed i)
      && bool_decide (map_Forall (λ _ a, u64 (sa_amount a)) (sv_accounts sv))
      && bool_decide (map_Forall (λ _ r, u64 (recovered_total r)) (sv_receipts sv))
      && txs_ok (now c) rest
  end.

Definition last_time (t : Z) (txs : list tx) : Z := default t (now ∘ fst ∘ fst <$> last txs).

Lemma last_time_cons t (x : tx) txs : last_time t (x :: txs) = last_time (now x.1.1) txs.
Proof.
  unfold last_time. destruct txs; [done|]. rewrite last_cons_cons.
  destruct (last _) eqn:Hl; [done|]. by apply last_None in Hl.
Qed.

Lemma run_txs_steps t txs s s' :
  txs_ok t txs = true → run_txs txs s = Ok s' →
  steps escrow_step (t, s) (last_time t txs, s').
Proof.
  revert t s. induction txs as [|[[c sv] i] txs IH]; intros t s Hok Hrun; simpl in *.
  - inv_ok. apply steps_refl.
  - apply bind_Ok in Hrun as (s1 & Hs1 & Hrun).
    rewrite !andb_true_iff, !bool_decide_eq_true in Hok. destruct Hok as [[[[[Ht Hn] Hi] Ha] Hr] Hok].
    rewrite last_time_cons. cbn [fst].
    eapply steps_trans; [|by apply IH]. apply steps_one. by apply (step_ix t c sv i s s1).
Qed.

(** ** The cast *)

Definition admin : pubkey := Key 1.
Definition merchant : pubkey := Key 2.
Definition buyer : pubkey := Key 3.
Definition OPEN : pubkey := Key 20.
Definition USDC : pubkey := default (Key 0) (DEFAULT_SETTLEMENT_MINTS !! 1%nat).
Definition arb (n : N) : pubkey := Key (100 + n).
Definition treas : treasuries := mkTreasuries (Key 31) (Key 32) (Key 33) (Key 34).

Definition holding (mint owner : pubkey) (n : Z) : token_account := mkTokenAccount mint owner n None false.

Definition ledger0 : simple_ledger := mkLedger
  (list_to_map
    [ (Key 31, holding USDC (Key 35) 0); (Key 32, holding USDC (Key 35) 0);
      (Key 33, holding USDC (Key 35) 0); (Key 34, holding USDC (Key 35) 0);
      (Key 41, holding USDC merchant 1000000); (Key 42, holding OPEN merchant 10000);
      (Key 43, holding USDC buyer 0);
      (Key 44, holding OPEN buyer 0);
      (Key 51, holding OPEN (arb 1) 0); (Key 52, holding OPEN (arb 2) 0);
      (Key 61, holding OPEN (Key 35) 0); (Key 62, holding OPEN (Key 35) 0);
      (Key 63, holding OPEN (Key 35) 0); (Key 64, holding OPEN (Key 35) 0) ])
  (list_to_map [ (USDC, 6); (OPEN, 6) ]).

(** No account of another program, one slot hash. *)
Definition at_time (t : Z) : chain :=
  mkChain t (λ _, empty_info) (to_le 8 1 ++ replicate 40 9).

Definition arb_stake (n : N) (amount : Z) : pubkey * StakeAccount :=
  (stake_account_key (arb n) Arbitrator, mkStakeAccount (arb n) Arbitrator amount 0 0 0 0 5).

Definition staking0 : staking_view := mkView
  (Some (mkStakingConfig admin OPEN (replicate 7 100) (replicate 7 86400) 1000 admin (Key 60) admin))
  (list_to_map [ arb_stake 1 1000; arb_stake 2 500; arb_stake 3 200; arb_stake 4 900 ]) ∅.

Lemma staking0_typed : view_typed staking0.
Proof.
  split.
  - apply (bool_decide_unpack (map_Forall (λ _ a, u64 (sa_amount a)) (sv_accounts staking0))).
    by vm_compute.
  - intros k r Hr. cbn [sv_receipts staking0] in Hr. by rewrite lookup_empty in Hr.
Qed.

Definition fee_params0 : fee_params := mkFeeParams 10 500 100 4000 3000 2000 1000 3600.

Definition send (t : Z) (i : escrow_ix) : tx := (at_time t, staking0, i).

Definition te7 : pubkey := trade_escrow_key 7.
Definition dk7 : pubkey := dispute_case_key 7.

(** Two vaults, a reservation and a funded escrow. *)
Definition funding : list tx :=
  [ send 10 (InitializeFeeConfig admin treas fee_params0);
    send 11 (InitializeArbitrationPool admin OPEN);
    send 12 (CreateLiquidityVault merchant USDC);
    send 13 (CreateLiquidityVault merchant OPEN);
    send 14 (DepositLiquidity merchant (Key 41) USDC 100000);
    send 15 (DepositLiquidity merchant (Key 42) OPEN 300);
    send 16 (ReserveLiquidity merchant USDC 50000);
    send 17 (CreateTradeEscrow merchant buyer USDC 7 10001 3600);
    send 18 (FundTradeEscrow merchant te7 USDC) ].

Definition salt : list Z := replicate 32 1.
Definition exec7 : exec_accounts :=
  mkExecAccounts dk7 te7 USDC (Key 43) treas OPEN (liquidity_vault_key merchant OPEN) None.

Definition commit_vote (t : Z) (n : N) (o : DisputeOutcome) : tx :=
  send t (CommitDisputeVote (arb n) dk7 (commitment_of o salt)).
Definition reveal_vote (t : Z) (n : N) (o : DisputeOutcome) : tx :=
  send t (RevealDisputeVote (arb n) dk7 o salt).

(** Three arbitrators decide for the buyer, two against one. *)
Definition voting : list tx :=
  [ send 30 (OpenDisputeCase buyer te7 OPEN 60 60);
    commit_vote 31 1 BuyerWins; commit_vote 32 2 BuyerWins; commit_vote 33 3 MerchantWins;
    reveal_vote 90 1 BuyerWins; reveal_vote 91 2 BuyerWins; reveal_vote 92 3 MerchantWins ].

Definition state_after (txs : list tx) : escrow_state simple_ledger :=
  match run_txs txs (escrow_init ledger0) with Ok s => s | Err _ => escrow_init ledger0 end.

Definition runs (txs : list tx) : bool :=
  if run_txs txs (escrow_init ledger0) is Ok _ then true else false.

Lemma state_after_run txs :
  runs txs = true → run_txs txs (escrow_init ledger0) = Ok (state_after txs).
Proof. unfold runs, state_after. by destruct (run_txs _ _). Qed.

Lemma state_after_reachable txs :
  txs_ok 0 txs = true → runs txs = true → escrow_reachable (last_time 0 txs, state_after txs).
Proof.
  intros Hok Hrun. exists 0, ledger0. split; [done|]. apply run_txs_steps; [done|].
  by apply state_after_run.
Qed.

Lemma run_txs_app a b s : run_txs (a ++ b) s = (run_txs a s ≫= run_txs b).
Proof.
  revert s. induction a as [|[[c sv] i] a IH]; intros s; [done|]. simpl.
  destruct (process c sv i s); simpl; [apply IH|done].
Qed.

(** The last transaction of a run, as a handler call. *)
Lemma state_after_snoc txs c sv i :
  runs (txs ++ [(c, sv, i)]) = true →
  process c sv i (state_after txs) = Ok (state_after (txs ++ [(c, sv, i)])).
Proof.
  intros Hrun%state_after_run. rewrite run_txs_app in Hrun.
  apply bind_Ok in Hrun as (s1 & Hs1 & Hrun). simpl in Hrun.
  apply bind_Ok in Hrun as (s2 & Hs2 & Hrun). injection Hrun as <-.
  unfold state_after at 1. by rewrite Hs1.
Qed.

(** A run that evaluates to a state leads there. *)
Ltac reachable := by apply state_after_reachable; vm_compute.

(** The votes are in; the verdict; a claimed reward. *)
Definition voted_run : list tx := funding ++ voting.
Definition resolved_run : list tx := voted_run ++ [send 200 (ExecuteDisputeOutcome exec7)].
Definition claimed_run : list tx :=
  resolved_run ++ [send 210 (ClaimArbitrationReward (arb 1) dk7 (Key 51) OPEN)].

(** A round two arbitrators joined and none revealed in, and the next round. *)
Definition silent_run : list tx :=
  funding ++ [ send 30 (OpenDisputeCase buyer te7 OPEN 60 60);
               commit_vote 31 1 BuyerWins; commit_vote 32 2 BuyerWins ].
Definition reopened_run : list tx := silent_run ++ [send 200 (ExecuteDisputeOutcome exec7)].

(** A case just opened; its bench committed; the first vote revealed. *)
Definition opened_run : list tx := funding ++ [send 30 (OpenDisputeCase buyer te7 OPEN 60 60)].
Definition committed_run : list tx :=
  opened_run ++ [commit_vote 31 1 BuyerWins; commit_vote 32 2 BuyerWins; commit_vote 33 3 MerchantWins].
Definition revealed_run : list tx := committed_run ++ [reveal_vote 90 1 BuyerWins].

(** The case of the run, wherever it has got to. *)
Definition case7 (txs : list tx) : DisputeCase :=
  default (new_case 0 te7 0 0 0 0 0 [] te7 te7 0 0) (es_cases (state_after txs) !! dk7).
Definition escrow7 (txs : list tx) : TradeEscrowVault :=
  default (mkEscrow 0 buyer buyer USDC 0 Reserved false 0 0) (es_escrows (state_after txs) !! te7).

Definition fee_after (txs : list tx) : FeeConfig :=
  default (mkFeeConfig admin 0 0 0 admin admin admin admin 0 0 0 0 0 0 0 [] 0) (es_fee (state_after txs)).

(** The protocol token listed for settlement, and a disputed trade in it. *)
Definition open_treas : treasuries := mkTreasuries (Key 61) (Key 62) (Key 63) (Key 64).
Definition open_trade : list tx :=
  [ send 10 (InitializeFeeConfig admin treas fee_params0);
    send 11 (InitializeArbitrationPool admin OPEN);
    send 12 (UpdateFeeConfig admin OPEN open_treas fee_params0 0 0 [USDC; OPEN]);
    send 13 (CreateLiquidityVault merchant OPEN);
    send 14 (DepositLiquidity merchant (Key 42) OPEN 5000);
    send 15 (ReserveLiquidity merchant OPEN 1000);
    send 16 (CreateTradeEscrow merchant buyer OPEN 8 1000 3600);
    send 17 (FundTradeEscrow merchant (trade_escrow_key 8) OPEN);
    send 18 (OpenDisputeCase buyer (trade_escrow_key 8) OPEN 60 60) ].
