(* ===== verification/Lifecycle.v ===== *)
(** * Lifecycle: what one step may do to an escrow and to a case

    The state machine of a trade escrow and of a dispute case, as relations an
    instruction's effect is shown to stay inside. *)

From S2P Require Import Prelude Runtime Shared StakingState EscrowState Fees Trade.
From S2P Require Import Dispute Escrow CaseInv EscrowInv TradeInv DisputeInv ExecuteInv.
From S2P Require Import EscrowSafety Scenario.
Import EscrowError.

(** ** Trade escrows *)

Definition finished (e : TradeEscrowVault) : Prop :=
  te_state e = Released ∨ te_state e = Cancelled.

(** The moves of one escrow, with the authority each one needs. *)
Inductive escrow_move (t : Z) (i : escrow_ix) (k : pubkey) (e : TradeEscrowVault)
    : TradeEscrowVault → Prop :=
  | mv_none : escrow_move t i k e e
  | mv_fund mint :
      i = FundTradeEscrow (te_seller e) k mint → te_state e = Reserved →
      escrow_move t i k e (e <| te_state := AwaitingFiatSettlement |>)
  | mv_approve :
      i = ApproveSettlement (te_seller e) k → te_state e = AwaitingFiatSettlement →
      escrow_move t i k e (e <| te_approved := true |>)
  | mv_release mint b tr :
      i = ReleaseEscrow k mint b tr → te_state e = AwaitingFiatSettlement → te_approved e = true →
      escrow_move t i k e (e <| te_state := Released |>)
  | mv_cancel signer mint :
      i = CancelReservation signer k mint → signer = te_buyer e ∨ signer = te_seller e →
      te_approved e = false → te_state e = Reserved ∨ te_state e = AwaitingFiatSettlement →
      escrow_move t i k e (e <| te_state := Cancelled |>)
  | mv_expire mint :
      i = ExpireReservation k mint → te_timeout_at e < t →
      te_approved e = false → te_state e = Reserved ∨ te_state e = AwaitingFiatSettlement →
      escrow_move t i k e (e <| te_state := Cancelled |>)
  | mv_dispute signer dm cw rw :
      i = OpenDisputeCase signer k dm cw rw → signer = te_buyer e ∨ signer = te_seller e →
      te_state e = AwaitingFiatSettlement → escrow_move t i k e (e <| te_state := Frozen |>)
  | mv_execute a e' :
      i = ExecuteDisputeOutcome a → xa_escrow a = k → te_state e = Frozen → same_trade e e' →
      finished e' → escrow_move t i k e e'.

Section lifecycle.
Context {L : Type} `{TokenLedger L} `{Hashing}.
Abbreviation state := (escrow_state L).
Implicit Types (s : state) (l : L) (v : LiquidityVault) (e : TradeEscrowVault)
  (d : DisputeCase) (c : chain).

(** Instructions that leave every escrow alone. *)
Lemma process_escrows c sv i s s' :
  process c sv i s = Ok s' →
  match i with
  | CreateTradeEscrow _ _ _ _ _ _ | FundTradeEscrow _ _ _ | ApproveSettlement _ _
  | ReleaseEscrow _ _ _ _ | CancelReservation _ _ _ | ExpireReservation _ _
  | OpenDisputeCase _ _ _ _ _ | ExecuteDisputeOutcome _ => True
  | _ => es_escrows s' = es_escrows s
  end.
Proof.
  destruct i; simpl; try done; intros Hrun.
  - unfold handle_initialize_fee_config in Hrun. by inv_escrow.
  - unfold handle_update_fee_config in Hrun. by inv_escrow.
  - unfold handle_initialize_arbitration_pool in Hrun. by inv_escrow.
  - unfold handle_publish_arbitrator_pool_size in Hrun. by inv_escrow.
  - unfold handle_create_liquidity_vault in Hrun. by inv_escrow.
  - unfold handle_deposit_liquidity in Hrun. by inv_escrow.
  - unfold handle_reserve_liquidity in Hrun. by inv_escrow.
  - unfold handle_withdraw_liquidity in Hrun. by inv_escrow.
  - unfold handle_charge_ad_listing_fee in Hrun. by inv_escrow.
  - unfold handle_commit_dispute_vote in Hrun. by inv_escrow.
  - unfold handle_reveal_dispute_vote in Hrun. by inv_escrow.
  - unfold handle_claim_arbitration_reward in Hrun. by inv_escrow.
  - unfold handle_top_up_arbitration_deposit in Hrun. by inv_escrow.
  - unfold handle_absorb_stake_recovery in Hrun. by inv_escrow.
Qed.

(** Writing one escrow moves that escrow only. *)
Lemma write_moves t i s te e e' k e0 :
  es_escrows s !! te = Some e → (te = k → escrow_move t i k e e') → es_escrows s !! k = Some e0 →
  ∃ e1, <[te := e']> (es_escrows s) !! k = Some e1 ∧ escrow_move t i k e0 e1.
Proof.
  intros He Hm Hk. rewrite lookup_insert. case_decide; subst; simplify_eq; eauto using escrow_move.
Qed.

Lemma unwind_moves t i s s' te mint e v k e0 :
  load_reservation s te mint = Ok (e, v) → unwind_reservation s te mint e v = Ok s' →
  (te = k → te_approved e = false → te_state e = Reserved ∨ te_state e = AwaitingFiatSettlement →
   escrow_move t i k e (e <| te_state := Cancelled |>)) →
  es_escrows s !! k = Some e0 →
  ∃ e1, es_escrows s' !! k = Some e1 ∧ escrow_move t i k e0 e1.
Proof.
  intros Hload Hrun Hm Hk. unfold load_reservation in Hload. inv_escrow.
  unfold unwind_reservation in Hrun. apply bind_Ok in Hrun as ([v' l'] & _ & Hrun). inv_ok. simpl.
  eapply write_moves; eauto.
Qed.

Lemma execute_moves c sv a s s' k e0 :
  escrow_inv s → process c sv (ExecuteDisputeOutcome a) s = Ok s' → es_escrows s !! k = Some e0 →
  ∃ e1, es_escrows s' !! k = Some e1 ∧ escrow_move (now c) (ExecuteDisputeOutcome a) k e0 e1.
Proof.
  intros Hinv Hrun Hk. apply handle_execute_Ok in Hrun as (x & x' & f & Hl & _ & Hex & ->); [|done].
  eapply (write_moves _ _ _ (xa_escrow a) (x_escrow x)); [apply Hl| |done]. intros Hte.
  destruct Hex as [o w x1 _ _ Hrf Hpo _ _|d' _ _ _ ->|reason x1 pub _ _ _ Hrf Hpo _ _]; simpl; [|apply mv_none|];
    (eapply mv_execute; [done|done|apply Hl|by eapply resolve_trade|apply Hpo]).
Qed.

Lemma process_moves c sv i s s' k e :
  escrow_inv s → process c sv i s = Ok s' → es_escrows s !! k = Some e →
  ∃ e', es_escrows s' !! k = Some e' ∧ escrow_move (now c) i k e e'.
Proof.
  intros Hinv Hrun Hk. pose proof (process_escrows _ _ _ _ _ Hrun) as Hsame.
  destruct i; try (rewrite Hsame; eauto using escrow_move); try (by eapply execute_moves);
    clear Hsame; simpl in Hrun.
  - unfold handle_create_trade_escrow in Hrun. inv_escrow. simpl.
    rewrite lookup_insert_ne by congruence. eauto using escrow_move.
  - unfold handle_fund_trade_escrow in Hrun. inv_escrow. simpl.
    eapply write_moves; [done| |done]. intros <-. eapply mv_fund; [|done]; repeat f_equal; congruence || done.
  - unfold handle_approve_settlement in Hrun. inv_escrow. simpl.
    eapply write_moves; [done| |done]. intros <-. apply mv_approve; congruence.
  - unfold handle_release_escrow in Hrun. inv_escrow. simpl.
    eapply write_moves; [done| |done]. intros <-.
    match goal with Hr : release_trade_escrow_funds _ _ _ _ _ _ _ = _ |- _ =>
      apply release_settles in Hr as [-> _]; [by eapply mv_release|by eapply ei_fee|by eapply ei_escrow] end.
  - unfold handle_cancel_reservation in Hrun. inv_escrow. eapply unwind_moves; try done.
    intros <- ? ?. by eapply mv_cancel.
  - unfold handle_expire_reservation in Hrun. inv_escrow. eapply unwind_moves; try done.
    intros <- ? ?. by eapply mv_expire.
  - apply open_dispute_case_Ok in Hrun as (e0 & f & v & pool & v' & l' & r & seed & ev &
      _ & He & Hsig & Hst & _ & _ & _ & _ & _ & _ & _ & _ & _ & ->). simpl.
    eapply write_moves; [done| |done]. intros <-. by eapply mv_dispute.
Qed.

Lemma finished_move t i k e e' : finished e → escrow_move t i k e e' → e' = e.
Proof. unfold finished. intros Hf Hm. destruct Hm; try done; naive_solver congruence. Qed.

(** ** Dispute cases *)

(** A resolved case whose verdict, votes and paid rewards are those of another. *)
Record same_verdict d d' : Prop := {
  sv_resolved : dc_resolved d' = true;
  sv_outcome : dc_outcome d' = dc_outcome d;
  sv_round : dc_round d' = dc_round d;
  sv_arbitrators : dc_arbitrators d' = dc_arbitrators d;
  sv_votes : dc_revealed_outcomes d' = dc_revealed_outcomes d;
  sv_weights : dc_weights d' = dc_weights d;
  sv_pool : dc_reward_pool d' = dc_reward_pool d;
  sv_claimed : ∀ i, dc_reward_claimed d !! i = Some true → dc_reward_claimed d' !! i = Some true;
}.

Lemma same_verdict_refl d : dc_resolved d = true → same_verdict d d.
Proof. by split. Qed.

Lemma same_verdict_trans d1 d2 d3 : same_verdict d1 d2 → same_verdict d2 d3 → same_verdict d1 d3.
Proof. intros [] []. split; try congruence. auto. Qed.

(** A case keeps its identity, its round and barred list only grow, and a
    resolved case keeps its verdict and the votes behind it. *)
Record case_progress d d' : Prop := {
  cp_same : same_case d d';
  cp_round : dc_round d ≤ dc_round d';
  cp_barred : dc_barred d `prefix_of` dc_barred d';
  cp_final : dc_resolved d = true → same_verdict d d';
}.

Lemma case_progress_refl d : case_progress d d.
Proof. split; [done|lia|done|apply same_verdict_refl]. Qed.

(** An execution of case [k] resolves it or opens its next round. *)
Definition advances (i : escrow_ix) (k : pubkey) d d' : Prop :=
  ∀ a, i = ExecuteDisputeOutcome a → xa_case a = k →
    dc_resolved d = false ∧ (dc_resolved d' = true ∨ dc_round d' = dc_round d + 1).

Lemma write_case s i dk d d' k d0 :
  es_cases s !! dk = Some d → case_progress d d' → advances i dk d d' →
  (∀ a, i = ExecuteDisputeOutcome a → xa_case a = dk) → es_cases s !! k = Some d0 →
  ∃ d1, <[dk := d']> (es_cases s) !! k = Some d1 ∧ case_progress d0 d1 ∧ advances i k d0 d1.
Proof.
  intros Hd Hp Ha Hi Hk. rewrite lookup_insert. case_decide; subst; simplify_eq; [eauto|].
  exists d0. split_and!; [done|apply case_progress_refl|]. intros a Hia Hak. exfalso.
  by rewrite (Hi _ Hia) in Hak.
Qed.

Lemma voting_open s c dk d :
  escrow_inv s → settled_before (now c) s → es_cases s !! dk = Some d →
  now c < dc_reveal_deadline d → dc_resolved d = false.
Proof.
  intros Hinv Hs Hd Hn. destruct (dc_resolved d) eqn:Hr; [|done]. specialize (Hs _ _ Hd Hr). lia.
Qed.

Lemma commit_before_reveal s dk d :
  escrow_inv s → es_cases s !! dk = Some d → dc_commit_deadline d < dc_reveal_deadline d.
Proof.
  intros Hinv Hd. destruct (inv_case_wf _ _ _ Hinv Hd) as [_ Hr _].
  destruct (rw_windows _ Hr), (rw_deadlines _ Hr). lia.
Qed.

Lemma list_insert_true (bs : list bool) i j :
  bs !! j = Some true → <[i := true]> bs !! j = Some true.
Proof.
  intros Hj. destruct (decide (i = j)) as [->|]; [|by rewrite list_lookup_insert_ne].
  apply list_lookup_insert_eq. by eapply lookup_lt_Some.
Qed.

Lemma execute_case c a s s' k d0 :
  escrow_inv s → handle_execute_dispute_outcome c a s = Ok s' → es_cases s !! k = Some d0 →
  ∃ d1, es_cases s' !! k = Some d1 ∧ case_progress d0 d1 ∧
    advances (ExecuteDisputeOutcome a) k d0 d1.
Proof.
  intros Hinv Hrun Hk. apply handle_execute_Ok in Hrun as (x & x' & f & Hl & _ & Hex & ->); [|done].
  pose proof (xl_open _ _ _ _ Hl) as Hopen. change (es_cases (store_exec a s x')) with (<[xa_case a := x_case x']> (es_cases s)).
  assert (same_case (x_case x) (x_case x') ∧ dc_round (x_case x) ≤ dc_round (x_case x') ∧
    dc_barred (x_case x) `prefix_of` dc_barred (x_case x') ∧
    (dc_resolved (x_case x') = true ∨ dc_round (x_case x') = dc_round (x_case x) + 1))
    as (Hsame & Hround & Hbar & Hadv).
  { destruct Hex as [o w x1 _ _ _ _ _ ->|d' _ _ (seed & _ & ->)%reopen_round_Ok ->|reason x1 pub _ _ _ _ _ _ ->];
      simpl; split_and!; auto using prefix_app_r; done || lia. }
  eapply write_case; [apply Hl| | |by intros ? [= <-]|done].
  - split; [done|done|done|congruence].
  - by intros a' _ _.
Qed.

Lemma process_case c sv i s s' k d :
  escrow_inv s → settled_before (now c) s → process c sv i s = Ok s' → es_cases s !! k = Some d →
  ∃ d', es_cases s' !! k = Some d' ∧ case_progress d d' ∧ advances i k d d'.
Proof.
  intros Hinv Hs Hrun Hk. pose proof (process_cases _ _ _ _ _ Hrun) as Hsame.
  destruct i; try (rewrite Hsame; eexists; split_and!; [done|apply case_progress_refl|done]);
    clear Hsame; simpl in Hrun.
  - apply open_dispute_case_Ok in Hrun as (e0 & f & v & pool & v' & l' & r & seed & ev &
      -> & He & Hsig & Hst & _ & _ & _ & _ & _ & _ & _ & _ & _ & ->). simpl.
    pose proof (undisputed _ _ _ Hinv He (or_intror Hst)).
    rewrite lookup_insert_ne by congruence. eexists. split_and!; [done|apply case_progress_refl|done].
  - unfold handle_commit_dispute_vote in Hrun. inv_escrow. simpl. eapply write_case; try done.
    assert (dc_resolved x = false) as Hr.
    { eapply voting_open; try done. pose proof (commit_before_reveal s _ x Hinv ltac:(done)). lia. }
    split; [done|simpl; lia|done|congruence].
  - unfold handle_reveal_dispute_vote in Hrun. inv_escrow. simpl. eapply write_case; try done.
    assert (dc_resolved x = false) as Hr by (eapply voting_open; [done..|lia]).
    split; [done|simpl; lia|done|congruence].
  - by eapply execute_case.
  - unfold handle_claim_arbitration_reward in Hrun. inv_escrow. simpl. eapply write_case; try done.
    split; [done|simpl; lia|done|]. intros _. split; simpl; try done.
    intros j Hj. by apply list_insert_true.
  - unfold handle_top_up_arbitration_deposit in Hrun. inv_escrow. simpl. eapply write_case; try done.
Qed.

(** ** Along a path *)

Lemma step_case w w' k d :
  world_inv w → escrow_step w w' → es_cases w.2 !! k = Some d →
  ∃ d', es_cases w'.2 !! k = Some d' ∧ case_progress d d'.
Proof.
  intros [Hinv Hs] Hstep Hd. destruct Hstep as [t c sv i s s' Ht _ _ _ Hrun|]; simpl in *.
  - edestruct process_case as (d' & ? & ? & _); [done| |done|done|eauto].
    intros k' d' Hk Hr. specialize (Hs k' d' Hk Hr). lia.
  - eauto using case_progress_refl.
Qed.

Lemma steps_same_verdict w w' k d :
  world_inv w → steps escrow_step w w' → es_cases w.2 !! k = Some d →
  dc_resolved d = true → ∃ d', es_cases w'.2 !! k = Some d' ∧ same_verdict d d'.
Proof.
  intros Hw Hsteps Hd Hr.
  enough (world_inv w' ∧ ∃ d', es_cases w'.2 !! k = Some d' ∧ same_verdict d d') by tauto.
  eapply (steps_invariant _ (λ w, world_inv w ∧ ∃ d', es_cases w.2 !! k = Some d' ∧ same_verdict d d'));
    [|done|eauto using same_verdict_refl].
  intros a b [Ha (d1 & Hd1 & H1)] Hstep. split; [by eapply escrow_step_inv|].
  destruct (step_case _ _ _ _ Ha Hstep Hd1) as (d2 & Hd2 & [_ _ _ Hf]).
  exists d2. split; [done|]. eapply same_verdict_trans; [done|]. apply Hf, H1.
Qed.

(** A transaction no earlier than the state it acts on. *)
Lemma process_world t c sv i s s' :
  world_inv (t, s) → t ≤ now c → view_typed sv → ix_typed i → process c sv i s = Ok s' →
  world_inv (now c, s').
Proof.
  intros [Hinv Hs] Ht Hv Hi Hrun. simpl in *. assert (settled_before (now c) s) as Hs'.
  { intros k d Hd Hr. specialize (Hs k d Hd Hr). lia. }
  split; [by eapply process_inv|by eapply process_settled].
Qed.
End lifecycle.
