(* ===== verification/SystemScenario.v ===== *)
(** * SystemScenario: a concrete run of both programs

    A merchant with too little in the deposit vault is disputed, staking
    recovers the missing part from the merchant's stake, and escrow credits
    it; an arbitrator stakes and votes. *)

From S2P Require Import Prelude Runtime Shared StakingState Staking StakingInv.
From S2P Require Import EscrowState Fees Trade Dispute Escrow CaseInv EscrowInv TradeInv DisputeInv.
From S2P Require Import ExecuteInv EscrowSafety Frame System Relay Scenario.

(** The chain as staking sees it: escrow's claims, no ban. *)
Definition chain_of (t : Z) (y : system simple_ledger) : chain :=
  mkChain t (λ k, match k with
                  | PdaKeys ESCROW STAKE_RECOVERY_CLAIM_SEED m mint => claim_info (sy_escrow y) m mint
                  | _ => empty_info
                  end) (slot_hashes (at_time t)).

Lemma chain_of_reads t y : chain_reads (chain_of t y) (sy_escrow y).
Proof. by intros m mint. Qed.

Definition sys_tx : Type := Z * (escrow_ix + staking_ix).

Definition run_sys_tx (x : sys_tx) (y : system simple_ledger) : option (system simple_ledger) :=
  match x.2 with
  | inl i =>
      match Escrow.process (chain_of x.1 y) (staking_view_of (sy_staking y)) i (sy_escrow y) with
      | Ok es => Some (mkSystem es (sy_staking y <| st_ledger := es_ledger es |>))
      | Err _ => None
      end
  | inr i =>
      match Staking.process (chain_of x.1 y) i (sy_staking y) with
      | Ok st => Some (mkSystem (sy_escrow y <| es_ledger := st_ledger st |>) st)
      | Err _ => None
      end
  end.

Fixpoint run_sys (txs : list sys_tx) (y : system simple_ledger) : option (system simple_ledger) :=
  match txs with
  | [] => Some y
  | x :: rest => match run_sys_tx x y with Some y => run_sys rest y | None => None end
  end.

#[export] Instance staking_ix_typed_dec (i : staking_ix) : Decision (Staking.ix_typed i).
Proof. destruct i; simpl; unfold params_typed; apply _. Defined.

Definition is_signed (k : option pubkey) : bool := default true (is_wallet <$> k).

Lemma is_signed_signed k : is_signed k = true → signed k.
Proof. by intros Hk w ->. Qed.

Definition sys_tx_ok (x : sys_tx) : bool :=
  match x.2 with
  | inl i => bool_decide (Escrow.ix_typed i) && is_signed (escrow_signer i)
  | inr i => bool_decide (Staking.ix_typed i) && is_signed (staking_signer i)
  end.

Fixpoint sys_txs_ok (t : Z) (txs : list sys_tx) : bool :=
  match txs with
  | [] => true
  | x :: rest =>
      bool_decide (t ≤ x.1) && bool_decide (i64 x.1) && sys_tx_ok x && sys_txs_ok x.1 rest
  end.

Definition sys_time (t : Z) (txs : list sys_tx) : Z := default t (fst <$> last txs).

Lemma sys_time_cons t (x : sys_tx) txs : sys_time t (x :: txs) = sys_time x.1 txs.
Proof.
  unfold sys_time. destruct txs; [done|]. rewrite last_cons_cons.
  destruct (last _) eqn:Hl; [done|]. by apply last_None in Hl.
Qed.

Lemma run_sys_tx_step t x y y' :
  t ≤ x.1 → i64 x.1 → sys_tx_ok x = true → run_sys_tx x y = Some y' →
  sys_step (t, y) (x.1, y').
Proof.
  destruct x as [t' [i|i]]; unfold sys_tx_ok, run_sys_tx; cbn [fst snd]; intros Ht Hi Hok Hrun;
    apply andb_true_iff in Hok as [Hty%bool_decide_eq_true Hs%is_signed_signed].
  - destruct (Escrow.process _ _ _ _) as [es|] eqn:Hp; [|done]. injection Hrun as <-.
    by apply (sys_escrow t (chain_of t' y) i y es).
  - destruct (Staking.process _ _ _) as [st|] eqn:Hp; [|done]. injection Hrun as <-.
    by apply (sys_staking t (chain_of t' y) i y st).
Qed.

Lemma run_sys_steps t txs y y' :
  sys_txs_ok t txs = true → run_sys txs y = Some y' → steps sys_step (t, y) (sys_time t txs, y').
Proof.
  revert t y. induction txs as [|x txs IH]; intros t y Hok Hrun; simpl in *.
  - injection Hrun as <-. apply steps_refl.
  - destruct (run_sys_tx x y) as [y1|] eqn:Hx; [|done].
    rewrite !andb_true_iff, !bool_decide_eq_true in Hok. destruct Hok as [[[Ht Hi] Hx'] Hok].
    rewrite sys_time_cons. eapply steps_trans; [|by apply IH]. apply steps_one.
    by eapply run_sys_tx_step.
Qed.

(** ** The run *)

Definition sys_ledger0 : simple_ledger := mkLedger
  (<[Key 53 := holding OPEN (arb 1) 1000]> (sl_accounts ledger0)) (sl_mints ledger0).

Definition system_after (txs : list sys_tx) : system simple_ledger :=
  default (sys_init sys_ledger0) (run_sys txs (sys_init sys_ledger0)).

Definition sys_runs (txs : list sys_tx) : bool :=
  if run_sys txs (sys_init sys_ledger0) is Some _ then true else false.

Lemma system_after_run txs :
  sys_runs txs = true → run_sys txs (sys_init sys_ledger0) = Some (system_after txs).
Proof. unfold sys_runs, system_after. by destruct (run_sys _ _). Qed.

Lemma system_after_reachable txs :
  sys_txs_ok 0 txs = true → sys_runs txs = true → sys_reachable (sys_time 0 txs, system_after txs).
Proof.
  intros Hok Hrun. exists 0, sys_ledger0. split; [done|]. apply run_sys_steps; [done|].
  by apply system_after_run.
Qed.

Lemma run_sys_app xs ys y :
  run_sys (xs ++ ys) y = match run_sys xs y with Some y => run_sys ys y | None => None end.
Proof. revert y. induction xs as [|x xs IH]; intros y; [done|]. simpl. by destruct (run_sys_tx x y). Qed.

Lemma system_after_app xs ys :
  sys_runs (xs ++ ys) = true → run_sys ys (system_after xs) = Some (system_after (xs ++ ys)).
Proof.
  intros Hr%system_after_run. rewrite run_sys_app in Hr.
  unfold system_after at 1. by destruct (run_sys xs _).
Qed.

(** The last transaction of a run, as a handler call. *)
Lemma system_after_staking xs t i :
  sys_runs (xs ++ [(t, inr i)]) = true →
  Staking.process (chain_of t (system_after xs)) i (sy_staking (system_after xs))
  = Ok (sy_staking (system_after (xs ++ [(t, inr i)]))).
Proof.
  intros Hr%system_after_app. simpl in Hr. unfold run_sys_tx in Hr. cbn [fst snd] in Hr.
  destruct (Staking.process _ _ _) as [st|]; [|done]. injection Hr as Hr.
  apply (f_equal sy_staking) in Hr. exact (f_equal Ok Hr).
Qed.

Lemma system_after_escrow xs t i :
  sys_runs (xs ++ [(t, inl i)]) = true →
  Escrow.process (chain_of t (system_after xs)) (staking_view_of (sy_staking (system_after xs))) i
    (sy_escrow (system_after xs)) = Ok (sy_escrow (system_after (xs ++ [(t, inl i)]))).
Proof.
  intros Hr%system_after_app. simpl in Hr. unfold run_sys_tx in Hr. cbn [fst snd] in Hr.
  destruct (Escrow.process _ _ _ _) as [es|]; [|done]. injection Hr as Hr.
  apply (f_equal sy_escrow) in Hr. exact (f_equal Ok Hr).
Qed.

Ltac sys_reach := by apply system_after_reachable; vm_compute.

Definition staking_params0 : staking_params :=
  mkStakingParams (replicate 7 100) (replicate 7 86400) 1000 (Key 5) (Key 6).

(** Stakes, a trade, and a dispute the deposit vault cannot pay for. *)
Definition sys_setup : list sys_tx :=
  [ (1, inr (InitializeStakingConfig admin OPEN (Key 61) staking_params0));
    (2, inr (InitializeStakeAccount merchant Merchant));
    (3, inr (Stake merchant (stake_account_key merchant Merchant) (Key 42) OPEN 1000));
    (4, inr (InitializeStakeAccount (arb 1) Arbitrator));
    (5, inr (Stake (arb 1) (stake_account_key (arb 1) Arbitrator) (Key 53) OPEN 500));
    (10, inl (InitializeFeeConfig admin treas fee_params0));
    (11, inl (InitializeArbitrationPool admin OPEN));
    (12, inl (UpdateFeeConfig admin USDC treas fee_params0 20 0 [USDC]));
    (12, inl (CreateLiquidityVault merchant USDC));
    (13, inl (CreateLiquidityVault merchant OPEN));
    (14, inl (DepositLiquidity merchant (Key 41) USDC 100000));
    (15, inl (DepositLiquidity merchant (Key 42) OPEN 100));
    (16, inl (ReserveLiquidity merchant USDC 50000));
    (17, inl (CreateTradeEscrow merchant buyer USDC 7 10001 3600));
    (18, inl (FundTradeEscrow merchant te7 USDC));
    (19, inr (RequestUnstake merchant (stake_account_key merchant Merchant) 300)) ].

Definition sys_opening : list sys_tx := [(30, inl (OpenDisputeCase buyer te7 OPEN 60 60))].
Definition sys_disputed : list sys_tx := sys_setup ++ sys_opening.
Definition sys_recovered : list sys_tx :=
  sys_disputed ++ [(40, inr (RecoverStakeShortfall (stake_account_key merchant Merchant) OPEN))].
Definition sys_absorbed : list sys_tx :=
  sys_recovered ++ [(41, inl (AbsorbStakeRecovery (recovery_claim_key merchant OPEN) OPEN))].
Definition sys_slashed : list sys_tx :=
  sys_setup ++ [(25, inr (Slash (Key 5) (stake_account_key (arb 1) Arbitrator) (Key 61) OPEN 7))].
Definition sys_committed : list sys_tx :=
  sys_disputed ++ [(35, inl (CommitDisputeVote (arb 1) dk7 (commitment_of BuyerWins salt)))].
