(* ===== verification/EscrowTheorems.v ===== *)
(** * EscrowTheorems: what the escrow program guarantees

    Custody, the life of an escrow and of a dispute, and the payouts, stated
    over the reachable states of the program and over the handlers. *)

From S2P Require Import Prelude Runtime Shared StakingState EscrowState Fees Trade.
From S2P Require Import Dispute Escrow CaseInv EscrowInv TradeInv DisputeInv ExecuteInv.
From S2P Require Import EscrowSafety Scenario Lifecycle.
Import EscrowError.

Section theorems.
Context {L : Type} `{TokenLedger L} `{Hashing}.
Abbreviation state := (escrow_state L).
Implicit Types (s : state) (l : L) (v : LiquidityVault) (e : TradeEscrowVault)
  (d : DisputeCase) (c : chain) (w : Z * state).

(** ** Custody *)

(** C1: In every reachable state each token account the program owns covers
    what the books owe from it: a liquidity vault its available and reserved
    amounts, a trade escrow that is awaiting settlement or frozen its amount,
    and the arbitration pool the deposits of all open cases and the unpaid
    rewards of all resolved ones. *)
Theorem escrow_solvent w :
  escrow_reachable w →
  (∀ m mint v, es_vaults w.2 !! liquidity_vault_key m mint = Some v →
     lv_available v + lv_reserved v ≤ balance (es_ledger w.2) (liquidity_tokens_key m mint)) ∧
  (∀ rid e, es_escrows w.2 !! trade_escrow_key rid = Some e →
     te_state e = AwaitingFiatSettlement ∨ te_state e = Frozen →
     te_amount e ≤ balance (es_ledger w.2) (trade_escrow_tokens_key rid)) ∧
  map_sum (λ _ d, if dc_resolved d then dc_reward_remaining d else dc_deposit d) (es_cases w.2)
    ≤ balance (es_ledger w.2) arbitration_pool_key.
Proof.
  intros [Hinv _]%escrow_reachable_inv. split_and!.
  - intros m mint v. by apply backing_vault.
  - intros rid e He Hl. rewrite <-(live_amount_live e) by done.
    destruct (ei_escrow _ Hinv _ _ He) as ([= ->] & _). by apply backing_escrow.
  - apply (ei_backing _ Hinv arbitration_pool_key).
Qed.

(** In every reachable state the counters of a liquidity vault are 64-bit,
    they add up to its total, and the pending counter is the sum of the
    amounts of the live escrows funded from that vault. *)
Theorem vault_books w k v :
  escrow_reachable w → es_vaults w.2 !! k = Some v →
  lv_total v = lv_available v + lv_reserved v + lv_pending_settlement v + lv_settled v ∧
  Forall u64 [lv_available v; lv_reserved v; lv_pending_settlement v; lv_settled v; lv_total v] ∧
  lv_pending_settlement v =
    map_sum (λ _ e, if decide (liquidity_vault_key (te_seller e) (te_mint e) = k)
                    then if decide (te_state e = AwaitingFiatSettlement ∨ te_state e = Frozen)
                         then te_amount e else 0
                    else 0) (es_escrows w.2).
Proof.
  intros [Hinv _]%escrow_reachable_inv Hv. destruct (ei_vault _ Hinv _ _ Hv) as (_ & Hwf & _).
  split_and!; [apply Hwf| |apply (ei_pending _ Hinv _ _ Hv)].
  destruct Hwf. repeat constructor; ilia.
Qed.

(** C4: A trade escrow follows its state machine: it is funded and approved by
    its seller only, released only while awaiting settlement and approved,
    cancelled by one of its parties or expired after its timeout only while
    unapproved, frozen by one of its parties only while awaiting settlement,
    and once frozen it finishes only through an executed dispute; its buyer,
    seller, mint and amount never change. *)
Theorem escrow_state_machine t c sv i s s' k e :
  escrow_reachable (t, s) → process c sv i s = Ok s' → es_escrows s !! k = Some e →
  ∃ e', es_escrows s' !! k = Some e' ∧ escrow_move (now c) i k e e' ∧ same_trade e e'.
Proof.
  intros [Hinv _]%escrow_reachable_inv Hrun Hk.
  destruct (process_moves _ _ _ _ _ _ _ Hinv Hrun Hk) as (e' & He' & Hm). exists e'.
  split; [done|]. split; [done|]. by destruct Hm.
Qed.

(** A released or cancelled escrow is final: no later transaction, by
    anyone, changes its record, so its tokens cannot be paid out twice. *)
Theorem escrow_final w w' k e :
  escrow_reachable w → steps escrow_step w w' → es_escrows w.2 !! k = Some e → finished e →
  es_escrows w'.2 !! k = Some e.
Proof.
  intros Hw Hsteps He Hf. apply escrow_reachable_inv in Hw.
  enough (world_inv w' ∧ es_escrows w'.2 !! k = Some e) by tauto.
  eapply (steps_invariant _ (λ w, world_inv w ∧ es_escrows w.2 !! k = Some e)); [|done|done].
  intros a b [Ha Hea] Hstep. split; [by eapply escrow_step_inv|]. destruct Ha as [Hinv _].
  destruct Hstep as [t c sv i s s' _ _ _ _ Hrun|]; [|done].
  destruct (process_moves _ _ _ _ _ _ _ Hinv Hrun Hea) as (e' & He' & Hm).
  apply finished_move in Hm as ->; done.
Qed.
(** ** Payouts *)

(** A release moves exactly the escrowed amount: the buyer receives it
    less the settlement fee, the four treasuries receive the fee with the
    rounding left to the ecosystem treasury, no other balance changes, and the
    vault books the amount from pending to settled. *)
Theorem release_pays_exactly t c te mint b tr s s' :
  escrow_reachable (t, s) → handle_release_escrow c te mint b tr s = Ok s' →
  ∃ e v f, es_escrows s !! te = Some e ∧ te_approved e = true ∧ es_fee s = Some f ∧
    es_vaults s !! liquidity_vault_key (te_seller e) (te_mint e) = Some v ∧
    (ta_owner <$> account_of (es_ledger s) b) = Some (te_buyer e) ∧
    (∀ k, balance (es_ledger s') k =
       balance (es_ledger s) k + paid_to k (release_dests f b (te_amount e))
       - (if decide (k = trade_escrow_tokens_key (te_reservation_id e)) then te_amount e else 0)) ∧
    sum_list (snd <$> release_dests f b (te_amount e)) = te_amount e ∧
    es_escrows s' = <[te := e <| te_state := Released |>]> (es_escrows s) ∧
    es_vaults s' = <[liquidity_vault_key (te_seller e) (te_mint e) :=
      v <| lv_pending_settlement := lv_pending_settlement v - te_amount e |>
        <| lv_settled := lv_settled v + te_amount e |>]> (es_vaults s).
Proof.
  intros [Hinv _]%escrow_reachable_inv Hrun. simpl in Hinv.
  unfold handle_release_escrow, load_buyer_account, load_treasuries in Hrun. inv_escrow.
  match goal with He : es_escrows s !! _ = Some ?e, Hm : te_mint ?e = _ |- _ =>
    rewrite <-Hm in *; destruct (ei_escrow _ Hinv _ _ He) as (_ & Hamt & _) end.
  match goal with Hf : es_fee s = Some _ |- _ => apply (ei_fee _ Hinv) in Hf as Hfwf end.
  match goal with Hr : release_trade_escrow_funds _ _ _ _ _ _ _ = _ |- _ =>
    apply release_funds_dests in Hr as (-> & -> & Hbal); [|done|done|by split_and!] end.
  do 3 eexists. split; [done|]. split; [done|]. split; [done|]. split; [done|].
  split; [|split; [exact Hbal|split; [|done]]].
  - match goal with Hb : account_of _ b = Some _ |- _ => rewrite Hb end. simpl. by f_equal.
  - unfold release_dests, sum_list. simpl. lia.
Qed.

(** The fee split never fails and never loses a unit: with a stored
    configuration and any 64-bit amount, the buyer's part and the four shares
    are non-negative and add up to the amount, three shares are the truncated
    basis-point shares, and the ecosystem share exceeds its own by less than
    four units. *)
Theorem fee_split_exact t s f amount :
  escrow_reachable (t, s) → es_fee s = Some f → u64 amount →
  let fee := floor_share amount (fc_settlement_fee_bps f) in
  ∃ dev eco infra emergency,
    compute_fee_split f amount = Ok (amount - fee, [dev; eco; infra; emergency]) ∧
    0 ≤ fee ≤ amount ∧ dev + eco + infra + emergency = fee ∧
    dev = floor_share fee (fc_dev_treasury_bps f) ∧
    infra = floor_share fee (fc_infra_treasury_bps f) ∧
    emergency = floor_share fee (fc_emergency_reserve_bps f) ∧
    0 ≤ eco - floor_share fee (fc_ecosystem_treasury_bps f) < 4.
Proof.
  intros [Hinv _]%escrow_reachable_inv Hf Ha fee. apply (ei_fee _ Hinv) in Hf.
  destruct (compute_fee_split_total f amount Hf Ha) as (sh & Hsplit & Hfour & Hfee & _).
  destruct (split_fee_four_ways_total f fee Hf ltac:(unfold fee; ilia)) as (Hfour' & _ & _ & _ & He).
  unfold fee in *. rewrite Hfour in Hfour'. injection Hfour' as ->.
  do 4 eexists. split; [exact Hsplit|]. split_and!; done || lia.
Qed.
End theorems.

(** Witnesses for the custody theorems, on the concrete run. *)

Lemma escrow_solvent_witness :
  map_sum (λ _ d, if dc_resolved d then dc_reward_remaining d else dc_deposit d)
    (es_cases (state_after voted_run))
  ≤ balance (es_ledger (state_after voted_run)) arbitration_pool_key.
Proof.
  apply (escrow_solvent (last_time 0 voted_run, state_after voted_run)).
  reachable.
Defined.

Lemma vault_books_witness :
  ∃ v, es_vaults (state_after funding) !! liquidity_vault_key merchant USDC = Some v ∧
    lv_total v = lv_available v + lv_reserved v + lv_pending_settlement v + lv_settled v.
Proof.
  eexists. split; [vm_compute; reflexivity|].
  apply (vault_books (last_time 0 funding, state_after funding) (liquidity_vault_key merchant USDC)).
  - reachable.
  - by vm_compute.
Defined.

(** The approved trade, and the same after its release. *)
Definition approved_run : list tx := funding ++ [send 20 (ApproveSettlement merchant te7)].
Definition released_run : list tx :=
  approved_run ++ [send 21 (ReleaseEscrow te7 USDC (Key 43) treas)].

Lemma escrow_state_machine_witness :
  ∃ e e', es_escrows (state_after approved_run) !! te7 = Some e ∧
    es_escrows (state_after released_run) !! te7 = Some e' ∧ same_trade e e' ∧
    te_state e' = Released.
Proof.
  destruct (escrow_state_machine (last_time 0 approved_run) (at_time 21) staking0
    (ReleaseEscrow te7 USDC (Key 43) treas) (state_after approved_run) (state_after released_run) te7
    (escrow7 approved_run)) as (e' & He' & _ & Hs).
  - reachable.
  - apply state_after_snoc. by vm_compute.
  - by vm_compute.
  - eexists _, e'. split; [vm_compute; reflexivity|]. split; [done|]. split; [exact Hs|].
    vm_compute in He'. by injection He' as <-.
Defined.

Lemma escrow_final_witness :
  ∃ e, es_escrows (state_after released_run) !! te7 = Some e ∧ finished e.
Proof.
  exists (escrow7 released_run). split; [|left; by vm_compute].
  apply (escrow_final (last_time 0 released_run, state_after released_run)
    (last_time 0 released_run, state_after released_run)).
  - reachable.
  - apply steps_refl.
  - by vm_compute.
  - left. by vm_compute.
Defined.

Lemma release_pays_exactly_witness :
  ∃ f e, es_fee (state_after approved_run) = Some f ∧
    es_escrows (state_after approved_run) !! te7 = Some e ∧ te_amount e = 10001 ∧
    sum_list (snd <$> release_dests f (Key 43) 10001) = 10001 ∧
    balance (es_ledger (state_after released_run)) (Key 43) = 9901.
Proof.
  destruct (release_pays_exactly (last_time 0 approved_run) (at_time 21) te7 USDC (Key 43) treas
    (state_after approved_run) (state_after released_run)) as (e & v & f & He & _ & Hf & _ & _ & _ & Hsum & _).
  - reachable.
  - apply (state_after_snoc approved_run (at_time 21) staking0 (ReleaseEscrow te7 USDC (Key 43) treas)).
    by vm_compute.
  - exists f, e. assert (te_amount e = 10001) as Ha by (vm_compute in He; by injection He as <-).
    rewrite Ha in Hsum. split_and!; [done|done|done|done|by vm_compute].
Defined.

Lemma fee_split_exact_witness :
  ∃ f, es_fee (state_after funding) = Some f ∧
    compute_fee_split f 10001 = Ok (9901, [40; 30; 20; 10]).
Proof.
  eexists. split; [vm_compute; reflexivity|].
  destruct (fee_split_exact (last_time 0 funding) (state_after funding)
    (default (mkFeeConfig buyer 0 0 0 buyer buyer buyer buyer 0 0 0 0 0 0 0 [] 0)
       (es_fee (state_after funding))) 10001) as (dev & eco & infra & em & Hs & _).
  - reachable.
  - by vm_compute.
  - by vm_compute.
  - by vm_compute.
Defined.
