(* ===== verification/NoAbort.v ===== *)
(** * NoAbort: no instruction of the escrow program aborts

    The release profile checks arithmetic, so an unchecked subtraction or an
    index out of range aborts the transaction instead of returning an error.
    In reachable states none of them does. *)

From S2P Require Import Prelude Runtime Shared StakingState EscrowState Fees Trade.
From S2P Require Import Dispute Escrow CaseInv EscrowInv TradeInv DisputeInv ExecuteInv.
From S2P Require Import EscrowSafety Scenario.
Import EscrowError.

Definition safe {E A} (m : result E A) : Prop := m ≠ Err Panic.

Section safe.
Context {E : Type}.

Lemma safe_Ok {A} (a : A) : safe (E:=E) (Ok a).
Proof. done. Qed.
Lemma safe_bind {A B} (m : result E A) (k : A → result E B) :
  safe m → (∀ a, m = Ok a → safe (k a)) → safe (m ≫= k).
Proof. unfold safe. destruct m; simpl; naive_solver. Qed.
Lemma safe_require P `{Decision P} (f : fault E) : f ≠ Panic → safe (require P f).
Proof. intros Hf. unfold safe, require. case_decide; naive_solver. Qed.
Lemma safe_ok_or {A} (o : option A) (f : fault E) : f ≠ Panic → safe (ok_or o f).
Proof. intros Hf. unfold safe. destruct o; naive_solver. Qed.
Lemma safe_sub a b : b ≤ a → safe (sub_or_panic (E:=E) a b).
Proof. intros Hle. by rewrite sub_or_panic_le. Qed.
Lemma safe_transfer {L} `{TokenLedger L} (l : L) from mint to auth n :
  safe (token_transfer (E:=E) l from mint to auth n).
Proof. unfold token_transfer. apply safe_bind; [|intros]; by apply safe_ok_or. Qed.
Lemma safe_some {A} (o : option A) (f : fault E) : is_Some o → safe (ok_or o f).
Proof. by intros [? ->]. Qed.
End safe.

#[export] Hint Resolve safe_Ok safe_transfer : openfiat.

(** Peel binds: guards and lookups that report errors are safe. *)
Ltac safe_step :=
  match goal with
  | |- safe (Ok _) => done
  | |- safe (Err _) => done
  | |- safe (require _ _) => by apply safe_require
  | |- safe (ok_or _ Panic) => fail 1
  | |- safe (ok_or _ _) => by apply safe_ok_or
  | |- safe (load _ _) => by apply safe_ok_or
  | |- safe (load_token _ _) => by apply safe_ok_or
  | |- safe (load_mint _ _) => by apply safe_ok_or
  | |- safe (load_fee _) => by apply safe_ok_or
  | |- safe (init_account _ _) => by apply safe_require
  | |- safe (init_token _ _ _ _) => by apply safe_ok_or
  | |- safe (token_transfer _ _ _ _ _ _) => apply safe_transfer
  | |- safe (_ ≫= _) => apply safe_bind; [|intros ? ?]
  | |- safe (if decide ?P then _ else _) => destruct (decide P)
  | |- safe (let '(_, _) := ?p in _) => destruct p
  | |- safe (let _ := _ in _) => cbv zeta
  end.
Ltac safe_auto := repeat (safe_step; cbn beta iota).

Section no_abort.
Context {L : Type} `{TokenLedger L} `{Hashing}.
Abbreviation state := (escrow_state L).
Implicit Types (s : state) (l : L) (v : LiquidityVault) (e : TradeEscrowVault)
  (d : DisputeCase) (c : chain).

(** ** Loaders and helpers *)

Lemma safe_load_vault s m mint : safe (load_vault s m mint).
Proof. unfold load_vault. safe_auto. Qed.
Lemma safe_load_own_vault s m mint : safe (load_own_vault s m mint).
Proof. unfold load_own_vault. safe_auto. apply safe_load_vault. Qed.
Lemma safe_load_escrow s te : safe (load_escrow s te).
Proof. unfold load_escrow. safe_auto. Qed.
Lemma safe_load_case s dk : safe (load_case s dk).
Proof. unfold load_case. safe_auto. Qed.
Lemma safe_load_buyer l e k mint : safe (load_buyer_account l e k mint).
Proof. unfold load_buyer_account. safe_auto. Qed.
Lemma safe_load_treasuries l f t err : err ≠ Panic → safe (load_treasuries l f t err).
Proof. intros. unfold load_treasuries. safe_auto. Qed.
Lemma safe_token_mint l k mint : safe (require_token_mint l k mint).
Proof. unfold require_token_mint. safe_auto. Qed.
Lemma safe_fee_params p : safe (require_fee_params p).
Proof. unfold require_fee_params. safe_auto. Qed.
Lemma safe_check_mints seen ms : safe (check_mints seen ms).
Proof. revert seen. induction ms; intros; simpl; safe_auto. auto. Qed.
Lemma safe_pay_all l from mint auth dests : safe (pay_all l from mint auth dests).
Proof. revert l. induction dests as [|[to n] dests IH]; intros; simpl; safe_auto; auto. Qed.
Lemma safe_latch c rid te : safe (latch_case_seed c rid te).
Proof. unfold latch_case_seed. safe_auto. Qed.
Lemma safe_take_deposit l v m mint n : safe (take_deposit l v m mint n).
Proof. unfold take_deposit. safe_auto. Qed.
Lemma safe_record r m mint n : safe (record_shortfall r m mint n).
Proof. unfold record_shortfall. safe_auto. Qed.
Lemma safe_arbitrator_stake sv a : safe (load_arbitrator_stake sv a).
Proof. unfold load_arbitrator_stake. safe_auto. Qed.
Lemma safe_published r p : safe (published_pool_size r p).
Proof. unfold published_pool_size. destruct r; safe_auto. Qed.
Lemma safe_reopen c d n : safe (reopen_round c d n).
Proof. unfold reopen_round. safe_auto. apply safe_latch. Qed.
Lemma safe_load_reservation s te mint : safe (load_reservation s te mint).
Proof. unfold load_reservation. safe_auto; [apply safe_load_escrow|apply safe_load_vault]. Qed.
Lemma safe_reward d o w : safe (reward_amount d o w).
Proof. unfold reward_amount. safe_auto. Qed.

Lemma safe_split f fee : fee_config_wf f → u64 fee → safe (split_fee_four_ways f fee).
Proof. intros Hf Hfee. by destruct (split_fee_four_ways_total f fee Hf Hfee) as [-> _]. Qed.
Lemma safe_fee_split f n : fee_config_wf f → u64 n → safe (compute_fee_split f n).
Proof. intros Hf Hn. by destruct (compute_fee_split_total f n Hf Hn) as (? & -> & _). Qed.

Lemma safe_unwind e v l mint :
  te_amount e ≤ lv_pending_settlement v → safe (unwind_funded_trade_escrow e v l mint).
Proof. intros. unfold unwind_funded_trade_escrow. safe_auto. by apply safe_sub. Qed.
Lemma safe_even_split e v l mint b :
  te_amount e ≤ lv_pending_settlement v → safe (split_trade_escrow_evenly e v l mint b).
Proof.
  intros. unfold split_trade_escrow_evenly. safe_auto; [apply safe_pay_all|by apply safe_sub].
Qed.
Lemma safe_release e v l f t mint b :
  fee_config_wf f → u64 (te_amount e) → te_amount e ≤ lv_pending_settlement v →
  safe (release_trade_escrow_funds e v l f t mint b).
Proof.
  intros. unfold release_trade_escrow_funds.
  safe_auto; [by apply safe_fee_split|apply safe_pay_all|by apply safe_sub].
Qed.
Lemma safe_settle a o (x : exec L) : safe (settle_deposit a o x).
Proof. unfold settle_deposit. safe_auto. Qed.

Lemma load_fee_wf s f : escrow_inv s → load_fee s = Ok f → fee_config_wf f.
Proof. intros Hinv Hf%ok_or_Ok. by eapply ei_fee. Qed.

(** A live escrow loaded with its vault can be subtracted from it. *)
Lemma loaded_covers s te e v mint :
  escrow_inv s → load_escrow s te = Ok e → load_vault s (te_seller e) mint = Ok v →
  te_mint e = mint → live e → te_amount e ≤ lv_pending_settlement v ∧ u64 (te_amount e).
Proof.
  intros Hinv He Hv <- Hl. inv_escrow. split; [by eapply pending_covers|by eapply ei_escrow].
Qed.
End no_abort.

#[export] Hint Resolve safe_load_vault safe_load_own_vault safe_load_escrow safe_load_case
  safe_load_buyer safe_token_mint safe_fee_params safe_check_mints safe_pay_all safe_latch
  safe_take_deposit safe_record safe_arbitrator_stake safe_published safe_reopen
  safe_load_reservation safe_reward safe_settle : openfiat.

Ltac safe_run := repeat (safe_step; cbn beta iota); try by eauto with openfiat.

Section handlers.
Context {L : Type} `{TokenLedger L} `{Hashing}.
Abbreviation state := (escrow_state L).
Implicit Types (s : state) (l : L) (v : LiquidityVault) (e : TradeEscrowVault)
  (d : DisputeCase) (c : chain).

Lemma safe_release_escrow c te mint b t s :
  escrow_inv s → safe (handle_release_escrow c te mint b t s).
Proof.
  intros Hinv. unfold handle_release_escrow. safe_run; [by apply safe_load_treasuries|].
  inv_ok. destruct (loaded_covers s te a a0 mint) as [? ?]; [done..|by left|].
  apply safe_release; [by eapply load_fee_wf|done|done].
Qed.

Lemma safe_unwind_reservation te mint e v s :
  escrow_inv s → load_reservation s te mint = Ok (e, v) → safe (unwind_reservation s te mint e v).
Proof.
  intros Hinv Hl. unfold unwind_reservation, load_reservation in *.
  apply bind_Ok in Hl as (e' & He & Hl). apply bind_Ok in Hl as (v' & Hv & Hl). inv_ok.
  safe_run.
  - apply safe_unwind. eapply loaded_covers; [done..|by left].
  - unfold release_reservation_marking. safe_run. inv_ok. by apply safe_sub.
Qed.

Lemma safe_reveal c sv arb dk o salt s :
  escrow_inv s → safe (handle_reveal_dispute_vote c sv arb dk o salt s).
Proof.
  intros Hinv. unfold handle_reveal_dispute_vote. safe_run.
  all: repeat match goal with Hl : load_case _ _ = Ok _ |- _ => apply load_case_Ok in Hl as [Hcase _] end.
  all: destruct (inv_case_wf _ _ _ Hinv Hcase) as [Hb _ _]; inv_ok.
  all: match goal with Hs : seat_of _ _ = Some _ |- _ =>
    apply seat_of_Some, lookup_lt_Some in Hs end.
  - apply safe_some, lookup_lt_is_Some. by rewrite (bw_reveal _ Hb).
  - apply safe_some, lookup_lt_is_Some. by rewrite (bw_commit _ Hb).
  - unfold require. rewrite decide_True; [done|]. by rewrite (bw_weight _ Hb).
Qed.

(** The tally's weights fit the counter they are summed in. *)
Definition weights_fit s : Prop :=
  ∀ k d o, es_cases s !! k = Some d → u64 (weight_for o (votes_of d)).

Lemma weights_fit_check s :
  bool_decide (map_Forall (λ _ d, Forall (λ o, u64 (weight_for o (votes_of d)))
    [BuyerWins; MerchantWins; MutualSettlement; InvalidDispute]) (es_cases s)) = true →
  weights_fit s.
Proof.
  intros Hc%bool_decide_eq_true k d o Hd. specialize (Hc k d Hd). simpl in Hc.
  rewrite Forall_forall in Hc. apply Hc. destruct o; set_solver.
Qed.

Lemma safe_pay_verdict c a f o (x : exec L) :
  fee_config_wf f → u64 (te_amount (x_escrow x)) →
  te_amount (x_escrow x) ≤ lv_pending_settlement (x_vault x) → safe (pay_verdict c a f o x).
Proof.
  intros Hf Hu Hle. unfold pay_verdict, exec_split. destruct o; safe_run;
    auto using safe_release, safe_unwind, safe_even_split.
Qed.

Lemma safe_execute c a s :
  escrow_inv s → weights_fit s → safe (handle_execute_dispute_outcome c a s).
Proof.
  intros Hinv Hw. unfold handle_execute_dispute_outcome. apply safe_bind.
  { unfold load_exec. safe_run. by apply safe_load_treasuries. }
  intros [x f] Hload%load_exec_Ok. apply safe_bind; [|done].
  pose proof (inv_case_wf _ _ _ Hinv (xl_case _ _ _ _ Hload)) as Hwf.
  destruct (ei_escrow _ Hinv _ _ (xl_escrow _ _ _ _ Hload)) as (_ & Hu & _).
  assert (te_amount (x_escrow x) ≤ lv_pending_settlement (x_vault x)) as Hle.
  { eapply pending_covers; [done|apply Hload|right; apply Hload|apply Hload]. }
  destruct (ei_vault _ Hinv _ _ (xl_open_vault _ _ _ _ Hload)) as (_ & Hov & _).
  unfold execute_outcome. apply safe_bind; [safe_run|intros _ _]. destruct (tally (x_case x)) as [[o|] n].
  - safe_run.
    + erewrite (proj2 (winning_weight_of_spec _ o _)); [done|]. split; [done|eapply Hw, Hload].
    + match goal with Hs : settle_deposit _ _ _ = Ok (_, (_, _)) |- _ =>
        apply settle_deposit_spec in Hs as (Hrf & _); [|apply Hwf|apply Hload|done] end.
      apply safe_pay_verdict; [by eapply ei_fee, Hload|..]; by rewrite ?(rf_escrow _ _ _ _ Hrf), ?(rf_vault _ _ _ _ Hrf).
  - unfold handle_undecided_round, exec_split. safe_run.
    match goal with Hs : settle_deposit _ _ _ = Ok (_, (_, _)) |- _ =>
      apply settle_deposit_spec in Hs as (Hrf & _); simpl; [|..|apply Hload|done] end.
    2:{ apply (money_wf_open (x_case x)); try done; try apply Hwf; apply Hload. }
    apply safe_even_split. by rewrite (rf_escrow _ _ _ _ Hrf), (rf_vault _ _ _ _ Hrf).
Qed.

Lemma process_safe c sv i s :
  escrow_inv s → weights_fit s → safe (process c sv i s).
Proof.
  intros Hinv Hw. destruct i; simpl.
  - unfold handle_initialize_fee_config. safe_run.
  - unfold handle_update_fee_config. safe_run.
  - unfold handle_initialize_arbitration_pool. safe_run.
  - unfold handle_publish_arbitrator_pool_size. safe_run.
  - unfold handle_create_liquidity_vault. safe_run.
  - unfold handle_deposit_liquidity. safe_run.
  - unfold handle_reserve_liquidity. safe_run. inv_ok. by apply safe_sub.
  - unfold handle_withdraw_liquidity. safe_run. inv_ok. by apply safe_sub.
  - unfold handle_charge_ad_listing_fee. safe_run; [by apply safe_load_treasuries|].
    inv_escrow. apply safe_split; [by eapply ei_fee|by eapply fw_ad_fee, ei_fee].
  - unfold handle_create_trade_escrow. safe_run.
  - unfold handle_fund_trade_escrow. safe_run. inv_ok. by apply safe_sub.
  - unfold handle_approve_settlement. safe_run.
  - by apply safe_release_escrow.
  - unfold handle_cancel_reservation. safe_run. by apply safe_unwind_reservation.
  - unfold handle_expire_reservation. safe_run. by apply safe_unwind_reservation.
  - unfold handle_open_dispute_case. safe_run.
  - unfold handle_commit_dispute_vote. safe_run.
  - by apply safe_reveal.
  - by apply safe_execute.
  - unfold handle_claim_arbitration_reward. safe_run.
  - unfold handle_top_up_arbitration_deposit. safe_run.
  - unfold handle_absorb_stake_recovery. safe_run.
Qed.

(** C10: No escrow instruction ever aborts on arithmetic or an index: in a
    reachable state where the revealed weights of each case sum within 64
    bits, every instruction, with any arguments, succeeds or returns an error
    code; in particular the unchecked subtractions on a vault's counters never
    underflow. *)
Theorem escrow_never_aborts t s c sv i :
  escrow_reachable (t, s) → weights_fit s → process c sv i s ≠ Err Panic.
Proof. intros [Hinv _]%escrow_reachable_inv. by apply process_safe. Qed.
End handlers.

Lemma escrow_never_aborts_witness :
  process (at_time 151) staking0 (ExecuteDisputeOutcome exec7) (state_after voted_run)
  ≠ Err Panic.
Proof.
  apply (escrow_never_aborts (last_time 0 voted_run)).
  - reachable.
  - by apply weights_fit_check; vm_compute.
Defined.
