(* ===== verification/DisputeTheorems.v ===== *)
(** * DisputeTheorems: what a dispute guarantees

    The verdict and what it pays, the bound on rounds, the finality of a
    verdict, the barring of silent arbitrators, and the rewards. *)

From S2P Require Import Prelude Runtime Shared StakingState EscrowState Fees Trade.
From S2P Require Import Dispute Escrow CaseInv EscrowInv TradeInv DisputeInv ExecuteInv.
From S2P Require Import EscrowSafety Scenario Lifecycle.
Import EscrowError.

Section theorems.
Context {L : Type} `{TokenLedger L} `{Hashing}.
Abbreviation state := (escrow_state L).
Implicit Types (s : state) (l : L) (v : LiquidityVault) (e : TradeEscrowVault)
  (d : DisputeCase) (c : chain) (w : Z * state).

(** ** The verdict *)

(** The tally of a case names an outcome exactly when at least three
    revealed votes carry weight and that outcome has strictly more weight than
    each of the other three; so a tie, or fewer than three weighted votes,
    never decides a case. *)
Theorem tally_is_strict_plurality t s k d o :
  escrow_reachable (t, s) → es_cases s !! k = Some d →
  (tally d).1 = Some o ↔
    (3 ≤ length (filter (λ r, counts r = true) (votes_of d)))%nat ∧
    ∀ o', o' ≠ o → weight_for o' (votes_of d) < weight_for o (votes_of d).
Proof.
  intros [Hinv _]%escrow_reachable_inv Hd.
  apply tally_decides, bench_votes_nonneg. by eapply inv_case_wf.
Qed.

(** C2: Executing a decided case pays exactly what its verdict says: the frozen
    amount of the disputed escrow goes, less the fee, to a token account that
    the escrow's buyer owns and that is of the escrow's mint, or goes back to
    the merchant's vault, or is split evenly between those two with the odd unit
    to the merchant; the deposit stays in the pool as the arbitrators' reward
    when the buyer wins and goes back to the merchant's deposit vault otherwise;
    no other balance changes, and the case is resolved with that outcome. *)
Theorem verdict_pays_exactly t c a s s' d e o :
  escrow_reachable (t, s) → handle_execute_dispute_outcome c a s = Ok s' →
  es_cases s !! xa_case a = Some d → es_escrows s !! xa_escrow a = Some e →
  (tally d).1 = Some o →
  dc_reveal_deadline d ≤ now c ∧ te_state e = Frozen ∧ xa_escrow a = dc_trade_escrow d ∧
  (∃ b, account_of (es_ledger s) (xa_buyer_account a) = Some b ∧
    ta_owner b = te_buyer e ∧ ta_mint b = te_mint e) ∧
  let refund := if decide (o = BuyerWins) then 0 else dc_deposit d in
  (∃ f d' e', es_fee s = Some f ∧
    (∀ k, balance (es_ledger s') k = balance (es_ledger s) k
       + paid_to k (verdict_dests f e (xa_buyer_account a) (Some o))
       + (if decide (k = liquidity_tokens_key (te_seller e) (dc_deposit_mint d)) then refund else 0)
       - (if decide (k = arbitration_pool_key) then refund else 0)
       - (if decide (k = trade_escrow_tokens_key (te_reservation_id e)) then te_amount e else 0)) ∧
    es_cases s' !! xa_case a = Some d' ∧ dc_resolved d' = true ∧ dc_outcome d' = Some o ∧
    dc_reward_remaining d' = dc_deposit d - refund ∧
    es_escrows s' !! xa_escrow a = Some e' ∧ te_state e' = verdict_state o).
Proof.
  intros [Hinv _]%escrow_reachable_inv Hrun Hd He Ht.
  apply handle_execute_Ok in Hrun as (x & x' & f & Hl & Hdl & Hex & ->); [|done].
  pose proof (xl_case _ _ _ _ Hl) as Hd'. pose proof (xl_escrow _ _ _ _ Hl) as He'.
  assert (x_case x = d) as <- by congruence. assert (x_escrow x = e) as <- by congruence.
  destruct (loaded_keys _ _ _ _ Hinv Hl) as (_ & _ & Hom & _).
  split; [done|]. split; [apply Hl|]. split; [apply Hl|]. split; [apply Hl|].
  destruct Hex as [o' w x1 Ht' _ Hrf Hpo Hst Hc|d' Ht'|reason x1 pub Ht']; [|congruence..].
  assert (o' = o) as -> by congruence.
  assert (refund_of (x_case x) (Some o) = if decide (o = BuyerWins) then 0 else dc_deposit (x_case x)) as Hr.
  { unfold refund_of. apply decide_ext. split; congruence. }
  rewrite <-Hr. exists f, (x_case x'), (x_escrow x'). simpl. rewrite !lookup_insert_eq, Hc.
  split; [apply Hl|]. split_and!; try done. intros k.
  rewrite (po_balance _ _ _ _ Hpo), (rf_balance _ _ _ _ Hrf), (rf_escrow _ _ _ _ Hrf), Hom.
  rewrite (xl_ledger _ _ _ _ Hl), (xl_deposit_mint _ _ _ _ Hl). lia.
Qed.

(** An execution that finds no verdict either opens one more round, with
    an empty bench, no token moved and the escrow still frozen, or ends the
    case by splitting the escrow evenly and refunding the deposit; the third
    round never reopens. *)
Theorem undecided_round_reopens_or_splits t c a s s' d e :
  escrow_reachable (t, s) → handle_execute_dispute_outcome c a s = Ok s' →
  es_cases s !! xa_case a = Some d → es_escrows s !! xa_escrow a = Some e → (tally d).1 = None →
  (∃ d', es_cases s' = <[xa_case a := d']> (es_cases s) ∧ es_ledger s' = es_ledger s ∧
     es_escrows s' = es_escrows s ∧ es_vaults s' = es_vaults s ∧ dc_resolved d' = false ∧
     dc_round d' = dc_round d + 1 ∧ dc_round d' < 3 ∧ dc_arbitrators d' = [] ∧
     dc_deposit d' = dc_deposit d ∧ now c < dc_commit_deadline d' < dc_reveal_deadline d') ∨
  (∃ f d', es_fee s = Some f ∧ es_cases s' !! xa_case a = Some d' ∧ dc_resolved d' = true ∧
     dc_outcome d' = None ∧ dc_reward_remaining d' = 0 ∧
     (∃ e', es_escrows s' !! xa_escrow a = Some e' ∧ te_state e' = Released) ∧
     ∀ k, balance (es_ledger s') k = balance (es_ledger s) k
       + paid_to k (verdict_dests f e (xa_buyer_account a) None)
       + (if decide (k = liquidity_tokens_key (te_seller e) (dc_deposit_mint d)) then dc_deposit d else 0)
       - (if decide (k = arbitration_pool_key) then dc_deposit d else 0)
       - (if decide (k = trade_escrow_tokens_key (te_reservation_id e)) then te_amount e else 0)).
Proof.
  intros [Hinv _]%escrow_reachable_inv Hrun Hd He Ht.
  apply handle_execute_Ok in Hrun as (x & x' & f & Hl & Hdl & Hex & ->); [|done].
  pose proof (xl_case _ _ _ _ Hl) as Hd'. pose proof (xl_escrow _ _ _ _ Hl) as He'.
  assert (x_case x = d) as <- by congruence. assert (x_escrow x = e) as <- by congruence.
  destruct (loaded_keys _ _ _ _ Hinv Hl) as (_ & _ & Hom & _).
  destruct Hex as [o' w x1 Ht' _ Hrf Hpo Hst Hc|d' Ht' Hn Hre ->|reason x1 pub Ht' _ Hn Hrf Hpo Hst Hc]; [congruence| |].
  - left. exists d'. erewrite store_exec_case by done. simpl.
    destruct (inv_case_wf _ _ _ Hinv Hd) as [_ Hr _]. destruct (rw_windows _ Hr).
    apply reopen_round_Ok in Hre as (seed & _ & ->). simpl. pose proof (xl_open _ _ _ _ Hl).
    unfold MAX_DISPUTE_ROUNDS in Hn. split_and!; done || lia.
  - right. exists f, (x_case x'). simpl. rewrite !lookup_insert_eq, Hc. simpl.
    split; [apply Hl|]. split_and!; try done; [lia|eauto|]. intros k.
    rewrite (po_balance _ _ _ _ Hpo), (rf_balance _ _ _ _ Hrf), (rf_escrow _ _ _ _ Hrf), Hom.
    rewrite (xl_ledger _ _ _ _ Hl), (xl_deposit_mint _ _ _ _ Hl). lia.
Qed.

(** ** Termination *)

(** Paths with [n] successful executions of case [k] on them. *)
Inductive executions (k : pubkey) : nat → Z * state → Z * state → Prop :=
  | xs_start w : executions k 0 w w
  | xs_step n w w1 w2 : executions k n w w1 → escrow_step w1 w2 → executions k n w w2
  | xs_execute n w t c sv a s s' :
      executions k n w (t, s) → t ≤ now c → i64 (now c) → view_typed sv → xa_case a = k →
      process c sv (ExecuteDisputeOutcome a) s = Ok s' → executions k (S n) w (now c, s').

(** The executions so far, read off the case. *)
Definition executed_at_most d : Z := if dc_resolved d then dc_round d + 1 else dc_round d.

Lemma executions_round k n w w' :
  world_inv w → executions k n w w' →
  world_inv w' ∧ (n = 0%nat ∨ ∃ d, es_cases w'.2 !! k = Some d ∧ Z.of_nat n ≤ executed_at_most d).
Proof.
  intros Hw Hx. induction Hx as [w|n w w1 w2 _ IH Hstep|n w t c sv a s s' _ IH Ht Hi Hv Hk Hrun].
  - auto.
  - destruct (IH Hw) as [Hw1 Hn]. split; [by eapply escrow_step_inv|].
    destruct Hn as [->|(d & Hd & Hle)]; [auto|right].
    destruct (step_case _ _ _ _ Hw1 Hstep Hd) as (d' & Hd' & [_ Hr _ Hf]).
    exists d'. split; [done|]. unfold executed_at_most in *. destruct (dc_resolved d).
    + by rewrite (sv_resolved _ _ (Hf eq_refl)), (sv_round _ _ (Hf eq_refl)).
    + destruct (dc_resolved d'); lia.
  - destruct (IH Hw) as [Hw1 Hn].
    assert (escrow_step (t, s) (now c, s')) as Hstep by (by eapply (step_ix t c sv (ExecuteDisputeOutcome a))).
    split; [by eapply escrow_step_inv|right]. destruct Hw1 as [Hinv Hs]. simpl in *.
    assert (settled_before (now c) s) as Hs'.
    { intros k' d' Hk' Hr. specialize (Hs k' d' Hk' Hr). lia. }
    pose proof Hrun as Hrun'. apply handle_execute_Ok in Hrun' as (x & x' & f & Hl & _); [|done].
    pose proof (xl_case _ _ _ _ Hl) as Hd. rewrite Hk in Hd.
    destruct (process_case c sv (ExecuteDisputeOutcome a) _ _ k _ Hinv Hs' Hrun Hd) as (d' & Hd' & [_ Hr _ _] & Hadv).
    destruct (Hadv a eq_refl Hk) as [Hopen Hdone]. exists d'. split; [done|].
    pose proof (rw_round _ (cw_rounds _ (inv_case_wf _ _ _ Hinv Hd))).
    unfold executed_at_most in *. destruct Hn as [->|(d0 & Hd0 & Hle)]; simplify_eq;
      rewrite ?Hopen in *; destruct (dc_resolved d'); destruct Hdone; done || lia.
Qed.

(** C6: The executions of a dispute run out: on any path from a reachable
    state, whatever else happens, at most three executions of one case
    succeed. *)
Theorem dispute_terminates k n w w' :
  escrow_reachable w → executions k n w w' → (n ≤ 3)%nat.
Proof.
  intros Hw%escrow_reachable_inv Hx. apply executions_round in Hx as [[Hinv _] Hn]; [|done].
  destruct Hn as [->|(d & Hd & Hle)]; [lia|].
  pose proof (rw_round _ (cw_rounds _ (inv_case_wf _ _ _ Hinv Hd))).
  unfold executed_at_most, MAX_DISPUTE_ROUNDS in *. destruct (dc_resolved d); lia.
Qed.

(** A verdict is final: once a case is resolved, no later transaction
    changes its outcome, its round, its arbitrators, their revealed votes and
    weights or its reward pool, and a reward marked as claimed stays marked. *)
Theorem verdict_is_final w w' k d :
  escrow_reachable w → steps escrow_step w w' → es_cases w.2 !! k = Some d →
  dc_resolved d = true → ∃ d', es_cases w'.2 !! k = Some d' ∧ same_verdict d d'.
Proof.
  intros Hw%escrow_reachable_inv. by apply steps_same_verdict.
Qed.

(** Silence costs the seat: when a round ends undecided and a new one
    opens, every arbitrator who committed without revealing is barred, and no
    later commitment of theirs to that case ever succeeds. *)
Theorem silent_arbitrator_is_barred t c a s s' d i arb t2 s2 c2 sv cm :
  escrow_reachable (t, s) → t ≤ now c → handle_execute_dispute_outcome c a s = Ok s' →
  es_cases s !! xa_case a = Some d →
  (dc_resolved <$> es_cases s' !! xa_case a) = Some false →
  dc_arbitrators d !! i = Some arb → dc_revealed_outcomes d !! i = Some None →
  steps escrow_step (now c, s') (t2, s2) →
  ∀ s3, handle_commit_dispute_vote c2 sv arb (xa_case a) cm s2 ≠ Ok s3.
Proof.
  intros [Hinv Hs]%escrow_reachable_inv Ht Hrun Hd Hopen Harb Hsil Hsteps s3 Hcommit. simpl in *.
  assert (settled_before (now c) s) as Hs'.
  { intros k' d' Hk' Hr. specialize (Hs k' d' Hk' Hr). lia. }
  assert (world_inv (now c, s')) as Hw.
  { split; [by eapply execute_dispute_outcome_inv|by eapply execute_settled]. }
  assert (∃ d', es_cases s' !! xa_case a = Some d' ∧ arb ∈ dc_barred d') as (d' & Hd' & Hbar).
  { apply handle_execute_Ok in Hrun as (x & x' & f & Hl & _ & Hex & ->); [|done].
    pose proof (xl_case _ _ _ _ Hl) as Hdx. assert (x_case x = d) as <- by congruence.
    simpl in *. rewrite lookup_insert_eq in *. injection Hopen as Hopen.
    destruct Hex as [o w x1 _ _ _ _ _ Hc|d' _ Hn Hre ->|reason x1 pub _ _ _ _ _ _ Hc];
      [by rewrite Hc in Hopen| |by rewrite Hc in Hopen].
    eexists. split; [done|]. apply reopen_round_Ok in Hre as (seed & _ & ->). simpl.
    destruct (inv_case_wf _ _ _ Hinv Hd). pose proof (xl_open _ _ _ _ Hl).
    apply (bar_silent_seats_complete _ i); try done. unfold silent. by rewrite Hsil. }
  enough (world_inv (t2, s2) ∧ ∃ d2, es_cases s2 !! xa_case a = Some d2 ∧ arb ∈ dc_barred d2)
    as [_ (d2 & Hd2 & Hbar2)].
  { unfold handle_commit_dispute_vote in Hcommit. inv_escrow. simplify_eq. done. }
  apply (steps_invariant _ (λ w, world_inv w ∧ ∃ d2, es_cases w.2 !! xa_case a = Some d2 ∧
    arb ∈ dc_barred d2)) in Hsteps; [done| |eauto].
  intros w w' [Hww (d1 & Hd1 & Hb1)] Hstep. split; [by eapply escrow_step_inv|].
  destruct (step_case _ _ _ _ Hww Hstep Hd1) as (d2 & Hd2 & [_ _ [r Hr] _]).
  exists d2. split; [done|]. rewrite Hr. apply elem_of_app. auto.
Qed.
End theorems.

(** Witnesses, on the concrete disputes. *)

Lemma tally_is_strict_plurality_witness :
  (tally (case7 voted_run)).1 = Some BuyerWins ↔
    (3 ≤ length (filter (λ r, counts r = true) (votes_of (case7 voted_run))))%nat ∧
    ∀ o', o' ≠ BuyerWins →
      weight_for o' (votes_of (case7 voted_run)) < weight_for BuyerWins (votes_of (case7 voted_run)).
Proof.
  apply (tally_is_strict_plurality (last_time 0 voted_run) (state_after voted_run) dk7).
  - reachable.
  - by vm_compute.
Defined.

Lemma execute7 txs :
  runs (txs ++ [send 200 (ExecuteDisputeOutcome exec7)]) = true →
  handle_execute_dispute_outcome (at_time 200) exec7 (state_after txs)
    = Ok (state_after (txs ++ [send 200 (ExecuteDisputeOutcome exec7)])).
Proof. apply (state_after_snoc txs (at_time 200) staking0 (ExecuteDisputeOutcome exec7)). Qed.

Lemma verdict_pays_exactly_witness :
  ∃ d', es_cases (state_after resolved_run) !! dk7 = Some d' ∧ dc_outcome d' = Some BuyerWins ∧
    dc_reward_remaining d' = 300.
Proof.
  destruct (verdict_pays_exactly (last_time 0 voted_run) (at_time 200) exec7 (state_after voted_run)
    (state_after resolved_run) (case7 voted_run) (escrow7 voted_run) BuyerWins)
    as (_ & _ & _ & _ & f & d' & e' & _ & _ & Hd' & _ & Ho & Hr & _).
  - reachable.
  - apply execute7. by vm_compute.
  - by vm_compute.
  - by vm_compute.
  - by vm_compute.
  - exists d'. split; [exact Hd'|]. split; [exact Ho|]. rewrite Hr. by vm_compute.
Defined.

Lemma undecided_round_reopens_or_splits_witness :
  dc_round (case7 reopened_run) = 1 ∧
  ((∃ d', es_cases (state_after reopened_run) = <[dk7 := d']> (es_cases (state_after silent_run))) ∨
   (∃ d', es_cases (state_after reopened_run) !! dk7 = Some d' ∧ dc_resolved d' = true)).
Proof.
  split; [by vm_compute|].
  destruct (undecided_round_reopens_or_splits (last_time 0 silent_run) (at_time 200) exec7
    (state_after silent_run) (state_after reopened_run) (case7 silent_run) (escrow7 silent_run))
    as [(d' & Hd' & _)|(f & d' & _ & Hd' & Hr & _)].
  - reachable.
  - apply execute7. by vm_compute.
  - by vm_compute.
  - by vm_compute.
  - by vm_compute.
  - left. exists d'. exact Hd'.
  - right. exists d'. exact (conj Hd' Hr).
Defined.

Lemma dispute_terminates_witness : ∃ n w,
  executions dk7 n (last_time 0 voted_run, state_after voted_run) w ∧ n = 1%nat ∧ (n ≤ 3)%nat.
Proof.
  assert (executions dk7 1 (last_time 0 voted_run, state_after voted_run)
    (now (at_time 200), state_after resolved_run)) as Hx.
  { apply (xs_execute dk7 0 _ (last_time 0 voted_run) (at_time 200) staking0 exec7 (state_after voted_run)).
    - apply xs_start.
    - by vm_compute.
    - by vm_compute.
    - apply staking0_typed.
    - reflexivity.
    - apply state_after_snoc. by vm_compute. }
  eexists _, _. split; [exact Hx|]. split; [reflexivity|]. eapply dispute_terminates; [|exact Hx].
  reachable.
Defined.

Lemma verdict_is_final_witness :
  ∃ d', es_cases (state_after claimed_run) !! dk7 = Some d' ∧ same_verdict (case7 resolved_run) d'.
Proof.
  apply (verdict_is_final (last_time 0 resolved_run, state_after resolved_run)
    (last_time 0 claimed_run, state_after claimed_run)).
  - reachable.
  - apply steps_one. apply (step_ix _ (at_time 210) staking0 (ClaimArbitrationReward (arb 1) dk7 (Key 51) OPEN)).
    + by vm_compute.
    + by vm_compute.
    + apply staking0_typed.
    + exact I.
    + apply state_after_snoc. by vm_compute.
  - by vm_compute.
  - by vm_compute.
Defined.

Lemma silent_arbitrator_is_barred_witness :
  runs reopened_run = true ∧
  ∀ s3, handle_commit_dispute_vote (at_time 210) staking0 (arb 1) dk7 (commitment_of BuyerWins salt)
    (state_after reopened_run) ≠ Ok s3.
Proof.
  split; [by vm_compute|].
  apply (silent_arbitrator_is_barred (last_time 0 silent_run) (at_time 200) exec7
    (state_after silent_run) (state_after reopened_run) (case7 silent_run) 0 (arb 1) 200).
  - reachable.
  - by vm_compute.
  - apply execute7. by vm_compute.
  - by vm_compute.
  - by vm_compute.
  - by vm_compute.
  - by vm_compute.
  - apply steps_refl.
Defined.
