(* ===== verification/RewardTheorems.v ===== *)
(** * RewardTheorems: arbitrators, from the draw to the reward

    Opening a case, opening a commitment, and paying the arbitrators who were
    on the winning side; the widening draw, the exact conditions under which a
    commitment is accepted, and the only way a dispute can end before its last
    round without a verdict. *)

From S2P Require Import Prelude Runtime Shared StakingState EscrowState Fees Trade.
From S2P Require Import Dispute Escrow CaseInv EscrowInv TradeInv DisputeInv ExecuteInv.
From S2P Require Import EscrowSafety Scenario Lifecycle.
Import EscrowError.

Section theorems.
Context {L : Type} `{TokenLedger L} `{Hashing}.
Abbreviation state := (escrow_state L).
Implicit Types (s : state) (l : L) (v : LiquidityVault) (e : TradeEscrowVault)
  (d : DisputeCase) (c : chain) (w : Z * state).

(** ** Opening a case *)

(** Opening a dispute freezes the escrow and takes the filing fee out of
    the merchant's deposit vault as far as it reaches: the amount taken moves
    to the pool and becomes the case's deposit, and exactly what is missing is
    recorded as the case's shortfall and added to the merchant's recovery
    claim, so deposit and shortfall always add up to the fee. *)
Theorem open_dispute_takes_deposit t c signer te dm cw rw s s' :
  escrow_reachable (t, s) → handle_open_dispute_case c signer te dm cw rw s = Ok s' →
  ∃ e f v d, es_escrows s !! te = Some e ∧ (signer = te_buyer e ∨ signer = te_seller e) ∧
    es_fee s = Some f ∧ es_vaults s !! liquidity_vault_key (te_seller e) dm = Some v ∧
    es_cases s !! dispute_case_key (te_reservation_id e) = None ∧
    es_cases s' !! dispute_case_key (te_reservation_id e) = Some d ∧ dc_resolved d = false ∧
    es_escrows s' !! te = Some (e <| te_state := Frozen |>) ∧
    dc_deposit d = Z.min (fc_dispute_filing_fee f) (lv_available v) ∧
    dc_deposit d + dc_deposit_shortfall d = fc_dispute_filing_fee f ∧
    (∀ k, balance (es_ledger s') k = balance (es_ledger s) k
       + (if decide (k = arbitration_pool_key) then dc_deposit d else 0)
       - (if decide (k = liquidity_tokens_key (te_seller e) dm) then dc_deposit d else 0)) ∧
    default 0 (rc_owed_total <$> es_claims s' !! recovery_claim_key (te_seller e) dm) =
    default 0 (rc_owed_total <$> es_claims s !! recovery_claim_key (te_seller e) dm)
      + dc_deposit_shortfall d.
Proof.
  intros [Hinv _]%escrow_reachable_inv Hrun. simpl in Hinv.
  apply open_dispute_case_Ok in Hrun as (e & f & v & pool & v' & l' & r & seed & ev &
    -> & He & Hsig & Hst & Hf & Hv & Hpool & Hmint & Hcw & Hrw & Hsf & Htake & Hrec & ->).
  destruct (ei_vault _ Hinv _ _ Hv) as (_ & Hwf & _). pose proof (vw_available _ Hwf).
  pose proof (fw_filing_fee _ (ei_fee _ Hinv _ Hf)).
  apply deposit_took in Htake as Htk; [|ilia].
  do 4 eexists. simpl. rewrite !lookup_insert_eq. split_and!; try done; simpl.
  - by eapply undisputed; [| |right].
  - lia.
  - intros k. by rewrite (tk_balance _ _ _ _ _ _ _ Htk).
  - unfold record_shortfall in Hrec. case_decide; inv_run; simpl;
      destruct (es_claims s !! _); simpl; lia.
Qed.

(** ** Votes *)

(** A reveal opens the arbitrator's own commitment, once, inside the
    reveal window: the stored commitment is the hash of the revealed outcome
    and salt, the seat had not been revealed, and the vote is recorded with
    the arbitrator's effective stake as its weight. *)
Theorem reveal_opens_commitment t c sv arb dk o salt s s' :
  escrow_reachable (t, s) → handle_reveal_dispute_vote c sv arb dk o salt s = Ok s' →
  ∃ d i cfg a, es_cases s !! dk = Some d ∧ dc_arbitrators d !! i = Some arb ∧
    dc_commit_deadline d ≤ now c < dc_reveal_deadline d ∧
    dc_revealed_outcomes d !! i = Some None ∧
    dc_commitments d !! i = Some (sha256 (Z.of_nat (outcome_index o) :: salt)) ∧
    sv_config sv = Some cfg ∧ sv_accounts sv !! stake_account_key arb Arbitrator = Some a ∧
    votes_of <$> es_cases s' !! dk =
      Some (<[i := (Some o, effective_stake a cfg)]> (votes_of d)).
Proof.
  intros [Hinv _]%escrow_reachable_inv Hrun. simpl in Hinv.
  unfold handle_reveal_dispute_vote, load_arbitrator_stake in Hrun. inv_escrow.
  match goal with Hd : es_cases s !! _ = Some _ |- _ =>
    destruct (inv_case_wf _ _ _ Hinv Hd) as [Hb _ _] end.
  do 4 eexists. split; [done|]. split; [by apply seat_of_Some|]. split; [lia|].
  split; [congruence|]. split; [unfold commitment_of in *; congruence|]. split; [done|].
  split; [done|]. simpl. rewrite lookup_insert_eq. simpl. unfold votes_of. simpl.
  by rewrite insert_zip_with.
Qed.

(** A commitment binds: whoever can open one stored commitment to two
    different outcomes holds a collision of the hash, namely the two byte
    strings they revealed. *)
Theorem commitment_binds c1 c2 sv1 sv2 arb dk o1 o2 salt1 salt2 s s1 s2 :
  handle_reveal_dispute_vote c1 sv1 arb dk o1 salt1 s = Ok s1 →
  handle_reveal_dispute_vote c2 sv2 arb dk o2 salt2 s = Ok s2 → o1 ≠ o2 →
  let m1 := Z.of_nat (outcome_index o1) :: salt1 in
  let m2 := Z.of_nat (outcome_index o2) :: salt2 in
  m1 ≠ m2 ∧ sha256 m1 = sha256 m2.
Proof.
  intros H1 H2 Ho. unfold handle_reveal_dispute_vote in *. inv_escrow. simplify_eq.
  split; [|unfold commitment_of in *; congruence]. intros [= Heq _]. apply Ho. by destruct o1, o2.
Qed.

(** ** Rewards *)

Lemma seat_of_lookup d arb i :
  NoDup (dc_arbitrators d) → dc_arbitrators d !! i = Some arb → seat_of d arb = Some i.
Proof.
  intros Hnd Hi. unfold seat_of.
  destruct (list_find (λ a, a = arb) (dc_arbitrators d)) as [[j b]|] eqn:Hf; simpl.
  - apply list_find_Some in Hf as (Hj & -> & _). f_equal. by eapply NoDup_lookup.
  - apply list_find_None in Hf. rewrite Forall_forall in Hf.
    exfalso. eapply Hf; [by eapply list_elem_of_lookup_2|done].
Qed.

(** What a case may be owed is never negative, and is in the pool. *)
Lemma obligation_nonneg d : case_wf d → 0 ≤ obligation d.
Proof.
  intros [_ _ Hm]. unfold obligation. destruct (mw_deposit _ Hm) as [Hdep _].
  destruct (dc_resolved d) eqn:Hr; [|ilia]. destruct (dc_outcome d) as [o|] eqn:Ho.
  - destruct (mw_decided _ Hm _ Ho) as (_ & _ & _ & _ & Hrw). case_decide; [destruct Hrw; lia|lia].
  - destruct (mw_undecided _ Hm Hr Ho). lia.
Qed.

Lemma obligation_backed s k d :
  escrow_inv s → es_cases s !! k = Some d →
  obligation d ≤ balance (es_ledger s) arbitration_pool_key.
Proof.
  intros Hinv Hd. etrans; [|apply (ei_backing _ Hinv arbitration_pool_key)]. simpl.
  apply (map_sum_lookup_le (λ _, obligation) _ _ _ Hd).
  intros j d' Hd'. by eapply obligation_nonneg, inv_case_wf.
Qed.

(** The reward pool of a case decided for the buyer always covers the
    pro-rata shares of the winners who have not been paid, those shares are
    backed by tokens in the arbitration pool, and when every winner has been
    paid nothing is left. *)
Theorem rewards_are_covered t s k d :
  escrow_reachable (t, s) → es_cases s !! k = Some d → dc_outcome d = Some BuyerWins →
  unpaid_shares d BuyerWins ≤ dc_reward_remaining d ≤ dc_reward_pool d ∧
  dc_reward_remaining d ≤ balance (es_ledger s) arbitration_pool_key ∧
  ((∀ i, ¬ unpaid_winner d BuyerWins i) → dc_reward_remaining d = 0).
Proof.
  intros [Hinv _]%escrow_reachable_inv Hd Ho. simpl in Hinv.
  pose proof (inv_case_wf _ _ _ Hinv Hd) as [Hb _ Hm].
  destruct (mw_decided _ Hm _ Ho) as (Hres & _ & _ & _ & Hrw). rewrite decide_True in Hrw by done.
  destruct Hrw as (Hrem & Hpool & Hun & Hdone). split; [lia|]. split; [|done].
  apply obligation_backed in Hd; [|done]. unfold obligation in Hd. by rewrite Hres in Hd.
Qed.

(** A claim pays its arbitrator once, from the pool to the named account:
    the seat voted for the winning outcome with weight and had not been paid,
    the payment is the seat's truncated pro-rata share of the forfeited
    deposit, or everything that is left when it is the last one, and the seat
    is marked as paid. *)
Theorem reward_claim_pays t c arb dk to mint s s' :
  escrow_reachable (t, s) → handle_claim_arbitration_reward c arb dk to mint s = Ok s' →
  ∃ d i amount, es_cases s !! dk = Some d ∧ dc_arbitrators d !! i = Some arb ∧
    dc_outcome d = Some BuyerWins ∧ unpaid_winner d BuyerWins i ∧ pro_rata d i ≤ amount ∧
    (amount = pro_rata d i ∨
     (∀ j, unpaid_winner d BuyerWins j → j = i) ∧ amount = dc_reward_remaining d) ∧
    (∀ k, balance (es_ledger s') k = balance (es_ledger s) k
       + (if decide (k = to) then amount else 0)
       - (if decide (k = arbitration_pool_key) then amount else 0)) ∧
    es_cases s' = <[dk := pay_seat d i amount]> (es_cases s) ∧
    (dc_reward_claimed (pay_seat d i amount) !! i) = Some true.
Proof.
  intros [Hinv _]%escrow_reachable_inv Hrun. simpl in Hinv.
  unfold handle_claim_arbitration_reward in Hrun. inv_escrow.
  match goal with Hd : es_cases s !! _ = Some ?x |- _ => rename Hd into Hcase; set (d := x) in * end.
  match goal with Ho : dc_outcome d = Some ?x |- _ => rename Ho into Hout; set (o := x) in * end.
  match goal with Hi : seat_of _ _ = Some ?x |- _ => rename Hi into Hseat; set (i := x) in * end.
  match goal with Ha : reward_amount _ _ _ = Ok ?x |- _ => rename Ha into Hamt; set (amount := x) in * end.
  assert (unpaid_winner d o i) as Hwin by (by eapply reward_amount_pos_seat).
  pose proof (inv_case_wf _ _ _ Hinv Hcase) as [Hb _ Hm].
  destruct (mw_decided _ Hm _ Hout) as (Hres & _ & _ & _ & Hrw).
  destruct (decide (o = BuyerWins)) as [Ho|]; [|lia]. rewrite Ho in *.
  destruct (reward_amount_spec d BuyerWins (bw_weights _ Hb) Hrw i Hwin) as (am & Ham & Hle & Hor).
  unfold seat_weight in Ham. rewrite Hamt in Ham. injection Ham as <-.
  exists d, i, amount. split; [done|]. split; [by apply seat_of_Some|]. split; [done|].
  split; [done|]. split; [lia|]. split; [naive_solver|]. split; [|split; [done|]].
  - intros k. simpl. match goal with Ht : transfer_checked _ _ _ _ _ _ _ = Some _ |- _ =>
      by rewrite (transfer_balance_eq _ _ _ _ _ _ _ _ _ Ht) end.
  - simpl. apply list_lookup_insert_eq. by eapply unpaid_winner_lt.
Qed.

(** A winner can always collect: in a reachable state, an arbitrator with
    an unpaid winning seat of a case that still holds a reward is paid when
    they ask for it, provided the arbitration pool and the receiving account
    are not frozen, the receiving account is of the deposit's mint and has
    room for the payment. *)
Theorem reward_claim_succeeds t c arb dk to s d i pool dest :
  escrow_reachable (t, s) → es_cases s !! dk = Some d → dc_outcome d = Some BuyerWins →
  dc_arbitrators d !! i = Some arb → unpaid_winner d BuyerWins i → 0 < dc_reward_remaining d →
  is_Some (es_fee s) → is_Some (decimals_of (es_ledger s) (dc_deposit_mint d)) →
  account_of (es_ledger s) arbitration_pool_key = Some pool → ta_frozen pool = false →
  account_of (es_ledger s) to = Some dest → ta_mint dest = dc_deposit_mint d →
  ta_frozen dest = false → ta_amount dest + dc_reward_remaining d ≤ U64_MAX → to ≠ arbitration_pool_key →
  ∃ s', handle_claim_arbitration_reward c arb dk to (dc_deposit_mint d) s = Ok s'.
Proof.
  intros [Hinv _]%escrow_reachable_inv Hd Ho Harb Hwin Hrem [f Hf] [dec Hdec] Hpool Hfz Hto Hm Htf Hroom Hne.
  simpl in Hinv. destruct (ei_case _ Hinv _ _ Hd) as [(Hk & _ & [Hb _ Hmw] & _) (p & Hp & Hpm & Hpo & _)].
  assert (p = pool) as -> by congruence.
  destruct (mw_decided _ Hmw _ Ho) as (Hres & _ & _ & _ & Hrw). rewrite decide_True in Hrw by done.
  destruct (reward_amount_spec d BuyerWins (bw_weights _ Hb) Hrw i Hwin) as (am & Ham & Hle & _).
  pose proof (pro_rata_nonneg d BuyerWins (bw_weights _ Hb) Hrw i).
  pose proof (obligation_backed _ _ _ Hinv Hd) as Hback. unfold obligation in Hback. rewrite Hres in Hback.
  rewrite (balance_account _ _ _ Hpool) in Hback. destruct Hwin as (Hcl & Hrev & Hwt).
  destruct Hrw as (Hrp & Hpu & _).
  destruct (transfer_checked_succeeds (es_ledger s) arbitration_pool_key (dc_deposit_mint d) to
    fee_config_key am dec pool dest) as [l' Hl']; try done; [lia|lia|].
  assert (checked_sub_u64 (dc_reward_remaining d) am = Some (dc_reward_remaining d - am)) as Hsub
    by (apply checked_Some; split; [done|ilia]).
  eexists. unfold handle_claim_arbitration_reward, load_case, load, load_fee, load_token,
    token_transfer, load_mint.
  repeat first [ rewrite require_true by done | progress cbn [ok_or mbind result_bind]
    | rewrite Hd | rewrite Hf | rewrite Hdec | rewrite Hpool | rewrite Hto | rewrite Ho
    | rewrite (seat_of_lookup _ _ i) by (done || apply Hb) | rewrite Hcl
    | fold (seat_weight d i); rewrite Ham | rewrite Hl' | rewrite Hsub ].
  done.
Qed.

(** No reward is paid twice: after an arbitrator's claim on a case has
    succeeded, no later claim of theirs on that case succeeds, whatever
    happens in between. *)
Theorem reward_paid_once t c arb dk to mint s s' t2 s2 c2 to2 mint2 :
  escrow_reachable (t, s) → t ≤ now c → handle_claim_arbitration_reward c arb dk to mint s = Ok s' →
  steps escrow_step (now c, s') (t2, s2) →
  ∀ s3, handle_claim_arbitration_reward c2 arb dk to2 mint2 s2 ≠ Ok s3.
Proof.
  intros Hw%escrow_reachable_inv Ht Hrun Hsteps s3 Hagain.
  assert (world_inv (now c, s')) as Hw'.
  { by apply (process_world t c (mkView None ∅ ∅) (ClaimArbitrationReward arb dk to mint) s). }
  unfold handle_claim_arbitration_reward in Hrun. inv_escrow.
  match goal with Hd : es_cases s !! _ = Some ?x |- _ => rename Hd into Hcase; set (d := x) in * end.
  match goal with Hi : seat_of _ _ = Some ?x |- _ => rename Hi into Hseat; set (i := x) in * end.
  eapply steps_same_verdict in Hsteps as (d2 & Hd2 & Hv); [|done|simpl; apply lookup_insert_eq|done].
  simpl in Hd2. assert (seat_of d2 arb = Some i) as Hseat2.
  { unfold seat_of. by rewrite (sv_arbitrators _ _ Hv). }
  assert (dc_reward_claimed d2 !! i = Some true) as Hpaid.
  { apply (sv_claimed _ _ Hv). simpl. apply list_lookup_insert_eq.
    destruct (dc_reward_claimed d !! i) eqn:Hcl; [by eapply lookup_lt_Some|].
    match goal with Hc : default true _ = false |- _ => rewrite ?Hcl in Hc; by simpl in Hc end. }
  unfold handle_claim_arbitration_reward in Hagain. inv_escrow. simplify_eq.
  match goal with Hc : default true _ = false |- _ => by rewrite Hpaid in Hc end.
Qed.
End theorems.

(** Witnesses, on the concrete disputes. *)

Lemma open_dispute_takes_deposit_witness :
  ∃ d, es_cases (state_after opened_run) !! dk7 = Some d ∧ dc_deposit d + dc_deposit_shortfall d = 500.
Proof.
  destruct (open_dispute_takes_deposit (last_time 0 funding) (at_time 30) buyer te7 OPEN 60 60
    (state_after funding) (state_after opened_run))
    as (e & f & v & d & He & _ & Hf & _ & _ & Hd & _ & _ & _ & Hsum & _).
  - reachable.
  - apply (state_after_snoc funding (at_time 30) staking0 (OpenDisputeCase buyer te7 OPEN 60 60)).
    by vm_compute.
  - assert (te_reservation_id e = 7) as Hid.
    { assert (e = escrow7 funding) as -> by (unfold escrow7; rewrite He; reflexivity). by vm_compute. }
    assert (fc_dispute_filing_fee f = 500) as Hfee.
    { assert (fc_dispute_filing_fee f = default 0 (fc_dispute_filing_fee <$> es_fee (state_after funding)))
        as -> by (rewrite Hf; reflexivity).
      by vm_compute. }
    rewrite Hid in Hd. exists d. split; [exact Hd|]. rewrite Hsum. exact Hfee.
Defined.

Lemma reveal_opens_commitment_witness :
  ∃ i, dc_arbitrators (case7 committed_run) !! i = Some (arb 1) ∧
    dc_commitments (case7 committed_run) !! i = Some (sha256 (0 :: salt)).
Proof.
  destruct (reveal_opens_commitment (last_time 0 committed_run) (at_time 90) staking0 (arb 1) dk7
    BuyerWins salt (state_after committed_run) (state_after revealed_run))
    as (d & i & cfg & a & Hd & Hi & _ & _ & Hc & _).
  - reachable.
  - apply (state_after_snoc committed_run (at_time 90) staking0 (RevealDisputeVote (arb 1) dk7 BuyerWins salt)).
    by vm_compute.
  - exists i. unfold case7. rewrite Hd. exact (conj Hi Hc).
Defined.

(** Two openings of one commitment under the scenario's hash, whose collisions
    can be computed. *)
Definition salt_a : list Z :=
  [ 33; 243; 56; 221; 222; 253; 0; 170; 148; 105; 9; 158; 246; 5; 45; 214; 29; 188; 160;
     141; 62; 73; 67; 139; 114; 52; 188; 8; 178; 96; 250; 225 ].
Definition salt_b : list Z := [0; 0; 0; 0; 0; 0; 1; 0; 0; 0; 0; 0; 0; 0; 0; 0; 0; 0; 0; 0; 0; 0; 0; 0; 0; 0; 0; 0; 0; 0; 0; 0].
Definition collision_run : list tx :=
  opened_run ++ [send 31 (CommitDisputeVote (arb 1) dk7 (commitment_of BuyerWins salt_a))].
Definition reveal_a : tx := send 90 (RevealDisputeVote (arb 1) dk7 BuyerWins salt_a).
Definition reveal_b : tx := send 90 (RevealDisputeVote (arb 1) dk7 MerchantWins salt_b).

Lemma commitment_binds_witness :
  0 :: salt_a ≠ 1 :: salt_b ∧ sha256 (0 :: salt_a) = sha256 (1 :: salt_b).
Proof.
  apply (commitment_binds (at_time 90) (at_time 90) staking0 staking0 (arb 1) dk7
    BuyerWins MerchantWins salt_a salt_b (state_after collision_run)
    (state_after (collision_run ++ [reveal_a])) (state_after (collision_run ++ [reveal_b]))).
  - apply (state_after_snoc collision_run (at_time 90) staking0 (RevealDisputeVote (arb 1) dk7 BuyerWins salt_a)).
    by vm_compute.
  - apply (state_after_snoc collision_run (at_time 90) staking0 (RevealDisputeVote (arb 1) dk7 MerchantWins salt_b)).
    by vm_compute.
  - discriminate.
Defined.

Lemma rewards_are_covered_witness :
  unpaid_shares (case7 resolved_run) BuyerWins ≤ dc_reward_remaining (case7 resolved_run)
    ≤ dc_reward_pool (case7 resolved_run).
Proof.
  destruct (rewards_are_covered (last_time 0 resolved_run) (state_after resolved_run) dk7
    (case7 resolved_run)) as [Hcov _].
  - reachable.
  - by vm_compute.
  - by vm_compute.
  - exact Hcov.
Defined.

Lemma claim7 :
  handle_claim_arbitration_reward (at_time 210) (arb 1) dk7 (Key 51) OPEN (state_after resolved_run)
  = Ok (state_after claimed_run).
Proof.
  apply (state_after_snoc resolved_run (at_time 210) staking0 (ClaimArbitrationReward (arb 1) dk7 (Key 51) OPEN)).
  by vm_compute.
Qed.

Lemma reward_claim_pays_witness :
  ∃ i, dc_arbitrators (case7 resolved_run) !! i = Some (arb 1) ∧
    unpaid_winner (case7 resolved_run) BuyerWins i.
Proof.
  destruct (reward_claim_pays (last_time 0 resolved_run) (at_time 210) (arb 1) dk7 (Key 51) OPEN
    (state_after resolved_run) (state_after claimed_run)) as (d & i & amount & Hd & Hi & _ & Hw & _).
  - reachable.
  - apply claim7.
  - exists i. unfold case7. rewrite Hd. exact (conj Hi Hw).
Defined.

Lemma reward_claim_succeeds_witness :
  ∃ s', handle_claim_arbitration_reward (at_time 210) (arb 2) dk7 (Key 52)
    (dc_deposit_mint (case7 resolved_run)) (state_after resolved_run) = Ok s'.
Proof.
  apply (reward_claim_succeeds (last_time 0 resolved_run) (at_time 210) (arb 2) dk7 (Key 52)
    (state_after resolved_run) (case7 resolved_run) 1
    (holding OPEN fee_config_key 300) (holding OPEN (arb 2) 0)).
  - reachable.
  - by vm_compute.
  - by vm_compute.
  - by vm_compute.
  - by vm_compute.
  - by vm_compute.
  - eexists. vm_compute. reflexivity.
  - eexists. vm_compute. reflexivity.
  - by vm_compute.
  - reflexivity.
  - by vm_compute.
  - by vm_compute.
  - reflexivity.
  - by vm_compute.
  - by vm_compute.
Defined.

Lemma reward_paid_once_witness :
  runs claimed_run = true ∧
  ∀ s3, handle_claim_arbitration_reward (at_time 220) (arb 1) dk7 (Key 51) OPEN
    (state_after claimed_run) ≠ Ok s3.
Proof.
  split; [by vm_compute|].
  apply (reward_paid_once (last_time 0 resolved_run) (at_time 210) (arb 1) dk7 (Key 51) OPEN
    (state_after resolved_run) (state_after claimed_run) 210).
  - reachable.
  - by vm_compute.
  - apply claim7.
  - apply steps_refl.
Defined.

(** ** The draw *)

(** The threshold of the draw follows one schedule: for a usable setting
    and window the window is cut into eight slices, the threshold starts at
    the configured value, doubles with each slice up to everyone, and is
    everyone in the last slice; for a setting of zero or of the whole range,
    or an empty window, it is everyone from the start.  No intermediate value
    overflows or is truncated. *)
Theorem sortition_schedule i ws we now :
  u16 i → i64 ws → i64 we → i64 now →
  sortition_threshold_bps i ws we now =
    if decide (i = 0 ∨ 10000 ≤ i ∨ we ≤ ws ∨ I64_MAX < we - ws) then 10000
    else slice_threshold i (slice_at ws we now).
Proof. apply sortition_threshold_schedule. Qed.

Section draw.
Context `{Hashing}.

(** The draw only widens and always opens: a stake account that is drawn
    at some time of the window stays drawn, and in the last eighth of the
    window every account is drawn, so a case can never be closed to everyone
    by its seed. *)
Theorem draw_widens seed k i ws we n1 n2 :
  u16 i → i64 ws → i64 we → i64 n1 → i64 n2 → n1 ≤ n2 →
  (qualifies_for_seat seed k i ws we n1 = true → qualifies_for_seat seed k i ws we n2 = true) ∧
  (7 * (we - ws) ≤ 8 * (n2 - ws) → qualifies_for_seat seed k i ws we n2 = true).
Proof.
  intros Hi Hws Hwe Hn1 Hn2 Hle. unfold qualifies_for_seat.
  destruct (decide (i = 0)) as [|Hi0]; [done|]. rewrite !sortition_threshold_schedule by done.
  pose proof (sortition_ticket_range seed k) as Ht. case_decide as Hd.
  { by rewrite !bool_decide_eq_true_2 by lia. }
  split.
  - rewrite !bool_decide_eq_true. intros Hq. eapply Z.lt_le_trans; [done|].
    pose proof (slice_at_range ws we n1 ltac:(lia)). pose proof (slice_at_range ws we n2 ltac:(lia)).
    apply slice_threshold_mono; [ilia| |lia]. split; [lia|]. apply slice_at_mono; lia.
  - intros Hlast. rewrite bool_decide_eq_true. unfold slice_threshold.
    rewrite decide_True by (apply slice_at_last; lia). lia.
Qed.
End draw.

Section theorems.
Context {L : Type} `{TokenLedger L} `{Hashing}.
Abbreviation state := (escrow_state L).
Implicit Types (s : state) (l : L) (d : DisputeCase) (c : chain) (w : Z * state).

(** ** Taking a seat *)

(** A commitment is accepted exactly when the arbitrator's stake reaches
    the role's minimum and the configured age, the commit window is open, the
    arbitrator is not barred, is drawn, has no seat yet, and one of the seven
    seats is free; and it then takes the next seat with that commitment,
    nothing else changing. *)
Theorem commit_accepts_exactly t s c sv arb dk cm d cfg a f :
  escrow_reachable (t, s) → es_cases s !! dk = Some d → es_fee s = Some f →
  sv_config sv = Some cfg → sv_accounts sv !! stake_account_key arb Arbitrator = Some a →
  sa_role a = Arbitrator → u64 (sa_amount a) → u32 (dc_seats_taken_total d + 1) →
  let seated := d <| dc_arbitrators := dc_arbitrators d ++ [arb] |>
    <| dc_commitments := dc_commitments d ++ [cm] |>
    <| dc_revealed_outcomes := dc_revealed_outcomes d ++ [None] |>
    <| dc_weights := dc_weights d ++ [0] |>
    <| dc_seats_taken_total := dc_seats_taken_total d + 1 |> in
  ∀ s', handle_commit_dispute_vote c sv arb dk cm s = Ok s' ↔
    s' = put_case s dk seated ∧
    min_stake_for cfg Arbitrator ≤ sa_amount a ∧
    meets_stake_age a (now c) (fc_min_arbitrator_stake_age_secs f) ∧
    now c < dc_commit_deadline d ∧ ¬ arb ∈ dc_barred d ∧ ¬ arb ∈ dc_arbitrators d ∧
    (length (dc_arbitrators d) < 7)%nat ∧
    qualifies_for_seat (dc_case_seed d) (stake_account_key arb Arbitrator)
      (fc_arbitrator_sortition_bps f) (dc_round_opened_at d) (dc_commit_deadline d) (now c) = true.
Proof.
  intros [Hinv _]%escrow_reachable_inv Hd Hf Hcfg Ha Hrole Hamt Htaken seated s'. simpl in Hinv.
  assert (min_stake_for cfg Arbitrator ≤ effective_stake a cfg ↔
    min_stake_for cfg Arbitrator ≤ sa_amount a) as Hmin.
  { unfold effective_stake. rewrite Hrole. case_decide; ilia. }
  split.
  - intros Hrun. unfold handle_commit_dispute_vote, load_arbitrator_stake in Hrun. inv_escrow.
    simplify_eq. unfold MAX_ARBITRATORS in *. rewrite <-Hmin. done.
  - intros (-> & Hst & Hage & Hdl & Hbar & Hseat & Hlen & Hq). apply Hmin in Hst.
    destruct (ei_case _ Hinv _ _ Hd) as [(Hk & _) _].
    unfold handle_commit_dispute_vote, load_arbitrator_stake, load_case, load_fee, load.
    repeat first [ rewrite require_true by done | progress cbn [ok_or mbind result_bind]
      | rewrite Hd | rewrite Hf | rewrite Hcfg | rewrite Ha ].
    assert (checked_add_u32 (dc_seats_taken_total d) 1 = Some (dc_seats_taken_total d + 1)) as ->
      by (by apply checked_Some).
    done.
Qed.

(** ** Ending early *)

(** A dispute ends without a verdict before its third round only on
    published evidence: the executor passed the policy account, the admin has
    published a pool size other than zero, and that size and the seats already
    taken are both below the arbitrators the next round needs, three plus the
    barred ones.  Without a published size the rounds are never cut short. *)
Theorem early_end_needs_published_pool t s c a s' d d' :
  escrow_reachable (t, s) → handle_execute_dispute_outcome c a s = Ok s' →
  es_cases s !! xa_case a = Some d → es_cases s' !! xa_case a = Some d' →
  dc_round d + 1 < 3 → dc_resolved d' = true → dc_outcome d' = None →
  ∃ p, xa_policy a = Some arbitration_policy_key ∧ es_policy s = Some p ∧
    ap_eligible_arbitrators p ≠ 0 ∧ dc_terminal_reason d' = Some PoolExhausted ∧
    ap_eligible_arbitrators p < 3 + Z.of_nat (length (dc_barred d')) ∧
    dc_seats_taken_total d < 3 + Z.of_nat (length (dc_barred d')).
Proof.
  intros [Hinv _]%escrow_reachable_inv Hrun Hd Hd' Hround Hres Hout. simpl in Hinv.
  apply handle_execute_Ok in Hrun as (x & x' & f & Hl & _ & Hex & ->); [|done].
  pose proof (xl_case _ _ _ _ Hl) as Hx. assert (x_case x = d) as <- by congruence.
  simpl in Hd'. rewrite lookup_insert_eq in Hd'. injection Hd' as <-.
  destruct Hex as [o w x1 _ _ _ _ _ Hc|d' _ _ (seed & _ & ->)%reopen_round_Ok ->|reason x1 pub _ Hpub Hfl _ _ _ Hc].
  - by rewrite Hc in Hout.
  - simpl in Hres. by rewrite (xl_open _ _ _ _ Hl) in Hres.
  - rewrite Hc. simpl. cbv zeta in Hfl. rewrite decide_False in Hfl by (unfold MAX_DISPUTE_ROUNDS; lia).
    destruct Hfl as [-> Hfl]. unfold next_round_is_staffable in Hfl. case_decide as Hz; [done|].
    apply bool_decide_eq_false in Hfl. unfold required_for_next_round, evidenced_pool in Hfl. simpl in Hz, Hfl.
    unfold published_pool_size in Hpub. destruct (xa_policy a) as [k|]; [|inv_ok; lia]. inv_run.
    match goal with Hp : es_policy s = Some ?q |- _ => exists q end.
    split; [congruence|]. split; [done|]. split; [done|]. split; [done|]. unfold MIN_ARBITRATORS in *. lia.
Qed.
End theorems.

(** Witnesses. *)

Lemma sortition_schedule_witness :
  sortition_threshold_bps 500 30 90 60 = 8000 ∧
  sortition_threshold_bps 500 30 90 60
    = if decide (500 = 0 ∨ 10000 ≤ 500 ∨ 90 ≤ 30 ∨ I64_MAX < 90 - 30) then 10000
      else slice_threshold 500 (slice_at 30 90 60).
Proof. split; [by vm_compute|]. apply sortition_schedule; by vm_compute. Defined.

(** Under the scenario's hash the first arbitrator is drawn in the last eighth
    of the window. *)
Lemma draw_widens_witness :
  qualifies_for_seat (replicate 32 0) (stake_account_key (arb 1) Arbitrator) 1 30 110 100 = true.
Proof. apply (draw_widens _ _ _ _ _ 40 100); by vm_compute. Defined.

Definition staking_config0 : StakingConfig :=
  default (mkStakingConfig admin OPEN [] [] 0 admin admin admin) (sv_config staking0).

Lemma commit_accepts_exactly_witness :
  ∃ s', handle_commit_dispute_vote (at_time 31) staking0 (arb 1) dk7 (commitment_of BuyerWins salt)
    (state_after opened_run) = Ok s'.
Proof.
  eexists.
  apply (commit_accepts_exactly (last_time 0 opened_run) (state_after opened_run) (at_time 31)
    staking0 (arb 1) dk7 (commitment_of BuyerWins salt) (case7 opened_run) staking_config0
    (snd (arb_stake 1 1000)) (fee_after opened_run)).
  - reachable.
  - by vm_compute.
  - by vm_compute.
  - reflexivity.
  - by vm_compute.
  - reflexivity.
  - by vm_compute.
  - by vm_compute.
  - split; [reflexivity|]. split; [by vm_compute|]. split; [by vm_compute|]. split; [by vm_compute|].
    assert (dc_barred (case7 opened_run) = [] ∧ dc_arbitrators (case7 opened_run) = []) as [-> ->]
      by (by vm_compute).
    split; [apply not_elem_of_nil|]. split; [apply not_elem_of_nil|]. split; [simpl; lia|by vm_compute].
Defined.

(** A pool of three, two of whom fall silent in the first round. *)
Definition exec7p : exec_accounts :=
  mkExecAccounts dk7 te7 USDC (Key 43) treas OPEN (liquidity_vault_key merchant OPEN)
    (Some arbitration_policy_key).
Definition small_pool_run : list tx :=
  funding ++ [ send 19 (PublishArbitratorPoolSize admin 3);
               send 30 (OpenDisputeCase buyer te7 OPEN 60 60);
               commit_vote 31 1 BuyerWins; commit_vote 32 2 BuyerWins ].
Definition exhausted_run : list tx := small_pool_run ++ [send 200 (ExecuteDisputeOutcome exec7p)].

Lemma early_end_needs_published_pool_witness :
  ∃ p, es_policy (state_after small_pool_run) = Some p ∧
    ap_eligible_arbitrators p < 3 + Z.of_nat (length (dc_barred (case7 exhausted_run))).
Proof.
  destruct (early_end_needs_published_pool (last_time 0 small_pool_run) (state_after small_pool_run)
    (at_time 200) exec7p (state_after exhausted_run) (case7 small_pool_run) (case7 exhausted_run))
    as (p & _ & Hp & _ & _ & Hlt & _).
  - reachable.
  - apply (state_after_snoc small_pool_run (at_time 200) staking0 (ExecuteDisputeOutcome exec7p)).
    by vm_compute.
  - by vm_compute.
  - by vm_compute.
  - by vm_compute.
  - by vm_compute.
  - by vm_compute.
  - exists p. exact (conj Hp Hlt).
Defined.
