(* ===== verification/SystemTheorems.v ===== *)
(** * SystemTheorems: what the two programs guarantee together

    Stakes are backed, the debt counters agree, debts come before
    withdrawals, recoveries and slashes take exactly what they say, and an
    arbitrator's stake is as old as it looks. *)

From S2P Require Import Prelude Runtime Shared StakingState Staking StakingInv.
From S2P Require Import EscrowState Fees Trade Dispute Escrow CaseInv EscrowInv TradeInv DisputeInv.
From S2P Require Import ExecuteInv EscrowSafety Frame System Relay Scenario SystemScenario.
Import StakingError.

Section theorems.
Context {L : Type} `{TokenLedger L} `{Hashing}.
Implicit Types (es : escrow_state L) (st : staking_state L) (y : system L) (l : L) (c : chain)
  (a : StakeAccount).

(** Every position is empty, was started at [t1] or later, or was already open
    in [y1]. *)
Definition clocked t1 y1 (w : Z * system L) : Prop :=
  sys_inv w ∧ t1 ≤ w.1 ∧
  ∀ k a, st_accounts (sy_staking w.2) !! k = Some a →
    sa_amount a = 0 ∨ t1 ≤ first_staked_at a ∨
    ∃ b, st_accounts (sy_staking y1) !! k = Some b ∧ 0 < sa_amount b.

Lemma clock_step t1 y1 w w' : clocked t1 y1 w → sys_step w w' → clocked t1 y1 w'.
Proof.
  intros (Hinv & Ht & Hc) Hstep. split; [by eapply sys_step_inv|].
  destruct Hinv as [_ Hst _]. destruct Hstep as [t c i y es' ? _ _ _ _|t c i y st' ? _ Hty _ _ Hrun|t t' y l' ? _ _];
    simpl in *; (split; [lia|]); [done| |done].
  intros k a Ha. destruct (process_clock _ _ _ _ _ _ Hst Hty Hrun Ha) as [?|[->|(b & Hb & Hpos & ->)]];
    [auto|right; left; lia|]. destruct (Hc _ _ Hb) as [?|[?|?]]; [lia|auto|auto].
Qed.

Lemma clock_path t1 y1 w :
  sys_inv (t1, y1) → steps sys_step (t1, y1) w → clocked t1 y1 w.
Proof.
  intros Hinv Hsteps. eapply (steps_invariant _ (clocked t1 y1)); [|done|].
  - intros ? ?. apply clock_step.
  - split; [done|]. simpl. split; [lia|]. intros k a Ha.
    destruct (inv_accounts _ (si_staking _ Hinv) _ _ Ha) as [_ [[? _] _]].
    destruct (decide (sa_amount a = 0)); [auto|]. right; right. exists a. split; [done|lia].
Qed.

(** ** Composition *)

(** C5: Running the two programs on one ledger, each reading the other's real
    accounts, takes neither outside the states it reaches alone: the escrow
    part of a reachable system is a reachable escrow state, the staking part a
    reachable staking state, and they agree on the ledger.  So each program
    meets the assumptions the other makes about it. *)
Theorem programs_compose t y :
  sys_reachable (t, y) →
  escrow_reachable (t, sy_escrow y) ∧
  (∃ l, steps staking_step (staking_init l) (sy_staking y)) ∧
  es_ledger (sy_escrow y) = st_ledger (sy_staking y).
Proof.
  intros Hy. split; [by apply sys_reachable_escrow|]. split; [by eapply sys_reachable_staking|].
  apply (si_ledger _ (sys_reachable_inv _ Hy)).
Qed.

(** C9: The stake vault holds at least the active and unbonding stakes of all
    accounts together, so every staker can be paid whatever the others do. *)
Theorem stakes_are_backed t y :
  sys_reachable (t, y) →
  map_sum (λ _ a, sa_amount a + unbonding_amount a) (st_accounts (sy_staking y))
    ≤ balance (st_ledger (sy_staking y)) stake_vault_key ∧
  ∀ k a, st_accounts (sy_staking y) !! k = Some a →
    0 ≤ sa_amount a ∧ 0 ≤ unbonding_amount a ∧
    sa_amount a + unbonding_amount a ≤ balance (st_ledger (sy_staking y)) stake_vault_key.
Proof.
  intros Hinv%sys_reachable_inv%si_staking. simpl in Hinv. split; [apply (inv_backing _ Hinv)|].
  intros k a Ha. pose proof (stake_backed _ _ _ Hinv Ha) as Hb.
  destruct (inv_accounts _ Hinv _ _ Ha) as [_ ([? _] & [? _] & _)]. done.
Qed.

(** ** The debt relay *)

(** C12: The counters of the two programs never contradict each other: what
    escrow has credited to a merchant never exceeds what staking has
    recovered, and that never exceeds what escrow says the merchant owes. *)
Theorem relay_counters_agree t y cfg m :
  sys_reachable (t, y) → st_config (sy_staking y) = Some cfg →
  credited (sy_escrow y) (recovery_claim_key m (sc_mint cfg))
    ≤ recovered (st_receipts (sy_staking y)) m
    ≤ owed (sy_escrow y) (recovery_claim_key m (sc_mint cfg)).
Proof.
  intros Hy Hcfg. pose proof (sys_reachable_relay _ Hy) as [Hc Hr]. simpl in *. split; [apply Hc|].
  apply sys_reachable_inv in Hy as [[He _] _ _].
  destruct (Hr m) as [Hz|(cfg' & Hcfg' & Hle)]; [|by simplify_eq].
  pose proof (owed_nonneg _ (recovery_claim_key m (sc_mint cfg)) He). simpl in *. lia.
Qed.

(** The recovery claim escrow stores is the one staking reads: decoding
    the bytes of a claim returns its merchant, its mint and the amount owed. *)
Theorem claim_bytes_roundtrip (r : StakeRecoveryClaim) bump :
  anchor_discriminator "StakeRecoveryClaim" = STAKE_RECOVERY_CLAIM_DISCRIMINATOR →
  u64 (rc_owed_total r) →
  read_stake_recovery_claim (mkInfo ESCROW (encode_claim r bump)) (rc_merchant r) (rc_mint r)
  = Ok (Some (mkClaimView (key_bytes (rc_merchant r)) (key_bytes (rc_mint r)) (rc_owed_total r))).
Proof. apply read_claim_encode. Qed.

(** Debts come first: while escrow records more owed than staking has
    recovered, the merchant cannot withdraw unbonded merchant stake, to any
    account and at any time. *)
Theorem debt_blocks_withdrawal t y c cfg m to mint :
  sys_reachable (t, y) → chain_reads c (sy_escrow y) → st_config (sy_staking y) = Some cfg →
  recovered (st_receipts (sy_staking y)) m
    < owed (sy_escrow y) (recovery_claim_key m (sc_mint cfg)) →
  ∀ st', handle_withdraw_unstaked c m (stake_account_key m Merchant) to mint (sy_staking y) ≠ Ok st'.
Proof.
  intros [[He _] Hst _]%sys_reachable_inv Hrd Hcfg Hdebt st' Hrun. simpl in *.
  unfold handle_withdraw_unstaked in Hrun. inv_staking.
  match goal with Hk : stake_account_key _ Merchant = stake_account_key _ ?r |- _ =>
    apply stake_key_role in Hk as Hrole end.
  simplify_eq.
  match goal with Hif : (if decide _ then _ else _) = Ok _ |- _ =>
    rewrite decide_True in Hif by done; rewrite Hrd in Hif; inv_staking end.
  match goal with Hr : read_stake_recovery_claim _ _ _ = Ok _ |- _ =>
    apply read_claim_owed in Hr; [|done] end.
  match goal with Hr : recovered_total_of _ _ = Ok _ |- _ => rewrite receipt_read in Hr by done; inv_ok end.
  unfold outstanding, saturating_sub_u64, owed in *. lia.
Qed.

(** A staker is never locked in: once the unbonding period is over, and a
    merchant owes nothing more, the withdrawal succeeds and pays the whole
    unbonding amount, provided the stake vault and the receiving account are
    not frozen and the latter is of the staking mint and has room. *)
Theorem withdrawal_succeeds t y c cfg owner role a to dec vault dest :
  anchor_discriminator "StakeRecoveryClaim" = STAKE_RECOVERY_CLAIM_DISCRIMINATOR →
  sys_reachable (t, y) → chain_reads c (sy_escrow y) → st_config (sy_staking y) = Some cfg →
  st_accounts (sy_staking y) !! stake_account_key owner role = Some a →
  0 < unbonding_amount a → unbonding_release_at a ≤ now c →
  (role = Merchant → owed (sy_escrow y) (recovery_claim_key owner (sc_mint cfg))
    ≤ recovered (st_receipts (sy_staking y)) owner) →
  let l := st_ledger (sy_staking y) in
  decimals_of l (sc_mint cfg) = Some dec →
  account_of l stake_vault_key = Some vault → ta_frozen vault = false →
  account_of l to = Some dest → ta_mint dest = sc_mint cfg → ta_frozen dest = false →
  ta_amount dest + unbonding_amount a ≤ U64_MAX → to ≠ stake_vault_key →
  ∃ st', handle_withdraw_unstaked c owner (stake_account_key owner role) to (sc_mint cfg) (sy_staking y)
      = Ok st' ∧
    (∀ k, balance (st_ledger st') k = balance l k
       + (if decide (k = to) then unbonding_amount a else 0)
       - (if decide (k = stake_vault_key) then unbonding_amount a else 0)).
Proof.
  intros Hdisc [[He _] Hst _]%sys_reachable_inv Hrd Hcfg Ha Hpos Hrel Hdebt l Hdec Hv Hvf Hto Hm Hf Hroom Hne.
  subst l. simpl in *. destruct (inv_accounts _ Hst _ _ Ha) as [Hk Hwf].
  destruct (StakingInv.inv_config _ Hst _ Hcfg) as [_ [(vault' & Hv' & Hvm & Hvo & _) _]].
  assert (vault' = vault) as -> by congruence.
  pose proof (stake_backed _ _ _ Hst Ha) as Hb. rewrite (balance_account _ _ _ Hv) in Hb.
  destruct Hwf as (Hu1 & Hu2 & _).
  assert (sa_owner a = owner ∧ sa_role a = role) as [Ho Hr].
  { injection Hk as Hk1 Hk2%Nat2Z.inj. split; [done|]. by apply role_index_inj. }
  destruct (transfer_checked_succeeds (st_ledger (sy_staking y)) stake_vault_key (sc_mint cfg) to
    staking_config_key (unbonding_amount a) dec vault dest) as [l' Hl']; try done; [ilia|].
  exists (sy_staking y <| st_ledger := l' |> <| st_accounts := <[stake_account_key owner role :=
    a <| unbonding_amount := 0 |>]> (st_accounts (sy_staking y)) |>).
  split; [|intros k; by apply (transfer_balance_eq _ _ _ _ _ _ _ _ k Hl')].
  unfold handle_withdraw_unstaked, load_config, load_own_stake, load, load_token, token_transfer, load_mint.
  repeat first [ rewrite require_true by congruence | progress cbn [ok_or mbind result_bind]
    | rewrite Hcfg | rewrite Ha | rewrite Hv | rewrite Hto ].
  assert ((if decide (sa_role a = Merchant)
    then claim ← read_stake_recovery_claim (info_at c (recovery_claim_key owner (sc_mint cfg))) owner (sc_mint cfg);
         rec ← recovered_total_of (receipt_info (sy_staking y) owner) owner;
         require (outstanding (default 0 (cv_owed_total <$> claim)) rec = 0) (Code StakeRecoveryOutstanding)
    else Ok ()) = Ok ()) as ->.
  { case_decide; [|done]. destruct (read_claim_total _ owner (sc_mint cfg) Hdisc He) as (view & Hview).
    rewrite Hrd, Hview. cbn [mbind result_bind]. rewrite receipt_read by done. cbn [mbind result_bind].
    apply read_claim_owed in Hview; [|done]. specialize (Hdebt ltac:(congruence)).
    unfold require. rewrite decide_True; [done|]. unfold outstanding, saturating_sub_u64, owed in *. lia. }
  cbn [mbind result_bind]. rewrite Hdec. cbn [ok_or mbind result_bind]. rewrite Hl'. done.
Qed.

(** A recovery takes the merchant's outstanding debt as far as the stake
    reaches, unbonding stake first: exactly that amount moves from the stake
    vault to the merchant's liquidity account, leaves the stake, and is added
    to the receipt. *)
Theorem recovery_takes_debt t y c k mint st' :
  sys_reachable (t, y) → chain_reads c (sy_escrow y) →
  handle_recover_stake_shortfall c k mint (sy_staking y) = Ok st' →
  ∃ a a' taken, st_accounts (sy_staking y) !! k = Some a ∧ sa_role a = Merchant ∧ 0 < taken ∧
    taken = Z.min (owed (sy_escrow y) (recovery_claim_key (sa_owner a) mint)
                   - recovered (st_receipts (sy_staking y)) (sa_owner a))
                  (unbonding_amount a + sa_amount a) ∧
    st_accounts st' = <[k := a']> (st_accounts (sy_staking y)) ∧
    unbonding_amount a' = Z.max 0 (unbonding_amount a - taken) ∧
    unbonding_amount a' + sa_amount a' = unbonding_amount a + sa_amount a - taken ∧
    (sa_amount a' = 0 → first_staked_at a' = 0) ∧
    recovered (st_receipts st') (sa_owner a)
      = recovered (st_receipts (sy_staking y)) (sa_owner a) + taken ∧
    ∀ j, balance (st_ledger st') j = balance (st_ledger (sy_staking y)) j
       + (if decide (j = liquidity_tokens_key (sa_owner a) mint) then taken else 0)
       - (if decide (j = stake_vault_key) then taken else 0).
Proof.
  intros [[He _] Hst _]%sys_reachable_inv Hrd Hrun. simpl in *.
  unfold handle_recover_stake_shortfall in Hrun. inv_staking.
  match goal with Ha : st_accounts (sy_staking y) !! _ = Some ?b |- _ =>
    destruct (inv_accounts _ Hst _ _ Ha) as [_ (Hu1 & Hu2 & _)]; rename b into a end.
  match goal with Hr : read_stake_recovery_claim _ _ _ = Ok _ |- _ =>
    rewrite Hrd in Hr; apply read_claim_owed in Hr as Howed; [|done] end.
  fold (recovered_receipt (st_receipts (sy_staking y)) (sa_owner a)) in *.
  rewrite recovered_receipt_total in *. fold (owed (sy_escrow y) (recovery_claim_key (sa_owner a) (sc_mint x0))) in Howed.
  rewrite Howed in *. unfold outstanding in *.
  match goal with Hp : 0 < saturating_sub_u64 ?o ?r |- _ =>
    assert (saturating_sub_u64 o r = o - r) as Hdue by (unfold saturating_sub_u64 in *; lia);
    rewrite Hdue in *; set (due := o - r) in * end.
  pose proof (recovery_split due (unbonding_amount a) (sa_amount a)) as Hsum.
  rewrite Hsum in * by ilia. clear Hsum.
  eexists a, _, _. split; [done|]. split; [done|]. split; [|split; [reflexivity|]]; [lia|].
  simpl. split; [done|]. split; [case_decide; simpl; ilia|].
  split; [case_decide; simpl; unfold saturating_sub_u64 in *; ilia|]. split; [case_decide; simpl; done|].
  split; [unfold recovered; rewrite lookup_insert_eq; done|].
  intros j. by eapply transfer_balance_eq.
Qed.

(** A slash takes exactly the configured share of the active stake: only
    the slashing authority can order it, the truncated share moves from the
    stake vault to the configured destination, it is never more than the
    stake, and unbonding stake and rewards are untouched. *)
Theorem slash_takes_share t y c auth k dest mint code st' :
  sys_reachable (t, y) → handle_slash c auth k dest mint code (sy_staking y) = Ok st' →
  ∃ cfg a, st_config (sy_staking y) = Some cfg ∧ auth = slashing_authority cfg ∧
    dest = slash_destination cfg ∧ st_accounts (sy_staking y) !! k = Some a ∧
    let cut := sa_amount a * slash_bps cfg / 10000 in
    0 ≤ cut ≤ sa_amount a ∧
    st_accounts st' = <[k := mkStakeAccount (sa_owner a) (sa_role a) (sa_amount a - cut)
      (unbonding_amount a) (unbonding_release_at a) (slashed_total a + cut) (pending_rewards a)
      (if decide (sa_amount a - cut = 0) then 0 else first_staked_at a)]> (st_accounts (sy_staking y)) ∧
    ∀ j, balance (st_ledger st') j = balance (st_ledger (sy_staking y)) j
       + (if decide (j = dest) then cut else 0) - (if decide (j = stake_vault_key) then cut else 0).
Proof.
  intros Hst%sys_reachable_inv%si_staking Hrun. simpl in Hst. unfold handle_slash in Hrun. inv_staking.
  destruct (StakingInv.inv_config _ Hst _ ltac:(eassumption)) as [Hcw _].
  destruct (inv_accounts _ Hst _ _ ltac:(eassumption)) as [_ Hwf].
  destruct (slash_amount_le _ _ Hcw Hwf) as [Heq Hle]. rewrite Heq in *.
  do 2 eexists. split; [done|]. split; [done|]. split; [done|]. split; [done|]. cbv zeta.
  split; [done|]. simpl. split.
  - match goal with Ht : (if decide (0 < _) then _ else _) = Ok _ |- _ => clear Ht end.
    by case_decide.
  - intros j. match goal with Ht : (if decide (0 < _) then _ else _) = Ok _ |- _ => revert Ht end.
    case_decide as Hpos; intros Ht; inv_run; [by eapply transfer_balance_eq|].
    match type of Hpos with ¬ 0 < ?q => assert (q = 0) as -> by lia end. repeat case_decide; lia.
Qed.

(** ** Arbitrators *)

(** An arbitrator's stake is as old as it looks: if a vote is committed
    while the configuration asks for a minimum stake age, then at every moment
    less than that age ago the arbitrator already had active stake, whatever
    happened in between.  Stake bought for a case cannot vote on it. *)
Theorem arbitrators_staked_before t1 y1 t2 y2 c arb dk cm es' f :
  sys_reachable (t1, y1) → steps sys_step (t1, y1) (t2, y2) →
  handle_commit_dispute_vote c (staking_view_of (sy_staking y2)) arb dk cm (sy_escrow y2) = Ok es' →
  es_fee (sy_escrow y2) = Some f → 0 < fc_min_arbitrator_stake_age_secs f →
  now c - fc_min_arbitrator_stake_age_secs f < t1 →
  ∃ a, st_accounts (sy_staking y1) !! stake_account_key arb Arbitrator = Some a ∧ 0 < sa_amount a.
Proof.
  intros Hinv%sys_reachable_inv Hsteps Hrun Hf Hage Ht.
  unfold handle_commit_dispute_vote, load_arbitrator_stake in Hrun. inv_escrow. simpl in *. simplify_eq.
  match goal with Ha : st_accounts (sy_staking y2) !! _ = Some _ |- _ => rename Ha into Hacc end.
  apply clock_path in Hsteps as (_ & _ & Hclock); [|done].
  destruct (Hclock _ _ Hacc) as [Hz|[Hlate|Hold]]; [| |done]; exfalso;
    match goal with Hm : meets_stake_age _ _ _ |- _ => unfold meets_stake_age, stake_age_secs in Hm;
      rewrite decide_False in Hm by lia; case_decide; [done|] end; [tauto|].
  unfold saturating_sub_i64 in *. ilia.
Qed.
End theorems.

(** Witnesses, on the concrete run. *)

Lemma programs_compose_witness :
  escrow_reachable (sys_time 0 sys_absorbed, sy_escrow (system_after sys_absorbed)).
Proof.
  destruct (programs_compose (sys_time 0 sys_absorbed) (system_after sys_absorbed)) as [He _].
  - sys_reach.
  - exact He.
Defined.

Lemma stakes_are_backed_witness :
  map_sum (λ _ a, sa_amount a + unbonding_amount a) (st_accounts (sy_staking (system_after sys_setup)))
    ≤ balance (st_ledger (sy_staking (system_after sys_setup))) stake_vault_key.
Proof.
  destruct (stakes_are_backed (sys_time 0 sys_setup) (system_after sys_setup)) as [Hb _].
  - sys_reach.
  - exact Hb.
Defined.

Definition config_after (txs : list sys_tx) : StakingConfig :=
  default (mkStakingConfig admin OPEN [] [] 0 admin admin admin) (st_config (sy_staking (system_after txs))).

Lemma relay_counters_agree_witness :
  credited (sy_escrow (system_after sys_recovered)) (recovery_claim_key merchant (sc_mint (config_after sys_recovered)))
    ≤ recovered (st_receipts (sy_staking (system_after sys_recovered))) merchant
    ≤ owed (sy_escrow (system_after sys_recovered)) (recovery_claim_key merchant (sc_mint (config_after sys_recovered))).
Proof.
  apply (relay_counters_agree (sys_time 0 sys_recovered)).
  - sys_reach.
  - by vm_compute.
Defined.

Lemma claim_bytes_roundtrip_witness :
  read_stake_recovery_claim (mkInfo ESCROW (encode_claim (mkClaim merchant OPEN 400 0 1) 254)) merchant OPEN
  = Ok (Some (mkClaimView (key_bytes merchant) (key_bytes OPEN) 400)).
Proof. apply (claim_bytes_roundtrip (mkClaim merchant OPEN 400 0 1) 254); by vm_compute. Defined.

Lemma debt_blocks_withdrawal_witness :
  sys_runs sys_disputed = true ∧
  ∀ st', handle_withdraw_unstaked (chain_of 100000 (system_after sys_disputed)) merchant
    (stake_account_key merchant Merchant) (Key 42) OPEN (sy_staking (system_after sys_disputed)) ≠ Ok st'.
Proof.
  split; [by vm_compute|].
  apply (debt_blocks_withdrawal (sys_time 0 sys_disputed) (system_after sys_disputed)
    (chain_of 100000 (system_after sys_disputed)) (config_after sys_disputed)).
  - sys_reach.
  - apply chain_of_reads.
  - by vm_compute.
  - by vm_compute.
Defined.

Lemma withdrawal_succeeds_witness :
  ∃ st', handle_withdraw_unstaked (chain_of 100000 (system_after sys_setup)) merchant
    (stake_account_key merchant Merchant) (Key 42) (sc_mint (config_after sys_setup))
    (sy_staking (system_after sys_setup)) = Ok st'.
Proof.
  destruct (withdrawal_succeeds (sys_time 0 sys_setup) (system_after sys_setup)
    (chain_of 100000 (system_after sys_setup)) (config_after sys_setup) merchant Merchant
    (mkStakeAccount merchant Merchant 700 300 86419 0 0 3) (Key 42) 6
    (holding OPEN staking_config_key 1500) (holding OPEN merchant 8900)) as (st' & Hst' & _).
  - by vm_compute.
  - sys_reach.
  - apply chain_of_reads.
  - by vm_compute.
  - by vm_compute.
  - by vm_compute.
  - by vm_compute.
  - by vm_compute.
  - by vm_compute.
  - by vm_compute.
  - by vm_compute.
  - by vm_compute.
  - by vm_compute.
  - by vm_compute.
  - by vm_compute.
  - by vm_compute.
  - exists st'. exact Hst'.
Defined.

Lemma recovery_takes_debt_witness :
  ∃ a taken, st_accounts (sy_staking (system_after sys_disputed)) !! stake_account_key merchant Merchant = Some a ∧
    taken = Z.min (owed (sy_escrow (system_after sys_disputed)) (recovery_claim_key (sa_owner a) OPEN)
      - recovered (st_receipts (sy_staking (system_after sys_disputed))) (sa_owner a))
      (unbonding_amount a + sa_amount a).
Proof.
  destruct (recovery_takes_debt (sys_time 0 sys_disputed) (system_after sys_disputed)
    (chain_of 40 (system_after sys_disputed)) (stake_account_key merchant Merchant) OPEN
    (sy_staking (system_after sys_recovered))) as (a & a' & taken & Ha & _ & _ & Ht & _).
  - sys_reach.
  - apply chain_of_reads.
  - apply (system_after_staking sys_disputed 40 (RecoverStakeShortfall (stake_account_key merchant Merchant) OPEN)).
    by vm_compute.
  - exists a, taken. exact (conj Ha Ht).
Defined.

Lemma slash_takes_share_witness :
  ∃ cfg, st_config (sy_staking (system_after sys_setup)) = Some cfg ∧ Key 5 = slashing_authority cfg.
Proof.
  destruct (slash_takes_share (sys_time 0 sys_setup) (system_after sys_setup)
    (chain_of 25 (system_after sys_setup)) (Key 5) (stake_account_key (arb 1) Arbitrator) (Key 61) OPEN 7
    (sy_staking (system_after sys_slashed))) as (cfg & a & Hcfg & Hauth & _).
  - sys_reach.
  - apply (system_after_staking sys_setup 25 (Slash (Key 5) (stake_account_key (arb 1) Arbitrator) (Key 61) OPEN 7)).
    by vm_compute.
  - exists cfg. exact (conj Hcfg Hauth).
Defined.

(** The configuration asks for twenty seconds; the vote is at 35, the state
    compared with is the one at 19. *)
Definition sys_fee_after (txs : list sys_tx) : FeeConfig :=
  default (mkFeeConfig admin 0 0 0 admin admin admin admin 0 0 0 0 0 0 0 [] 0)
    (es_fee (sy_escrow (system_after txs))).

Lemma arbitrators_staked_before_witness :
  ∃ a, st_accounts (sy_staking (system_after sys_setup)) !! stake_account_key (arb 1) Arbitrator = Some a ∧
    0 < sa_amount a.
Proof.
  apply (arbitrators_staked_before (sys_time 0 sys_setup) (system_after sys_setup)
    (sys_time (sys_time 0 sys_setup) sys_opening) (system_after sys_disputed)
    (chain_of 35 (system_after sys_disputed)) (arb 1) dk7 (commitment_of BuyerWins salt)
    (sy_escrow (system_after sys_committed)) (sys_fee_after sys_disputed)).
  - sys_reach.
  - apply run_sys_steps; [by vm_compute|]. apply system_after_app. by vm_compute.
  - assert (sys_runs sys_committed = true) as Hc by (by vm_compute).
    apply system_after_escrow in Hc. cbn [Escrow.process] in Hc. exact Hc.
  - by vm_compute.
  - by vm_compute.
  - by vm_compute.
Defined.
