(* ===== verification/Limits.v ===== *)
(** * Limits: where the program stops short of its comments

    Behaviours of the dispute and recovery paths that hold of the code and
    differ from what its documentation says, each as a theorem. *)

From S2P Require Import Prelude Runtime Shared StakingState EscrowState Fees Trade.
From S2P Require Import Dispute Escrow CaseInv EscrowInv TradeInv DisputeInv ExecuteInv.
From S2P Require Import EscrowSafety Scenario Lifecycle.
Import EscrowError.

Section limits.
Context {L : Type} `{TokenLedger L} `{Hashing}.
Abbreviation state := (escrow_state L).
Implicit Types (s : state) (l : L) (v : LiquidityVault) (e : TradeEscrowVault)
  (d : DisputeCase) (c : chain) (w : Z * state).

(** A disputed trade whose own vault is also the vault of the deposit. *)
Definition aliased s (rid : Z) e : Prop :=
  es_escrows s !! trade_escrow_key rid = Some e ∧ te_state e = Frozen ∧
  ∃ d, es_cases s !! dispute_case_key rid = Some d ∧ dc_deposit_vault d = vault_of e.

Lemma aliased_step w w' rid e :
  world_inv w → aliased w.2 rid e → escrow_step w w' → aliased w'.2 rid e.
Proof.
  intros Hw (He & Hst & d & Hd & Hal) Hstep. pose proof Hw as [Hinv _].
  destruct (step_case _ _ _ _ Hw Hstep Hd) as (d' & Hd' & [(_ & _ & Hdv & _) _ _ _]).
  enough (es_escrows w'.2 !! trade_escrow_key rid = Some e).
  { split; [done|]. split; [done|]. exists d'. split; [done|]. congruence. }
  destruct Hstep as [t c sv i s s' _ _ _ _ Hrun|]; [|done]. simpl in *.
  destruct (process_moves _ _ _ _ _ _ _ Hinv Hrun He) as (e' & He' & Hm).
  destruct Hm as [| | | | | | |a e1 -> Hk _ _ _]; try congruence; try (naive_solver congruence).
  exfalso. apply handle_execute_Ok in Hrun as (x & x' & f & Hl & _); [|done].
  pose proof (xl_escrow _ _ _ _ Hl) as Hxe. rewrite Hk, He in Hxe. injection Hxe as Hxe.
  destruct (loaded_keys _ _ _ _ Hinv Hl) as (Hr & _).
  pose proof (xl_case _ _ _ _ Hl) as Hxd. rewrite (xl_case_key _ _ _ _ Hl), <-Hr in Hxd.
  destruct (ei_escrow _ Hinv _ _ He) as ([= Hrid] & _).
  rewrite <-Hxe, <-Hrid, Hd in Hxd. injection Hxd as Hxd.
  apply (xl_distinct _ _ _ _ Hl). by rewrite (xl_deposit_vault _ _ _ _ Hl), <-Hxd, <-Hxe.
Qed.

(** A trade settled in the mint the arbitration deposit is taken in can be
    disputed but never resolved: once it is frozen, no sequence of
    transactions, by anyone, ever releases or returns its tokens. *)
Theorem aliased_dispute_is_stuck w w' rid e :
  escrow_reachable w → aliased w.2 rid e → steps escrow_step w w' →
  es_escrows w'.2 !! trade_escrow_key rid = Some e ∧ te_state e = Frozen.
Proof.
  intros Hw%escrow_reachable_inv Ha Hsteps.
  enough (world_inv w' ∧ aliased w'.2 rid e) as [_ (? & ? & _)] by done.
  eapply (steps_invariant _ (λ w, world_inv w ∧ aliased w.2 rid e)); [|done|done].
  intros a b [Hwa Hal] Hstep. split; [by eapply escrow_step_inv|by eapply aliased_step].
Qed.

(** A trade can be disputed only if its seller has a liquidity vault in
    the arbitration pool's mint: without one every attempt to open a dispute
    fails, by either party and with any arguments. *)
Theorem dispute_needs_deposit_vault c signer te dm cw rw s e pool :
  es_escrows s !! te = Some e → account_of (es_ledger s) arbitration_pool_key = Some pool →
  es_vaults s !! liquidity_vault_key (te_seller e) (ta_mint pool) = None →
  ∀ s', handle_open_dispute_case c signer te dm cw rw s ≠ Ok s'.
Proof.
  intros He Hpool Hnone s' Hrun.
  apply open_dispute_case_Ok in Hrun as (e' & f & v & pool' & v' & l' & r & seed & ev &
    -> & He' & _ & _ & _ & Hv & Hpool' & Hmint & _). congruence.
Qed.

(** Revealing is enough to stay eligible: an arbitrator who reveals, even
    with no weight left because they unstaked after committing, is not counted
    by the tally and is not barred from the next round. *)
Theorem weightless_reveal_not_barred d i arb o :
  NoDup (dc_arbitrators d) → dc_arbitrators d !! i = Some arb → arb ∉ dc_barred d →
  dc_revealed_outcomes d !! i = Some (Some o) → dc_weights d !! i = Some 0 →
  (counts <$> votes_of d !! i) = Some false ∧ arb ∉ dc_barred (bar_silent_seats d).
Proof.
  intros Hnd Ha Hb Ho Hw. split.
  - unfold votes_of. rewrite lookup_zip_with, Ho, Hw. done.
  - unfold bar_silent_seats. simpl. rewrite elem_of_app. intros [?|Hin]; [done|].
    apply bar_loop_elem in Hin as [Hin|(_ & j & Hj & Hs)]; [by apply not_elem_of_nil in Hin|].
    assert (j = i) as -> by (by eapply NoDup_lookup). simpl in Hs. unfold silent in Hs. by rewrite Ho in Hs.
Qed.

(** Recovered stake reaches a vault that has traded only with a surplus:
    when the vault's tokens are exactly its available and reserved amounts
    plus the recovered amount, absorbing the recovery fails as soon as
    anything of the vault is pending or settled. *)
Theorem absorb_needs_surplus t c sv mint s m r receipt v :
  escrow_reachable (t, s) → es_claims s !! recovery_claim_key m mint = Some r →
  is_Some (decimals_of (es_ledger s) mint) →
  sv_receipts sv !! recovery_receipt_key m = Some receipt → rr_merchant receipt = m →
  es_vaults s !! liquidity_vault_key m mint = Some v →
  0 < absorbable r (recovered_total receipt) → lv_total v + absorbable r (recovered_total receipt) ≤ U64_MAX →
  balance (es_ledger s) (liquidity_tokens_key m mint)
    = lv_available v + lv_reserved v + absorbable r (recovered_total receipt) →
  0 < lv_pending_settlement v + lv_settled v →
  handle_absorb_stake_recovery c sv (recovery_claim_key m mint) mint s
    = Err (Code RecoveredTokensMissing).
Proof.
  intros [Hinv _]%escrow_reachable_inv Hr [dec Hdec] Hrc Hm Hv Hpos Hmax Hbal Hout. simpl in Hinv.
  destruct (ei_claim _ Hinv _ _ Hr) as ([= Hrm Hri] & _).
  destruct (ei_vault _ Hinv _ _ Hv) as ([= Hvm Hvi] & Hwf & (a & Ha & _)).
  rewrite <-Hvm, <-Hvi in Ha. rewrite (balance_account _ _ _ Ha) in Hbal.
  unfold handle_absorb_stake_recovery, load, load_mint, load_vault, load_token.
  repeat first [ rewrite require_true by congruence | progress cbn [ok_or mbind result_bind]
    | rewrite Hdec | rewrite Hr | rewrite <-Hrm | rewrite Hrc | unfold load; rewrite Hv | rewrite Ha ].
  destruct Hwf.
  assert (checked_add_u64 (lv_total v) (absorbable r (recovered_total receipt))
    = Some (lv_total v + absorbable r (recovered_total receipt))) as -> by (apply checked_Some; split; [done|ilia]).
  cbn [ok_or mbind result_bind]. unfold require.
  by rewrite decide_False by lia.
Qed.
End limits.

(** Witnesses, on the concrete ledger. *)

Lemma aliased_dispute_is_stuck_witness :
  ∃ e, es_escrows (state_after open_trade) !! trade_escrow_key 8 = Some e ∧ te_state e = Frozen.
Proof.
  eexists.
  apply (aliased_dispute_is_stuck (last_time 0 open_trade, state_after open_trade)
    (last_time 0 open_trade, state_after open_trade) 8).
  - reachable.
  - split; [vm_compute; reflexivity|]. split; [done|]. eexists. split; [vm_compute; reflexivity|done].
  - apply steps_refl.
Defined.

(** A merchant with a settlement vault and no vault in the deposit's mint. *)
Definition no_deposit_run : list tx :=
  [ send 10 (InitializeFeeConfig admin treas fee_params0);
    send 11 (InitializeArbitrationPool admin OPEN);
    send 12 (CreateLiquidityVault merchant USDC);
    send 14 (DepositLiquidity merchant (Key 41) USDC 100000);
    send 16 (ReserveLiquidity merchant USDC 50000);
    send 17 (CreateTradeEscrow merchant buyer USDC 7 10001 3600);
    send 18 (FundTradeEscrow merchant te7 USDC) ].

Lemma dispute_needs_deposit_vault_witness :
  runs no_deposit_run = true ∧
  ∀ s', handle_open_dispute_case (at_time 30) buyer te7 OPEN 60 60 (state_after no_deposit_run) ≠ Ok s'.
Proof.
  split; [by vm_compute|].
  apply (dispute_needs_deposit_vault (at_time 30) buyer te7 OPEN 60 60 (state_after no_deposit_run)
    (escrow7 no_deposit_run) (holding OPEN fee_config_key 0)).
  - by vm_compute.
  - by vm_compute.
  - by vm_compute.
Defined.

(** The bench of the decided case, with the second arbitrator's stake gone. *)
Definition weightless_case : DisputeCase := case7 voted_run <| dc_weights := [1000; 0; 200] |>.

Lemma weightless_reveal_not_barred_witness :
  (counts <$> votes_of weightless_case !! 1%nat) = Some false ∧
  arb 2 ∉ dc_barred (bar_silent_seats weightless_case).
Proof.
  apply (weightless_reveal_not_barred weightless_case 1 (arb 2) BuyerWins).
  - apply (bool_decide_unpack _). by vm_compute.
  - by vm_compute.
  - assert (dc_barred weightless_case = []) as Hb by (by vm_compute).
    rewrite Hb. apply not_elem_of_nil.
  - by vm_compute.
  - by vm_compute.
Defined.

(** A merchant who trades in the deposit's mint too, disputed with less in
    that vault than the filing fee; then the missing amount arrives. *)
Definition short_run : list tx :=
  [ send 10 (InitializeFeeConfig admin treas fee_params0);
    send 11 (InitializeArbitrationPool admin OPEN);
    send 12 (UpdateFeeConfig admin OPEN open_treas fee_params0 0 0 [USDC; OPEN]);
    send 13 (CreateLiquidityVault merchant OPEN);
    send 13 (CreateLiquidityVault merchant USDC);
    send 14 (DepositLiquidity merchant (Key 42) OPEN 300);
    send 14 (DepositLiquidity merchant (Key 41) USDC 100000);
    send 15 (ReserveLiquidity merchant OPEN 100);
    send 15 (ReserveLiquidity merchant USDC 50000);
    send 16 (CreateTradeEscrow merchant buyer OPEN 8 100 3600);
    send 17 (FundTradeEscrow merchant (trade_escrow_key 8) OPEN);
    send 17 (CreateTradeEscrow merchant buyer USDC 7 10001 3600);
    send 18 (FundTradeEscrow merchant te7 USDC);
    send 30 (OpenDisputeCase buyer te7 OPEN 60 60) ].

Definition recovered_ledger : simple_ledger :=
  default ledger0 (transfer_checked (es_ledger (state_after short_run)) (Key 42) OPEN
    (liquidity_tokens_key merchant OPEN) merchant 300 6).

Definition recovered_state : escrow_state simple_ledger :=
  state_after short_run <| es_ledger := recovered_ledger |>.

Definition recovered_view : staking_view :=
  mkView None ∅ {[ recovery_receipt_key merchant := mkReceipt merchant 300 1 ]}.

Lemma recovered_reachable : escrow_reachable (last_time 0 short_run, recovered_state).
Proof.
  assert (escrow_reachable (last_time 0 short_run, state_after short_run)) as (t0 & l0 & Ht0 & Hs) by reachable.
  exists t0, l0. split; [exact Ht0|]. eapply steps_trans; [exact Hs|]. apply steps_one, step_ledger; [apply Z.le_refl|].
  assert (transfer_checked (es_ledger (state_after short_run)) (Key 42) OPEN
    (liquidity_tokens_key merchant OPEN) merchant 300 6 = Some recovered_ledger) as Ht.
  { unfold recovered_ledger.
    assert (match transfer_checked (es_ledger (state_after short_run)) (Key 42) OPEN
      (liquidity_tokens_key merchant OPEN) merchant 300 6 with Some _ => true | None => false end = true)
      as Hok by (by vm_compute).
    destruct (transfer_checked _ _ _ _ _ _ _); [reflexivity|discriminate Hok]. }
  eapply transfer_respects; [exact Ht|reflexivity].
Qed.

Lemma absorb_needs_surplus_witness :
  handle_absorb_stake_recovery (at_time 300) recovered_view (recovery_claim_key merchant OPEN) OPEN
    recovered_state = Err (Code RecoveredTokensMissing).
Proof.
  apply (absorb_needs_surplus (last_time 0 short_run) (at_time 300) recovered_view OPEN recovered_state
    merchant (mkClaim merchant OPEN 300 0 1) (mkReceipt merchant 300 1)
    (mkVault merchant OPEN 100 0 0 0 100)).
  - apply recovered_reachable.
  - by vm_compute.
  - eexists. vm_compute. reflexivity.
  - by vm_compute.
  - reflexivity.
  - by vm_compute.
  - by vm_compute.
  - by vm_compute.
  - by vm_compute.
  - by vm_compute.
Defined.
