(* ===== verification/GovernanceState.v ===== *)
(** * GovernanceState: accounts of the governance program

    Models [programs/governance/src/state.rs], [constants.rs], [error.rs],
    [events.rs] and [shared_logic.rs]. *)

From S2P Require Import Prelude Runtime Shared StakingState.

Definition MAX_VOTE_LOCK_SECS : Z := 30 * 24 * 60 * 60.
Definition FIRST_YEAR_SECS : Z := 365 * 24 * 60 * 60.
Definition MIN_VOTING_PERIOD_SECS : Z := 30.

(** The two holders, decoded from base 58. *)
Definition ALLENHARK_PRIMARY_HOLDER : pubkey :=
  Key 62724769945258149378043255954514082598319375198856637176979090969091600662442.
Definition ALLENHARK_SECONDARY_HOLDER : pubkey :=
  Key 60485258095930446400480511140452197690218943715328184336661694836339519941845.

Module GovernanceError.
Inductive ErrorCode :=
  | Unauthorized | InvalidBps | InvalidVoteLock | VotingStillOpen | NotInVotingState
  | AlreadyTallied | DepositAlreadySettled | NotYetTallied | ProposalNotAccepted
  | WrongCategoryForParameterUpdate | WrongCategoryForTreasurySpend | AlreadyExecuted
  | Overflow | MintMismatch | WalletBanned | QuorumNotMet | ExecutionTimelockActive
  | WrongCategoryForBanAction | ProposalActionMismatch | VoteLockTooLong
  | EmergencyPowersExpired | OffchainLinkAlreadySet | NotTheProposer
  | EmptyOffchainIdHash | VotingPeriodTooShort.
End GovernanceError.

Record GovernanceConfig := mkGovConfig {
  gc_admin : pubkey;
  gc_mint : pubkey;
  total_open_supply : Z;
  quorum_bps : Z;
  threshold_simple_bps : Z;
  threshold_treasury_bps : Z;
  threshold_upgrade_bps : Z;
  quorum_upgrade_bps : Z;
  deposit_amount : Z;
  forfeit_destination : pubkey;
  vote_lock_secs : Z;
}.

Record EmergencyAuthority := mkEmergency {
  primary_holder : pubkey;
  secondary_holder : pubkey;
  initialized_at : Z;
  expires_at : Z;
}.

Inductive ProposalState := Draft | Voting | Accepted | Rejected.
#[export] Instance ProposalState_eq_dec : EqDecision ProposalState.
Proof. solve_decision. Defined.

Record Proposal := mkProposal {
  pr_id : Z;
  pr_category : ProposalCategory;
  pr_proposer : pubkey;
  title_hash : list Z;
  summary_hash : list Z;
  stake_deposit : Z;
  votes_for : Z;
  votes_against : Z;
  quorum_snapshot : Z;
  threshold_snapshot : Z;
  pr_created_at : Z;
  voting_ends_at : Z;
  pr_state : ProposalState;
  quorum_met : bool;
  deposit_settled : bool;
  executed : bool;
  offchain_id_hash : list Z;
}.
#[export] Instance Proposal_eta : Settable Proposal := fun r =>
  mkProposal (pr_id r) (pr_category r) (pr_proposer r) (title_hash r) (summary_hash r)
    (stake_deposit r) (votes_for r) (votes_against r) (quorum_snapshot r)
    (threshold_snapshot r) (pr_created_at r) (voting_ends_at r) (pr_state r)
    (quorum_met r) (deposit_settled r) (executed r) (offchain_id_hash r).

Inductive BanReason := StolenFunds | Sanctions | Phishing | Scam | Other.
#[export] Instance BanReason_eq_dec : EqDecision BanReason.
Proof. solve_decision. Defined.

(** The action a proposal carries; [GovernanceAction::None] is [NoAction]. *)
Inductive GovernanceAction :=
  | NoAction
  | ListWallet_ (wallet : pubkey) (reason : BanReason) (evidence_hash : list Z)
  | DelistWallet_ (wallet : pubkey).
#[export] Instance GovernanceAction_eq_dec : EqDecision GovernanceAction.
Proof. solve_decision. Defined.

Record ProposalAction := mkAction {
  pa_proposal : pubkey;
  pa_action : GovernanceAction;
}.

Record VoteRecord := mkVote {
  vr_proposal : pubkey;
  vr_voter : pubkey;
  vr_weight : Z;
  vr_in_favor : bool;
  locked_until : Z;
}.

Record BanRecord := mkBan {
  br_wallet : pubkey;
  br_reason : BanReason;
  br_evidence_hash : list Z;
  listed_at : Z;
  authorizing_proposal : pubkey;
}.

Definition governance_config_key : pubkey := Pda GOVERNANCE GOVERNANCE_CONFIG_SEED.
Definition deposit_vault_key : pubkey := Pda GOVERNANCE DEPOSIT_VAULT_SEED.
Definition emergency_authority_key : pubkey := Pda GOVERNANCE EMERGENCY_AUTHORITY_SEED.
Definition proposal_key (id : Z) : pubkey := PdaNum GOVERNANCE PROPOSAL_SEED id.
Definition proposal_action_key (pk : pubkey) : pubkey :=
  PdaKey GOVERNANCE PROPOSAL_ACTION_SEED pk.
Definition vote_record_key (pk voter : pubkey) : pubkey :=
  PdaKeys GOVERNANCE VOTE_RECORD_SEED pk voter.

Inductive governance_event :=
  | WalletListed (wallet : pubkey) (reason : BanReason) (evidence_hash : list Z)
      (authorizing_proposal : pubkey) (proposal_id timestamp : Z)
  | WalletDelisted (wallet authorizing_proposal : pubkey) (proposal_id listed_at : Z)
      (listed_by_proposal : pubkey) (timestamp : Z)
  | GovernanceConfigInitialized (config deposit_vault : pubkey) (cfg : GovernanceConfig)
      (timestamp : Z)
  | GovernanceConfigUpdated (config : pubkey) (cfg : GovernanceConfig) (timestamp : Z)
  | ProposalCreated (proposal : pubkey) (proposal_id : Z) (proposer : pubkey)
      (category : ProposalCategory) (title_hash summary_hash : list Z)
      (action : GovernanceAction) (proposal_action : pubkey)
      (stake_deposit quorum_snapshot threshold_snapshot voting_ends_at timestamp : Z)
  | VoteCast (proposal : pubkey) (proposal_id : Z) (voter voter_stake : pubkey) (role : Role)
      (in_favor : bool) (weight votes_for votes_against locked_until timestamp : Z)
  | ProposalFinalized (proposal : pubkey) (proposal_id : Z) (category : ProposalCategory)
      (votes_for votes_against total_cast quorum_snapshot threshold_snapshot : Z)
      (quorum_met : bool) (state : ProposalState) (timestamp : Z)
  | ProposalDepositSettled (proposal : pubkey) (proposal_id : Z) (proposer : pubkey)
      (amount : Z) (mint : pubkey) (refunded : bool) (destination : pubkey)
      (quorum_met : bool) (state : ProposalState) (timestamp : Z)
  | ConfigParameterChangeAuthorized (proposal : pubkey) (proposal_id : Z)
      (target_program : pubkey) (parameter_key : string) (authorized_value timestamp : Z)
  | TreasurySpendAuthorized (proposal : pubkey) (proposal_id : Z)
      (authorized_destination : pubkey) (authorized_amount timestamp : Z)
  | EmergencyAuthorityInitialized (emergency_authority : pubkey) (e : EmergencyAuthority)
  | OffchainProposalLinked (proposal : pubkey) (proposal_id : Z) (offchain_id_hash : list Z)
      (timestamp : Z).

(** ** [shared_logic.rs] *)

Section shared_logic.
Import GovernanceError.
Implicit Types (cfg : GovernanceConfig) (p : Proposal).

Definition quorum_bps_for cfg (category : ProposalCategory) : Z :=
  match category with
  | ProtocolUpgrade | Constitutional => quorum_upgrade_bps cfg
  | _ => quorum_bps cfg
  end.

Definition threshold_bps_for cfg (category : ProposalCategory) : Z :=
  match category with
  | Treasury => threshold_treasury_bps cfg
  | ProtocolUpgrade | Constitutional => threshold_upgrade_bps cfg
  | _ => threshold_simple_bps cfg
  end.

Definition require_executable p cfg (now : Z) : result ErrorCode unit :=
  _ ← require (pr_state p = Accepted) (Code ProposalNotAccepted);
  _ ← require (quorum_met p = true) (Code QuorumNotMet);
  _ ← require (executed p = false) (Code AlreadyExecuted);
  executable_at ← ok_or (checked_add_i64 (voting_ends_at p) (vote_lock_secs cfg)) (Code Overflow);
  require (executable_at ≤ now) (Code ExecutionTimelockActive).

Definition require_valid_vote_lock (secs : Z) : result ErrorCode unit :=
  _ ← require (0 < secs) (Code InvalidVoteLock);
  require (secs ≤ MAX_VOTE_LOCK_SECS) (Code VoteLockTooLong).

Definition emergency_powers_available (e : EmergencyAuthority) (now : Z) : Prop :=
  now < expires_at e.
#[global] Instance emergency_powers_available_dec e n : Decision (emergency_powers_available e n).
Proof. unfold emergency_powers_available. apply _. Defined.

Definition require_vote_lock_change_allowed (e : EmergencyAuthority) (now current requested : Z)
    : result ErrorCode unit :=
  if decide (emergency_powers_available e now) then Ok ()
  else require (requested = current) (Code EmergencyPowersExpired).

Definition require_valid_bps (bps : Z) : result ErrorCode unit :=
  require (bps ≤ BPS_DENOMINATOR) (Code InvalidBps).

(** [write_emergency_authority] *)
Definition write_emergency_authority (now : Z) : result ErrorCode EmergencyAuthority :=
  expires ← ok_or (checked_add_i64 now FIRST_YEAR_SECS) (Code Overflow);
  Ok (mkEmergency ALLENHARK_PRIMARY_HOLDER ALLENHARK_SECONDARY_HOLDER now expires).
End shared_logic.
