(* ===== verification/Governance.v ===== *)
(** * Governance: instructions of the governance program

    Models [programs/governance/src/instructions/] and the dispatch of
    [lib.rs].  Votes weigh the stake account the voter names, read from the
    staking program's state. *)

From S2P Require Import Prelude Runtime Shared StakingState Staking GovernanceState.
Import GovernanceError.

Record gov_state (L : Type) := mkGov {
  gs_config : option GovernanceConfig;
  gs_emergency : option EmergencyAuthority;
  gs_proposals : gmap pubkey Proposal;
  gs_actions : gmap pubkey ProposalAction;
  gs_votes : gmap pubkey VoteRecord;
  gs_bans : gmap pubkey BanRecord;
  gs_ledger : L;
  gs_events : list governance_event;
}.
Arguments mkGov {L}.
Arguments gs_config {L}.
Arguments gs_emergency {L}.
Arguments gs_proposals {L}.
Arguments gs_actions {L}.
Arguments gs_votes {L}.
Arguments gs_bans {L}.
Arguments gs_ledger {L}.
Arguments gs_events {L}.
#[export] Instance gov_state_eta L : Settable (gov_state L) := fun r =>
  mkGov (gs_config r) (gs_emergency r) (gs_proposals r) (gs_actions r) (gs_votes r)
    (gs_bans r) (gs_ledger r) (gs_events r).

(** [InitializeGovernanceConfigParams]; [UpdateGovernanceConfigParams] has the
    same fields without the destination, which comes as an account. *)
Record gov_params := mkGovParams {
  gp_total_open_supply : Z;
  gp_quorum_bps : Z;
  gp_threshold_simple_bps : Z;
  gp_threshold_treasury_bps : Z;
  gp_threshold_upgrade_bps : Z;
  gp_quorum_upgrade_bps : Z;
  gp_deposit_amount : Z;
  gp_vote_lock_secs : Z;
}.

(** [[0u8; 32]] *)
Definition zero_hash : list Z := replicate 32 0.

Section governance.
Context {L : Type} `{TokenLedger L} `{Hashing}.
Abbreviation state := (gov_state L).
Abbreviation gres := (result ErrorCode).
Implicit Types (s : state) (c : chain).

Definition gov_emit s (e : governance_event) : state := s <| gs_events := gs_events s ++ [e] |>.

Definition load_gov_config s : gres GovernanceConfig :=
  ok_or (gs_config s) (Anchor AccountNotInitialized).

(** The proposal at [pk], whose address is derived from the stored id. *)
Definition load_proposal s (pk : pubkey) : gres Proposal :=
  p ← load (gs_proposals s) pk;
  _ ← require (pk = proposal_key (pr_id p)) (Anchor ConstraintSeeds);
  Ok p.

Definition put_proposal s (pk : pubkey) (p : Proposal) : state :=
  s <| gs_proposals := <[pk := p]> (gs_proposals s) |>.

(** A ban record as Anchor stores it, fields in declaration order. *)
Definition reason_byte (r : BanReason) : Z :=
  match r with StolenFunds => 0 | Sanctions => 1 | Phishing => 2 | Scam => 3 | Other => 4 end.

Definition encode_ban (b : BanRecord) (bump : Z) : list Z :=
  anchor_discriminator "BanRecord" ++ key_bytes (br_wallet b) ++ [reason_byte (br_reason b)]
    ++ br_evidence_hash b ++ to_le 8 (listed_at b) ++ key_bytes (authorizing_proposal b) ++ [bump].

(** What any program finds at a wallet's ban address; the bump is not read. *)
Definition ban_info s (wallet : pubkey) : account_info :=
  match gs_bans s !! ban_record_key wallet with
  | Some b => mkInfo GOVERNANCE (encode_ban b 0)
  | None => empty_info
  end.

Definition require_valid_params (p : gov_params) : gres unit :=
  _ ← require_valid_bps (gp_quorum_bps p);
  _ ← require_valid_bps (gp_threshold_simple_bps p);
  _ ← require_valid_bps (gp_threshold_treasury_bps p);
  _ ← require_valid_bps (gp_threshold_upgrade_bps p);
  _ ← require_valid_bps (gp_quorum_upgrade_bps p);
  require_valid_vote_lock (gp_vote_lock_secs p).

Definition config_of (admin mint destination : pubkey) (p : gov_params) : GovernanceConfig :=
  mkGovConfig admin mint (gp_total_open_supply p) (gp_quorum_bps p) (gp_threshold_simple_bps p)
    (gp_threshold_treasury_bps p) (gp_threshold_upgrade_bps p) (gp_quorum_upgrade_bps p)
    (gp_deposit_amount p) destination (gp_vote_lock_secs p).

(** [initialize_governance_config]: the config, the deposit vault and the
    emergency authority are created together. *)
Definition handle_initialize_governance_config c (admin mint destination : pubkey)
    (p : gov_params) s : gres state :=
  _ ← load_mint (gs_ledger s) mint;
  _ ← require (gs_config s = None) (Anchor AccountAlreadyInUse);
  l ← init_token (gs_ledger s) deposit_vault_key mint governance_config_key;
  _ ← require (gs_emergency s = None) (Anchor AccountAlreadyInUse);
  _ ← require_valid_params p;
  e ← write_emergency_authority (now c);
  let cfg := config_of admin mint destination p in
  Ok (gov_emit (gov_emit
        (s <| gs_ledger := l |> <| gs_config := Some cfg |> <| gs_emergency := Some e |>)
        (EmergencyAuthorityInitialized emergency_authority_key e))
        (GovernanceConfigInitialized governance_config_key deposit_vault_key cfg (now c))).

Definition handle_update_governance_config c (admin mint destination : pubkey)
    (p : gov_params) s : gres state :=
  cfg ← load_gov_config s;
  _ ← require (gc_admin cfg = admin) (Code Unauthorized);
  _ ← require (gc_mint cfg = mint) (Code MintMismatch);
  _ ← load_mint (gs_ledger s) mint;
  d ← load_token (gs_ledger s) destination;
  _ ← require (ta_mint d = mint) (Anchor ConstraintTokenMint);
  e ← ok_or (gs_emergency s) (Anchor AccountNotInitialized);
  _ ← require_valid_params p;
  _ ← require_vote_lock_change_allowed e (now c) (vote_lock_secs cfg) (gp_vote_lock_secs p);
  let cfg := config_of (gc_admin cfg) (gc_mint cfg) destination p in
  Ok (gov_emit (s <| gs_config := Some cfg |>)
        (GovernanceConfigUpdated governance_config_key cfg (now c))).

Definition handle_initialize_emergency_authority c s : gres state :=
  _ ← require (gs_emergency s = None) (Anchor AccountAlreadyInUse);
  e ← write_emergency_authority (now c);
  Ok (gov_emit (s <| gs_emergency := Some e |>)
        (EmergencyAuthorityInitialized emergency_authority_key e)).

(** The category a ban action needs. *)
Definition require_action_category (action : GovernanceAction) (category : ProposalCategory)
    : gres unit :=
  match action with
  | ListWallet_ _ _ _ | DelistWallet_ _ =>
      require (category = Standards) (Code WrongCategoryForBanAction)
  | NoAction => Ok ()
  end.

(** The quorum a proposal opens with, a share of the supply, computed in 128
    bits and narrowed. *)
Definition snapshot_quorum (cfg : GovernanceConfig) (category : ProposalCategory) : gres Z :=
  m ← ok_or (checked_mul_u128 (total_open_supply cfg) (quorum_bps_for cfg category)) (Code Overflow);
  q ← ok_or (checked_div_u128 m BPS_DENOMINATOR) (Code Overflow);
  Ok (as_u64 q).

Definition handle_create_proposal c (proposer mint from : pubkey) (id : Z)
    (category : ProposalCategory) (title summary : list Z) (voting_period_secs : Z)
    (action : GovernanceAction) s : gres state :=
  _ ← load_mint (gs_ledger s) mint;
  cfg ← load_gov_config s;
  _ ← require (gc_mint cfg = mint) (Anchor ConstraintRaw);
  _ ← load_token (gs_ledger s) deposit_vault_key;
  f ← load_token (gs_ledger s) from;
  _ ← require (ta_mint f = mint) (Anchor ConstraintRaw);
  let pk := proposal_key id in
  let ak := proposal_action_key pk in
  _ ← init_account (gs_proposals s) pk;
  _ ← init_account (gs_actions s) ak;
  _ ← require (¬ wallet_is_banned (ban_info s proposer)) (Code WalletBanned);
  _ ← require (MIN_VOTING_PERIOD_SECS ≤ voting_period_secs) (Code VotingPeriodTooShort);
  _ ← require_action_category action category;
  l ← token_transfer (gs_ledger s) from mint deposit_vault_key proposer (deposit_amount cfg);
  q ← snapshot_quorum cfg category;
  ends ← ok_or (checked_add_i64 (now c) voting_period_secs) (Code Overflow);
  let t := threshold_bps_for cfg category in
  let p := mkProposal id category proposer title summary (deposit_amount cfg) 0 0 q t (now c)
             ends Voting false false false zero_hash in
  Ok (gov_emit (s <| gs_ledger := l |>
                  <| gs_proposals := <[pk := p]> (gs_proposals s) |>
                  <| gs_actions := <[ak := mkAction pk action]> (gs_actions s) |>)
        (ProposalCreated pk id proposer category title summary action ak (deposit_amount cfg)
           q t ends (now c))).

(** [cast_vote]: the vote weighs the effective stake of one role's position,
    and the record at the voter's address refuses a second vote. *)
Definition handle_cast_vote c (scfg : option StakingConfig) (stakes : gmap pubkey StakeAccount)
    (voter pk : pubkey) (in_favor : bool) (role : Role) s : gres state :=
  cfg ← load_gov_config s;
  p ← load_proposal s pk;
  _ ← require (pr_state p = Voting) (Code NotInVotingState);
  sc ← ok_or scfg (Anchor AccountNotInitialized);
  a ← load stakes (stake_account_key voter role);
  let vk := vote_record_key pk voter in
  _ ← init_account (gs_votes s) vk;
  _ ← require (now c < voting_ends_at p) (Code NotInVotingState);
  let weight := effective_stake a sc in
  p ← (if in_favor then
         v ← ok_or (checked_add_u64 (votes_for p) weight) (Code Overflow);
         Ok (p <| votes_for := v |>)
       else
         v ← ok_or (checked_add_u64 (votes_against p) weight) (Code Overflow);
         Ok (p <| votes_against := v |>));
  until ← ok_or (checked_add_i64 (now c) (vote_lock_secs cfg)) (Code Overflow);
  Ok (gov_emit (put_proposal s pk p
                  <| gs_votes := <[vk := mkVote pk voter weight in_favor until]> (gs_votes s) |>)
        (VoteCast pk (pr_id p) voter (stake_account_key voter role) role in_favor weight
           (votes_for p) (votes_against p) until (now c))).

(** Whether a tallied proposal passes. *)
Definition tally_accepts (p : Proposal) (total : Z) : gres bool :=
  if decide (total < quorum_snapshot p ∨ total = 0) then Ok false
  else
    m ← ok_or (checked_mul_u128 (votes_for p) BPS_DENOMINATOR) (Code Overflow);
    for_bps ← ok_or (checked_div_u128 m total) (Code Overflow);
    Ok (bool_decide (threshold_snapshot p ≤ for_bps)).

Definition handle_tally_and_finalize c (pk : pubkey) s : gres state :=
  p ← load_proposal s pk;
  _ ← require (pr_state p = Voting) (Code NotInVotingState);
  _ ← require (voting_ends_at p ≤ now c) (Code VotingStillOpen);
  total ← ok_or (checked_add_u64 (votes_for p) (votes_against p)) (Code Overflow);
  accepted ← tally_accepts p total;
  let p := p <| quorum_met := bool_decide (quorum_snapshot p ≤ total) |>
             <| pr_state := if accepted : bool then Accepted else Rejected |> in
  Ok (gov_emit (put_proposal s pk p)
        (ProposalFinalized pk (pr_id p) (pr_category p) (votes_for p) (votes_against p) total
           (quorum_snapshot p) (threshold_snapshot p) (quorum_met p) (pr_state p) (now c))).

Definition handle_refund_or_forfeit_deposit c (mint destination pk to : pubkey) s : gres state :=
  _ ← load_mint (gs_ledger s) mint;
  cfg ← load_gov_config s;
  _ ← require (gc_mint cfg = mint) (Anchor ConstraintRaw);
  _ ← require (forfeit_destination cfg = destination) (Anchor ConstraintRaw);
  _ ← load_token (gs_ledger s) deposit_vault_key;
  p ← load_proposal s pk;
  _ ← require (pr_state p ≠ Voting) (Code NotYetTallied);
  _ ← require (deposit_settled p = false) (Code DepositAlreadySettled);
  ta ← load_token (gs_ledger s) to;
  _ ← require (ta_owner ta = pr_proposer p) (Anchor ConstraintRaw);
  _ ← require (ta_mint ta = mint) (Anchor ConstraintRaw);
  _ ← load_token (gs_ledger s) destination;
  let amount := stake_deposit p in
  let dest := if quorum_met p then to else destination in
  l ← token_transfer (gs_ledger s) deposit_vault_key mint dest governance_config_key amount;
  let p := p <| deposit_settled := true |> in
  Ok (gov_emit (put_proposal (s <| gs_ledger := l |>) pk p)
        (ProposalDepositSettled pk (pr_id p) (pr_proposer p) amount mint (quorum_met p) dest
           (quorum_met p) (pr_state p) (now c))).

(** The proposal and its action, as [list_wallet] and [delist_wallet] load
    them. *)
Definition load_ban_proposal s (pk : pubkey) : gres (Proposal * ProposalAction) :=
  p ← load_proposal s pk;
  _ ← require (pr_category p = Standards) (Code WrongCategoryForBanAction);
  a ← load (gs_actions s) (proposal_action_key pk);
  Ok (p, a).

Definition handle_list_wallet c (pk wallet : pubkey) s : gres state :=
  cfg ← load_gov_config s;
  '(p, a) ← load_ban_proposal s pk;
  let bk := ban_record_key wallet in
  _ ← init_account (gs_bans s) bk;
  _ ← require_executable p cfg (now c);
  '(reason, evidence) ←
    match pa_action a with
    | ListWallet_ target reason evidence =>
        if decide (target = wallet) then Ok (reason, evidence)
        else fail (Code ProposalActionMismatch)
    | _ => fail (Code ProposalActionMismatch)
    end;
  let p := p <| executed := true |> in
  Ok (gov_emit (put_proposal s pk p
                  <| gs_bans := <[bk := mkBan wallet reason evidence (now c) pk]> (gs_bans s) |>)
        (WalletListed wallet reason evidence pk (pr_id p) (now c))).

(** [delist_wallet] closes the ban record. *)
Definition handle_delist_wallet c (pk wallet : pubkey) s : gres state :=
  cfg ← load_gov_config s;
  '(p, a) ← load_ban_proposal s pk;
  let bk := ban_record_key wallet in
  b ← load (gs_bans s) bk;
  _ ← require_executable p cfg (now c);
  _ ← match pa_action a with
      | DelistWallet_ target =>
          require (target = wallet) (Code ProposalActionMismatch)
      | _ => fail (Code ProposalActionMismatch)
      end;
  let p := p <| executed := true |> in
  Ok (gov_emit (put_proposal s pk p <| gs_bans := delete bk (gs_bans s) |>)
        (WalletDelisted wallet pk (pr_id p) (listed_at b) (authorizing_proposal b) (now c))).

(** The constraints of the two record-only instructions. *)
Definition load_recordable s (pk : pubkey) (category : ProposalCategory) (e : ErrorCode)
    : gres Proposal :=
  p ← load_proposal s pk;
  _ ← require (pr_state p = Accepted) (Code ProposalNotAccepted);
  _ ← require (pr_category p = category) (Code e);
  _ ← require (executed p = false) (Code AlreadyExecuted);
  Ok p.

Definition handle_update_config_parameter c (pk target : pubkey) (key : string) (value : Z) s
    : gres state :=
  p ← load_recordable s pk Parameter_ WrongCategoryForParameterUpdate;
  Ok (gov_emit (put_proposal s pk (p <| executed := true |>))
        (ConfigParameterChangeAuthorized pk (pr_id p) target key value (now c))).

Definition handle_authorize_treasury_spend c (pk destination : pubkey) (amount : Z) s : gres state :=
  p ← load_recordable s pk Treasury WrongCategoryForTreasurySpend;
  Ok (gov_emit (put_proposal s pk (p <| executed := true |>))
        (TreasurySpendAuthorized pk (pr_id p) destination amount (now c))).

Definition handle_link_offchain_proposal c (proposer pk : pubkey) (hash : list Z) s : gres state :=
  p ← load_proposal s pk;
  _ ← require (pr_proposer p = proposer) (Code NotTheProposer);
  _ ← require (pr_state p = Voting) (Code NotInVotingState);
  _ ← require (hash ≠ zero_hash) (Code EmptyOffchainIdHash);
  _ ← require (offchain_id_hash p = zero_hash) (Code OffchainLinkAlreadySet);
  Ok (gov_emit (put_proposal s pk (p <| offchain_id_hash := hash |>))
        (OffchainProposalLinked pk (pr_id p) hash (now c))).

(** ** Dispatch *)

Inductive gov_ix :=
  | InitializeGovernanceConfig (admin mint destination : pubkey) (p : gov_params)
  | UpdateGovernanceConfig (admin mint destination : pubkey) (p : gov_params)
  | InitializeEmergencyAuthority
  | CreateProposal (proposer mint from : pubkey) (id : Z) (category : ProposalCategory)
      (title summary : list Z) (voting_period_secs : Z) (action : GovernanceAction)
  | CastVote (voter pk : pubkey) (in_favor : bool) (role : Role)
  | TallyAndFinalize (pk : pubkey)
  | RefundOrForfeitDeposit (mint destination pk to : pubkey)
  | ListWallet (pk wallet : pubkey)
  | DelistWallet (pk wallet : pubkey)
  | UpdateConfigParameter (pk target : pubkey) (key : string) (value : Z)
  | AuthorizeTreasurySpend (pk destination : pubkey) (amount : Z)
  | LinkOffchainProposal (proposer pk : pubkey) (hash : list Z).

Definition process c (scfg : option StakingConfig) (stakes : gmap pubkey StakeAccount)
    (i : gov_ix) s : gres state :=
  match i with
  | InitializeGovernanceConfig a m d p => handle_initialize_governance_config c a m d p s
  | UpdateGovernanceConfig a m d p => handle_update_governance_config c a m d p s
  | InitializeEmergencyAuthority => handle_initialize_emergency_authority c s
  | CreateProposal who m from id cat t sm period act =>
      handle_create_proposal c who m from id cat t sm period act s
  | CastVote voter pk fav role => handle_cast_vote c scfg stakes voter pk fav role s
  | TallyAndFinalize pk => handle_tally_and_finalize c pk s
  | RefundOrForfeitDeposit m d pk to => handle_refund_or_forfeit_deposit c m d pk to s
  | ListWallet pk w => handle_list_wallet c pk w s
  | DelistWallet pk w => handle_delist_wallet c pk w s
  | UpdateConfigParameter pk target key v => handle_update_config_parameter c pk target key v s
  | AuthorizeTreasurySpend pk d n => handle_authorize_treasury_spend c pk d n s
  | LinkOffchainProposal who pk h => handle_link_offchain_proposal c who pk h s
  end.

Definition gov_params_typed (p : gov_params) : Prop :=
  u64 (gp_total_open_supply p) ∧ 0 ≤ gp_quorum_bps p ∧ 0 ≤ gp_threshold_simple_bps p ∧
  0 ≤ gp_threshold_treasury_bps p ∧ 0 ≤ gp_threshold_upgrade_bps p ∧
  0 ≤ gp_quorum_upgrade_bps p ∧ u64 (gp_deposit_amount p) ∧ i64 (gp_vote_lock_secs p).

(** What decoding guarantees, and that a proposer holds a private key. *)
Definition ix_typed (i : gov_ix) : Prop :=
  match i with
  | InitializeGovernanceConfig _ _ _ p | UpdateGovernanceConfig _ _ _ p => gov_params_typed p
  | CreateProposal who _ _ id _ _ _ period _ =>
      derived_by GOVERNANCE who = false ∧ u64 id ∧ i64 period
  | _ => True
  end.

Definition stakes_typed (stakes : gmap pubkey StakeAccount) : Prop :=
  ∀ k a, stakes !! k = Some a → u64 (sa_amount a).

Inductive gov_step : Z * state → Z * state → Prop :=
  | step_ix t c scfg stakes i s s' :
      t ≤ now c → i64 (now c) → stakes_typed stakes → ix_typed i →
      process c scfg stakes i s = Ok s' → gov_step (t, s) (now c, s')
  | step_ledger t t' s l' :
      t ≤ t' → ledger_respects GOVERNANCE (gs_ledger s) l' →
      gov_step (t, s) (t', s <| gs_ledger := l' |>).

(** The state before the first instruction. *)
Definition gov_init (l : L) : state := mkGov None None ∅ ∅ ∅ ∅ l [].

Definition gov_reachable (w : Z * state) : Prop :=
  ∃ t l, steps gov_step (t, gov_init l) w.
End governance.
