(* ===== verification/GovernanceInv.v ===== *)
(** * GovernanceInv: the invariant of the governance program

    What every state the program can reach satisfies: the tallies are the sums
    of the recorded votes, a tallied proposal's outcome is the one its votes
    give, a ban traces to an accepted proposal that names the wallet, every
    authorisation is spent at most once, and the deposit vault covers the
    deposits not yet settled. *)

From S2P Require Import Prelude Runtime Shared StakingState Staking GovernanceState Governance.
Import GovernanceError.

(** The weight recorded for or against a proposal. *)
Definition votes_cast (pk : pubkey) (fav : bool) (votes : gmap pubkey VoteRecord) : Z :=
  map_sum (λ _ v, if decide (vr_proposal v = pk ∧ vr_in_favor v = fav) then vr_weight v else 0) votes.

(** What the deposit vault owes a proposal. *)
Definition unsettled (p : Proposal) : Z := if deposit_settled p then 0 else stake_deposit p.

Definition unsettled_total (m : gmap pubkey Proposal) : Z := map_sum (λ _, unsettled) m.

(** The proposal an event says was acted on. *)
Definition authorised_by (e : governance_event) : option pubkey :=
  match e with
  | WalletListed _ _ _ pk _ _ | WalletDelisted _ pk _ _ _ _
  | ConfigParameterChangeAuthorized pk _ _ _ _ _ | TreasurySpendAuthorized pk _ _ _ _ => Some pk
  | _ => None
  end.

(** How often a proposal's authorisation was used. *)
Definition spent (pk : pubkey) (evs : list governance_event) : nat :=
  length (filter (λ e, authorised_by e = Some pk) evs).

Definition use_count (p : option Proposal) : nat :=
  match p with Some p => if executed p then 1 else 0 | None => 0 end.

Definition total_cast (p : Proposal) : Z := votes_for p + votes_against p.

(** What acceptance means, in whole numbers. *)
Definition passes (p : Proposal) : Prop :=
  quorum_snapshot p ≤ total_cast p ∧ total_cast p ≠ 0 ∧
  threshold_snapshot p * total_cast p ≤ 10000 * votes_for p.

Definition outcome_ok (t : Z) (p : Proposal) : Prop :=
  match pr_state p with
  | Draft => False
  | Voting => quorum_met p = false ∧ deposit_settled p = false ∧ executed p = false
  | Accepted => voting_ends_at p ≤ t ∧ quorum_met p = true ∧ passes p
  | Rejected => voting_ends_at p ≤ t ∧ executed p = false ∧ ¬ passes p ∧
      (quorum_met p = true ↔ quorum_snapshot p ≤ total_cast p)
  end.

Definition proposal_wf (t : Z) (p : Proposal) : Prop :=
  u64 (votes_for p) ∧ u64 (votes_against p) ∧ u64 (stake_deposit p) ∧
  0 ≤ threshold_snapshot p ≤ 10000 ∧ outcome_ok t p.

Definition gov_config_wf (cfg : GovernanceConfig) : Prop :=
  (∀ cat, 0 ≤ threshold_bps_for cfg cat ≤ 10000 ∧ 0 ≤ quorum_bps_for cfg cat ≤ 10000) ∧
  u64 (deposit_amount cfg) ∧ u64 (total_open_supply cfg) ∧
  0 < vote_lock_secs cfg ≤ MAX_VOTE_LOCK_SECS.

Definition emergency_wf (t : Z) (e : EmergencyAuthority) : Prop :=
  initialized_at e ≤ t ∧ expires_at e = initialized_at e + FIRST_YEAR_SECS ∧
  primary_holder e = ALLENHARK_PRIMARY_HOLDER ∧ secondary_holder e = ALLENHARK_SECONDARY_HOLDER.

Section inv.
Context {L : Type} `{TokenLedger L} `{Hashing}.
Abbreviation state := (gov_state L).
Implicit Types (s : state) (l : L) (c : chain) (k : pubkey) (p : Proposal).

(** The vote that listed a wallet. *)
Definition listed_by s (b : BanRecord) : Prop :=
  ∃ p, gs_proposals s !! authorizing_proposal b = Some p ∧ executed p = true ∧
    pr_category p = Standards ∧ voting_ends_at p < listed_at b ∧
    gs_actions s !! proposal_action_key (authorizing_proposal b) =
      Some (mkAction (authorizing_proposal b)
              (ListWallet_ (br_wallet b) (br_reason b) (br_evidence_hash b))).

Record gov_inv (t : Z) s : Prop := {
  gi_proposals : ∀ k p, gs_proposals s !! k = Some p →
    k = proposal_key (pr_id p) ∧ proposal_wf t p;
  gi_actions : ∀ k p, gs_proposals s !! k = Some p → ∃ a,
    gs_actions s !! proposal_action_key k = Some (mkAction k a) ∧
    (a ≠ NoAction → pr_category p = Standards);
  gi_tally : ∀ k p, gs_proposals s !! k = Some p →
    votes_for p = votes_cast k true (gs_votes s) ∧
    votes_against p = votes_cast k false (gs_votes s);
  gi_votes : ∀ k v, gs_votes s !! k = Some v →
    k = vote_record_key (vr_proposal v) (vr_voter v) ∧ 0 ≤ vr_weight v ∧
    is_Some (gs_proposals s !! vr_proposal v);
  gi_bans : ∀ k b, gs_bans s !! k = Some b →
    k = ban_record_key (br_wallet b) ∧ listed_by s b;
  gi_spent : ∀ k, spent k (gs_events s) = use_count (gs_proposals s !! k);
  gi_empty : gs_config s = None → gs_proposals s = ∅;
  gi_config : ∀ cfg, gs_config s = Some cfg → gov_config_wf cfg ∧ is_Some (gs_emergency s) ∧
    vault_account (gs_ledger s) deposit_vault_key (gc_mint cfg) governance_config_key;
  gi_deposits : unsettled_total (gs_proposals s) ≤ balance (gs_ledger s) deposit_vault_key;
  gi_emergency : ∀ e, gs_emergency s = Some e → emergency_wf t e;
}.

Lemma spent_snoc k evs e :
  spent k (evs ++ [e]) = (spent k evs + if decide (authorised_by e = Some k) then 1 else 0)%nat.
Proof.
  unfold spent. rewrite filter_app, length_app. f_equal. rewrite filter_cons, filter_nil.
  by case_decide.
Qed.

Lemma votes_cast_other k fav votes vk v :
  votes !! vk = None → vr_proposal v ≠ k ∨ vr_in_favor v ≠ fav →
  votes_cast k fav (<[vk:=v]> votes) = votes_cast k fav votes.
Proof.
  intros Hk Hv. unfold votes_cast. rewrite map_sum_insert_None by done.
  rewrite decide_False by naive_solver. lia.
Qed.

Lemma votes_cast_add k fav votes vk v :
  votes !! vk = None → vr_proposal v = k → vr_in_favor v = fav →
  votes_cast k fav (<[vk:=v]> votes) = votes_cast k fav votes + vr_weight v.
Proof.
  intros Hk Hp Hf. unfold votes_cast. rewrite map_sum_insert_None by done.
  rewrite decide_True by done. lia.
Qed.

Lemma votes_cast_none k fav votes :
  (∀ j v, votes !! j = Some v → vr_proposal v ≠ k) → votes_cast k fav votes = 0.
Proof.
  intros Hn. apply map_sum_zero. intros j v Hj.
  rewrite decide_False; [done|]. intros [? _]. by eapply Hn.
Qed.
End inv.

(** ** Inversion of the program's loads *)

Section loads.
Context {L : Type} `{TokenLedger L} `{Hashing}.
Implicit Types (s : gov_state L).

Lemma load_proposal_Ok s pk p :
  load_proposal s pk = Ok p ↔ gs_proposals s !! pk = Some p ∧ pk = proposal_key (pr_id p).
Proof.
  unfold load_proposal. split.
  - intros. inv_run. done.
  - intros [Hp Hk]. apply (load_Ok (E:=ErrorCode)) in Hp. rewrite Hp. simpl. by rewrite require_true.
Qed.

Lemma load_ban_proposal_Ok s pk p a :
  load_ban_proposal s pk = Ok (p, a) →
  gs_proposals s !! pk = Some p ∧ pr_category p = Standards ∧
  gs_actions s !! proposal_action_key pk = Some a.
Proof.
  unfold load_ban_proposal. intros. inv_run.
  match goal with H : load_proposal _ _ = Ok _ |- _ => apply load_proposal_Ok in H as [??] end.
  by simplify_eq.
Qed.

Lemma load_recordable_Ok s pk cat e p :
  load_recordable s pk cat e = Ok p →
  gs_proposals s !! pk = Some p ∧ pr_state p = Accepted ∧ pr_category p = cat ∧
  executed p = false.
Proof.
  unfold load_recordable. intros. inv_run.
  match goal with H : load_proposal _ _ = Ok _ |- _ => apply load_proposal_Ok in H as [??] end.
  by simplify_eq.
Qed.

Lemma require_executable_Ok p cfg n u :
  require_executable p cfg n = Ok u →
  pr_state p = Accepted ∧ quorum_met p = true ∧ executed p = false ∧
  voting_ends_at p + vote_lock_secs cfg ≤ n.
Proof. unfold require_executable. intros. inv_run. done. Qed.

Lemma require_valid_params_Ok q u (cfg : GovernanceConfig) admin mint d :
  gov_params_typed q → require_valid_params q = Ok u → gov_config_wf (config_of admin mint d q).
Proof.
  unfold gov_params_typed, require_valid_params, require_valid_bps, require_valid_vote_lock.
  intros. destruct_and!. inv_run. unfold gov_config_wf, BPS_DENOMINATOR in *; simpl.
  split_and!; try done. intros []; simpl; lia.
Qed.

Lemma write_emergency_Ok n e t :
  write_emergency_authority n = Ok e → n ≤ t → emergency_wf t e.
Proof. unfold write_emergency_authority. intros. inv_run. done. Qed.
End loads.

Ltac inv_gov :=
  repeat (inv_run_step || match goal with
    | H : load_proposal _ _ = Ok _ |- _ => apply load_proposal_Ok in H as [? ?]
    | H : load_ban_proposal _ _ = Ok (_, _) |- _ => apply load_ban_proposal_Ok in H as (? & ? & ?)
    | H : load_ban_proposal _ _ = Ok ?x |- _ => destruct x as [? ?]
    | H : load_recordable _ _ _ _ = Ok _ |- _ => apply load_recordable_Ok in H as (? & ? & ? & ?)
    | H : require_executable _ _ _ = Ok _ |- _ => apply require_executable_Ok in H as (? & ? & ? & ?)
    | H : load_gov_config _ = Ok _ |- _ => apply ok_or_Ok in H
    end; cbn beta iota in * ).

Section preservation.
Context {L : Type} `{TokenLedger L} `{Hashing}.
Abbreviation state := (gov_state L).
Implicit Types (s : state) (l : L) (c : chain) (k : pubkey) (p : Proposal).

Lemma outcome_later t t' p : t ≤ t' → outcome_ok t p → outcome_ok t' p.
Proof. unfold outcome_ok. destruct (pr_state p); intros; destruct_and?; split_and?; try done; lia. Qed.

Lemma gov_inv_later t t' s : t ≤ t' → gov_inv t s → gov_inv t' s.
Proof.
  intros Ht Hinv. destruct Hinv; split; try done.
  - intros k p Hp. destruct (gi_proposals0 _ _ Hp) as [? (?&?&?&?&?)].
    split; [done|]. do 4 (split; [done|]). by eapply outcome_later.
  - intros e He. destruct (gi_emergency0 _ He) as (?&?&?&?). split; [lia|done].
Qed.

(** A deposit not yet settled is part of what the vault covers. *)
Lemma unsettled_nonneg t s k p :
  gov_inv t s → gs_proposals s !! k = Some p → 0 ≤ unsettled p ≤ stake_deposit p.
Proof.
  intros Hinv Hp. destruct (gi_proposals _ _ Hinv _ _ Hp) as [_ (_&_&?&_)].
  unfold unsettled. destruct (deposit_settled p); ilia.
Qed.

(** What may happen to a proposal without a vote or a new proposal. *)
Record proposal_moves p p' : Prop := {
  pm_id : pr_id p' = pr_id p;
  pm_category : pr_category p' = pr_category p;
  pm_ends : voting_ends_at p' = voting_ends_at p;
  pm_for : votes_for p' = votes_for p;
  pm_against : votes_against p' = votes_against p;
  pm_executed : executed p = true → executed p' = true;
}.

Lemma listed_by_moves s k p p' l bans evs b :
  gs_proposals s !! k = Some p → proposal_moves p p' → listed_by s b →
  listed_by (mkGov (gs_config s) (gs_emergency s) (<[k:=p']> (gs_proposals s)) (gs_actions s)
    (gs_votes s) bans l evs) b.
Proof.
  intros Hp Hm (q & Hq & Hx & Hcat & He & Ha). unfold listed_by; simpl.
  destruct (decide (authorizing_proposal b = k)) as [Hk|Hk].
  - rewrite Hk in Hq, Ha |- *. simplify_eq. exists p'. rewrite lookup_insert_eq.
    rewrite (pm_category _ _ Hm), (pm_ends _ _ Hm).
    split_and!; try done. by apply (pm_executed _ _ Hm).
  - exists q. by rewrite lookup_insert_ne.
Qed.

Lemma inv_move t s k p p' bans l evs :
  gov_inv t s → gs_proposals s !! k = Some p → proposal_moves p p' → proposal_wf t p' →
  (∀ kb b, bans !! kb = Some b → gs_bans s !! kb = Some b ∨
     kb = ban_record_key (br_wallet b) ∧ authorizing_proposal b = k ∧ executed p' = true ∧
     pr_category p = Standards ∧ voting_ends_at p < listed_at b ∧
     gs_actions s !! proposal_action_key k =
       Some (mkAction k (ListWallet_ (br_wallet b) (br_reason b) (br_evidence_hash b)))) →
  (∀ j, spent j evs = use_count (<[k:=p']> (gs_proposals s) !! j)) →
  (∀ m o, vault_account (gs_ledger s) deposit_vault_key m o → vault_account l deposit_vault_key m o) →
  unsettled p' - unsettled p ≤
    balance l deposit_vault_key - balance (gs_ledger s) deposit_vault_key →
  gov_inv t (mkGov (gs_config s) (gs_emergency s) (<[k:=p']> (gs_proposals s)) (gs_actions s)
    (gs_votes s) bans l evs).
Proof.
  intros Hinv Hp Hm Hwf Hbans Hspent Hvault Hbal.
  split; simpl; try apply Hinv; try done.
  - intros j q. rewrite lookup_insert. case_decide; [|by apply Hinv]. intros [= <-]. subst.
    rewrite (pm_id _ _ Hm). split; [by apply (gi_proposals _ _ Hinv)|done].
  - intros j q. rewrite lookup_insert. case_decide; [|by apply Hinv]. intros [= <-]. subst.
    rewrite (pm_category _ _ Hm). by apply (gi_actions _ _ Hinv).
  - intros j q. rewrite lookup_insert. case_decide; [|by apply Hinv]. intros [= <-]. subst.
    rewrite (pm_for _ _ Hm), (pm_against _ _ Hm). by apply (gi_tally _ _ Hinv).
  - intros j v Hv. destruct (gi_votes _ _ Hinv _ _ Hv) as (?&?&?). split_and!; try done.
    rewrite lookup_insert. by case_decide.
  - intros kb b Hb. destruct (Hbans _ _ Hb) as [Hold|(Hk & Hauth & Hx & Hcat & He & Ha)].
    + destruct (gi_bans _ _ Hinv _ _ Hold) as [? Hl]. split; [done|]. by eapply listed_by_moves.
    + split; [done|]. exists p'. simpl. rewrite Hauth, lookup_insert_eq.
      by rewrite (pm_category _ _ Hm), (pm_ends _ _ Hm).
  - intros Hc. rewrite (gi_empty _ _ Hinv Hc) in Hp. done.
  - intros cfg Hc. destruct (gi_config _ _ Hinv _ Hc) as (?&?&?). auto.
  - unfold unsettled_total. rewrite (map_sum_insert _ _ _ p) by done.
    pose proof (gi_deposits _ _ Hinv). unfold unsettled_total in *. lia.
Qed.

(** The count of uses is unchanged where nothing was executed. *)
Lemma spent_same t s k p p' e :
  gov_inv t s → gs_proposals s !! k = Some p → executed p' = executed p →
  authorised_by e = None →
  ∀ j, spent j (gs_events s ++ [e]) = use_count (<[k:=p']> (gs_proposals s) !! j).
Proof.
  intros Hinv Hp Hx He j. rewrite spent_snoc, He, decide_False by done.
  rewrite (gi_spent _ _ Hinv), lookup_insert. case_decide; subst; [|lia].
  rewrite Hp. simpl. rewrite Hx. lia.
Qed.

(** Executing a proposal spends it. *)
Lemma spent_execute t s k p e :
  gov_inv t s → gs_proposals s !! k = Some p → executed p = false →
  authorised_by e = Some k →
  ∀ j, spent j (gs_events s ++ [e]) =
    use_count (<[k:=p <| executed := true |>]> (gs_proposals s) !! j).
Proof.
  intros Hinv Hp Hx He j. rewrite spent_snoc, He, (gi_spent _ _ Hinv), lookup_insert.
  destruct (decide (k = j)) as [->|Hk].
  - rewrite Hp. simpl. rewrite Hx, decide_True by done. done.
  - rewrite decide_False by congruence. lia.
Qed.

Lemma execute_wf t p :
  proposal_wf t p → pr_state p = Accepted → proposal_wf t (p <| executed := true |>).
Proof.
  intros (?&?&?&?&Ho) Hs. do 4 (split; [done|]). unfold outcome_ok in *; simpl in *.
  by rewrite Hs in *.
Qed.

Lemma execution_moves p : proposal_moves p (p <| executed := true |>).
Proof. by split. Qed.

(** The tally's integer arithmetic decides [passes] exactly. *)
Lemma tally_accepts_passes p b :
  0 ≤ votes_for p → 0 ≤ votes_against p → tally_accepts p (total_cast p) = Ok b →
  b = true ↔ passes p.
Proof.
  unfold tally_accepts, passes, BPS_DENOMINATOR, total_cast.
  intros Hf Ha. case_decide as Hq; intros; inv_run.
  - split; [done|]. lia.
  - rewrite bool_decide_eq_true.
    pose proof (Z.mul_div_le (votes_for p * 10000) (votes_for p + votes_against p)).
    split; intros Hle.
    + split_and!; [lia|lia|]. nia.
    + apply Z.div_le_lower_bound; lia.
Qed.

Lemma tally_inv t c pk s s' :
  gov_inv t s → t ≤ now c → handle_tally_and_finalize c pk s = Ok s' → gov_inv (now c) s'.
Proof.
  intros Hinv Ht Hrun. apply (gov_inv_later _ _ _ Ht) in Hinv.
  unfold handle_tally_and_finalize in Hrun. inv_gov.
  match goal with H : tally_accepts ?q _ = Ok ?b, Hk : _ !! _ = Some ?q |- _ =>
    rename H into Hb, Hk into Hp, b into acc, q into p end.
  destruct (gi_proposals _ _ Hinv _ _ Hp) as [_ (Hf & Ha & Hd & Hth & Ho)].
  apply tally_accepts_passes in Hb; [|ilia|ilia].
  unfold gov_emit, put_proposal; simpl. eapply inv_move; try done.
  - do 4 (split; [done|]). unfold outcome_ok in *; simpl in *.
    match goal with H : pr_state _ = Voting |- _ => rewrite H in Ho end. destruct Ho as (?&?&?).
    assert (quorum_snapshot p ≤ total_cast p ↔ bool_decide (quorum_snapshot p ≤ votes_for p + votes_against p) = true).
    { by rewrite bool_decide_eq_true. }
    destruct acc; unfold passes, total_cast in *; simpl; naive_solver.
  - naive_solver.
  - by eapply spent_same.
  - unfold unsettled; simpl. lia.
Qed.

(** A transfer out of the vault takes at most the amount. *)
Lemma deposit_debit l l' mint to n d :
  transfer_checked l deposit_vault_key mint to governance_config_key n d = Some l' →
  - n ≤ balance l' deposit_vault_key - balance l deposit_vault_key.
Proof.
  intros Ht. rewrite (transfer_balance _ _ _ _ _ _ _ _ Ht).
  pose proof (transfer_nonneg _ _ _ _ _ _ _ _ Ht).
  repeat case_decide; congruence || lia.
Qed.

Lemma settle_inv t c mint d pk to s s' :
  gov_inv t s → t ≤ now c → handle_refund_or_forfeit_deposit c mint d pk to s = Ok s' →
  gov_inv (now c) s'.
Proof.
  intros Hinv Ht Hrun. apply (gov_inv_later _ _ _ Ht) in Hinv.
  unfold handle_refund_or_forfeit_deposit in Hrun. inv_gov.
  match goal with H : transfer_checked _ _ _ _ _ _ _ = Some _, Hk : gs_proposals _ !! _ = Some ?q |- _ =>
    rename H into Htr, Hk into Hp, q into p end.
  destruct (gi_proposals _ _ Hinv _ _ Hp) as [_ (Hf & Ha & Hd & Hth & Ho)].
  unfold gov_emit, put_proposal; simpl. eapply inv_move; try done.
  - do 4 (split; [done|]). unfold outcome_ok in *; simpl. by destruct (pr_state p).
  - naive_solver.
  - by eapply spent_same.
  - intros m o. by eapply transfer_vault_account.
  - apply deposit_debit in Htr. unfold unsettled; simpl.
    match goal with H : deposit_settled _ = false |- _ => rewrite H end. lia.
Qed.

(** The three ways of executing a proposal without touching a ban. *)
Lemma execute_inv t s k p e bans :
  gov_inv t s → gs_proposals s !! k = Some p → pr_state p = Accepted → executed p = false →
  authorised_by e = Some k → (∀ j b, bans !! j = Some b → gs_bans s !! j = Some b) →
  gov_inv t (gov_emit (put_proposal s k (p <| executed := true |>) <| gs_bans := bans |>) e).
Proof.
  intros Hinv Hp Hs Hx He Hb. unfold gov_emit, put_proposal; simpl.
  destruct (gi_proposals _ _ Hinv _ _ Hp) as [_ Hwf].
  eapply inv_move; [done|done|apply execution_moves|by apply execute_wf| |by eapply spent_execute|done|].
  - intros. left. auto.
  - unfold unsettled; simpl. lia.
Qed.

(** What a successful listing found, and the record it wrote. *)
Lemma list_wallet_Ok c pk w s s' :
  handle_list_wallet c pk w s = Ok s' →
  ∃ cfg p a reason ev, gs_config s = Some cfg ∧ gs_proposals s !! pk = Some p ∧
    pr_category p = Standards ∧ gs_actions s !! proposal_action_key pk = Some a ∧
    pa_action a = ListWallet_ w reason ev ∧ gs_bans s !! ban_record_key w = None ∧
    require_executable p cfg (now c) = Ok () ∧
    s' = gov_emit (put_proposal s pk (p <| executed := true |>)
           <| gs_bans := <[ban_record_key w := mkBan w reason ev (now c) pk]> (gs_bans s) |>)
           (WalletListed w reason ev pk (pr_id p) (now c)).
Proof.
  unfold handle_list_wallet. intros (cfg & Hcfg%ok_or_Ok & Hrun)%bind_Ok.
  apply bind_Ok in Hrun as ([p a] & Hl & Hrun). apply bind_Ok in Hrun as ([] & Hb & Hrun).
  apply bind_Ok in Hrun as ([] & Hx & Hrun). apply bind_Ok in Hrun as ([reason ev] & Hm & Hrun).
  apply load_ban_proposal_Ok in Hl as (? & ? & ?). apply init_account_Ok in Hb.
  destruct (pa_action a) as [|target r v|] eqn:Ha; try done.
  case_decide; simplify_eq/=. by exists cfg, p, a, reason, ev.
Qed.

Lemma list_wallet_inv t c pk w s s' :
  gov_inv t s → t ≤ now c → handle_list_wallet c pk w s = Ok s' → gov_inv (now c) s'.
Proof.
  intros Hinv Ht Hrun. apply (gov_inv_later _ _ _ Ht) in Hinv.
  apply list_wallet_Ok in Hrun
    as (cfg & p & a & r & ev & Hcfg & Hp & Hcat & Hact & Ha & Hb & Hx & ->).
  destruct (gi_actions _ _ Hinv _ _ Hp) as (a' & Ha' & _). rewrite Hact in Ha'. simplify_eq/=.
  destruct (gi_proposals _ _ Hinv _ _ Hp) as [_ Hwf]. inv_gov.
  destruct (gi_config _ _ Hinv _ Hcfg) as ((_&_&_&Hlock)&_&_).
  unfold gov_emit, put_proposal; simpl.
  eapply inv_move; [done|done|apply execution_moves|by apply execute_wf| |by eapply spent_execute|done|].
  - intros kb b. rewrite lookup_insert. case_decide; [|by left]. intros [= <-]. right. simpl.
    split_and!; try done. lia.
  - unfold unsettled; simpl. lia.
Qed.

Lemma delist_wallet_inv t c pk w s s' :
  gov_inv t s → t ≤ now c → handle_delist_wallet c pk w s = Ok s' → gov_inv (now c) s'.
Proof.
  intros Hinv Ht Hrun. apply (gov_inv_later _ _ _ Ht) in Hinv.
  unfold handle_delist_wallet in Hrun. inv_gov.
  eapply execute_inv; try done. by intros j b [_ ?]%lookup_delete_Some.
Qed.

Lemma record_inv t c pk cat e ev p s :
  gov_inv t s → t ≤ now c → load_recordable s pk cat e = Ok p → authorised_by ev = Some pk →
  gov_inv (now c) (gov_emit (put_proposal s pk (p <| executed := true |>)) ev).
Proof.
  intros Hinv Ht Hl Hev. apply (gov_inv_later _ _ _ Ht) in Hinv. inv_gov.
  apply (execute_inv _ _ _ _ _ (gs_bans s)); done.
Qed.

Lemma link_inv t c who pk h s s' :
  gov_inv t s → t ≤ now c → handle_link_offchain_proposal c who pk h s = Ok s' →
  gov_inv (now c) s'.
Proof.
  intros Hinv Ht Hrun. apply (gov_inv_later _ _ _ Ht) in Hinv.
  unfold handle_link_offchain_proposal in Hrun. inv_gov.
  match goal with Hk : gs_proposals _ !! _ = Some _ |- _ => rename Hk into Hp end.
  destruct (gi_proposals _ _ Hinv _ _ Hp) as [_ Hwf].
  unfold gov_emit, put_proposal; simpl.
  eapply inv_move; try done; [naive_solver|by eapply spent_same|unfold unsettled; simpl; lia].
Qed.

(** A vote counts on one side, and changes nothing else about its proposal. *)
Definition add_vote p (fav : bool) (w : Z) : Proposal :=
  if fav then p <| votes_for := votes_for p + w |> else p <| votes_against := votes_against p + w |>.

Lemma cast_vote_Ok c scfg stakes voter pk (fav : bool) role s s' :
  handle_cast_vote c scfg stakes voter pk fav role s = Ok s' →
  ∃ cfg sc a p until ev, gs_config s = Some cfg ∧ scfg = Some sc ∧
    stakes !! stake_account_key voter role = Some a ∧ gs_proposals s !! pk = Some p ∧
    pr_state p = Voting ∧ now c < voting_ends_at p ∧
    gs_votes s !! vote_record_key pk voter = None ∧ until = now c + vote_lock_secs cfg ∧
    u64 ((if fav then votes_for p else votes_against p) + effective_stake a sc) ∧
    s' = gov_emit (put_proposal s pk (add_vote p fav (effective_stake a sc))
           <| gs_votes := <[vote_record_key pk voter :=
                mkVote pk voter (effective_stake a sc) fav until]> (gs_votes s) |>) ev ∧
    authorised_by ev = None.
Proof.
  unfold handle_cast_vote. intros. inv_gov.
  match goal with H : (if fav then _ else _) = Ok _ |- _ => rename H into Hv end.
  destruct fav; inv_gov; do 6 eexists; repeat (split; [done|]); done.
Qed.

Lemma effective_stake_nonneg (a : StakeAccount) sc : 0 ≤ sa_amount a → 0 ≤ effective_stake a sc.
Proof. unfold effective_stake. case_decide; lia. Qed.

Lemma add_vote_wf t p (fav : bool) w :
  0 ≤ w → pr_state p = Voting → proposal_wf t p →
  u64 ((if fav then votes_for p else votes_against p) + w) → proposal_wf t (add_vote p fav w).
Proof.
  intros Hw Hs (?&?&?&?&Ho) Hu. unfold proposal_wf, outcome_ok in *. rewrite Hs in Ho.
  destruct Ho as (?&?&?). destruct fav; simpl; rewrite Hs; split_and?; done || ilia.
Qed.

(** The new record is the only one added to its proposal's sums. *)
Lemma add_vote_tally k p fav w votes vk v :
  votes !! vk = None → vr_proposal v = k → vr_in_favor v = fav → vr_weight v = w →
  votes_for p = votes_cast k true votes → votes_against p = votes_cast k false votes →
  votes_for (add_vote p fav w) = votes_cast k true (<[vk:=v]> votes) ∧
  votes_against (add_vote p fav w) = votes_cast k false (<[vk:=v]> votes).
Proof.
  intros Hk Hp Hf Hw Hfor Hag. destruct fav; simpl.
  - rewrite votes_cast_add, votes_cast_other by (done || by right; rewrite Hf). lia.
  - rewrite votes_cast_other, votes_cast_add by (done || by right; rewrite Hf). lia.
Qed.

Lemma cast_vote_inv t c scfg stakes voter pk fav role s s' :
  gov_inv t s → t ≤ now c → stakes_typed stakes →
  handle_cast_vote c scfg stakes voter pk fav role s = Ok s' → gov_inv (now c) s'.
Proof.
  intros Hinv Ht Hty Hrun. apply (gov_inv_later _ _ _ Ht) in Hinv.
  apply cast_vote_Ok in Hrun
    as (cfg & sc & a & p & until & ev & Hcfg & -> & Ha & Hp & Hs & Hn & Hv & _ & Hu & -> & Hev).
  set (w := effective_stake a sc) in *.
  assert (Hw : 0 ≤ w) by (apply effective_stake_nonneg; apply Hty in Ha; ilia).
  set (v := mkVote pk voter w fav until).
  (* the proposal's own counters first, then the record *)
  destruct (gi_proposals _ _ Hinv _ _ Hp) as [Hk Hwf].
  unfold gov_emit, put_proposal; simpl. split; simpl; try apply Hinv.
  - intros j q. rewrite lookup_insert. case_decide; [|by apply Hinv]. intros [= <-]. subst j.
    split; [by destruct fav|by apply add_vote_wf].
  - intros j q. rewrite lookup_insert. case_decide; [|by apply Hinv]. intros [= <-]. subst j.
    destruct (gi_actions _ _ Hinv _ _ Hp) as (a' & ? & ?). exists a'. by destruct fav.
  - intros j q. rewrite lookup_insert. case_decide as Hj; intros Hq.
    + simplify_eq. destruct (gi_tally _ _ Hinv _ _ Hp). by apply add_vote_tally.
    + rewrite !votes_cast_other by (done || by left). by apply (gi_tally _ _ Hinv).
  - intros j q. rewrite lookup_insert. case_decide as Hj; intros Hq.
    + simplify_eq. split_and!; [done|done|]. simpl. by rewrite lookup_insert_eq.
    + destruct (gi_votes _ _ Hinv _ _ Hq) as (?&?&?). split_and!; try done.
      rewrite lookup_insert. by case_decide.
  - intros kb b Hb. destruct (gi_bans _ _ Hinv _ _ Hb) as [? (q & Hq & Hx & Hcat & He & Hact)].
    split; [done|]. exists q. simpl. rewrite lookup_insert_ne; [done|]. intros Heq.
    rewrite <-Heq in Hq. simplify_eq. destruct Hwf as (_&_&_&_&Ho).
    unfold outcome_ok in Ho. rewrite Hs in Ho. destruct_and!. congruence.
  - eapply spent_same; try done. by destruct fav.
  - by rewrite Hcfg.
  - unfold unsettled_total. rewrite (map_sum_insert _ _ _ p) by done.
    pose proof (gi_deposits _ _ Hinv). unfold unsettled_total in *.
    assert (unsettled (add_vote p fav w) = unsettled p) as -> by (by destruct fav). lia.
Qed.

Lemma deposit_credit l l' from mint who n d m :
  transfer_checked l from mint deposit_vault_key who n d = Some l' →
  vault_account l deposit_vault_key m governance_config_key → derived_by GOVERNANCE who = false →
  balance l' deposit_vault_key = balance l deposit_vault_key + n.
Proof.
  intros Ht Hv Hwho. rewrite (transfer_balance _ _ _ _ _ _ _ _ Ht).
  assert (from ≠ deposit_vault_key).
  { intros ->. eapply transfer_from_vault in Hv; [|done]. by subst. }
  repeat case_decide; congruence || lia.
Qed.

(** A new proposal has nothing recorded against it yet. *)
Lemma create_proposal_inv t c who mint from id cat title summary period act s s' :
  gov_inv t s → t ≤ now c → derived_by GOVERNANCE who = false →
  handle_create_proposal c who mint from id cat title summary period act s = Ok s' →
  gov_inv (now c) s'.
Proof.
  intros Hinv Ht Hwho Hrun. apply (gov_inv_later _ _ _ Ht) in Hinv.
  unfold handle_create_proposal in Hrun. inv_gov.
  match goal with H : require_action_category _ _ = Ok _ |- _ => rename H into Hact end.
  match goal with H : transfer_checked _ _ _ _ _ _ _ = Some _ |- _ => rename H into Htr end.
  match goal with H : gs_config _ = Some ?x |- _ => rename H into Hcfg, x into cfg end.
  match goal with H : gs_proposals _ !! _ = None |- _ => rename H into Hp end.
  destruct (gi_config _ _ Hinv _ Hcfg) as (Hwf & Hem & Hva).
  pose proof (deposit_credit _ _ _ _ _ _ _ _ Htr Hva Hwho) as Hbal.
  assert (Hnov : ∀ fav, votes_cast (proposal_key id) fav (gs_votes s) = 0).
  { intros fav. apply votes_cast_none. intros j v Hv Heq.
    destruct (gi_votes _ _ Hinv _ _ Hv) as (_&_&Hsome). rewrite Heq, Hp in Hsome. by destruct Hsome. }
  split; simpl; try apply Hinv.
  - intros j q. rewrite lookup_insert. case_decide; [|by apply Hinv]. intros [= <-]. subst j.
    split; [done|]. destruct Hwf as (Hb & ? & _). destruct (Hb cat) as [? _].
    unfold proposal_wf, outcome_ok; simpl. split_and!; done || ilia.
  - intros j q. rewrite !lookup_insert. case_decide as Hj; intros Hq.
    + simplify_eq. rewrite decide_True by done. exists act. split; [done|].
      intros Hne. destruct act; [done| |]; by apply require_Ok in Hact.
    + rewrite decide_False by (by intros [= E]; apply Hj). by apply (gi_actions _ _ Hinv).
  - intros j q. rewrite lookup_insert. case_decide; [|by apply Hinv]. intros [= <-]. subst j.
    by rewrite !Hnov.
  - intros j v Hv. destruct (gi_votes _ _ Hinv _ _ Hv) as (?&?&?). split_and!; try done.
    rewrite lookup_insert. by case_decide.
  - intros kb b Hb. destruct (gi_bans _ _ Hinv _ _ Hb) as [? (q & Hq & Hx & Hcat & He & Ha)].
    split; [done|]. exists q. simpl. rewrite !lookup_insert_ne; [done| |].
    + intros [= Heq]. congruence.
    + intros Heq. congruence.
  - intros j. rewrite spent_snoc, decide_False, (gi_spent _ _ Hinv), lookup_insert by done.
    case_decide; [|lia]. subst j. by rewrite Hp.
  - congruence.
  - intros cfg' Hc. simplify_eq. split_and!; try done. by eapply transfer_vault_account.
  - unfold unsettled_total. rewrite map_sum_insert_None by done. rewrite Hbal.
    pose proof (gi_deposits _ _ Hinv). unfold unsettled_total in *. unfold unsettled at 1; simpl. lia.
Qed.

(** Changes of the configuration, the emergency authority and the ledger. *)
Lemma inv_config_change t s cfg e l evs :
  gov_inv t s → gov_config_wf cfg → emergency_wf t e →
  vault_account l deposit_vault_key (gc_mint cfg) governance_config_key →
  balance (gs_ledger s) deposit_vault_key ≤ balance l deposit_vault_key →
  (∀ k, spent k evs = spent k (gs_events s)) →
  gov_inv t (mkGov (Some cfg) (Some e) (gs_proposals s) (gs_actions s) (gs_votes s)
    (gs_bans s) l evs).
Proof.
  intros Hinv Hwf He Hv Hb Hs. split; simpl; try apply Hinv.
  - intros k. rewrite Hs. apply Hinv.
  - done.
  - intros cfg' [= <-]. eauto.
  - etrans; [apply Hinv|done].
  - by intros e' [= <-].
Qed.

Lemma spent_emit k evs e : authorised_by e = None → spent k (evs ++ [e]) = spent k evs.
Proof. intros He. rewrite spent_snoc, decide_False by (by rewrite He). lia. Qed.

Lemma initialize_config_inv t c admin mint d q s s' :
  gov_inv t s → t ≤ now c → gov_params_typed q →
  handle_initialize_governance_config c admin mint d q s = Ok s' → gov_inv (now c) s'.
Proof.
  intros Hinv Ht Hty Hrun. apply (gov_inv_later _ _ _ Ht) in Hinv.
  unfold handle_initialize_governance_config in Hrun. inv_gov.
  unfold gov_emit; simpl. apply inv_config_change.
  - done.
  - by eapply require_valid_params_Ok.
  - eapply write_emergency_Ok; [done|lia].
  - by eapply create_vault_account_new.
  - match goal with H : create_token_account _ _ _ _ = Some _ |- _ =>
      rewrite (create_balance _ _ _ _ _ _ H) end. done.
  - intros k. by rewrite !spent_emit.
Qed.

Lemma update_config_inv t c admin mint d q s s' :
  gov_inv t s → t ≤ now c → gov_params_typed q →
  handle_update_governance_config c admin mint d q s = Ok s' → gov_inv (now c) s'.
Proof.
  intros Hinv Ht Hty Hrun. apply (gov_inv_later _ _ _ Ht) in Hinv.
  unfold handle_update_governance_config in Hrun. inv_gov.
  match goal with H : gs_config _ = Some ?x |- _ => destruct (gi_config _ _ Hinv _ H) as (?&?&?) end.
  match goal with H : gs_emergency _ = Some ?x |- _ =>
    pose proof (gi_emergency _ _ Hinv _ H); unfold gov_emit; simpl; rewrite H end.
  apply inv_config_change; try done.
  - by eapply require_valid_params_Ok.
  - intros k. by rewrite spent_emit.
Qed.

Lemma initialize_emergency_inv t c s s' :
  gov_inv t s → t ≤ now c → handle_initialize_emergency_authority c s = Ok s' →
  gov_inv (now c) s'.
Proof.
  intros Hinv Ht Hrun. apply (gov_inv_later _ _ _ Ht) in Hinv.
  unfold handle_initialize_emergency_authority in Hrun. inv_gov.
  unfold gov_emit; simpl. split; simpl; try apply Hinv.
  - intros k. rewrite spent_emit by done. apply Hinv.
  - intros cfg Hc. destruct (gi_config _ _ Hinv _ Hc) as (?&?&?). eauto.
  - intros e' [= <-]. eapply write_emergency_Ok; [done|lia].
Qed.

Lemma gov_process_inv t c scfg stakes i s s' :
  gov_inv t s → t ≤ now c → stakes_typed stakes → ix_typed i →
  process c scfg stakes i s = Ok s' → gov_inv (now c) s'.
Proof.
  intros Hinv Ht Hst Hty Hrun. destruct i; simpl in *.
  - by eapply initialize_config_inv.
  - by eapply update_config_inv.
  - by eapply initialize_emergency_inv.
  - destruct Hty as (?&?&?). by eapply create_proposal_inv.
  - by eapply cast_vote_inv.
  - by eapply tally_inv.
  - by eapply settle_inv.
  - by eapply list_wallet_inv.
  - by eapply delist_wallet_inv.
  - unfold handle_update_config_parameter in Hrun.
    apply bind_Ok in Hrun as (p & Hl & [= <-]). by eapply record_inv.
  - unfold handle_authorize_treasury_spend in Hrun.
    apply bind_Ok in Hrun as (p & Hl & [= <-]). by eapply record_inv.
  - by eapply link_inv.
Qed.

Lemma gov_step_inv w w' : gov_inv w.1 w.2 → gov_step w w' → gov_inv w'.1 w'.2.
Proof.
  intros Hinv Hstep.
  destruct Hstep as [t c scfg stakes i s s' Ht Hn Hst Hty Hrun|t t' s l' Ht Hl]; simpl in *.
  - by eapply gov_process_inv.
  - apply (gov_inv_later _ _ _ Ht) in Hinv. split; simpl; try apply Hinv.
    + intros cfg Hc. destruct (gi_config _ _ Hinv _ Hc) as (?&?&Hv). split_and!; try done.
      apply (respects_vault _ _ _ Hl) in Hv as [? _]; done.
    + destruct (gs_config s) as [cfg|] eqn:Hc.
      * destruct (gi_config _ _ Hinv _ Hc) as (?&?&Hv).
        apply (respects_vault _ _ _ Hl) in Hv as [_ ?]; [|done].
        pose proof (gi_deposits _ _ Hinv). lia.
      * rewrite (gi_empty _ _ Hinv Hc). unfold unsettled_total. rewrite map_sum_empty.
        apply balance_u64.
Qed.

Lemma gov_init_inv t l : gov_inv t (gov_init l).
Proof.
  split; simpl; try done.
  unfold unsettled_total. rewrite map_sum_empty. apply balance_u64.
Qed.

Lemma gov_reachable_inv t s : gov_reachable (t, s) → gov_inv t s.
Proof.
  intros (t0 & l & Hsteps).
  apply (steps_invariant _ (λ w, gov_inv w.1 w.2) _ (t, s)) in Hsteps; [done| |apply gov_init_inv].
  intros ? ?. apply gov_step_inv.
Qed.
End preservation.
