(* ===== verification/GovernanceHistory.v ===== *)
(** * GovernanceHistory: what governance never takes back

    How the accounts of the governance program may change from one state to a
    later one: a proposal's terms and its action are fixed when it is created,
    a verdict and every flag are permanent, a vote is never withdrawn, and the
    emergency deadline never moves. *)

From S2P Require Import Prelude Runtime Shared StakingState Staking GovernanceState Governance.
From S2P Require Import GovernanceInv.
Import GovernanceError.

(** What a proposal was opened with. *)
Record same_terms (p p' : Proposal) : Prop := {
  st_id : pr_id p' = pr_id p;
  st_category : pr_category p' = pr_category p;
  st_proposer : pr_proposer p' = pr_proposer p;
  st_hashes : title_hash p' = title_hash p ∧ summary_hash p' = summary_hash p;
  st_deposit : stake_deposit p' = stake_deposit p;
  st_quorum : quorum_snapshot p' = quorum_snapshot p;
  st_threshold : threshold_snapshot p' = threshold_snapshot p;
  st_times : pr_created_at p' = pr_created_at p ∧ voting_ends_at p' = voting_ends_at p;
}.

Record proposal_le (p p' : Proposal) : Prop := {
  pl_terms : same_terms p p';
  pl_votes : votes_for p ≤ votes_for p' ∧ votes_against p ≤ votes_against p';
  pl_final : pr_state p ≠ Voting → pr_state p' = pr_state p ∧ quorum_met p' = quorum_met p ∧
    votes_for p' = votes_for p ∧ votes_against p' = votes_against p ∧
    offchain_id_hash p' = offchain_id_hash p;
  pl_executed : executed p = true → executed p' = true;
  pl_settled : deposit_settled p = true → deposit_settled p' = true;
  pl_link : offchain_id_hash p ≠ zero_hash → offchain_id_hash p' = offchain_id_hash p;
}.

#[export] Instance same_terms_refl : Reflexive same_terms.
Proof. intros p. by split. Qed.

#[export] Instance proposal_le_refl : Reflexive proposal_le.
Proof. intros p. split; try done. Qed.

Lemma proposal_le_same p : proposal_le p p.
Proof. done. Qed.
#[local] Hint Resolve proposal_le_same : core.

#[export] Instance proposal_le_trans : Transitive proposal_le.
Proof.
  intros p q r [[] [? ?] Hf Hx Hs Hl] [[] [? ?] Hf' Hx' Hs' Hl']. split; auto.
  - split; intuition congruence.
  - lia.
  - intros Hv. destruct (Hf Hv) as (Hs1 & ? & ? & ? & ?).
    destruct Hf' as (?&?&?&?&?); [congruence|]. split_and!; congruence.
  - intros Hz. rewrite Hl' by (by rewrite Hl). by apply Hl.
Qed.

Section history.
Context {L : Type} `{TokenLedger L} `{Hashing}.
Abbreviation state := (gov_state L).
Implicit Types (s : state) (l : L) (c : chain) (k : pubkey) (p : Proposal).

Record gov_le s s' : Prop := {
  gl_proposals : ∀ k p, gs_proposals s !! k = Some p →
    ∃ p', gs_proposals s' !! k = Some p' ∧ proposal_le p p';
  gl_actions : gs_actions s ⊆ gs_actions s';
  gl_votes : gs_votes s ⊆ gs_votes s';
  gl_emergency : ∀ e, gs_emergency s = Some e → gs_emergency s' = Some e;
  gl_config : ∀ cfg, gs_config s = Some cfg → ∃ cfg', gs_config s' = Some cfg' ∧
    gc_admin cfg' = gc_admin cfg ∧ gc_mint cfg' = gc_mint cfg;
}.

Lemma gov_le_refl s : gov_le s s.
Proof. split; eauto; done. Qed.

Lemma gov_le_trans s1 s2 s3 : gov_le s1 s2 → gov_le s2 s3 → gov_le s1 s3.
Proof.
  intros [Hp Ha Hv He Hc] [Hp' Ha' Hv' He' Hc']. split.
  - intros k p (q & Hq & Hle)%Hp. apply Hp' in Hq as (r & Hr & Hle'). exists r. split; [done|].
    by etrans.
  - by etrans.
  - by etrans.
  - auto.
  - intros cfg (cfg2 & Hcfg2 & Hadm & Hm)%Hc. apply Hc' in Hcfg2 as (cfg3 & ? & ? & ?).
    exists cfg3. split_and!; congruence.
Qed.

(** Moving one proposal forward. *)
Lemma gov_le_put s k p p' votes bans l evs :
  gs_proposals s !! k = Some p → proposal_le p p' → gs_votes s ⊆ votes →
  gov_le s (mkGov (gs_config s) (gs_emergency s) (<[k:=p']> (gs_proposals s)) (gs_actions s)
    votes bans l evs).
Proof.
  intros Hp Hle Hv. split; simpl; eauto.
  intros j q Hq. rewrite lookup_insert. case_decide; [subst; simplify_eq; eauto|].
  exists q. done.
Qed.

Lemma execute_le p : proposal_le p (p <| executed := true |>).
Proof. by split. Qed.

Lemma tally_le p q a :
  pr_state p = Voting →
  proposal_le p (p <| quorum_met := q |> <| pr_state := a |>).
Proof. intros Hs. by split; simpl. Qed.

Lemma add_vote_le p fav w : 0 ≤ w → pr_state p = Voting → proposal_le p (add_vote p fav w).
Proof. intros Hw Hs. destruct fav; split; simpl; try done; lia. Qed.

Lemma process_le t c scfg stakes i s s' :
  gov_inv t s → stakes_typed stakes → process c scfg stakes i s = Ok s' → gov_le s s'.
Proof.
  intros Hinv Hst Hrun. destruct i; simpl in Hrun.
  - unfold handle_initialize_governance_config in Hrun. inv_gov. split; simpl; eauto; congruence.
  - unfold handle_update_governance_config in Hrun. inv_gov. split; simpl; eauto.
    intros cfg Hcfg. eexists. split; [done|]. simpl. by simplify_eq.
  - unfold handle_initialize_emergency_authority in Hrun. inv_gov. split; simpl; eauto; congruence.
  - unfold handle_create_proposal in Hrun. inv_gov. split; simpl; eauto.
    + intros k p Hk. exists p. rewrite lookup_insert_ne by congruence. done.
    + by apply insert_subseteq.
  - apply cast_vote_Ok in Hrun
      as (cfg & sc & a & p & until & ev & _ & -> & Ha & Hp & Hs & _ & Hv & _ & _ & -> & _).
    eapply (gov_le_put s); [done| |by apply insert_subseteq].
    apply add_vote_le; [|done]. apply effective_stake_nonneg. apply Hst in Ha. ilia.
  - unfold handle_tally_and_finalize in Hrun. inv_gov.
    eapply (gov_le_put s); [done|by apply tally_le|done].
  - unfold handle_refund_or_forfeit_deposit in Hrun. inv_gov.
    eapply (gov_le_put s); [done|by split|done].
  - apply list_wallet_Ok in Hrun as (cfg & p & a & r & ev & _ & Hp & _ & _ & _ & _ & _ & ->).
    eapply (gov_le_put s); [done|apply execute_le|done].
  - unfold handle_delist_wallet in Hrun. inv_gov.
    eapply (gov_le_put s); [done|apply execute_le|done].
  - unfold handle_update_config_parameter in Hrun. inv_gov.
    eapply (gov_le_put s); [done|apply execute_le|done].
  - unfold handle_authorize_treasury_spend in Hrun. inv_gov.
    eapply (gov_le_put s); [done|apply execute_le|done].
  - unfold handle_link_offchain_proposal in Hrun. inv_gov.
    eapply (gov_le_put s); [done| |done]. split; simpl; try done.
Qed.

Lemma gov_step_le w w' : gov_inv w.1 w.2 → gov_step w w' → gov_le w.2 w'.2 ∧ w.1 ≤ w'.1.
Proof.
  intros Hinv Hstep.
  destruct Hstep as [t c scfg stakes i s s' Ht Hn Hst Hty Hrun|t t' s l' Ht Hl]; simpl in *.
  - split; [by eapply process_le|done].
  - split; [by split; simpl; eauto|done].
Qed.

Lemma gov_steps_le w w' :
  gov_inv w.1 w.2 → steps gov_step w w' → gov_le w.2 w'.2 ∧ w.1 ≤ w'.1.
Proof.
  intros Hinv Hsteps. induction Hsteps as [w|w1 w2 w3 Hs IH Hstep]; [by split; [apply gov_le_refl|]|].
  destruct (IH Hinv) as [Hle Ht].
  destruct (gov_step_le w2 w3) as [Hle' Ht']; [|done|].
  - eapply (steps_invariant _ (λ w, gov_inv w.1 w.2)); [intros ? ?; apply gov_step_inv|done|done].
  - split; [by eapply gov_le_trans|lia].
Qed.

(** Reachable states only have reachable successors. *)
Lemma gov_reachable_steps w w' : gov_reachable w → steps gov_step w w' → gov_reachable w'.
Proof. intros (t & l & Hs) Hs'. exists t, l. by eapply steps_trans. Qed.

Lemma gov_later t s t' s' :
  gov_inv t s → steps gov_step (t, s) (t', s') → gov_le s s' ∧ gov_inv t' s'.
Proof.
  intros Hinv Hsteps. split; [by apply (gov_steps_le (t, s) (t', s'))|].
  apply (steps_invariant _ (λ w, gov_inv w.1 w.2) _ (t', s')) in Hsteps; [done| |done].
  intros ? ?. apply gov_step_inv.
Qed.

(** After the deadline the delay is whatever it was. *)
Lemma process_delay c scfg stakes i s s' e cfg :
  process c scfg stakes i s = Ok s' → gs_emergency s = Some e → gs_config s = Some cfg →
  expires_at e ≤ now c → ∃ cfg', gs_config s' = Some cfg' ∧ vote_lock_secs cfg' = vote_lock_secs cfg.
Proof.
  intros Hrun He Hcfg Hexp. destruct i; simpl in Hrun.
  - unfold handle_initialize_governance_config in Hrun. inv_gov. congruence.
  - unfold handle_update_governance_config in Hrun. inv_gov. simplify_eq.
    match goal with H : require_vote_lock_change_allowed _ _ _ _ = Ok _ |- _ => rename H into Hv end.
    unfold require_vote_lock_change_allowed in Hv.
    rewrite decide_False in Hv by (unfold emergency_powers_available; lia). inv_gov.
    simpl. eauto.
  - unfold handle_initialize_emergency_authority in Hrun. inv_gov. congruence.
  - unfold handle_create_proposal in Hrun. inv_gov. simpl. eauto.
  - apply cast_vote_Ok in Hrun
      as (? & ? & ? & ? & ? & ? & _ & -> & _ & _ & _ & _ & _ & _ & _ & -> & _). simpl. eauto.
  - unfold handle_tally_and_finalize in Hrun. inv_gov. simpl. eauto.
  - unfold handle_refund_or_forfeit_deposit in Hrun. inv_gov. simpl. eauto.
  - apply list_wallet_Ok in Hrun as (? & ? & ? & ? & ? & _ & _ & _ & _ & _ & _ & _ & ->). simpl. eauto.
  - unfold handle_delist_wallet in Hrun. inv_gov. simpl. eauto.
  - unfold handle_update_config_parameter in Hrun. inv_gov. simpl. eauto.
  - unfold handle_authorize_treasury_spend in Hrun. inv_gov. simpl. eauto.
  - unfold handle_link_offchain_proposal in Hrun. inv_gov. simpl. eauto.
Qed.

Lemma steps_delay t s t' s' e cfg :
  gov_inv t s → steps gov_step (t, s) (t', s') → gs_emergency s = Some e →
  gs_config s = Some cfg → expires_at e ≤ t →
  gs_emergency s' = Some e ∧ t ≤ t' ∧
  ∃ cfg', gs_config s' = Some cfg' ∧ vote_lock_secs cfg' = vote_lock_secs cfg.
Proof.
  intros Hinv Hsteps He Hcfg Hexp. remember (t, s) as w eqn:Hw. remember (t', s') as w' eqn:Hw'.
  revert t' s' Hw'. induction Hsteps as [|w1 w2 w3 Hs IH Hstep]; intros t' s' Hw'; simplify_eq; [by split_and!; eauto; lia|].
  destruct w2 as [t2 s2]. destruct (IH eq_refl _ _ eq_refl) as (He2 & Ht2 & cfg2 & Hc2 & Hv2).
  inversion Hstep as [? c scfg stakes i ? ? Ht Hn Hst Hty Hrun|? ? ? l' Ht Hl]; simplify_eq.
  - destruct (process_delay _ _ _ _ _ _ _ _ Hrun He2 Hc2) as (cfg3 & ? & ?); [lia|].
    apply (gov_later t s) in Hs as [_ Hinv2]; [|done].
    pose proof (process_le _ _ _ _ _ _ _ Hinv2 Hst Hrun) as Hle.
    split_and!; [by apply (gl_emergency _ _ Hle)|lia|]. exists cfg3. split; [done|congruence].
  - simpl. split_and!; [done|lia|]. eauto.
Qed.

(** Where the emergency authority exists and the config does not, no
    instruction creates the config. *)
Lemma process_unconfigured c scfg stakes i s s' e :
  process c scfg stakes i s = Ok s' → gs_emergency s = Some e → gs_config s = None →
  gs_proposals s = ∅ → gs_config s' = None.
Proof.
  intros Hrun He Hcfg Hp. destruct i; simpl in Hrun.
  - unfold handle_initialize_governance_config in Hrun. inv_gov. congruence.
  - unfold handle_update_governance_config in Hrun. inv_gov. congruence.
  - unfold handle_initialize_emergency_authority in Hrun. inv_gov. congruence.
  - unfold handle_create_proposal in Hrun. inv_gov. congruence.
  - unfold handle_cast_vote in Hrun. inv_gov. congruence.
  - unfold handle_tally_and_finalize in Hrun. inv_gov. by simplify_map_eq.
  - unfold handle_refund_or_forfeit_deposit in Hrun. inv_gov. congruence.
  - apply list_wallet_Ok in Hrun as (? & ? & ? & ? & ? & ? & _). congruence.
  - unfold handle_delist_wallet in Hrun. inv_gov. congruence.
  - unfold handle_update_config_parameter in Hrun. inv_gov. by simplify_map_eq.
  - unfold handle_authorize_treasury_spend in Hrun. inv_gov. by simplify_map_eq.
  - unfold handle_link_offchain_proposal in Hrun. inv_gov. by simplify_map_eq.
Qed.

Lemma steps_unconfigured t s t' s' e :
  gov_inv t s → steps gov_step (t, s) (t', s') → gs_emergency s = Some e → gs_config s = None →
  gs_config s' = None.
Proof.
  intros Hinv Hsteps He Hcfg. remember (t, s) as w eqn:Hw. remember (t', s') as w' eqn:Hw'.
  revert t' s' Hw'. induction Hsteps as [|w1 w2 w3 Hs IH Hstep]; intros t' s' Hw'; simplify_eq; [done|].
  destruct w2 as [t2 s2]. specialize (IH eq_refl _ _ eq_refl).
  apply (gov_later t s) in Hs as [Hle Hinv2]; [|done].
  inversion Hstep as [? c scfg stakes i ? ? Ht Hn Hst Hty Hrun|? ? ? l' Ht Hl]; simplify_eq; [|done].
  eapply process_unconfigured; [done|by apply (gl_emergency _ _ Hle)|done|].
  by apply (gi_empty _ _ Hinv2).
Qed.
End history.
