(* ===== verification/GovernanceScenario.v ===== *)
(** * GovernanceScenario: a concrete run of the governance program

    A proposal to list a wallet is opened, voted, accepted and executed; a
    second one misses quorum and forfeits its deposit. *)

From S2P Require Import Prelude Runtime Shared StakingState Staking GovernanceState Governance.
From S2P Require Import GovernanceInv GovernanceHistory Scenario.
Import GovernanceError.

Definition gov_tx : Type := chain * gov_ix.

#[export] Instance gov_ix_typed_dec (i : gov_ix) : Decision (Governance.ix_typed i).
Proof. destruct i; simpl; unfold gov_params_typed; apply _. Defined.

Definition gov_ledger0 : simple_ledger := mkLedger
  (list_to_map
    [ (Key 71, holding OPEN (Key 3) 5000); (Key 72, holding OPEN (Key 35) 0);
      (Key 73, holding OPEN (Key 4) 5000) ])
  (list_to_map [ (OPEN, 6) ]).

Definition gov_exec (x : gov_tx) (s : gov_state simple_ledger)
    : result ErrorCode (gov_state simple_ledger) :=
  Governance.process x.1 (EscrowState.sv_config staking0) (EscrowState.sv_accounts staking0) x.2 s.

Definition gov_typed (x : gov_tx) : bool :=
  bool_decide (i64 (now x.1)) && bool_decide (Governance.ix_typed x.2).

Definition gov_time (x : gov_tx) : Z := now x.1.

Abbreviation gov_after := (after gov_exec (gov_init gov_ledger0)).
Abbreviation gov_runs := (succeeds gov_exec (gov_init gov_ledger0)).

Lemma stakes0_typed : stakes_typed (EscrowState.sv_accounts staking0).
Proof. exact (proj1 staking0_typed). Qed.

Lemma gov_exec_step t x s s' :
  t ≤ gov_time x → gov_typed x = true → gov_exec x s = Ok s' →
  gov_step (t, s) (gov_time x, s').
Proof.
  unfold gov_typed. rewrite andb_true_iff, !bool_decide_eq_true. intros Ht [Hn Hi] Hrun.
  eapply step_ix; [done|done|apply stakes0_typed|done|done].
Qed.

Lemma gov_after_reachable txs :
  timely gov_time gov_typed 0 txs = true → gov_runs txs = true →
  gov_reachable (end_time gov_time 0 txs, gov_after txs).
Proof. intros Hok Hrun. exists 0, gov_ledger0. eapply after_steps; eauto using gov_exec_step. Qed.

Lemma gov_after_later a b :
  timely gov_time gov_typed 0 (a ++ b) = true → gov_runs (a ++ b) = true →
  steps gov_step (end_time gov_time 0 a, gov_after a)
    (end_time gov_time 0 (a ++ b), gov_after (a ++ b)).
Proof. intros Hok Hrun. eapply after_steps_app; eauto using gov_exec_step. Qed.

Definition gsend (t : Z) (i : gov_ix) : gov_tx := (at_time t, i).

Definition gparams : gov_params := mkGovParams 10000 1000 5001 6000 6600 2000 100 60.
Definition culprit : pubkey := Key 66.
Definition evidence : list Z := replicate 32 7.
Definition pk1 : pubkey := proposal_key 1.
Definition pk2 : pubkey := proposal_key 2.
Definition pk3 : pubkey := proposal_key 3.

Definition propose (t id : Z) (act : GovernanceAction) : gov_tx :=
  gsend t (CreateProposal (Key 3) OPEN (Key 71) id Standards zero_hash zero_hash 100 act).

(** The config, a proposal to list a wallet, and three votes. *)
Definition gov_voted : list gov_tx :=
  [ gsend 10 (InitializeGovernanceConfig admin OPEN (Key 72) gparams);
    propose 20 1 (ListWallet_ culprit StolenFunds evidence);
    gsend 30 (CastVote (arb 1) pk1 true Arbitrator);
    gsend 31 (CastVote (arb 2) pk1 true Arbitrator);
    gsend 32 (CastVote (arb 3) pk1 false Arbitrator) ].

Definition gov_accepted : list gov_tx := gov_voted ++ [gsend 130 (TallyAndFinalize pk1)].
Definition gov_listed : list gov_tx := gov_accepted ++ [gsend 200 (ListWallet pk1 culprit)].

(** A second proposal nobody votes on, and its forfeited deposit. *)
Definition gov_ignored : list gov_tx :=
  gov_listed ++ [propose 210 2 NoAction; gsend 400 (TallyAndFinalize pk2)].
Definition gov_forfeited : list gov_tx :=
  gov_ignored ++ [gsend 410 (RefundOrForfeitDeposit OPEN (Key 72) pk2 (Key 71))].

(** The wallet is delisted by a third proposal. *)
Definition gov_delisted : list gov_tx :=
  gov_listed ++ [ propose 210 3 (DelistWallet_ culprit);
    gsend 211 (CastVote (arb 1) pk3 true Arbitrator); gsend 400 (TallyAndFinalize pk3);
    gsend 500 (DelistWallet pk3 culprit) ].

Example gov_delisted_runs : gov_runs gov_delisted = true ∧ gov_runs gov_forfeited = true.
Proof. by split; vm_compute. Qed.
