(* ===== verification/GovernanceTheorems.v ===== *)
(** * GovernanceTheorems: what governance guarantees

    The properties of the governance program, over every state it can reach,
    each with a run at which its hypotheses hold. *)

From S2P Require Import Prelude Runtime Shared StakingState Staking GovernanceState Governance.
From S2P Require Import GovernanceInv GovernanceHistory Scenario GovernanceScenario.
Import GovernanceError.

Section theorems.
Context {L : Type} `{TokenLedger L} `{Hashing}.
Abbreviation state := (gov_state L).
Implicit Types (s : state) (l : L) (c : chain) (k : pubkey) (p : Proposal) (b : BanRecord).

(** The weight a proposal has behind it, read off the vote records. *)
Definition recorded_pass s pk p : Prop :=
  let pro := votes_cast pk true (gs_votes s) in
  let con := votes_cast pk false (gs_votes s) in
  quorum_snapshot p ≤ pro + con ∧ pro + con ≠ 0 ∧
  threshold_snapshot p * (pro + con) ≤ 10000 * pro.

Lemma passes_recorded t s pk p :
  gov_inv t s → gs_proposals s !! pk = Some p → passes p ↔ recorded_pass s pk p.
Proof.
  intros Hinv Hp. destruct (gi_tally _ _ Hinv _ _ Hp) as [Hf Ha].
  unfold passes, recorded_pass, total_cast. by rewrite <-Hf, <-Ha.
Qed.

Lemma executed_accepted t s pk p :
  gov_inv t s → gs_proposals s !! pk = Some p → executed p = true →
  pr_state p = Accepted ∧ quorum_met p = true ∧ passes p.
Proof.
  intros Hinv Hp Hx. destruct (gi_proposals _ _ Hinv _ _ Hp) as [_ (_&_&_&_&Ho)].
  unfold outcome_ok in Ho. destruct (pr_state p); naive_solver congruence.
Qed.

(** C3: a wallet is on the ban list only by a vote.  Every ban record of a
    reachable state sits at the wallet's own address and names a Standards
    proposal that is Accepted, executed, and carried by the votes on record:
    quorum of its snapshot and its threshold share of the weight cast.  That
    proposal's action names this wallet, this reason and this evidence, and
    the listing came after its voting closed. *)
Theorem ban_needs_vote t s k b :
  gov_reachable (t, s) → gs_bans s !! k = Some b →
  k = ban_record_key (br_wallet b) ∧ ∃ p,
    gs_proposals s !! authorizing_proposal b = Some p ∧
    pr_category p = Standards ∧ pr_state p = Accepted ∧ executed p = true ∧
    recorded_pass s (authorizing_proposal b) p ∧ voting_ends_at p < listed_at b ∧
    gs_actions s !! proposal_action_key (authorizing_proposal b) =
      Some (mkAction (authorizing_proposal b)
              (ListWallet_ (br_wallet b) (br_reason b) (br_evidence_hash b))).
Proof.
  intros Hinv%gov_reachable_inv Hb.
  destruct (gi_bans _ _ Hinv _ _ Hb) as [Hk (p & Hp & Hx & Hcat & He & Ha)].
  destruct (executed_accepted _ _ _ _ Hinv Hp Hx) as (?&?&?).
  split; [done|]. exists p. rewrite <-(passes_recorded t) by done. done.
Qed.

(** An accepted proposal authorises one action, once.  In every reachable
    state at most one listing, delisting, parameter change or treasury spend
    was ever recorded against a proposal, and none against a proposal that did
    not pass. *)
Theorem authorisation_spent_once t s pk :
  gov_reachable (t, s) →
  (spent pk (gs_events s) ≤ 1)%nat ∧
  ((0 < spent pk (gs_events s))%nat → ∃ p, gs_proposals s !! pk = Some p ∧
     executed p = true ∧ pr_state p = Accepted ∧ recorded_pass s pk p).
Proof.
  intros Hinv%gov_reachable_inv. rewrite (gi_spent _ _ Hinv).
  destruct (gs_proposals s !! pk) as [p|] eqn:Hp; simpl; [|lia].
  destruct (executed p) eqn:Hx; [|lia]. split; [done|]. intros _. exists p.
  destruct (executed_accepted _ _ _ _ Hinv Hp Hx) as (?&?&?).
  by rewrite <-(passes_recorded t).
Qed.

(** C8: the outcome of a proposal is the one its recorded votes give.  Once
    tallied, it is Accepted exactly when the weight cast reaches the quorum
    snapshot, is not zero, and the share in favour reaches the threshold
    snapshot in basis points; it is Rejected otherwise; and the deposit rule's
    flag says whether quorum was reached. *)
Theorem outcome_is_votes t s pk p :
  gov_reachable (t, s) → gs_proposals s !! pk = Some p → pr_state p ≠ Voting →
  (pr_state p = Accepted ↔ recorded_pass s pk p) ∧
  (pr_state p = Rejected ↔ ¬ recorded_pass s pk p) ∧
  (quorum_met p = true ↔ quorum_snapshot p ≤
     votes_cast pk true (gs_votes s) + votes_cast pk false (gs_votes s)) ∧
  voting_ends_at p ≤ t.
Proof.
  intros Hinv%gov_reachable_inv Hp Hv. rewrite <-(passes_recorded t) by done.
  destruct (gi_tally _ _ Hinv _ _ Hp) as [<- <-].
  destruct (gi_proposals _ _ Hinv _ _ Hp) as [_ (_&_&_&_&Ho)].
  unfold outcome_ok, passes, total_cast in *. destruct (pr_state p); naive_solver.
Qed.

(** A wallet votes once.  After its vote on a proposal is recorded, every
    later attempt by it to vote on that proposal fails, whatever role it names
    and however its stake has changed. *)
Theorem one_vote_per_wallet t s t' s' v c scfg stakes voter pk fav role :
  gov_reachable (t, s) → gs_votes s !! vote_record_key pk voter = Some v →
  steps gov_step (t, s) (t', s') →
  ∀ r, handle_cast_vote c scfg stakes voter pk fav role s' ≠ Ok r.
Proof.
  intros Hinv%gov_reachable_inv Hv Hsteps r Hrun.
  apply (gov_later _ _ _ _ Hinv) in Hsteps as [Hle _].
  apply cast_vote_Ok in Hrun
    as (cfg & sc & a & p & until & ev & _ & _ & _ & _ & _ & _ & Hnone & _).
  eapply lookup_weaken in Hv; [|apply (gl_votes _ _ Hle)]. congruence.
Qed.

(** The terms of a proposal are fixed when it is opened.  Along every
    execution its category, proposer, deposit, quorum, threshold and deadline
    stay what they were and so does its action; once it is tallied the verdict
    and the counts never change, and an execution or a settlement is never
    undone. *)
Theorem proposal_terms_fixed t s t' s' pk p :
  gov_reachable (t, s) → gs_proposals s !! pk = Some p → steps gov_step (t, s) (t', s') →
  ∃ p', gs_proposals s' !! pk = Some p' ∧ same_terms p p' ∧
    gs_actions s' !! proposal_action_key pk = gs_actions s !! proposal_action_key pk ∧
    (pr_state p ≠ Voting → pr_state p' = pr_state p ∧ quorum_met p' = quorum_met p ∧
       votes_for p' = votes_for p ∧ votes_against p' = votes_against p) ∧
    (executed p = true → executed p' = true) ∧
    (deposit_settled p = true → deposit_settled p' = true).
Proof.
  intros Hinv%gov_reachable_inv Hp Hsteps.
  apply (gov_later _ _ _ _ Hinv) in Hsteps as [Hle _].
  destruct (gl_proposals _ _ Hle _ _ Hp) as (p' & Hp' & [Ht _ Hf Hx Hs _]).
  destruct (gi_actions _ _ Hinv _ _ Hp) as (a & Ha & _).
  exists p'. split_and!; [done|done| | |done|done].
  - rewrite Ha. eapply lookup_weaken; [done|apply (gl_actions _ _ Hle)].
  - intros Hv. destruct (Hf Hv) as (?&?&?&?&_). done.
Qed.

(** The delay power sunsets.  From the moment the emergency authority's
    deadline passes, no execution changes the delay between acceptance and
    execution, and no execution ever changes the deadline, which is one year
    after the authority was created. *)
Theorem delay_power_sunsets t s t' s' e cfg :
  gov_reachable (t, s) → gs_emergency s = Some e → gs_config s = Some cfg →
  expires_at e ≤ t → steps gov_step (t, s) (t', s') →
  gs_emergency s' = Some e ∧ expires_at e = initialized_at e + FIRST_YEAR_SECS ∧
  ∃ cfg', gs_config s' = Some cfg' ∧ vote_lock_secs cfg' = vote_lock_secs cfg.
Proof.
  intros Hinv%gov_reachable_inv He Hcfg Hexp Hsteps.
  destruct (gi_emergency _ _ Hinv _ He) as (_ & ? & _).
  destruct (steps_delay _ _ _ _ _ _ Hinv Hsteps He Hcfg Hexp) as (?&_&?). done.
Qed.

(** C13: an accepted ban action cannot be stalled.  Thirty days after its voting
    closed, whatever the configured delay, anyone's request to execute an
    accepted and unspent proposal to list a wallet puts the wallet on the list,
    unless it is already there, and one to delist a listed wallet takes it
    off. *)
Theorem accepted_action_executes t s c pk p a :
  gov_reachable (t, s) → gs_proposals s !! pk = Some p → pr_state p = Accepted →
  executed p = false → gs_actions s !! proposal_action_key pk = Some a →
  voting_ends_at p + MAX_VOTE_LOCK_SECS ≤ now c → i64 (voting_ends_at p) → i64 (now c) →
  match pa_action a with
  | NoAction => True
  | ListWallet_ w reason ev => gs_bans s !! ban_record_key w = None →
      ∃ s', handle_list_wallet c pk w s = Ok s' ∧
        gs_bans s' = <[ban_record_key w := mkBan w reason ev (now c) pk]> (gs_bans s)
  | DelistWallet_ w => is_Some (gs_bans s !! ban_record_key w) →
      ∃ s', handle_delist_wallet c pk w s = Ok s' ∧ gs_bans s' = delete (ban_record_key w) (gs_bans s)
  end.
Proof.
  intros Hinv%gov_reachable_inv Hp Hs Hx Ha Hlate Hi64 Hn.
  destruct (gi_proposals _ _ Hinv _ _ Hp) as [Hk (_&_&_&_&Ho)].
  unfold outcome_ok in Ho. rewrite Hs in Ho. destruct Ho as (_ & Hq & _).
  destruct (gs_config s) as [cfg|] eqn:Hcfg; [|by rewrite (gi_empty _ _ Hinv Hcfg) in Hp].
  destruct (gi_config _ _ Hinv _ Hcfg) as ((_&_&_&Hlock)&_&_).
  assert (Hexec : require_executable p cfg (now c) = Ok ()).
  { unfold require_executable. rewrite !require_true by done.
    unfold checked_add_i64, checked. rewrite decide_True by ilia. simpl.
    unfold require. rewrite decide_True by lia. done. }
  destruct (gi_actions _ _ Hinv _ _ Hp) as (a' & Ha' & Hcat). rewrite Ha in Ha'.
  injection Ha' as ->. cbn [pa_action].
  assert (Hload : a' ≠ NoAction → load_ban_proposal s pk = Ok (p, mkAction pk a')).
  { intros Hne. unfold load_ban_proposal. rewrite (proj2 (load_proposal_Ok s pk p)) by done. cbn.
    rewrite require_true by auto. rewrite (proj2 (load_Ok _ _ _) Ha). done. }
  destruct a' as [|w reason ev|w]; [done| |].
  - intros Hb. unfold handle_list_wallet, load_gov_config. rewrite Hcfg, Hload by done. simpl.
    rewrite (proj2 (init_account_Ok _ _ ())) by done. simpl. rewrite Hexec. simpl.
    rewrite decide_True by done. simpl. eauto.
  - intros [b Hb]. unfold handle_delist_wallet, load_gov_config. rewrite Hcfg, Hload by done. simpl.
    rewrite (proj2 (load_Ok _ _ _) Hb). simpl. rewrite Hexec. simpl.
    rewrite require_true by done. eauto.
Qed.

(** On a chain where governance is not yet configured, any signer can stop
    it from ever being configured.  One call of the permissionless
    [initialize_emergency_authority] succeeds, and from then on no execution
    creates a governance configuration, since [initialize_governance_config]
    insists on creating that account itself. *)
Theorem emergency_first_blocks_config t s c scfg stakes :
  gov_reachable (t, s) → t ≤ now c → gs_config s = None → gs_emergency s = None →
  i64 (now c) → i64 (now c + FIRST_YEAR_SECS) →
  ∃ s1, process c scfg stakes InitializeEmergencyAuthority s = Ok s1 ∧
    ∀ t' s', steps gov_step (now c, s1) (t', s') → gs_config s' = None.
Proof.
  intros Hinv%gov_reachable_inv Ht Hcfg He Hn Hy.
  destruct (process c scfg stakes InitializeEmergencyAuthority s) as [s1|f] eqn:Hrun; simpl in Hrun;
    unfold handle_initialize_emergency_authority, write_emergency_authority in Hrun.
  2: { rewrite require_true in Hrun by done. unfold checked_add_i64, checked in Hrun.
       by rewrite decide_True in Hrun. }
  exists s1. split; [done|]. intros t' s' Hsteps. inv_gov.
  eapply steps_unconfigured; [|done|done|done].
  eapply initialize_emergency_inv; [done|done|].
  unfold handle_initialize_emergency_authority, write_emergency_authority.
  rewrite require_true by done. unfold checked_add_i64, checked. by rewrite decide_True.
Qed.

Lemma deposit_covered t s pk p :
  gov_inv t s → gs_proposals s !! pk = Some p → deposit_settled p = false →
  0 ≤ stake_deposit p ≤ balance (gs_ledger s) deposit_vault_key.
Proof.
  intros Hinv Hp Hset. pose proof (unsettled_nonneg _ _ _ _ Hinv Hp) as Hn.
  pose proof (gi_deposits _ _ Hinv) as Hd.
  assert (unsettled p ≤ unsettled_total (gs_proposals s)) as Hle.
  { apply (map_sum_lookup_le (λ _, unsettled) _ _ _ Hp). intros k q Hq.
    eapply unsettled_nonneg; eauto. }
  unfold unsettled in Hn, Hle. rewrite Hset in Hn, Hle. lia.
Qed.

(** Where a tallied proposal's deposit goes: back to the proposer if quorum was
    reached, to the forfeit account otherwise. *)
Definition deposit_target (cfg : GovernanceConfig) p (to : pubkey) : pubkey :=
  if quorum_met p then to else forfeit_destination cfg.

(** Every deposit can be settled, and is settled in full.  After the tally,
    whatever other proposals were settled before, the vault still holds the
    deposit: settling it succeeds, moves exactly the deposit to the proposer's
    account if quorum was reached and to the forfeit account if not, and marks
    it settled.  It needs both accounts to exist in the governance mint, no
    account frozen, and room at the destination. *)
Theorem deposit_settles t s c cfg pk p to va ta fa da d :
  gov_reachable (t, s) → gs_config s = Some cfg → gs_proposals s !! pk = Some p →
  pr_state p ≠ Voting → deposit_settled p = false →
  account_of (gs_ledger s) to = Some ta → ta_owner ta = pr_proposer p → ta_mint ta = gc_mint cfg →
  account_of (gs_ledger s) (forfeit_destination cfg) = Some fa → ta_mint fa = gc_mint cfg →
  account_of (gs_ledger s) deposit_vault_key = Some va → ta_frozen va = false →
  account_of (gs_ledger s) (deposit_target cfg p to) = Some da → ta_frozen da = false →
  ta_amount da + stake_deposit p ≤ U64_MAX → decimals_of (gs_ledger s) (gc_mint cfg) = Some d →
  NoDup [deposit_vault_key; to; forfeit_destination cfg] →
  ∃ s' p', handle_refund_or_forfeit_deposit c (gc_mint cfg) (forfeit_destination cfg) pk to s = Ok s' ∧
    gs_proposals s' !! pk = Some p' ∧ deposit_settled p' = true ∧
    ∀ k, balance (gs_ledger s') k = balance (gs_ledger s) k
      + (if decide (k = deposit_vault_key) then - stake_deposit p
         else if decide (k = deposit_target cfg p to) then stake_deposit p else 0).
Proof.
  intros Hinv%gov_reachable_inv Hcfg Hp Hs Hset Hto Howner Hmt Hfd Hmf Hva Hvf Hda Hdf Hroom Hd Hnd.
  assert (deposit_target cfg p to ≠ deposit_vault_key) as Hne.
  { unfold deposit_target. apply NoDup_cons in Hnd as [Hnd _].
    destruct (quorum_met p); intros Heq; apply Hnd; rewrite <-Heq; set_solver. }
  destruct (gi_proposals _ _ Hinv _ _ Hp) as [Hk _].
  pose proof (deposit_covered _ _ _ _ Hinv Hp Hset) as Hcov.
  destruct (gi_config _ _ Hinv _ Hcfg) as (_ & _ & (va' & Hva' & Hvm & Hvo & _)).
  rewrite Hva in Hva'. injection Hva' as <-. rewrite (balance_account _ _ _ Hva) in Hcov.
  assert (Hmd : ta_mint da = gc_mint cfg).
  { unfold deposit_target in Hda. destruct (quorum_met p); congruence. }
  destruct (transfer_checked_succeeds (gs_ledger s) deposit_vault_key (gc_mint cfg)
    (deposit_target cfg p to) governance_config_key (stake_deposit p) d va da) as [l' Hl']; try done.
  unfold handle_refund_or_forfeit_deposit, load_gov_config, load_mint, load_token, token_transfer.
  rewrite Hd, Hcfg, Hva, Hto, Hfd. cbn. rewrite !require_true by done. cbn.
  rewrite (proj2 (load_proposal_Ok s pk p)) by done. cbn. rewrite !require_true by done. cbn.
  unfold load_mint. rewrite Hd. cbn. fold (deposit_target cfg p to). rewrite Hl'. cbn.
  do 2 eexists. split; [done|]. cbn. rewrite lookup_insert_eq. split; [done|]. split; [done|].
  intros k. rewrite (transfer_balance _ _ _ _ _ _ _ _ Hl'). rewrite decide_False by congruence. done.
Qed.
End theorems.

(** ** The theorems at a concrete run *)

Ltac gov_reach := apply gov_after_reachable; by vm_compute.

Definition proposal_at (txs : list gov_tx) (pk : pubkey) : Proposal :=
  default (mkProposal 0 Standards pk [] [] 0 0 0 0 0 0 0 Draft false false false [])
    (gs_proposals (gov_after txs) !! pk).

Lemma proposal_at_Some txs pk :
  bool_decide (is_Some (gs_proposals (gov_after txs) !! pk)) = true →
  gs_proposals (gov_after txs) !! pk = Some (proposal_at txs pk).
Proof. intros [p Hp]%bool_decide_eq_true. unfold proposal_at. by rewrite Hp. Qed.

Lemma ban_needs_vote_witness :
  gov_runs gov_listed = true ∧
  ∃ p, gs_proposals (gov_after gov_listed) !! pk1 = Some p ∧ pr_state p = Accepted.
Proof.
  split; [by vm_compute|].
  destruct (ban_needs_vote (end_time gov_time 0 gov_listed) (gov_after gov_listed)
    (ban_record_key culprit) (mkBan culprit StolenFunds evidence 200 pk1))
    as (_ & p & Hp & _ & Hs & _).
  - gov_reach.
  - by vm_compute.
  - exists p. split; [exact Hp|exact Hs].
Defined.

Lemma authorisation_spent_once_witness :
  (spent pk1 (gs_events (gov_after gov_listed)) ≤ 1)%nat ∧ gov_runs gov_listed = true.
Proof.
  split; [|by vm_compute].
  destruct (authorisation_spent_once (end_time gov_time 0 gov_listed) (gov_after gov_listed) pk1)
    as [Hle _]; [gov_reach|exact Hle].
Defined.

Lemma outcome_is_votes_witness :
  pr_state (proposal_at gov_accepted pk1) = Accepted ∧
  recorded_pass (gov_after gov_accepted) pk1 (proposal_at gov_accepted pk1).
Proof.
  assert (Hs : pr_state (proposal_at gov_accepted pk1) = Accepted) by (by vm_compute).
  split; [exact Hs|].
  destruct (outcome_is_votes (end_time gov_time 0 gov_accepted) (gov_after gov_accepted) pk1
    (proposal_at gov_accepted pk1)) as [[Hacc _] _].
  - gov_reach.
  - apply proposal_at_Some. by vm_compute.
  - rewrite Hs. discriminate.
  - exact (Hacc Hs).
Defined.

Lemma one_vote_per_wallet_witness :
  gov_runs gov_accepted = true ∧
  ∀ r, handle_cast_vote (at_time 40) (EscrowState.sv_config staking0) (EscrowState.sv_accounts staking0)
    (arb 1) pk1 false Arbitrator (gov_after gov_accepted) ≠ Ok r.
Proof.
  split; [by vm_compute|].
  apply (one_vote_per_wallet (end_time gov_time 0 gov_voted) (gov_after gov_voted)
    (end_time gov_time 0 gov_accepted) (gov_after gov_accepted) (mkVote pk1 (arb 1) 1000 true 90)).
  - gov_reach.
  - by vm_compute.
  - apply gov_after_later; by vm_compute.
Defined.

Lemma proposal_terms_fixed_witness :
  gov_runs gov_listed = true ∧
  ∃ p', gs_proposals (gov_after gov_listed) !! pk1 = Some p' ∧
    same_terms (proposal_at gov_accepted pk1) p'.
Proof.
  split; [by vm_compute|].
  destruct (proposal_terms_fixed (end_time gov_time 0 gov_accepted) (gov_after gov_accepted)
    (end_time gov_time 0 gov_listed) (gov_after gov_listed) pk1 (proposal_at gov_accepted pk1))
    as (p' & Hp' & Ht & _).
  - gov_reach.
  - apply proposal_at_Some. by vm_compute.
  - apply gov_after_later; by vm_compute.
  - exists p'. split; [exact Hp'|exact Ht].
Defined.

(** A year and a day later. *)
Definition gov_year : list gov_tx :=
  gov_ignored ++ [gsend 31622410 (RefundOrForfeitDeposit OPEN (Key 72) pk2 (Key 71))].
Definition gov_after_year : list gov_tx :=
  gov_year ++ [gsend 31622420 (UpdateGovernanceConfig admin OPEN (Key 72)
    (mkGovParams 20000 1000 5001 6000 6600 2000 100 60))].

Lemma delay_power_sunsets_witness :
  gov_runs gov_after_year = true ∧
  ∃ cfg', gs_config (gov_after gov_after_year) = Some cfg' ∧ vote_lock_secs cfg' = 60.
Proof.
  split; [by vm_compute|].
  destruct (delay_power_sunsets (end_time gov_time 0 gov_year) (gov_after gov_year)
    (end_time gov_time 0 gov_after_year) (gov_after gov_after_year)
    (mkEmergency ALLENHARK_PRIMARY_HOLDER ALLENHARK_SECONDARY_HOLDER 10 31536010)
    (config_of admin OPEN (Key 72) gparams)) as (_ & _ & cfg' & Hc & Hv).
  - gov_reach.
  - by vm_compute.
  - by vm_compute.
  - by vm_compute.
  - apply gov_after_later; by vm_compute.
  - exists cfg'. split; [exact Hc|exact Hv].
Defined.

Lemma accepted_action_executes_witness :
  gov_runs gov_accepted = true ∧
  ∃ s', handle_list_wallet (at_time 2600000) pk1 culprit (gov_after gov_accepted) = Ok s' ∧
    gs_bans s' = <[ban_record_key culprit := mkBan culprit StolenFunds evidence 2600000 pk1]>
                   (gs_bans (gov_after gov_accepted)).
Proof.
  split; [by vm_compute|].
  apply (accepted_action_executes (end_time gov_time 0 gov_accepted) (gov_after gov_accepted)
    (at_time 2600000) pk1 (proposal_at gov_accepted pk1)
    (mkAction pk1 (ListWallet_ culprit StolenFunds evidence))).
  - gov_reach.
  - apply proposal_at_Some. by vm_compute.
  - by vm_compute.
  - by vm_compute.
  - by vm_compute.
  - by vm_compute.
  - by vm_compute.
  - by vm_compute.
  - by vm_compute.
Defined.

Lemma emergency_first_blocks_config_witness :
  ∃ s1, Governance.process (at_time 5) None ∅ InitializeEmergencyAuthority (gov_init gov_ledger0) = Ok s1 ∧
    ∀ t' s', steps gov_step (5, s1) (t', s') → gs_config s' = None.
Proof.
  apply (emergency_first_blocks_config 0 (gov_init gov_ledger0) (at_time 5) None ∅).
  - exists 0, gov_ledger0. apply steps_refl.
  - by vm_compute.
  - reflexivity.
  - reflexivity.
  - by vm_compute.
  - by vm_compute.
Defined.

Lemma deposit_settles_witness :
  gov_runs gov_ignored = true ∧
  ∃ s' p', handle_refund_or_forfeit_deposit (at_time 410) OPEN (Key 72) pk2 (Key 71)
      (gov_after gov_ignored) = Ok s' ∧
    gs_proposals s' !! pk2 = Some p' ∧ deposit_settled p' = true.
Proof.
  split; [by vm_compute|].
  destruct (deposit_settles (end_time gov_time 0 gov_ignored) (gov_after gov_ignored) (at_time 410)
    (config_of admin OPEN (Key 72) gparams) pk2 (proposal_at gov_ignored pk2) (Key 71)
    (holding OPEN governance_config_key 200) (holding OPEN (Key 3) 4800) (holding OPEN (Key 35) 0)
    (holding OPEN (Key 35) 0) 6) as (s' & p' & Hrun & Hp' & Hset & _).
  - gov_reach.
  - by vm_compute.
  - apply proposal_at_Some. by vm_compute.
  - by vm_compute.
  - by vm_compute.
  - by vm_compute.
  - by vm_compute.
  - by vm_compute.
  - by vm_compute.
  - by vm_compute.
  - by vm_compute.
  - by vm_compute.
  - by vm_compute.
  - by vm_compute.
  - by vm_compute.
  - by vm_compute.
  - by apply (bool_decide_unpack _).
  - exists s', p'. split; [exact Hrun|]. split; [exact Hp'|exact Hset].
Defined.
