(* ===== verification/Presale.v ===== *)
(** * Presale: the token sale program

    Models [programs/presale/src]: the sale's accounts, its eight instructions
    and their dispatch.  The swap aggregator a sale is configured with is not
    part of the repository: it is the type class [SwapProgram], which says that
    a foreign program cannot sign for this program's addresses.  Nothing stops
    a sale from naming this program itself, and the runtime allows a program to
    call itself, so the law excludes that case and so do the executions
    considered here. *)

From S2P Require Import Prelude Runtime Shared StakingState.

Definition MAX_STABLECOINS : nat := 5.

(** The wrapped SOL mint, decoded from base 58. *)
Definition WSOL_MINT : pubkey :=
  Key 2988679396378646993494765771507681406623014513651778753134412041978399162369.

(** [declare_id!], decoded from base 58. *)
Definition PRESALE_PROGRAM_ID : pubkey :=
  Key 42475283742019898056884176071378392747050703432534449273864160837280655239427.

Module PresaleError.
Inductive ErrorCode :=
  | Unauthorized | WhitelistTooLong | HardCapNotGreaterThanSoftCap
  | InvalidContributionBounds | InvalidSaleWindow | InvalidSlippageBps | SaleNotStarted
  | SaleEnded | SaleNotActive | AssetNotWhitelisted | UseDirectUsdcPath
  | BelowMinimumContribution | AboveMaximumContribution | HardCapExceeded
  | SwapProgramMismatch | SlippageExceeded | SaleNotEnded | SaleAlreadyResolved
  | SaleNotFinalized | AlreadyClaimed | SaleNotRefundable | AlreadyRefunded | Overflow
  | WalletBanned | SoftCapNotSupported | NothingToClaim | InvalidSweepAmount | InvalidRate
  | UsdcDeliveryMismatch.
End PresaleError.
Import PresaleError.

Inductive SaleState := Active | Finalized.
#[export] Instance SaleState_eq_dec : EqDecision SaleState.
Proof. solve_decision. Defined.

Record SaleConfig := mkSale {
  sale_admin : pubkey;
  open_mint : pubkey;
  usdc_mint : pubkey;
  presale_vault : pubkey;
  usdc_vault : pubkey;
  treasury : pubkey;
  swap_program : pubkey;
  hard_cap : Z;
  soft_cap : Z;
  min_contribution : Z;
  max_contribution : Z;
  max_slippage_bps : Z;
  open_per_usdc : Z;
  open_decimals : Z;
  usdc_decimals : Z;
  start_time : Z;
  end_time : Z;
  stablecoin_whitelist : list pubkey;
  total_raised : Z;
  sale_state : SaleState;
}.
#[export] Instance SaleConfig_eta : Settable SaleConfig := fun r =>
  mkSale (sale_admin r) (open_mint r) (usdc_mint r) (presale_vault r) (usdc_vault r)
    (treasury r) (swap_program r) (hard_cap r) (soft_cap r) (min_contribution r)
    (max_contribution r) (max_slippage_bps r) (open_per_usdc r) (open_decimals r)
    (usdc_decimals r) (start_time r) (end_time r) (stablecoin_whitelist r)
    (total_raised r) (sale_state r).

Record Contribution := mkContribution {
  ct_buyer : pubkey;
  amount_usdc : Z;
  open_entitlement : Z;
  claimed_open : Z;
}.

(** A record [init_if_needed] has just created. *)
Definition empty_contribution : Contribution := mkContribution (Key 0) 0 0 0.

Definition sale_config_key (nonce : Z) : pubkey := PdaNum PRESALE SALE_CONFIG_SEED nonce.
Definition usdc_vault_key (nonce : Z) : pubkey := PdaNum PRESALE SALE_USDC_VAULT_SEED nonce.
Definition presale_vault_authority : pubkey := Pda PRESALE PRESALE_VAULT_SEED.
Definition contribution_key (sk buyer : pubkey) : pubkey :=
  PdaKeys PRESALE CONTRIBUTION_SEED sk buyer.
Definition associated_token_key (owner mint : pubkey) : pubkey :=
  PdaKeys ASSOCIATED_TOKEN NO_PREFIX owner mint.

Inductive presale_event :=
  | ContributionDelivered (recipient : pubkey) (usdc_amount open_delivered total_raised : Z)
  | ProceedsSwept (sale_config treasury : pubkey) (amount vault_remaining : Z).

(** [SaleConfig::open_entitlement_for] *)
Definition open_entitlement_for (sc : SaleConfig) (usdc_amount : Z) : result ErrorCode Z :=
  e ← sub_or_panic (open_decimals sc) (usdc_decimals sc);
  scale ← ok_or (checked u64 (10 ^ e)) (Code Overflow);
  m ← ok_or (checked_mul_u64 usdc_amount scale) (Code Overflow);
  ok_or (checked_mul_u64 m (open_per_usdc sc)) (Code Overflow).

(** [InitializeSaleParams]; [UpdateSaleParamsArgs] has neither the start nor
    the whitelist. *)
Record sale_params := mkSaleParams {
  sp_hard_cap : Z;
  sp_soft_cap : Z;
  sp_min_contribution : Z;
  sp_max_contribution : Z;
  sp_max_slippage_bps : Z;
  sp_open_per_usdc : Z;
  sp_end_time : Z;
}.

Record presale_state (L : Type) := mkPresale {
  ps_sales : gmap pubkey SaleConfig;
  ps_contribs : gmap pubkey Contribution;
  ps_ledger : L;
  ps_events : list presale_event;
}.
Arguments mkPresale {L}.
Arguments ps_sales {L}.
Arguments ps_contribs {L}.
Arguments ps_ledger {L}.
Arguments ps_events {L}.
#[export] Instance presale_state_eta L : Settable (presale_state L) := fun r =>
  mkPresale (ps_sales r) (ps_contribs r) (ps_ledger r) (ps_events r).

(** The program a sale swaps through, called with the buyer's signature, the
    accounts passed on and the instruction data.  Any program but this one has
    no signature of this program's addresses, so it can neither debit nor
    reassign this program's vaults nor create accounts at its addresses, and
    the runtime lets it neither write this program's records nor call back. *)
Class SwapProgram (L : Type) `{TokenLedger L} := {
  swap_invoke : pubkey → pubkey → list pubkey → list Z → L → option L;
  swap_respects : ∀ program signer accounts data l l',
    program ≠ PRESALE_PROGRAM_ID → derived_by PRESALE signer = false →
    swap_invoke program signer accounts data l = Some l' →
    ledger_respects PRESALE l l';
}.

Section presale.
Context {L : Type} `{SwapProgram L}.
Abbreviation state := (presale_state L).
Abbreviation pres := (result ErrorCode).
Implicit Types (s : state) (c : chain) (sc : SaleConfig) (ct : Contribution).

(** [transfer_checked] with the decimals cached in the sale. *)
Definition sale_transfer (l : L) (from mint to auth : pubkey) (n d : Z) : pres L :=
  ok_or (transfer_checked l from mint to auth n d) TokenProgram.

Definition check_bounds (p : sale_params) : pres unit :=
  _ ← require (0 < sp_min_contribution p ∧ sp_min_contribution p ≤ sp_max_contribution p)
        (Code InvalidContributionBounds);
  Ok ().

Definition check_caps (p : sale_params) : pres unit :=
  _ ← require (sp_soft_cap p < sp_hard_cap p) (Code HardCapNotGreaterThanSoftCap);
  require (sp_soft_cap p = 0) (Code SoftCapNotSupported).

Definition check_slippage (p : sale_params) : pres unit :=
  require (0 < sp_max_slippage_bps p ∧ sp_max_slippage_bps p ≤ BPS_DENOMINATOR)
    (Code InvalidSlippageBps).

Definition handle_initialize_sale (admin omint umint pvault treas swapp : pubkey) (nonce : Z)
    (p : sale_params) (start : Z) (whitelist : list pubkey) s : pres state :=
  let sk := sale_config_key nonce in
  _ ← init_account (ps_sales s) sk;
  od ← load_mint (ps_ledger s) omint;
  ud ← load_mint (ps_ledger s) umint;
  pv ← load_token (ps_ledger s) pvault;
  _ ← require (ta_mint pv = omint) (Anchor ConstraintRaw);
  _ ← require (ta_owner pv = presale_vault_authority) (Code Unauthorized);
  l ← init_token (ps_ledger s) (usdc_vault_key nonce) umint sk;
  tr ← load_token l treas;
  _ ← require (ta_mint tr = umint) (Anchor ConstraintRaw);
  _ ← require (length whitelist ≤ MAX_STABLECOINS)%nat (Code WhitelistTooLong);
  _ ← check_caps p;
  _ ← check_bounds p;
  _ ← require (start < sp_end_time p) (Code InvalidSaleWindow);
  _ ← check_slippage p;
  _ ← require (0 < sp_open_per_usdc p) (Code InvalidRate);
  _ ← require (ud ≤ od) (Code Overflow);
  let sc := mkSale admin omint umint pvault (usdc_vault_key nonce) treas swapp (sp_hard_cap p)
              (sp_soft_cap p) (sp_min_contribution p) (sp_max_contribution p)
              (sp_max_slippage_bps p) (sp_open_per_usdc p) od ud start (sp_end_time p)
              whitelist 0 Active in
  Ok (s <| ps_ledger := l |> <| ps_sales := <[sk := sc]> (ps_sales s) |>).

(** The sale is open. *)
Definition require_open c sc : pres unit :=
  _ ← require (sale_state sc = Active) (Code SaleNotActive);
  _ ← require (start_time sc ≤ now c) (Code SaleNotStarted);
  require (now c ≤ end_time sc) (Code SaleEnded).

(** The bounds every contribution is held to; the new totals of the wallet and
    of the sale. *)
Definition new_totals sc ct (amount : Z) : pres (Z * Z) :=
  _ ← (if decide (amount_usdc ct = 0)
       then require (min_contribution sc ≤ amount) (Code BelowMinimumContribution) else Ok ());
  w ← ok_or (checked_add_u64 (amount_usdc ct) amount) (Code Overflow);
  _ ← require (w ≤ max_contribution sc) (Code AboveMaximumContribution);
  t ← ok_or (checked_add_u64 (total_raised sc) amount) (Code Overflow);
  _ ← require (t ≤ hard_cap sc) (Code HardCapExceeded);
  Ok (w, t).

Definition put_sale s (sk : pubkey) sc : state := s <| ps_sales := <[sk := sc]> (ps_sales s) |>.

Definition put_contribution s (k : pubkey) ct : state :=
  s <| ps_contribs := <[k := ct]> (ps_contribs s) |>.

(** [init_if_needed] on a contribution record. *)
Definition contribution_at s (k : pubkey) : Contribution :=
  default empty_contribution (ps_contribs s !! k).

Definition handle_contribute_usdc c (buyer from : pubkey) (nonce amount : Z) s : pres state :=
  let sk := sale_config_key nonce in
  sc ← load (ps_sales s) sk;
  fa ← load_token (ps_ledger s) from;
  _ ← require (ta_owner fa = buyer) (Anchor ConstraintRaw);
  _ ← require (ta_mint fa = usdc_mint sc) (Anchor ConstraintRaw);
  _ ← load_token (ps_ledger s) (usdc_vault sc);
  _ ← load_mint (ps_ledger s) (usdc_mint sc);
  let ck := contribution_key sk buyer in
  let ct := contribution_at s ck in
  _ ← require (¬ wallet_is_banned (info_at c (ban_record_key buyer))) (Code WalletBanned);
  _ ← require_open c sc;
  '(w, t) ← new_totals sc ct amount;
  l ← sale_transfer (ps_ledger s) from (usdc_mint sc) (usdc_vault sc) buyer amount (usdc_decimals sc);
  open_delta ← open_entitlement_for sc amount;
  e ← ok_or (checked_add_u64 (open_entitlement ct) open_delta) (Code Overflow);
  Ok (put_sale (put_contribution (s <| ps_ledger := l |>) ck
                  (mkContribution buyer w e (claimed_open ct)))
        sk (sc <| total_raised := t |>)).

(** The least a swap may bring in. *)
Definition min_usdc_out sc (expected : Z) : pres Z :=
  d ← sub_or_panic BPS_DENOMINATOR (max_slippage_bps sc);
  m ← ok_or (checked_mul_u128 expected d) (Code Overflow);
  q ← ok_or (checked_div_u128 m BPS_DENOMINATOR) (Code Overflow);
  Ok (as_u64 q).

Definition handle_contribute_with_swap c (buyer smint swapp : pubkey) (accounts : list pubkey)
    (nonce expected : Z) (data : list Z) s : pres state :=
  let sk := sale_config_key nonce in
  sc ← load (ps_sales s) sk;
  _ ← load_mint (ps_ledger s) smint;
  uv ← load_token (ps_ledger s) (usdc_vault sc);
  let ck := contribution_key sk buyer in
  let ct := contribution_at s ck in
  _ ← require (¬ wallet_is_banned (info_at c (ban_record_key buyer))) (Code WalletBanned);
  _ ← require_open c sc;
  _ ← require (smint ≠ usdc_mint sc) (Code UseDirectUsdcPath);
  _ ← require (smint = WSOL_MINT ∨ smint ∈ stablecoin_whitelist sc) (Code AssetNotWhitelisted);
  _ ← require (swapp = swap_program sc) (Code SwapProgramMismatch);
  least ← min_usdc_out sc expected;
  l ← ok_or (swap_invoke swapp buyer accounts data (ps_ledger s)) TokenProgram;
  uv' ← load_token l (usdc_vault sc);
  delta ← ok_or (checked_sub_u64 (ta_amount uv') (ta_amount uv)) (Code Overflow);
  _ ← require (least ≤ delta) (Code SlippageExceeded);
  '(w, t) ← new_totals sc ct delta;
  open_delta ← open_entitlement_for sc delta;
  e ← ok_or (checked_add_u64 (open_entitlement ct) open_delta) (Code Overflow);
  Ok (put_sale (put_contribution (s <| ps_ledger := l |>) ck
                  (mkContribution buyer w e (claimed_open ct)))
        sk (sc <| total_raised := t |>)).

(** [init_if_needed] on the recipient's associated token account. *)
Definition init_associated (l : L) (owner mint : pubkey) : pres L :=
  let k := associated_token_key owner mint in
  match account_of l k with
  | None => ok_or (create_token_account l k mint owner) (Anchor AccountAlreadyInUse)
  | Some a =>
      _ ← require (ta_mint a = mint) (Anchor ConstraintTokenMint);
      _ ← require (ta_owner a = owner) (Anchor ConstraintTokenOwner);
      Ok l
  end.

Definition handle_deliver_contribution c (payer source recipient : pubkey) (nonce amount : Z) s
    : pres state :=
  let sk := sale_config_key nonce in
  sc ← load (ps_sales s) sk;
  _ ← load_mint (ps_ledger s) (usdc_mint sc);
  _ ← load_token (ps_ledger s) source;
  uv ← load_token (ps_ledger s) (usdc_vault sc);
  _ ← load_mint (ps_ledger s) (open_mint sc);
  _ ← load_token (ps_ledger s) (presale_vault sc);
  l ← init_associated (ps_ledger s) recipient (open_mint sc);
  let ck := contribution_key sk recipient in
  let ct := contribution_at s ck in
  _ ← require (¬ wallet_is_banned (info_at c (ban_record_key recipient))) (Code WalletBanned);
  _ ← require_open c sc;
  l ← sale_transfer l source (usdc_mint sc) (usdc_vault sc) payer amount (usdc_decimals sc);
  uv' ← load_token l (usdc_vault sc);
  delta ← ok_or (checked_sub_u64 (ta_amount uv') (ta_amount uv)) (Code Overflow);
  _ ← require (delta = amount) (Code UsdcDeliveryMismatch);
  '(w, t) ← new_totals sc ct delta;
  open_out ← open_entitlement_for sc delta;
  l ← sale_transfer l (presale_vault sc) (open_mint sc)
        (associated_token_key recipient (open_mint sc)) presale_vault_authority open_out
        (open_decimals sc);
  e ← ok_or (checked_add_u64 (open_entitlement ct) open_out) (Code Overflow);
  cl ← ok_or (checked_add_u64 (claimed_open ct) open_out) (Code Overflow);
  Ok (put_sale (put_contribution (s <| ps_ledger := l |>) ck (mkContribution recipient w e cl))
        sk (sc <| total_raised := t |>)
      <| ps_events := ps_events s ++ [ContributionDelivered recipient delta open_out t] |>).

Definition handle_claim (buyer to : pubkey) (nonce : Z) s : pres state :=
  let sk := sale_config_key nonce in
  sc ← load (ps_sales s) sk;
  _ ← load_mint (ps_ledger s) (open_mint sc);
  _ ← load_token (ps_ledger s) (presale_vault sc);
  let ck := contribution_key sk buyer in
  ct ← load (ps_contribs s) ck;
  _ ← require (ct_buyer ct = buyer) (Code Unauthorized);
  ta ← load_token (ps_ledger s) to;
  _ ← require (ta_owner ta = buyer) (Anchor ConstraintRaw);
  _ ← require (ta_mint ta = open_mint sc) (Anchor ConstraintRaw);
  unclaimed ← ok_or (checked_sub_u64 (open_entitlement ct) (claimed_open ct)) (Code Overflow);
  _ ← require (0 < unclaimed) (Code NothingToClaim);
  l ← sale_transfer (ps_ledger s) (presale_vault sc) (open_mint sc) to presale_vault_authority
        unclaimed (open_decimals sc);
  Ok (put_contribution (s <| ps_ledger := l |>) ck
        (mkContribution (ct_buyer ct) (amount_usdc ct) (open_entitlement ct) (open_entitlement ct))).

(** The constraints of the two instructions that move USDC to the treasury. *)
Definition load_proceeds (admin : pubkey) (nonce : Z) s : pres (SaleConfig * token_account) :=
  sc ← load (ps_sales s) (sale_config_key nonce);
  _ ← require (sale_admin sc = admin) (Code Unauthorized);
  uv ← load_token (ps_ledger s) (usdc_vault sc);
  _ ← load_token (ps_ledger s) (treasury sc);
  _ ← load_mint (ps_ledger s) (usdc_mint sc);
  Ok (sc, uv).

Definition handle_finalize_sale c (admin : pubkey) (nonce : Z) s : pres state :=
  let sk := sale_config_key nonce in
  '(sc, uv) ← load_proceeds admin nonce s;
  _ ← require (sale_state sc = Active) (Code SaleAlreadyResolved);
  _ ← require (end_time sc < now c ∨ hard_cap sc ≤ total_raised sc) (Code SaleNotEnded);
  let amount := ta_amount uv in
  l ← (if decide (0 < amount)
       then sale_transfer (ps_ledger s) (usdc_vault sc) (usdc_mint sc) (treasury sc) sk amount
              (usdc_decimals sc)
       else Ok (ps_ledger s));
  Ok (put_sale (s <| ps_ledger := l |>) sk (sc <| sale_state := Finalized |>)).

Definition handle_sweep_proceeds (admin : pubkey) (nonce amount : Z) s : pres state :=
  let sk := sale_config_key nonce in
  '(sc, uv) ← load_proceeds admin nonce s;
  _ ← require (sale_state sc = Active) (Code SaleAlreadyResolved);
  _ ← require (0 < amount ∧ amount ≤ ta_amount uv) (Code InvalidSweepAmount);
  l ← sale_transfer (ps_ledger s) (usdc_vault sc) (usdc_mint sc) (treasury sc) sk amount
        (usdc_decimals sc);
  rest ← sub_or_panic (ta_amount uv) amount;
  Ok (s <| ps_ledger := l |>
        <| ps_events := ps_events s ++ [ProceedsSwept sk (treasury sc) amount rest] |>).

Definition handle_update_sale_params (admin : pubkey) (nonce : Z) (p : sale_params) s : pres state :=
  let sk := sale_config_key nonce in
  sc ← load (ps_sales s) sk;
  _ ← require (sale_admin sc = admin) (Code Unauthorized);
  _ ← require (sale_state sc = Active) (Code SaleAlreadyResolved);
  _ ← check_caps p;
  _ ← check_bounds p;
  _ ← check_slippage p;
  _ ← require (0 < sp_open_per_usdc p) (Code InvalidRate);
  _ ← require (start_time sc < sp_end_time p) (Code InvalidSaleWindow);
  _ ← require (total_raised sc ≤ sp_hard_cap p) (Code HardCapExceeded);
  Ok (put_sale s sk
        (sc <| hard_cap := sp_hard_cap p |> <| soft_cap := sp_soft_cap p |>
            <| min_contribution := sp_min_contribution p |>
            <| max_contribution := sp_max_contribution p |>
            <| max_slippage_bps := sp_max_slippage_bps p |>
            <| open_per_usdc := sp_open_per_usdc p |> <| end_time := sp_end_time p |>)).

(** ** Dispatch *)

Inductive presale_ix :=
  | InitializeSale (admin omint umint pvault treas swapp : pubkey) (nonce : Z) (p : sale_params)
      (start : Z) (whitelist : list pubkey)
  | ContributeUsdc (buyer from : pubkey) (nonce amount : Z)
  | ContributeWithSwap (buyer smint swapp : pubkey) (accounts : list pubkey) (nonce expected : Z)
      (data : list Z)
  | DeliverContribution (payer source recipient : pubkey) (nonce amount : Z)
  | FinalizeSale (admin : pubkey) (nonce : Z)
  | Claim (buyer to : pubkey) (nonce : Z)
  | SweepProceeds (admin : pubkey) (nonce amount : Z)
  | UpdateSaleParams (admin : pubkey) (nonce : Z) (p : sale_params).

Definition process c (i : presale_ix) s : pres state :=
  match i with
  | InitializeSale a om um pv tr sw nonce p start wl =>
      handle_initialize_sale a om um pv tr sw nonce p start wl s
  | ContributeUsdc b from nonce n => handle_contribute_usdc c b from nonce n s
  | ContributeWithSwap b sm sw accs nonce expected data =>
      handle_contribute_with_swap c b sm sw accs nonce expected data s
  | DeliverContribution payer source r nonce n =>
      handle_deliver_contribution c payer source r nonce n s
  | FinalizeSale a nonce => handle_finalize_sale c a nonce s
  | Claim b to nonce => handle_claim b to nonce s
  | SweepProceeds a nonce n => handle_sweep_proceeds a nonce n s
  | UpdateSaleParams a nonce p => handle_update_sale_params a nonce p s
  end.

Definition sale_params_typed (p : sale_params) : Prop :=
  u64 (sp_hard_cap p) ∧ u64 (sp_soft_cap p) ∧ u64 (sp_min_contribution p) ∧
  u64 (sp_max_contribution p) ∧ u16 (sp_max_slippage_bps p) ∧ u64 (sp_open_per_usdc p) ∧
  i64 (sp_end_time p).

(** What decoding guarantees, that a signer is not an address this program
    derives, and that a swap goes through another program. *)
Definition ix_typed (i : presale_ix) : Prop :=
  match i with
  | InitializeSale a _ _ _ _ _ nonce p start _ =>
      derived_by PRESALE a = false ∧ u64 nonce ∧ sale_params_typed p ∧ i64 start
  | ContributeUsdc b _ nonce n => derived_by PRESALE b = false ∧ u64 nonce ∧ u64 n
  | ContributeWithSwap b _ sw _ nonce n _ =>
      derived_by PRESALE b = false ∧ sw ≠ PRESALE_PROGRAM_ID ∧ u64 nonce ∧ u64 n
  | DeliverContribution payer _ _ nonce n => derived_by PRESALE payer = false ∧ u64 nonce ∧ u64 n
  | FinalizeSale a nonce => derived_by PRESALE a = false ∧ u64 nonce
  | Claim b _ nonce => derived_by PRESALE b = false ∧ u64 nonce
  | SweepProceeds a nonce n => derived_by PRESALE a = false ∧ u64 nonce ∧ u64 n
  | UpdateSaleParams a nonce p => derived_by PRESALE a = false ∧ u64 nonce ∧ sale_params_typed p
  end.

Inductive presale_step : state → state → Prop :=
  | step_ix c i s s' : i64 (now c) → ix_typed i → process c i s = Ok s' → presale_step s s'
  | step_ledger s l' :
      ledger_respects PRESALE (ps_ledger s) l' → presale_step s (s <| ps_ledger := l' |>).

(** The state before the first instruction. *)
Definition presale_init (l : L) : state := mkPresale ∅ ∅ l [].

Definition presale_reachable s : Prop := ∃ l, steps presale_step (presale_init l) s.
End presale.
