(* ===== verification/PresaleInv.v ===== *)
(** * PresaleInv: the books of a sale

    The invariant of the presale program, and the exact effect of each of its
    instructions. *)

From S2P Require Import Prelude Runtime Shared StakingState Presale.
Import PresaleError.

Definition sale_wf (sc : SaleConfig) : Prop :=
  0 ≤ total_raised sc ≤ hard_cap sc ∧ hard_cap sc ≤ U64_MAX ∧ soft_cap sc = 0 ∧
  0 < min_contribution sc ≤ max_contribution sc ∧ 0 < max_slippage_bps sc ≤ 10000 ∧
  0 < open_per_usdc sc ∧ usdc_decimals sc ≤ open_decimals sc ∧ start_time sc < end_time sc.

Definition contribution_wf (ct : Contribution) : Prop :=
  0 ≤ amount_usdc ct ∧ 0 ≤ claimed_open ct ≤ open_entitlement ct ∧
  open_entitlement ct ≤ U64_MAX.

(** The sale a contribution's address belongs to. *)
Definition sale_of (k : pubkey) : option pubkey :=
  match k with PdaKeys _ _ sk _ => Some sk | _ => None end.

(** What the records of a sale add up to. *)
Definition contributed (sk : pubkey) (m : gmap pubkey Contribution) : Z :=
  map_sum (λ k ct, if decide (sale_of k = Some sk) then amount_usdc ct else 0) m.

(** OPEN the program has credited and not yet paid out. *)
Definition unclaimed (ct : Contribution) : Z := open_entitlement ct - claimed_open ct.

Lemma empty_contribution_wf : contribution_wf empty_contribution.
Proof. unfold contribution_wf; simpl. ilia. Qed.

Section inv.
Context {L : Type} `{SwapProgram L}.
Abbreviation state := (presale_state L).
Implicit Types (s : state) (l : L) (c : chain) (sc : SaleConfig) (ct : Contribution).

(** No vault of the program changes hands. *)
Definition ledger_keeps l l' : Prop :=
  ∀ k m o, derived_by PRESALE o = true → vault_account l k m o → vault_account l' k m o.

Lemma ledger_keeps_transfer l l' from m to auth n d :
  transfer_checked l from m to auth n d = Some l' → ledger_keeps l l'.
Proof. intros Ht k m' o _. by eapply transfer_vault_account. Qed.

Lemma ledger_keeps_create l l' k m o : create_token_account l k m o = Some l' → ledger_keeps l l'.
Proof. intros Hc j m' o' _. by eapply create_vault_account. Qed.

Lemma ledger_keeps_respects l l' : ledger_respects PRESALE l l' → ledger_keeps l l'.
Proof. intros Hr k m o Ho Hv. by apply (respects_vault _ _ _ Hr) in Hv as [? _]. Qed.

Lemma ledger_keeps_trans l1 l2 l3 : ledger_keeps l1 l2 → ledger_keeps l2 l3 → ledger_keeps l1 l3.
Proof. intros H12 H23 k m o Ho Hv. auto. Qed.

Lemma ledger_keeps_refl l : ledger_keeps l l.
Proof. by intros k m o. Qed.

Record presale_inv s : Prop := {
  pi_sales : ∀ k sc, ps_sales s !! k = Some sc → sale_wf sc ∧ ∃ nonce,
    k = sale_config_key nonce ∧ usdc_vault sc = usdc_vault_key nonce ∧
    vault_account (ps_ledger s) (usdc_vault sc) (usdc_mint sc) k;
  pi_contribs : ∀ k ct, ps_contribs s !! k = Some ct → contribution_wf ct ∧
    ∃ sk, k = contribution_key sk (ct_buyer ct) ∧ is_Some (ps_sales s !! sk);
  pi_raised : ∀ k sc, ps_sales s !! k = Some sc → total_raised sc = contributed k (ps_contribs s);
}.

Lemma contribution_at_wf s k : presale_inv s → contribution_wf (contribution_at s k).
Proof.
  intros Hinv. unfold contribution_at. destruct (ps_contribs s !! k) as [ct|] eqn:Hk; simpl.
  - by eapply pi_contribs.
  - apply empty_contribution_wf.
Qed.

Lemma contributed_insert s sk k ct :
  presale_inv s →
  contributed sk (<[k:=ct]> (ps_contribs s)) = contributed sk (ps_contribs s)
    + if decide (sale_of k = Some sk)
      then amount_usdc ct - amount_usdc (contribution_at s k) else 0.
Proof.
  intros Hinv. unfold contributed, contribution_at.
  destruct (ps_contribs s !! k) as [ct0|] eqn:Hk; simpl.
  - rewrite (map_sum_insert _ _ _ ct0) by done. case_decide; lia.
  - rewrite map_sum_insert_None by done. case_decide; lia.
Qed.

Lemma keeps_sales s l :
  presale_inv s → ledger_keeps (ps_ledger s) l →
  ∀ k sc, ps_sales s !! k = Some sc → sale_wf sc ∧ ∃ nonce,
    k = sale_config_key nonce ∧ usdc_vault sc = usdc_vault_key nonce ∧
    vault_account l (usdc_vault sc) (usdc_mint sc) k.
Proof.
  intros Hinv Hk k sc Hsc. destruct (pi_sales _ Hinv _ _ Hsc) as (Hwf & nonce & -> & Hv & Ha).
  split; [done|]. exists nonce. split_and!; try done. by apply Hk.
Qed.

(** The three ways of contributing end in the same update. *)
Lemma inv_credit s l sk sc buyer n e cl evs :
  presale_inv s → ps_sales s !! sk = Some sc → ledger_keeps (ps_ledger s) l → 0 ≤ n →
  total_raised sc + n ≤ hard_cap sc → 0 ≤ cl ≤ e → e ≤ U64_MAX →
  presale_inv (mkPresale (<[sk:=sc <| total_raised := total_raised sc + n |>]> (ps_sales s))
    (<[contribution_key sk buyer :=
        mkContribution buyer (amount_usdc (contribution_at s (contribution_key sk buyer)) + n) e cl]>
      (ps_contribs s)) l evs).
Proof.
  intros Hinv Hsc Hl Hn Hcap Hcl He. split; simpl.
  - intros k sc'. rewrite lookup_insert. case_decide; [|by apply keeps_sales].
    intros [= <-]. subst k. destruct (keeps_sales _ _ Hinv Hl _ _ Hsc) as [Hwf Hrest].
    split; [|done]. unfold sale_wf in *; simpl. destruct_and!. split_and!; done || lia.
  - intros k ct. rewrite lookup_insert. case_decide as Hk.
    + intros [= <-]. subst k. split.
      * pose proof (contribution_at_wf s (contribution_key sk buyer) Hinv) as (?&?&?).
        unfold contribution_wf; simpl. lia.
      * exists sk. simpl. rewrite lookup_insert_eq. done.
    + intros Hct. destruct (pi_contribs _ Hinv _ _ Hct) as [Hwf (sk' & ? & ?)].
      split; [done|]. exists sk'. split; [done|]. rewrite lookup_insert. by case_decide.
  - intros k sc'. rewrite contributed_insert by done. simpl. rewrite lookup_insert.
    case_decide as Hk; intros Hsc'.
    + injection Hsc' as <-. subst k. rewrite decide_True by done. simpl.
      rewrite (pi_raised _ Hinv _ _ Hsc). lia.
    + rewrite decide_False by congruence. rewrite (pi_raised _ Hinv _ _ Hsc'). lia.
Qed.

Lemma require_open_Ok c sc u :
  require_open c sc = Ok u → sale_state sc = Active ∧ start_time sc ≤ now c ≤ end_time sc.
Proof. unfold require_open. intros. inv_run. done. Qed.

Lemma new_totals_Ok sc ct n w t :
  new_totals sc ct n = Ok (w, t) →
  w = amount_usdc ct + n ∧ t = total_raised sc + n ∧ w ≤ max_contribution sc ∧
  t ≤ hard_cap sc ∧ (amount_usdc ct = 0 → min_contribution sc ≤ n).
Proof.
  unfold new_totals. intros Hrun. apply bind_Ok in Hrun as ([] & Hmin & Hrun). inv_run.
  split_and!; try done. intros Hz. rewrite decide_True in Hmin by done. by apply require_Ok in Hmin.
Qed.

(** The entitlement a contribution earns. *)
Definition entitlement sc (n : Z) : Z :=
  n * 10 ^ (open_decimals sc - usdc_decimals sc) * open_per_usdc sc.

Lemma open_entitlement_for_Ok sc n e :
  open_entitlement_for sc n = Ok e →
  e = entitlement sc n ∧ u64 e ∧ usdc_decimals sc ≤ open_decimals sc.
Proof.
  unfold open_entitlement_for, entitlement. intros. inv_run.
  match goal with H : checked u64 _ = Some _ |- _ => apply checked_Some in H as [-> ?] end. done.
Qed.

Lemma require_open_intro c sc :
  sale_state sc = Active → start_time sc ≤ now c ≤ end_time sc → require_open c sc = Ok ().
Proof.
  intros Ha Hw. unfold require_open. rewrite !require_true by (done || lia).
  unfold require. by rewrite decide_True by lia.
Qed.

Lemma new_totals_intro sc ct n :
  0 ≤ amount_usdc ct → 0 ≤ total_raised sc → 0 ≤ n → amount_usdc ct + n ≤ max_contribution sc →
  total_raised sc + n ≤ hard_cap sc → max_contribution sc ≤ U64_MAX → hard_cap sc ≤ U64_MAX →
  (amount_usdc ct = 0 → min_contribution sc ≤ n) →
  new_totals sc ct n = Ok (amount_usdc ct + n, total_raised sc + n).
Proof.
  intros. unfold new_totals. eapply (bind_Ok_intro _ _ ()).
  { case_decide; [|done]. apply require_Ok. auto. }
  unfold checked_add_u64, checked. rewrite !decide_True by ilia. cbn.
  rewrite !require_true by done. done.
Qed.

(** The conversion is exact whenever it fits, and fails otherwise. *)
Lemma open_entitlement_for_intro sc n :
  0 < n → 0 < open_per_usdc sc → usdc_decimals sc ≤ open_decimals sc →
  open_entitlement_for sc n =
    if decide (u64 (entitlement sc n)) then Ok (entitlement sc n) else Err (Code Overflow).
Proof.
  intros Hn Hr Hd. unfold open_entitlement_for, entitlement.
  pose proof (Z.pow_pos_nonneg 10 (open_decimals sc - usdc_decimals sc)) as Hp.
  rewrite sub_or_panic_le by done. cbn. unfold checked_mul_u64, checked.
  set (k := 10 ^ _) in *. specialize (Hp ltac:(lia) ltac:(lia)).
  destruct (decide (u64 (n * k * open_per_usdc sc))) as [Hu|Hu].
  - rewrite (decide_True (P := u64 k)) by (unfold_ints; nia). cbn.
    rewrite (decide_True (P := u64 (n * k))) by (unfold_ints; nia). cbn.
    by rewrite decide_True.
  - destruct (decide (u64 k)); [cbn|done]. destruct (decide (u64 (n * k))); [cbn|done].
    by rewrite decide_False.
Qed.

Lemma load_proceeds_Ok admin nonce s sc uv :
  load_proceeds admin nonce s = Ok (sc, uv) →
  ps_sales s !! sale_config_key nonce = Some sc ∧ sale_admin sc = admin ∧
  account_of (ps_ledger s) (usdc_vault sc) = Some uv.
Proof. unfold load_proceeds. intros. inv_run. by simplify_eq. Qed.
End inv.

Ltac inv_presale :=
  repeat (inv_run_step || match goal with
    | H : sale_transfer _ _ _ _ _ _ _ = Ok _ |- _ => apply ok_or_Ok in H
    | H : require_open _ _ = Ok _ |- _ => apply require_open_Ok in H as [? ?]
    | H : new_totals _ _ _ = Ok (_, _) |- _ => apply new_totals_Ok in H as (-> & -> & ? & ? & ?)
    | H : new_totals _ _ _ = Ok ?x |- _ => destruct x as [? ?]
    | H : open_entitlement_for _ _ = Ok _ |- _ => apply open_entitlement_for_Ok in H as (-> & ? & ?)
    | H : load_proceeds _ _ _ = Ok (_, _) |- _ => apply load_proceeds_Ok in H as (? & ? & ?)
    | H : load_proceeds _ _ _ = Ok ?x |- _ => destruct x as [? ?]
    end; cbn beta iota in * ).

Section effects.
Context {L : Type} `{SwapProgram L}.
Abbreviation state := (presale_state L).
Implicit Types (s : state) (l : L) (c : chain) (sc : SaleConfig) (ct : Contribution).

(** The terms a contribution of [n] by a wallet with record [ct] is held to. *)
Record within_terms c sc ct (n : Z) : Prop := {
  wt_active : sale_state sc = Active;
  wt_window : start_time sc ≤ now c ≤ end_time sc;
  wt_wallet : amount_usdc ct + n ≤ max_contribution sc;
  wt_cap : total_raised sc + n ≤ hard_cap sc;
  wt_min : amount_usdc ct = 0 → min_contribution sc ≤ n;
}.

(** The state after [n] USDC were credited to [buyer], [paid] OPEN of the
    entitlement being paid out at once. *)
Definition credited s l (sk : pubkey) sc (buyer : pubkey) (n paid : Z) evs : state :=
  let ck := contribution_key sk buyer in
  let ct := contribution_at s ck in
  mkPresale (<[sk:=sc <| total_raised := total_raised sc + n |>]> (ps_sales s))
    (<[ck := mkContribution buyer (amount_usdc ct + n) (open_entitlement ct + entitlement sc n)
              (claimed_open ct + paid)]> (ps_contribs s)) l evs.

(** A transfer into the sale's vault by someone who is not the program. *)
Lemma vault_credit l l' from mint sk vault who n d m :
  transfer_checked l from mint vault who n d = Some l' →
  vault_account l vault m sk → derived_by PRESALE sk = true → derived_by PRESALE who = false →
  balance l' vault = balance l vault + n.
Proof.
  intros Ht Hv Hsk Hwho. rewrite (transfer_balance _ _ _ _ _ _ _ _ Ht).
  assert (from ≠ vault).
  { intros ->. eapply transfer_from_vault in Hv; [|done]. congruence. }
  repeat case_decide; congruence || lia.
Qed.

Lemma contribute_usdc_Ok c buyer from nonce n s s' :
  presale_inv s → derived_by PRESALE buyer = false →
  handle_contribute_usdc c buyer from nonce n s = Ok s' →
  ∃ sc l, ps_sales s !! sale_config_key nonce = Some sc ∧
    within_terms c sc (contribution_at s (contribution_key (sale_config_key nonce) buyer)) n ∧
    ¬ wallet_is_banned (info_at c (ban_record_key buyer)) ∧ 0 ≤ n ∧
    transfer_checked (ps_ledger s) from (usdc_mint sc) (usdc_vault sc) buyer n (usdc_decimals sc) = Some l ∧
    u64 (open_entitlement (contribution_at s (contribution_key (sale_config_key nonce) buyer))
         + entitlement sc n) ∧
    s' = credited s l (sale_config_key nonce) sc buyer n 0 (ps_events s).
Proof.
  intros Hinv Hb Hrun. unfold handle_contribute_usdc in Hrun. inv_presale.
  do 2 eexists. split; [done|]. split; [by split|]. split; [done|].
  split; [by eapply transfer_nonneg|]. split; [done|]. split; [done|].
  unfold credited. by rewrite Z.add_0_r.
Qed.

Lemma contribute_with_swap_Ok c buyer smint swapp accs nonce expected data s s' :
  presale_inv s → derived_by PRESALE buyer = false →
  handle_contribute_with_swap c buyer smint swapp accs nonce expected data s = Ok s' →
  ∃ sc l n least, ps_sales s !! sale_config_key nonce = Some sc ∧
    within_terms c sc (contribution_at s (contribution_key (sale_config_key nonce) buyer)) n ∧
    ¬ wallet_is_banned (info_at c (ban_record_key buyer)) ∧ 0 ≤ n ∧
    min_usdc_out sc expected = Ok least ∧ least ≤ n ∧ swapp = swap_program sc ∧
    swap_invoke swapp buyer accs data (ps_ledger s) = Some l ∧
    n = balance l (usdc_vault sc) - balance (ps_ledger s) (usdc_vault sc) ∧
    u64 (open_entitlement (contribution_at s (contribution_key (sale_config_key nonce) buyer))
         + entitlement sc n) ∧
    s' = credited s l (sale_config_key nonce) sc buyer n 0 (ps_events s).
Proof.
  intros Hinv Hb Hrun. unfold handle_contribute_with_swap in Hrun. inv_presale.
  do 4 eexists. split; [done|]. split; [by split|]. split; [done|].
  match goal with H : u64 (ta_amount ?a - ta_amount ?b),
    Ha : account_of _ _ = Some ?a, Hb' : account_of _ _ = Some ?b |- _ =>
    rewrite (balance_account _ _ _ Ha), (balance_account _ _ _ Hb') end.
  split; [ilia|]. split; [done|]. split; [done|]. split; [done|]. split; [done|].
  split; [done|]. split; [done|]. unfold credited. by rewrite Z.add_0_r.
Qed.

Lemma init_associated_Ok l l' owner mint :
  init_associated l owner mint = Ok l' →
  ledger_keeps l l' ∧ (∀ k, balance l' k = balance l k) ∧
  ∃ a, account_of l' (associated_token_key owner mint) = Some a ∧ ta_mint a = mint ∧ ta_owner a = owner.
Proof.
  unfold init_associated. destruct (account_of _ _) as [a|] eqn:Ha; intros Hrun; inv_run.
  - split; [apply ledger_keeps_refl|]. split; [done|]. by exists a.
  - split; [by eapply ledger_keeps_create|].
    split; [intros k; by eapply create_balance|].
    match goal with H : create_token_account _ _ _ _ = Some _ |- _ =>
      apply create_vault_account_new in H as (a & ? & ? & ? & _) end. by exists a.
Qed.

Lemma deliver_contribution_Ok c payer source w nonce n s s' :
  presale_inv s → derived_by PRESALE payer = false →
  handle_deliver_contribution c payer source w nonce n s = Ok s' →
  ∃ sc l0 l1 l2, ps_sales s !! sale_config_key nonce = Some sc ∧
    within_terms c sc (contribution_at s (contribution_key (sale_config_key nonce) w)) n ∧
    ¬ wallet_is_banned (info_at c (ban_record_key w)) ∧ 0 ≤ n ∧
    init_associated (ps_ledger s) w (open_mint sc) = Ok l0 ∧
    transfer_checked l0 source (usdc_mint sc) (usdc_vault sc) payer n (usdc_decimals sc) = Some l1 ∧
    transfer_checked l1 (presale_vault sc) (open_mint sc) (associated_token_key w (open_mint sc))
      presale_vault_authority (entitlement sc n) (open_decimals sc) = Some l2 ∧
    u64 (open_entitlement (contribution_at s (contribution_key (sale_config_key nonce) w))
         + entitlement sc n) ∧
    s' = credited s l2 (sale_config_key nonce) sc w n (entitlement sc n)
           (ps_events s ++ [ContributionDelivered w n (entitlement sc n) (total_raised sc + n)]).
Proof.
  intros Hinv Hb Hrun. unfold handle_deliver_contribution in Hrun. inv_presale.
  do 4 eexists. split; [done|]. split; [by split|]. split; [done|].
  split; [by eapply transfer_nonneg|]. do 4 (split; [done|]). done.
Qed.

(** Paying OPEN out leaves the sale's USDC alone. *)
Lemma open_leaves_usdc l l' from mint w m nonce n d um :
  transfer_checked l from mint (associated_token_key w m) presale_vault_authority n d = Some l' →
  vault_account l (usdc_vault_key nonce) um (sale_config_key nonce) →
  balance l' (usdc_vault_key nonce) = balance l (usdc_vault_key nonce).
Proof.
  intros Ht Hv. rewrite (transfer_balance _ _ _ _ _ _ _ _ Ht).
  assert (from ≠ usdc_vault_key nonce).
  { intros ->. eapply transfer_from_vault in Hv; [|exact Ht]. discriminate Hv. }
  assert (usdc_vault_key nonce ≠ associated_token_key w m) by done.
  repeat case_decide; congruence || lia.
Qed.

(** Whose record an instruction adds to, and in which sale. *)
Definition contributor (i : presale_ix) : option (pubkey * Z) :=
  match i with
  | ContributeUsdc b _ nonce _ | ContributeWithSwap b _ _ _ nonce _ _ => Some (b, nonce)
  | DeliverContribution _ _ r nonce _ => Some (r, nonce)
  | _ => None
  end.

(** What every accepted contribution does: the sale's vault gains exactly what
    is credited. *)
Lemma contribution_effect c i s s' w nonce :
  presale_inv s → ix_typed i → contributor i = Some (w, nonce) → process c i s = Ok s' →
  let sk := sale_config_key nonce in
  let ct := contribution_at s (contribution_key sk w) in
  ∃ sc n l paid evs, ps_sales s !! sk = Some sc ∧ within_terms c sc ct n ∧
    ¬ wallet_is_banned (info_at c (ban_record_key w)) ∧ 0 ≤ n ∧
    balance l (usdc_vault sc) = balance (ps_ledger s) (usdc_vault sc) + n ∧
    ledger_keeps (ps_ledger s) l ∧ u64 (open_entitlement ct + entitlement sc n) ∧
    (paid = 0 ∨ paid = entitlement sc n) ∧ s' = credited s l sk sc w n paid evs.
Proof.
  intros Hinv Hty Hi Hrun sk ct. destruct i; simplify_eq/=.
  - destruct Hty as (Hb & _). apply contribute_usdc_Ok in Hrun
      as (sc & l & Hsc & Ht & Hban & Hn & Htr & Hu & ->); [|done|done].
    destruct (pi_sales _ Hinv _ _ Hsc) as (_ & _ & _ & _ & Hv).
    exists sc, amount, l, 0, (ps_events s). do 4 (split; [done|]).
    split; [by eapply vault_credit|]. split; [by eapply ledger_keeps_transfer|].
    split; [done|]. split; [by left|done].
  - destruct Hty as (Hb & Hsp & _). apply contribute_with_swap_Ok in Hrun
      as (sc & l & n & least & Hsc & Ht & Hban & Hn & _ & _ & _ & Hsw & Hbal & Hu & ->); [|done|done].
    exists sc, n, l, 0, (ps_events s). do 4 (split; [done|]). split; [lia|].
    split; [by eapply ledger_keeps_respects, swap_respects|]. split; [done|]. split; [by left|done].
  - destruct Hty as (Hb & _). apply deliver_contribution_Ok in Hrun
      as (sc & l0 & l1 & l2 & Hsc & Ht & Hban & Hn & Hi & Ht1 & Ht2 & Hu & ->); [|done|done].
    destruct (pi_sales _ Hinv _ _ Hsc) as (_ & nonce' & Hk & Hvk & Hv).
    destruct (init_associated_Ok _ _ _ _ Hi) as (Hk0 & Hb0 & _).
    exists sc, amount, l2, (entitlement sc amount). eexists. do 4 (split; [done|]).
    split; [|split; [|split; [done|split; [by right|done]]]].
    + apply Hk0 in Hv; [|done].
      rewrite <-Hb0, <-(vault_credit _ _ _ _ _ _ _ _ _ _ Ht1 Hv) by done.
      apply (ledger_keeps_transfer _ _ _ _ _ _ _ _ Ht1) in Hv; [|done].
      injection Hk as <-. rewrite Hvk in *. by eapply open_leaves_usdc.
    + eapply ledger_keeps_trans; [done|]. eapply ledger_keeps_trans; by eapply ledger_keeps_transfer.
Qed.
End effects.

Section preservation.
Context {L : Type} `{SwapProgram L}.
Abbreviation state := (presale_state L).
Implicit Types (s : state) (l : L) (c : chain) (sc : SaleConfig) (ct : Contribution).

Lemma sale_at s nonce sc :
  presale_inv s → ps_sales s !! sale_config_key nonce = Some sc →
  sale_wf sc ∧ usdc_vault sc = usdc_vault_key nonce ∧
  vault_account (ps_ledger s) (usdc_vault_key nonce) (usdc_mint sc) (sale_config_key nonce).
Proof.
  intros Hinv Hsc. destruct (pi_sales _ Hinv _ _ Hsc) as (Hwf & n & Hk & Hv & Ha).
  injection Hk as <-. by rewrite Hv in *.
Qed.

Lemma entitlement_nonneg sc n : sale_wf sc → 0 ≤ n → 0 ≤ entitlement sc n.
Proof.
  intros (_&_&_&_&_&?&?&_) ?. unfold entitlement.
  pose proof (Z.pow_pos_nonneg 10 (open_decimals sc - usdc_decimals sc)). nia.
Qed.

Lemma claim_Ok buyer to nonce s s' :
  handle_claim buyer to nonce s = Ok s' →
  let ck := contribution_key (sale_config_key nonce) buyer in
  ∃ sc ct ta l, ps_sales s !! sale_config_key nonce = Some sc ∧ ps_contribs s !! ck = Some ct ∧
    ct_buyer ct = buyer ∧ account_of (ps_ledger s) to = Some ta ∧ ta_owner ta = buyer ∧
    ta_mint ta = open_mint sc ∧ 0 < unclaimed ct ∧
    transfer_checked (ps_ledger s) (presale_vault sc) (open_mint sc) to presale_vault_authority
      (unclaimed ct) (open_decimals sc) = Some l ∧
    s' = mkPresale (ps_sales s)
           (<[ck := mkContribution buyer (amount_usdc ct) (open_entitlement ct) (open_entitlement ct)]>
              (ps_contribs s)) l (ps_events s).
Proof.
  intros Hrun ck. unfold handle_claim in Hrun. inv_presale.
  do 4 eexists. do 8 (split; [done|]). done.
Qed.

Lemma finalize_Ok c admin nonce s s' :
  handle_finalize_sale c admin nonce s = Ok s' →
  ∃ sc l, ps_sales s !! sale_config_key nonce = Some sc ∧ sale_admin sc = admin ∧
    sale_state sc = Active ∧ (end_time sc < now c ∨ hard_cap sc ≤ total_raised sc) ∧
    (l = ps_ledger s ∧ balance (ps_ledger s) (usdc_vault sc) ≤ 0 ∨
     transfer_checked (ps_ledger s) (usdc_vault sc) (usdc_mint sc) (treasury sc)
       (sale_config_key nonce) (balance (ps_ledger s) (usdc_vault sc)) (usdc_decimals sc) = Some l) ∧
    s' = mkPresale (<[sale_config_key nonce := sc <| sale_state := Finalized |>]> (ps_sales s))
           (ps_contribs s) l (ps_events s).
Proof.
  intros Hrun. unfold handle_finalize_sale in Hrun.
  apply bind_Ok in Hrun as ([sc uv] & Hl & Hrun). inv_presale.
  exists sc; eexists.
  match goal with H : account_of _ _ = Some uv |- _ => rewrite (balance_account _ _ _ H) end.
  do 4 (split; [done|]). split; [|done].
  match goal with H : (if decide _ then _ else _) = Ok _ |- _ => revert H end.
  case_decide; intros; inv_presale; [by right|left]. split; [done|lia].
Qed.

Lemma sweep_Ok admin nonce n s s' :
  handle_sweep_proceeds admin nonce n s = Ok s' →
  ∃ sc l evs, ps_sales s !! sale_config_key nonce = Some sc ∧ sale_admin sc = admin ∧
    sale_state sc = Active ∧ 0 < n ≤ balance (ps_ledger s) (usdc_vault sc) ∧
    transfer_checked (ps_ledger s) (usdc_vault sc) (usdc_mint sc) (treasury sc)
      (sale_config_key nonce) n (usdc_decimals sc) = Some l ∧
    s' = mkPresale (ps_sales s) (ps_contribs s) l evs.
Proof.
  intros Hrun. unfold handle_sweep_proceeds in Hrun.
  apply bind_Ok in Hrun as ([sc uv] & Hl & Hrun). inv_presale.
  exists sc; do 2 eexists.
  match goal with H : account_of _ _ = Some uv |- _ => rewrite (balance_account _ _ _ H) end.
  do 5 (split; [done|]). done.
Qed.

(** Changing nothing but the ledger, or one record that keeps its sums. *)
Lemma presale_inv_ledger s l evs :
  presale_inv s → ledger_keeps (ps_ledger s) l →
  presale_inv (mkPresale (ps_sales s) (ps_contribs s) l evs).
Proof.
  intros Hinv Hl. split; simpl; [by apply keeps_sales|apply Hinv|apply Hinv].
Qed.

Lemma inv_sale s l k sc sc' evs :
  presale_inv s → ledger_keeps (ps_ledger s) l → ps_sales s !! k = Some sc → sale_wf sc' →
  usdc_vault sc' = usdc_vault sc → usdc_mint sc' = usdc_mint sc →
  total_raised sc' = total_raised sc →
  presale_inv (mkPresale (<[k:=sc']> (ps_sales s)) (ps_contribs s) l evs).
Proof.
  intros Hinv Hl Hsc Hwf Hv Hm Hr. split; simpl.
  - intros j sc0. rewrite lookup_insert. case_decide; [|by apply keeps_sales].
    intros [= <-]. subst j. split; [done|]. rewrite Hv, Hm. by apply (keeps_sales _ _ Hinv Hl).
  - intros j ct Hct. destruct (pi_contribs _ Hinv _ _ Hct) as [? (sk & ? & ?)].
    split; [done|]. exists sk. split; [done|]. rewrite lookup_insert. by case_decide.
  - intros j sc0. rewrite lookup_insert. case_decide; [|apply Hinv].
    intros [= <-]. subst j. rewrite Hr. by apply (pi_raised _ Hinv).
Qed.

Lemma check_params_Ok p u1 u2 u3 :
  check_caps p = Ok u1 → check_bounds p = Ok u2 → check_slippage p = Ok u3 →
  sp_soft_cap p = 0 ∧ 0 < sp_hard_cap p ∧ 0 < sp_min_contribution p ≤ sp_max_contribution p ∧
  0 < sp_max_slippage_bps p ≤ 10000.
Proof.
  unfold check_caps, check_bounds, check_slippage, BPS_DENOMINATOR. intros. inv_run.
  destruct_and!. split_and!; done || lia.
Qed.

Lemma initialize_sale_inv admin om um pv tr sw nonce p start wl s s' :
  presale_inv s → sale_params_typed p →
  handle_initialize_sale admin om um pv tr sw nonce p start wl s = Ok s' → presale_inv s'.
Proof.
  intros Hinv (Hhc & _) Hrun. unfold handle_initialize_sale in Hrun. inv_presale.
  match goal with H1 : check_caps _ = Ok _, H2 : check_bounds _ = Ok _, H3 : check_slippage _ = Ok _ |- _ =>
    destruct (check_params_Ok _ _ _ _ H1 H2 H3) as (?&?&?&?) end.
  match goal with H : create_token_account _ _ _ _ = Some _ |- _ => rename H into Hc end.
  match goal with H : ps_sales s !! _ = None |- _ => rename H into Hnone end.
  split; simpl.
  - intros k sc. rewrite lookup_insert. case_decide; [|by eapply keeps_sales, ledger_keeps_create].
    intros [= <-]. subst k. split; [unfold sale_wf; simpl; ilia|].
    exists nonce. simpl. split_and!; try done. by eapply create_vault_account_new.
  - intros k ct Hct. destruct (pi_contribs _ Hinv _ _ Hct) as [? (sk & ? & ?)].
    split; [done|]. exists sk. split; [done|]. rewrite lookup_insert. by case_decide.
  - intros k sc. rewrite lookup_insert. case_decide; [|apply Hinv].
    intros [= <-]. subst k. simpl. symmetry. apply map_sum_zero. intros k ct Hct.
    destruct (pi_contribs _ Hinv _ _ Hct) as [_ (sk & -> & Hsome)]. simpl.
    rewrite decide_False; [done|]. intros [= ->]. rewrite Hnone in Hsome. by destruct Hsome.
Qed.

Lemma claim_inv buyer to nonce s s' :
  presale_inv s → handle_claim buyer to nonce s = Ok s' → presale_inv s'.
Proof.
  intros Hinv Hrun. apply claim_Ok in Hrun as (sc & ct & ta & l & Hsc & Hct & Hb & _ & _ & _ & _ & Ht & ->).
  destruct (pi_contribs _ Hinv _ _ Hct) as [(Ha & Hc & He) _].
  apply ledger_keeps_transfer in Ht. split; simpl; [by apply keeps_sales| |].
  - intros k ct'. rewrite lookup_insert. case_decide; [|apply Hinv]. intros [= <-]. subst k.
    split; [unfold contribution_wf; simpl; lia|]. exists (sale_config_key nonce). by rewrite Hsc.
  - intros k sc' Hsc'. rewrite contributed_insert by done. unfold contribution_at. rewrite Hct. simpl.
    rewrite (pi_raised _ Hinv _ _ Hsc'). case_decide; lia.
Qed.

Lemma presale_process_inv c i s s' :
  presale_inv s → ix_typed i → process c i s = Ok s' → presale_inv s'.
Proof.
  intros Hinv Hty Hrun. destruct (contributor i) as [[w nonce]|] eqn:Hi.
  - destruct (contribution_effect _ _ _ _ _ _ Hinv Hty Hi Hrun)
      as (sc & n & l & paid & evs & Hsc & Ht & _ & Hn & _ & Hl & Hu & Hp & ->).
    destruct (pi_sales _ Hinv _ _ Hsc) as [Hwf _].
    pose proof (entitlement_nonneg _ _ Hwf Hn).
    pose proof (contribution_at_wf s (contribution_key (sale_config_key nonce) w) Hinv) as (?&?&?).
    apply inv_credit; try done; [apply Ht|lia|ilia].
  - destruct i; simpl in Hi, Hrun, Hty; try done.
    + destruct Hty as (?&?&?&?). by eapply initialize_sale_inv.
    + apply finalize_Ok in Hrun as (sc & l & Hsc & _ & _ & _ & Hl & ->).
      destruct (pi_sales _ Hinv _ _ Hsc) as [Hwf _]. eapply inv_sale; try done.
      destruct Hl as [[-> _]|Ht]; [apply ledger_keeps_refl|by eapply ledger_keeps_transfer].
    + by eapply claim_inv.
    + apply sweep_Ok in Hrun as (sc & l & evs & Hsc & _ & _ & _ & Ht & ->).
      apply presale_inv_ledger; [done|]. by eapply ledger_keeps_transfer.
    + destruct Hty as (?&?&(?&_)). unfold handle_update_sale_params in Hrun. inv_presale.
      match goal with H1 : check_caps _ = Ok _, H2 : check_bounds _ = Ok _, H3 : check_slippage _ = Ok _ |- _ =>
        destruct (check_params_Ok _ _ _ _ H1 H2 H3) as (?&?&?&?) end.
      match goal with H : ps_sales s !! _ = Some ?x |- _ =>
        destruct (pi_sales _ Hinv _ _ H) as [Hwf _]; eapply (inv_sale s); try done; [apply ledger_keeps_refl|] end.
      unfold sale_wf in *; simpl. destruct_and!. ilia.
Qed.

Lemma presale_step_inv s s' : presale_inv s → presale_step s s' → presale_inv s'.
Proof.
  intros Hinv Hstep. destruct Hstep as [c i s s' Hn Hty Hrun|s l' Hl].
  - by eapply presale_process_inv.
  - apply presale_inv_ledger; [done|]. by apply ledger_keeps_respects.
Qed.

Lemma presale_init_inv l : presale_inv (presale_init l).
Proof. by split. Qed.

Lemma presale_reachable_inv s : presale_reachable s → presale_inv s.
Proof.
  intros [l Hs]. eapply steps_invariant; [|done|apply presale_init_inv].
  intros ? ?. apply presale_step_inv.
Qed.
End preservation.
