(* ===== verification/PresaleTheorems.v ===== *)
(** * PresaleTheorems: what a sale guarantees

    The properties of the presale program, and the one its shared token vault
    lacks, each with a run at which its hypotheses hold. *)

From S2P Require Import Prelude Runtime Shared StakingState Presale PresaleInv.
Import PresaleError.

Section theorems.
Context {L : Type} `{SwapProgram L}.
Abbreviation state := (presale_state L).
Implicit Types (s : state) (l : L) (c : chain) (sc : SaleConfig) (ct : Contribution).

(** A sale's total is the sum of its contributions and stays within the hard
    cap.  In every reachable state each sale has raised exactly what its
    contribution records add up to, at most its cap; it has no soft cap; and no
    record has been paid more OPEN than it is entitled to. *)
Theorem presale_books s :
  presale_reachable s →
  (∀ sk sc, ps_sales s !! sk = Some sc →
     total_raised sc = contributed sk (ps_contribs s) ∧ 0 ≤ total_raised sc ≤ hard_cap sc ∧
     soft_cap sc = 0) ∧
  (∀ k ct, ps_contribs s !! k = Some ct → 0 ≤ claimed_open ct ≤ open_entitlement ct).
Proof.
  intros Hinv%presale_reachable_inv. split.
  - intros sk sc Hsc. destruct (pi_sales _ Hinv _ _ Hsc) as [(?&?&?&_) _].
    split; [by apply (pi_raised _ Hinv)|done].
  - intros k ct Hct. by destruct (pi_contribs _ Hinv _ _ Hct) as [(?&?&?) _].
Qed.

(** C7: OPEN is credited only against USDC that arrived.  Whichever way a
    contribution comes, directly, through a swap of any size and honesty by any
    program but the presale itself, or by cross-chain delivery, the sale's vault holds more USDC after it by exactly
    the amount added to the wallet's record and to the total; the entitlement
    grows by that amount at the sale's rate; and the sale was open, the wallet
    not banned, its total within its maximum and the sale within its cap. *)
Theorem contribution_is_backed c i s s' w nonce :
  presale_reachable s → ix_typed i → contributor i = Some (w, nonce) → process c i s = Ok s' →
  let sk := sale_config_key nonce in
  let ct := contribution_at s (contribution_key sk w) in
  ∃ sc sc' ct' n, ps_sales s !! sk = Some sc ∧ ps_sales s' !! sk = Some sc' ∧
    ps_contribs s' !! contribution_key sk w = Some ct' ∧
    balance (ps_ledger s') (usdc_vault sc) = balance (ps_ledger s) (usdc_vault sc) + n ∧ 0 ≤ n ∧
    total_raised sc' = total_raised sc + n ∧ amount_usdc ct' = amount_usdc ct + n ∧
    open_entitlement ct' = open_entitlement ct + entitlement sc n ∧
    within_terms c sc ct n ∧ ¬ wallet_is_banned (info_at c (ban_record_key w)).
Proof.
  intros Hinv%presale_reachable_inv Hty Hi Hrun sk ct.
  destruct (contribution_effect _ _ _ _ _ _ Hinv Hty Hi Hrun)
    as (sc & n & l & paid & evs & Hsc & Ht & Hban & Hn & Hbal & _ & _ & _ & ->).
  unfold credited; simpl. exists sc. do 2 eexists. exists n. rewrite !lookup_insert_eq.
  do 3 (split; [done|]). simpl. done.
Qed.

(** A claim pays what is owed, once.  It sends the buyer's own account exactly
    the part of the entitlement not yet claimed, out of the sale's OPEN vault,
    and a second claim fails until the wallet contributes again. *)
Theorem claim_pays_rest buyer to nonce s s' :
  presale_reachable s → handle_claim buyer to nonce s = Ok s' →
  let ck := contribution_key (sale_config_key nonce) buyer in
  ∃ sc ct ct' ta, ps_sales s !! sale_config_key nonce = Some sc ∧ ps_contribs s !! ck = Some ct ∧
    ps_contribs s' !! ck = Some ct' ∧ unclaimed ct' = 0 ∧
    open_entitlement ct' = open_entitlement ct ∧ amount_usdc ct' = amount_usdc ct ∧
    account_of (ps_ledger s) to = Some ta ∧ ta_owner ta = buyer ∧ 0 < unclaimed ct ∧
    (to ≠ presale_vault sc → ∀ k, balance (ps_ledger s') k = balance (ps_ledger s) k
       + (if decide (k = presale_vault sc) then - unclaimed ct
          else if decide (k = to) then unclaimed ct else 0)) ∧
    ∀ to' s'', handle_claim buyer to' nonce s' ≠ Ok s''.
Proof.
  intros Hinv%presale_reachable_inv Hrun ck.
  apply claim_Ok in Hrun as (sc & ct & ta & l & Hsc & Hct & Hb & Hta & Ho & Hm & Hu & Ht & ->).
  exists sc, ct. eexists. exists ta. simpl. rewrite lookup_insert_eq.
  do 3 (split; [done|]). split; [unfold unclaimed; simpl; lia|]. do 5 (split; [done|]). split.
  - intros Hne k. rewrite (transfer_balance _ _ _ _ _ _ _ _ Ht), decide_False by congruence. done.
  - intros to' s'' Hrun. apply claim_Ok in Hrun as (? & ct2 & ? & ? & _ & Hct2 & _ & _ & _ & _ & Hu2 & _).
    simpl in Hct2. rewrite lookup_insert_eq in Hct2. injection Hct2 as <-.
    unfold unclaimed in Hu2; simpl in Hu2. lia.
Qed.

(** ** Where the USDC goes *)

(** A transfer somebody other than the sale signs leaves its vault no poorer. *)
Lemma vault_untouched l l' from m to auth n d nonce um :
  transfer_checked l from m to auth n d = Some l' → auth ≠ sale_config_key nonce →
  vault_account l (usdc_vault_key nonce) um (sale_config_key nonce) →
  balance l (usdc_vault_key nonce) ≤ balance l' (usdc_vault_key nonce).
Proof.
  intros Ht Hauth Hv. eapply transfer_balance_mono; [done|]. intros <-.
  by eapply transfer_from_vault in Hv.
Qed.

Lemma not_derived_ne who nonce : derived_by PRESALE who = false → who ≠ sale_config_key nonce.
Proof. by intros Hw ->. Qed.

Lemma contribution_vault_mono c i s s' w nonce' nonce sc :
  presale_inv s → ix_typed i → contributor i = Some (w, nonce') → process c i s = Ok s' →
  ps_sales s !! sale_config_key nonce = Some sc →
  balance (ps_ledger s) (usdc_vault_key nonce) ≤ balance (ps_ledger s') (usdc_vault_key nonce).
Proof.
  intros Hinv Hty Hi Hrun Hsc. destruct (sale_at _ _ _ Hinv Hsc) as (_ & _ & Hv).
  destruct i; simplify_eq/=; destruct Hty as (Hb & Hrest).
  - apply contribute_usdc_Ok in Hrun as (sc' & l & _ & _ & _ & _ & Ht & _ & ->); [|done|done]. simpl.
    eapply vault_untouched; [done|by apply not_derived_ne|done].
  - apply contribute_with_swap_Ok in Hrun
      as (sc' & l & n & least & _ & _ & _ & _ & _ & _ & _ & Hsw & _ & _ & ->); [|done|done]. simpl.
    apply swap_respects in Hsw; [|apply Hrest|done]. by apply (respects_vault _ _ _ Hsw) in Hv as [_ ?].
  - apply deliver_contribution_Ok in Hrun
      as (sc' & l0 & l1 & l2 & _ & _ & _ & _ & Hi & Ht1 & Ht2 & _ & ->); [|done|done]. simpl.
    destruct (init_associated_Ok _ _ _ _ Hi) as (Hk0 & Hb0 & _).
    rewrite <-Hb0. apply Hk0 in Hv; [|done].
    etrans; [by eapply vault_untouched, Hv; [done|apply not_derived_ne]|].
    eapply vault_untouched; [done|done|]. by eapply ledger_keeps_transfer.
Qed.

(** USDC leaves a sale only for its treasury, and only on its admin's word.
    Whatever happens on the chain, if a sale's vault holds less after a step
    than before, the step was a finalisation or a sweep of that sale signed by
    its admin, and its treasury received exactly the difference. *)
Theorem proceeds_reach_treasury s s' nonce sc :
  presale_reachable s → presale_step s s' → ps_sales s !! sale_config_key nonce = Some sc →
  balance (ps_ledger s') (usdc_vault sc) < balance (ps_ledger s) (usdc_vault sc) →
  (∃ c i, (i = FinalizeSale (sale_admin sc) nonce ∨ ∃ n, i = SweepProceeds (sale_admin sc) nonce n) ∧
     process c i s = Ok s') ∧
  balance (ps_ledger s') (treasury sc) - balance (ps_ledger s) (treasury sc) =
  balance (ps_ledger s) (usdc_vault sc) - balance (ps_ledger s') (usdc_vault sc).
Proof.
  intros Hinv%presale_reachable_inv Hstep Hsc.
  destruct (sale_at _ _ _ Hinv Hsc) as (_ & Hvk & Hv). rewrite Hvk.
  destruct Hstep as [c i s s' Hn Hty Hrun|s l' Hl]; intros Hless.
  2: { apply (respects_vault _ _ _ Hl) in Hv as [_ ?]; [|done]. simpl in *. lia. }
  destruct (contributor i) as [[w n0]|] eqn:Hi.
  { pose proof (contribution_vault_mono _ _ _ _ _ _ _ _ Hinv Hty Hi Hrun Hsc). lia. }
  destruct i; simpl in Hi, Hrun; try done.
  - unfold handle_initialize_sale in Hrun. inv_presale. simpl in Hless.
    match goal with H : create_token_account _ _ _ _ = Some _ |- _ =>
      rewrite (create_balance _ _ _ _ _ _ H) in Hless end. lia.
  - apply finalize_Ok in Hrun as Hfin.
    destruct Hfin as (sc' & l & Hsc' & Ha & _ & _ & [[-> _]|Ht] & ->); simpl in *; [lia|].
    assert (nonce0 = nonce) as ->.
    { destruct (decide (nonce0 = nonce)); [done|]. exfalso.
      eapply vault_untouched in Hv; [|exact Ht|by intros [= ?]]. lia. }
    simplify_eq. rewrite Hvk in Ht. split; [eauto|].
    rewrite !(transfer_balance _ _ _ _ _ _ _ _ Ht) in *. repeat case_decide; congruence || lia.
  - apply claim_Ok in Hrun as (sc' & ct & ta & l & _ & _ & _ & _ & _ & _ & _ & Ht & ->). simpl in *.
    eapply vault_untouched in Hv; [|exact Ht|done]. lia.
  - apply sweep_Ok in Hrun as Hsw.
    destruct Hsw as (sc' & l & evs & Hsc' & Ha & _ & _ & Ht & ->); simpl in *.
    assert (nonce0 = nonce) as ->.
    { destruct (decide (nonce0 = nonce)); [done|]. exfalso.
      eapply vault_untouched in Hv; [|exact Ht|by intros [= ?]]. lia. }
    simplify_eq. rewrite Hvk in Ht. split; [exists c, (SweepProceeds (sale_admin sc) nonce amount); eauto|].
    rewrite !(transfer_balance _ _ _ _ _ _ _ _ Ht) in *. repeat case_decide; congruence || lia.
  - unfold handle_update_sale_params in Hrun. inv_presale. simpl in Hless. lia.
Qed.

(** ** What finalising settles *)

(** A record of a finalised sale: only claims touch it. *)
Definition record_kept (m m' : gmap pubkey Contribution) (ck : pubkey) : Prop :=
  match m !! ck with
  | None => m' !! ck = None
  | Some ct => ∃ ct', m' !! ck = Some ct' ∧ ct_buyer ct' = ct_buyer ct ∧
      amount_usdc ct' = amount_usdc ct ∧ open_entitlement ct' = open_entitlement ct ∧
      claimed_open ct ≤ claimed_open ct'
  end.

Lemma record_kept_refl m ck : record_kept m m ck.
Proof. unfold record_kept. destruct (m !! ck); [|done]. eauto with lia. Qed.

Lemma record_kept_trans m1 m2 m3 ck :
  record_kept m1 m2 ck → record_kept m2 m3 ck → record_kept m1 m3 ck.
Proof.
  unfold record_kept. destruct (m1 !! ck) as [ct|].
  - intros (ct2 & -> & ? & ? & ? & ?) (ct3 & -> & ? & ? & ? & ?). exists ct3.
    split_and!; congruence || lia.
  - by intros ->.
Qed.

Lemma finalized_step s s' nonce sc buyer :
  presale_inv s → presale_step s s' → ps_sales s !! sale_config_key nonce = Some sc →
  sale_state sc = Finalized →
  ps_sales s' !! sale_config_key nonce = Some sc ∧
  record_kept (ps_contribs s) (ps_contribs s') (contribution_key (sale_config_key nonce) buyer).
Proof.
  intros Hinv Hstep Hsc Hf. destruct Hstep as [c i s s' Hn Hty Hrun|s l' Hl].
  2: { split; [done|apply record_kept_refl]. }
  destruct (contributor i) as [[w n0]|] eqn:Hi.
  { destruct (contribution_effect _ _ _ _ _ _ Hinv Hty Hi Hrun)
      as (sc' & n & l & paid & evs & Hsc' & Ht & _ & _ & _ & _ & _ & _ & ->). unfold credited; simpl.
    assert (n0 ≠ nonce) as Hne.
    { intros ->. rewrite Hsc in Hsc'. injection Hsc' as <-. destruct Ht. congruence. }
    rewrite lookup_insert_ne by (by intros [= ?]). split; [done|].
    unfold record_kept. rewrite lookup_insert_ne by (by intros [= ?]). apply record_kept_refl. }
  destruct i; simpl in Hi, Hrun; try done.
  - unfold handle_initialize_sale in Hrun. inv_presale. simpl. split; [|apply record_kept_refl].
    rewrite lookup_insert_ne; [done|]. intros Heq. congruence.
  - apply finalize_Ok in Hrun as (sc' & l & Hsc' & _ & Hact & _ & _ & ->); simpl.
    split; [|apply record_kept_refl]. rewrite lookup_insert_ne; [done|]. intros Heq.
    rewrite Heq in Hsc'. congruence.
  - apply claim_Ok in Hrun as (sc' & ct & ta & l & _ & Hct & Hb & _ & _ & _ & Hu & _ & ->). simpl.
    split; [done|]. unfold record_kept. rewrite lookup_insert. case_decide as Hk.
    + rewrite <-Hk, Hct. eexists. split; [done|]. simpl. unfold unclaimed in Hu.
      split_and!; done || lia.
    + apply record_kept_refl.
  - apply sweep_Ok in Hrun as (sc' & l & evs & _ & _ & _ & _ & _ & ->). simpl.
    split; [done|apply record_kept_refl].
  - unfold handle_update_sale_params in Hrun. inv_presale. simpl. split; [|apply record_kept_refl].
    rewrite lookup_insert_ne; [done|]. intros Heq.
    match goal with H : ps_sales s !! sale_config_key nonce0 = Some _ |- _ => rewrite Heq in H end.
    congruence.
Qed.

(** A finalised sale is closed for good.  From then on no execution changes
    its terms, its total or its state, no wallet is credited in it, and the
    records it has keep their amounts and entitlements while claims are paid. *)
Theorem finalized_is_terminal s s' nonce sc buyer :
  presale_reachable s → steps presale_step s s' → ps_sales s !! sale_config_key nonce = Some sc →
  sale_state sc = Finalized →
  ps_sales s' !! sale_config_key nonce = Some sc ∧
  record_kept (ps_contribs s) (ps_contribs s') (contribution_key (sale_config_key nonce) buyer).
Proof.
  intros Hinv%presale_reachable_inv Hsteps Hsc Hf.
  assert (presale_inv s' ∧ ps_sales s' !! sale_config_key nonce = Some sc ∧
    record_kept (ps_contribs s) (ps_contribs s') (contribution_key (sale_config_key nonce) buyer))
    as [_ ?]; [|done].
  induction Hsteps as [|s1 s2 s3 _ IH Hstep]; [by auto using record_kept_refl|].
  destruct (IH Hinv Hsc) as (Hinv2 & Hsc2 & Hk).
  split; [by eapply presale_step_inv|].
  destruct (finalized_step _ _ _ _ buyer Hinv2 Hstep Hsc2 Hf) as [? ?].
  split; [done|by eapply record_kept_trans].
Qed.

(** ** The shared OPEN vault *)

(** Terms of a sale that is open at time [t]. *)
Definition drain_params (b t : Z) : sale_params := mkSaleParams 1 0 1 1 1 b t.

(** The sale the stranger opens: one unit of their token buys the vault. *)
Definition drain_sale (thief om fm v from swapp : pubkey) (nonce b d t : Z) : SaleConfig :=
  mkSale thief om fm v (usdc_vault_key nonce) from swapp 1 0 1 1 1 b d d 0 t [] 0 Active.

Section drain.
Context (c : chain) (s : state) (v om fm thief from to swapp : pubkey) (nonce d : Z).
Context (va fa ta : token_account) (l1 : L).
Hypothesis Hopen : 0 < now c ≤ I64_MAX.
Hypothesis Hthief : is_wallet thief = true.
(* the vault of the presale *)
Hypothesis Hva : account_of (ps_ledger s) v = Some va.
Hypothesis Hvo : ta_owner va = presale_vault_authority.
Hypothesis Hvm : ta_mint va = om.
Hypothesis Hvf : ta_frozen va = false.
Hypothesis Hvb : 0 < ta_amount va.
Hypothesis Hod : decimals_of (ps_ledger s) om = Some d.
(* one unit of another token, in the stranger's hands *)
Hypothesis Hfm : fm ≠ om.
Hypothesis Hfd : decimals_of (ps_ledger s) fm = Some d.
Hypothesis Hfa : account_of (ps_ledger s) from = Some fa.
Hypothesis Hfo : ta_owner fa = thief.
Hypothesis Hfmint : ta_mint fa = fm.
Hypothesis Hff : ta_frozen fa = false.
Hypothesis Hfb : 1 ≤ ta_amount fa.
(* somewhere to put the OPEN *)
Hypothesis Hta : account_of (ps_ledger s) to = Some ta.
Hypothesis Hto : ta_owner ta = thief.
Hypothesis Htm : ta_mint ta = om.
Hypothesis Htf : ta_frozen ta = false.
Hypothesis Hroom : ta_amount ta + ta_amount va ≤ U64_MAX.
(* a sale number nobody used *)
Hypothesis Hnonce : u64 nonce.
Hypothesis Hfree : ps_sales s !! sale_config_key nonce = None.
Hypothesis Hnone : ps_contribs s !! contribution_key (sale_config_key nonce) thief = None.
Hypothesis Hcreate : create_token_account (ps_ledger s) (usdc_vault_key nonce) fm (sale_config_key nonce) = Some l1.
Hypothesis Hban : ¬ wallet_is_banned (info_at c (ban_record_key thief)).

Let sc : SaleConfig := drain_sale thief om fm v from swapp nonce (ta_amount va) d (now c).
Let s1 : state := mkPresale (<[sale_config_key nonce := sc]> (ps_sales s)) (ps_contribs s) l1 (ps_events s).

(** What was on the ledger still is after the new vault's creation. *)
Lemma drain_created k a : account_of (ps_ledger s) k = Some a → account_of l1 k = Some a.
Proof using Hcreate.
  intros Hk. apply create_token_account_Some in Hcreate as (Hn & Hall & _).
  rewrite Hall, decide_False; [done|]. intros ->. congruence.
Qed.

Lemma drain_initialize :
  handle_initialize_sale thief om fm v from swapp nonce (drain_params (ta_amount va) (now c)) 0 [] s = Ok s1.
Proof using Hopen Hcreate Hfree Hod Hfd Hva Hvm Hvo Hfa Hfmint Hvb.
  unfold handle_initialize_sale.
  rewrite (proj2 (init_account_Ok _ _ ())) by done. cbn.
  unfold load_mint, load_token, init_token. rewrite Hod, Hfd, Hva, Hcreate. cbn.
  rewrite !require_true by done. cbn. rewrite (drain_created _ _ Hfa). cbn.
  rewrite !require_true by (done || (simpl; lia)). done.
Qed.

Lemma drain_pay : ∃ l2, transfer_checked l1 from fm (usdc_vault_key nonce) thief 1 d = Some l2.
Proof using Hcreate Hfa Hfo Hfmint Hff Hfb Hfd.
  destruct (transfer_checked_succeeds l1 from fm (usdc_vault_key nonce) thief 1 d fa
    (new_token_account fm (sale_config_key nonce))) as [l2 Hl2]; simpl; eauto using drain_created;
    try done.
  - apply create_token_account_Some in Hcreate as (_ & Hall & _). by rewrite Hall, decide_True.
  - apply create_token_account_Some in Hcreate as (_ & _ & Hd). by rewrite Hd.
Qed.

Let ck : pubkey := contribution_key (sale_config_key nonce) thief.
Let s2 (l2 : L) : state :=
  mkPresale (<[sale_config_key nonce := sc <| total_raised := 1 |>]> (ps_sales s1))
    (<[ck := mkContribution thief 1 (ta_amount va) 0]> (ps_contribs s)) l2 (ps_events s).

Lemma drain_contribute l2 :
  transfer_checked l1 from fm (usdc_vault_key nonce) thief 1 d = Some l2 →
  handle_contribute_usdc c thief from nonce 1 s1 = Ok (s2 l2).
Proof using Hcreate Hfa Hfo Hfmint Hfd Hban Hnone Hopen Hva Hvb.
  intros Ht. pose proof (account_of_u64 _ _ _ Hva) as Hu.
  pose proof (create_token_account_Some _ _ _ _ _ Hcreate) as (_ & Hall & Hd).
  unfold handle_contribute_usdc.
  run_step ltac:(apply load_Ok; apply lookup_insert_eq).
  run_step ltac:(apply load_token_Ok; by apply drain_created).
  do 2 run_step ltac:(by apply (require_Ok _ _ ())).
  run_step ltac:(apply load_token_Ok; simpl; rewrite Hall, decide_True; done).
  run_step ltac:(apply load_mint_Ok; simpl; rewrite Hd; done).
  run_step ltac:(by apply (require_Ok _ _ ())).
  run_step ltac:(apply require_open_intro; [done|simpl; lia]).
  assert (contribution_at s1 (contribution_key (sale_config_key nonce) thief) = empty_contribution)
    as Hct by (unfold contribution_at; simpl; by rewrite Hnone). rewrite Hct.
  run_step ltac:(apply new_totals_intro; simpl; done || ilia).
  run_step ltac:(by apply ok_or_Ok).
  assert (entitlement sc 1 = ta_amount va) as He.
  { unfold entitlement; simpl. rewrite Z.sub_diag. lia. }
  run_step ltac:(rewrite open_entitlement_for_intro, He, decide_True; simpl; done || lia).
  run_step ltac:(apply ok_or_Ok, checked_Some; simpl; done).
  unfold s2, put_sale, put_contribution; simpl. by rewrite He.
Qed.

(** Paying one unit of another token leaves the OPEN accounts as they were. *)
Lemma drain_paid l2 k a :
  transfer_checked l1 from fm (usdc_vault_key nonce) thief 1 d = Some l2 →
  account_of (ps_ledger s) k = Some a → ta_mint a = om →
  ∃ a', account_of l2 k = Some a' ∧ ta_mint a' = om ∧ ta_owner a' = ta_owner a ∧
    ta_frozen a' = ta_frozen a ∧ ta_amount a' = ta_amount a.
Proof using Hcreate Hfa Hfm Hfmint.
  intros Ht Hk Hm. pose proof (drain_created _ _ Hk) as Hk1.
  destruct (transfer_account _ _ _ _ _ _ _ _ _ _ Ht Hk1) as (a' & Ha' & Hm' & Ho' & Hf' & Hb').
  exists a'. do 4 (split; [done || congruence|]). rewrite Hb', (transfer_balance _ _ _ _ _ _ _ _ Ht).
  rewrite (balance_account _ _ _ Hk1). assert (k ≠ from) by congruence.
  assert (k ≠ usdc_vault_key nonce).
  { intros ->. apply create_token_account_Some in Hcreate as [? _]. congruence. }
  repeat case_decide; congruence || lia.
Qed.

Lemma drain_claim l2 :
  transfer_checked l1 from fm (usdc_vault_key nonce) thief 1 d = Some l2 →
  ∃ s3, handle_claim thief to nonce (s2 l2) = Ok s3 ∧ balance (ps_ledger s3) v = 0 ∧
    balance (ps_ledger s3) to = balance (ps_ledger s) to + balance (ps_ledger s) v.
Proof using Hcreate Hfa Hff Hfm Hfmint Hva Hvm Hvo Hvf Hvb Hta Htm Hto Htf Hroom Hod Hthief.
  intros Ht. destruct (drain_paid _ _ _ Ht Hva Hvm) as (va' & Hva' & Hvm' & Hvo' & Hvf' & Hvb').
  destruct (drain_paid _ _ _ Ht Hta Htm) as (ta' & Hta' & Htm' & Hto' & Htf' & Htb').
  pose proof (create_token_account_Some _ _ _ _ _ Hcreate) as (_ & _ & Hd).
  pose proof (account_of_u64 _ _ _ Hva) as Hu. pose proof (account_of_u64 _ _ _ Hta) as Hu'.
  assert (v ≠ to) as Hne.
  { intros <-. rewrite Hva in Hta. injection Hta as <-. rewrite Hvo in Hto. by rewrite <-Hto in Hthief. }
  assert (Hd2 : decimals_of l2 om = Some d) by (by rewrite (transfer_decimals _ _ _ _ _ _ _ _ Ht), Hd).
  destruct (transfer_checked_succeeds l2 v om to presale_vault_authority (ta_amount va) d va' ta')
    as [l3 Ht3]; try (done || congruence || lia).
  exists (mkPresale (ps_sales (s2 l2))
           (<[ck := mkContribution thief 1 (ta_amount va) (ta_amount va)]> (ps_contribs (s2 l2))) l3
           (ps_events s)). split.
  - unfold handle_claim. run_step ltac:(apply load_Ok, lookup_insert_eq).
    run_step ltac:(by apply load_mint_Ok). run_step ltac:(by apply load_token_Ok).
    run_step ltac:(apply load_Ok, lookup_insert_eq).
    run_step ltac:(by apply (require_Ok _ _ ())). run_step ltac:(by apply load_token_Ok).
    do 2 run_step ltac:(apply (require_Ok _ _ ()); simpl; congruence).
    run_step ltac:(apply ok_or_Ok, checked_Some; split; [done|simpl; ilia]).
    run_step ltac:(apply (require_Ok _ _ ()); simpl; lia).
    cbn [open_entitlement claimed_open]. rewrite Z.sub_0_r.
    run_step ltac:(by apply ok_or_Ok). done.
  - cbn [ps_ledger]. rewrite !(transfer_balance _ _ _ _ _ _ _ _ Ht3).
    rewrite (balance_account _ _ _ Hva'), (balance_account _ _ _ Hta').
    rewrite (balance_account _ _ _ Hva), (balance_account _ _ _ Hta).
    repeat case_decide; congruence || lia.
Qed.

(** C14: the presale's OPEN is not safe from a stranger's sale.  Opening a sale
    needs no one's permission, the seller chooses the token that counts as USDC
    and the price, and every sale pays out of a vault owned by the one address
    all sales share.  So in any state, at any time, a wallet that is not banned
    can take the whole balance of the vault that backs everybody else's
    contributions with three well-formed instructions at that time, given: one
    unit, in an account of its own that is not frozen, of some other token of
    OPEN's decimals; an OPEN account of its own, not frozen, whose balance stays
    within 64 bits; a vault that is not frozen and not empty; and a sale number
    at which there is no sale, no record of its own and no token account. *)
Theorem stranger_drains_presale :
  let open_sale := InitializeSale thief om fm v from swapp nonce (drain_params (ta_amount va) (now c)) 0 [] in
  ix_typed open_sale ∧ ix_typed (ContributeUsdc thief from nonce 1) ∧ ix_typed (Claim thief to nonce) ∧
  ∃ s1 s2 s3, process c open_sale s = Ok s1 ∧
    process c (ContributeUsdc thief from nonce 1) s1 = Ok s2 ∧
    process c (Claim thief to nonce) s2 = Ok s3 ∧ balance (ps_ledger s3) v = 0 ∧
    balance (ps_ledger s3) to = balance (ps_ledger s) to + balance (ps_ledger s) v.
Proof using All.
  intros open_sale. pose proof (account_of_u64 _ _ _ Hva) as Hu.
  assert (derived_by PRESALE thief = false) as Hd by (by destruct thief).
  split; [|split; [by split_and!|split; [by split|]]].
  { split; [done|]. split; [done|]. split; [|done]. split_and!; done || (simpl; ilia). }
  destruct drain_pay as [l2 Ht]. destruct (drain_claim _ Ht) as (s3 & Hclaim & Hv & Hto').
  exists s1, (s2 l2), s3. split; [exact drain_initialize|].
  split; [exact (drain_contribute _ Ht)|]. done.
Qed.
End drain.
End theorems.
