(* ===== verification/PresaleSolvency.v ===== *)
(** * PresaleSolvency: when a sale can pay what it sells

    [claim] pays out of the OPEN vault without asking whether the sale was
    finalised.  That is sound while the vault covers what was credited and what
    may still be sold; here is that accounting, and that every instruction
    other than opening a sale or changing its terms preserves it. *)

From S2P Require Import Prelude Runtime Shared StakingState Presale PresaleInv PresaleTheorems.
Import PresaleError.

(** OPEN a sale may still sell. *)
Definition capacity (sc : SaleConfig) : Z :=
  match sale_state sc with
  | Active => entitlement sc (hard_cap sc - total_raised sc)
  | Finalized => 0
  end.

(** OPEN credited in a sale and not paid. *)
Definition owed_in (sk : pubkey) (m : gmap pubkey Contribution) : Z :=
  map_sum (λ k ct, if decide (sale_of k = Some sk) then unclaimed ct else 0) m.

(** What the sales that draw on a vault may ask of it. *)
Definition obligation (v : pubkey) (contribs : gmap pubkey Contribution)
    (sk : pubkey) (sc : SaleConfig) : Z :=
  if decide (presale_vault sc = v) then capacity sc + owed_in sk contribs else 0.

Definition obligations {L} (v : pubkey) (s : presale_state L) : Z :=
  map_sum (obligation v (ps_contribs s)) (ps_sales s).

(** Instructions that neither open a sale nor change its terms. *)
Definition keeps_terms (i : presale_ix) : bool :=
  match i with InitializeSale _ _ _ _ _ _ _ _ _ _ | UpdateSaleParams _ _ _ => false | _ => true end.

Section solvency.
Context {L : Type} `{SwapProgram L}.
Abbreviation state := (presale_state L).
Implicit Types (s : state) (l : L) (c : chain) (sc : SaleConfig) (ct : Contribution) (v : pubkey).

Inductive quiet_step : state → state → Prop :=
  | quiet_ix c i s s' : i64 (now c) → ix_typed i → keeps_terms i = true →
      process c i s = Ok s' → quiet_step s s'
  | quiet_ledger s l' :
      ledger_respects PRESALE (ps_ledger s) l' → quiet_step s (s <| ps_ledger := l' |>).

Lemma quiet_is_step s s' : quiet_step s s' → presale_step s s'.
Proof. intros []; [by eapply step_ix|by apply step_ledger]. Qed.

(** The vault backs its sales. *)
Definition covers v s : Prop :=
  (∃ m, vault_account (ps_ledger s) v m presale_vault_authority) ∧
  obligations v s ≤ balance (ps_ledger s) v.

Lemma entitlement_add sc a b : entitlement sc (a + b) = entitlement sc a + entitlement sc b.
Proof. unfold entitlement. ring. Qed.

Lemma capacity_nonneg sc : sale_wf sc → 0 ≤ capacity sc.
Proof.
  intros Hwf. unfold capacity. destruct (sale_state sc); [|done].
  apply entitlement_nonneg; [done|]. destruct Hwf as (?&_). lia.
Qed.

Lemma sale_owed_nonneg s sk : presale_inv s → 0 ≤ owed_in sk (ps_contribs s).
Proof.
  intros Hinv. apply map_sum_nonneg. intros k ct Hct. case_decide; [|done].
  destruct (pi_contribs _ Hinv _ _ Hct) as [(?&?&?) _]. unfold unclaimed. lia.
Qed.

Lemma sale_obligation_nonneg s v sk sc :
  presale_inv s → ps_sales s !! sk = Some sc → 0 ≤ obligation v (ps_contribs s) sk sc.
Proof.
  intros Hinv Hsc. unfold obligation. case_decide; [|done].
  destruct (pi_sales _ Hinv _ _ Hsc) as [Hwf _].
  pose proof (capacity_nonneg _ Hwf). pose proof (sale_owed_nonneg _ sk Hinv). lia.
Qed.

(** Replacing one record changes what its own sale owes, and no other. *)
Lemma owed_insert s sk k ct :
  owed_in sk (<[k:=ct]> (ps_contribs s)) = owed_in sk (ps_contribs s)
    + if decide (sale_of k = Some sk) then unclaimed ct - unclaimed (contribution_at s k) else 0.
Proof.
  unfold owed_in, contribution_at.
  destruct (ps_contribs s !! k) as [ct0|] eqn:Hk; simpl.
  - rewrite (map_sum_insert _ _ _ ct0) by done. case_decide; lia.
  - rewrite map_sum_insert_None by done. assert (unclaimed empty_contribution = 0) by done.
    case_decide; lia.
Qed.

(** One sale and one of its records change: so does the total, by their
    difference. *)
Lemma obligations_update v s sk sc sc' buyer ct l evs :
  ps_sales s !! sk = Some sc → presale_vault sc' = presale_vault sc →
  obligations v (mkPresale (<[sk:=sc']> (ps_sales s))
                   (<[contribution_key sk buyer:=ct]> (ps_contribs s)) l evs) =
  obligations v s + if decide (presale_vault sc = v)
    then capacity sc' - capacity sc
         + (unclaimed ct - unclaimed (contribution_at s (contribution_key sk buyer))) else 0.
Proof.
  intros Hsc Hv. unfold obligations; simpl.
  rewrite (map_sum_update (obligation v (ps_contribs s)) _ _ _ sc); [|done|].
  - unfold obligation. rewrite Hv. rewrite owed_insert; simpl. case_decide; [|lia].
    rewrite decide_True by done. lia.
  - intros j w Hj Hw. unfold obligation. case_decide; [|done]. rewrite owed_insert; simpl.
    rewrite decide_False by congruence. lia.
Qed.

(** The vault as a source: only the program's own authority can draw on it. *)
Lemma vault_kept l l' from m to auth n d v vm :
  transfer_checked l from m to auth n d = Some l' → auth ≠ presale_vault_authority →
  vault_account l v vm presale_vault_authority → balance l v ≤ balance l' v.
Proof.
  intros Ht Hauth Hv. eapply transfer_balance_mono; [done|]. intros <-.
  by eapply transfer_from_vault in Hv.
Qed.

(** Paying [n] OPEN from some vault costs [v] at most that. *)
Lemma vault_paid l l' from m to n d v :
  transfer_checked l from m to presale_vault_authority n d = Some l' →
  balance l v - (if decide (from = v) then n else 0) ≤ balance l' v.
Proof.
  intros Ht. rewrite (transfer_balance _ _ _ _ _ _ _ _ Ht).
  pose proof (transfer_nonneg _ _ _ _ _ _ _ _ Ht). repeat case_decide; congruence || lia.
Qed.

Lemma wallet_not_authority w : derived_by PRESALE w = false → w ≠ presale_vault_authority.
Proof. by intros Hw ->. Qed.

(** A contribution costs the vault of its own sale what it pays out at once. *)
Lemma contribution_cost c i s s' w nonce v vm :
  presale_inv s → ix_typed i → contributor i = Some (w, nonce) → process c i s = Ok s' →
  vault_account (ps_ledger s) v vm presale_vault_authority →
  ∃ sc n l paid evs, ps_sales s !! sale_config_key nonce = Some sc ∧ sale_state sc = Active ∧
    s' = credited s l (sale_config_key nonce) sc w n paid evs ∧
    vault_account l v vm presale_vault_authority ∧
    balance (ps_ledger s) v - (if decide (presale_vault sc = v) then paid else 0) ≤ balance l v.
Proof.
  intros Hinv Hty Hi Hrun Hv. destruct i; simplify_eq/=; destruct Hty as (Hb & Hrest).
  - apply contribute_usdc_Ok in Hrun as (sc & l & Hsc & Hw & _ & _ & Ht & _ & ->); [|done|done].
    exists sc, amount, l, 0, (ps_events s). split_and!; [done|apply Hw|done| |].
    + by eapply ledger_keeps_transfer.
    + pose proof (vault_kept _ _ _ _ _ _ _ _ _ _ Ht (wallet_not_authority _ Hb) Hv).
      case_decide; lia.
  - apply contribute_with_swap_Ok in Hrun
      as (sc & l & n & least & Hsc & Hw & _ & _ & _ & _ & _ & Hsw & _ & _ & ->); [|done|done].
    apply swap_respects in Hsw; [|apply Hrest|done]. apply (respects_vault _ _ _ Hsw) in Hv as [? ?]; [|done].
    exists sc, n, l, 0, (ps_events s). split_and!; [done|apply Hw|done|done|]. case_decide; lia.
  - apply deliver_contribution_Ok in Hrun
      as (sc & l0 & l1 & l2 & Hsc & Hw & _ & _ & Hi & Ht1 & Ht2 & _ & ->); [|done|done].
    destruct (init_associated_Ok _ _ _ _ Hi) as (Hk0 & Hb0 & _).
    apply Hk0 in Hv; [|done]. rewrite <-Hb0.
    pose proof (vault_kept _ _ _ _ _ _ _ _ _ _ Ht1 (wallet_not_authority _ Hb) Hv).
    pose proof (vault_paid _ _ _ _ _ _ _ v Ht2).
    exists sc, amount, l2, (entitlement sc amount). eexists. split_and!; [done|apply Hw|done| |lia].
    eapply ledger_keeps_transfer; [done|done|]. by eapply ledger_keeps_transfer.
Qed.

Lemma contribution_covers c i s s' w nonce v :
  presale_inv s → ix_typed i → contributor i = Some (w, nonce) → process c i s = Ok s' →
  covers v s → covers v s'.
Proof.
  intros Hinv Hty Hi Hrun [[vm Hv] Hle].
  destruct (contribution_cost _ _ _ _ _ _ _ _ Hinv Hty Hi Hrun Hv)
    as (sc & n & l & paid & evs & Hsc & Ha & -> & Hv' & Hbal).
  split; [by exists vm|]. unfold credited. cbn [ps_ledger].
  rewrite (obligations_update v s _ sc) by done.
  assert (capacity (sc <| total_raised := total_raised sc + n |>) = capacity sc - entitlement sc n) as ->.
  { unfold capacity; simpl. rewrite Ha. unfold entitlement; simpl. ring. }
  unfold unclaimed at 1; simpl. unfold unclaimed. case_decide; lia.
Qed.

(** A claim takes from the vault what it takes off the books. *)
Lemma claim_covers buyer to nonce s s' v :
  handle_claim buyer to nonce s = Ok s' → covers v s → covers v s'.
Proof.
  intros Hrun [[vm Hv] Hle].
  apply claim_Ok in Hrun as (sc & ct & ta & l & Hsc & Hct & Hb & _ & _ & _ & Hu & Ht & ->).
  split; [exists vm; by eapply transfer_vault_account|].
  rewrite <-(insert_id (ps_sales s) _ _ Hsc). rewrite (obligations_update v s _ sc) by done.
  cbn [ps_ledger]. pose proof (vault_paid _ _ _ _ _ _ _ v Ht).
  unfold contribution_at. rewrite Hct. unfold unclaimed in *; simpl in *. case_decide; lia.
Qed.

Lemma finalize_covers c admin nonce s s' v :
  presale_inv s → handle_finalize_sale c admin nonce s = Ok s' → covers v s → covers v s'.
Proof.
  intros Hinv Hrun [[vm Hv] Hle].
  apply finalize_Ok in Hrun as (sc & l & Hsc & _ & _ & _ & Hl & ->).
  assert (vault_account l v vm presale_vault_authority ∧ balance (ps_ledger s) v ≤ balance l v) as [? ?].
  { destruct Hl as [[-> _]|Ht]; [done|]. split; [by eapply transfer_vault_account|].
    by eapply vault_kept. }
  split; [by exists vm|]. cbn [ps_ledger]. etrans; [|done]. etrans; [|apply Hle].
  unfold obligations; simpl. rewrite (map_sum_insert _ _ _ sc) by done.
  destruct (pi_sales _ Hinv _ _ Hsc) as [Hwf _]. pose proof (capacity_nonneg _ Hwf).
  assert (obligation v (ps_contribs s) (sale_config_key nonce) (sc <| sale_state := Finalized |>)
          ≤ obligation v (ps_contribs s) (sale_config_key nonce) sc) as Hob.
  { assert (capacity (sc <| sale_state := Finalized |>) = 0) as Hz by done.
    unfold obligation. rewrite Hz. cbn. case_decide; lia. }
  simpl in Hob. lia.
Qed.

Lemma quiet_covers s s' v : presale_inv s → quiet_step s s' → covers v s → covers v s'.
Proof.
  intros Hinv Hstep Hc. destruct Hstep as [c i s s' Hn Hty Hq Hrun|s l' Hl].
  2: { destruct Hc as [[vm Hv] Hle]. apply (respects_vault _ _ _ Hl) in Hv as [? ?]; [|done].
       split; [by exists vm|]. unfold obligations in *; simpl. lia. }
  destruct (contributor i) as [[w nonce]|] eqn:Hi; [by eapply contribution_covers|].
  destruct i; simpl in *; try done.
  - by eapply finalize_covers.
  - by eapply claim_covers.
  - apply sweep_Ok in Hrun as (sc & l & evs & Hsc & _ & _ & _ & Ht & ->).
    destruct Hc as [[vm Hv] Hle]. split; [exists vm; by eapply transfer_vault_account|].
    unfold obligations in *; simpl. etrans; [done|]. by eapply vault_kept.
Qed.

(** C11: a sale whose vault covers it never oversells.  Take any reachable state in
    which a vault holds at least the OPEN credited and unpaid plus what the
    sales drawing on it may still sell up to their caps.  However contributions,
    deliveries, claims, sweeps and finalisations then interleave, as long as no
    sale is opened and no terms are changed, the vault still covers them, and
    any wallet that claims its unclaimed OPEN is paid, before the end of the
    sale as well as after: the vault sends exactly that much to the account the
    wallet names, no other balance changes, and nothing is left to claim.  The
    vault and the wallet's account must be of the sale's OPEN mint, different,
    not frozen and owned by the vault authority and the wallet, the wallet's
    balance must stay within 64 bits, and the mint must still have the decimals
    the sale recorded. *)
Theorem covered_sale_pays s s' v nonce sc buyer ct to ta va d :
  presale_reachable s → covers v s → steps quiet_step s s' →
  ps_sales s' !! sale_config_key nonce = Some sc → presale_vault sc = v →
  ps_contribs s' !! contribution_key (sale_config_key nonce) buyer = Some ct → 0 < unclaimed ct →
  account_of (ps_ledger s') v = Some va → ta_mint va = open_mint sc →
  ta_owner va = presale_vault_authority → ta_frozen va = false →
  account_of (ps_ledger s') to = Some ta → ta_owner ta = buyer → ta_mint ta = open_mint sc →
  ta_frozen ta = false → ta_amount ta + unclaimed ct ≤ U64_MAX →
  decimals_of (ps_ledger s') (open_mint sc) = Some d → open_decimals sc = d → to ≠ v →
  covers v s' ∧ ∃ s'' ct'', handle_claim buyer to nonce s' = Ok s'' ∧
    (∀ k, balance (ps_ledger s'') k = balance (ps_ledger s') k
       + (if decide (k = v) then - unclaimed ct else if decide (k = to) then unclaimed ct else 0)) ∧
    ps_contribs s'' !! contribution_key (sale_config_key nonce) buyer = Some ct'' ∧
    unclaimed ct'' = 0 ∧ open_entitlement ct'' = open_entitlement ct ∧ amount_usdc ct'' = amount_usdc ct.
Proof.
  intros Hinv%presale_reachable_inv Hcov Hsteps Hsc Hv Hct Hu Hva Hvm Hvo Hvf Hta Hto Htm Htf Hroom Hd Hod Hne.
  assert (presale_inv s' ∧ covers v s') as [Hinv' Hcov'].
  { clear - Hinv Hcov Hsteps. induction Hsteps as [|s1 s2 s3 _ IH Hstep]; [done|].
    destruct (IH Hinv Hcov). split; [by eapply presale_step_inv, quiet_is_step|by eapply quiet_covers]. }
  split; [done|]. destruct (pi_contribs _ Hinv' _ _ Hct) as [(?&?&?) (sk & [= <- Hb] & _)].
  assert (unclaimed ct ≤ ta_amount va) as Hle.
  { destruct Hcov' as [_ Hle]. rewrite (balance_account _ _ _ Hva) in Hle. etrans; [|exact Hle].
    etrans; [|apply (map_sum_lookup_le _ _ _ _ Hsc); intros; by apply sale_obligation_nonneg].
    unfold obligation. rewrite decide_True by done.
    destruct (pi_sales _ Hinv' _ _ Hsc) as [Hwf _]. pose proof (capacity_nonneg _ Hwf).
    assert (unclaimed ct ≤ owed_in (sale_config_key nonce) (ps_contribs s')); [|lia].
    unfold owed_in. etrans; [|apply (map_sum_lookup_le _ _ _ _ Hct)].
    - simpl. by rewrite decide_True.
    - intros k ct' Hct'. case_decide; [|done].
      destruct (pi_contribs _ Hinv' _ _ Hct') as [(?&?&?) _]. unfold unclaimed. lia. }
  destruct (transfer_checked_succeeds (ps_ledger s') v (open_mint sc) to presale_vault_authority
    (unclaimed ct) d va ta) as [l' Hl']; try (done || lia).
  exists (put_contribution (s' <| ps_ledger := l' |>) (contribution_key (sale_config_key nonce) buyer)
    (mkContribution (ct_buyer ct) (amount_usdc ct) (open_entitlement ct) (open_entitlement ct))).
  eexists. split; [|split; [|split; [apply lookup_insert_eq|unfold unclaimed; simpl; split; [lia|done]]]].
  2: { intros k. simpl. rewrite (transfer_balance _ _ _ _ _ _ _ _ Hl'), decide_False by congruence. done. }
  unfold handle_claim. run_step ltac:(by apply load_Ok). run_step ltac:(by apply load_mint_Ok).
  run_step ltac:(apply load_token_Ok; by rewrite Hv). run_step ltac:(by apply load_Ok).
  run_step ltac:(by apply (require_Ok _ _ ())). run_step ltac:(by apply load_token_Ok).
  do 2 run_step ltac:(by apply (require_Ok _ _ ())).
  run_step ltac:(apply ok_or_Ok, checked_Some; split; [done|unfold unclaimed in *; ilia]).
  run_step ltac:(by apply (require_Ok _ _ ())).
  run_step ltac:(apply ok_or_Ok; rewrite Hv, Hod; exact Hl'). done.
Qed.
End solvency.
