(* ===== verification/PresaleScenario.v ===== *)
(** * PresaleScenario: a concrete sale

    A sale is opened, a wallet contributes, claims, and the sale is finalised;
    and a second sale, opened by a stranger on the same OPEN vault.  The
    theorems of the presale program are instantiated here. *)

From S2P Require Import Prelude Runtime Shared StakingState Presale PresaleInv PresaleTheorems.
From S2P Require Import PresaleSolvency Scenario.
Import PresaleError.

(** A swap program that moves the signer's own tokens. *)
Definition simple_swap (program signer : pubkey) (accounts : list pubkey) (data : list Z)
    (l : simple_ledger) : option simple_ledger :=
  match accounts, data with
  | [from; mint; to], [n] => d ← decimals_of l mint; transfer_checked l from mint to signer n d
  | _, _ => None
  end.

#[export] Program Instance simple_swap_program : SwapProgram simple_ledger :=
  {| swap_invoke := simple_swap |}.
Next Obligation.
  intros program signer accounts data l l' _ Hs Hrun. unfold simple_swap in Hrun.
  destruct accounts as [|from [|mint [|to [|]]]], data as [|n [|]]; try done.
  destruct (decimals_of l mint) as [d|]; [|done]. by eapply transfer_respects.
Qed.

Definition pv : pubkey := Key 90.
Definition THIEF : pubkey := Key 66.
Definition FAKE : pubkey := Key 23.

Definition presale_ledger0 : simple_ledger := mkLedger
  (list_to_map
    [ (pv, holding OPEN presale_vault_authority 100000);
      (Key 91, holding USDC buyer 5000); (Key 92, holding USDC (Key 35) 0);
      (Key 93, holding OPEN buyer 0);
      (Key 96, holding FAKE THIEF 10); (Key 97, holding OPEN THIEF 0) ])
  (list_to_map [ (USDC, 6); (OPEN, 6); (FAKE, 6); (WSOL_MINT, 9) ]).

Definition presale_tx : Type := chain * presale_ix.

#[export] Instance presale_ix_typed_dec (i : presale_ix) : Decision (Presale.ix_typed i).
Proof. destruct i; simpl; unfold sale_params_typed; apply _. Defined.

Definition presale_exec (x : presale_tx) (s : presale_state simple_ledger)
    : result ErrorCode (presale_state simple_ledger) := Presale.process x.1 x.2 s.
Definition presale_typed (x : presale_tx) : bool :=
  bool_decide (i64 (now x.1)) && bool_decide (Presale.ix_typed x.2).
Definition presale_time (x : presale_tx) : Z := now x.1.

Abbreviation presale_after := (after presale_exec (presale_init presale_ledger0)).
Abbreviation presale_runs := (succeeds presale_exec (presale_init presale_ledger0)).

Lemma presale_exec_step (t : Z) x s s' :
  t ≤ presale_time x → presale_typed x = true → presale_exec x s = Ok s' →
  presale_step (t, s).2 (presale_time x, s').2.
Proof.
  unfold presale_typed. rewrite andb_true_iff, !bool_decide_eq_true. intros _ [Hn Hi] Hrun.
  by eapply step_ix.
Qed.

Lemma presale_after_reachable txs :
  timely presale_time presale_typed 0 txs = true → presale_runs txs = true →
  presale_reachable (presale_after txs).
Proof.
  intros Hok Hrun. exists presale_ledger0.
  apply (steps_untimed _ (0, presale_init presale_ledger0) (Prelude.end_time presale_time 0 txs, presale_after txs)).
  eapply after_steps; eauto using presale_exec_step.
Qed.

Lemma presale_after_later a b :
  timely presale_time presale_typed 0 (a ++ b) = true → presale_runs (a ++ b) = true →
  steps presale_step (presale_after a) (presale_after (a ++ b)).
Proof.
  intros Hok Hrun.
  apply (steps_untimed _ (Prelude.end_time presale_time 0 a, presale_after a)
           (Prelude.end_time presale_time 0 (a ++ b), presale_after (a ++ b))).
  eapply after_steps_app; eauto using presale_exec_step.
Qed.

Definition psend (t : Z) (i : presale_ix) : presale_tx := (at_time t, i).

(** The last transaction of a run, as a handler call. *)
Lemma presale_snoc txs t i :
  presale_runs (txs ++ [psend t i]) = true →
  Presale.process (at_time t) i (presale_after txs) = Ok (presale_after (txs ++ [psend t i])).
Proof. apply (after_snoc presale_exec (presale_init presale_ledger0) txs (psend t i)). Qed.

Definition sale_terms : sale_params := mkSaleParams 500 0 10 400 100 100 1000.

Definition sale_opened : list presale_tx :=
  [psend 10 (InitializeSale admin OPEN USDC pv (Key 92) (Key 99) 0 sale_terms 0 [])].
Definition sale_bought : list presale_tx :=
  sale_opened ++ [psend 20 (ContributeUsdc buyer (Key 91) 0 200)].
Definition sale_claimed : list presale_tx := sale_bought ++ [psend 30 (Claim buyer (Key 93) 0)].
Definition sale_swept : list presale_tx := sale_bought ++ [psend 40 (SweepProceeds admin 0 150)].
Definition sale_final : list presale_tx := sale_bought ++ [psend 2000 (FinalizeSale admin 0)].
Definition sale_final_claimed : list presale_tx := sale_final ++ [psend 2001 (Claim buyer (Key 93) 0)].

(** The ledger after a swap that pays the vault, and a delivery. *)
Definition sale_swapped : list presale_tx :=
  sale_opened ++ [psend 20 (ContributeWithSwap buyer WSOL_MINT (Key 99) [Key 91; USDC; usdc_vault_key 0]
    0 50 [60])].
Definition sale_delivered : list presale_tx :=
  sale_opened ++ [psend 20 (DeliverContribution buyer (Key 91) THIEF 0 100)].

Example sale_runs :
  presale_runs sale_claimed = true ∧ presale_runs sale_swept = true ∧
  presale_runs sale_final_claimed = true ∧ presale_runs sale_delivered = true ∧ presale_runs sale_swapped = true.
Proof. by vm_compute. Qed.

Ltac presale_reach := apply presale_after_reachable; by vm_compute.

Definition sk0 : pubkey := sale_config_key 0.
Definition ck0 : pubkey := contribution_key sk0 buyer.
Definition sale_in (txs : list presale_tx) : SaleConfig :=
  default (drain_sale buyer OPEN USDC pv pv pv 0 0 0 0) (ps_sales (presale_after txs) !! sk0).

Lemma sale_in_Some txs :
  bool_decide (is_Some (ps_sales (presale_after txs) !! sk0)) = true →
  ps_sales (presale_after txs) !! sk0 = Some (sale_in txs).
Proof. intros [p Hp]%bool_decide_eq_true. unfold sale_in. by rewrite Hp. Qed.

Lemma presale_books_witness :
  presale_runs sale_bought = true ∧
  total_raised (sale_in sale_bought) = contributed sk0 (ps_contribs (presale_after sale_bought)).
Proof.
  split; [by vm_compute|].
  destruct (presale_books (presale_after sale_bought)) as [Hs _]; [presale_reach|].
  destruct (Hs sk0 (sale_in sale_bought)) as [Hr _]; [|exact Hr].
  apply sale_in_Some. by vm_compute.
Defined.

Lemma contribution_is_backed_witness :
  presale_runs sale_swapped = true ∧
  ∃ sc', ps_sales (presale_after sale_swapped) !! sk0 = Some sc'.
Proof.
  split; [by vm_compute|].
  destruct (contribution_is_backed (at_time 20)
    (ContributeWithSwap buyer WSOL_MINT (Key 99) [Key 91; USDC; usdc_vault_key 0] 0 50 [60])
    (presale_after sale_opened) (presale_after sale_swapped) buyer 0)
    as (sc & sc' & ct' & n & _ & Hsc' & _).
  - presale_reach.
  - apply (bool_decide_unpack _). by vm_compute.
  - reflexivity.
  - refine (presale_snoc sale_opened 20 _ _). by vm_compute.
  - exists sc'. exact Hsc'.
Defined.

Lemma claim_pays_rest_witness :
  presale_runs sale_claimed = true ∧
  ∀ to' s'', handle_claim buyer to' 0 (presale_after sale_claimed) ≠ Ok s''.
Proof.
  split; [by vm_compute|].
  destruct (claim_pays_rest buyer (Key 93) 0 (presale_after sale_bought) (presale_after sale_claimed))
    as (sc & ct & ct' & ta & _ & _ & _ & _ & _ & _ & _ & _ & _ & _ & Hagain).
  - presale_reach.
  - refine (presale_snoc sale_bought 30 (Claim buyer (Key 93) 0) _). by vm_compute.
  - exact Hagain.
Defined.

Lemma proceeds_reach_treasury_witness :
  presale_runs sale_swept = true ∧
  balance (ps_ledger (presale_after sale_swept)) (treasury (sale_in sale_bought))
    - balance (ps_ledger (presale_after sale_bought)) (treasury (sale_in sale_bought)) =
  balance (ps_ledger (presale_after sale_bought)) (usdc_vault (sale_in sale_bought))
    - balance (ps_ledger (presale_after sale_swept)) (usdc_vault (sale_in sale_bought)).
Proof.
  split; [by vm_compute|].
  destruct (proceeds_reach_treasury (presale_after sale_bought) (presale_after sale_swept) 0
    (sale_in sale_bought)) as [_ Hbal].
  - presale_reach.
  - apply (Presale.step_ix (at_time 40) (SweepProceeds admin 0 150)).
    + apply (bool_decide_unpack _). by vm_compute.
    + apply (bool_decide_unpack _). by vm_compute.
    + refine (presale_snoc sale_bought 40 _ _). by vm_compute.
  - apply sale_in_Some. by vm_compute.
  - by vm_compute.
  - exact Hbal.
Defined.

Lemma finalized_is_terminal_witness :
  presale_runs sale_final_claimed = true ∧
  ps_sales (presale_after sale_final_claimed) !! sk0 = Some (sale_in sale_final).
Proof.
  split; [by vm_compute|].
  destruct (finalized_is_terminal (presale_after sale_final) (presale_after sale_final_claimed) 0
    (sale_in sale_final) buyer) as [Hs _].
  - presale_reach.
  - apply presale_after_later; by vm_compute.
  - apply sale_in_Some. by vm_compute.
  - by vm_compute.
  - exact Hs.
Defined.

(** The stranger of the theorem, against a vault the first sale relies on. *)
Definition thief_vault : simple_ledger :=
  default presale_ledger0 (create_token_account (ps_ledger (presale_after sale_bought))
    (usdc_vault_key 1) FAKE (sale_config_key 1)).

Lemma thief_vault_created :
  create_token_account (ps_ledger (presale_after sale_bought)) (usdc_vault_key 1) FAKE (sale_config_key 1)
  = Some thief_vault.
Proof.
  unfold thief_vault.
  assert (from_option (λ _, true) false (create_token_account (ps_ledger (presale_after sale_bought))
    (usdc_vault_key 1) FAKE (sale_config_key 1)) = true) as Hs by (by vm_compute).
  by destruct (create_token_account _ _ _ _).
Qed.

Lemma stranger_drains_presale_witness :
  presale_runs sale_bought = true ∧
  ∃ s1 s2 s3,
    Presale.process (at_time 700)
      (InitializeSale THIEF OPEN FAKE pv (Key 96) (Key 99) 1 (drain_params 100000 700) 0 [])
      (presale_after sale_bought) = Ok s1 ∧
    Presale.process (at_time 700) (ContributeUsdc THIEF (Key 96) 1 1) s1 = Ok s2 ∧
    Presale.process (at_time 700) (Claim THIEF (Key 97) 1) s2 = Ok s3 ∧
    balance (ps_ledger s3) pv = 0 ∧
    balance (ps_ledger s3) (Key 97) =
      balance (ps_ledger (presale_after sale_bought)) (Key 97)
      + balance (ps_ledger (presale_after sale_bought)) pv.
Proof.
  split; [by vm_compute|].
  apply (stranger_drains_presale (at_time 700) (presale_after sale_bought) pv OPEN FAKE THIEF
    (Key 96) (Key 97) (Key 99) 1 6 (holding OPEN presale_vault_authority 100000)
    (holding FAKE THIEF 10) (holding OPEN THIEF 0) thief_vault).
  all: lazymatch goal with
    | |- ¬ wallet_is_banned _ => exact empty_not_banned
    | |- create_token_account _ _ _ _ = _ => exact thief_vault_created
    | |- _ => by vm_compute
    end.
Defined.

(** From the opening of the sale, through a purchase, to the claim. *)
Lemma covered_sale_pays_witness :
  presale_runs sale_bought = true ∧
  ∃ s'', handle_claim buyer (Key 93) 0 (presale_after sale_bought) = Ok s'' ∧
    balance (ps_ledger s'') (Key 93) = 20000 ∧ balance (ps_ledger s'') pv = 80000.
Proof.
  split; [by vm_compute|].
  destruct (covered_sale_pays (presale_after sale_opened) (presale_after sale_bought) pv 0
    (sale_in sale_bought) buyer (mkContribution buyer 200 20000 0) (Key 93) (holding OPEN buyer 0)
    (holding OPEN presale_vault_authority 100000) 6) as (_ & s'' & ct'' & Hc & Hbal & _).
  - presale_reach.
  - split.
    + exists OPEN, (holding OPEN presale_vault_authority 100000). by vm_compute.
    + by vm_compute.
  - eapply steps_snoc; [apply steps_refl|].
    apply (quiet_ix (at_time 20) (ContributeUsdc buyer (Key 91) 0 200)).
    + done.
    + by vm_compute.
    + done.
    + apply (presale_snoc sale_opened). by vm_compute.
  - apply sale_in_Some. by vm_compute.
  - by vm_compute.
  - by vm_compute.
  - by vm_compute.
  - by vm_compute.
  - by vm_compute.
  - by vm_compute.
  - by vm_compute.
  - by vm_compute.
  - by vm_compute.
  - by vm_compute.
  - by vm_compute.
  - by vm_compute.
  - by vm_compute.
  - by vm_compute.
  - by vm_compute.
  - exists s''. split; [exact Hc|]. rewrite !Hbal. split; by vm_compute.
Defined.
