(* ===== verification/BanGate.v ===== *)
(** * BanGate: the ban list as the other programs see it

    Governance writes ban records; escrow, staking, presale and governance
    itself read them before money comes in.  Here the record governance holds
    is what the others find at the wallet's ban address. *)

From S2P Require Import Prelude Runtime Shared StakingState Staking EscrowState Fees Trade.
From S2P Require Import Dispute Escrow GovernanceState Governance GovernanceInv GovernanceHistory.
From S2P Require Import Presale PresaleInv Scenario GovernanceScenario PresaleScenario.

(** The wallet whose ban record an instruction asks for. *)
Definition escrow_gate (i : escrow_ix) : option pubkey :=
  match i with
  | DepositLiquidity m _ _ _ | ReserveLiquidity m _ _ | CreateTradeEscrow m _ _ _ _ _ => Some m
  | OpenDisputeCase w _ _ _ _ => Some w
  | _ => None
  end.

Definition staking_gate (i : staking_ix) : option pubkey :=
  match i with Stake w _ _ _ _ | FundRewardsVault w _ _ _ => Some w | _ => None end.

Definition presale_gate (i : presale_ix) : option pubkey :=
  match i with
  | ContributeUsdc w _ _ _ | ContributeWithSwap w _ _ _ _ _ _ | DeliverContribution _ _ w _ _ => Some w
  | _ => None
  end.

Definition governance_gate (i : gov_ix) : option pubkey :=
  match i with CreateProposal w _ _ _ _ _ _ _ _ => Some w | _ => None end.

Section gate.
Context {L : Type} `{SwapProgram L} `{Hashing}.
Implicit Types (g : gov_state L) (c : chain).

(** What the chain shows at ban addresses is what governance recorded. *)
Definition reads_bans c g : Prop := ∀ w, info_at c (ban_record_key w) = ban_info g w.

Lemma listed_is_banned g w b :
  gs_bans g !! ban_record_key w = Some b → wallet_is_banned (ban_info g w).
Proof. intros Hb. unfold ban_info. rewrite Hb. by right. Qed.

Lemma unlisted_not_banned g w :
  gs_bans g !! ban_record_key w = None → ¬ wallet_is_banned (ban_info g w).
Proof. intros Hb. unfold ban_info. rewrite Hb. apply empty_not_banned. Qed.

(** One ban record closes every way in.  While governance lists a wallet, no
    program accepts from it a deposit, a reservation, a trade, a dispute, a
    stake, a reward contribution, a token purchase or a proposal: each of those
    instructions fails, in whatever state its program is. *)
Theorem ban_closes_deposits c g w b (es : escrow_state L) (st : staking_state L)
    (ps : presale_state L) sv scfg stakes :
  gs_bans g !! ban_record_key w = Some b → reads_bans c g →
  (∀ i es', escrow_gate i = Some w → Escrow.process c sv i es ≠ Ok es') ∧
  (∀ i st', staking_gate i = Some w → Staking.process c i st ≠ Ok st') ∧
  (∀ i ps', presale_gate i = Some w → Presale.process c i ps ≠ Ok ps') ∧
  (∀ i g', governance_gate i = Some w → Governance.process c scfg stakes i g ≠ Ok g').
Proof.
  intros Hb Hr. pose proof (listed_is_banned _ _ _ Hb) as Hban. rewrite <-(Hr w) in Hban.
  split_and!; intros i s' Hi Hrun; destruct i; simplify_eq/=.
  - unfold handle_deposit_liquidity in Hrun. inv_run. done.
  - unfold handle_reserve_liquidity in Hrun. inv_run. done.
  - unfold handle_create_trade_escrow in Hrun. inv_run. done.
  - unfold handle_open_dispute_case in Hrun. inv_run. done.
  - unfold handle_stake in Hrun. inv_run. done.
  - unfold handle_fund_rewards_vault in Hrun. inv_run. done.
  - unfold handle_contribute_usdc in Hrun. inv_run. done.
  - unfold handle_contribute_with_swap in Hrun. inv_run. done.
  - unfold handle_deliver_contribution in Hrun. inv_run. done.
  - unfold handle_create_proposal in Hrun. inv_run. rewrite <-(Hr w) in *. done.
Qed.

(** Two views of the chain that differ at most in ban records. *)
Record same_but_bans c c' : Prop := {
  sb_now : now c' = now c;
  sb_slots : slot_hashes c' = slot_hashes c;
  sb_info : ∀ k, (∀ w, k ≠ ban_record_key w) → info_at c' k = info_at c k;
}.

(** A ban never locks a wallet's money in.  Every instruction that is not one
    of the gated ones, withdrawals, unstaking, claims, settlements, votes and
    reveals among them, gives the same result whatever the ban list says. *)
Theorem ban_leaves_exits_open c c' (es : escrow_state L) (st : staking_state L)
    (ps : presale_state L) sv :
  same_but_bans c c' →
  (∀ i, escrow_gate i = None → Escrow.process c' sv i es = Escrow.process c sv i es) ∧
  (∀ i, staking_gate i = None → Staking.process c' i st = Staking.process c i st) ∧
  (∀ i, presale_gate i = None → Presale.process c' i ps = Presale.process c i ps).
Proof.
  intros [Hn Hs Hi]. destruct c as [n inf sl], c' as [n' inf' sl']; simpl in Hn, Hs; subst n' sl'.
  split_and!; intros i Hg; destruct i; try done; cbn [Staking.process].
  - unfold handle_withdraw_unstaked. cbn [info_at now].
    assert (inf' (recovery_claim_key owner mint) = inf (recovery_claim_key owner mint)) as ->
      by (by apply Hi). done.
  - unfold handle_recover_stake_shortfall. cbn [info_at now].
    repeat (apply bind_ext; intros).
    assert (∀ m, inf' (recovery_claim_key m mint) = inf (recovery_claim_key m mint)) as ->
      by (intros; by apply Hi). done.
Qed.
End gate.

(** ** At a concrete run: governance has listed a wallet *)

Definition ban_chain (t : Z) (g : gov_state simple_ledger) : chain :=
  mkChain t (λ k, match k with PdaKey GOVERNANCE BAN_SEED w => ban_info g w | _ => empty_info end)
    (to_le 8 1 ++ replicate 40 9).

Lemma ban_chain_reads t g : reads_bans (ban_chain t g) g.
Proof. by intros w. Qed.

Lemma ban_closes_deposits_witness :
  gov_runs gov_listed = true ∧
  ∀ i st', staking_gate i = Some culprit →
    Staking.process (ban_chain 300 (gov_after gov_listed)) i
      (mkStaking (EscrowState.sv_config staking0) ∅ ∅ gov_ledger0 []) ≠ Ok st'.
Proof.
  split; [by vm_compute|].
  destruct (ban_closes_deposits (ban_chain 300 (gov_after gov_listed)) (gov_after gov_listed) culprit
    (mkBan culprit StolenFunds evidence 200 pk1) (escrow_init gov_ledger0)
    (mkStaking (EscrowState.sv_config staking0) ∅ ∅ gov_ledger0 []) (presale_init gov_ledger0)
    staking0 None ∅) as (_ & Hst & _).
  - by vm_compute.
  - apply ban_chain_reads.
  - exact Hst.
Defined.

Lemma ban_leaves_exits_open_witness :
  gov_runs gov_listed = true ∧
  ∀ i, presale_gate i = None →
    Presale.process (ban_chain 300 (gov_after gov_listed)) i (presale_init gov_ledger0) =
    Presale.process (at_time 300) i (presale_init gov_ledger0).
Proof.
  split; [by vm_compute|].
  destruct (ban_leaves_exits_open (at_time 300) (ban_chain 300 (gov_after gov_listed))
    (escrow_init gov_ledger0) (mkStaking None ∅ ∅ gov_ledger0 []) (presale_init gov_ledger0) staking0)
    as (_ & _ & Hps).
  - split; [done|done|]. intros k Hk. unfold ban_chain, at_time; simpl.
    destruct k as [|p t|p t a| | |]; try done. destruct p, t; try done.
    exfalso. by apply (Hk a).
  - exact Hps.
Defined.
