(* ===== verification/Peers.v ===== *)
(** * Peers: what every crate of the node shares

    Identities and their byte order ([crates/types/src/identity.rs]), the
    signing preimage ([crates/serialization/src/domain.rs]), and arithmetic that
    aborts on overflow, which the workspace's release profile turns on. *)

From stdpp Require Import sorting.
From S2P Require Import Prelude Runtime.

(** ** Arithmetic under overflow checks *)

(** A plain operator on an integer of width [W]. *)
Definition or_panic {E} (W : Z → Prop) `{∀ z, Decision (W z)} (z : Z) : result E Z :=
  ok_or (checked W z) Panic.

Lemma or_panic_Ok {E} (W : Z → Prop) `{∀ z, Decision (W z)} (z r : Z) :
  or_panic (E:=E) W z = Ok r ↔ r = z ∧ W z.
Proof. unfold or_panic. by rewrite ok_or_Ok, checked_Some. Qed.

Lemma or_panic_fits {E} (W : Z → Prop) `{∀ z, Decision (W z)} (z : Z) :
  W z → or_panic (E:=E) W z = Ok z.
Proof. intros. by apply or_panic_Ok. Qed.

Definition saturating_mul_u64 (a b : Z) : Z := Z.min U64_MAX (a * b).

(** [as u32] keeps the low 32 bits. *)
Definition as_u32 (z : Z) : Z := z mod 4294967296.

(** ** Identities

    A peer identifier is the byte string libp2p derives from a public key. *)

Definition PeerId : Type := list Z.
Definition PublicKey : Type := list Z.
Definition Signature : Type := list Z.
Definition Timestamp : Type := Z.

(** Comparison of byte strings. *)
Fixpoint bytes_leb (a b : list Z) : bool :=
  match a, b with
  | [], _ => true
  | _ :: _, [] => false
  | x :: a, y :: b => (x <? y) || ((x =? y) && bytes_leb a b)
  end.
Definition bytes_le (a b : list Z) : Prop := bytes_leb a b = true.

#[export] Instance bytes_le_dec a b : Decision (bytes_le a b).
Proof. unfold bytes_le. apply _. Defined.

Lemma bytes_leb_cons x y a b :
  bytes_leb (x :: a) (y :: b) = true ↔ x < y ∨ x = y ∧ bytes_leb a b = true.
Proof. simpl. rewrite orb_true_iff, andb_true_iff, Z.ltb_lt, Z.eqb_eq. done. Qed.

#[export] Instance bytes_le_total : Total bytes_le.
Proof.
  intros a. unfold bytes_le. induction a as [|x a IH]; intros [|y b]; auto.
  rewrite !bytes_leb_cons. destruct (IH b), (Z.lt_total x y) as [?|[?|?]]; auto.
Qed.

#[export] Instance bytes_le_trans : Transitive bytes_le.
Proof.
  intros a. unfold bytes_le. induction a as [|x a IH]; intros [|y b] [|z c]; try done.
  rewrite !bytes_leb_cons. intros [?|[-> ?]] [?|[-> ?]]; [left; lia|by left|by left|].
  right. split; [done|]. by eapply IH.
Qed.

#[export] Instance bytes_le_antisymm : AntiSymm (=) bytes_le.
Proof.
  intros a. unfold bytes_le. induction a as [|x a IH]; intros [|y b]; try done.
  rewrite !bytes_leb_cons. intros [?|[-> ?]] [?|[? ?]]; try lia. f_equal. by apply IH.
Qed.

(** ** Signed statements

    What is signed is the statement's type tag, its length first, followed by
    the statement's JSON. *)

Definition to_be_u16 (n : Z) : list Z := reverse (to_le 2 n).
Definition to_be_u32 (n : Z) : list Z := reverse (to_le 4 n).
Definition to_be_u64 (n : Z) : list Z := reverse (to_le 8 n).

Definition preimage_raw (tag : string) (body : list Z) : list Z :=
  to_be_u32 (as_u32 (Z.of_nat (length (bytes_of tag)))) ++ bytes_of tag ++ body.

Lemma bytes_of_inj s s' : bytes_of s = bytes_of s' → s = s'.
Proof.
  unfold bytes_of. intros Heq.
  rewrite <-(String.string_of_list_ascii_of_string s), <-(String.string_of_list_ascii_of_string s').
  f_equal. revert Heq. apply list_fmap_eq_inj. intros a a' Ha%N2Z.inj.
  rewrite <-(Ascii.ascii_N_embedding a), <-(Ascii.ascii_N_embedding a'). by f_equal.
Qed.

Lemma to_be_inj w n m :
  0 ≤ n < 256 ^ Z.of_nat w → 0 ≤ m < 256 ^ Z.of_nat w → reverse (to_le w n) = reverse (to_le w m) → n = m.
Proof. intros Hn Hm Heq%(inj reverse). by rewrite <-(from_to_le w n), <-(from_to_le w m), Heq by done. Qed.

Lemma to_be_u16_inj n m : u16 n → u16 m → to_be_u16 n = to_be_u16 m → n = m.
Proof. intros Hn Hm. apply to_be_inj; ilia. Qed.

Lemma to_be_u32_inj n m : u32 n → u32 m → to_be_u32 n = to_be_u32 m → n = m.
Proof. intros Hn Hm. apply to_be_inj; ilia. Qed.

Lemma to_be_u64_inj n m : u64 n → u64 m → to_be_u64 n = to_be_u64 m → n = m.
Proof. intros Hn Hm. apply to_be_inj; ilia. Qed.

(** Two statements with the same preimage have the same tag and the same
    body: the length prefix leaves no room for another reading. *)
Lemma preimage_raw_inj t t' b b' :
  u32 (Z.of_nat (length (bytes_of t))) → u32 (Z.of_nat (length (bytes_of t'))) →
  preimage_raw t b = preimage_raw t' b' → t = t' ∧ b = b'.
Proof.
  intros Ht Ht'. unfold preimage_raw, as_u32.
  rewrite !Z.mod_small by ilia. intros Heq.
  apply app_inj_1 in Heq as [Hlen Heq];
    [|unfold to_be_u32; by rewrite !length_reverse, !to_le_length].
  apply to_be_u32_inj, Nat2Z.inj in Hlen; [|done|done].
  apply app_inj_1 in Heq as [Htag ->]; [|done]. split; [|done]. by apply bytes_of_inj.
Qed.

(** ** Strings joined by a colon *)

Lemma bytes_of_append s t : bytes_of (String.append s t) = bytes_of s ++ bytes_of t.
Proof.
  unfold bytes_of. induction s as [|c s IH]; [done|].
  change (String.append (String c s) t) with (String c (String.append s t)). cbn. by rewrite IH.
Qed.

(** The last colon splits. *)
Lemma last_colon (l1 l2 r1 r2 : list Z) :
  58 ∉ r1 → 58 ∉ r2 → l1 ++ 58 :: r1 = l2 ++ 58 :: r2 → l1 = l2 ∧ r1 = r2.
Proof.
  revert l2. induction l1 as [|a l1 IH]; intros [|b l2] Hr1 Hr2 Heq; simplify_eq/=; [done|..].
  - exfalso. apply Hr1. set_solver.
  - exfalso. apply Hr2. set_solver.
  - destruct (IH l2) as [-> ->]; done.
Qed.

(** The first colon splits. *)
Lemma first_colon (l1 l2 r1 r2 : list Z) :
  58 ∉ l1 → 58 ∉ l2 → l1 ++ 58 :: r1 = l2 ++ 58 :: r2 → l1 = l2 ∧ r1 = r2.
Proof.
  revert l2. induction l1 as [|a l1 IH]; intros [|b l2] Hl1 Hl2 Heq; simplify_eq/=; [done|..].
  - exfalso. apply Hl2. set_solver.
  - exfalso. apply Hl1. set_solver.
  - destruct (IH l2) as [-> ->]; [set_solver..|done|done].
Qed.
