(* ===== verification/Rewards.v ===== *)
(** * Rewards: what each node operator is owed for an epoch

    Models [crates/rewards/src]: the parameters and their validation, the
    ledger of what a node observed of its peers, the schedule computed from it,
    and the record of epochs already paid.  A hash map is iterated in an
    unspecified order, so the schedule is defined over any enumeration of the
    epoch's observations. *)

From stdpp Require Import sorting.
From S2P Require Import Prelude Runtime Peers.

(** ** Parameters *)

Definition BPS_DENOMINATOR : Z := 10000.

Record RewardParams := mkRewardParams {
  epoch_millis : Z;
  availability_buckets : Z;
  per_epoch_emission : Z;
  connectivity_rpc_bps : Z;
  connectivity_gossip_bps : Z;
  pinning_serving_bps : Z;
  pinning_absent_bps : Z;
  min_stake : Z;
}.

Inductive InvalidParams := ZeroEpoch | ZeroBuckets | MultiplierAboveOne.

Definition default_params : RewardParams :=
  mkRewardParams (24 * 60 * 60 * 1000) 24 (82192 * 1000000) BPS_DENOMINATOR 4000
    BPS_DENOMINATOR 7000 (1000 * 1000000).

Definition epoch_index (p : RewardParams) (at_ : Timestamp) : Z := at_ / Z.max (epoch_millis p) 1.

Definition epoch_bounds (p : RewardParams) (epoch : Z) : Z * Z :=
  let start := saturating_mul_u64 epoch (epoch_millis p) in
  (start, saturating_add_u64 start (epoch_millis p)).

Definition validate (p : RewardParams) : result InvalidParams unit :=
  _ ← require (epoch_millis p ≠ 0) (Code ZeroEpoch);
  _ ← require (availability_buckets p ≠ 0) (Code ZeroBuckets);
  require (¬ (BPS_DENOMINATOR < connectivity_rpc_bps p ∨ BPS_DENOMINATOR < connectivity_gossip_bps p
    ∨ BPS_DENOMINATOR < pinning_serving_bps p ∨ BPS_DENOMINATOR < pinning_absent_bps p))
    (Code MultiplierAboveOne).

(** ** Observations *)

Record PeerLiveness := mkPeerLiveness {
  buckets_seen : gset Z;
  announced_blockhash : bool;
  served_content : bool;
}.
#[export] Instance PeerLiveness_eta : Settable PeerLiveness := fun r =>
  mkPeerLiveness (buckets_seen r) (announced_blockhash r) (served_content r).

Definition no_liveness : PeerLiveness := mkPeerLiveness ∅ false false.

Definition availability_bps (live : PeerLiveness) (p : RewardParams) : Z :=
  let buckets := Z.max (availability_buckets p) 1 in
  let seen := Z.of_nat (size (buckets_seen live)) in
  (Z.min seen buckets * BPS_DENOMINATOR) / buckets.

Definition connectivity_bps (live : PeerLiveness) (p : RewardParams) : Z :=
  if announced_blockhash live then connectivity_rpc_bps p else connectivity_gossip_bps p.

Definition pinning_bps (live : PeerLiveness) (p : RewardParams) : Z :=
  if served_content live then pinning_serving_bps p else pinning_absent_bps p.

Abbreviation LivenessLedger := (gmap Z (gmap PeerId PeerLiveness)).

Definition epoch_of (l : LivenessLedger) (epoch : Z) : gmap PeerId PeerLiveness := default ∅ (l !! epoch).

Definition observe (l : LivenessLedger) (p : RewardParams) (origin : PeerId) (observed_at : Timestamp)
    (is_blockhash_announcement : bool) : LivenessLedger :=
  let epoch := epoch_index p observed_at in
  let start := (epoch_bounds p epoch).1 in
  let elapsed := saturating_sub_u64 observed_at start in
  let slice := epoch_millis p / Z.max (availability_buckets p) 1 in
  let bucket := as_u32 (elapsed / Z.max slice 1) in
  let entry := default no_liveness (epoch_of l epoch !! origin) in
  let entry := entry <| buckets_seen := {[ Z.min bucket (Z.max 0 (availability_buckets p - 1)) ]}
                          ∪ buckets_seen entry |>
                     <| announced_blockhash := announced_blockhash entry || is_blockhash_announcement |> in
  <[epoch := <[origin := entry]> (epoch_of l epoch)]> l.

Definition observe_content_served (l : LivenessLedger) (p : RewardParams) (peer : PeerId)
    (observed_at : Timestamp) : LivenessLedger :=
  let l := observe l p peer observed_at false in
  let epoch := epoch_index p observed_at in
  match epoch_of l epoch !! peer with
  | Some entry => <[epoch := <[peer := entry <| served_content := true |>]> (epoch_of l epoch)]> l
  | None => l
  end.

Definition prune_through (l : LivenessLedger) (epoch : Z) : LivenessLedger :=
  filter (λ kv, epoch < kv.1) l.

(** Ascending, as the ordered map iterates. *)
Definition epochs_held (l : LivenessLedger) : list Z := merge_sort Z.le (map_to_list l).*1.

(** ** The schedule *)

Record Eligibility := mkEligibility {
  effective_stake : Z;
  registered : bool;
  stake_account : string;
}.

Record RewardEntry := mkRewardEntry {
  re_peer : PeerId;
  re_amount : Z;
  re_effective_stake : Z;
  re_connectivity_bps : Z;
  re_availability_bps : Z;
  re_pinning_bps : Z;
}.

Record RewardSchedule := mkRewardSchedule {
  rs_epoch : Z;
  rs_emission : Z;
  rs_entries : list RewardEntry;
  rs_dust : Z;
}.

Definition total (s : RewardSchedule) : Z := sum_list (re_amount <$> rs_entries s).

Record candidate := mkCandidate { c_entry : RewardEntry; c_weight : Z }.

Definition peers_per_stake (elig : gmap PeerId Eligibility) (account : string) : Z :=
  Z.of_nat (size (filter (λ kv, stake_account kv.2 = account) elig)).

(** One turn of the loop that weighs the observed nodes; [None] is
    [continue]. *)
Definition weigh (p : RewardParams) (elig : gmap PeerId Eligibility) (peer : PeerId)
    (live : PeerLiveness) : result InvalidParams (option candidate) :=
  match elig !! peer with
  | None => Ok None
  | Some el =>
      if decide (registered el = false ∨ effective_stake el < min_stake p) then Ok None else
      if decide (1 < peers_per_stake elig (stake_account el)) then Ok None else
      let c := connectivity_bps live p in
      let a := availability_bps live p in
      let g := pinning_bps live p in
      ca ← or_panic u128 (c * a);
      cag ← or_panic u128 (ca * g);
      let quality_bps := cag / (BPS_DENOMINATOR * BPS_DENOMINATOR) in
      weight ← or_panic u128 (effective_stake el * quality_bps);
      if decide (weight = 0) then Ok None
      else Ok (Some (mkCandidate (mkRewardEntry peer 0 (effective_stake el) c a g) weight))
  end.

Fixpoint weigh_all (p : RewardParams) (elig : gmap PeerId Eligibility)
    (observed : list (PeerId * PeerLiveness)) (weights : list candidate) (total_weight : Z)
    : result InvalidParams (list candidate * Z) :=
  match observed with
  | [] => Ok (weights, total_weight)
  | (peer, live) :: rest =>
      o ← weigh p elig peer live;
      match o with
      | None => weigh_all p elig rest weights total_weight
      | Some c =>
          t ← or_panic u128 (total_weight + c_weight c);
          weigh_all p elig rest (weights ++ [c]) t
      end
  end.

(** The loop that turns weights into amounts. *)
Fixpoint assign_all (emission total_weight : Z) (weights : list candidate) (entries : list RewardEntry)
    (assigned : Z) : result InvalidParams (list RewardEntry * Z) :=
  match weights with
  | [] => Ok (entries, assigned)
  | c :: rest =>
      m ← or_panic u128 (emission * c_weight c);
      let amount := as_u64 (m / total_weight) in
      if decide (amount = 0) then assign_all emission total_weight rest entries assigned
      else
        let e := c_entry c in
        assign_all emission total_weight rest
          (entries ++ [mkRewardEntry (re_peer e) amount (re_effective_stake e) (re_connectivity_bps e)
             (re_availability_bps e) (re_pinning_bps e)])
          (saturating_add_u64 assigned amount)
  end.

Definition entry_le (a b : RewardEntry) : Prop := bytes_le (re_peer a) (re_peer b).
#[export] Instance entry_le_dec a b : Decision (entry_le a b).
Proof. unfold entry_le. apply _. Defined.

(** The schedule of one epoch, its observations iterated in the given order. *)
Definition compute_in (p : RewardParams) (observed : list (PeerId * PeerLiveness))
    (elig : gmap PeerId Eligibility) (epoch bootstrap_remaining : Z)
    : result InvalidParams RewardSchedule :=
  _ ← validate p;
  let emission := Z.min (per_epoch_emission p) bootstrap_remaining in
  '(weights, total_weight) ← weigh_all p elig observed [] 0;
  if decide (total_weight = 0 ∨ emission = 0) then Ok (mkRewardSchedule epoch emission [] emission)
  else
    '(entries, assigned) ← assign_all emission total_weight weights [] 0;
    Ok (mkRewardSchedule epoch emission (merge_sort entry_le entries)
          (saturating_sub_u64 emission assigned)).

Definition compute (p : RewardParams) (l : LivenessLedger) (elig : gmap PeerId Eligibility)
    (epoch bootstrap_remaining : Z) : result InvalidParams RewardSchedule :=
  compute_in p (map_to_list (epoch_of l epoch)) elig epoch bootstrap_remaining.

(** ** Epochs already paid *)

Abbreviation PaidEpochs := (gset Z).

Definition is_paid (paid : PaidEpochs) (epoch : Z) : bool := bool_decide (epoch ∈ paid).

Definition mark_paid (paid : PaidEpochs) (epoch : Z) : PaidEpochs * bool :=
  ({[ epoch ]} ∪ paid, negb (is_paid paid epoch)).

Definition payable_epochs (p : RewardParams) (l : LivenessLedger) (paid : PaidEpochs) (now : Timestamp)
    : list Z :=
  filter (λ e, e < epoch_index p now ∧ is_paid paid e = false) (epochs_held l).
