(* ===== verification/Schedule.v ===== *)
(** * Schedule: a reward schedule is exact, reproducible and final

    What [Rewards.compute] gives: the emission is divided without loss, the
    result does not depend on the order a hash map is walked in, the
    arithmetic stays within its width, and a closed epoch's schedule is fixed
    and paid once. *)

From stdpp Require Import sorting.
From S2P Require Import Prelude Runtime Peers Rewards.

(** Inputs at their machine widths. *)
Definition params_typed (p : RewardParams) : Prop :=
  u64 (epoch_millis p) ∧ u32 (availability_buckets p) ∧ u64 (per_epoch_emission p) ∧
  u64 (connectivity_rpc_bps p) ∧ u64 (connectivity_gossip_bps p) ∧ u64 (pinning_serving_bps p) ∧
  u64 (pinning_absent_bps p) ∧ u64 (min_stake p).
#[export] Instance params_typed_dec p : Decision (params_typed p).
Proof. unfold params_typed. apply _. Defined.

Definition elig_typed (elig : gmap PeerId Eligibility) : Prop :=
  map_Forall (λ _ el, u64 (effective_stake el)) elig.
#[export] Instance elig_typed_dec elig : Decision (elig_typed elig).
Proof. unfold elig_typed. apply _. Defined.

(** The product of the three multipliers, on the basis-point scale. *)
Definition quality (p : RewardParams) (live : PeerLiveness) : Z :=
  connectivity_bps live p * availability_bps live p * pinning_bps live p
    / (BPS_DENOMINATOR * BPS_DENOMINATOR).

(** A node that takes part: known to the registry, staked, and the only one
    on its stake account. *)
Definition takes_part (p : RewardParams) (elig : gmap PeerId Eligibility) (peer : PeerId)
    (el : Eligibility) : Prop :=
  elig !! peer = Some el ∧ registered el = true ∧ min_stake p ≤ effective_stake el ∧
  ∀ peer' el', elig !! peer' = Some el' → stake_account el' = stake_account el → peer' = peer.

(** A node's weight, and the weight of the epoch. *)
Definition weight_of (p : RewardParams) (elig : gmap PeerId Eligibility) (peer : PeerId)
    (live : PeerLiveness) : Z :=
  match elig !! peer with
  | Some el =>
      if decide (registered el = false ∨ effective_stake el < min_stake p) then 0 else
      if decide (1 < peers_per_stake elig (stake_account el)) then 0
      else effective_stake el * quality p live
  | None => 0
  end.

Definition epoch_weight (p : RewardParams) (elig : gmap PeerId Eligibility)
    (observed : list (PeerId * PeerLiveness)) : Z :=
  sum_list ((λ x, weight_of p elig x.1 x.2) <$> observed).

(** ** The multipliers *)

Lemma mul_range a b A B : 0 ≤ a ≤ A → 0 ≤ b ≤ B → 0 ≤ a * b ≤ A * B.
Proof. nia. Qed.

Lemma availability_range live p :
  0 ≤ availability_buckets p → 0 ≤ availability_bps live p ≤ BPS_DENOMINATOR.
Proof.
  intros Hb. unfold availability_bps, BPS_DENOMINATOR. split; [apply Z.div_pos; lia|].
  apply Z.div_le_upper_bound; nia.
Qed.

Lemma validate_Ok p u :
  validate p = Ok u ↔ epoch_millis p ≠ 0 ∧ availability_buckets p ≠ 0 ∧
    connectivity_rpc_bps p ≤ BPS_DENOMINATOR ∧ connectivity_gossip_bps p ≤ BPS_DENOMINATOR ∧
    pinning_serving_bps p ≤ BPS_DENOMINATOR ∧ pinning_absent_bps p ≤ BPS_DENOMINATOR.
Proof.
  unfold validate. split.
  - intros H. inv_ok. split; [done|]. split; [done|]. repeat split; lia.
  - intros (? & ? & ? & ? & ? & ?). rewrite !require_true by done. apply require_Ok. lia.
Qed.

Section schedule.
Context (p : RewardParams) (elig : gmap PeerId Eligibility).
Implicit Types (observed : list (PeerId * PeerLiveness)) (ws : list candidate).

Lemma peers_per_stake_alone peer el :
  elig !! peer = Some el → peers_per_stake elig (stake_account el) ≤ 1 →
  ∀ peer' el', elig !! peer' = Some el' → stake_account el' = stake_account el → peer' = peer.
Proof.
  intros Hel Hle peer' el' Hel' Hacc. destruct (decide (peer' = peer)) as [|Hne]; [done|].
  unfold peers_per_stake in Hle.
  set (m := filter (λ kv, stake_account kv.2 = stake_account el) elig) in *.
  assert (m !! peer = Some el) as Hm by (apply map_lookup_filter_Some; done).
  assert (m !! peer' = Some el') as Hm' by (apply map_lookup_filter_Some; done).
  assert (size m = S (size (delete peer m))) as Hs.
  { rewrite map_size_delete_Some by eauto.
    assert (size m ≠ 0%nat) by (eapply map_size_ne_0_lookup_2; eauto). lia. }
  assert (size (delete peer m) ≠ 0%nat); [|lia].
  apply (map_size_ne_0_lookup_2 _ peer'). rewrite lookup_delete_ne by done. eauto.
Qed.

Lemma weigh_err peer live f : weigh p elig peer live = Err f → f = Panic.
Proof.
  unfold weigh, or_panic. destruct (elig !! peer); [|done]. repeat case_decide; try done.
  destruct (checked u128 (_ * _)); cbn; [|naive_solver].
  destruct (checked u128 (_ * _)); cbn; [|naive_solver].
  destruct (checked u128 (_ * _)); cbn; [|naive_solver]. by case_decide.
Qed.

(** A weighed node takes part and carries its own figures; one passed over
    weighs nothing. *)
Lemma weigh_Ok peer live o :
  weigh p elig peer live = Ok o →
  match o with
  | None => weight_of p elig peer live = 0
  | Some c => c_weight c = weight_of p elig peer live ∧ 0 < c_weight c ∧ u128 (c_weight c) ∧
      re_peer (c_entry c) = peer ∧
      ∃ el, takes_part p elig peer el ∧ c_weight c = effective_stake el * quality p live ∧
        re_effective_stake (c_entry c) = effective_stake el
  end.
Proof.
  unfold weigh, weight_of, takes_part. destruct (elig !! peer) as [el|] eqn:Hel; [|by intros [= <-]].
  case_decide as H1; [by intros [= <-]|]. case_decide as H2; [by intros [= <-]|]. intros H.
  apply bind_Ok in H as (ca & [-> _]%or_panic_Ok & H).
  apply bind_Ok in H as (cag & [-> _]%or_panic_Ok & H).
  apply bind_Ok in H as (w & [-> Hw]%or_panic_Ok & H). fold (quality p live) in *.
  case_decide as H0; injection H as <-; [done|]. cbn [c_weight c_entry re_peer re_effective_stake].
  assert (0 < effective_stake el * quality p live) by ilia.
  split; [done|]. split; [done|]. split; [done|]. split; [done|].
  exists el. split; [|done]. split; [done|]. split; [destruct (registered el); [done|tauto]|].
  split; [lia|]. apply (peers_per_stake_alone peer); [done|lia].
Qed.

Section typed.
Hypothesis Hp : params_typed p.
Hypothesis Hv : validate p = Ok ().

Lemma multipliers_range live :
  0 ≤ connectivity_bps live p ≤ BPS_DENOMINATOR ∧ 0 ≤ availability_bps live p ≤ BPS_DENOMINATOR ∧
  0 ≤ pinning_bps live p ≤ BPS_DENOMINATOR.
Proof using Hp Hv.
  apply validate_Ok in Hv as (_ & _ & ? & ? & ? & ?).
  destruct Hp as (_ & Hab & _ & ? & ? & ? & ? & _). split; [|split].
  - unfold connectivity_bps. destruct (announced_blockhash live); ilia.
  - apply availability_range. ilia.
  - unfold pinning_bps. destruct (served_content live); ilia.
Qed.

Lemma quality_range live : 0 ≤ quality p live ≤ BPS_DENOMINATOR.
Proof using Hp Hv.
  destruct (multipliers_range live) as (Hc & Ha & Hg).
  pose proof (mul_range _ _ _ _ (mul_range _ _ _ _ Hc Ha) Hg).
  unfold quality. split; [apply Z.div_pos; [lia|done]|]. apply Z.div_le_upper_bound; [done|lia].
Qed.

(** With validated parameters the multipliers and a 64-bit stake never
    overflow. *)
Lemma weigh_total peer live : elig_typed elig → ∃ o, weigh p elig peer live = Ok o.
Proof using Hp Hv.
  intros Hel. unfold weigh. destruct (elig !! peer) as [el|] eqn:Hpeer; [|eauto].
  repeat case_decide; eauto. apply Hel in Hpeer. simpl in Hpeer.
  destruct (multipliers_range live) as (Hc & Ha & Hg).
  pose proof (mul_range _ _ _ _ Hc Ha) as Hca. pose proof (mul_range _ _ _ _ Hca Hg) as Hcag.
  pose proof (mul_range _ _ _ _ Hpeer (quality_range live)) as Hw.
  rewrite (or_panic_fits u128) by (unfold BPS_DENOMINATOR in *; ilia). cbn [mbind result_bind].
  rewrite (or_panic_fits u128) by (unfold BPS_DENOMINATOR in *; ilia). cbn [mbind result_bind].
  fold (quality p live). rewrite (or_panic_fits u128) by (unfold BPS_DENOMINATOR in *; ilia).
  cbn [mbind result_bind]. case_decide; eauto.
Qed.

Lemma weight_bound peer live S :
  elig_typed elig → map_Forall (λ _ el, effective_stake el ≤ S) elig → 0 ≤ S →
  0 ≤ weight_of p elig peer live ≤ S * BPS_DENOMINATOR.
Proof using Hp Hv.
  intros Hel HS HS0. unfold weight_of. pose proof (quality_range live) as Hq.
  assert (0 ≤ S * BPS_DENOMINATOR) by (unfold BPS_DENOMINATOR; lia).
  destruct (elig !! peer) as [el|] eqn:Hpeer; [|lia]. repeat case_decide; try lia.
  pose proof (Hel _ _ Hpeer) as Hu. pose proof (HS _ _ Hpeer). simpl in *. apply mul_range; [ilia|done].
Qed.
End typed.

(** ** The two loops, without their accumulators *)

Definition weighed observed : list candidate :=
  omap (λ x, match weigh p elig x.1 x.2 with Ok o => o | Err _ => None end) observed.

Definition weighs (x : PeerId * PeerLiveness) : Prop := ∃ o, weigh p elig x.1 x.2 = Ok o.

Lemma weight_nonneg x : weighs x → 0 ≤ weight_of p elig x.1 x.2.
Proof. intros [[c|] Ho%weigh_Ok]; [destruct Ho as (<- & ? & _); lia|lia]. Qed.

Lemma epoch_weight_nonneg observed : Forall weighs observed → 0 ≤ epoch_weight p elig observed.
Proof.
  intros H. apply sum_list_nonneg. rewrite Forall_fmap. eapply Forall_impl; [done|].
  intros x. apply weight_nonneg.
Qed.

Lemma weigh_all_Ok observed ws t ws' t' :
  u128 t → weigh_all p elig observed ws t = Ok (ws', t') ↔
    Forall weighs observed ∧ ws' = ws ++ weighed observed ∧
    t' = t + epoch_weight p elig observed ∧ u128 t'.
Proof.
  revert ws t. induction observed as [|[peer live] rest IH]; intros ws t Ht.
  { simpl. unfold epoch_weight. simpl. rewrite app_nil_r, Z.add_0_r.
    split; [intros [= <- <-]; by auto|]. by intros (_ & -> & -> & _). }
  cbn [weigh_all weighed omap list_omap]. rewrite Forall_cons. unfold weighs at 1.
  cbn [fst snd]. destruct (weigh p elig peer live) as [o|f] eqn:Ho.
  2:{ cbn [mbind result_bind]. split; [done|]. intros [[[o Ho'] _] _]. congruence. }
  pose proof (weigh_Ok _ _ _ Ho) as Hw. cbn [mbind result_bind].
  unfold epoch_weight. cbn [fmap list_fmap]. rewrite sum_list_cons. fold (epoch_weight p elig rest).
  cbn [fst snd]. destruct o as [c|].
  - destruct Hw as (Hcw & Hpos & _). rewrite <-Hcw. split.
    + intros H. apply bind_Ok in H as (t1 & [-> Ht1]%or_panic_Ok & H).
      apply IH in H as (Hall & -> & -> & Hu); [|done]. rewrite <-app_assoc.
      split; [split; [eauto|done]|]. split; [done|]. split; [lia|done].
    + intros ((_ & Hall) & -> & -> & Hu). pose proof (epoch_weight_nonneg _ Hall).
      rewrite (or_panic_fits u128) by ilia. cbn [mbind result_bind].
      apply IH; [ilia|]. rewrite <-app_assoc. split; [done|]. split; [done|]. split; [lia|done].
  - rewrite Hw. rewrite IH by done. split; intros (Hall & -> & -> & Hu).
    + split; [split; [eauto|done]|]. split; [done|]. split; [lia|done].
    + split; [apply Hall|]. split; [done|]. split; [lia|done].
Qed.

Lemma weigh_all_err observed ws t f : weigh_all p elig observed ws t = Err f → f = Panic.
Proof.
  revert ws t. induction observed as [|[peer live] rest IH]; intros ws t; [done|].
  cbn [weigh_all]. destruct (weigh p elig peer live) as [[c|]|g] eqn:Ho; cbn [mbind result_bind].
  - unfold or_panic. destruct (checked _ _); cbn; [apply IH|naive_solver].
  - apply IH.
  - intros [= <-]. by eapply weigh_err.
Qed.

Definition amount_of (emission W : Z) (c : candidate) : Z := as_u64 (emission * c_weight c / W).

Definition entry_of (emission W : Z) (c : candidate) : option RewardEntry :=
  let e := c_entry c in
  if decide (amount_of emission W c = 0) then None
  else Some (mkRewardEntry (re_peer e) (amount_of emission W c) (re_effective_stake e)
    (re_connectivity_bps e) (re_availability_bps e) (re_pinning_bps e)).

Definition amounts (emission W : Z) ws : Z := sum_list (amount_of emission W <$> ws).

Lemma amounts_nonneg emission W ws : 0 ≤ amounts emission W ws.
Proof.
  apply sum_list_nonneg, Forall_fmap, Forall_true. intros c. cbn. apply as_u64_range.
Qed.

Lemma assign_all_Ok emission W ws es a es' a' :
  a ≤ U64_MAX → assign_all emission W ws es a = Ok (es', a') ↔
    Forall (λ c, u128 (emission * c_weight c)) ws ∧ es' = es ++ omap (entry_of emission W) ws ∧
    a' = Z.min U64_MAX (a + amounts emission W ws).
Proof.
  revert es a. induction ws as [|c ws IH]; intros es a Ha.
  { simpl. unfold amounts. simpl. rewrite app_nil_r. split.
    - intros [= <- <-]. split; [by constructor|]. split; [done|lia].
    - intros (_ & -> & ->). do 2 f_equal. lia. }
  cbn [assign_all omap list_omap]. rewrite Forall_cons. pose proof (amounts_nonneg emission W ws).
  unfold amounts. rewrite fmap_cons, sum_list_cons. fold (amounts emission W ws).
  unfold or_panic, checked. case_decide as Hu; cbn [ok_or mbind result_bind];
    [|split; [done|]; by intros [[? _] _]].
  fold (amount_of emission W c). unfold entry_of at 1.
  pose proof (as_u64_range (emission * c_weight c / W)) as Hr. fold (amount_of emission W c) in Hr.
  case_decide as H0.
  - rewrite IH by done. rewrite H0. naive_solver.
  - rewrite IH by ilia. rewrite <-app_assoc. simpl. unfold saturating_add_u64.
    replace (Z.min U64_MAX (Z.min U64_MAX (a + amount_of emission W c) + amounts emission W ws))
      with (Z.min U64_MAX (a + (amount_of emission W c + amounts emission W ws))) by ilia.
    naive_solver.
Qed.

Lemma assign_all_err emission W ws es a f : assign_all emission W ws es a = Err f → f = Panic.
Proof.
  revert es a. induction ws as [|c ws IH]; intros es a; [done|]. cbn [assign_all].
  unfold or_panic. destruct (checked _ _); cbn; [|naive_solver]. case_decide; apply IH.
Qed.

(** ** The schedule *)

Definition emission_of (remaining : Z) : Z := Z.min (per_epoch_emission p) remaining.

Definition schedule_of observed (epoch emission : Z) : RewardSchedule :=
  let W := epoch_weight p elig observed in
  mkRewardSchedule epoch emission (merge_sort entry_le (omap (entry_of emission W) (weighed observed)))
    (saturating_sub_u64 emission (Z.min U64_MAX (amounts emission W (weighed observed)))).

Lemma compute_in_Ok observed epoch remaining sch :
  let W := epoch_weight p elig observed in
  let E := emission_of remaining in
  compute_in p observed elig epoch remaining = Ok sch ↔
    validate p = Ok () ∧ Forall weighs observed ∧ u128 W ∧
    (if decide (W = 0 ∨ E = 0) then sch = mkRewardSchedule epoch E [] E
     else Forall (λ c, u128 (E * c_weight c)) (weighed observed) ∧ sch = schedule_of observed epoch E).
Proof.
  intros W E. unfold compute_in. fold (emission_of remaining). fold E. split.
  - intros H. apply bind_Ok in H as ([] & Hv & H). apply bind_Ok in H as ([ws t] & Hw & H).
    apply weigh_all_Ok in Hw as (Hall & -> & Heq & Hu); [|ilia].
    rewrite Z.add_0_l in Heq. fold W in Heq. subst t.
    split; [done|]. split; [done|]. split; [done|]. cbn beta iota in H. case_decide; [by injection H|].
    apply bind_Ok in H as ([es a] & Ha & [= <-]). apply assign_all_Ok in Ha as (? & -> & ->); [|ilia].
    split; [done|]. unfold schedule_of. by rewrite Z.add_0_l.
  - intros (Hv & Hall & Hu & H). eapply bind_Ok_intro; [exact Hv|].
    eapply bind_Ok_intro; [apply weigh_all_Ok; [ilia|]; rewrite Z.add_0_l; done|].
    cbn beta iota. fold W. case_decide as Hz; [by rewrite H|]. destruct H as [Hfit ->].
    eapply bind_Ok_intro; [apply assign_all_Ok; [ilia|]; rewrite Z.add_0_l; done|]. done.
Qed.

Lemma compute_in_err observed epoch remaining f :
  compute_in p observed elig epoch remaining = Err f → validate p = Err f ∨ validate p = Ok () ∧ f = Panic.
Proof.
  unfold compute_in. destruct (validate p) as [[]|g]; cbn [mbind result_bind]; [|intros [= <-]; by left].
  intros H. right. split; [done|].
  destruct (weigh_all _ _ _ _ _) as [[ws t]|g] eqn:Hw; cbn [mbind result_bind] in H.
  - case_decide; [done|]. destruct (assign_all _ _ _ _ _) as [[es a]|g] eqn:Ha; [done|].
    injection H as <-. by eapply assign_all_err.
  - injection H as <-. by eapply weigh_all_err.
Qed.

(** Where the figures of a weighed node come from. *)
Lemma weighed_elem c observed :
  Forall weighs observed → c ∈ weighed observed ↔
    ∃ peer live, (peer, live) ∈ observed ∧ weigh p elig peer live = Ok (Some c).
Proof.
  intros Hall. unfold weighed. rewrite list_elem_of_omap. split.
  - intros ([peer live] & Hin & Hc). exists peer, live. split; [done|]. cbn in Hc.
    rewrite Forall_forall in Hall. destruct (Hall _ Hin) as [o Ho]. cbn in Ho.
    rewrite Ho in Hc. by rewrite Ho, Hc.
  - intros (peer & live & Hin & Hc). exists (peer, live). cbn. by rewrite Hc.
Qed.

Lemma weighed_sum observed :
  Forall weighs observed → sum_list (c_weight <$> weighed observed) = epoch_weight p elig observed.
Proof.
  induction 1 as [|[peer live] rest [o Ho] _ IH]; [done|]. unfold epoch_weight.
  rewrite fmap_cons, sum_list_cons. fold (epoch_weight p elig rest). rewrite <-IH. cbn in Ho |- *.
  rewrite Ho. apply weigh_Ok in Ho. destruct o as [c|]; cbn; [|by rewrite Ho].
  fold (weighed rest). by destruct Ho as (-> & _).
Qed.

Lemma weighed_peers observed :
  Forall weighs observed → (re_peer ∘ c_entry <$> weighed observed) `sublist_of` observed.*1.
Proof.
  induction 1 as [|[peer live] rest [o Ho] _ IH]; [done|]. cbn in Ho |- *. rewrite Ho.
  apply weigh_Ok in Ho. destruct o as [c|]; cbn; [|by apply sublist_cons].
  destruct Ho as (_ & _ & _ & -> & _). by apply sublist_skip.
Qed.

Lemma entries_peers E W ws :
  (re_peer <$> omap (entry_of E W) ws) `sublist_of` (re_peer ∘ c_entry <$> ws).
Proof.
  induction ws as [|c ws IH]; [done|]. cbn. unfold entry_of at 1.
  case_decide; cbn; [by apply sublist_cons|by apply sublist_skip].
Qed.
End schedule.

Lemma sum_list_perm (l k : list Z) : l ≡ₚ k → sum_list l = sum_list k.
Proof. induction 1; simpl; lia. Qed.

(** Floors of shares of a whole add up to at most the whole. *)
Lemma floors_le E W (l : list Z) :
  0 ≤ E → 0 < W → Forall (λ w, 0 ≤ w) l → sum_list l ≤ W → sum_list ((λ w, E * w / W) <$> l) ≤ E.
Proof.
  intros HE HW Hl Hsum.
  assert (W * sum_list ((λ w, E * w / W) <$> l) ≤ E * sum_list l); [|nia].
  clear Hsum. induction Hl as [|w l Hw _ IH]; [simpl; lia|].
  rewrite fmap_cons, !sum_list_cons. pose proof (Z.mul_div_le (E * w) W HW). lia.
Qed.

Section theorems.
Context (p : RewardParams) (elig : gmap PeerId Eligibility).
Implicit Types (observed : list (PeerId * PeerLiveness)).

Section assigned.
Context (observed : list (PeerId * PeerLiveness)) (E : Z).
Hypothesis Hall : Forall (weighs p elig) observed.
Hypothesis HE : u64 E.
Let W := epoch_weight p elig observed.
Let ws := weighed p elig observed.

Lemma weighed_pos : Forall (λ c, 0 < c_weight c) ws.
Proof using Hall.
  apply Forall_forall. intros c (peer & live & _ & Hc)%weighed_elem; [|done].
  apply weigh_Ok in Hc. apply Hc.
Qed.

Lemma weight_le c : c ∈ ws → c_weight c ≤ W.
Proof using Hall.
  intros Hc. unfold W. rewrite <-(weighed_sum _ _ _ Hall). fold ws. pose proof weighed_pos as Hpos.
  revert Hc Hpos. clear. induction ws as [|d l IH]; [by intros ?%elem_of_nil|].
  rewrite elem_of_cons, Forall_cons, fmap_cons, sum_list_cons. intros [->|Hc] [? Hl].
  - assert (0 ≤ sum_list (c_weight <$> l)); [|lia]. apply sum_list_nonneg, Forall_fmap.
    eapply Forall_impl; [done|]. simpl. lia.
  - specialize (IH Hc Hl). lia.
Qed.

(** No amount is truncated. *)
Lemma amount_floor c : c ∈ ws → amount_of E W c = E * c_weight c / W ∧ 0 ≤ E * c_weight c / W ≤ E.
Proof using All.
  intros Hc. pose proof (weight_le c Hc). pose proof weighed_pos as Hpos. rewrite Forall_forall in Hpos.
  specialize (Hpos _ Hc). pose proof (mul_div_le_den E (c_weight c) W ltac:(ilia) ltac:(lia) ltac:(lia)).
  split; [|done]. apply as_u64_id. ilia.
Qed.

Lemma amounts_le : 0 < W → amounts E W ws ≤ E.
Proof using All.
  intros HW. unfold amounts.
  replace (amount_of E W <$> ws) with ((λ w, E * w / W) <$> (c_weight <$> ws)).
  - apply floors_le; [ilia|done| |].
    + apply Forall_fmap. eapply Forall_impl; [apply weighed_pos|]. simpl. lia.
    + unfold ws. by rewrite weighed_sum.
  - rewrite <-list_fmap_compose. apply list_fmap_ext. intros i c Hc%list_elem_of_lookup_2.
    simpl. symmetry. by apply amount_floor.
Qed.

Lemma entries_sum : sum_list (re_amount <$> omap (entry_of E W) ws) = amounts E W ws.
Proof.
  unfold amounts. induction ws as [|c l IH]; [done|]. cbn [omap list_omap].
  rewrite fmap_cons, sum_list_cons, <-IH. unfold entry_of at 1.
  case_decide as H0; [rewrite H0; lia|]. by rewrite fmap_cons, sum_list_cons.
Qed.
End assigned.

#[local] Instance entry_le_trans : Transitive entry_le.
Proof. intros a b c. unfold entry_le. apply bytes_le_trans. Qed.
#[local] Instance entry_le_total : Total entry_le.
Proof. intros a b. unfold entry_le. apply bytes_le_total. Qed.

Lemma entries_NoDup observed E :
  Forall (weighs p elig) observed → NoDup observed.*1 →
  NoDup (re_peer <$> omap (entry_of E (epoch_weight p elig observed)) (weighed p elig observed)).
Proof.
  intros Hall Hnd. eapply sublist_NoDup; [exact Hnd|].
  etrans; [apply entries_peers|by apply weighed_peers].
Qed.

(** Sorting entries of distinct peers forgets the order they came in. *)
Lemma sorted_entries_unique l k :
  NoDup (re_peer <$> l) → l ≡ₚ k → merge_sort entry_le l = merge_sort entry_le k.
Proof.
  intros Hnd Hp. apply (StronglySorted_unique_strong entry_le).
  - intros x y Hx Hy H1 H2. rewrite (merge_sort_Permutation entry_le) in Hx, Hy.
    rewrite <-Hp in Hy. assert (re_peer x = re_peer y) as Heq by (by apply (anti_symm bytes_le)).
    apply list_elem_of_lookup_1 in Hx as [i Hi], Hy as [j Hj].
    assert (i = j) as ->; [|congruence].
    apply (NoDup_lookup _ i j (re_peer x) Hnd); rewrite list_lookup_fmap; [by rewrite Hi|].
    rewrite Hj, Heq. done.
  - apply StronglySorted_merge_sort; apply _.
  - apply StronglySorted_merge_sort; apply _.
  - by rewrite !(merge_sort_Permutation entry_le).
Qed.

Lemma takes_part_weight peer el live :
  takes_part p elig peer el → weight_of p elig peer live = effective_stake el * quality p live.
Proof.
  intros (Hel & Hreg & Hmin & Halone). unfold weight_of. rewrite Hel.
  rewrite decide_False by (rewrite Hreg; intros [?|?]; [done|lia]). rewrite decide_False; [done|].
  unfold peers_per_stake.
  assert (filter (λ kv, stake_account kv.2 = stake_account el) elig = {[ peer := el ]}) as ->.
  - apply map_eq. intros k. apply option_eq. intros el'.
    rewrite map_lookup_filter_Some, lookup_singleton_Some. cbn. split.
    + intros [Hk Hacc]. pose proof (Halone k el' Hk Hacc) as ->. split; congruence.
    + by intros [<- <-].
  - rewrite map_size_singleton. done.
Qed.

(** Which nodes a schedule pays, and how much. *)
Lemma entries_spec observed E :
  Forall (weighs p elig) observed → u64 E → NoDup observed.*1 →
  let W := epoch_weight p elig observed in
  ∀ peer n, (∃ e, e ∈ omap (entry_of E W) (weighed p elig observed) ∧ re_peer e = peer ∧ re_amount e = n) ↔
    ∃ el live, (peer, live) ∈ observed ∧ takes_part p elig peer el ∧
      n = E * (effective_stake el * quality p live) / W ∧ 0 < n.
Proof.
  intros Hall HE Hnd W peer n. split.
  - intros (e & (c & Hc & He)%list_elem_of_omap & <- & <-).
    destruct (amount_floor observed E Hall HE c Hc) as [Ham Hr]. fold W in Ham, Hr.
    apply weighed_elem in Hc as (peer & live & Hin & Hw); [|done].
    apply weigh_Ok in Hw as (_ & _ & _ & Hpeer & el & Htp & Hcw & _).
    unfold entry_of in He. case_decide as H0; [done|]. injection He as <-. cbn.
    rewrite Ham in H0. rewrite Hpeer, Ham. exists el, live. rewrite <-Hcw.
    split; [done|]. split; [done|]. split; [done|lia].
  - intros (el & live & Hin & Htp & -> & Hpos). pose proof (takes_part_weight peer el live Htp) as Hwt.
    rewrite Forall_forall in Hall. destruct (Hall _ Hin) as [o Ho]. cbn in Ho.
    pose proof (weigh_Ok _ _ _ _ _ Ho) as Hc. destruct o as [c|].
    2:{ rewrite Hwt in Hc. rewrite Hc, Z.mul_0_r in Hpos. by rewrite Zdiv_0_l in Hpos. }
    destruct Hc as (Hcw & _ & _ & Hpeer & _). rewrite Hwt in Hcw.
    assert (c ∈ weighed p elig observed) as Hc.
    { apply weighed_elem; [by apply Forall_forall|]. eauto. }
    destruct (amount_floor observed E ltac:(by apply Forall_forall) HE c Hc) as [Ham _]. fold W in Ham.
    exists (mkRewardEntry (re_peer (c_entry c)) (amount_of E W c) (re_effective_stake (c_entry c))
      (re_connectivity_bps (c_entry c)) (re_availability_bps (c_entry c)) (re_pinning_bps (c_entry c))).
    cbn. rewrite Ham, Hcw. split; [|done]. apply list_elem_of_omap. exists c. split; [done|].
    unfold entry_of. rewrite decide_False by (rewrite Ham, Hcw; lia). by rewrite Ham, Hcw.
Qed.

(** C22: a schedule divides the emission exactly: what its entries pay and the
    dust it reports add up to the emission, which never exceeds what is left
    of the bucket.  It pays each peer at most once, in the order of their
    identifiers, and it pays exactly the observed nodes that are registered,
    staked to the minimum and alone on their stake account, each the truncated
    share of the emission its stake and service weigh in the epoch. *)
Theorem schedule_exact l epoch remaining sch :
  params_typed p → u64 remaining → compute p l elig epoch remaining = Ok sch →
  let observed := epoch_of l epoch in
  let W := epoch_weight p elig (map_to_list observed) in
  rs_emission sch = Z.min (per_epoch_emission p) remaining ∧
  total sch + rs_dust sch = rs_emission sch ∧ 0 ≤ rs_dust sch ∧
  NoDup (re_peer <$> rs_entries sch) ∧ StronglySorted entry_le (rs_entries sch) ∧
  ∀ peer n, (∃ e, e ∈ rs_entries sch ∧ re_peer e = peer ∧ re_amount e = n) ↔
    ∃ el live, observed !! peer = Some live ∧ takes_part p elig peer el ∧
      n = rs_emission sch * (effective_stake el * quality p live) / W ∧ 0 < n.
Proof.
  intros Hp Hr Hc observed W. unfold compute in Hc. fold observed in Hc.
  apply compute_in_Ok in Hc as (_ & Hall & _ & Hc). fold W in Hc. assert (u64 (emission_of p remaining)) as HE.
  { unfold emission_of. destruct Hp as (_ & _ & ? & _). ilia. }
  assert (NoDup (map_to_list observed).*1) as Hnd by apply NoDup_fst_map_to_list.
  pose proof (epoch_weight_nonneg _ _ _ Hall) as HW. fold W in HW. case_decide as Hz.
  - subst sch. unfold total. cbn. split; [done|]. split; [lia|]. split; [ilia|].
    split; [constructor|]. split; [constructor|]. intros peer n. split.
    + by intros (e & ?%elem_of_nil & _).
    + intros (el & live & _ & _ & -> & Hpos). fold W in Hpos. exfalso.
      destruct Hz as [Hz|Hz]; rewrite Hz in Hpos; [by rewrite Z.div_0_r in Hpos|].
      rewrite Z.mul_0_l, Zdiv_0_l in Hpos. lia.
  - destruct Hc as [_ ->]. unfold schedule_of, total. cbn [rs_emission rs_entries rs_dust]. fold W.
    set (E := emission_of p remaining) in *. set (es := omap _ _).
    pose proof (merge_sort_Permutation entry_le es) as Hperm.
    assert (sum_list (re_amount <$> merge_sort entry_le es) = amounts E W (weighed p elig (map_to_list observed))) as Hsum.
    { pose proof (entries_sum (map_to_list observed) E) as Hes. fold W in Hes. rewrite <-Hes.
      apply sum_list_perm. by rewrite Hperm. }
    pose proof (amounts_le _ E Hall HE ltac:(fold W; lia)) as Hle. fold W in Hle.
    pose proof (amounts_nonneg E W (weighed p elig (map_to_list observed))).
    rewrite Hsum. split; [done|]. split; [ilia|]. split; [ilia|].
    split; [rewrite Hperm; by apply entries_NoDup|].
    split; [apply StronglySorted_merge_sort; apply _|]. intros peer n. setoid_rewrite Hperm.
    pose proof (entries_spec _ E Hall HE Hnd peer n) as Hspec. cbn zeta in Hspec. fold W es in Hspec.
    rewrite Hspec. by setoid_rewrite elem_of_map_to_list.
Qed.

Lemma compute_in_perm observed observed' epoch remaining sch :
  NoDup observed.*1 → observed ≡ₚ observed' →
  compute_in p observed elig epoch remaining = Ok sch → compute_in p observed' elig epoch remaining = Ok sch.
Proof.
  intros Hnd Hp. rewrite !compute_in_Ok. cbn zeta. intros (Hv & Hall & Hu & H).
  assert (epoch_weight p elig observed' = epoch_weight p elig observed) as HW.
  { apply sum_list_perm. by rewrite Hp. }
  assert (weighed p elig observed ≡ₚ weighed p elig observed') as Hws by (unfold weighed; by rewrite Hp).
  rewrite HW. split; [done|]. split; [by rewrite <-Hp|]. split; [done|]. case_decide; [done|].
  destruct H as [Hfit ->]. split; [by rewrite <-Hws|]. unfold schedule_of. rewrite HW. f_equal.
  - apply sorted_entries_unique; [by apply entries_NoDup|]. by rewrite Hws.
  - do 2 f_equal. apply sum_list_perm. by rewrite Hws.
Qed.

(** The schedule can be recomputed by anyone: it is the same whatever order
    the observations of the epoch are walked in, and so is its failure. *)
Theorem schedule_reproducible l epoch remaining observed :
  observed ≡ₚ map_to_list (epoch_of l epoch) →
  compute_in p observed elig epoch remaining = compute p l elig epoch remaining.
Proof.
  intros Hp. unfold compute. pose proof (NoDup_fst_map_to_list (epoch_of l epoch)) as Hnd.
  destruct (compute_in p (map_to_list _) elig epoch remaining) as [sch|f] eqn:Hc.
  - by apply (compute_in_perm (map_to_list (epoch_of l epoch))).
  - destruct (compute_in p observed elig epoch remaining) as [sch|g] eqn:Hc'.
    + apply (compute_in_perm observed (map_to_list (epoch_of l epoch))) in Hc'; [congruence| |done].
      by rewrite Hp.
    + apply compute_in_err in Hc as [Hc|[Hc ->]], Hc' as [Hc'|[Hc' ->]]; congruence.
Qed.

(** The arithmetic never overflows on figures a deployment can have: if no
    stake exceeds [S], and [S] at the full multiplier fits 128 bits both times
    the emission and times the number of observed nodes, the schedule is
    computed. *)
Theorem schedule_succeeds l epoch remaining S :
  params_typed p → elig_typed elig → validate p = Ok () → u64 remaining →
  map_Forall (λ _ el, effective_stake el ≤ S) elig → 0 ≤ S →
  per_epoch_emission p * (S * BPS_DENOMINATOR) ≤ U128_MAX →
  Z.of_nat (size (epoch_of l epoch)) * (S * BPS_DENOMINATOR) ≤ U128_MAX →
  ∃ sch, compute p l elig epoch remaining = Ok sch.
Proof.
  intros Hp Hel Hv Hr HS HS0 HE Hn. set (observed := map_to_list (epoch_of l epoch)).
  assert (Forall (weighs p elig) observed) as Hall.
  { apply Forall_true. intros x. by apply weigh_total. }
  pose proof (λ peer live, weight_bound p elig Hp Hv peer live S Hel HS HS0) as Hle.
  assert (u128 (epoch_weight p elig observed)) as Hu.
  { split; [by apply epoch_weight_nonneg|]. etrans; [|exact Hn].
    replace (size (epoch_of l epoch)) with (length observed) by apply length_map_to_list.
    clear - Hle. unfold epoch_weight. induction observed as [|x rest IH]; [simpl; lia|].
    rewrite fmap_cons, sum_list_cons, length_cons, Nat2Z.inj_succ. specialize (Hle x.1 x.2). lia. }
  destruct (decide (epoch_weight p elig observed = 0 ∨ emission_of p remaining = 0)) as [Hz|Hz].
  - eexists. apply compute_in_Ok. cbn zeta. fold observed. rewrite decide_True by done. done.
  - eexists. apply compute_in_Ok. cbn zeta. fold observed. rewrite decide_False by done.
    split; [done|]. split; [done|]. split; [done|]. split; [|done].
    apply Forall_forall. intros c (peer & live & Hin & Hc)%weighed_elem; [|done].
    pose proof (Hle peer live) as Hcw. apply weigh_Ok in Hc as (Hc & _). rewrite <-Hc in Hcw.
    destruct Hp as (_ & _ & Hpe & _). unfold emission_of in *. split; [ilia|].
    etrans; [|exact HE]. apply Z.mul_le_mono_nonneg; ilia.
Qed.
End theorems.

(** ** Closed epochs *)

(** What a node hears of its peers. *)
Inductive observation :=
  | Heard (origin : PeerId) (at_ : Timestamp) (blockhash : bool)
  | Served (peer : PeerId) (at_ : Timestamp).

Definition heard_at (o : observation) : Timestamp :=
  match o with Heard _ t _ | Served _ t => t end.

Definition record (p : RewardParams) (l : LivenessLedger) (o : observation) : LivenessLedger :=
  match o with
  | Heard origin t b => observe l p origin t b
  | Served peer t => observe_content_served l p peer t
  end.

Lemma epoch_of_insert_ne (l : gmap Z (gmap PeerId PeerLiveness)) e e' m :
  e ≠ e' → epoch_of (<[e' := m]> l) e = epoch_of l e.
Proof. intros. unfold epoch_of. by rewrite lookup_insert_ne. Qed.

Lemma record_other p l o e : e ≠ epoch_index p (heard_at o) → epoch_of (record p l o) e = epoch_of l e.
Proof.
  intros He. destruct o as [origin t b|peer t]; cbn in *.
  - unfold observe. by apply epoch_of_insert_ne.
  - unfold observe_content_served. destruct (epoch_of (observe l p peer t false) _ !! peer).
    + rewrite epoch_of_insert_ne by done. unfold observe. by apply epoch_of_insert_ne.
    + unfold observe. by apply epoch_of_insert_ne.
Qed.

Lemma epoch_index_mono p t t' : t ≤ t' → epoch_index p t ≤ epoch_index p t'.
Proof. intros. apply Z.div_le_mono; lia. Qed.

Lemma payable_elem p l paid now e :
  e ∈ payable_epochs p l paid now ↔ is_Some (l !! e) ∧ e < epoch_index p now ∧ e ∉ paid.
Proof.
  unfold payable_epochs, epochs_held, is_paid.
  rewrite list_elem_of_filter, (merge_sort_Permutation Z.le), bool_decide_eq_false, list_elem_of_fmap.
  split.
  - intros ([? ?] & [e' m] & -> & Hm%elem_of_map_to_list). eauto.
  - intros ([m Hm] & ? & ?). split; [done|]. exists (e, m). by rewrite elem_of_map_to_list.
Qed.

(** An epoch is offered for payment once it is closed, and paid once.  The
    epochs offered are exactly those observed, over and not yet marked; the
    mark reports a first payment and takes the epoch off the list for good,
    whatever is observed and marked later; and nothing heard from then on
    changes the schedule of an epoch that was offered. *)
Theorem closed_epoch_paid_once p l paid now e :
  (e ∈ payable_epochs p l paid now ↔ is_Some (l !! e) ∧ e < epoch_index p now ∧ e ∉ paid) ∧
  (e ∈ payable_epochs p l paid now →
   (mark_paid paid e).2 = true ∧
   (∀ l' later now', e ∉ payable_epochs p l' (foldl (λ m k, (mark_paid m k).1) (mark_paid paid e).1 later) now') ∧
   ∀ os elig remaining, Forall (λ o, now ≤ heard_at o) os →
     compute p (foldl (record p) l os) elig e remaining = compute p l elig e remaining).
Proof.
  split; [apply payable_elem|]. intros (_ & Hclosed & Hpaid)%payable_elem. split; [|split].
  - unfold mark_paid, is_paid. cbn. by rewrite bool_decide_eq_false_2.
  - intros l' later now'. rewrite payable_elem. intros (_ & _ & Hnot). apply Hnot. clear.
    assert (e ∈ (mark_paid paid e).1) as He by (cbn; set_solver). revert He.
    generalize (mark_paid paid e).1. induction later as [|k later IH]; intros m He; [done|].
    simpl. apply IH. set_solver.
  - intros os elig remaining Hos. unfold compute.
    assert (epoch_of (foldl (record p) l os) e = epoch_of l e) as ->; [|done].
    revert l. induction Hos as [|o os Ho _ IH]; intros l; [done|]. simpl. rewrite IH.
    apply record_other. pose proof (epoch_index_mono p _ _ Ho). lia.
Qed.

(** ** The theorems at a concrete epoch

    Three nodes are heard for a day; two of them stand on one stake. *)

Definition op1 : PeerId := [1].
Definition op2 : PeerId := [2].
Definition op3 : PeerId := [3].

Definition day_ledger : LivenessLedger :=
  foldl (record default_params) ∅ [Heard op2 1000 true; Heard op1 2000 false; Served op1 90000;
    Heard op3 5000 true; Heard op1 4000000 true].

Definition operators : gmap PeerId Eligibility :=
  <[op1 := mkEligibility 2000000000 true "a"]> (<[op2 := mkEligibility 3000000000 true "b"]>
    (<[op3 := mkEligibility 3000000000 true "b"]> ∅)).

Definition day_schedule : RewardSchedule :=
  match compute default_params day_ledger operators 0 (82192 * 1000000) with
  | Ok s => s
  | Err _ => mkRewardSchedule 0 0 [] 0
  end.

Lemma day_computed : compute default_params day_ledger operators 0 (82192 * 1000000) = Ok day_schedule.
Proof. by vm_compute. Qed.

Lemma schedule_exact_witness :
  total day_schedule + rs_dust day_schedule = 82192 * 1000000 ∧
  re_peer <$> rs_entries day_schedule = [op1].
Proof.
  destruct (schedule_exact default_params operators day_ledger 0 (82192 * 1000000) day_schedule)
    as (He & Hs & _); [by apply (bool_decide_unpack _); vm_compute|done|exact day_computed|].
  split; [|by vm_compute]. rewrite Hs, He. done.
Defined.

Lemma schedule_reproducible_witness :
  compute_in default_params (reverse (map_to_list (epoch_of day_ledger 0))) operators 0 500
  = compute default_params day_ledger operators 0 500.
Proof. apply (schedule_reproducible default_params operators day_ledger 0 500). apply reverse_Permutation. Defined.

Lemma schedule_succeeds_witness :
  ∃ sch, compute default_params day_ledger operators 0 500 = Ok sch.
Proof.
  apply (schedule_succeeds default_params operators day_ledger 0 500 3000000000).
  - apply (bool_decide_unpack _). by vm_compute.
  - apply (bool_decide_unpack _). by vm_compute.
  - by vm_compute.
  - done.
  - apply (bool_decide_unpack _). by vm_compute.
  - done.
  - done.
  - by vm_compute.
Defined.
