(* ===== verification/Slashing.v ===== *)
(** * Slashing: which arbitrators a decided case condemns

    Models [crates/slashing/src/verdict.rs], and ties it to the escrow
    program: the schedule read off a case the program decided names exactly the
    arbitrators who revealed another outcome than the one it settled on. *)

From S2P Require Import Prelude Runtime Shared EscrowState Fees Trade Dispute Escrow.
From S2P Require Import CaseInv EscrowInv TradeInv DisputeInv EscrowSafety Scenario.
Import EscrowError.

Definition MISCONDUCT_OUTSIDE_CONSENSUS : Z := 1.

Record Seat := mkSeat {
  seat_arbitrator : list Z;
  seat_revealed_outcome : option Z;
  seat_power : Z;
}.

Record ResolvedCase := mkResolvedCase {
  rc_reservation_id : Z;
  rc_round : Z;
  rc_outcome : option Z;
  rc_seats : list Seat;
}.

Record SlashEntry := mkSlashEntry {
  sl_arbitrator : list Z;
  sl_revealed_outcome : Z;
  sl_weight : Z;
  sl_misconduct_code : Z;
}.

Record SlashSchedule := mkSlashSchedule {
  ss_reservation_id : Z;
  ss_round : Z;
  ss_outcome : Z;
  ss_entries : list SlashEntry;
}.

Definition condemn (outcome : Z) (seat : Seat) : option SlashEntry :=
  revealed ← seat_revealed_outcome seat;
  if decide (revealed ≠ outcome)
  then Some (mkSlashEntry (seat_arbitrator seat) revealed (seat_power seat) MISCONDUCT_OUTSIDE_CONSENSUS)
  else None.

Definition compute (case : ResolvedCase) : option SlashSchedule :=
  outcome ← rc_outcome case;
  Some (mkSlashSchedule (rc_reservation_id case) (rc_round case) outcome
          (omap (condemn outcome) (rc_seats case))).

(** Rounds already slashed. *)
Abbreviation SlashedCases := (gset (Z * Z)).

Definition is_applied (c : SlashedCases) (reservation_id round : Z) : bool :=
  bool_decide ((reservation_id, round) ∈ c).

Definition mark_applied (c : SlashedCases) (reservation_id round : Z) : SlashedCases * bool :=
  ({[ (reservation_id, round) ]} ∪ c, negb (is_applied c reservation_id round)).

(** ** The case on chain *)

(** Position of an outcome in the program's enumeration, which is its
    serialised form. *)
Definition outcome_code (o : DisputeOutcome) : Z :=
  match o with BuyerWins => 0 | MerchantWins => 1 | MutualSettlement => 2 | InvalidDispute => 3 end.

Lemma outcome_code_inj o o' : outcome_code o = outcome_code o' → o = o'.
Proof. by destruct o, o'. Qed.

(** [rc] is what a reader finds in the account of [d]: the fields the schedule
    needs, seat by seat. *)
Record mirrors `{Hashing} (d : DisputeCase) (rc : ResolvedCase) : Prop := {
  mr_id : rc_reservation_id rc = dc_reservation_id d;
  mr_round : rc_round rc = dc_round d;
  mr_outcome : rc_outcome rc = outcome_code <$> dc_outcome d;
  mr_seats : ∀ i seat, rc_seats rc !! i = Some seat ↔
    ∃ arb v w, dc_arbitrators d !! i = Some arb ∧ dc_revealed_outcomes d !! i = Some v ∧
      dc_weights d !! i = Some w ∧ seat = mkSeat (key_bytes arb) (outcome_code <$> v) w;
}.

Section theorems.
Context {L : Type} `{TokenLedger L} `{Hashing}.
Implicit Types (s : escrow_state L) (d : DisputeCase) (rc : ResolvedCase).

Lemma condemn_Some outcome seat e :
  condemn outcome seat = Some e ↔ seat_revealed_outcome seat = Some (sl_revealed_outcome e) ∧
    sl_revealed_outcome e ≠ outcome ∧ sl_arbitrator e = seat_arbitrator seat ∧
    sl_weight e = seat_power seat ∧ sl_misconduct_code e = MISCONDUCT_OUTSIDE_CONSENSUS.
Proof.
  unfold condemn. destruct (seat_revealed_outcome seat) as [r|]; cbn; [|naive_solver].
  case_decide; destruct e; naive_solver.
Qed.

(** The wallets a decided case condemns, by seat. *)
Lemma condemned_seats d rc o arb i :
  bench_wf d → mirrors d rc → dc_arbitrators d !! i = Some arb →
  (∀ a b, a ∈ dc_arbitrators d → b ∈ dc_arbitrators d → key_bytes a = key_bytes b → a = b) →
  key_bytes arb ∈ (sl_arbitrator <$> omap (condemn (outcome_code o)) (rc_seats rc)) ↔
  ∃ v, dc_revealed_outcomes d !! i = Some (Some v) ∧ v ≠ o.
Proof.
  intros Hb Hm Hi Hinj. rewrite list_elem_of_fmap. setoid_rewrite list_elem_of_omap. split.
  - intros (e & Hke & seat & [j Hj]%list_elem_of_lookup_1 & (Hrev & Hne & Ha & _)%condemn_Some).
    apply (mr_seats _ _ Hm) in Hj as (arb' & v & w & Hj & Hv & _ & ->). cbn in *.
    assert (arb' = arb) as ->.
    { apply Hinj; [by eapply list_elem_of_lookup_2..|congruence]. }
    rewrite (NoDup_lookup _ _ _ _ (bw_distinct _ Hb) Hj Hi) in *. destruct v as [v|]; [|done].
    injection Hrev as Hrev. exists v. split; [done|]. intros ->. congruence.
  - intros (v & Hv & Hne). destruct (lookup_lt_is_Some_2 (dc_weights d) i) as [w Hw].
    { rewrite (bw_weight _ Hb). by apply lookup_lt_Some in Hi. }
    exists (mkSlashEntry (key_bytes arb) (outcome_code v) w MISCONDUCT_OUTSIDE_CONSENSUS).
    split; [done|]. exists (mkSeat (key_bytes arb) (Some (outcome_code v)) w). split.
    + apply (list_elem_of_lookup_2 _ i), (mr_seats _ _ Hm). exists arb, (Some v), w. done.
    + apply condemn_Some. cbn. split; [done|]. split; [|done]. by intros ?%outcome_code_inj.
Qed.

(** C23: slashing follows the verdict the escrow program reached.  Read off a case
    of a reachable state, the schedule is empty of cases without a verdict,
    and for a decided one it names a seat's arbitrator exactly when that seat
    revealed another outcome than the verdict: a silent arbitrator is not
    condemned, and neither is anyone who can still collect, or has just
    collected, a reward for the case. *)
Theorem slashing_follows_verdict t s k d rc :
  escrow_reachable (t, s) → es_cases s !! k = Some d → mirrors d rc →
  (∀ a b, a ∈ dc_arbitrators d → b ∈ dc_arbitrators d → key_bytes a = key_bytes b → a = b) →
  (dc_outcome d = None → compute rc = None) ∧
  ∀ o, dc_outcome d = Some o → ∃ sch, compute rc = Some sch ∧
    ss_reservation_id sch = dc_reservation_id d ∧ ss_round sch = dc_round d ∧
    (∀ i arb, dc_arbitrators d !! i = Some arb →
       key_bytes arb ∈ (sl_arbitrator <$> ss_entries sch) ↔
       ∃ v, dc_revealed_outcomes d !! i = Some (Some v) ∧ v ≠ o) ∧
    (∀ c arb to mint s', handle_claim_arbitration_reward c arb k to mint s = Ok s' →
       key_bytes arb ∉ (sl_arbitrator <$> ss_entries sch)).
Proof.
  intros [Hinv _]%escrow_reachable_inv Hd Hm Hinj. simpl in Hinv.
  pose proof (inv_case_wf _ _ _ Hinv Hd) as [Hb _ _]. unfold compute. rewrite (mr_outcome _ _ Hm).
  split; [by intros ->|]. intros o Ho. rewrite Ho. cbn. eexists. split; [done|]. cbn.
  split; [apply Hm|]. split; [apply Hm|]. split; [intros i arb Hi; by apply condemned_seats|].
  intros c arb to mint s' Hrun. unfold handle_claim_arbitration_reward in Hrun. inv_escrow.
  match goal with Hc : es_cases s !! k = Some ?x |- _ => rewrite Hd in Hc; injection Hc as <- end.
  match goal with Hs : seat_of _ _ = Some ?x |- _ => apply seat_of_Some in Hs end.
  rewrite condemned_seats by done. intros (v & Hv & Hne).
  match goal with Hw : mjoin _ = Some _ |- _ => rewrite Hv in Hw end. simpl in *. congruence.
Qed.
End theorems.

(** ** The theorem at a decided case *)

Definition mirror (d : DisputeCase) : ResolvedCase :=
  mkResolvedCase (dc_reservation_id d) (dc_round d) (outcome_code <$> dc_outcome d)
    (zip_with (λ a '(v, w), mkSeat (key_bytes a) (outcome_code <$> v) w) (dc_arbitrators d)
       (zip (dc_revealed_outcomes d) (dc_weights d))).

Lemma mirror_mirrors d : mirrors d (mirror d).
Proof.
  split; [done..|]. intros i seat. cbn. rewrite lookup_zip_with_Some. split.
  - intros (a & [v w] & -> & Hi & Hvw). apply lookup_zip_with_Some in Hvw as (v' & w' & Heq & Hv & Hw).
    injection Heq as <- <-. eauto 8.
  - intros (a & v & w & Hi & Hv & Hw & ->). exists a, (v, w). split; [done|]. split; [done|].
    apply lookup_zip_with_Some. eauto.
Qed.

Lemma slashing_follows_verdict_witness :
  runs resolved_run = true ∧ ∃ sch, compute (mirror (case7 resolved_run)) = Some sch ∧
    ss_outcome sch = 0.
Proof.
  split; [by vm_compute|].
  destruct (slashing_follows_verdict (last_time 0 resolved_run) (state_after resolved_run) dk7
    (case7 resolved_run) (mirror (case7 resolved_run))) as [_ Hs].
  - apply state_after_reachable; by vm_compute.
  - by vm_compute.
  - apply mirror_mirrors.
  - assert (dc_arbitrators (case7 resolved_run) = [arb 1; arb 2; arb 3]) as -> by (by vm_compute).
    intros a b Ha Hb. rewrite !elem_of_cons in Ha, Hb.
    destruct Ha as [? | [? | [? | []%not_elem_of_nil]]], Hb as [? | [? | [? | []%not_elem_of_nil]]];
      subst; by vm_compute.
  - destruct (Hs BuyerWins) as (sch & Hc & _); [by vm_compute|]. exists sch. split; [exact Hc|].
    revert Hc. vm_compute. by intros [= <-].
Defined.
