(* ===== verification/Pricing.v ===== *)
(** * Pricing: amounts, and the price an advertisement resolves to

    Models [crates/types/src/amount.rs] and
    [crates/advertisements/src/pricing.rs].  A double is an IEEE-754 binary64
    number; its operations are the standard's, and [powi] is the repeated
    squaring the compiler's runtime performs. *)

From Stdlib Require Import SpecFloat.
From S2P Require Import Prelude Runtime Peers.

(** ** Amounts *)

Record Amount := mkAmount { base_units : Z; decimals : Z }.

#[export] Instance Amount_eq_dec : EqDecision Amount.
Proof. solve_decision. Defined.

Definition amount_checked_add (a b : Amount) : option Amount :=
  if decide (decimals a = decimals b)
  then (λ z, mkAmount z (decimals a)) <$> checked_add_u64 (base_units a) (base_units b)
  else None.

Definition amount_checked_sub (a b : Amount) : option Amount :=
  if decide (decimals a = decimals b)
  then (λ z, mkAmount z (decimals a)) <$> checked_sub_u64 (base_units a) (base_units b)
  else None.

Definition amount_typed (a : Amount) : Prop := u64 (base_units a) ∧ u8 (decimals a).
#[export] Instance amount_typed_dec a : Decision (amount_typed a).
Proof. unfold amount_typed. apply _. Defined.

Lemma amount_checked_add_Some a b c :
  amount_checked_add a b = Some c ↔ decimals a = decimals b ∧ decimals c = decimals a ∧
    base_units c = base_units a + base_units b ∧ u64 (base_units c).
Proof.
  unfold amount_checked_add, checked_add_u64. case_decide; [|naive_solver].
  rewrite fmap_Some. setoid_rewrite checked_Some. destruct c; simpl. naive_solver.
Qed.

Lemma amount_checked_sub_Some a b c :
  amount_checked_sub a b = Some c ↔ decimals a = decimals b ∧ decimals c = decimals a ∧
    base_units c = base_units a - base_units b ∧ u64 (base_units c).
Proof.
  unfold amount_checked_sub, checked_sub_u64. case_decide; [|naive_solver].
  rewrite fmap_Some. setoid_rewrite checked_Some. destruct c; simpl. naive_solver.
Qed.

(** ** Doubles *)

Definition f64 : Type := spec_float.

Definition f64_mul (x y : f64) : f64 := SFmul 53 1024 x y.
Definition f64_add (x y : f64) : f64 := SFadd 53 1024 x y.
Definition f64_div (x y : f64) : f64 := SFdiv 53 1024 x y.
Definition f64_of_int (z : Z) : f64 := binary_normalize 53 1024 z 0 false.

(** [x.powi(n)] for [n >= 0]: square and multiply. *)
Fixpoint powi_loop (fuel : nat) (r a : f64) (b : Z) : f64 :=
  match fuel with
  | O => r
  | S fuel =>
      let r := if Z.odd b then f64_mul r a else r in
      let b := b / 2 in
      if decide (b = 0) then r else powi_loop fuel r (f64_mul a a) b
  end.

(** Eight turns exhaust an eight-bit exponent. *)
Definition powi (x : f64) (n : Z) : f64 := powi_loop 8 (f64_of_int 1) x n.

(** The integer a non-negative double rounds to, halves to even. *)
Definition round_ties_even (m : positive) (e : Z) : Z :=
  if decide (0 ≤ e) then Z.pos m * 2 ^ e
  else
    let d := 2 ^ (- e) in
    let q := Z.pos m / d in
    let r := Z.pos m mod d in
    if decide (2 * r < d) then q
    else if decide (d < 2 * r) then q + 1
    else if Z.even q then q else q + 1.

Definition to_amount (value : f64) (decimals : Z) : option Amount :=
  let scaled := f64_mul value (powi (f64_of_int 10) decimals) in
  match scaled with
  | S754_zero _ => Some (mkAmount 0 decimals)
  | S754_finite false m e =>
      let rounded := round_ties_even m e in
      if decide (18446744073709551616 ≤ rounded) then None else Some (mkAmount rounded decimals)
  | S754_finite true _ _ | S754_infinity _ | S754_nan => None
  end.

(** ** Quotes *)

Inductive PricingModel :=
  | Fixed (price : Amount)
  | Floating (oracle_provider : string) (premium_bps : Z) (price_decimals : Z).

Inductive MidPrice :=
  | MidAvailable (rate : f64) (expires_at : Timestamp)
  | MidNoOracleData
  | MidStaleOracleData.

Inductive UnpriceableReason := NoOracleData | StaleOracleData | PriceOutOfRange.

Inductive PriceQuote :=
  | QuoteFixed (price : Amount)
  | QuoteFloating (price : Amount) (mid_rate : f64) (premium_bps : Z) (mid_expires_at : Timestamp)
  | QuoteUnpriceable (reason : UnpriceableReason) (premium_bps : Z).

Definition quote_price (q : PriceQuote) : option Amount :=
  match q with
  | QuoteFixed price | QuoteFloating price _ _ _ => Some price
  | QuoteUnpriceable _ _ => None
  end.

Definition quote_floating (premium_bps price_decimals : Z) (mid : MidPrice) : PriceQuote :=
  match mid with
  | MidNoOracleData => QuoteUnpriceable NoOracleData premium_bps
  | MidStaleOracleData => QuoteUnpriceable StaleOracleData premium_bps
  | MidAvailable rate mid_expires_at =>
      let multiplier := f64_add (f64_of_int 1) (f64_div (f64_of_int premium_bps) (f64_of_int 10000)) in
      match to_amount (f64_mul rate multiplier) price_decimals with
      | Some price => QuoteFloating price rate premium_bps mid_expires_at
      | None => QuoteUnpriceable PriceOutOfRange premium_bps
      end
  end.

Definition quote (m : PricingModel) (mid : MidPrice) : PriceQuote :=
  match m with
  | Fixed price => QuoteFixed price
  | Floating _ premium_bps price_decimals => quote_floating premium_bps price_decimals mid
  end.

Definition agrees_with (m : PricingModel) (agreed_price : Amount) (agreed_mid : option f64) : bool :=
  match m with
  | Fixed price =>
      bool_decide (agreed_mid = None) &&
      bool_decide (base_units agreed_price = base_units price) &&
      bool_decide (decimals agreed_price = decimals price)
  | Floating _ premium_bps price_decimals =>
      match agreed_mid with
      | None => false
      | Some mid =>
          match quote_floating premium_bps price_decimals (MidAvailable mid 0) with
          | QuoteFloating price _ _ _ =>
              bool_decide (base_units agreed_price = base_units price) &&
              bool_decide (decimals agreed_price = decimals price)
          | _ => false
          end
      end
  end.

(** ** The agreed price is the quoted one *)

(** [z] is the integer nearest to [m * 2^e], the even one of two. *)
Definition nearest (m : positive) (e z : Z) : Prop :=
  (0 ≤ e → z = Z.pos m * 2 ^ e) ∧
  (e < 0 → 2 * Z.abs (z * 2 ^ (- e) - Z.pos m) ≤ 2 ^ (- e) ∧
           (2 * Z.abs (z * 2 ^ (- e) - Z.pos m) = 2 ^ (- e) → Z.even z = true)).

Lemma round_ties_even_nearest m e : 0 ≤ round_ties_even m e ∧ nearest m e (round_ties_even m e).
Proof.
  unfold round_ties_even, nearest. case_decide as He; [split; [|lia]|].
  { pose proof (Z.pow_nonneg 2 e). nia. }
  assert (0 < 2 ^ (- e)) as Hd by (apply Z.pow_pos_nonneg; lia). set (d := 2 ^ (- e)) in *.
  pose proof (Z.div_mod (Z.pos m) d ltac:(lia)) as Hm. pose proof (Z.mod_pos_bound (Z.pos m) d Hd).
  pose proof (Z.div_pos (Z.pos m) d ltac:(lia) Hd). set (q := Z.pos m / d) in *.
  set (r := Z.pos m mod d) in *.
  assert (∀ k, (q + k) * d - Z.pos m = k * d - r) as Hk by (intros; rewrite Hm; ring).
  pose proof (Hk 0) as Hk0. pose proof (Hk 1) as Hk1. rewrite Z.add_0_r in Hk0.
  case_decide; [|case_decide; [|destruct (Z.even q) eqn:Hq]];
    (split; [lia|]; split; [lia|]; intros _; split; [lia|]); try lia; try done.
  rewrite Z.even_add, Hq. done.
Qed.

Lemma to_amount_Some v n a :
  to_amount v n = Some a → decimals a = n ∧ u64 (base_units a) ∧
  match f64_mul v (powi (f64_of_int 10) n) with
  | S754_zero _ => base_units a = 0
  | S754_finite false m e => nearest m e (base_units a)
  | _ => False
  end.
Proof.
  unfold to_amount. destruct (f64_mul _ _) as [| | |[] m e]; try done.
  - intros [= <-]. done.
  - case_decide; [done|]. intros [= <-]. destruct (round_ties_even_nearest m e).
    cbn. split; [done|]. split; [ilia|done].
Qed.

(** The price a reservation may pin is the one the advertisement quotes.  A
    fixed advertisement takes its own number and no mid-price; a floating one
    takes exactly the number it quotes at the recorded mid-price, whatever the
    quote's expiry: the recorded rate at the merchant's premium, scaled to the
    declared precision and rounded to the nearest unit with halves to even,
    within 64 bits, never negative, infinite or undefined. *)
Theorem agreed_price_is_quoted m price mid :
  agrees_with m price mid = true ↔
  match m, mid with
  | Fixed p, None => price = p
  | Floating _ b n, Some rate =>
      (∀ t, quote m (MidAvailable rate t) = QuoteFloating price rate b t) ∧
      decimals price = n ∧ u64 (base_units price) ∧
      match f64_mul (f64_mul rate (f64_add (f64_of_int 1) (f64_div (f64_of_int b) (f64_of_int 10000))))
              (powi (f64_of_int 10) n) with
      | S754_zero _ => base_units price = 0
      | S754_finite false k e => nearest k e (base_units price)
      | _ => False
      end
  | _, _ => False
  end.
Proof.
  destruct m as [p|o b n]; simpl.
  - rewrite !andb_true_iff, !bool_decide_eq_true. destruct mid; [naive_solver|].
    destruct price, p; simpl. naive_solver.
  - destruct mid as [rate|]; [|done].
    destruct (to_amount (f64_mul rate _) n) as [a|] eqn:Ha.
    + rewrite andb_true_iff, !bool_decide_eq_true. pose proof (to_amount_Some _ _ _ Ha) as Hs. split.
      * intros [? ?]. assert (price = a) as -> by (destruct price, a; simpl in *; congruence). naive_solver.
      * intros [Hq _]. specialize (Hq 0). by injection Hq as ->.
    + split; [done|]. intros [Hq _]. by specialize (Hq 0).
Qed.
