(* ===== verification/Statements.v ===== *)
(** * Statements: what peers sign in the marketplace

    Models the signed payloads of [events.rs] in the crates [advertisements],
    [reservations], [settlement], [disputes], [governance], [sessions],
    [identity], [reviews], [tradechannel], [oracles], [risk] and [content] and of
    [registration.rs], [health.rs], [withdrawal.rs] and [settlement.rs] in [registry], and the
    preimage a signature covers ([serialization/src/domain.rs]).  Ed25519, the
    libp2p peer identifier, base58 and the JSON encoder are not part of the
    repository: they are the class [Wire]. *)

From Stdlib Require Import SpecFloat.
From S2P Require Import Prelude Runtime Peers Pricing.

Inductive Direction := Sell | Buy.

Inductive AdvertisementStatus := Active | Disabled | Vacation | Deleted.
#[export] Instance AdvertisementStatus_eq_dec : EqDecision AdvertisementStatus.
Proof. solve_decision. Defined.

Module PaymentDiscrepancy.
Inductive t := IncorrectAmount | WrongReference | DuplicatePayment | IncorrectAccount | Other.
#[global] Instance t_eq_dec : EqDecision t.
Proof. solve_decision. Defined.
End PaymentDiscrepancy.

(** An arbitrator's vote off chain. *)
Module Vote.
Inductive t := BuyerWins | MerchantWins | Invalid.
#[global] Instance t_eq_dec : EqDecision t.
Proof. solve_decision. Defined.
End Vote.

(** ** Advertisements *)

Record AdvertisementCreate := mkAdvertisementCreate {
  ac_id : string;
  ac_merchant : PeerId;
  ac_merchant_public_key : PublicKey;
  ac_asset_mint : string;
  ac_direction : Direction;
  ac_fiat_currency : string;
  ac_min_trade : Amount;
  ac_max_trade : Amount;
  ac_initial_liquidity : Amount;
  ac_pricing : PricingModel;
  ac_payment_methods : list string;
  ac_timestamp : Timestamp;
}.

Record AdvertisementStatusSet := mkAdvertisementStatusSet {
  ast_id : string;
  ast_merchant : PeerId;
  ast_status : AdvertisementStatus;
  ast_timestamp : Timestamp;
}.

Record AdvertisementTermsUpdate := mkAdvertisementTermsUpdate {
  atu_id : string;
  atu_merchant : PeerId;
  atu_min_trade : Amount;
  atu_max_trade : Amount;
  atu_payment_methods : list string;
  atu_timestamp : Timestamp;
}.

Record AdvertisementPriceUpdate := mkAdvertisementPriceUpdate {
  apu_id : string;
  apu_merchant : PeerId;
  apu_pricing : PricingModel;
  apu_timestamp : Timestamp;
}.

(** ** Reservations *)

Record ReservationRequest := mkReservationRequest {
  rr_id : string;
  rr_advertisement_id : string;
  rr_requester : PeerId;
  rr_requester_public_key : PublicKey;
  rr_amount : Amount;
  rr_agreed_price : Amount;
  rr_agreed_mid : option f64;
  rr_timestamp : Timestamp;
}.

Record ReservationCancel := mkReservationCancel {
  rcl_id : string;
  rcl_requester : PeerId;
  rcl_timestamp : Timestamp;
}.

(** ** Settlements *)

Record SettlementInitiate := mkSettlementInitiate {
  sti_id : string;
  sti_reservation_id : string;
  sti_buyer : PeerId;
  sti_buyer_public_key : PublicKey;
  sti_seller : PeerId;
  sti_seller_public_key : PublicKey;
  sti_amount : Amount;
  sti_timestamp : Timestamp;
}.

Record PaymentSubmitted := mkPaymentSubmitted {
  pys_settlement_id : string;
  pys_buyer : PeerId;
  pys_payment_reference : option string;
  pys_timestamp : Timestamp;
}.

Record PaymentReversed := mkPaymentReversed {
  pyr_settlement_id : string;
  pyr_buyer : PeerId;
  pyr_timestamp : Timestamp;
}.

Record SettlementApproved := mkSettlementApproved {
  sap_settlement_id : string;
  sap_seller : PeerId;
  sap_timestamp : Timestamp;
}.

Record SettlementRejected := mkSettlementRejected {
  srj_settlement_id : string;
  srj_seller : PeerId;
  srj_reason : string;
  srj_discrepancy : PaymentDiscrepancy.t;
  srj_timestamp : Timestamp;
}.

Record SettlementCancelled := mkSettlementCancelled {
  scn_settlement_id : string;
  scn_canceller : PeerId;
  scn_timestamp : Timestamp;
}.

(** ** Disputes *)

Record DisputeOpen := mkDisputeOpen {
  dop_id : string;
  dop_settlement_id : string;
  dop_opener : PeerId;
  dop_opener_public_key : PublicKey;
  dop_reason : string;
  dop_timestamp : Timestamp;
}.

Record ArbitratorJoin := mkArbitratorJoin {
  arj_dispute_id : string;
  arj_arbitrator : PeerId;
  arj_arbitrator_public_key : PublicKey;
  arj_timestamp : Timestamp;
}.

Record VoteCommit := mkVoteCommit {
  vcm_dispute_id : string;
  vcm_arbitrator : PeerId;
  vcm_commitment : list Z;
  vcm_timestamp : Timestamp;
}.

Record VoteReveal := mkVoteReveal {
  vrv_dispute_id : string;
  vrv_arbitrator : PeerId;
  vrv_vote : Vote.t;
  vrv_secret : list Z;
  vrv_timestamp : Timestamp;
}.

Record MutualSettlementAgree := mkMutualSettlementAgree {
  mta_dispute_id : string;
  mta_party : PeerId;
  mta_timestamp : Timestamp;
}.

(** ** Governance

    The off-chain proposals; the on-chain program's own types have the same
    names. *)

Module Gov.
Inductive ProposalCategory := Protocol | Economics | Marketplace | Infrastructure | Governance.
Inductive VoteChoice := Approve | Reject | Abstain.
#[global] Instance VoteChoice_eq_dec : EqDecision VoteChoice.
Proof. solve_decision. Defined.

Record ProposalCreate := mkProposalCreate {
  pc_id : string;
  pc_title : string;
  pc_summary : string;
  pc_category : ProposalCategory;
  pc_author : PeerId;
  pc_author_public_key : PublicKey;
  pc_onchain_proposal_id : option Z;
  pc_timestamp : Timestamp;
}.

Record VoteCast := mkVoteCast {
  vc_proposal_id : string;
  vc_voter : PeerId;
  vc_voter_public_key : PublicKey;
  vc_choice : VoteChoice;
  vc_weight : Z;
  vc_stake_account : string;
  vc_timestamp : Timestamp;
}.

Record ProposalWithdraw := mkProposalWithdraw {
  pw_proposal_id : string;
  pw_author : PeerId;
  pw_timestamp : Timestamp;
}.

Record ProposalActivate := mkProposalActivate {
  pv_proposal_id : string;
  pv_author : PeerId;
  pv_timestamp : Timestamp;
}.
End Gov.

(** ** Sessions, identity, reviews and trade channels *)

Module Sess.
Record SessionCreate := mkSessionCreate {
  sc_id : string;
  sc_wallet : PeerId;
  sc_wallet_public_key : PublicKey;
  sc_client : string;
  sc_host_node : PeerId;
  sc_permissions : list string;
  sc_timestamp : Timestamp;
  sc_expires_at : Timestamp;
}.

Record SessionRenew := mkSessionRenew {
  sr_session_id : string;
  sr_wallet : PeerId;
  sr_new_expires_at : Timestamp;
  sr_version : Z;
  sr_timestamp : Timestamp;
}.

Record SessionRevoke := mkSessionRevoke {
  sk_session_id : string;
  sk_wallet : PeerId;
  sk_timestamp : Timestamp;
}.

Record SessionMigrate := mkSessionMigrate {
  sg_session_id : string;
  sg_wallet : PeerId;
  sg_new_host_node : PeerId;
  sg_version : Z;
  sg_timestamp : Timestamp;
}.
End Sess.

Module Ident.
Inductive ClaimType :=
  | Email | Phone | Telegram | Discord | Twitter | MerchantName | BusinessName | Avatar
  | EncryptionKey | Custom (name : string).
#[global] Instance ClaimType_eq_dec : EqDecision ClaimType.
Proof. solve_decision. Defined.

Record ClaimPublish := mkClaimPublish {
  cp_id : string;
  cp_wallet : PeerId;
  cp_wallet_public_key : PublicKey;
  cp_claim_type : ClaimType;
  cp_value : string;
  cp_verified : bool;
  cp_supersedes : option string;
  cp_expires_at : option Timestamp;
  cp_timestamp : Timestamp;
}.

Record ClaimVerify := mkClaimVerify {
  cy_claim_id : string;
  cy_wallet : PeerId;
  cy_timestamp : Timestamp;
}.

Record ClaimRevoke := mkClaimRevoke {
  ck_claim_id : string;
  ck_wallet : PeerId;
  ck_timestamp : Timestamp;
}.
End Ident.

Module Rev.
Inductive Rating := One | Two | Three | Four | Five.
#[global] Instance Rating_eq_dec : EqDecision Rating.
Proof. solve_decision. Defined.

(** The comment is a list of Unicode scalar values. *)
Record Review := mkReview {
  rw_settlement : string;
  rw_author : PeerId;
  rw_author_public_key : PublicKey;
  rw_rating : Rating;
  rw_comment : list Z;
  rw_created_at : Timestamp;
}.
#[global] Instance Review_eq_dec : EqDecision Review.
Proof. solve_decision. Defined.
End Rev.

Module Chan.
Inductive EntryKind := PaymentDetails | Message.
#[global] Instance EntryKind_eq_dec : EqDecision EntryKind.
Proof. solve_decision. Defined.

Record SealedBox := mkSealedBox {
  sb_ephemeral_public : list Z;
  sb_nonce : list Z;
  sb_ciphertext : list Z;
}.

Record ChannelCiphertext := mkChannelCiphertext {
  cc_key_id : list Z;
  cc_nonce : list Z;
  cc_ciphertext : list Z;
}.
#[global] Instance ChannelCiphertext_eq_dec : EqDecision ChannelCiphertext.
Proof. solve_decision. Defined.

Record TradeChannelKeyGrant := mkKeyGrantEvent {
  kg_settlement_id : string;
  kg_granter : PeerId;
  kg_recipient : PeerId;
  kg_key_id : list Z;
  kg_sealed_key : SealedBox;
  kg_timestamp : Timestamp;
}.

Record TradeChannelEntryPost := mkEntryPost {
  ep_settlement_id : string;
  ep_author : PeerId;
  ep_sequence : Z;
  ep_kind : EntryKind;
  ep_payload : ChannelCiphertext;
  ep_timestamp : Timestamp;
}.
End Chan.

(** ** Services, fees and oracle records *)

Module Svc.
Inductive InfrastructureService := BootstrapNode | SnapshotProvider | PublicApiNode.
#[global] Instance InfrastructureService_eq_dec : EqDecision InfrastructureService.
Proof. solve_decision. Defined.
Inductive MarketplaceService := MerchantGateway | AnalyticsProvider.
#[global] Instance MarketplaceService_eq_dec : EqDecision MarketplaceService.
Proof. solve_decision. Defined.
Inductive NotificationChannel := Email | Telegram | Sms | Push | Webhook.
#[global] Instance NotificationChannel_eq_dec : EqDecision NotificationChannel.
Proof. solve_decision. Defined.
Inductive MarketDataService := PriceOracle | FxOracle.
#[global] Instance MarketDataService_eq_dec : EqDecision MarketDataService.
Proof. solve_decision. Defined.
Inductive SecurityService := RiskIntelligenceProvider | WalletFlaggingProvider.
#[global] Instance SecurityService_eq_dec : EqDecision SecurityService.
Proof. solve_decision. Defined.

Inductive ServiceType :=
  | Infrastructure (s : InfrastructureService)
  | Marketplace (s : MarketplaceService)
  | Notifications (s : NotificationChannel)
  | MarketData (s : MarketDataService)
  | Security (s : SecurityService).
#[global] Instance ServiceType_eq_dec : EqDecision ServiceType.
Proof. solve_decision. Defined.

Inductive HealthState := Online | Maintenance | Degraded | Offline.
#[global] Instance HealthState_eq_dec : EqDecision HealthState.
Proof. solve_decision. Defined.

Inductive BillingUnit := Request | Trade | Month.
#[global] Instance BillingUnit_eq_dec : EqDecision BillingUnit.
Proof. solve_decision. Defined.

Record ServicePricing := mkServicePricing {
  sp_token_mint : string;
  sp_amount : Amount;
  sp_unit : BillingUnit;
}.

(** What is shown to a reader is a list of Unicode scalar values. *)
Record ServiceBranding := mkServiceBranding {
  br_name : option (list Z);
  br_description : option (list Z);
  br_logo : option string;
  br_website : option (list Z);
}.

Record Registration := mkRegistration {
  rg_service_id : string;
  rg_service_type : ServiceType;
  rg_provider : PeerId;
  rg_provider_public_key : PublicKey;
  rg_endpoints : list (list Z);
  rg_supported_ofs : list Z;
  rg_region : option string;
  rg_capabilities : list string;
  rg_branding : option ServiceBranding;
  rg_pricing : option ServicePricing;
  rg_payout_wallet : option string;
  rg_timestamp : Timestamp;
}.

Record HealthUpdate := mkHealthUpdate {
  hu_service_id : string;
  hu_provider : PeerId;
  hu_state : HealthState;
  hu_timestamp : Timestamp;
}.

Record Withdrawal := mkWithdrawal {
  wd_service_id : string;
  wd_provider : PeerId;
  wd_timestamp : Timestamp;
}.

Record FeeSettlement := mkFeeSettlement {
  fs_service_id : string;
  fs_payer : PeerId;
  fs_payer_public_key : PublicKey;
  fs_fee : Amount;
  fs_fee_mint : string;
  fs_settlement_mint : string;
  fs_settlement_amount : Amount;
  fs_rate : f64;
  fs_quoted_at : Timestamp;
  fs_expires_at : Timestamp;
  fs_reference : string;
}.
End Svc.

Module Orc.
(** A published rate is kept as the double's 64 bits: the median orders them
    by [total_cmp], which tells apart what the numbers do not. *)
Inductive OracleData :=
  | ExchangeRate (base quote : string) (rate : Z)
  | StablecoinMetadata (symbol name : string) (decimals : Z) (blockchain : string)
      (mint_address website : option string) (status : string)
  | PaymentInfrastructure (rail : string) (available : bool) (note : option string)
  | RegionalMetadata (country : string) (supported_fiat payment_methods : list string).

Record OraclePublish := mkOraclePublish {
  op_id : string;
  op_provider : PeerId;
  op_provider_public_key : PublicKey;
  op_data : OracleData;
  op_version : Z;
  op_timestamp : Timestamp;
  op_expires_at : Timestamp;
}.

(** The exponent field is not all ones. *)
Definition finite_bits (bits : Z) : Prop := Z.land (Z.shiftr bits 52) 2047 ≠ 2047.
End Orc.

(** ** Risk records and attachments *)

Module Rsk.
Inductive ProviderCategory :=
  BlockchainAnalytics | FraudIntelligence | Compliance | CommunityIntelligence | InfrastructureIntelligence.
Inductive Severity := Informational | Low | Medium | High | Critical.
Inductive Confidence := ConfidenceUnknown | ConfidenceLow | ConfidenceMedium | ConfidenceHigh | ConfidenceVeryHigh.
Inductive RiskOutcome := Flagged | Cleared.
#[global] Instance RiskOutcome_eq_dec : EqDecision RiskOutcome.
Proof. solve_decision. Defined.

Record RiskPublish := mkRiskPublish {
  rp_id : string;
  rp_provider : PeerId;
  rp_provider_public_key : PublicKey;
  rp_wallet : PeerId;
  rp_category : ProviderCategory;
  rp_outcome : RiskOutcome;
  rp_severity : Severity;
  rp_confidence : Confidence;
  rp_reason : string;
  rp_evidence : list string;
  rp_timestamp : Timestamp;
  rp_expires_at : option Timestamp;
}.
End Rsk.

Module Att.
Inductive MediaType := Png | Jpeg | Webp | Pdf.
Inductive AttachmentSubject := SettlementSubject (id : string).
#[global] Instance AttachmentSubject_eq_dec : EqDecision AttachmentSubject.
Proof. solve_decision. Defined.

(** The caption is a list of Unicode scalar values. *)
Record Attachment := mkAttachment {
  at_id : string;
  at_subject : AttachmentSubject;
  at_author : PeerId;
  at_author_public_key : PublicKey;
  at_cid : string;
  at_media_type : MediaType;
  at_size_bytes : Z;
  at_caption : list Z;
  at_created_at : Timestamp;
}.
End Att.

(** ** Statements *)

Inductive statement :=
  | StAdvertisementCreate (x : AdvertisementCreate)
  | StAdvertisementStatusSet (x : AdvertisementStatusSet)
  | StAdvertisementTermsUpdate (x : AdvertisementTermsUpdate)
  | StAdvertisementPriceUpdate (x : AdvertisementPriceUpdate)
  | StReservationRequest (x : ReservationRequest)
  | StReservationCancel (x : ReservationCancel)
  | StSettlementInitiate (x : SettlementInitiate)
  | StPaymentSubmitted (x : PaymentSubmitted)
  | StPaymentReversed (x : PaymentReversed)
  | StSettlementApproved (x : SettlementApproved)
  | StSettlementRejected (x : SettlementRejected)
  | StSettlementCancelled (x : SettlementCancelled)
  | StDisputeOpen (x : DisputeOpen)
  | StArbitratorJoin (x : ArbitratorJoin)
  | StVoteCommit (x : VoteCommit)
  | StVoteReveal (x : VoteReveal)
  | StMutualSettlementAgree (x : MutualSettlementAgree)
  | StProposalCreate (x : Gov.ProposalCreate)
  | StVoteCast (x : Gov.VoteCast)
  | StProposalWithdraw (x : Gov.ProposalWithdraw)
  | StProposalActivate (x : Gov.ProposalActivate)
  | StSessionCreate (x : Sess.SessionCreate)
  | StSessionRenew (x : Sess.SessionRenew)
  | StSessionRevoke (x : Sess.SessionRevoke)
  | StSessionMigrate (x : Sess.SessionMigrate)
  | StClaimPublish (x : Ident.ClaimPublish)
  | StClaimVerify (x : Ident.ClaimVerify)
  | StClaimRevoke (x : Ident.ClaimRevoke)
  | StReviewPublish (x : Rev.Review)
  | StTradeChannelKeyGrant (x : Chan.TradeChannelKeyGrant)
  | StTradeChannelEntryPost (x : Chan.TradeChannelEntryPost)
  | StRegistration (x : Svc.Registration)
  | StHealthUpdate (x : Svc.HealthUpdate)
  | StWithdrawal (x : Svc.Withdrawal)
  | StFeeSettlement (x : Svc.FeeSettlement)
  | StOraclePublish (x : Orc.OraclePublish)
  | StRiskPublish (x : Rsk.RiskPublish)
  | StAttachmentPublish (x : Att.Attachment).

Definition tag_of (x : statement) : string :=
  match x with
  | StAdvertisementCreate _ => "openfiat/advertisements/AdvertisementCreate/v1"
  | StAdvertisementStatusSet _ => "openfiat/advertisements/AdvertisementStatusSet/v1"
  | StAdvertisementTermsUpdate _ => "openfiat/advertisements/AdvertisementTermsUpdate/v1"
  | StAdvertisementPriceUpdate _ => "openfiat/advertisements/AdvertisementPriceUpdate/v1"
  | StReservationRequest _ => "openfiat/reservations/ReservationRequest/v1"
  | StReservationCancel _ => "openfiat/reservations/ReservationCancel/v1"
  | StSettlementInitiate _ => "openfiat/settlement/SettlementInitiate/v1"
  | StPaymentSubmitted _ => "openfiat/settlement/PaymentSubmitted/v1"
  | StPaymentReversed _ => "openfiat/settlement/PaymentReversed/v1"
  | StSettlementApproved _ => "openfiat/settlement/SettlementApproved/v1"
  | StSettlementRejected _ => "openfiat/settlement/SettlementRejected/v1"
  | StSettlementCancelled _ => "openfiat/settlement/SettlementCancelled/v1"
  | StDisputeOpen _ => "openfiat/disputes/DisputeOpen/v1"
  | StArbitratorJoin _ => "openfiat/disputes/ArbitratorJoin/v1"
  | StVoteCommit _ => "openfiat/disputes/VoteCommit/v1"
  | StVoteReveal _ => "openfiat/disputes/VoteReveal/v1"
  | StMutualSettlementAgree _ => "openfiat/disputes/MutualSettlementAgree/v1"
  | StProposalCreate _ => "openfiat/governance/ProposalCreate/v1"
  | StVoteCast _ => "openfiat/governance/VoteCast/v1"
  | StProposalWithdraw _ => "openfiat/governance/ProposalWithdraw/v1"
  | StProposalActivate _ => "openfiat/governance/ProposalActivate/v1"
  | StSessionCreate _ => "openfiat/sessions/SessionCreate/v1"
  | StSessionRenew _ => "openfiat/sessions/SessionRenew/v1"
  | StSessionRevoke _ => "openfiat/sessions/SessionRevoke/v1"
  | StSessionMigrate _ => "openfiat/sessions/SessionMigrate/v1"
  | StClaimPublish _ => "openfiat/identity/ClaimPublish/v1"
  | StClaimVerify _ => "openfiat/identity/ClaimVerify/v1"
  | StClaimRevoke _ => "openfiat/identity/ClaimRevoke/v1"
  | StReviewPublish _ => "openfiat/reviews/ReviewPublish/v1"
  | StTradeChannelKeyGrant _ => "openfiat/tradechannel/TradeChannelKeyGrant/v1"
  | StTradeChannelEntryPost _ => "openfiat/tradechannel/TradeChannelEntryPost/v1"
  | StRegistration _ => "openfiat/registry/Registration/v1"
  | StHealthUpdate _ => "openfiat/registry/HealthUpdate/v1"
  | StWithdrawal _ => "openfiat/registry/Withdrawal/v1"
  | StFeeSettlement _ => "openfiat/registry/FeeSettlement/v1"
  | StOraclePublish _ => "openfiat/oracles/OraclePublish/v1"
  | StRiskPublish _ => "openfiat/risk/RiskPublish/v1"
  | StAttachmentPublish _ => "openfiat/content/AttachmentPublish/v1"
  end%string.

(** What the crates use of other people's code. *)
Class Wire := {
  verify : PublicKey → list Z → Signature → bool;
  peer_id_from_public_key : PublicKey → option PeerId;
  base58 : list Z → string;
  json : statement → option (list Z);
  digest : list Z → list Z;
}.

(** [domain::preimage]. *)
Definition preimage `{Wire} (x : statement) : option (list Z) :=
  body ← json x; Some (preimage_raw (tag_of x) body).

(** A statement and the signature that came with it. *)
Record signed (A : Type) := mkSigned { payload : A; signature : Signature }.
Arguments mkSigned {A}.
Arguments payload {A}.
Arguments signature {A}.

(** The signature covers the statement under the key. *)
Definition check_signature `{Wire} {E} (malformed invalid : E) (key : PublicKey) (x : statement)
    (sig : Signature) : result E unit :=
  bytes ← ok_or (preimage x) (Code malformed);
  require (verify key bytes sig = true) (Code invalid).

(** A statement that names its signer's key: the key gives the claimed peer,
    and the signature is by that key. *)
Definition verify_self `{Wire} {E} (malformed invalid unauthorized : E) (key : PublicKey) (peer : PeerId)
    (x : statement) (sig : Signature) : result E unit :=
  expected ← ok_or (peer_id_from_public_key key) (Code invalid);
  _ ← require (expected = peer) (Code unauthorized);
  check_signature malformed invalid key x sig.

(** The signature is a signature of the statement. *)
Definition signed_by `{Wire} (key : PublicKey) (x : statement) (sig : Signature) : Prop :=
  ∃ bytes, preimage x = Some bytes ∧ verify key bytes sig = true.

Section signatures.
Context `{Wire}.

Lemma check_signature_Ok {E} (m i : E) key x sig u :
  check_signature m i key x sig = Ok u ↔ signed_by key x sig.
Proof.
  unfold check_signature, signed_by. destruct (preimage x) as [b|]; simpl; [|naive_solver].
  rewrite require_Ok. naive_solver.
Qed.

Lemma verify_self_Ok {E} (m i a : E) key peer x sig u :
  verify_self m i a key peer x sig = Ok u ↔ peer_id_from_public_key key = Some peer ∧ signed_by key x sig.
Proof.
  unfold verify_self. destruct (peer_id_from_public_key key) as [q|]; simpl; [|naive_solver].
  unfold require. case_decide; simpl; [rewrite check_signature_Ok|]; naive_solver.
Qed.

(** ** Domain separation *)

(** A statement carries no infinite or undefined number, which JSON writes as
    an absent one. *)
Definition finite_statement (x : statement) : Prop :=
  match x with
  | StReservationRequest r =>
      match rr_agreed_mid r with Some (S754_infinity _) | Some S754_nan => False | _ => True end
  | StFeeSettlement f => match Svc.fs_rate f with S754_infinity _ | S754_nan => False | _ => True end
  | StOraclePublish p => match Orc.op_data p with Orc.ExchangeRate _ _ rate => Orc.finite_bits rate | _ => True end
  | _ => True
  end.

(** The Rust type of a statement, by its place in the list above. *)
Definition kind_of (x : statement) : nat :=
  match x with
  | StAdvertisementCreate _ => 0
  | StAdvertisementStatusSet _ => 1
  | StAdvertisementTermsUpdate _ => 2
  | StAdvertisementPriceUpdate _ => 3
  | StReservationRequest _ => 4
  | StReservationCancel _ => 5
  | StSettlementInitiate _ => 6
  | StPaymentSubmitted _ => 7
  | StPaymentReversed _ => 8
  | StSettlementApproved _ => 9
  | StSettlementRejected _ => 10
  | StSettlementCancelled _ => 11
  | StDisputeOpen _ => 12
  | StArbitratorJoin _ => 13
  | StVoteCommit _ => 14
  | StVoteReveal _ => 15
  | StMutualSettlementAgree _ => 16
  | StProposalCreate _ => 17
  | StVoteCast _ => 18
  | StProposalWithdraw _ => 19
  | StProposalActivate _ => 20
  | StSessionCreate _ => 21
  | StSessionRenew _ => 22
  | StSessionRevoke _ => 23
  | StSessionMigrate _ => 24
  | StClaimPublish _ => 25
  | StClaimVerify _ => 26
  | StClaimRevoke _ => 27
  | StReviewPublish _ => 28
  | StTradeChannelKeyGrant _ => 29
  | StTradeChannelEntryPost _ => 30
  | StRegistration _ => 31
  | StHealthUpdate _ => 32
  | StWithdrawal _ => 33
  | StFeeSettlement _ => 34
  | StOraclePublish _ => 35
  | StRiskPublish _ => 36
  | StAttachmentPublish _ => 37
  end.

(** The tags, one per type, in the same order. *)
Definition tags : list string :=
  [ "openfiat/advertisements/AdvertisementCreate/v1";
    "openfiat/advertisements/AdvertisementStatusSet/v1";
    "openfiat/advertisements/AdvertisementTermsUpdate/v1";
    "openfiat/advertisements/AdvertisementPriceUpdate/v1";
    "openfiat/reservations/ReservationRequest/v1";
    "openfiat/reservations/ReservationCancel/v1";
    "openfiat/settlement/SettlementInitiate/v1";
    "openfiat/settlement/PaymentSubmitted/v1";
    "openfiat/settlement/PaymentReversed/v1";
    "openfiat/settlement/SettlementApproved/v1";
    "openfiat/settlement/SettlementRejected/v1";
    "openfiat/settlement/SettlementCancelled/v1";
    "openfiat/disputes/DisputeOpen/v1";
    "openfiat/disputes/ArbitratorJoin/v1";
    "openfiat/disputes/VoteCommit/v1";
    "openfiat/disputes/VoteReveal/v1";
    "openfiat/disputes/MutualSettlementAgree/v1";
    "openfiat/governance/ProposalCreate/v1";
    "openfiat/governance/VoteCast/v1";
    "openfiat/governance/ProposalWithdraw/v1";
    "openfiat/governance/ProposalActivate/v1";
    "openfiat/sessions/SessionCreate/v1";
    "openfiat/sessions/SessionRenew/v1";
    "openfiat/sessions/SessionRevoke/v1";
    "openfiat/sessions/SessionMigrate/v1";
    "openfiat/identity/ClaimPublish/v1";
    "openfiat/identity/ClaimVerify/v1";
    "openfiat/identity/ClaimRevoke/v1";
    "openfiat/reviews/ReviewPublish/v1";
    "openfiat/tradechannel/TradeChannelKeyGrant/v1";
    "openfiat/tradechannel/TradeChannelEntryPost/v1";
    "openfiat/registry/Registration/v1";
    "openfiat/registry/HealthUpdate/v1";
    "openfiat/registry/Withdrawal/v1";
    "openfiat/registry/FeeSettlement/v1";
    "openfiat/oracles/OraclePublish/v1";
    "openfiat/risk/RiskPublish/v1";
    "openfiat/content/AttachmentPublish/v1" ]%string.

Lemma tag_length x : u32 (Z.of_nat (length (bytes_of (tag_of x)))).
Proof. by destruct x. Qed.

Lemma tag_at x : tags !! kind_of x = Some (tag_of x).
Proof. by destruct x. Qed.

(** No two types share a tag. *)
Lemma tag_kind x y : tag_of x = tag_of y → kind_of x = kind_of y.
Proof.
  intros Heq. assert (NoDup tags) as Hnd by (apply (bool_decide_unpack _); by vm_compute).
  eapply (NoDup_lookup tags); [done|apply tag_at|]. rewrite Heq. apply tag_at.
Qed.

(** C20: a signature speaks for one statement.  Suppose only that the encoder tells
    apart the statements of one type that carry no infinite or undefined
    number.  Then two such statements, of whatever types, that have the same
    preimage are the same statement: a signature made for one action is never a
    signature for an action of another type, even when the encoder writes the
    same bytes for both. *)
Theorem statements_are_separated x y :
  (∀ x y b, kind_of x = kind_of y → finite_statement x → finite_statement y →
     json x = Some b → json y = Some b → x = y) →
  finite_statement x → finite_statement y → is_Some (preimage x) → preimage x = preimage y → x = y.
Proof.
  unfold preimage. intros Hjson Hx Hy [b Hb] Heq.
  destruct (json x) as [bx|] eqn:Hjx; [|done]. destruct (json y) as [by'|] eqn:Hjy; [|done].
  cbn [mbind option_bind] in Heq.
  assert (preimage_raw (tag_of x) bx = preimage_raw (tag_of y) by') as Hpre by congruence.
  apply preimage_raw_inj in Hpre as [Htag%tag_kind <-]; [by eapply Hjson|apply tag_length..].
Qed.
End signatures.

(** Read the checks of a handler that accepted. *)
Ltac inv_signed :=
  repeat match goal with
  | Hs : check_signature _ _ _ _ _ = Ok _ |- _ => apply check_signature_Ok in Hs
  | Hs : verify_self _ _ _ _ _ _ _ = Ok _ |- _ => apply verify_self_Ok in Hs as [? ?]
  end.
