(* ===== verification/Offers.v ===== *)
(** * Offers: the replicated index of advertisements

    Models [crates/advertisements/src/record.rs], [error.rs] and [store.rs], and
    [PaymentMethodRef] of [crates/taxonomy/src/record.rs] as far as the index
    uses it.  A column family of the key-value store is a finite map from
    identifiers to records; reading the clock is an argument. *)

From Stdlib Require Import Ascii.
From S2P Require Import Prelude Runtime Peers Pricing Statements.

Module AdvertisementError.
Inductive AdvertisementError :=
  | InvalidSignature | UnauthorizedUpdate | DuplicateAdvertisementId | MalformedAdvertisement
  | NegativeLiquidity | AdvertisementNotFound | InsufficientLiquidity | AdvertisementDeleted
  | UnusableTerms.
End AdvertisementError.
Import AdvertisementError.

Record Advertisement := mkAdvertisement {
  ad_id : string;
  ad_merchant : PeerId;
  ad_merchant_public_key : PublicKey;
  ad_asset_mint : string;
  ad_direction : Direction;
  ad_fiat_currency : string;
  ad_min_trade : Amount;
  ad_max_trade : Amount;
  ad_available_liquidity : Amount;
  ad_pricing : PricingModel;
  ad_payment_methods : list string;
  ad_status : AdvertisementStatus;
  ad_created_at : Timestamp;
  ad_updated_at : Timestamp;
}.
#[export] Instance Advertisement_eta : Settable Advertisement := fun r =>
  mkAdvertisement (ad_id r) (ad_merchant r) (ad_merchant_public_key r) (ad_asset_mint r)
    (ad_direction r) (ad_fiat_currency r) (ad_min_trade r) (ad_max_trade r)
    (ad_available_liquidity r) (ad_pricing r) (ad_payment_methods r) (ad_status r)
    (ad_created_at r) (ad_updated_at r).

Abbreviation offers := (gmap string Advertisement).
Abbreviation ad_result := (result AdvertisementError).

(** ** Payment method references *)

(** The part before the first colon. *)
Fixpoint before_colon (s : string) : option string :=
  match s with
  | EmptyString => None
  | String c rest =>
      if Ascii.eqb c ":"%char then Some EmptyString else String c <$> before_colon rest
  end.

Definition owner (method : string) : option string :=
  namespace ← before_colon method;
  if decide (namespace ≠ "builtin"%string) then Some namespace else None.

Section offers.
Context `{Wire}.
Implicit Types (ads : offers) (ad : Advertisement) (now : Timestamp).

Definition is_selectable_by (method : string) (merchant : PeerId) : bool :=
  match owner method with
  | None => true
  | Some o => bool_decide (o = base58 merchant)
  end.

(** ** The index *)

Definition put_ad ads ad : offers := <[ad_id ad := ad]> ads.

Definition check_terms (min_trade max_trade : Amount) (payment_methods : list string) (merchant : PeerId)
    : ad_result unit :=
  _ ← require (payment_methods ≠ []) (Code UnusableTerms);
  _ ← require (forallb (λ method, is_selectable_by method merchant) payment_methods = true)
        (Code UnusableTerms);
  require (¬ (decimals min_trade ≠ decimals max_trade ∨ base_units max_trade < base_units min_trade))
    (Code UnusableTerms).

Definition apply_create (x : signed AdvertisementCreate) ads : ad_result offers :=
  let c := payload x in
  _ ← verify_self MalformedAdvertisement InvalidSignature UnauthorizedUpdate
        (ac_merchant_public_key c) (ac_merchant c) (StAdvertisementCreate c) (signature x);
  _ ← require (ads !! ac_id c = None) (Code DuplicateAdvertisementId);
  _ ← check_terms (ac_min_trade c) (ac_max_trade c) (ac_payment_methods c) (ac_merchant c);
  Ok (put_ad ads
        (mkAdvertisement (ac_id c) (ac_merchant c) (ac_merchant_public_key c) (ac_asset_mint c)
           (ac_direction c) (ac_fiat_currency c) (ac_min_trade c) (ac_max_trade c)
           (ac_initial_liquidity c) (ac_pricing c) (ac_payment_methods c) Active
           (ac_timestamp c) (ac_timestamp c))).

Definition authorize ads (id : string) (merchant : PeerId) (x : statement) (sig : Signature)
    : ad_result Advertisement :=
  bytes ← ok_or (preimage x) (Code MalformedAdvertisement);
  ad ← ok_or (ads !! id) (Code AdvertisementNotFound);
  _ ← require (verify (ad_merchant_public_key ad) bytes sig = true) (Code InvalidSignature);
  _ ← require (ad_merchant ad = merchant) (Code UnauthorizedUpdate);
  _ ← require (ad_status ad ≠ Deleted) (Code AdvertisementDeleted);
  Ok ad.

Definition apply_status_set (x : signed AdvertisementStatusSet) ads : ad_result offers :=
  let u := payload x in
  ad ← authorize ads (ast_id u) (ast_merchant u) (StAdvertisementStatusSet u) (signature x);
  _ ← require (¬ (ast_status u = Active ∧ base_units (ad_available_liquidity ad) = 0))
        (Code InsufficientLiquidity);
  Ok (put_ad ads (ad <| ad_status := ast_status u |> <| ad_updated_at := ast_timestamp u |>)).

Definition apply_terms_update (x : signed AdvertisementTermsUpdate) ads : ad_result offers :=
  let u := payload x in
  ad ← authorize ads (atu_id u) (atu_merchant u) (StAdvertisementTermsUpdate u) (signature x);
  _ ← check_terms (atu_min_trade u) (atu_max_trade u) (atu_payment_methods u) (atu_merchant u);
  Ok (put_ad ads (ad <| ad_min_trade := atu_min_trade u |> <| ad_max_trade := atu_max_trade u |>
                     <| ad_payment_methods := atu_payment_methods u |>
                     <| ad_updated_at := atu_timestamp u |>)).

Definition apply_pricing_update (x : signed AdvertisementPriceUpdate) ads : ad_result offers :=
  let u := payload x in
  ad ← authorize ads (apu_id u) (apu_merchant u) (StAdvertisementPriceUpdate u) (signature x);
  Ok (put_ad ads (ad <| ad_pricing := apu_pricing u |> <| ad_updated_at := apu_timestamp u |>)).

Definition reserve_liquidity now (id : string) (amount : Amount) ads : ad_result offers :=
  ad ← ok_or (ads !! id) (Code AdvertisementNotFound);
  remaining ← ok_or (amount_checked_sub (ad_available_liquidity ad) amount) (Code InsufficientLiquidity);
  let ad := ad <| ad_available_liquidity := remaining |> in
  let ad := if decide (base_units remaining = 0) then ad <| ad_status := Disabled |> else ad in
  Ok (put_ad ads (ad <| ad_updated_at := now |>)).

Definition release_liquidity now (id : string) (amount : Amount) ads : ad_result offers :=
  ad ← ok_or (ads !! id) (Code AdvertisementNotFound);
  available ← ok_or (amount_checked_add (ad_available_liquidity ad) amount) (Code MalformedAdvertisement);
  Ok (put_ad ads (ad <| ad_available_liquidity := available |> <| ad_updated_at := now |>)).
End offers.
