(* ===== verification/MarketState.v ===== *)
(** * MarketState: the records a node keeps of the marketplace

    Models [record.rs] of the crates [reservations], [settlement] and
    [disputes], and the four indexes of one node, which share their state the
    way the registries share handles. *)

From stdpp Require Import sorting.
From S2P Require Import Prelude Runtime Peers Pricing Statements Offers.

(** ** Reservations *)

Module ReservationState.
Inductive t := EscrowLocked | Settling | Settled | Cancelled | Expired.
#[global] Instance t_eq_dec : EqDecision t.
Proof. solve_decision. Defined.
End ReservationState.

Record Reservation := mkReservation {
  rv_id : string;
  rv_advertisement_id : string;
  rv_requester : PeerId;
  rv_requester_public_key : PublicKey;
  rv_amount : Amount;
  rv_agreed_price : Amount;
  rv_agreed_mid : option f64;
  rv_state : ReservationState.t;
  rv_requested_at : Timestamp;
  rv_updated_at : Timestamp;
  rv_expires_at : Timestamp;
}.
#[export] Instance Reservation_eta : Settable Reservation := fun r =>
  mkReservation (rv_id r) (rv_advertisement_id r) (rv_requester r) (rv_requester_public_key r)
    (rv_amount r) (rv_agreed_price r) (rv_agreed_mid r) (rv_state r) (rv_requested_at r)
    (rv_updated_at r) (rv_expires_at r).

(** ** Settlements *)

Module SettlementState.
Inductive t := AwaitingPayment | PaymentSubmitted | Approved | Completed | Rejected | Cancelled | Disputed.
#[global] Instance t_eq_dec : EqDecision t.
Proof. solve_decision. Defined.
End SettlementState.

Inductive DisputeVerdict := EscrowReleased | EscrowReturned.

Record Settlement := mkSettlement {
  sm_id : string;
  sm_reservation_id : string;
  sm_buyer : PeerId;
  sm_buyer_public_key : PublicKey;
  sm_seller : PeerId;
  sm_seller_public_key : PublicKey;
  sm_amount : Amount;
  sm_state : SettlementState.t;
  sm_payment_reference : option string;
  sm_escrow_release_signature : option string;
  sm_payment_submitted_at : option Timestamp;
  sm_merchant_responded_at : option Timestamp;
  sm_payment_discrepancy : option PaymentDiscrepancy.t;
  sm_disputed_at : option Timestamp;
  sm_created_at : Timestamp;
  sm_updated_at : Timestamp;
}.
#[export] Instance Settlement_eta : Settable Settlement := fun r =>
  mkSettlement (sm_id r) (sm_reservation_id r) (sm_buyer r) (sm_buyer_public_key r) (sm_seller r)
    (sm_seller_public_key r) (sm_amount r) (sm_state r) (sm_payment_reference r)
    (sm_escrow_release_signature r) (sm_payment_submitted_at r) (sm_merchant_responded_at r)
    (sm_payment_discrepancy r) (sm_disputed_at r) (sm_created_at r) (sm_updated_at r).

(** ** Disputes *)

Module DisputeStatus.
Inductive t := Open | CaseLocked | RevealPhase | AwaitingChainExecution | Resolved.
#[global] Instance t_eq_dec : EqDecision t.
Proof. solve_decision. Defined.
End DisputeStatus.

Module Resolution.
Inductive t := BuyerWins | MerchantWins | MutualSettlement | Invalid.
#[global] Instance t_eq_dec : EqDecision t.
Proof. solve_decision. Defined.
End Resolution.

Definition escrow_verdict (r : Resolution.t) : DisputeVerdict :=
  match r with
  | Resolution.BuyerWins | Resolution.MutualSettlement => EscrowReleased
  | Resolution.MerchantWins | Resolution.Invalid => EscrowReturned
  end.

Record Dispute := mkDispute {
  dp_id : string;
  dp_settlement_id : string;
  dp_buyer : PeerId;
  dp_buyer_public_key : PublicKey;
  dp_seller : PeerId;
  dp_seller_public_key : PublicKey;
  dp_opener : PeerId;
  dp_reason : string;
  dp_status : DisputeStatus.t;
  dp_required_arbitrators : Z;
  dp_arbitrators : list PeerId;
  dp_arbitrator_keys : list (PeerId * PublicKey);
  dp_commitments : list (PeerId * list Z);
  dp_reveals : list (PeerId * Vote.t);
  dp_resolution : option Resolution.t;
  dp_buyer_agreed : bool;
  dp_seller_agreed : bool;
  dp_onchain_execution_signature : option string;
  dp_opened_at : Timestamp;
  dp_updated_at : Timestamp;
}.
#[export] Instance Dispute_eta : Settable Dispute := fun r =>
  mkDispute (dp_id r) (dp_settlement_id r) (dp_buyer r) (dp_buyer_public_key r) (dp_seller r)
    (dp_seller_public_key r) (dp_opener r) (dp_reason r) (dp_status r) (dp_required_arbitrators r)
    (dp_arbitrators r) (dp_arbitrator_keys r) (dp_commitments r) (dp_reveals r) (dp_resolution r)
    (dp_buyer_agreed r) (dp_seller_agreed r) (dp_onchain_execution_signature r) (dp_opened_at r)
    (dp_updated_at r).

(** [arbitrator_keys.iter().find(|(id, _)| id == arbitrator)]. *)
Fixpoint assoc {V} (l : list (PeerId * V)) (k : PeerId) : option V :=
  match l with
  | [] => None
  | (k', v) :: rest => if decide (k' = k) then Some v else assoc rest k
  end.

Definition arbitrator_key (d : Dispute) (arbitrator : PeerId) : option PublicKey :=
  assoc (dp_arbitrator_keys d) arbitrator.

(** ** One node *)

Record node := mkNode {
  nd_ads : offers;
  nd_reservations : gmap string Reservation;
  nd_settlements : gmap string Settlement;
  nd_disputes : gmap string Dispute;
}.
#[export] Instance node_eta : Settable node := fun r =>
  mkNode (nd_ads r) (nd_reservations r) (nd_settlements r) (nd_disputes r).

Definition put_reservation (n : node) (r : Reservation) : node :=
  n <| nd_reservations := <[rv_id r := r]> (nd_reservations n) |>.
Definition put_settlement (n : node) (s : Settlement) : node :=
  n <| nd_settlements := <[sm_id s := s]> (nd_settlements n) |>.
Definition put_dispute (n : node) (d : Dispute) : node :=
  n <| nd_disputes := <[dp_id d := d]> (nd_disputes n) |>.

(** [iter_prefix] walks a column family in ascending key order. *)
Definition key_le {V} (a b : string * V) : Prop := bytes_le (bytes_of a.1) (bytes_of b.1).
#[export] Instance key_le_dec {V} (a b : string * V) : Decision (key_le a b).
Proof. unfold key_le. apply _. Defined.

Definition all_reservations (n : node) : list Reservation :=
  (merge_sort key_le (map_to_list (nd_reservations n))).*2.

(** [let _ = f(...)]: the effect if the call succeeds, nothing otherwise. *)
Definition ignoring {E A} (r : result E A) (a : A) : A := match r with Ok a' => a' | Err _ => a end.
