(* ===== verification/Reservations.v ===== *)
(** * Reservations: holding an advertisement's liquidity for a trade

    Models [crates/reservations/src/store.rs] and the windows of
    [protocol.rs]. *)

From S2P Require Import Prelude Runtime Peers Pricing Statements Offers MarketState.

Module ReservationError.
Inductive ReservationError :=
  | InvalidSignature | UnauthorizedUpdate | DuplicateReservationId | MalformedReservation
  | ReservationNotFound | AdvertisementNotFound | InvalidAmount | InsufficientLiquidity
  | InvalidReservationState | SettlementInFlight | PriceDisagreement | TimestampTooFarAhead.
End ReservationError.
Import ReservationError.

Definition VALIDATION_WINDOW : Z := 30 * 60 * 1000.
Definition MAX_CLOCK_SKEW : Z := 5 * 60 * 1000.

Record ExpirySweep := mkSweep { sw_expired : Z; sw_deferred : Z }.

Section reservations.
Context `{Wire}.
Implicit Types (n : node) (now : Timestamp).

(** A call into the advertisement index, its error replaced. *)
Definition on_ads {E F} (r : result E offers) (f : F) n : result F node :=
  match r with Ok ads => Ok (n <| nd_ads := ads |>) | Err _ => Err (Code f) end.

(** The advertisement is written before the deadline is computed.  The deadline
    is at most the clock plus [MAX_CLOCK_SKEW] and [VALIDATION_WINDOW], by the
    check on the timestamp, so the addition can overflow, and leave that write
    without its reservation, only when the clock of the node is within those of
    the end of its 64 bits; that step is not a step here. *)
Definition apply_request now (x : signed ReservationRequest) n : result ReservationError node :=
  let r := payload x in
  _ ← verify_self MalformedReservation InvalidSignature UnauthorizedUpdate
        (rr_requester_public_key r) (rr_requester r) (StReservationRequest r) (signature x);
  _ ← require (nd_reservations n !! rr_id r = None) (Code DuplicateReservationId);
  _ ← require (base_units (rr_amount r) ≠ 0) (Code InvalidAmount);
  limit ← or_panic u64 (now + MAX_CLOCK_SKEW);
  _ ← require (rr_timestamp r ≤ limit) (Code TimestampTooFarAhead);
  ad ← ok_or (nd_ads n !! rr_advertisement_id r) (Code AdvertisementNotFound);
  _ ← require (ad_status ad = Active) (Code AdvertisementNotFound);
  _ ← require (base_units (ad_min_trade ad) ≤ base_units (rr_amount r)
               ∧ base_units (rr_amount r) ≤ base_units (ad_max_trade ad)) (Code InvalidAmount);
  _ ← require (agrees_with (ad_pricing ad) (rr_agreed_price r) (rr_agreed_mid r) = true)
        (Code PriceDisagreement);
  n ← on_ads (reserve_liquidity now (rr_advertisement_id r) (rr_amount r) (nd_ads n))
        InsufficientLiquidity n;
  expires_at ← or_panic u64 (rr_timestamp r + VALIDATION_WINDOW);
  Ok (put_reservation n
        (mkReservation (rr_id r) (rr_advertisement_id r) (rr_requester r) (rr_requester_public_key r)
           (rr_amount r) (rr_agreed_price r) (rr_agreed_mid r) ReservationState.EscrowLocked (rr_timestamp r)
           (rr_timestamp r) expires_at)).

Definition apply_cancel now (x : signed ReservationCancel) n : result ReservationError node :=
  let c := payload x in
  r ← ok_or (nd_reservations n !! rcl_id c) (Code ReservationNotFound);
  _ ← require (rv_requester r = rcl_requester c) (Code UnauthorizedUpdate);
  _ ← check_signature MalformedReservation InvalidSignature (rv_requester_public_key r)
        (StReservationCancel c) (signature x);
  _ ← require (rv_state r ≠ ReservationState.Settling) (Code SettlementInFlight);
  _ ← require (rv_state r = ReservationState.EscrowLocked) (Code InvalidReservationState);
  let ads := ignoring (release_liquidity now (rv_advertisement_id r) (rv_amount r) (nd_ads n)) (nd_ads n) in
  Ok (put_reservation (n <| nd_ads := ads |>)
        (r <| rv_state := ReservationState.Cancelled |> <| rv_updated_at := rcl_timestamp c |>)).

Definition transition now (id : string) (from : list ReservationState.t) (to : ReservationState.t) n
    : result ReservationError node :=
  r ← ok_or (nd_reservations n !! id) (Code ReservationNotFound);
  _ ← require (rv_state r ∈ from) (Code InvalidReservationState);
  Ok (put_reservation n (r <| rv_state := to |> <| rv_updated_at := now |>)).

Definition settlement_started now (id : string) n : result ReservationError node :=
  transition now id [ReservationState.EscrowLocked] ReservationState.Settling n.
Definition settlement_completed now (id : string) n : result ReservationError node :=
  transition now id [ReservationState.Settling] ReservationState.Settled n.
Definition settlement_abandoned now (id : string) n : result ReservationError node :=
  transition now id [ReservationState.Settling; ReservationState.Settled] ReservationState.EscrowLocked n.

(** One turn of the sweep. *)
Definition expire_one now (cutoff : Z) (acc : ExpirySweep * node) (r : Reservation)
    : ExpirySweep * node :=
  let '(sw, n) := acc in
  if decide (rv_state r ≠ ReservationState.EscrowLocked ∨ cutoff ≤ rv_requested_at r) then (sw, n)
  else
    match release_liquidity now (rv_advertisement_id r) (rv_amount r) (nd_ads n) with
    | Err _ => (mkSweep (sw_expired sw) (sw_deferred sw + 1), n)
    | Ok ads =>
        (mkSweep (sw_expired sw + 1) (sw_deferred sw),
         put_reservation (n <| nd_ads := ads |>) (r <| rv_state := ReservationState.Expired |> <| rv_updated_at := now |>))
    end.

Definition expire_stale now (window : Z) n : ExpirySweep * node :=
  foldl (expire_one now (saturating_sub_u64 now window)) (mkSweep 0 0, n) (all_reservations n).
End reservations.
