(* ===== verification/Settlements.v ===== *)
(** * Settlements: the life of one trade off chain

    Models [crates/settlement/src/store.rs].  The settlement index holds the
    reservation index and moves a trade's reservation along with it; what the
    reservation index answers is ignored. *)

From S2P Require Import Prelude Runtime Peers Pricing Statements Offers MarketState Reservations.

Module SettlementError.
Inductive SettlementError :=
  | InvalidSignature | Unauthorized | DuplicateSettlementId | MalformedSettlement
  | SettlementNotFound | InvalidStateTransition.
End SettlementError.
Import SettlementError.

Section settlements.
Context `{Wire}.
Implicit Types (n : node) (now : Timestamp).

Definition apply_initiate now (x : signed SettlementInitiate) n : result SettlementError node :=
  let i := payload x in
  _ ← verify_self MalformedSettlement InvalidSignature Unauthorized
        (sti_buyer_public_key i) (sti_buyer i) (StSettlementInitiate i) (signature x);
  _ ← require (nd_settlements n !! sti_id i = None) (Code DuplicateSettlementId);
  let n := ignoring (settlement_started now (sti_reservation_id i) n) n in
  Ok (put_settlement n
        (mkSettlement (sti_id i) (sti_reservation_id i) (sti_buyer i) (sti_buyer_public_key i)
           (sti_seller i) (sti_seller_public_key i) (sti_amount i) SettlementState.AwaitingPayment
           None None None None None None (sti_timestamp i) (sti_timestamp i))).

Definition apply_payment_submitted (x : signed PaymentSubmitted) n : result SettlementError node :=
  let a := payload x in
  s ← ok_or (nd_settlements n !! pys_settlement_id a) (Code SettlementNotFound);
  _ ← require (sm_buyer s = pys_buyer a) (Code Unauthorized);
  _ ← check_signature MalformedSettlement InvalidSignature (sm_buyer_public_key s)
        (StPaymentSubmitted a) (signature x);
  _ ← require (sm_state s = SettlementState.AwaitingPayment) (Code InvalidStateTransition);
  Ok (put_settlement n
        (s <| sm_state := SettlementState.PaymentSubmitted |>
           <| sm_payment_reference := pys_payment_reference a |>
           <| sm_payment_submitted_at := Some (pys_timestamp a) |>
           <| sm_updated_at := pys_timestamp a |>)).

Definition apply_payment_reversed (x : signed PaymentReversed) n : result SettlementError node :=
  let a := payload x in
  s ← ok_or (nd_settlements n !! pyr_settlement_id a) (Code SettlementNotFound);
  _ ← require (sm_buyer s = pyr_buyer a) (Code Unauthorized);
  _ ← check_signature MalformedSettlement InvalidSignature (sm_buyer_public_key s)
        (StPaymentReversed a) (signature x);
  _ ← require (sm_state s = SettlementState.PaymentSubmitted) (Code InvalidStateTransition);
  Ok (put_settlement n
        (s <| sm_state := SettlementState.AwaitingPayment |> <| sm_payment_reference := None |>
           <| sm_payment_submitted_at := None |> <| sm_updated_at := pyr_timestamp a |>)).

Definition apply_approved now (x : signed SettlementApproved) n : result SettlementError node :=
  let a := payload x in
  s ← ok_or (nd_settlements n !! sap_settlement_id a) (Code SettlementNotFound);
  _ ← require (sm_seller s = sap_seller a) (Code Unauthorized);
  _ ← check_signature MalformedSettlement InvalidSignature (sm_seller_public_key s)
        (StSettlementApproved a) (signature x);
  _ ← require (sm_state s = SettlementState.PaymentSubmitted) (Code InvalidStateTransition);
  let n := ignoring (settlement_completed now (sm_reservation_id s) n) n in
  Ok (put_settlement n
        (s <| sm_state := SettlementState.Approved |>
           <| sm_merchant_responded_at := Some (sap_timestamp a) |>
           <| sm_updated_at := sap_timestamp a |>)).

(** The node's own observation that the escrow was released on chain. *)
Definition apply_escrow_released now (id sig : string) n : result SettlementError node :=
  s ← ok_or (nd_settlements n !! id) (Code SettlementNotFound);
  _ ← require (sm_state s = SettlementState.Approved) (Code InvalidStateTransition);
  Ok (put_settlement n
        (s <| sm_state := SettlementState.Completed |> <| sm_escrow_release_signature := Some sig |>
           <| sm_updated_at := now |>)).

Definition apply_rejected now (x : signed SettlementRejected) n : result SettlementError node :=
  let a := payload x in
  s ← ok_or (nd_settlements n !! srj_settlement_id a) (Code SettlementNotFound);
  _ ← require (sm_seller s = srj_seller a) (Code Unauthorized);
  _ ← check_signature MalformedSettlement InvalidSignature (sm_seller_public_key s)
        (StSettlementRejected a) (signature x);
  _ ← require (sm_state s = SettlementState.PaymentSubmitted) (Code InvalidStateTransition);
  let n := ignoring (settlement_abandoned now (sm_reservation_id s) n) n in
  Ok (put_settlement n
        (s <| sm_state := SettlementState.Rejected |>
           <| sm_merchant_responded_at := Some (srj_timestamp a) |>
           <| sm_payment_discrepancy := Some (srj_discrepancy a) |>
           <| sm_updated_at := srj_timestamp a |>)).

Definition apply_cancelled now (x : signed SettlementCancelled) n : result SettlementError node :=
  let a := payload x in
  s ← ok_or (nd_settlements n !! scn_settlement_id a) (Code SettlementNotFound);
  key ← (if decide (scn_canceller a = sm_buyer s) then Ok (sm_buyer_public_key s)
         else if decide (scn_canceller a = sm_seller s) then Ok (sm_seller_public_key s)
         else Err (Code Unauthorized));
  _ ← check_signature MalformedSettlement InvalidSignature key (StSettlementCancelled a) (signature x);
  _ ← require (sm_state s = SettlementState.AwaitingPayment) (Code InvalidStateTransition);
  let n := ignoring (settlement_abandoned now (sm_reservation_id s) n) n in
  Ok (put_settlement n
        (s <| sm_state := SettlementState.Cancelled |> <| sm_updated_at := scn_timestamp a |>)).

(** Called by the dispute index when it accepts a case. *)
Definition apply_dispute_opened (id : string) (opened_at : Timestamp) n : result SettlementError node :=
  s ← ok_or (nd_settlements n !! id) (Code SettlementNotFound);
  _ ← require (¬ (sm_state s = SettlementState.Cancelled ∨ sm_state s = SettlementState.Disputed))
        (Code InvalidStateTransition);
  Ok (put_settlement n
        (s <| sm_state := SettlementState.Disputed |> <| sm_disputed_at := Some opened_at |>
           <| sm_updated_at := opened_at |>)).

(** Called by the dispute index when the chain has executed the outcome. *)
Definition apply_dispute_resolved now (id : string) (verdict : DisputeVerdict) (execution_signature : string) n
    : result SettlementError node :=
  s ← ok_or (nd_settlements n !! id) (Code SettlementNotFound);
  _ ← require (sm_state s = SettlementState.Disputed) (Code InvalidStateTransition);
  let '(s, n) :=
    match verdict with
    | EscrowReleased =>
        (s <| sm_state := SettlementState.Completed |>
           <| sm_escrow_release_signature :=
                Some (default execution_signature (sm_escrow_release_signature s)) |>,
         ignoring (settlement_completed now (sm_reservation_id s) n) n)
    | EscrowReturned =>
        (s <| sm_state := SettlementState.Cancelled |>,
         ignoring (settlement_abandoned now (sm_reservation_id s) n) n)
    end in
  Ok (put_settlement n (s <| sm_updated_at := now |>)).
End settlements.
