(* ===== verification/Cases.v ===== *)
(** * Cases: forming a dispute off chain, and recording what the chain did

    Models [crates/disputes/src/store.rs] and [commitment.rs].  The node
    collects arbitrators, commitments and revealed votes; the only thing that
    resolves a case is an execution observed on chain. *)

From S2P Require Import Prelude Runtime Peers Pricing Statements Offers MarketState Reservations Settlements.

Module DisputeError.
Inductive DisputeError :=
  | InvalidSignature | Unauthorized | NotAParty | DuplicateDisputeId | MalformedDispute
  | DisputeNotFound | SettlementNotFound | ArbitrationFull | NotAnArbitrator | CommitmentMismatch
  | InvalidStateTransition.
End DisputeError.
Import DisputeError.

Definition REQUIRED_ARBITRATORS : Z := 3.

Section cases.
Context `{Wire}.
Implicit Types (n : node) (now : Timestamp).

(** [commitment::compute]. *)
Definition commitment (vote : Vote.t) (secret : list Z) : list Z :=
  digest ((match vote with Vote.BuyerWins => 0 | Vote.MerchantWins => 1 | Vote.Invalid => 2 end) :: secret).

Definition apply_open (x : signed DisputeOpen) n : result DisputeError node :=
  let o := payload x in
  _ ← verify_self MalformedDispute InvalidSignature Unauthorized
        (dop_opener_public_key o) (dop_opener o) (StDisputeOpen o) (signature x);
  _ ← require (nd_disputes n !! dop_id o = None) (Code DuplicateDisputeId);
  s ← ok_or (nd_settlements n !! dop_settlement_id o) (Code SettlementNotFound);
  _ ← require (¬ (dop_opener o ≠ sm_buyer s ∧ dop_opener o ≠ sm_seller s)) (Code NotAParty);
  n ← match apply_dispute_opened (dop_settlement_id o) (dop_timestamp o) n with
      | Ok n => Ok n
      | Err _ => Err (Code InvalidStateTransition)
      end;
  Ok (put_dispute n
        (mkDispute (dop_id o) (dop_settlement_id o) (sm_buyer s) (sm_buyer_public_key s) (sm_seller s)
           (sm_seller_public_key s) (dop_opener o) (dop_reason o) DisputeStatus.Open REQUIRED_ARBITRATORS
           [] [] [] [] None false false None (dop_timestamp o) (dop_timestamp o))).

Definition apply_arbitrator_join (x : signed ArbitratorJoin) n : result DisputeError node :=
  let j := payload x in
  _ ← verify_self MalformedDispute InvalidSignature Unauthorized
        (arj_arbitrator_public_key j) (arj_arbitrator j) (StArbitratorJoin j) (signature x);
  d ← ok_or (nd_disputes n !! arj_dispute_id j) (Code DisputeNotFound);
  _ ← require (dp_status d = DisputeStatus.Open) (Code InvalidStateTransition);
  if decide (arj_arbitrator j ∈ dp_arbitrators d) then Ok n
  else
    _ ← require (Z.of_nat (length (dp_arbitrators d)) < dp_required_arbitrators d) (Code ArbitrationFull);
    let arbitrators := dp_arbitrators d ++ [arj_arbitrator j] in
    let d := d <| dp_arbitrators := arbitrators |>
               <| dp_arbitrator_keys := dp_arbitrator_keys d
                    ++ [(arj_arbitrator j, arj_arbitrator_public_key j)] |> in
    let d := if decide (Z.of_nat (length arbitrators) = dp_required_arbitrators d)
             then d <| dp_status := DisputeStatus.CaseLocked |> else d in
    Ok (put_dispute n (d <| dp_updated_at := arj_timestamp j |>)).

Definition apply_vote_commit (x : signed VoteCommit) n : result DisputeError node :=
  let v := payload x in
  d ← ok_or (nd_disputes n !! vcm_dispute_id v) (Code DisputeNotFound);
  _ ← require (dp_status d = DisputeStatus.CaseLocked) (Code InvalidStateTransition);
  key ← ok_or (arbitrator_key d (vcm_arbitrator v)) (Code NotAnArbitrator);
  _ ← check_signature MalformedDispute InvalidSignature key (StVoteCommit v) (signature x);
  if decide (vcm_arbitrator v ∈ (dp_commitments d).*1) then Ok n
  else
    let commitments := dp_commitments d ++ [(vcm_arbitrator v, vcm_commitment v)] in
    let d := d <| dp_commitments := commitments |> in
    let d := if decide (Z.of_nat (length commitments) = dp_required_arbitrators d)
             then d <| dp_status := DisputeStatus.RevealPhase |> else d in
    Ok (put_dispute n (d <| dp_updated_at := vcm_timestamp v |>)).

Definition apply_vote_reveal (x : signed VoteReveal) n : result DisputeError node :=
  let v := payload x in
  d ← ok_or (nd_disputes n !! vrv_dispute_id v) (Code DisputeNotFound);
  _ ← require (dp_status d = DisputeStatus.RevealPhase) (Code InvalidStateTransition);
  key ← ok_or (arbitrator_key d (vrv_arbitrator v)) (Code NotAnArbitrator);
  _ ← check_signature MalformedDispute InvalidSignature key (StVoteReveal v) (signature x);
  committed ← ok_or (assoc (dp_commitments d) (vrv_arbitrator v)) (Code NotAnArbitrator);
  _ ← require (commitment (vrv_vote v) (vrv_secret v) = committed) (Code CommitmentMismatch);
  if decide (vrv_arbitrator v ∈ (dp_reveals d).*1) then Ok n
  else
    let reveals := dp_reveals d ++ [(vrv_arbitrator v, vrv_vote v)] in
    let d := d <| dp_reveals := reveals |> in
    let d := if decide (Z.of_nat (length reveals) = dp_required_arbitrators d)
             then d <| dp_status := DisputeStatus.AwaitingChainExecution |> else d in
    Ok (put_dispute n (d <| dp_updated_at := vrv_timestamp v |>)).

Definition apply_mutual_settlement_agree (x : signed MutualSettlementAgree) n : result DisputeError node :=
  let a := payload x in
  d ← ok_or (nd_disputes n !! mta_dispute_id a) (Code DisputeNotFound);
  _ ← require (dp_status d ≠ DisputeStatus.Resolved) (Code InvalidStateTransition);
  bytes ← ok_or (preimage (StMutualSettlementAgree a)) (Code MalformedDispute);
  d ← (if decide (mta_party a = dp_buyer d)
       then _ ← require (verify (dp_buyer_public_key d) bytes (signature x) = true) (Code InvalidSignature);
            Ok (d <| dp_buyer_agreed := true |>)
       else if decide (mta_party a = dp_seller d)
       then _ ← require (verify (dp_seller_public_key d) bytes (signature x) = true) (Code InvalidSignature);
            Ok (d <| dp_seller_agreed := true |>)
       else Err (Code NotAParty));
  let d := if dp_buyer_agreed d && dp_seller_agreed d
           then d <| dp_status := DisputeStatus.AwaitingChainExecution |> else d in
  Ok (put_dispute n (d <| dp_updated_at := mta_timestamp a |>)).

(** The node's own observation of an execution; [outcome] is what it could
    read of the verdict. *)
Definition apply_onchain_execution now (id sig : string) (outcome : option Resolution.t) n
    : result DisputeError node :=
  d ← ok_or (nd_disputes n !! id) (Code DisputeNotFound);
  _ ← require (dp_status d ≠ DisputeStatus.Resolved) (Code InvalidStateTransition);
  let d := d <| dp_onchain_execution_signature := Some sig |> in
  match outcome with
  | None => Ok (put_dispute n d)
  | Some o =>
      let d := d <| dp_resolution := Some o |> <| dp_status := DisputeStatus.Resolved |> in
      let n := ignoring (apply_dispute_resolved now (dp_settlement_id d) (escrow_verdict o) sig n) n in
      Ok (put_dispute n d)
  end.
End cases.
