(* ===== verification/Market.v ===== *)
(** * Market: a node applying the marketplace's events

    The dispatch of the four registries' [apply_event], the node's own
    observations, and the transition system they give.  A gossiped event that a
    registry refuses leaves the node as it was; events arrive in any order,
    any number of times, from anyone. *)

From S2P Require Import Prelude Runtime Peers Pricing Statements Offers MarketState.
From S2P Require Import Reservations Settlements Cases.

Inductive market_event :=
  | AdvertisementCreated (x : signed AdvertisementCreate)
  | AdvertisementStatusChanged (x : signed AdvertisementStatusSet)
  | AdvertisementTermsUpdated (x : signed AdvertisementTermsUpdate)
  | AdvertisementPricingUpdated (x : signed AdvertisementPriceUpdate)
  | ReservationRequested (x : signed ReservationRequest)
  | ReservationWithdrawn (x : signed ReservationCancel)
  | SettlementInitiated (x : signed SettlementInitiate)
  | PaymentSubmittedEvent (x : signed PaymentSubmitted)
  | PaymentReversedEvent (x : signed PaymentReversed)
  | SettlementApprovedEvent (x : signed SettlementApproved)
  | SettlementRejectedEvent (x : signed SettlementRejected)
  | SettlementCancelledEvent (x : signed SettlementCancelled)
  | DisputeOpened (x : signed DisputeOpen)
  | ArbitratorJoined (x : signed ArbitratorJoin)
  | VoteCommitted (x : signed VoteCommit)
  | VoteRevealed (x : signed VoteReveal)
  | MutualSettlementAgreed (x : signed MutualSettlementAgree)
  (** The node's own observations and its timer. *)
  | EscrowReleaseObserved (settlement sig : string)
  | ExecutionObserved (dispute sig : string) (outcome : option Resolution.t)
  | ExpirySwept.

Inductive market_error :=
  | AdvertisementRefused (e : AdvertisementError.AdvertisementError)
  | ReservationRefused (e : ReservationError.ReservationError)
  | SettlementRefused (e : SettlementError.SettlementError)
  | DisputeRefused (e : DisputeError.DisputeError).

(** An error of one registry, as an error of the node. *)
Definition lift {E A} (f : E → market_error) (r : result E A) : result market_error A :=
  match r with
  | Ok a => Ok a
  | Err (Code e) => Err (Code (f e))
  | Err (Anchor a) => Err (Anchor a)
  | Err TokenProgram => Err TokenProgram
  | Err Panic => Err Panic
  end.

Section market.
Context `{Wire}.
Implicit Types (n : node) (now : Timestamp).

Definition on_offers (f : offers → result AdvertisementError.AdvertisementError offers) n
    : result market_error node :=
  ads ← lift AdvertisementRefused (f (nd_ads n)); Ok (n <| nd_ads := ads |>).

Definition apply_event now (e : market_event) n : result market_error node :=
  match e with
  | AdvertisementCreated x => on_offers (apply_create x) n
  | AdvertisementStatusChanged x => on_offers (apply_status_set x) n
  | AdvertisementTermsUpdated x => on_offers (apply_terms_update x) n
  | AdvertisementPricingUpdated x => on_offers (apply_pricing_update x) n
  | ReservationRequested x => lift ReservationRefused (apply_request now x n)
  | ReservationWithdrawn x => lift ReservationRefused (apply_cancel now x n)
  | SettlementInitiated x => lift SettlementRefused (apply_initiate now x n)
  | PaymentSubmittedEvent x => lift SettlementRefused (apply_payment_submitted x n)
  | PaymentReversedEvent x => lift SettlementRefused (apply_payment_reversed x n)
  | SettlementApprovedEvent x => lift SettlementRefused (apply_approved now x n)
  | SettlementRejectedEvent x => lift SettlementRefused (apply_rejected now x n)
  | SettlementCancelledEvent x => lift SettlementRefused (apply_cancelled now x n)
  | DisputeOpened x => lift DisputeRefused (apply_open x n)
  | ArbitratorJoined x => lift DisputeRefused (apply_arbitrator_join x n)
  | VoteCommitted x => lift DisputeRefused (apply_vote_commit x n)
  | VoteRevealed x => lift DisputeRefused (apply_vote_reveal x n)
  | MutualSettlementAgreed x => lift DisputeRefused (apply_mutual_settlement_agree x n)
  | EscrowReleaseObserved id sig => lift SettlementRefused (apply_escrow_released now id sig n)
  | ExecutionObserved id sig outcome =>
      lift DisputeRefused (apply_onchain_execution now id sig outcome n)
  | ExpirySwept => Ok (expire_stale now VALIDATION_WINDOW n).2
  end.

(** Amounts arrive at their widths. *)
Definition event_typed (e : market_event) : Prop :=
  match e with
  | AdvertisementCreated x => amount_typed (ac_initial_liquidity (payload x))
  | ReservationRequested x => amount_typed (rr_amount (payload x))
  | _ => True
  end.
#[export] Instance event_typed_dec e : Decision (event_typed e).
Proof. unfold event_typed. destruct e; apply _. Defined.

(** The node takes an event it accepts; a refused one is no step. *)
Inductive market_step : node → node → Prop :=
  | market_apply now e n n' :
      event_typed e → apply_event now e n = Ok n' → market_step n n'.

Definition empty_node : node := mkNode ∅ ∅ ∅ ∅.

Definition market_reachable n : Prop := steps market_step empty_node n.
End market.
