(* ===== verification/LiquidityInv.v ===== *)
(** * LiquidityInv: an advertisement's liquidity is free, held or sold

    What an advertisement shows as available, what its live reservations hold
    and what its settled reservations have sold add up to what it was published
    with; every instruction of the node preserves that. *)

From stdpp Require Import sorting.
From S2P Require Import Prelude Runtime Peers Pricing Statements Offers MarketState.
From S2P Require Import Reservations Settlements Cases Market.

(** The reservation is live: its amount is set aside and may still come back. *)
Definition is_live (st : ReservationState.t) : bool :=
  match st with
  | ReservationState.EscrowLocked | ReservationState.Settling => true
  | ReservationState.Settled | ReservationState.Cancelled | ReservationState.Expired => false
  end.

Definition is_sold (st : ReservationState.t) : bool :=
  match st with ReservationState.Settled => true | _ => false end.

(** The reservation's amount is out of the advertisement, held or sold. *)
Definition is_drawn (st : ReservationState.t) : bool := is_live st || is_sold st.

Definition amount_for (p : ReservationState.t → bool) (id : string) (r : Reservation) : Z :=
  if decide (rv_advertisement_id r = id ∧ p (rv_state r) = true) then base_units (rv_amount r) else 0.

(** What the reservations of an advertisement in the given states amount to. *)
Definition reserved_in (p : ReservationState.t → bool) (rs : gmap string Reservation) (id : string) : Z :=
  map_sum (λ _, amount_for p id) rs.

(** What its live reservations hold, what its settled ones have sold, and both. *)
Definition held : gmap string Reservation → string → Z := reserved_in is_live.
Definition sold : gmap string Reservation → string → Z := reserved_in is_sold.
Definition committed : gmap string Reservation → string → Z := reserved_in is_drawn.
Abbreviation held_for := (amount_for is_drawn).

Lemma committed_split rs id : committed rs id = held rs id + sold rs id.
Proof.
  unfold committed, held, sold, reserved_in. rewrite <-map_sum_add. apply map_sum_ext.
  intros k r _. unfold amount_for, is_drawn.
  destruct (decide (rv_advertisement_id r = id)); [|by rewrite !decide_False by tauto].
  destruct (rv_state r); simpl; repeat case_decide; tauto || lia.
Qed.

Definition available (ad : Advertisement) : Z := base_units (ad_available_liquidity ad).

Record liq_inv (n : node) : Prop := {
  li_ads : ∀ id ad, nd_ads n !! id = Some ad → ad_id ad = id ∧ 0 ≤ available ad ∧
    available ad + committed (nd_reservations n) id ≤ U64_MAX;
  li_reservations : ∀ id r, nd_reservations n !! id = Some r → rv_id r = id ∧ 0 < base_units (rv_amount r) ∧
    ∃ ad, nd_ads n !! rv_advertisement_id r = Some ad ∧
      decimals (rv_amount r) = decimals (ad_available_liquidity ad);
}.

Lemma amount_nonneg n p id k r : liq_inv n → nd_reservations n !! k = Some r → 0 ≤ amount_for p id r.
Proof.
  intros Hinv Hr. destruct (li_reservations _ Hinv _ _ Hr) as (_ & ? & _).
  unfold amount_for. case_decide; lia.
Qed.

Lemma reserved_nonneg n p id : liq_inv n → 0 ≤ reserved_in p (nd_reservations n) id.
Proof. intros Hinv. apply map_sum_nonneg. intros k r Hr. by eapply amount_nonneg. Qed.

(** ** What an advertisement keeps *)

(** The same offer, its free liquidity aside. *)
Definition same_offer (ad ad' : Advertisement) : Prop :=
  ad_id ad' = ad_id ad ∧ ad_merchant ad' = ad_merchant ad ∧
  ad_merchant_public_key ad' = ad_merchant_public_key ad ∧ ad_asset_mint ad' = ad_asset_mint ad ∧
  ad_direction ad' = ad_direction ad ∧ ad_fiat_currency ad' = ad_fiat_currency ad ∧
  decimals (ad_available_liquidity ad') = decimals (ad_available_liquidity ad).

Definition liq_step (n n' : node) : Prop :=
  liq_inv n' ∧ ∀ id ad, nd_ads n !! id = Some ad → ∃ ad', nd_ads n' !! id = Some ad' ∧ same_offer ad ad' ∧
    available ad' + committed (nd_reservations n') id = available ad + committed (nd_reservations n) id.

Lemma same_offer_refl ad : same_offer ad ad.
Proof. by repeat split. Qed.

Lemma liq_step_refl n : liq_inv n → liq_step n n.
Proof. intros Hinv. split; [done|]. intros id ad Had. exists ad. by split; [|split; [apply same_offer_refl|]]. Qed.

Lemma liq_step_trans n1 n2 n3 : liq_step n1 n2 → liq_step n2 n3 → liq_step n1 n3.
Proof.
  intros [_ H12] [Hinv H23]. split; [done|]. intros id ad Had.
  destruct (H12 id ad Had) as (ad2 & Had2 & (?&?&?&?&?&?&?) & Heq2).
  destruct (H23 id ad2 Had2) as (ad3 & Had3 & (?&?&?&?&?&?&?) & Heq3).
  exists ad3. split; [done|]. split; [|lia]. repeat split; congruence.
Qed.

(** The liquidity part of a node is its first two indexes. *)
Lemma liq_step_ext n n' m :
  liq_step n n' → nd_ads m = nd_ads n' → nd_reservations m = nd_reservations n' → liq_step n m.
Proof.
  intros [[Ha Hr] Hs] Hads Hres. split; [split|]; rewrite Hads, ?Hres; [done|done|]. done.
Qed.

(** Rewriting an advertisement without touching its liquidity. *)
Lemma edit_ad n id ad ad' :
  liq_inv n → nd_ads n !! id = Some ad → same_offer ad ad' →
  ad_available_liquidity ad' = ad_available_liquidity ad →
  liq_step n (n <| nd_ads := put_ad (nd_ads n) ad' |>).
Proof.
  intros Hinv Had Hso Hav. destruct (li_ads _ Hinv _ _ Had) as (Hid & ?).
  pose proof (proj1 Hso) as Hid'. unfold put_ad. rewrite Hid', Hid. split; [split|]; cbn.
  - intros k a. rewrite lookup_insert. case_decide as Hk; [|apply Hinv]. intros [= <-]. subst k.
    unfold available. rewrite Hav, Hid', Hid. done.
  - intros k r Hr. destruct (li_reservations _ Hinv _ _ Hr) as (? & ? & a & Ha & ?).
    split; [done|]. split; [done|]. rewrite lookup_insert. case_decide as Hk; [|by exists a].
    exists ad'. rewrite Hav. split; [done|]. rewrite <-Hk, Had in Ha. congruence.
  - intros k a Ha. rewrite lookup_insert. case_decide as Hk.
    + subst k. rewrite Had in Ha. injection Ha as <-. exists ad'. split; [done|]. split; [done|].
      unfold available. by rewrite Hav.
    + exists a. split; [done|]. split; [apply same_offer_refl|done].
Qed.

Lemma committed_new rs k r id :
  rs !! k = None → committed (<[k := r]> rs) id = held_for id r + committed rs id.
Proof. intros. unfold committed, reserved_in. by rewrite map_sum_insert_None. Qed.

Lemma committed_update rs k r r' id :
  rs !! k = Some r → committed (<[k := r']> rs) id = committed rs id - held_for id r + held_for id r'.
Proof. intros Hr. unfold committed, reserved_in. by rewrite (map_sum_insert _ _ _ r). Qed.

(** An advertisement nobody has heard of has no reservations. *)
Lemma committed_unknown n id : liq_inv n → nd_ads n !! id = None → committed (nd_reservations n) id = 0.
Proof.
  intros Hinv Hid. apply map_sum_zero. intros k r Hr. unfold amount_for.
  destruct (li_reservations _ Hinv _ _ Hr) as (_ & _ & ad & Had & _). case_decide as Hd; [|done].
  destruct Hd as [<- _]. congruence.
Qed.

Lemma publish_ad n ad :
  liq_inv n → nd_ads n !! ad_id ad = None → amount_typed (ad_available_liquidity ad) →
  liq_step n (n <| nd_ads := put_ad (nd_ads n) ad |>).
Proof.
  intros Hinv Hnew [Hu _]. unfold put_ad. split; [split|]; cbn.
  - intros k a. rewrite lookup_insert. case_decide as Hk; [|apply Hinv]. intros [= <-]. subst k.
    split; [done|]. rewrite committed_unknown by done. unfold available. ilia.
  - intros k r Hr. destruct (li_reservations _ Hinv _ _ Hr) as (? & ? & a & Ha & ?).
    split; [done|]. split; [done|]. exists a. rewrite lookup_insert_ne; [done|congruence].
  - intros k a Ha. exists a. rewrite lookup_insert_ne by congruence.
    split; [done|]. split; [apply same_offer_refl|done].
Qed.

(** Moving a reservation between states that hold, or giving it other
    timestamps. *)
Definition same_hold (r r' : Reservation) : Prop :=
  rv_id r' = rv_id r ∧ rv_advertisement_id r' = rv_advertisement_id r ∧ rv_amount r' = rv_amount r ∧
  is_drawn (rv_state r') = is_drawn (rv_state r).

Lemma move_reservation n k r r' :
  liq_inv n → nd_reservations n !! k = Some r → same_hold r r' → liq_step n (put_reservation n r').
Proof.
  intros Hinv Hr (Hid & Had & Ham & Hh). destruct (li_reservations _ Hinv _ _ Hr) as (Hk & Hpos & Hex).
  assert (∀ id, committed (<[k := r']> (nd_reservations n)) id = committed (nd_reservations n) id) as Hc.
  { intros id. rewrite (committed_update _ _ r) by done. unfold amount_for. rewrite Had, Ham, Hh. lia. }
  unfold put_reservation. rewrite Hid, Hk. split; [split|]; cbn.
  - intros id ad Hid'. rewrite Hc. by apply Hinv.
  - intros j rj. rewrite lookup_insert. case_decide as Hj; [|apply Hinv]. intros [= <-].
    rewrite Hid, Had, Ham. subst j. done.
  - intros id ad Hid'. exists ad. rewrite Hc. split; [done|]. split; [apply same_offer_refl|done].
Qed.

(** Moving liquidity between an advertisement and its reservations. *)
Lemma rebalance n id ad ad' rs :
  liq_inv n → nd_ads n !! id = Some ad → same_offer ad ad' → 0 ≤ available ad' →
  (∀ k, committed rs k = committed (nd_reservations n) k
     + (if decide (k = id) then available ad - available ad' else 0)) →
  (∀ k r, rs !! k = Some r → rv_id r = k ∧ 0 < base_units (rv_amount r) ∧
     ∃ a, nd_ads n !! rv_advertisement_id r = Some a ∧
       decimals (rv_amount r) = decimals (ad_available_liquidity a)) →
  liq_step n (n <| nd_ads := put_ad (nd_ads n) ad' |> <| nd_reservations := rs |>).
Proof.
  intros Hinv Had Hso Hav Hc Hrs. destruct (li_ads _ Hinv _ _ Had) as (Hid & _ & Hle).
  pose proof (proj1 Hso) as Hid'. unfold put_ad. rewrite Hid', Hid. split; [split|]; cbn.
  - intros k a. rewrite lookup_insert, Hc. case_decide as Hk.
    + intros [= <-]. subst k. rewrite decide_True by done. split; [congruence|]. split; [done|lia].
    + intros Ha. rewrite decide_False by congruence. destruct (li_ads _ Hinv _ _ Ha) as (? & ? & ?).
      split; [done|]. split; [done|lia].
  - intros k r Hr. destruct (Hrs k r Hr) as (? & ? & a & Ha & ?). split; [done|]. split; [done|].
    rewrite lookup_insert. case_decide as Hk; [|by exists a]. exists ad'. split; [done|].
    rewrite <-Hk, Had in Ha. injection Ha as <-. destruct Hso as (_&_&_&_&_&_&Hd). congruence.
  - intros k a Ha. rewrite lookup_insert, Hc. case_decide as Hk.
    + subst k. rewrite Had in Ha. injection Ha as <-. exists ad'. rewrite decide_True by done.
      split; [done|]. split; [done|]. lia.
    + exists a. rewrite decide_False by congruence. split; [done|]. split; [apply same_offer_refl|lia].
Qed.

Lemma reserve_liquidity_Ok now id amount ads ads' :
  reserve_liquidity now id amount ads = Ok ads' →
  ∃ ad ad', ads !! id = Some ad ∧ ads' = put_ad ads ad' ∧ same_offer ad ad' ∧
    decimals amount = decimals (ad_available_liquidity ad) ∧ 0 ≤ available ad' ∧
    available ad' = available ad - base_units amount.
Proof.
  unfold reserve_liquidity. intros H. apply bind_Ok in H as (ad & Had%ok_or_Ok & H).
  apply bind_Ok in H as (rem & (Hd & Hd' & Hrem & Hu)%ok_or_Ok%amount_checked_sub_Some & [= <-]).
  eexists ad, _. split; [done|]. split; [done|]. unfold available. case_decide; cbn.
  all: split; [by repeat split|]; split; [done|]; split; [ilia|lia].
Qed.

Lemma release_liquidity_Ok now id amount ads ads' :
  release_liquidity now id amount ads = Ok ads' →
  ∃ ad ad', ads !! id = Some ad ∧ ads' = put_ad ads ad' ∧ same_offer ad ad' ∧
    0 ≤ available ad' ∧ available ad' = available ad + base_units amount.
Proof.
  unfold release_liquidity. intros H. apply bind_Ok in H as (ad & Had%ok_or_Ok & H).
  apply bind_Ok in H as (av & (Hd & Hd' & Hav & Hu)%ok_or_Ok%amount_checked_add_Some & [= <-]).
  eexists ad, _. split; [done|]. split; [done|]. unfold available. cbn.
  split; [by repeat split|]. split; [ilia|lia].
Qed.

(** A reservation's amount always fits back. *)
Lemma release_liquidity_succeeds now n k r :
  liq_inv n → nd_reservations n !! k = Some r → is_drawn (rv_state r) = true →
  ∃ ads, release_liquidity now (rv_advertisement_id r) (rv_amount r) (nd_ads n) = Ok ads.
Proof.
  intros Hinv Hr Hh. destruct (li_reservations _ Hinv _ _ Hr) as (_ & Hpos & ad & Had & Hdec).
  destruct (li_ads _ Hinv _ _ Had) as (_ & Hav & Hle).
  assert (base_units (rv_amount r) ≤ committed (nd_reservations n) (rv_advertisement_id r)).
  { assert (held_for (rv_advertisement_id r) r = base_units (rv_amount r)) as <-
      by (unfold amount_for; by rewrite decide_True).
    apply (map_sum_lookup_le (λ _, held_for (rv_advertisement_id r)) _ k r Hr).
    intros j rj Hj. by eapply amount_nonneg. }
  unfold release_liquidity. rewrite Had. cbn [ok_or mbind result_bind].
  unfold amount_checked_add. rewrite decide_True by done. unfold checked_add_u64, checked.
  rewrite decide_True; [cbn; eauto|]. unfold available in *. ilia.
Qed.

(** Taking liquidity for a new reservation. *)
Lemma reserve_step now n r ads :
  liq_inv n → nd_reservations n !! rv_id r = None → rv_state r = ReservationState.EscrowLocked →
  0 < base_units (rv_amount r) →
  reserve_liquidity now (rv_advertisement_id r) (rv_amount r) (nd_ads n) = Ok ads →
  liq_step n (put_reservation (n <| nd_ads := ads |>) r).
Proof.
  intros Hinv Hnew Hst Hpos (ad & ad' & Had & -> & Hso & Hdec & Hnn & Hav)%reserve_liquidity_Ok.
  apply (rebalance n (rv_advertisement_id r) ad ad' _ Hinv Had Hso Hnn).
  - intros k. rewrite committed_new by done. unfold amount_for. rewrite Hst. cbn.
    repeat case_decide; naive_solver lia.
  - intros k rk. cbn. rewrite lookup_insert. case_decide as Hk; [|by apply Hinv].
    intros [= <-]. split; [done|]. split; [done|]. by exists ad.
Qed.

(** Giving a reservation's liquidity back as it ends. *)
Lemma release_step now n k r r' ads :
  liq_inv n → nd_reservations n !! k = Some r → is_drawn (rv_state r) = true → is_drawn (rv_state r') = false →
  rv_id r' = rv_id r → rv_advertisement_id r' = rv_advertisement_id r → rv_amount r' = rv_amount r →
  release_liquidity now (rv_advertisement_id r) (rv_amount r) (nd_ads n) = Ok ads →
  liq_step n (put_reservation (n <| nd_ads := ads |>) r').
Proof.
  intros Hinv Hr Hh Hh' Hid Hadv Ham (ad & ad' & Had & -> & Hso & Hnn & Hav)%release_liquidity_Ok.
  destruct (li_reservations _ Hinv _ _ Hr) as (Hk & Hpos & Hex).
  unfold put_reservation. rewrite Hid, Hk.
  apply (rebalance n (rv_advertisement_id r) ad ad' _ Hinv Had Hso Hnn).
  - intros j. cbn. rewrite (committed_update _ _ r) by done. unfold amount_for. rewrite Hh, Hh', Hadv.
    repeat case_decide; naive_solver lia.
  - intros j rj. cbn. rewrite lookup_insert. case_decide as Hj; [|by apply Hinv].
    intros [= <-]. subst j. rewrite Hid, Hadv, Ham. done.
Qed.

(** ** The instructions *)

Section instructions.
Context `{Wire}.
Implicit Types (n : node) (now : Timestamp).

Lemma authorize_Ok ads id merchant x sig ad :
  authorize ads id merchant x sig = Ok ad →
  ads !! id = Some ad ∧ ad_merchant ad = merchant ∧ signed_by (ad_merchant_public_key ad) x sig ∧
  ad_status ad ≠ Deleted.
Proof.
  unfold authorize. intros H'. inv_ok. split; [done|]. split; [done|]. split; [|done].
  eexists. eauto.
Qed.

Lemma create_liq x n ads :
  liq_inv n → amount_typed (ac_initial_liquidity (payload x)) → apply_create x (nd_ads n) = Ok ads →
  liq_step n (n <| nd_ads := ads |>).
Proof. intros Hinv Ht Hrun. unfold apply_create in Hrun. inv_ok. by apply publish_ad. Qed.

Lemma status_set_liq x n ads :
  liq_inv n → apply_status_set x (nd_ads n) = Ok ads → liq_step n (n <| nd_ads := ads |>).
Proof.
  intros Hinv Hrun. unfold apply_status_set in Hrun. inv_ok.
  match goal with Ha : authorize _ _ _ _ _ = Ok _ |- _ => apply authorize_Ok in Ha as (Ha & _) end.
  eapply edit_ad; [done|done|by repeat split|done].
Qed.

Lemma terms_update_liq x n ads :
  liq_inv n → apply_terms_update x (nd_ads n) = Ok ads → liq_step n (n <| nd_ads := ads |>).
Proof.
  intros Hinv Hrun. unfold apply_terms_update in Hrun. inv_ok.
  match goal with Ha : authorize _ _ _ _ _ = Ok _ |- _ => apply authorize_Ok in Ha as (Ha & _) end.
  eapply edit_ad; [done|done|by repeat split|done].
Qed.

Lemma pricing_update_liq x n ads :
  liq_inv n → apply_pricing_update x (nd_ads n) = Ok ads → liq_step n (n <| nd_ads := ads |>).
Proof.
  intros Hinv Hrun. unfold apply_pricing_update in Hrun. inv_ok.
  match goal with Ha : authorize _ _ _ _ _ = Ok _ |- _ => apply authorize_Ok in Ha as (Ha & _) end.
  eapply edit_ad; [done|done|by repeat split|done].
Qed.

Lemma on_ads_Ok {E F} (r : result E offers) (f : F) n n' :
  on_ads r f n = Ok n' ↔ ∃ ads, r = Ok ads ∧ n' = n <| nd_ads := ads |>.
Proof. unfold on_ads. destruct r; naive_solver. Qed.

(** What an accepted request was checked for, and what it does. *)
Record request_accepted now (x : signed ReservationRequest) n n' : Prop := {
  rq_signed : signed_by (rr_requester_public_key (payload x)) (StReservationRequest (payload x)) (signature x);
  rq_peer : peer_id_from_public_key (rr_requester_public_key (payload x)) = Some (rr_requester (payload x));
  rq_new : nd_reservations n !! rr_id (payload x) = None;
  rq_amount : base_units (rr_amount (payload x)) ≠ 0;
  rq_time : rr_timestamp (payload x) ≤ now + MAX_CLOCK_SKEW;
  rq_ad : ∃ ad, nd_ads n !! rr_advertisement_id (payload x) = Some ad ∧ ad_status ad = Active ∧
    base_units (ad_min_trade ad) ≤ base_units (rr_amount (payload x)) ≤ base_units (ad_max_trade ad) ∧
    agrees_with (ad_pricing ad) (rr_agreed_price (payload x)) (rr_agreed_mid (payload x)) = true;
  rq_effect : ∃ ads, reserve_liquidity now (rr_advertisement_id (payload x)) (rr_amount (payload x)) (nd_ads n)
      = Ok ads ∧
    n' = put_reservation (n <| nd_ads := ads |>)
      (mkReservation (rr_id (payload x)) (rr_advertisement_id (payload x)) (rr_requester (payload x))
         (rr_requester_public_key (payload x)) (rr_amount (payload x)) (rr_agreed_price (payload x))
         (rr_agreed_mid (payload x)) ReservationState.EscrowLocked (rr_timestamp (payload x))
         (rr_timestamp (payload x)) (rr_timestamp (payload x) + VALIDATION_WINDOW));
}.

Lemma apply_request_Ok now x n n' : apply_request now x n = Ok n' → request_accepted now x n n'.
Proof.
  unfold apply_request. intros Hrun. cbn zeta in Hrun.
  apply bind_Ok in Hrun as (u & [Hpeer Hsig]%verify_self_Ok & Hrun). inv_ok.
  repeat match goal with
    | Hp : or_panic _ _ = Ok _ |- _ => apply or_panic_Ok in Hp as [? ?]; subst
    | Ho : on_ads _ _ _ = Ok _ |- _ => apply on_ads_Ok in Ho as (? & ? & ?); subst
    end.
  split; try done; eauto.
Qed.

Lemma request_liq now x n n' :
  liq_inv n → amount_typed (rr_amount (payload x)) → apply_request now x n = Ok n' → liq_step n n'.
Proof.
  intros Hinv [Hu _] [_ _ Hnew Hne _ _ (ads & Hads & ->)]%apply_request_Ok.
  eapply reserve_step; cbn; [done|done|done|ilia|done].
Qed.

Lemma cancel_liq now x n n' : liq_inv n → apply_cancel now x n = Ok n' → liq_step n n'.
Proof.
  intros Hinv Hrun. unfold apply_cancel in Hrun. inv_ok.
  match goal with Hr : nd_reservations n !! _ = Some ?r |- _ => rename Hr into Hr0; set (r0 := r) in * end.
  assert (is_drawn (rv_state r0) = true) as Hh by (by match goal with Hs : rv_state r0 = _ |- _ => rewrite Hs end).
  destruct (release_liquidity_succeeds now n _ _ Hinv Hr0 Hh) as [ads Hads]. rewrite Hads. cbn [ignoring].
  by eapply (release_step now n _ r0).
Qed.

Lemma transition_liq now id from to n :
  liq_inv n → forallb is_drawn from = true → is_drawn to = true →
  liq_step n (ignoring (transition now id from to n) n).
Proof.
  intros Hinv Hfrom Hto. unfold transition.
  destruct (nd_reservations n !! id) as [r|] eqn:Hr; cbn; [|by apply liq_step_refl].
  unfold require. case_decide as Hs; cbn; [|by apply liq_step_refl].
  eapply move_reservation; [done|done|]. split; [done|]. split; [done|]. split; [done|]. cbn.
  rewrite Hto. symmetry. rewrite forallb_forall in Hfrom. apply Hfrom. by apply list_elem_of_In.
Qed.

(** ** The sweep *)

Definition stale (cutoff : Z) (r : Reservation) : Prop :=
  rv_state r = ReservationState.EscrowLocked ∧ rv_requested_at r < cutoff.
#[export] Instance stale_dec cutoff r : Decision (stale cutoff r).
Proof. unfold stale. apply _. Defined.

Definition swept now cutoff (r : Reservation) : Reservation :=
  if decide (stale cutoff r) then r <| rv_state := ReservationState.Expired |> <| rv_updated_at := now |> else r.

Lemma swept_id now cutoff r : rv_id (swept now cutoff r) = rv_id r.
Proof. unfold swept. by case_decide. Qed.

Lemma expire_one_Ok now cutoff sw n r :
  liq_inv n → nd_reservations n !! rv_id r = Some r →
  ∃ ads, let n' := n <| nd_ads := ads |>
                     <| nd_reservations := <[rv_id r := swept now cutoff r]> (nd_reservations n) |> in
    expire_one now cutoff (sw, n) r =
      (mkSweep (sw_expired sw + (if decide (stale cutoff r) then 1 else 0)) (sw_deferred sw), n') ∧
    liq_step n n'.
Proof.
  intros Hinv Hr. unfold expire_one, swept. destruct (decide (stale cutoff r)) as [Hs|Hs].
  - destruct Hs as [Hst Hlt]. rewrite decide_False by (rewrite Hst; intros [?|?]; [done|lia]).
    assert (is_drawn (rv_state r) = true) as Hh by (by rewrite Hst).
    destruct (release_liquidity_succeeds now n _ _ Hinv Hr Hh) as [ads Hads]. rewrite Hads.
    exists ads. split; [done|].
    exact (release_step now n _ r (r <| rv_state := ReservationState.Expired |> <| rv_updated_at := now |>)
      ads Hinv Hr Hh eq_refl eq_refl eq_refl eq_refl Hads).
  - rewrite decide_True.
    + exists (nd_ads n). rewrite insert_id by done. destruct sw, n. cbn. rewrite Z.add_0_r.
      split; [done|]. by apply liq_step_refl.
    + destruct (decide (rv_state r = ReservationState.EscrowLocked)) as [He|He]; [|by left].
      right. apply Z.nlt_ge. intros Hlt. by apply Hs.
Qed.

Lemma sweep_loop now cutoff l sw n :
  liq_inv n → NoDup (rv_id <$> l) → (∀ r, r ∈ l → nd_reservations n !! rv_id r = Some r) →
  ∃ ads rs, let n' := n <| nd_ads := ads |> <| nd_reservations := rs |> in
    foldl (expire_one now cutoff) (sw, n) l =
      (mkSweep (sw_expired sw + Z.of_nat (length (filter (stale cutoff) l))) (sw_deferred sw), n') ∧
    liq_step n n' ∧
    (∀ r, r ∈ l → rs !! rv_id r = Some (swept now cutoff r)) ∧
    (∀ k, k ∉ (rv_id <$> l) → rs !! k = nd_reservations n !! k).
Proof.
  revert sw n. induction l as [|r l IH]; intros sw n Hinv Hnd Hl.
  { exists (nd_ads n), (nd_reservations n). destruct sw, n. cbn. rewrite Z.add_0_r.
    split; [done|]. split; [by apply liq_step_refl|]. split; [|done]. by intros r ?%elem_of_nil. }
  rewrite fmap_cons in Hnd. apply NoDup_cons in Hnd as [Hr Hnd].
  destruct (expire_one_Ok now cutoff sw n r Hinv (Hl r ltac:(by left))) as (ads1 & He & Hs1).
  set (n1 := n <| nd_ads := ads1 |> <| nd_reservations := _ |>) in *.
  destruct (IH (mkSweep (sw_expired sw + (if decide (stale cutoff r) then 1 else 0)) (sw_deferred sw)) n1
    (proj1 Hs1) Hnd) as (ads & rs & Hf & Hs & Hin & Hout).
  { intros r' Hr'. cbn. rewrite lookup_insert_ne; [apply Hl; by right|].
    intros Heq. apply Hr. rewrite Heq. by apply list_elem_of_fmap_2. }
  exists ads, rs. cbn [foldl]. rewrite He, Hf. split; [|split; [|split]].
  - cbn [sw_expired sw_deferred]. rewrite filter_cons. case_decide; cbn [length]; do 2 f_equal; lia.
  - eapply liq_step_trans; [exact Hs1|]. done.
  - intros r' [->|Hr']%elem_of_cons; [|by apply Hin]. rewrite Hout by done. cbn. apply lookup_insert_eq.
  - intros k Hk. rewrite fmap_cons, not_elem_of_cons in Hk. rewrite Hout by apply Hk.
    cbn. apply lookup_insert_ne. apply not_eq_sym, Hk.
Qed.

Lemma all_reservations_elem n r : liq_inv n →
  r ∈ all_reservations n ↔ nd_reservations n !! rv_id r = Some r.
Proof.
  intros Hinv. unfold all_reservations. rewrite (merge_sort_Permutation key_le), list_elem_of_fmap. split.
  - intros ([k r'] & -> & Hk%elem_of_map_to_list). cbn. by rewrite (proj1 (li_reservations _ Hinv _ _ Hk)).
  - intros Hr. exists (rv_id r, r). by rewrite elem_of_map_to_list.
Qed.

Lemma all_reservations_NoDup n : liq_inv n → NoDup (rv_id <$> all_reservations n).
Proof.
  intros Hinv. unfold all_reservations. rewrite (merge_sort_Permutation key_le).
  assert (rv_id <$> (map_to_list (nd_reservations n)).*2 = (map_to_list (nd_reservations n)).*1) as ->;
    [|apply NoDup_fst_map_to_list].
  rewrite <-list_fmap_compose. apply list_fmap_ext. intros i [k r] Hk%list_elem_of_lookup_2.
  apply elem_of_map_to_list in Hk. cbn. apply (li_reservations _ Hinv _ _ Hk).
Qed.

(** One sweep expires exactly the stale reservations, and defers none. *)
Lemma expire_stale_Ok now window n :
  liq_inv n → let cutoff := saturating_sub_u64 now window in
  ∃ ads, let n' := n <| nd_ads := ads |> <| nd_reservations := swept now cutoff <$> nd_reservations n |> in
    expire_stale now window n =
      (mkSweep (Z.of_nat (length (filter (stale cutoff) (all_reservations n)))) 0, n') ∧ liq_step n n'.
Proof.
  intros Hinv cutoff. unfold expire_stale. fold cutoff.
  destruct (sweep_loop now cutoff (all_reservations n) (mkSweep 0 0) n Hinv
    (all_reservations_NoDup n Hinv)) as (ads & rs & Hf & Hs & Hin & Hout).
  { intros r. by apply all_reservations_elem. }
  assert (rs = swept now cutoff <$> nd_reservations n) as <-.
  { apply map_eq. intros k. rewrite lookup_fmap. destruct (nd_reservations n !! k) as [r|] eqn:Hk; cbn.
    - destruct (li_reservations _ Hinv _ _ Hk) as [<- _]. apply Hin. by apply all_reservations_elem.
    - rewrite Hout; [done|]. intros (r & -> & Hr)%list_elem_of_fmap.
      apply all_reservations_elem in Hr; [congruence|done]. }
  exists ads. split; [exact Hf|done].
Qed.

(** ** Every event *)

(** What the settlement and dispute indexes do to the liquidity part: at most
    one transition of one reservation between states that hold. *)
Definition moves_hold n n' : Prop :=
  (nd_ads n' = nd_ads n ∧ nd_reservations n' = nd_reservations n) ∨
  ∃ now id from to, forallb is_drawn from = true ∧ is_drawn to = true ∧
    nd_ads n' = nd_ads n ∧
    nd_reservations n' = nd_reservations (ignoring (transition now id from to n) n).

Lemma ignoring_transition_ads now id from to n :
  nd_ads (ignoring (transition now id from to n) n) = nd_ads n ∧
  nd_settlements (ignoring (transition now id from to n) n) = nd_settlements n ∧
  nd_disputes (ignoring (transition now id from to n) n) = nd_disputes n.
Proof.
  unfold transition. destruct (nd_reservations n !! id); cbn; [|done].
  unfold require. by case_decide.
Qed.

Lemma moves_hold_liq n n' : liq_inv n → moves_hold n n' → liq_step n n'.
Proof.
  intros Hinv [[Ha Hr]|(now & id & from & to & Hf & Ht & Ha & Hr)].
  - by eapply liq_step_ext; [apply liq_step_refl| |].
  - eapply liq_step_ext; [by apply (transition_liq now id from to)| |done].
    by rewrite (proj1 (ignoring_transition_ads _ _ _ _ _)).
Qed.

Lemma moves_hold_ext n m m' :
  moves_hold n m → nd_ads m' = nd_ads m → nd_reservations m' = nd_reservations m → moves_hold n m'.
Proof.
  intros [[Ha Hr]|(now & id & from & to & Hf & Ht & Ha & Hr)] Hads Hres.
  - left. by rewrite Hads, Hres.
  - right. exists now, id, from, to. by rewrite Hads, Hres.
Qed.

Lemma lift_Ok {E A} (f : E → market_error) (r : result E A) a : lift f r = Ok a ↔ r = Ok a.
Proof. destruct r as [|[]]; naive_solver. Qed.

Lemma on_offers_Ok (f : offers → result AdvertisementError.AdvertisementError offers) n n' :
  on_offers f n = Ok n' ↔ ∃ ads, f (nd_ads n) = Ok ads ∧ n' = n <| nd_ads := ads |>.
Proof.
  unfold on_offers. rewrite bind_Ok. setoid_rewrite lift_Ok. naive_solver.
Qed.

Ltac moves_by := right; do 4 eexists; split; [|split; [|split; [|reflexivity]]]; [done|done|];
  apply ignoring_transition_ads.

Lemma settlement_moves now e n n' :
  match e with
  | SettlementInitiated _ | PaymentSubmittedEvent _ | PaymentReversedEvent _ | SettlementApprovedEvent _
  | SettlementRejectedEvent _ | SettlementCancelledEvent _ | EscrowReleaseObserved _ _ => True
  | _ => False
  end → apply_event now e n = Ok n' → moves_hold n n'.
Proof.
  destruct e; try done; intros _ Hrun; cbn in Hrun; apply lift_Ok in Hrun.
  - unfold apply_initiate in Hrun. inv_ok. moves_by.
  - unfold apply_payment_submitted in Hrun. inv_ok. by left.
  - unfold apply_payment_reversed in Hrun. inv_ok. by left.
  - unfold apply_approved in Hrun. inv_ok. moves_by.
  - unfold apply_rejected in Hrun. inv_ok. moves_by.
  - unfold apply_cancelled in Hrun. inv_ok. moves_by.
  - unfold apply_escrow_released in Hrun. inv_ok. by left.
Qed.

Lemma dispute_resolved_moves now id v sig n : moves_hold n (ignoring (apply_dispute_resolved now id v sig n) n).
Proof.
  destruct (apply_dispute_resolved now id v sig n) as [n'|] eqn:Hrun; [|by left]. cbn.
  unfold apply_dispute_resolved in Hrun. inv_ok. destruct v; inv_ok; moves_by.
Qed.

Lemma dispute_moves now e n n' :
  match e with
  | DisputeOpened _ | ArbitratorJoined _ | VoteCommitted _ | VoteRevealed _ | MutualSettlementAgreed _
  | ExecutionObserved _ _ _ => True
  | _ => False
  end → apply_event now e n = Ok n' → moves_hold n n'.
Proof.
  destruct e; try done; intros _ Hrun; cbn in Hrun; apply lift_Ok in Hrun.
  - unfold apply_open in Hrun. inv_ok. destruct (apply_dispute_opened _ _ _) eqn:Ho; inv_ok.
    unfold apply_dispute_opened in Ho. inv_ok. by left.
  - unfold apply_arbitrator_join in Hrun. inv_ok. case_decide; inv_ok; by left.
  - unfold apply_vote_commit in Hrun. inv_ok. case_decide; inv_ok; by left.
  - unfold apply_vote_reveal in Hrun. inv_ok. case_decide; inv_ok; by left.
  - unfold apply_mutual_settlement_agree in Hrun. inv_ok. by left.
  - unfold apply_onchain_execution in Hrun. inv_ok. destruct outcome; inv_ok; [|by left].
    eapply moves_hold_ext; [apply dispute_resolved_moves|done|done].
Qed.

Lemma event_liq now e n n' : liq_inv n → event_typed e → apply_event now e n = Ok n' → liq_step n n'.
Proof.
  intros Hinv Ht Hrun.
  destruct e;
    try (eapply moves_hold_liq; [exact Hinv|]; eapply settlement_moves; [|exact Hrun]; exact I);
    try (eapply moves_hold_liq; [exact Hinv|]; eapply dispute_moves; [|exact Hrun]; exact I);
    cbn in Hrun, Ht.
  - apply on_offers_Ok in Hrun as (ads & Hads & ->). by apply (create_liq x).
  - apply on_offers_Ok in Hrun as (ads & Hads & ->). by apply (status_set_liq x).
  - apply on_offers_Ok in Hrun as (ads & Hads & ->). by apply (terms_update_liq x).
  - apply on_offers_Ok in Hrun as (ads & Hads & ->). by apply (pricing_update_liq x).
  - apply lift_Ok in Hrun. by eapply request_liq.
  - apply lift_Ok in Hrun. by eapply cancel_liq.
  - injection Hrun as <-. destruct (expire_stale_Ok now VALIDATION_WINDOW n Hinv) as (ads & -> & Hs). done.
Qed.
End instructions.

Section reachable.
Context `{Wire}.

Lemma market_step_liq n n' : liq_inv n → market_step n n' → liq_step n n'.
Proof. intros Hinv Hstep. destruct Hstep. by eapply event_liq. Qed.

Lemma market_steps_liq n n' : liq_inv n → steps market_step n n' → liq_step n n'.
Proof.
  intros Hinv. induction 1 as [n|n1 n2 n3 _ IH Hstep]; [by apply liq_step_refl|].
  specialize (IH Hinv). eapply liq_step_trans; [exact IH|].
  apply market_step_liq; [apply IH|done].
Qed.

Lemma empty_liq : liq_inv empty_node.
Proof. split; cbn; intros k x; by rewrite lookup_empty. Qed.

Lemma reachable_liq n : market_reachable n → liq_inv n.
Proof. intros Hn. by apply (market_steps_liq _ _ empty_liq Hn). Qed.
End reachable.
