(* ===== verification/DisputeBook.v ===== *)
(** * DisputeBook: settlements and disputes move together

    The effect of every event on the settlement and dispute indexes, the
    well-formedness of a case, and the invariant that ties a frozen settlement
    to its one unresolved case. *)

From S2P Require Import Prelude Runtime Peers Pricing Statements Offers MarketState.
From S2P Require Import Reservations Settlements Cases Market LiquidityInv.

Section book.
Context `{Wire}.
Implicit Types (n : node) (now : Timestamp) (s : Settlement) (d : Dispute).

(** ** Settlements *)

(** What a settlement is about never changes. *)
Definition same_deal s s' : Prop :=
  sm_id s' = sm_id s ∧ sm_reservation_id s' = sm_reservation_id s ∧ sm_buyer s' = sm_buyer s ∧
  sm_buyer_public_key s' = sm_buyer_public_key s ∧ sm_seller s' = sm_seller s ∧
  sm_seller_public_key s' = sm_seller_public_key s ∧ sm_amount s' = sm_amount s ∧
  sm_created_at s' = sm_created_at s.

(** The settlement is the one its buyer signed: the buyer's key on file is the
    one the buyer's peer id is made from, and the seller, the seller's key, the
    reservation and the amount are what an initiation under that key says.
    Nothing relates the seller's key to the seller. *)
Definition deal_signed s : Prop :=
  peer_id_from_public_key (sm_buyer_public_key s) = Some (sm_buyer s) ∧
  ∃ i sig, signed_by (sm_buyer_public_key s) (StSettlementInitiate i) sig ∧
    sti_id i = sm_id s ∧ sti_reservation_id i = sm_reservation_id s ∧
    sti_buyer i = sm_buyer s ∧ sti_buyer_public_key i = sm_buyer_public_key s ∧
    sti_seller i = sm_seller s ∧ sti_seller_public_key i = sm_seller_public_key s ∧
    sti_amount i = sm_amount s ∧ sti_timestamp i = sm_created_at s.

Lemma same_deal_signed s s' : same_deal s s' → deal_signed s → deal_signed s'.
Proof.
  unfold same_deal, deal_signed. intros (-> & -> & -> & -> & -> & -> & -> & ->). done.
Qed.

(** How an event may move a settlement, and whose statement, under which key on
    file, or whose observation it takes. *)
Inductive settle_move n : market_event → Settlement → Settlement → Prop :=
  | move_pay x s s' :
      sm_state s = SettlementState.AwaitingPayment → sm_state s' = SettlementState.PaymentSubmitted →
      pys_settlement_id (payload x) = sm_id s → pys_buyer (payload x) = sm_buyer s →
      signed_by (sm_buyer_public_key s) (StPaymentSubmitted (payload x)) (signature x) →
      settle_move n (PaymentSubmittedEvent x) s s'
  | move_reverse x s s' :
      sm_state s = SettlementState.PaymentSubmitted → sm_state s' = SettlementState.AwaitingPayment →
      pyr_settlement_id (payload x) = sm_id s → pyr_buyer (payload x) = sm_buyer s →
      signed_by (sm_buyer_public_key s) (StPaymentReversed (payload x)) (signature x) →
      settle_move n (PaymentReversedEvent x) s s'
  | move_approve x s s' :
      sm_state s = SettlementState.PaymentSubmitted → sm_state s' = SettlementState.Approved →
      sap_settlement_id (payload x) = sm_id s → sap_seller (payload x) = sm_seller s →
      signed_by (sm_seller_public_key s) (StSettlementApproved (payload x)) (signature x) →
      settle_move n (SettlementApprovedEvent x) s s'
  | move_reject x s s' :
      sm_state s = SettlementState.PaymentSubmitted → sm_state s' = SettlementState.Rejected →
      srj_settlement_id (payload x) = sm_id s → srj_seller (payload x) = sm_seller s →
      signed_by (sm_seller_public_key s) (StSettlementRejected (payload x)) (signature x) →
      settle_move n (SettlementRejectedEvent x) s s'
  | move_cancel x key s s' :
      sm_state s = SettlementState.AwaitingPayment → sm_state s' = SettlementState.Cancelled →
      scn_settlement_id (payload x) = sm_id s →
      scn_canceller (payload x) = sm_buyer s ∧ key = sm_buyer_public_key s ∨
        scn_canceller (payload x) = sm_seller s ∧ key = sm_seller_public_key s →
      signed_by key (StSettlementCancelled (payload x)) (signature x) →
      settle_move n (SettlementCancelledEvent x) s s'
  | move_release sig s s' :
      sm_state s = SettlementState.Approved → sm_state s' = SettlementState.Completed →
      settle_move n (EscrowReleaseObserved (sm_id s) sig) s s'
  | move_freeze x s s' :
      sm_state s ≠ SettlementState.Cancelled → sm_state s ≠ SettlementState.Disputed →
      sm_state s' = SettlementState.Disputed → dop_settlement_id (payload x) = sm_id s →
      dop_opener (payload x) = sm_buyer s ∨ dop_opener (payload x) = sm_seller s →
      peer_id_from_public_key (dop_opener_public_key (payload x)) = Some (dop_opener (payload x)) →
      signed_by (dop_opener_public_key (payload x)) (StDisputeOpen (payload x)) (signature x) →
      settle_move n (DisputeOpened x) s s'
  | move_resolve k sig o d s s' :
      sm_state s = SettlementState.Disputed → nd_disputes n !! k = Some d →
      dp_settlement_id d = sm_id s → dp_status d ≠ DisputeStatus.Resolved →
      sm_state s' = match escrow_verdict o with
                    | EscrowReleased => SettlementState.Completed
                    | EscrowReturned => SettlementState.Cancelled
                    end →
      settle_move n (ExecutionObserved k sig (Some o)) s s'.

(** ** Cases *)

(** A case's phase agrees with who has joined, committed and revealed, and
    every revealed vote opens a commitment. *)
Record case_ok d : Prop := {
  co_required : dp_required_arbitrators d = REQUIRED_ARBITRATORS;
  co_keys : (dp_arbitrator_keys d).*1 = dp_arbitrators d;
  co_arbitrators : NoDup (dp_arbitrators d);
  co_bench : Z.of_nat (length (dp_arbitrators d)) ≤ REQUIRED_ARBITRATORS;
  co_committed : NoDup (dp_commitments d).*1;
  co_commit_sub : (dp_commitments d).*1 ⊆ dp_arbitrators d;
  co_revealed : NoDup (dp_reveals d).*1;
  co_opens : ∀ a v, (a, v) ∈ dp_reveals d →
    ∃ c secret, assoc (dp_commitments d) a = Some c ∧ commitment v secret = c;
  co_sealed : dp_reveals d ≠ [] → Z.of_nat (length (dp_commitments d)) = REQUIRED_ARBITRATORS;
  co_open : dp_status d = DisputeStatus.Open →
    Z.of_nat (length (dp_arbitrators d)) < REQUIRED_ARBITRATORS ∧ dp_commitments d = [];
  co_locked : dp_status d = DisputeStatus.CaseLocked →
    Z.of_nat (length (dp_arbitrators d)) = REQUIRED_ARBITRATORS ∧
    Z.of_nat (length (dp_commitments d)) < REQUIRED_ARBITRATORS ∧ dp_reveals d = [];
  co_reveal : dp_status d = DisputeStatus.RevealPhase →
    Z.of_nat (length (dp_commitments d)) = REQUIRED_ARBITRATORS ∧
    Z.of_nat (length (dp_reveals d)) < REQUIRED_ARBITRATORS;
  co_awaiting : dp_status d = DisputeStatus.AwaitingChainExecution →
    Z.of_nat (length (dp_reveals d)) = REQUIRED_ARBITRATORS ∨
    dp_buyer_agreed d = true ∧ dp_seller_agreed d = true;
  co_resolved : is_Some (dp_resolution d) ↔ dp_status d = DisputeStatus.Resolved;
  co_observed : dp_status d = DisputeStatus.Resolved → is_Some (dp_onchain_execution_signature d);
}.

(** What a case is about never changes, and an arbitrator never leaves it. *)
Definition same_case d d' : Prop :=
  dp_id d' = dp_id d ∧ dp_settlement_id d' = dp_settlement_id d ∧ dp_buyer d' = dp_buyer d ∧
  dp_buyer_public_key d' = dp_buyer_public_key d ∧ dp_seller d' = dp_seller d ∧
  dp_seller_public_key d' = dp_seller_public_key d ∧ dp_opener d' = dp_opener d ∧
  dp_opened_at d' = dp_opened_at d ∧ dp_arbitrators d `prefix_of` dp_arbitrators d'.

(** ** One event *)

(** What an event does to the two indexes. *)
Inductive book_step n (e : market_event) n' : Prop :=
  | book_same :
      nd_settlements n' = nd_settlements n → nd_disputes n' = nd_disputes n → book_step n e n'
  | book_initiate s :
      nd_settlements n !! sm_id s = None → sm_state s = SettlementState.AwaitingPayment → deal_signed s →
      nd_settlements n' = <[sm_id s := s]> (nd_settlements n) → nd_disputes n' = nd_disputes n →
      book_step n e n'
  | book_settle k s s' :
      nd_settlements n !! k = Some s → settle_move n e s s' → same_deal s s' →
      sm_state s ≠ SettlementState.Disputed → sm_state s' ≠ SettlementState.Disputed →
      nd_settlements n' = <[sm_id s := s']> (nd_settlements n) → nd_disputes n' = nd_disputes n →
      book_step n e n'
  | book_open k s s' d :
      nd_settlements n !! k = Some s → settle_move n e s s' → same_deal s s' →
      nd_disputes n !! dp_id d = None → dp_settlement_id d = k → case_ok d →
      dp_status d = DisputeStatus.Open → sm_state s' = SettlementState.Disputed →
      dp_buyer d = sm_buyer s → dp_buyer_public_key d = sm_buyer_public_key s →
      dp_seller d = sm_seller s → dp_seller_public_key d = sm_seller_public_key s →
      nd_settlements n' = <[sm_id s := s']> (nd_settlements n) →
      nd_disputes n' = <[dp_id d := d]> (nd_disputes n) → book_step n e n'
  | book_case k d d' :
      nd_disputes n !! k = Some d → same_case d d' → (case_ok d → case_ok d') →
      dp_status d ≠ DisputeStatus.Resolved → dp_status d' ≠ DisputeStatus.Resolved →
      nd_settlements n' = nd_settlements n → nd_disputes n' = <[dp_id d := d']> (nd_disputes n) →
      book_step n e n'
  | book_resolve k d d' :
      nd_disputes n !! k = Some d → same_case d d' → (case_ok d → case_ok d') →
      dp_status d ≠ DisputeStatus.Resolved → dp_status d' = DisputeStatus.Resolved →
      nd_disputes n' = <[dp_id d := d']> (nd_disputes n) →
      (∃ sig o, e = ExecutionObserved k sig (Some o) ∧ dp_resolution d' = Some o ∧
         dp_onchain_execution_signature d' = Some sig) →
      (∀ s, nd_settlements n !! dp_settlement_id d = Some s → sm_id s = dp_settlement_id d →
         sm_state s = SettlementState.Disputed →
         ∃ s', settle_move n e s s' ∧ same_deal s s' ∧
           nd_settlements n' = <[dp_settlement_id d := s']> (nd_settlements n)) →
      book_step n e n'.

Definition keyed n : Prop :=
  (∀ k s, nd_settlements n !! k = Some s → sm_id s = k) ∧
  (∀ k d, nd_disputes n !! k = Some d → dp_id d = k).

(** Close a settlement transition: the index first, then the move. *)
Ltac book_settle_by Hk :=
  match goal with Hs : nd_settlements ?n !! _ = Some ?s |- _ =>
    pose proof (Hk _ _ Hs); eapply (book_settle _ _ _ _ s); [exact Hs|..]; cycle 4;
    [ cbn; f_equal; apply ignoring_transition_ads || reflexivity
    | cbn; apply ignoring_transition_ads || reflexivity
    | try (by econstructor) | by repeat split | congruence | done ]
  end.

Lemma settlement_book now e n n' :
  keyed n →
  match e with
  | PaymentSubmittedEvent _ | PaymentReversedEvent _ | SettlementApprovedEvent _
  | SettlementRejectedEvent _ | SettlementCancelledEvent _ | EscrowReleaseObserved _ _ => True
  | _ => False
  end → apply_event now e n = Ok n' → book_step n e n'.
Proof.
  intros [Hk _] He Hrun. destruct e; try done; cbn in Hrun; apply lift_Ok in Hrun.
  - unfold apply_payment_submitted in Hrun. inv_ok. inv_signed. book_settle_by Hk.
  - unfold apply_payment_reversed in Hrun. inv_ok. inv_signed. book_settle_by Hk.
  - unfold apply_approved, settlement_completed in Hrun. inv_ok. inv_signed. book_settle_by Hk.
  - unfold apply_rejected, settlement_abandoned in Hrun. inv_ok. inv_signed. book_settle_by Hk.
  - unfold apply_cancelled, settlement_abandoned in Hrun. inv_ok. inv_signed. book_settle_by Hk.
    econstructor; [done|done|done| |done]. repeat case_decide; inv_ok; auto.
  - unfold apply_escrow_released in Hrun. inv_ok. book_settle_by Hk.
    match goal with Hid : sm_id _ = settlement |- _ => rewrite <-Hid end. by constructor.
Qed.

Lemma assoc_app {V} (l k : list (PeerId * V)) a v : assoc l a = Some v → assoc (l ++ k) a = Some v.
Proof. induction l as [|[b w] l IH]; simpl; [done|]. by case_decide. Qed.

Lemma assoc_elem {V} (l : list (PeerId * V)) a v : assoc l a = Some v → a ∈ l.*1.
Proof.
  induction l as [|[b w] l IH]; simpl; [done|]. case_decide; [subst; by left|]. intros. right. auto.
Qed.

Lemma NoDup_snoc {A} (l : list A) x : NoDup l → x ∉ l → NoDup (l ++ [x]).
Proof. intros Hl Hx. apply NoDup_app. split; [done|]. split; [set_solver|apply NoDup_singleton]. Qed.

(** ** The phases of a case *)

Definition joined d (a : PeerId) (key : PublicKey) (t : Timestamp) : Dispute :=
  let arbitrators := dp_arbitrators d ++ [a] in
  let d := d <| dp_arbitrators := arbitrators |>
             <| dp_arbitrator_keys := dp_arbitrator_keys d ++ [(a, key)] |> in
  (if decide (Z.of_nat (length arbitrators) = dp_required_arbitrators d)
   then d <| dp_status := DisputeStatus.CaseLocked |> else d) <| dp_updated_at := t |>.

Lemma joined_ok d a key t :
  case_ok d → dp_status d = DisputeStatus.Open → a ∉ dp_arbitrators d → case_ok (joined d a key t).
Proof.
  intros Hok Hst Ha. destruct (co_open _ Hok Hst) as [Hlt Hc].
  pose proof (co_required _ Hok) as Hreq. pose proof (co_resolved _ Hok) as Hres.
  assert (dp_reveals d = []) as Hr.
  { destruct (dp_reveals d) as [|[b v] l] eqn:Hl; [done|].
    destruct (co_opens _ Hok b v) as (c & ? & Hc' & _); [rewrite Hl; by left|]. by rewrite Hc in Hc'. }
  assert (Z.of_nat (length (dp_arbitrators d ++ [a])) = Z.of_nat (length (dp_arbitrators d)) + 1) as Hlen.
  { rewrite length_app. simpl. lia. }
  unfold joined. cbn. rewrite Hlen, Hreq.
  split; case_decide as Hfull; cbn; rewrite ?Hlen, ?Hc, ?Hr, ?Hst in *; try done; try lia;
    try (rewrite fmap_app, (co_keys _ Hok); done); try (apply NoDup_snoc; [apply Hok|done]);
    try apply NoDup_nil_2; try (intros ?? ?%elem_of_nil; done); try (by intros ? ?%elem_of_nil);
    try (rewrite Hres; split; discriminate); intros _; (split; [lia|done]) || (split; [lia|split; [|done]]).
Qed.

Definition voted_commit d (a : PeerId) (c : list Z) (t : Timestamp) : Dispute :=
  let commitments := dp_commitments d ++ [(a, c)] in
  let d := d <| dp_commitments := commitments |> in
  (if decide (Z.of_nat (length commitments) = dp_required_arbitrators d)
   then d <| dp_status := DisputeStatus.RevealPhase |> else d) <| dp_updated_at := t |>.

Lemma voted_commit_ok d a c t :
  case_ok d → dp_status d = DisputeStatus.CaseLocked → a ∈ dp_arbitrators d →
  a ∉ (dp_commitments d).*1 → case_ok (voted_commit d a c t).
Proof.
  intros Hok Hst Ha Hnew. destruct (co_locked _ Hok Hst) as (Hn & Hlt & Hr).
  pose proof (co_required _ Hok) as Hreq. pose proof (co_resolved _ Hok) as Hres.
  assert (Z.of_nat (length (dp_commitments d ++ [(a, c)])) = Z.of_nat (length (dp_commitments d)) + 1) as Hlen.
  { rewrite length_app. simpl. lia. }
  assert ((dp_commitments d ++ [(a, c)]).*1 ⊆ dp_arbitrators d) as Hsub.
  { rewrite fmap_app. pose proof (co_commit_sub _ Hok). set_solver. }
  unfold voted_commit. cbn. rewrite Hlen, Hreq.
  split; case_decide as Hfull; cbn; rewrite ?Hlen, ?Hr, ?Hst in *; try done; try lia; try apply Hok;
    try (rewrite fmap_app; apply NoDup_snoc; [apply Hok|done]); try apply NoDup_nil_2;
    try exact Hsub;
    try (intros ?? ?%elem_of_nil; done); try (rewrite Hres; split; discriminate);
    intros _; (split; [lia|done]) || (split; [lia|split; [lia|done]]).
Qed.

Definition voted_reveal d (a : PeerId) (v : Vote.t) (t : Timestamp) : Dispute :=
  let reveals := dp_reveals d ++ [(a, v)] in
  let d := d <| dp_reveals := reveals |> in
  (if decide (Z.of_nat (length reveals) = dp_required_arbitrators d)
   then d <| dp_status := DisputeStatus.AwaitingChainExecution |> else d) <| dp_updated_at := t |>.

Lemma voted_reveal_ok d a v secret t :
  case_ok d → dp_status d = DisputeStatus.RevealPhase → a ∉ (dp_reveals d).*1 →
  assoc (dp_commitments d) a = Some (commitment v secret) → case_ok (voted_reveal d a v t).
Proof.
  intros Hok Hst Hnew Hc. destruct (co_reveal _ Hok Hst) as (Hn & Hlt).
  pose proof (co_required _ Hok) as Hreq. pose proof (co_resolved _ Hok) as Hres.
  assert (Z.of_nat (length (dp_reveals d ++ [(a, v)])) = Z.of_nat (length (dp_reveals d)) + 1) as Hlen.
  { rewrite length_app. simpl. lia. }
  assert (∀ b w, (b, w) ∈ dp_reveals d ++ [(a, v)] →
    ∃ c secret, assoc (dp_commitments d) b = Some c ∧ commitment w secret = c) as Hopens.
  { intros b w [Hb|Hb%list_elem_of_singleton]%elem_of_app; [by apply Hok|]. simplify_eq. eauto. }
  unfold voted_reveal. cbn. rewrite Hlen, Hreq.
  split; case_decide as Hfull; cbn; rewrite ?Hlen, ?Hst in *; try done; try lia; try apply Hok;
    try (rewrite fmap_app; apply NoDup_snoc; [apply Hok|done]); try (rewrite Hres; split; discriminate);
    intros _; by left || (split; [lia|lia]).
Qed.

(** A party's agreement, and the notice of an execution. *)
Definition agreed d (buyer seller : bool) (t : Timestamp) : Dispute :=
  let d := d <| dp_buyer_agreed := buyer |> <| dp_seller_agreed := seller |> in
  (if buyer && seller then d <| dp_status := DisputeStatus.AwaitingChainExecution |> else d)
    <| dp_updated_at := t |>.

Lemma agreed_ok d b c t :
  case_ok d → dp_status d ≠ DisputeStatus.Resolved →
  (dp_buyer_agreed d = true → b = true) → (dp_seller_agreed d = true → c = true) → case_ok (agreed d b c t).
Proof.
  intros Hok Hst Hb Hc. pose proof (co_resolved _ Hok) as Hres. pose proof (co_awaiting _ Hok) as Haw.
  unfold agreed. cbn. destruct (b && c) eqn:Hbc.
  - apply andb_true_iff in Hbc as [-> ->]. split; cbn; try apply Hok; try done; [by right|].
    rewrite Hres. split; [done|discriminate].
  - split; cbn; try apply Hok. intros Hs. destruct (Haw Hs) as [?|[? ?]]; [by left|right; auto].
Qed.

Definition noticed d (sig : string) (outcome : option Resolution.t) : Dispute :=
  let d := d <| dp_onchain_execution_signature := Some sig |> in
  match outcome with
  | None => d
  | Some o => d <| dp_resolution := Some o |> <| dp_status := DisputeStatus.Resolved |>
  end.

Lemma noticed_ok d sig outcome : case_ok d → case_ok (noticed d sig outcome).
Proof.
  intros Hok. pose proof (co_resolved _ Hok). destruct outcome; split; cbn; try apply Hok; done || eauto.
Qed.

(** ** The dispute events *)

(** The case [apply_open] writes. *)
Definition fresh_case (o : DisputeOpen) s : Dispute :=
  mkDispute (dop_id o) (dop_settlement_id o) (sm_buyer s) (sm_buyer_public_key s) (sm_seller s)
    (sm_seller_public_key s) (dop_opener o) (dop_reason o) DisputeStatus.Open REQUIRED_ARBITRATORS
    [] [] [] [] None false false None (dop_timestamp o) (dop_timestamp o).

Lemma fresh_case_ok o s : case_ok (fresh_case o s).
Proof.
  split; cbn; try done; try apply NoDup_nil_2; try by intros ?? ?%elem_of_nil.
Qed.

Lemma open_book now x n n' :
  keyed n → apply_event now (DisputeOpened x) n = Ok n' → book_step n (DisputeOpened x) n'.
Proof.
  intros [Hk _] Hrun. cbn in Hrun. apply lift_Ok in Hrun. unfold apply_open in Hrun. inv_ok. inv_signed.
  destruct (apply_dispute_opened _ _ _) as [n1|] eqn:Ho; inv_ok. unfold apply_dispute_opened in Ho. inv_ok. simplify_eq.
  match goal with H2 : nd_settlements n !! _ = Some ?x |- _ => rename x into s, H2 into Hs end.
  pose proof (Hk _ _ Hs) as Hid.
  assert (dop_opener (payload x) = sm_buyer s ∨ dop_opener (payload x) = sm_seller s) as Hparty.
  { destruct (decide (dop_opener (payload x) = sm_buyer s)),
      (decide (dop_opener (payload x) = sm_seller s)); tauto. }
  eapply (book_open n _ _ _ s _ (fresh_case (payload x) s) Hs); cycle 11; [reflexivity|reflexivity|..];
    try done; [|apply fresh_case_ok].
  econstructor; try done; tauto.
Qed.

Lemma join_Ok (x : signed ArbitratorJoin) n n' :
  let j := payload x in
  apply_arbitrator_join x n = Ok n' → ∃ d, nd_disputes n !! arj_dispute_id j = Some d ∧
    dp_status d = DisputeStatus.Open ∧
    ((arj_arbitrator j ∈ dp_arbitrators d ∧ n' = n) ∨
     (arj_arbitrator j ∉ dp_arbitrators d) ∧
     n' = put_dispute n (joined d (arj_arbitrator j) (arj_arbitrator_public_key j) (arj_timestamp j))).
Proof. intros j Hrun. unfold apply_arbitrator_join in Hrun. inv_ok. case_decide; inv_ok; eauto 10. Qed.

Lemma commit_Ok (x : signed VoteCommit) n n' :
  let v := payload x in
  apply_vote_commit x n = Ok n' → ∃ d key, nd_disputes n !! vcm_dispute_id v = Some d ∧
    dp_status d = DisputeStatus.CaseLocked ∧ arbitrator_key d (vcm_arbitrator v) = Some key ∧
    signed_by key (StVoteCommit v) (signature x) ∧
    ((vcm_arbitrator v ∈ (dp_commitments d).*1 ∧ n' = n) ∨
     (vcm_arbitrator v ∉ (dp_commitments d).*1) ∧
     n' = put_dispute n (voted_commit d (vcm_arbitrator v) (vcm_commitment v) (vcm_timestamp v))).
Proof.
  intros v Hrun. unfold apply_vote_commit in Hrun. inv_ok. inv_signed. case_decide; inv_ok; eauto 12.
Qed.

Lemma reveal_Ok (x : signed VoteReveal) n n' :
  let v := payload x in
  apply_vote_reveal x n = Ok n' → ∃ d key, nd_disputes n !! vrv_dispute_id v = Some d ∧
    dp_status d = DisputeStatus.RevealPhase ∧ arbitrator_key d (vrv_arbitrator v) = Some key ∧
    signed_by key (StVoteReveal v) (signature x) ∧
    assoc (dp_commitments d) (vrv_arbitrator v) = Some (commitment (vrv_vote v) (vrv_secret v)) ∧
    ((vrv_arbitrator v ∈ (dp_reveals d).*1 ∧ n' = n) ∨
     (vrv_arbitrator v ∉ (dp_reveals d).*1) ∧
     n' = put_dispute n (voted_reveal d (vrv_arbitrator v) (vrv_vote v) (vrv_timestamp v))).
Proof.
  intros v Hrun. unfold apply_vote_reveal in Hrun. inv_ok. inv_signed. case_decide; inv_ok; eauto 14.
Qed.

Lemma agree_Ok (x : signed MutualSettlementAgree) n n' :
  let a := payload x in
  apply_mutual_settlement_agree x n = Ok n' → ∃ d, nd_disputes n !! mta_dispute_id a = Some d ∧
    dp_status d ≠ DisputeStatus.Resolved ∧
    (mta_party a = dp_buyer d ∧ n' = put_dispute n (agreed d true (dp_seller_agreed d) (mta_timestamp a)) ∨
     mta_party a ≠ dp_buyer d ∧ mta_party a = dp_seller d ∧
     n' = put_dispute n (agreed d (dp_buyer_agreed d) true (mta_timestamp a))).
Proof.
  intros a Hrun. unfold apply_mutual_settlement_agree in Hrun. inv_ok.
  case_decide; [|case_decide]; inv_ok; eauto 10.
Qed.

(** Close a case's step: the case that replaces it, and its lemma. *)
Ltac book_case_by Hd d' :=
  eapply (book_case _ _ _ _ _ d' Hd);
    [ unfold joined, voted_commit, voted_reveal, agreed, noticed; cbn; repeat case_match;
        unfold same_case; cbn; split_and!; solve [reflexivity | by apply prefix_app_r]
    | | congruence
    | unfold joined, voted_commit, voted_reveal, agreed, noticed; cbn; repeat case_match; cbn; congruence
    | reflexivity
    | unfold joined, voted_commit, voted_reveal, agreed, noticed; cbn; by repeat case_match ].

Lemma case_book now e n n' :
  match e with
  | ArbitratorJoined _ | VoteCommitted _ | VoteRevealed _ | MutualSettlementAgreed _ => True
  | _ => False
  end → apply_event now e n = Ok n' → book_step n e n'.
Proof.
  intros He Hrun. destruct e; try done; cbn in Hrun; apply lift_Ok in Hrun.
  - apply join_Ok in Hrun as (d & Hd & Hst & [[_ ->]|[Ha ->]]); [by apply book_same|].
    book_case_by Hd (joined d (arj_arbitrator (payload x)) (arj_arbitrator_public_key (payload x))
      (arj_timestamp (payload x))). intros. by apply joined_ok.
  - apply commit_Ok in Hrun as (d & key & Hd & Hst & Hkey & _ & [[_ ->]|[Ha ->]]); [by apply book_same|].
    book_case_by Hd (voted_commit d (vcm_arbitrator (payload x)) (vcm_commitment (payload x))
      (vcm_timestamp (payload x))). intros Hok.
    apply voted_commit_ok; try done. rewrite <-(co_keys _ Hok). by eapply assoc_elem.
  - apply reveal_Ok in Hrun as (d & key & Hd & Hst & _ & _ & Hc & [[_ ->]|[Ha ->]]); [by apply book_same|].
    book_case_by Hd (voted_reveal d (vrv_arbitrator (payload x)) (vrv_vote (payload x))
      (vrv_timestamp (payload x))). intros. by eapply voted_reveal_ok.
  - apply agree_Ok in Hrun as (d & Hd & Hst & [[_ ->]|(_ & _ & ->)]).
    + book_case_by Hd (agreed d true (dp_seller_agreed d) (mta_timestamp (payload x))).
      intros. by apply agreed_ok.
    + book_case_by Hd (agreed d (dp_buyer_agreed d) true (mta_timestamp (payload x))).
      intros. by apply agreed_ok.
Qed.

Lemma dispute_resolved_keeps now k v sig n :
  nd_disputes (ignoring (apply_dispute_resolved now k v sig n) n) = nd_disputes n.
Proof.
  destruct (apply_dispute_resolved _ _ _ _ _) as [n'|] eqn:Hrun; [|done].
  unfold apply_dispute_resolved, settlement_completed, settlement_abandoned in Hrun. inv_ok.
  destruct v; inv_ok; cbn; apply ignoring_transition_ads.
Qed.

(** A frozen settlement ends the way the verdict says. *)
Lemma dispute_resolved_settles now v sig n s :
  nd_settlements n !! sm_id s = Some s → sm_state s = SettlementState.Disputed →
  ∃ s', nd_settlements (ignoring (apply_dispute_resolved now (sm_id s) v sig n) n)
          = <[sm_id s := s']> (nd_settlements n) ∧ same_deal s s' ∧
        sm_state s' = match v with
                      | EscrowReleased => SettlementState.Completed
                      | EscrowReturned => SettlementState.Cancelled
                      end.
Proof.
  intros Hs Hst. unfold apply_dispute_resolved, settlement_completed, settlement_abandoned.
  rewrite Hs. cbn. rewrite require_true by done. cbn.
  destruct v; cbn; eexists; (split; [f_equal; apply ignoring_transition_ads|]); by repeat split.
Qed.

Lemma execution_book now k sig outcome n n' :
  keyed n → apply_event now (ExecutionObserved k sig outcome) n = Ok n' →
  book_step n (ExecutionObserved k sig outcome) n'.
Proof.
  intros [_ Hk] Hrun. cbn in Hrun. apply lift_Ok in Hrun. unfold apply_onchain_execution in Hrun. inv_ok.
  destruct outcome as [o|]; inv_ok;
    [|match goal with Hd : nd_disputes n !! _ = Some ?d |- _ => book_case_by Hd (noticed d sig None) end;
      intros; by apply (noticed_ok _ sig None)].
  match goal with Hd : nd_disputes n !! _ = Some ?d |- _ =>
    refine (book_resolve n _ _ k d (noticed d sig (Some o)) Hd _ _ _ _ _ _ _) end;
    [by unfold same_case; cbn; split_and! | by intros; apply noticed_ok | done | done | | by exists sig, o |].
  - cbn. by rewrite dispute_resolved_keeps.
  - intros s Hs Hid Hst. cbn. rewrite <-Hid in *.
    destruct (dispute_resolved_settles now (escrow_verdict o) sig n s) as (s' & Heq & Hdeal & Hst'); try done.
    exists s'. split; [|by split]. by econstructor.
Qed.

Lemma expire_stale_keeps now window n :
  nd_settlements (expire_stale now window n).2 = nd_settlements n ∧
  nd_disputes (expire_stale now window n).2 = nd_disputes n.
Proof.
  unfold expire_stale. generalize (saturating_sub_u64 now window) (all_reservations n) (mkSweep 0 0).
  intros cutoff l sw. revert sw n. induction l as [|r l IH]; intros sw n; [done|]. simpl foldl.
  case_decide; [apply IH|]. case_match; [|apply IH].
  split; (etransitivity; [apply IH|reflexivity]).
Qed.

Lemma initiate_book now x n n' :
  apply_event now (SettlementInitiated x) n = Ok n' → book_step n (SettlementInitiated x) n'.
Proof.
  intros Hrun. cbn in Hrun. apply lift_Ok in Hrun. unfold apply_initiate, settlement_started in Hrun. inv_ok. inv_signed.
  eapply book_initiate; cycle 3; cbn;
    [ f_equal; [reflexivity|apply ignoring_transition_ads] | apply ignoring_transition_ads | done | done |].
  split; [done|]. by exists (payload x), (signature x).
Qed.

Lemma event_book now e n n' : keyed n → apply_event now e n = Ok n' → book_step n e n'.
Proof.
  intros Hk Hrun.
  destruct e; try (eapply settlement_book; [done|exact I|exact Hrun]);
    try (eapply case_book; [exact I|exact Hrun]); try by eapply open_book.
  all: try by eapply execution_book.
  all: try by eapply initiate_book.
  all: try (apply on_offers_Ok in Hrun as (? & _ & ->); by apply book_same).
  - cbn in Hrun. apply lift_Ok in Hrun. unfold apply_request, on_ads in Hrun. inv_ok.
    case_match; inv_ok. by apply book_same.
  - cbn in Hrun. apply lift_Ok in Hrun. unfold apply_cancel in Hrun. inv_ok. by apply book_same.
  - injection Hrun as <-. apply book_same; apply expire_stale_keeps.
Qed.

(** ** The invariant *)

(** Settlements and cases are stored under their ids; every case is about a
    settlement between the same two parties; a settlement is frozen exactly
    while it has an unresolved case, and it never has two. *)
Record book_inv n : Prop := {
  bk_keyed : keyed n;
  bk_cases : ∀ k d, nd_disputes n !! k = Some d → case_ok d;
  bk_about : ∀ k d, nd_disputes n !! k = Some d →
    ∃ s, nd_settlements n !! dp_settlement_id d = Some s ∧ dp_buyer d = sm_buyer s ∧
         dp_buyer_public_key d = sm_buyer_public_key s ∧ dp_seller d = sm_seller s ∧
         dp_seller_public_key d = sm_seller_public_key s ∧
         (dp_status d ≠ DisputeStatus.Resolved → sm_state s = SettlementState.Disputed);
  bk_one : ∀ k k' d d', nd_disputes n !! k = Some d → nd_disputes n !! k' = Some d' →
    dp_status d ≠ DisputeStatus.Resolved → dp_status d' ≠ DisputeStatus.Resolved →
    dp_settlement_id d = dp_settlement_id d' → k = k';
  bk_frozen : ∀ k s, nd_settlements n !! k = Some s → sm_state s = SettlementState.Disputed →
    ∃ k' d, nd_disputes n !! k' = Some d ∧ dp_settlement_id d = k ∧ dp_status d ≠ DisputeStatus.Resolved;
}.

Section preservation.
Context (n n' : node) (Hinv : book_inv n).

(** A settlement that is written without being frozen before or after. *)
Lemma write_settlement_inv k s' :
  nd_settlements n' = <[k := s']> (nd_settlements n) → nd_disputes n' = nd_disputes n → sm_id s' = k →
  sm_state s' ≠ SettlementState.Disputed →
  (∀ s, nd_settlements n !! k = Some s → same_deal s s' ∧ sm_state s ≠ SettlementState.Disputed) →
  book_inv n'.
Proof using Hinv.
  intros Hs Hd Hid Hnd Hold. destruct (bk_keyed _ Hinv) as [Hk1 Hk2]. split; rewrite ?Hd; try apply Hinv.
  - split; [|by rewrite Hd]. intros k' s''. rewrite Hs, lookup_insert_Some. intros [[<- <-]|[_ ?]]; auto.
  - intros k' d Hk'. destruct (bk_about _ Hinv _ _ Hk') as (s & Hl & Hb & Hbk & Hsl & Hsk & Hst).
    rewrite Hs. destruct (decide (k = dp_settlement_id d)) as [->|Hne].
    + destruct (Hold _ Hl) as [(_ & _ & ? & ? & ? & ? & _) Hns]. exists s'. rewrite lookup_insert_eq.
      repeat split; try congruence. intros Hr. by destruct (Hns (Hst Hr)).
    + exists s. rewrite lookup_insert_ne by done. by repeat split.
  - intros k' s. rewrite Hs, lookup_insert_Some. intros [[<- <-]|[_ Hk']] Hst; [done|].
    by apply (bk_frozen _ Hinv _ s).
Qed.

(** A new case freezes a settlement that was not frozen. *)
Lemma open_case_inv s s' d :
  nd_settlements n !! dp_settlement_id d = Some s → same_deal s s' →
  sm_state s ≠ SettlementState.Disputed → sm_state s' = SettlementState.Disputed →
  nd_disputes n !! dp_id d = None → case_ok d → dp_status d = DisputeStatus.Open →
  dp_buyer d = sm_buyer s → dp_buyer_public_key d = sm_buyer_public_key s →
  dp_seller d = sm_seller s → dp_seller_public_key d = sm_seller_public_key s →
  nd_settlements n' = <[sm_id s := s']> (nd_settlements n) →
  nd_disputes n' = <[dp_id d := d]> (nd_disputes n) → book_inv n'.
Proof using Hinv.
  intros Hl (Hid & _ & Hb' & Hbk' & Hs' & Hsk' & _) Hnd Hdis Hnew Hok Hopen Hb Hbk Hsl Hsk Hs Hd.
  destruct (bk_keyed _ Hinv) as [Hk1 Hk2]. pose proof (Hk1 _ _ Hl) as Hkey. rewrite Hkey in Hs.
  assert (∀ k d', nd_disputes n !! k = Some d' → dp_status d' ≠ DisputeStatus.Resolved →
    dp_settlement_id d' ≠ dp_settlement_id d) as Hfree.
  { intros k d' Hk' Hr Heq. destruct (bk_about _ Hinv _ _ Hk') as (s0 & Hl0 & _ & _ & _ & _ & Hst).
    rewrite Heq, Hl in Hl0. injection Hl0 as <-. by apply Hnd, Hst. }
  split; rewrite ?Hs, ?Hd.
  - split; [rewrite Hs|rewrite Hd]; intros k x; rewrite lookup_insert_Some;
      intros [[<- <-]|[_ ?]]; auto; congruence.
  - intros k d' [[<- <-]|[_ ?]]%lookup_insert_Some; [done|]. by eapply (bk_cases _ Hinv).
  - intros k d' [[<- <-]|[_ Hk']]%lookup_insert_Some.
    + exists s'. rewrite lookup_insert_eq. repeat split; try congruence.
    + destruct (bk_about _ Hinv _ _ Hk') as (s0 & Hl0 & ?).
      destruct (decide (dp_settlement_id d = dp_settlement_id d')) as [Heq|Hne].
      * exists s'. rewrite <-Heq, Hl in Hl0. injection Hl0 as <-. rewrite Heq, lookup_insert_eq.
        repeat split; intuition congruence.
      * exists s0. by rewrite lookup_insert_ne.
  - intros k k' d1 d2 [[<- <-]|[_ H1]]%lookup_insert_Some [[<- <-]|[_ H2]]%lookup_insert_Some Hr1 Hr2 Heq;
      [done|by destruct (Hfree _ _ H2 Hr2)|by destruct (Hfree _ _ H1 Hr1)|by eapply (bk_one _ Hinv)].
  - intros k s0 [[<- <-]|[Hne Hk']]%lookup_insert_Some Hst.
    + exists (dp_id d), d. rewrite lookup_insert_eq. by rewrite Hopen.
    + destruct (bk_frozen _ Hinv _ _ Hk' Hst) as (k' & d' & Hd' & Hx & Hr). exists k', d'.
      rewrite lookup_insert_ne; [done|]. intros <-. congruence.
Qed.

(** A case that advances without resolving. *)
Lemma advance_case_inv k d d' :
  nd_disputes n !! k = Some d → same_case d d' → case_ok d' →
  dp_status d ≠ DisputeStatus.Resolved → dp_status d' ≠ DisputeStatus.Resolved →
  nd_settlements n' = nd_settlements n → nd_disputes n' = <[k := d']> (nd_disputes n) → book_inv n'.
Proof using Hinv.
  intros Hl (Hid & Hsid & Hb' & Hbk' & Hs' & Hsk' & _) Hok Hr Hr' Hs Hd.
  destruct (bk_keyed _ Hinv) as [Hk1 Hk2]. split; rewrite ?Hs, ?Hd.
  - split; [by rewrite Hs|rewrite Hd]. intros k1 x [[<- <-]|[_ ?]]%lookup_insert_Some; [|auto].
    rewrite Hid. auto.
  - intros k1 x [[<- <-]|[_ ?]]%lookup_insert_Some; [done|]. by eapply (bk_cases _ Hinv).
  - intros k1 x [[<- <-]|[_ Hk']]%lookup_insert_Some; [|by apply (bk_about _ Hinv k1)].
    destruct (bk_about _ Hinv _ _ Hl) as (s0 & Hl0 & ? & ? & ? & ? & Hst). exists s0.
    rewrite Hsid. repeat split; try congruence. auto.
  - intros k1 k2 d1 d2 [[<- <-]|[_ H1]]%lookup_insert_Some [[<- <-]|[_ H2]]%lookup_insert_Some Hr1 Hr2 Heq;
      [done|eapply (bk_one _ Hinv)..]; eauto; congruence.
  - intros k1 s0 Hk' Hst. destruct (bk_frozen _ Hinv _ _ Hk' Hst) as (k2 & d2 & Hd2 & Hx & Hr2).
    destruct (decide (k = k2)) as [<-|Hne].
    + rewrite Hl in Hd2. injection Hd2 as <-. exists k, d'. rewrite lookup_insert_eq. by rewrite Hsid.
    + exists k2, d2. by rewrite lookup_insert_ne.
Qed.

(** The resolution of a case releases its settlement. *)
Lemma resolve_case_inv k d d' s s' :
  nd_disputes n !! k = Some d → same_case d d' → case_ok d' →
  dp_status d ≠ DisputeStatus.Resolved → dp_status d' = DisputeStatus.Resolved →
  nd_settlements n !! dp_settlement_id d = Some s → same_deal s s' →
  sm_state s' ≠ SettlementState.Disputed →
  nd_settlements n' = <[dp_settlement_id d := s']> (nd_settlements n) →
  nd_disputes n' = <[k := d']> (nd_disputes n) → book_inv n'.
Proof using Hinv.
  intros Hl (Hid & Hsid & Hb' & Hbk' & Hs' & Hsk' & _) Hok Hr Hr' Hls
    (Hid2 & _ & Hb2 & Hbk2 & Hs2 & Hsk2 & _) Hnd Hs Hd.
  destruct (bk_keyed _ Hinv) as [Hk1 Hk2].
  assert (∀ k1 x, nd_disputes n !! k1 = Some x → k1 ≠ k → dp_status x ≠ DisputeStatus.Resolved →
    dp_settlement_id x ≠ dp_settlement_id d) as Hone.
  { intros k1 x Hx Hne Hrx Heq. by apply Hne, (bk_one _ Hinv k1 k x d). }
  split; rewrite ?Hs, ?Hd.
  - split; [rewrite Hs|rewrite Hd]; intros k1 x [[<- <-]|[_ ?]]%lookup_insert_Some; auto.
    + rewrite Hid2. auto.
    + rewrite Hid. auto.
  - intros k1 x [[<- <-]|[_ ?]]%lookup_insert_Some; [done|]. by eapply (bk_cases _ Hinv).
  - intros k1 x [[<- <-]|[Hne Hk']]%lookup_insert_Some.
    + destruct (bk_about _ Hinv _ _ Hl) as (s0 & Hl0 & ? & ? & ? & ? & _). rewrite Hls in Hl0.
      injection Hl0 as <-. exists s'. rewrite Hsid, lookup_insert_eq. repeat split; congruence.
    + destruct (bk_about _ Hinv _ _ Hk') as (s0 & Hl0 & ? & ? & ? & ? & Hst).
      destruct (decide (dp_settlement_id d = dp_settlement_id x)) as [Heq|Hne'].
      * rewrite <-Heq, Hls in Hl0. injection Hl0 as <-. exists s'. rewrite Heq, lookup_insert_eq.
        repeat split; try congruence. intros Hrx. by destruct (Hone k1 x Hk' (not_eq_sym Hne) Hrx).
      * exists s0. rewrite lookup_insert_ne by done. by repeat split.
  - intros k1 k2 d1 d2 [[<- <-]|[_ H1]]%lookup_insert_Some [[<- <-]|[_ H2]]%lookup_insert_Some Hr1 Hr2 Heq;
      [done..|by eapply (bk_one _ Hinv)].
  - intros k1 s0 [[<- <-]|[Hne Hk']]%lookup_insert_Some Hst; [done|].
    destruct (bk_frozen _ Hinv _ _ Hk' Hst) as (k2 & d2 & Hd2 & Hx & Hr2). exists k2, d2.
    rewrite lookup_insert_ne; [done|]. intros <-. congruence.
Qed.
End preservation.

Lemma book_step_inv n e n' : book_inv n → book_step n e n' → book_inv n'.
Proof.
  intros Hinv. destruct (bk_keyed _ Hinv) as [Hk1 Hk2].
  intros [Hs Hd|s Hl Hst _ Hs Hd|k s s' Hl Hm Hdeal Hst Hst' Hs Hd
    |k s s' d Hl Hm Hdeal Hnew Hk Hok Hop Hst' Hb Hbk Hsl Hsk Hs Hd
    |k d d' Hl Hc Hok Hr Hr' Hs Hd|k d d' Hl Hc Hok Hr Hr' Hd _ Hres].
  - destruct Hinv. split; unfold keyed; rewrite ?Hs, ?Hd; auto.
  - eapply (write_settlement_inv n); eauto; congruence.
  - eapply (write_settlement_inv n n' Hinv (sm_id s) s'); eauto; [by destruct Hdeal|].
    rewrite (Hk1 _ _ Hl), Hl. intros ? [= <-]. done.
  - subst k. eapply (open_case_inv n n' Hinv s s' d); eauto.
    inversion Hm; subst; repeat case_match; congruence.
  - eapply (advance_case_inv n n' Hinv k d d'); eauto using bk_cases. by rewrite <-(Hk2 _ _ Hl).
  - destruct (bk_about _ Hinv _ _ Hl) as (s & Hls & _ & _ & _ & _ & Hst).
    destruct (Hres s Hls (Hk1 _ _ Hls) (Hst Hr)) as (s' & Hm & Hdeal & Hs).
    eapply (resolve_case_inv n n' Hinv k d d' s s'); eauto using bk_cases.
    + specialize (Hst Hr). inversion Hm; subst; repeat case_match; congruence.
    + by rewrite <-(Hk2 _ _ Hl).
Qed.

(** Every settlement on file is one its buyer signed. *)
Definition deals_ok n : Prop := ∀ k s, nd_settlements n !! k = Some s → deal_signed s.

Lemma book_step_deals n e n' : book_inv n → book_step n e n' → deals_ok n → deals_ok n'.
Proof.
  intros Hinv Hstep Hok.
  assert (∀ k0 s0 s1, nd_settlements n !! k0 = Some s0 → same_deal s0 s1 → ∀ k s,
    <[sm_id s0 := s1]> (nd_settlements n) !! k = Some s → deal_signed s) as Hput.
  { intros k0 s0 s1 H0 Hd k s. rewrite lookup_insert. case_decide; [|by apply Hok].
    intros [= <-]. eapply same_deal_signed; [done|]. by eapply Hok. }
  destruct (bk_keyed _ Hinv) as [Hk1 _].
  destruct Hstep as [Hs _|s Hl _ Hdeal Hs _|k s s' Hl _ Hdeal _ _ Hs _
    |k s s' d Hl _ Hdeal _ _ _ _ _ _ _ _ _ Hs _|k d d' _ _ _ _ _ Hs _|k d d' Hl _ _ Hr _ _ _ Hres];
    intros k0 s0; [rewrite Hs..|].
  - apply Hok.
  - rewrite lookup_insert. case_decide; [by intros [= <-]|apply Hok].
  - by eapply Hput.
  - by eapply Hput.
  - apply Hok.
  - destruct (bk_about _ Hinv _ _ Hl) as (s & Hls & _ & _ & _ & _ & Hst).
    destruct (Hres s Hls (Hk1 _ _ Hls) (Hst Hr)) as (s' & _ & Hdeal & ->).
    rewrite <-(Hk1 _ _ Hls). by eapply Hput.
Qed.

Lemma empty_book : book_inv empty_node.
Proof.
  split; unfold keyed, empty_node; cbn; try split; intros *; rewrite ?lookup_empty; try done.
Qed.

Lemma reachable_book n : market_reachable n → book_inv n.
Proof.
  unfold market_reachable. intros Hsteps. pose proof empty_book as Hinit. revert Hsteps Hinit.
  induction 1 as [|? n1 n2 _ IH Hstep]; intros Hinit; [done|]. specialize (IH Hinit).
  destruct Hstep. eapply book_step_inv; [exact IH|]. eapply event_book; [apply IH|done].
Qed.

Lemma reachable_deals n : market_reachable n → deals_ok n.
Proof.
  unfold market_reachable. intros Hsteps.
  apply (steps_invariant _ (λ n, book_inv n ∧ deals_ok n)) in Hsteps as [_ ?]; [done| |].
  - intros n1 n2 [Hb Hd] Hstep. destruct Hstep as [now e n1 n2 Ht Hrun].
    pose proof (event_book _ _ _ _ (bk_keyed _ Hb) Hrun).
    split; [by eapply book_step_inv|by eapply book_step_deals].
  - split; [apply empty_book|]. intros k s Hs. unfold empty_node in Hs. cbn in Hs. by rewrite lookup_empty in Hs.
Qed.
End book.
