(* ===== verification/MarketTheorems.v ===== *)
(** * MarketTheorems: what a node's book of the marketplace guarantees

    The properties of a node that has applied any sequence of gossiped events
    and observations of its own, and the gaps the registries leave. *)

From S2P Require Import Prelude Runtime Peers Pricing Statements Offers MarketState.
From S2P Require Import Reservations Settlements Cases Market LiquidityInv DisputeBook.

Section liquidity.
Context `{Wire}.
Implicit Types (n : node) (now : Timestamp).

(** C15: an advertisement's liquidity is conserved.  From the moment a node accepts
    an advertisement, whatever it then applies in whatever order, the
    advertisement stays its merchant's, and what it shows as available, what
    its live reservations (locked or in settlement) hold and what its settled
    reservations have sold add up to exactly what it was published with; none
    of the three is ever negative. *)
Theorem liquidity_conserved now x n n1 n2 :
  market_reachable n → event_typed (AdvertisementCreated x) →
  apply_event now (AdvertisementCreated x) n = Ok n1 → steps market_step n1 n2 →
  let id := ac_id (payload x) in
  ∃ ad, nd_ads n2 !! id = Some ad ∧ ad_merchant ad = ac_merchant (payload x) ∧
    0 ≤ available ad ∧ 0 ≤ held (nd_reservations n2) id ∧ 0 ≤ sold (nd_reservations n2) id ∧
    available ad + held (nd_reservations n2) id + sold (nd_reservations n2) id =
      base_units (ac_initial_liquidity (payload x)).
Proof.
  intros Hn Ht Hrun Hsteps id. pose proof (reachable_liq _ Hn) as Hinv.
  pose proof (event_liq _ _ _ _ Hinv Ht Hrun) as [Hinv1 _].
  cbn in Hrun. apply on_offers_Ok in Hrun as (ads & Hads & ->). unfold apply_create in Hads. inv_ok.
  destruct (market_steps_liq _ _ Hinv1 Hsteps) as [Hinv2 Hkeep].
  edestruct Hkeep as (ad & Had & (_ & Hm & _) & Heq); [apply lookup_insert_eq|].
  exists ad. split; [done|]. split; [done|]. split; [by destruct (li_ads _ Hinv2 _ _ Had) as (_ & ? & _)|].
  split; [by apply reserved_nonneg|]. split; [by apply reserved_nonneg|].
  cbn in Heq. rewrite (committed_split (nd_reservations n2)), (committed_unknown n) in Heq by done.
  unfold available in *. cbn in Heq. subst id. lia.
Qed.

(** One expiry sweep does its whole job: it expires exactly the reservations
    that are still locked and older than the window, defers none of them, and
    gives each advertisement back precisely what its expired reservations
    held. *)
Theorem sweep_expires_exactly now window n :
  market_reachable n →
  let cutoff := saturating_sub_u64 now window in
  let '(sw, n') := expire_stale now window n in
  sw_deferred sw = 0 ∧ sw_expired sw = Z.of_nat (length (filter (stale cutoff) (all_reservations n))) ∧
  nd_reservations n' = swept now cutoff <$> nd_reservations n ∧
  ∀ id ad, nd_ads n !! id = Some ad → ∃ ad', nd_ads n' !! id = Some ad' ∧
    available ad' = available ad + committed (nd_reservations n) id - committed (nd_reservations n') id.
Proof.
  intros Hn cutoff. destruct (expire_stale_Ok now window n (reachable_liq _ Hn)) as (ads & -> & _ & Hk).
  split; [done|]. split; [done|]. split; [done|]. intros id ad Had.
  destruct (Hk id ad Had) as (ad' & Had' & _ & Heq). exists ad'. split; [done|lia].
Qed.
End liquidity.

Section trades.
Context `{Wire}.
Implicit Types (n : node) (now : Timestamp).

Lemma trade_moves now e n n' k s :
  book_inv n → apply_event now e n = Ok n' → nd_settlements n !! k = Some s →
  ∃ s', nd_settlements n' !! k = Some s' ∧ same_deal s s' ∧ (s' = s ∨ settle_move n e s s').
Proof.
  intros Hn Hrun Hs. destruct (bk_keyed _ Hn) as [Hk1 Hk2].
  assert (∀ k' s0 s1 m, nd_settlements n !! k' = Some s0 → same_deal s0 s1 → settle_move n e s0 s1 →
    m = <[k' := s1]> (nd_settlements n) →
    ∃ s', m !! k = Some s' ∧ same_deal s s' ∧ (s' = s ∨ settle_move n e s s')) as Hput.
  { intros k' s0 s1 m H0 Hd Hm ->. destruct (decide (k' = k)) as [->|Hne].
    - rewrite Hs in H0. injection H0 as <-. exists s1. rewrite lookup_insert_eq. auto.
    - exists s. rewrite lookup_insert_ne by done. split; [done|]. split; [by repeat split|by left]. }
  destruct (event_book _ _ _ _ (bk_keyed _ Hn) Hrun)
    as [Hs' Hd|s0 Hl Hst _ Hs' Hd|k0 s0 s1 Hl Hm Hdeal Hst Hst' Hs' Hd
    |k0 s0 s1 d Hl Hm Hdeal Hnew Hk Hok Hop Hst' Hb Hbk Hsl Hsk Hs' Hd
    |k0 d d' Hl Hc Hok Hr Hr' Hs' Hd|k0 d d' Hl Hc Hok Hr Hr' Hd _ Hres].
  - exists s. rewrite Hs'. split; [done|]. split; [by repeat split|by left].
  - exists s. rewrite Hs', lookup_insert_ne by congruence. split; [done|]. split; [by repeat split|by left].
  - eapply (Hput k0 s0 s1); try done. by rewrite <-(Hk1 _ _ Hl).
  - eapply (Hput k0 s0 s1); try done. by rewrite <-(Hk1 _ _ Hl).
  - exists s. rewrite Hs'. split; [done|]. split; [by repeat split|by left].
  - destruct (bk_about _ Hn _ _ Hl) as (s0 & Hls & _ & _ & _ & _ & Hst).
    destruct (Hres s0 Hls (Hk1 _ _ Hls) (Hst Hr)) as (s1 & Hm & Hdeal & Hs'). by eapply Hput.
Qed.

(** C16: a trade moves only along the edges of the protocol, each on the word of
    the right side.  Whatever a node accepts, a settlement it knows stays known
    and stays about the same parties, keys, reservation and amount, and its
    state moves only by a statement about that settlement that names the party
    the edge belongs to and is signed under the key on file for that party (the
    buyer pays and takes a payment back, the seller approves or rejects, either
    cancels before payment), by a dispute opened by either party under a key
    their own peer id is made from, or by the node's own observation of the
    chain.  The buyer's key on file is the one the buyer's peer id is made
    from, and parties, keys, reservation and amount are those of an initiation
    signed under it.  The seller's key on file is thus the buyer's choice:
    nothing ties it to the seller, as [initiator_approves_as_seller] shows. *)
Theorem trade_state_machine now e n n' k s :
  market_reachable n → apply_event now e n = Ok n' → nd_settlements n !! k = Some s →
  sm_id s = k ∧ deal_signed s ∧
  ∃ s', nd_settlements n' !! k = Some s' ∧ same_deal s s' ∧ (s' = s ∨ settle_move n e s s').
Proof.
  intros Hn Hrun Hs. pose proof (reachable_book _ Hn) as Hb. split; [by apply (proj1 (bk_keyed _ Hb))|].
  split; [by eapply reachable_deals|by eapply trade_moves].
Qed.

(** C17: a trade is frozen by exactly one live dispute.  A settlement is in the
    disputed state exactly when the node holds an unresolved case about it,
    and then there is only one, between the settlement's own buyer and seller
    under the keys the settlement has on file for them. *)
Theorem one_live_dispute n k s :
  market_reachable n → nd_settlements n !! k = Some s →
  (sm_state s = SettlementState.Disputed ↔
   exists! id, ∃ d, nd_disputes n !! id = Some d ∧ dp_settlement_id d = k ∧
     dp_status d ≠ DisputeStatus.Resolved ∧
     dp_buyer d = sm_buyer s ∧ dp_buyer_public_key d = sm_buyer_public_key s ∧
     dp_seller d = sm_seller s ∧ dp_seller_public_key d = sm_seller_public_key s).
Proof.
  intros Hn%reachable_book Hs. split.
  - intros Hst. destruct (bk_frozen _ Hn _ _ Hs Hst) as (id & d & Hd & Hk & Hr).
    destruct (bk_about _ Hn _ _ Hd) as (s' & Hs' & Hb & Hbk & Hsl & Hsk & _).
    rewrite Hk, Hs in Hs'. injection Hs' as <-. exists id. split; [by exists d|].
    intros id' (d' & Hd' & Hk' & Hr' & _). eapply (bk_one _ Hn id id' d d'); congruence.
  - intros (id & (d & Hd & Hk & Hr & _) & _). destruct (bk_about _ Hn _ _ Hd) as (s' & Hs' & _ & _ & _ & _ & Hst).
    rewrite Hk, Hs in Hs'. injection Hs' as <-. auto.
Qed.

(** C18: a node never decides a dispute.  A case that becomes resolved does so by
    an execution the node observed on chain, with the outcome read there;
    nothing that is gossiped, votes and mutual agreements included, resolves
    one.  A resolved case never changes again. *)
Theorem only_the_chain_resolves now e n n' k d d' :
  market_reachable n → apply_event now e n = Ok n' →
  nd_disputes n !! k = Some d → nd_disputes n' !! k = Some d' →
  (dp_status d ≠ DisputeStatus.Resolved → dp_status d' = DisputeStatus.Resolved →
     ∃ sig o, e = ExecutionObserved k sig (Some o) ∧ dp_resolution d' = Some o ∧
       dp_onchain_execution_signature d' = Some sig) ∧
  (dp_status d = DisputeStatus.Resolved → d' = d).
Proof.
  intros Hn%reachable_book Hrun Hd Hd'. destruct (bk_keyed _ Hn) as [Hk1 Hk2].
  destruct (event_book _ _ _ _ (bk_keyed _ Hn) Hrun)
    as [_ Hds|s0 _ _ _ _ Hds|k0 s0 s1 _ _ _ _ _ _ Hds
    |k0 s0 s1 d0 _ _ _ Hnew _ _ _ _ _ _ _ _ _ Hds
    |k0 d0 d1 Hl Hc Hok Hr Hr' _ Hds|k0 d0 d1 Hl Hc Hok Hr Hr' Hds Hev _]; rewrite Hds in Hd'.
  1-3: split; [congruence|intros; congruence].
  - rewrite lookup_insert_ne in Hd' by congruence. split; [congruence|intros; congruence].
  - rewrite (Hk2 _ _ Hl) in Hd'. destruct (decide (k0 = k)) as [->|Hne].
    + rewrite lookup_insert_eq in Hd'. split; [congruence|intros; congruence].
    + rewrite lookup_insert_ne in Hd' by done. split; [congruence|intros; congruence].
  - rewrite (Hk2 _ _ Hl) in Hd'. destruct (decide (k0 = k)) as [->|Hne].
    + rewrite lookup_insert_eq in Hd'. injection Hd' as <-. split; [done|intros; congruence].
    + rewrite lookup_insert_ne in Hd' by done. split; [congruence|intros; congruence].
Qed.
End trades.

Section cases.
Context `{Wire}.
Implicit Types (n : node) (now : Timestamp).

(** C19: the votes a node holds are votes.  In every case: at most three
    arbitrators, each once; every revealed vote is the only one of a seated
    arbitrator and opens the commitment that arbitrator sealed before anyone
    could reveal; and a case waits for the chain only when all three votes are
    open or both parties have agreed to settle. *)
Theorem case_votes_sound n k d :
  market_reachable n → nd_disputes n !! k = Some d →
  Z.of_nat (length (dp_arbitrators d)) ≤ REQUIRED_ARBITRATORS ∧ NoDup (dp_arbitrators d) ∧
  NoDup (dp_reveals d).*1 ∧
  (∀ a v, (a, v) ∈ dp_reveals d → a ∈ dp_arbitrators d ∧
     ∃ secret, assoc (dp_commitments d) a = Some (commitment v secret)) ∧
  (dp_reveals d ≠ [] → Z.of_nat (length (dp_commitments d)) = REQUIRED_ARBITRATORS) ∧
  (dp_status d = DisputeStatus.AwaitingChainExecution →
     Z.of_nat (length (dp_reveals d)) = REQUIRED_ARBITRATORS ∨
     dp_buyer_agreed d = true ∧ dp_seller_agreed d = true).
Proof.
  intros Hn%reachable_book Hd. pose proof (bk_cases _ Hn _ _ Hd) as Hok.
  split; [apply Hok|]. split; [apply Hok|]. split; [apply Hok|]. split; [|split; apply Hok].
  intros a v Hav. destruct (co_opens _ Hok _ _ Hav) as (c & secret & Hc & <-).
  split; [|by exists secret]. apply (co_commit_sub _ Hok). by eapply assoc_elem.
Qed.
End cases.

Section delivery.
Context `{Wire}.
Implicit Types (n : node) (now : Timestamp).

(** The event came over gossip. *)
Definition gossiped (e : market_event) : Prop :=
  match e with EscrowReleaseObserved _ _ | ExecutionObserved _ _ _ | ExpirySwept => False | _ => True end.

(** The second delivery reads what the first one wrote. *)
Ltac reread Hid :=
  cbn in *;
  match goal with Hl : <[_ := _]> _ !! _ = Some _ |- _ =>
    rewrite Hid, lookup_insert_eq in Hl; injection Hl as <-; cbn in *
  end.

Lemma offers_again now now' e n n1 n2 :
  match e with
  | AdvertisementCreated _ | AdvertisementStatusChanged _ | AdvertisementTermsUpdated _
  | AdvertisementPricingUpdated _ => True
  | _ => False
  end → liq_inv n → apply_event now e n = Ok n1 → apply_event now' e n1 = Ok n2 → n2 = n1.
Proof.
  intros He Hinv H1 H2.
  destruct e; try done; cbn in H1, H2; apply on_offers_Ok in H1 as (ads1 & H1 & ->);
    apply on_offers_Ok in H2 as (ads2 & H2 & ->).
  { unfold apply_create in H1, H2. inv_ok. cbn in *. rewrite lookup_insert_eq in *. done. }
  all: unfold apply_status_set, apply_terms_update, apply_pricing_update, authorize in H1, H2; inv_ok;
    match goal with Hinv : liq_inv ?m, Ha : nd_ads ?m !! _ = Some _ |- _ =>
      pose proof (proj1 (li_ads _ Hinv _ _ Ha)) as Hid; reread Hid;
      by rewrite ?Hid, insert_insert_eq end.
Qed.

Lemma reservations_again now now' e n n1 n2 :
  match e with ReservationRequested _ | ReservationWithdrawn _ => True | _ => False end →
  liq_inv n → apply_event now e n = Ok n1 → apply_event now' e n1 = Ok n2 → n2 = n1.
Proof.
  intros He Hinv H1 H2. destruct e; try done; cbn in H1, H2; apply lift_Ok in H1, H2.
  - unfold apply_request, on_ads in H1, H2. inv_ok. repeat case_match; inv_ok. cbn in *.
    by rewrite lookup_insert_eq in *.
  - unfold apply_cancel in H1, H2. inv_ok.
    match goal with Ha : nd_reservations n !! _ = Some _ |- _ =>
      pose proof (proj1 (li_reservations _ Hinv _ _ Ha)) as Hid end.
    by reread Hid.
Qed.

Lemma settlements_again now now' e n n1 n2 :
  match e with
  | SettlementInitiated _ | PaymentSubmittedEvent _ | PaymentReversedEvent _ | SettlementApprovedEvent _
  | SettlementRejectedEvent _ | SettlementCancelledEvent _ => True
  | _ => False
  end → keyed n → apply_event now e n = Ok n1 → apply_event now' e n1 = Ok n2 → n2 = n1.
Proof.
  intros He [Hk _] H1 H2. destruct e; try done; cbn in H1, H2; apply lift_Ok in H1, H2.
  { unfold apply_initiate in H1, H2. inv_ok. cbn in *. by rewrite lookup_insert_eq in *. }
  all: unfold apply_payment_submitted, apply_payment_reversed, apply_approved, apply_rejected,
      apply_cancelled in H1, H2; inv_ok;
    match goal with Hk : ∀ k s, nd_settlements ?m !! k = Some s → _, Ha : nd_settlements ?m !! _ = Some _ |- _ =>
      pose proof (Hk _ _ Ha) as Hid; by reread Hid end.
Qed.

(** What a put wrote is what the next lookup of the case reads. *)
Lemma put_dispute_lookup n d d' k :
  dp_id d' = k → nd_disputes (put_dispute n d') !! k = Some d → d = d'.
Proof. intros <-. cbn. rewrite lookup_insert_eq. by intros [= <-]. Qed.

Lemma joined_id d a key t : dp_id (joined d a key t) = dp_id d.
Proof. unfold joined. cbn. by case_decide. Qed.
Lemma voted_commit_id d a c t : dp_id (voted_commit d a c t) = dp_id d.
Proof. unfold voted_commit. cbn. by case_decide. Qed.
Lemma voted_reveal_id d a v t : dp_id (voted_reveal d a v t) = dp_id d.
Proof. unfold voted_reveal. cbn. by case_decide. Qed.
Lemma agreed_id d b c t : dp_id (agreed d b c t) = dp_id d.
Proof. unfold agreed. by destruct (b && c). Qed.

Lemma agree_again (x : signed MutualSettlementAgree) n n1 n2 :
  keyed n → apply_mutual_settlement_agree x n = Ok n1 → apply_mutual_settlement_agree x n1 = Ok n2 → n2 = n1.
Proof.
  intros [_ Hk] (d & Hd & _ & H1)%agree_Ok (d1 & Hd1 & _ & H2)%agree_Ok. pose proof (Hk _ _ Hd) as Hid.
  destruct H1 as [[Hp ->]|(Hp & Hp' & ->)];
    (apply put_dispute_lookup in Hd1; [subst d1|by rewrite agreed_id]);
    destruct H2 as [[Hq ->]|(Hq & Hq' & ->)];
    unfold agreed in *; cbn in *; repeat case_match; cbn in *; try congruence;
    unfold put_dispute; cbn; by rewrite insert_insert_eq.
Qed.

Lemma disputes_again now now' e n n1 n2 :
  match e with
  | DisputeOpened _ | ArbitratorJoined _ | VoteCommitted _ | VoteRevealed _ => True
  | _ => False
  end → keyed n → apply_event now e n = Ok n1 → apply_event now' e n1 = Ok n2 → n2 = n1.
Proof.
  intros He [_ Hk] H1 H2. destruct e; try done; cbn in H1, H2; apply lift_Ok in H1, H2.
  { unfold apply_open in H1, H2. inv_ok. cbn in *. by rewrite lookup_insert_eq in *. }
  - apply join_Ok in H1 as (d & Hd & _ & H1), H2 as (d1 & Hd1 & _ & [[_ ->]|[Hn _]]); [done|].
    destruct H1 as [[Ha ->]|[_ ->]]; [congruence|]. pose proof (Hk _ _ Hd).
    apply put_dispute_lookup in Hd1; [subst d1|by rewrite joined_id].
    destruct Hn. unfold joined. cbn. case_decide; cbn; set_solver.
  - apply commit_Ok in H1 as (d & ? & Hd & _ & _ & _ & H1),
      H2 as (d1 & ? & Hd1 & _ & _ & _ & [[_ ->]|[Hn _]]); [done|].
    destruct H1 as [[Ha ->]|[_ ->]]; [congruence|]. pose proof (Hk _ _ Hd).
    apply put_dispute_lookup in Hd1; [subst d1|by rewrite voted_commit_id].
    destruct Hn. unfold voted_commit. cbn. case_decide; cbn; rewrite fmap_app; set_solver.
  - apply reveal_Ok in H1 as (d & ? & Hd & _ & _ & _ & _ & H1),
      H2 as (d1 & ? & Hd1 & _ & _ & _ & _ & [[_ ->]|[Hn _]]); [done|].
    destruct H1 as [[Ha ->]|[_ ->]]; [congruence|]. pose proof (Hk _ _ Hd).
    apply put_dispute_lookup in Hd1; [subst d1|by rewrite voted_reveal_id].
    destruct Hn. unfold voted_reveal. cbn. case_decide; cbn; rewrite fmap_app; set_solver.
Qed.

(** Delivering a gossiped event twice in a row is harmless: the second
    delivery, at whatever time, is refused or leaves the node exactly as the
    first one left it. *)
Theorem redelivery_is_harmless now now' e n n1 n2 :
  market_reachable n → gossiped e →
  apply_event now e n = Ok n1 → apply_event now' e n1 = Ok n2 → n2 = n1.
Proof.
  intros Hn Hg H1 H2. pose proof (reachable_liq _ Hn) as Hliq. pose proof (bk_keyed _ (reachable_book _ Hn)) as Hk.
  destruct e; try done;
    try (eapply offers_again; [|exact Hliq|exact H1|exact H2]; exact I);
    try (eapply reservations_again; [|exact Hliq|exact H1|exact H2]; exact I);
    try (eapply settlements_again; [|exact Hk|exact H1|exact H2]; exact I);
    try (eapply disputes_again; [|exact Hk|exact H1|exact H2]; exact I).
  cbn in H1, H2. apply lift_Ok in H1, H2. by eapply agree_again.
Qed.
End delivery.

(** ** What the registries leave open *)

Section gaps.
Context `{Wire}.
Implicit Types (n : node) (now : Timestamp).

(** Several events, one after the other; all must be accepted. *)
Fixpoint apply_events (l : list (Timestamp * market_event)) n : result market_error node :=
  match l with
  | [] => Ok n
  | (now, e) :: rest => n ← apply_event now e n; apply_events rest n
  end.

Lemma check_signature_signed {E} (m i : E) key x sig {A} (k : unit → result E A) :
  signed_by key x sig → (check_signature m i key x sig ≫= k) = k tt.
Proof. intros [b [Hp Hv]]. unfold check_signature. rewrite Hp. cbn. by rewrite require_true. Qed.

Lemma verify_self_signed {E} (m i a : E) key peer x sig {A} (k : unit → result E A) :
  peer_id_from_public_key key = Some peer → signed_by key x sig →
  (verify_self m i a key peer x sig ≫= k) = k tt.
Proof.
  intros Hp [b [Hb Hv]]. unfold verify_self, check_signature. rewrite Hp. cbn. rewrite require_true by done.
  rewrite Hb. cbn. by rewrite require_true.
Qed.

Lemma transition_Ok now k (from : list ReservationState.t) to n r :
  nd_reservations n !! k = Some r → rv_state r ∈ from →
  transition now k from to n = Ok (put_reservation n (r <| rv_state := to |> <| rv_updated_at := now |>)).
Proof. intros Hr Hin. unfold transition. rewrite Hr. cbn. by rewrite require_true. Qed.

(** A payment notice the buyer took back can be played again.  After the
    notice and its reversal, the first notice is accepted a second time from
    whoever kept a copy, and the trade is back in the state in which the
    seller is asked to release. *)
Theorem reversed_payment_replays t1 t2 t3 x y n n1 n2 :
  market_reachable n →
  pyr_settlement_id (payload y) = pys_settlement_id (payload x) →
  apply_event t1 (PaymentSubmittedEvent x) n = Ok n1 →
  apply_event t2 (PaymentReversedEvent y) n1 = Ok n2 →
  ∃ n3 s, apply_event t3 (PaymentSubmittedEvent x) n2 = Ok n3 ∧
    nd_settlements n3 !! pys_settlement_id (payload x) = Some s ∧
    sm_state s = SettlementState.PaymentSubmitted.
Proof.
  intros Hn Hsame H1 H2. destruct (bk_keyed _ (reachable_book _ Hn)) as [Hk _].
  cbn in H1, H2. apply lift_Ok in H1, H2. unfold apply_payment_submitted in H1. inv_ok. inv_signed.
  match goal with Hs : nd_settlements n !! _ = Some ?s0 |- _ => rename s0 into s; pose proof (Hk _ _ Hs) as Hid end.
  unfold apply_payment_reversed in H2. inv_ok. inv_signed. cbn in *.
  match goal with Hl : <[_ := _]> _ !! _ = Some _ |- _ =>
    rewrite Hid, Hsame, lookup_insert_eq in Hl; injection Hl as <-; cbn in * end.
  eexists _, _. unfold apply_payment_submitted. cbn. rewrite Hid, lookup_insert_eq. cbn.
  rewrite require_true by done. rewrite check_signature_signed by done.
  rewrite require_true by done. cbn. split; [reflexivity|]. cbn. by rewrite ?Hid, lookup_insert_eq.
Qed.

(** The settlement [apply_initiate] writes. *)
Definition fresh_settlement (i : SettlementInitiate) : Settlement :=
  mkSettlement (sti_id i) (sti_reservation_id i) (sti_buyer i) (sti_buyer_public_key i)
    (sti_seller i) (sti_seller_public_key i) (sti_amount i) SettlementState.AwaitingPayment
    None None None None None None (sti_timestamp i) (sti_timestamp i).

Lemma initiate_accepts now x n :
  let i := payload x in
  peer_id_from_public_key (sti_buyer_public_key i) = Some (sti_buyer i) →
  signed_by (sti_buyer_public_key i) (StSettlementInitiate i) (signature x) →
  nd_settlements n !! sti_id i = None →
  apply_event now (SettlementInitiated x) n =
    Ok (put_settlement (ignoring (settlement_started now (sti_reservation_id i) n) n) (fresh_settlement i)).
Proof.
  intros i Hp Hs Hnew. cbn. unfold apply_initiate. rewrite verify_self_signed by done.
  by rewrite require_true.
Qed.

(** The initiator of a settlement can approve it in the seller's name.  The
    seller's key in an initiation is not compared with the seller, so whoever
    initiates a settlement, naming any peer as the seller and a key of their own
    as that peer's, takes it through payment to approved with that one key: the
    node records an approval by a seller who signed nothing. *)
Theorem initiator_approves_as_seller t key p seller i pay app isig psig asig n :
  market_reachable n → peer_id_from_public_key key = Some p → seller ≠ p →
  nd_settlements n !! sti_id i = None →
  sti_buyer i = p → sti_seller i = seller → sti_buyer_public_key i = key → sti_seller_public_key i = key →
  pys_settlement_id pay = sti_id i → pys_buyer pay = p →
  sap_settlement_id app = sti_id i → sap_seller app = seller →
  signed_by key (StSettlementInitiate i) isig → signed_by key (StPaymentSubmitted pay) psig →
  signed_by key (StSettlementApproved app) asig →
  ∃ n' s', apply_events [(t, SettlementInitiated (mkSigned i isig));
      (t, PaymentSubmittedEvent (mkSigned pay psig)); (t, SettlementApprovedEvent (mkSigned app asig))] n = Ok n' ∧
    nd_settlements n' !! sti_id i = Some s' ∧ sm_state s' = SettlementState.Approved ∧ sm_seller s' = seller ∧
    is_Some (sm_merchant_responded_at s') ∧ peer_id_from_public_key (sm_seller_public_key s') ≠ Some seller.
Proof.
  intros _ Hp Hne Hnew Hb Hsl Hbk Hsk Hpid Hpb Hapid Haps Hsi Hspay Hsapp.
  cbn [apply_events]. rewrite initiate_accepts; cbn [payload signature]; [|congruence..].
  cbn. unfold apply_payment_submitted. cbn. rewrite Hpid, lookup_insert_eq. cbn.
  rewrite require_true by congruence. rewrite Hbk, check_signature_signed by done.
  rewrite require_true by done. cbn. unfold apply_approved. cbn. rewrite Hapid, lookup_insert_eq. cbn.
  rewrite require_true by congruence. rewrite Hsk, check_signature_signed by done.
  rewrite require_true by done. cbn. eexists _, _. split; [reflexivity|]. cbn.
  split; [apply lookup_insert_eq|]. cbn. split; [done|]. split; [done|]. split; [by eexists|].
  rewrite Hp. congruence.
Qed.

(** A stranger, holding one key that is neither the taker's nor the merchant's
    and playing both sides of a settlement that names somebody else's
    reservation, takes that reservation to settled: initiate, payment notice
    and approval are all accepted on the one key's signatures.  The taker never
    signed anything. *)
Theorem stranger_settles_reservation t key p k r ad i pay app isig psig asig n :
  market_reachable n → peer_id_from_public_key key = Some p →
  nd_reservations n !! k = Some r → rv_state r = ReservationState.EscrowLocked →
  nd_ads n !! rv_advertisement_id r = Some ad → p ≠ rv_requester r → p ≠ ad_merchant ad →
  nd_settlements n !! sti_id i = None → sti_reservation_id i = k →
  sti_buyer i = p → sti_seller i = p → sti_buyer_public_key i = key → sti_seller_public_key i = key →
  pys_settlement_id pay = sti_id i → pys_buyer pay = p →
  sap_settlement_id app = sti_id i → sap_seller app = p →
  signed_by key (StSettlementInitiate i) isig → signed_by key (StPaymentSubmitted pay) psig →
  signed_by key (StSettlementApproved app) asig →
  ∃ n' r', apply_events [(t, SettlementInitiated (mkSigned i isig));
      (t, PaymentSubmittedEvent (mkSigned pay psig)); (t, SettlementApprovedEvent (mkSigned app asig))] n = Ok n' ∧
    nd_reservations n' !! k = Some r' ∧ rv_state r' = ReservationState.Settled ∧
    rv_requester r' = rv_requester r ∧ rv_advertisement_id r' = rv_advertisement_id r.
Proof.
  intros Hn%reachable_liq Hp Hr Hst _ _ _ Hnew Hk Hb Hsl Hbk Hsk Hpid Hpb Hapid Haps Hsi Hspay Hsapp.
  pose proof (proj1 (li_reservations _ Hn _ _ Hr)) as Hid.
  cbn [apply_events]. rewrite initiate_accepts; cbn [payload signature]; [|congruence..].
  unfold settlement_started. rewrite Hk, (transition_Ok _ _ _ _ _ r) by (done || rewrite Hst; by left).
  cbn. unfold apply_payment_submitted. cbn. rewrite Hpid, lookup_insert_eq. cbn.
  rewrite require_true by congruence. rewrite Hbk, check_signature_signed by done.
  rewrite require_true by done. cbn. unfold apply_approved. cbn. rewrite Hapid, lookup_insert_eq. cbn.
  rewrite require_true by congruence. rewrite Hsk, check_signature_signed by done.
  rewrite require_true by done. cbn. unfold settlement_completed.
  erewrite transition_Ok; [|cbn; rewrite Hk, Hid; apply lookup_insert_eq|by left].
  cbn. eexists _, _. split; [reflexivity|]. cbn. rewrite Hid, lookup_insert_eq. done.
Qed.

(** A stranger unlocks a reservation in the middle of its trade.  While a
    settlement holds the reservation, a second settlement that names it,
    opened and cancelled by one key of nobody's, puts the reservation back to
    locked: the taker or the expiry sweep can hand its liquidity back although
    the first settlement still runs, untouched. *)
Theorem stranger_unlocks_reservation t key p k r k0 s i c isig csig n :
  market_reachable n → peer_id_from_public_key key = Some p →
  nd_reservations n !! k = Some r → rv_state r = ReservationState.Settling →
  nd_settlements n !! k0 = Some s → sm_reservation_id s = k →
  nd_settlements n !! sti_id i = None → sti_reservation_id i = k →
  sti_buyer i = p → sti_buyer_public_key i = key →
  scn_settlement_id c = sti_id i → scn_canceller c = p →
  signed_by key (StSettlementInitiate i) isig → signed_by key (StSettlementCancelled c) csig →
  ∃ n' r', apply_events [(t, SettlementInitiated (mkSigned i isig));
      (t, SettlementCancelledEvent (mkSigned c csig))] n = Ok n' ∧
    nd_reservations n' !! k = Some r' ∧ rv_state r' = ReservationState.EscrowLocked ∧
    rv_requester r' = rv_requester r ∧ nd_settlements n' !! k0 = Some s.
Proof.
  intros Hn%reachable_liq Hp Hr Hst Hs _ Hnew Hk Hb Hbk Hcid Hcp Hsi Hsc.
  pose proof (proj1 (li_reservations _ Hn _ _ Hr)) as Hid.
  cbn [apply_events]. rewrite initiate_accepts; cbn [payload signature]; [|congruence..].
  assert (ignoring (settlement_started t k n) n = n) as Hign.
  { unfold settlement_started, transition. rewrite Hr. cbn. unfold require.
    rewrite decide_False; [done|]. rewrite Hst. set_solver. }
  rewrite Hk, Hign. cbn. unfold apply_cancelled. cbn. rewrite Hcid, lookup_insert_eq. cbn.
  rewrite decide_True by congruence. cbn. rewrite Hbk, check_signature_signed by done.
  rewrite require_true by done. cbn. unfold settlement_abandoned.
  rewrite Hk, (transition_Ok _ _ _ _ _ r); [|done|rewrite Hst; by left]. cbn.
  eexists _, _. split; [reflexivity|]. cbn. rewrite Hid, lookup_insert_eq.
  split; [done|]. split; [done|]. split; [done|]. rewrite !lookup_insert_ne by congruence. done.
Qed.

Lemma sweep_expires now n k r :
  liq_inv n → nd_reservations n !! k = Some r → rv_state r = ReservationState.EscrowLocked →
  rv_requested_at r < saturating_sub_u64 now VALIDATION_WINDOW →
  ∃ r', nd_reservations (expire_stale now VALIDATION_WINDOW n).2 !! k = Some r' ∧
    rv_state r' = ReservationState.Expired.
Proof.
  intros Hliq Hr Hst Hold. destruct (expire_stale_Ok now VALIDATION_WINDOW n Hliq) as (ads & -> & _).
  cbn. rewrite lookup_fmap, Hr. eexists. split; [reflexivity|]. unfold swept, stale.
  by rewrite decide_True.
Qed.

(** Opening a case freezes the settlement and touches no reservation. *)
Lemma open_freezes now y n n' s :
  keyed n → nd_settlements n !! dop_settlement_id (payload y) = Some s →
  apply_event now (DisputeOpened y) n = Ok n' →
  nd_reservations n' = nd_reservations n ∧
  ∃ s', nd_settlements n' !! dop_settlement_id (payload y) = Some s' ∧ sm_state s' = SettlementState.Disputed.
Proof.
  intros [Hk _] Hs Hrun. pose proof (Hk _ _ Hs) as Hid. cbn in Hrun. apply lift_Ok in Hrun.
  unfold apply_open in Hrun. inv_ok. destruct (apply_dispute_opened _ _ _) as [n3|] eqn:Ho; inv_ok.
  unfold apply_dispute_opened in Ho. inv_ok. simplify_eq. split; [done|]. cbn. rewrite Hid, lookup_insert_eq. eauto.
Qed.

(** A disputed trade does not hold its reservation.  When the seller rejects
    the payment and the buyer disputes that, the settlement is frozen but the
    reservation is merely locked, so that the next expiry sweep after the
    window, or the taker, gives the liquidity back while the case is open. *)
Theorem rejected_then_disputed_unlocks t1 t2 x y n n1 n2 s r :
  market_reachable n →
  nd_settlements n !! srj_settlement_id (payload x) = Some s →
  nd_reservations n !! sm_reservation_id s = Some r → rv_state r = ReservationState.Settling →
  dop_settlement_id (payload y) = srj_settlement_id (payload x) →
  apply_event t1 (SettlementRejectedEvent x) n = Ok n1 → apply_event t2 (DisputeOpened y) n1 = Ok n2 →
  ∃ s' r', nd_settlements n2 !! srj_settlement_id (payload x) = Some s' ∧
    sm_state s' = SettlementState.Disputed ∧
    nd_reservations n2 !! sm_reservation_id s = Some r' ∧ rv_state r' = ReservationState.EscrowLocked ∧
    (∀ now, rv_requested_at r < saturating_sub_u64 now VALIDATION_WINDOW →
       ∃ r'', nd_reservations (expire_stale now VALIDATION_WINDOW n2).2 !! sm_reservation_id s = Some r'' ∧
         rv_state r'' = ReservationState.Expired).
Proof.
  intros Hn Hs Hr Hst Hsame H1 H2. pose proof (reachable_liq _ Hn) as Hliq.
  pose proof (reachable_book _ Hn) as Hbook.
  pose proof (proj1 (li_reservations _ Hliq _ _ Hr)) as Hid.
  destruct (event_liq _ (SettlementRejectedEvent x) _ _ Hliq I H1) as [Hliq1 _].
  destruct (event_liq _ (DisputeOpened y) _ _ Hliq1 I H2) as [Hliq2 _].
  pose proof (book_step_inv _ _ _ Hbook (event_book _ _ _ _ (bk_keyed _ Hbook) H1)) as Hbook1.
  destruct (trade_moves _ _ _ _ _ _ Hbook H1 Hs) as (s1 & Hs1 & _).
  rewrite <-Hsame in Hs1. destruct (open_freezes _ _ _ _ _ (bk_keyed _ Hbook1) Hs1 H2) as (Hres & s' & Hs' & Hdis).
  rewrite Hsame in Hs'. cbn in H1. apply lift_Ok in H1. unfold apply_rejected, settlement_abandoned in H1.
  rewrite Hs in H1. cbn in H1. inv_ok. rewrite (transition_Ok _ _ _ _ _ r) in Hres; [|done|rewrite Hst; by left].
  cbn in Hres. rewrite Hid in Hres. eexists s', _. split; [done|]. split; [done|].
  split; [rewrite Hres; apply lookup_insert_eq|]. split; [done|].
  intros now Hold. eapply (sweep_expires now); [done|rewrite Hres; apply lookup_insert_eq|done|done].
Qed.
End gaps.
