(* ===== verification/MarketScenario.v ===== *)
(** * MarketScenario: one trade, evaluated

    A signature scheme and an encoder to compute with, a runner that turns a
    list of events into a path of the node, and the trade the witnesses of the
    marketplace theorems are evaluated on. *)

From S2P Require Import Prelude Runtime Peers Pricing Statements Offers MarketState.
From S2P Require Import Reservations Settlements Cases Market LiquidityInv DisputeBook MarketTheorems.

(** ** A wire to compute with *)

(** A peer is its key, a signature is the key that made it. *)
#[export] Instance toy_wire : Wire := {|
  verify key _ sig := bool_decide (sig = key);
  peer_id_from_public_key key := Some key;
  base58 _ := EmptyString;
  json _ := Some [];
  digest m := m;
|}.

Abbreviation timed := (list (Timestamp * market_event)).

Definition is_ok (l : timed) : bool := match apply_events l empty_node with Ok _ => true | Err _ => false end.

Definition after (l : timed) : node :=
  match apply_events l empty_node with Ok n => n | Err _ => empty_node end.

Lemma apply_events_app l k n :
  apply_events (l ++ k) n = (n' ← apply_events l n; apply_events k n').
Proof.
  revert n. induction l as [|[t e] l IH]; intros n; [done|]. cbn.
  destruct (apply_event t e n); cbn; [apply IH|done].
Qed.

Lemma apply_events_steps l n n' :
  Forall (λ te, event_typed te.2) l → apply_events l n = Ok n' → steps market_step n n'.
Proof.
  revert n. induction l as [|[t e] l IH]; intros n Ht Hrun; cbn in Hrun; inv_ok; [apply steps_refl|].
  apply Forall_cons in Ht as [He Ht]. eapply steps_trans; [|by eapply IH].
  eapply steps_snoc; [apply steps_refl|]. by eapply market_apply.
Qed.

Lemma after_reachable l :
  bool_decide (Forall (λ te, event_typed te.2) l) && is_ok l = true → market_reachable (after l).
Proof.
  intros [Ht%bool_decide_eq_true Hok]%andb_true_iff. unfold after, is_ok in *.
  destruct (apply_events l empty_node) eqn:Hrun; [|done]. by eapply apply_events_steps.
Qed.

Lemma after_step l t e : is_ok (l ++ [(t, e)]) = true → apply_event t e (after l) = Ok (after (l ++ [(t, e)])).
Proof.
  unfold is_ok, after. rewrite apply_events_app. destruct (apply_events l empty_node) as [n|]; cbn; [|done].
  by destruct (apply_event t e n).
Qed.

(** ** The trade *)

Definition merchant : PeerId := [1].
Definition taker : PeerId := [2].
Definition stranger : PeerId := [9].
Definition arbitrators : list PeerId := [[5]; [6]; [7]].

Definition usdc (z : Z) : Amount := mkAmount z 6.
Definition cents (z : Z) : Amount := mkAmount z 2.

Definition offer : signed AdvertisementCreate :=
  mkSigned
    (mkAdvertisementCreate "offer" merchant merchant "mint" Sell "EUR" (usdc 10) (usdc 500) (usdc 1000)
       (Fixed (cents 99)) ["builtin:sepa"%string] 1000) merchant.
Definition create : market_event := AdvertisementCreated offer.

Definition request : market_event :=
  ReservationRequested (mkSigned
    (mkReservationRequest "r" "offer" taker taker (usdc 100) (cents 99) None 2000) taker).

Definition initiate : market_event :=
  SettlementInitiated (mkSigned
    (mkSettlementInitiate "s" "r" taker taker merchant merchant (usdc 100) 3000) taker).

Definition notice : signed PaymentSubmitted := mkSigned (mkPaymentSubmitted "s" taker None 4000) taker.
Definition take_back : signed PaymentReversed := mkSigned (mkPaymentReversed "s" taker 4500) taker.
Definition rejection : signed SettlementRejected :=
  mkSigned (mkSettlementRejected "s" merchant "short" PaymentDiscrepancy.IncorrectAmount 5000) merchant.
Definition opening : signed DisputeOpen := mkSigned (mkDisputeOpen "d" "s" taker taker "paid" 6000) taker.

Definition join (a : PeerId) : Timestamp * market_event :=
  (7000, ArbitratorJoined (mkSigned (mkArbitratorJoin "d" a a 7000) a)).
Definition commit (a : PeerId) : Timestamp * market_event :=
  (8000, VoteCommitted (mkSigned (mkVoteCommit "d" a (commitment Vote.BuyerWins a) 8000) a)).
Definition reveal (a : PeerId) : Timestamp * market_event :=
  (9000, VoteRevealed (mkSigned (mkVoteReveal "d" a Vote.BuyerWins a 9000) a)).

Definition offered : timed := [(1000, create)].
Definition reserved : timed := offered ++ [(2000, request)].
Definition settling : timed := reserved ++ [(3000, initiate)].
Definition paid : timed := settling ++ [(4000, PaymentSubmittedEvent notice)].
Definition rejected : timed := paid ++ [(5000, SettlementRejectedEvent rejection)].
Definition disputed : timed := paid ++ [(6000, DisputeOpened opening)].
Definition voted : timed := disputed ++ (join <$> arbitrators) ++ (commit <$> arbitrators) ++ (reveal <$> arbitrators).

(** The trade approved, and a second reservation on what is left. *)
Definition approval : signed SettlementApproved := mkSigned (mkSettlementApproved "s" merchant 5000) merchant.
Definition request_more : market_event :=
  ReservationRequested (mkSigned
    (mkReservationRequest "r2" "offer" taker taker (usdc 50) (cents 99) None 5500) taker).
Definition resold : timed := paid ++ [(5000, SettlementApprovedEvent approval); (5500, request_more)].

(** Replay the trade and look at the result. *)
Ltac replay := apply after_reachable; vm_compute; reflexivity.
Ltac evaluate := vm_compute; reflexivity.

(** ** Liquidity *)

Lemma liquidity_conserved_witness :
  market_reachable (after []) ∧
  held (nd_reservations (after resold)) "offer" = 50 ∧ sold (nd_reservations (after resold)) "offer" = 100 ∧
  ∃ ad, nd_ads (after resold) !! "offer"%string = Some ad ∧ ad_merchant ad = merchant ∧ available ad = 850.
Proof.
  assert (market_reachable (after [])) as Hn by replay. split; [exact Hn|].
  split; [evaluate|]. split; [evaluate|].
  destruct (liquidity_conserved 1000 offer (after []) (after offered) (after resold) Hn)
    as (ad & Had & Hm & _ & _ & _ & Hsum).
  - apply (bool_decide_unpack _). vm_compute. exact I.
  - apply (after_step [] 1000 create). evaluate.
  - apply (apply_events_steps (drop 1 resold)).
    + apply (bool_decide_unpack _). vm_compute. exact I.
    + evaluate.
  - exists ad. split; [exact Had|]. split; [exact Hm|].
    assert (held (nd_reservations (after resold)) "offer" + sold (nd_reservations (after resold)) "offer" = 150) as Hr
      by evaluate.
    cbn [payload offer ac_id ac_initial_liquidity base_units usdc] in Hsum. lia.
Defined.

Lemma sweep_expires_exactly_witness :
  let n := after reserved in
  market_reachable n ∧ (expire_stale 3000000 VALIDATION_WINDOW n).1 = mkSweep 1 0 ∧
  let '(sw, n') := expire_stale 3000000 VALIDATION_WINDOW n in
  sw_deferred sw = 0 ∧
  sw_expired sw = Z.of_nat (length (filter (stale (saturating_sub_u64 3000000 VALIDATION_WINDOW)) (all_reservations n))) ∧
  nd_reservations n' = swept 3000000 (saturating_sub_u64 3000000 VALIDATION_WINDOW) <$> nd_reservations n ∧
  ∀ id ad, nd_ads n !! id = Some ad → ∃ ad', nd_ads n' !! id = Some ad' ∧
    available ad' = available ad + committed (nd_reservations n) id - committed (nd_reservations n') id.
Proof.
  intros n. assert (market_reachable n) as Hn by replay. split; [exact Hn|]. split; [evaluate|].
  exact (sweep_expires_exactly 3000000 VALIDATION_WINDOW n Hn).
Defined.

(** ** Trades and disputes *)

Lemma trade_state_machine_witness :
  ∃ s s', nd_settlements (after settling) !! "s"%string = Some s ∧
    nd_settlements (after paid) !! "s"%string = Some s' ∧ same_deal s s' ∧
    deal_signed s ∧ (s' = s ∨ settle_move (after settling) (PaymentSubmittedEvent notice) s s').
Proof.
  destruct (nd_settlements (after settling) !! "s"%string) as [s|] eqn:Hs; [|exfalso; revert Hs; vm_compute; discriminate].
  destruct (trade_state_machine 4000 (PaymentSubmittedEvent notice) (after settling) (after paid) "s" s)
    as (_ & Hsigned & s' & Hs' & Hdeal & Hmove).
  - replay.
  - apply after_step. evaluate.
  - exact Hs.
  - exists s, s'. split; [reflexivity|]. split; [exact Hs'|]. split; [exact Hdeal|]. split; [exact Hsigned|exact Hmove].
Defined.

Lemma one_live_dispute_witness :
  ∃ s, nd_settlements (after disputed) !! "s"%string = Some s ∧
  (sm_state s = SettlementState.Disputed ↔
   exists! id, ∃ d, nd_disputes (after disputed) !! id = Some d ∧ dp_settlement_id d = "s"%string ∧
     dp_status d ≠ DisputeStatus.Resolved ∧
     dp_buyer d = sm_buyer s ∧ dp_buyer_public_key d = sm_buyer_public_key s ∧
     dp_seller d = sm_seller s ∧ dp_seller_public_key d = sm_seller_public_key s).
Proof.
  destruct (nd_settlements (after disputed) !! "s"%string) as [s|] eqn:Hs; [|exfalso; revert Hs; vm_compute; discriminate].
  exists s. split; [reflexivity|]. apply (one_live_dispute (after disputed) "s" s); [replay|exact Hs].
Defined.

Definition executed : timed := voted ++ [(9500, ExecutionObserved "d" "sig" (Some Resolution.BuyerWins))].

Lemma only_the_chain_resolves_witness :
  ∃ d d', nd_disputes (after voted) !! "d"%string = Some d ∧ nd_disputes (after executed) !! "d"%string = Some d' ∧
  ∃ sig o, ExecutionObserved "d" "sig" (Some Resolution.BuyerWins) = ExecutionObserved "d" sig (Some o) ∧
    dp_resolution d' = Some o ∧ dp_onchain_execution_signature d' = Some sig.
Proof.
  destruct (nd_disputes (after voted) !! "d"%string) as [d|] eqn:Hd; [|exfalso; revert Hd; vm_compute; discriminate].
  destruct (nd_disputes (after executed) !! "d"%string) as [d'|] eqn:Hd'; [|exfalso; revert Hd'; vm_compute; discriminate].
  exists d, d'. split; [reflexivity|]. split; [reflexivity|].
  refine (proj1 (only_the_chain_resolves 9500 (ExecutionObserved "d" "sig" (Some Resolution.BuyerWins))
    (after voted) (after executed) "d" d d' _ _ Hd Hd') _ _).
  - replay.
  - apply after_step. evaluate.
  - assert (dp_status <$> Some d = Some DisputeStatus.AwaitingChainExecution) as Hst by (rewrite <-Hd; evaluate).
    injection Hst as Hst. rewrite Hst. discriminate.
  - assert (dp_status <$> Some d' = Some DisputeStatus.Resolved) as Hst by (rewrite <-Hd'; evaluate).
    by injection Hst.
Defined.

Lemma case_votes_sound_witness :
  ∃ d, nd_disputes (after voted) !! "d"%string = Some d ∧
  Z.of_nat (length (dp_arbitrators d)) ≤ REQUIRED_ARBITRATORS ∧ NoDup (dp_arbitrators d) ∧
  NoDup (dp_reveals d).*1 ∧
  (∀ a v, (a, v) ∈ dp_reveals d → a ∈ dp_arbitrators d ∧
     ∃ secret, assoc (dp_commitments d) a = Some (commitment v secret)) ∧
  (dp_reveals d ≠ [] → Z.of_nat (length (dp_commitments d)) = REQUIRED_ARBITRATORS) ∧
  (dp_status d = DisputeStatus.AwaitingChainExecution →
     Z.of_nat (length (dp_reveals d)) = REQUIRED_ARBITRATORS ∨
     dp_buyer_agreed d = true ∧ dp_seller_agreed d = true).
Proof.
  destruct (nd_disputes (after voted) !! "d"%string) as [d|] eqn:Hd; [|exfalso; revert Hd; vm_compute; discriminate].
  exists d. split; [reflexivity|]. apply (case_votes_sound (after voted) "d" d); [replay|exact Hd].
Defined.

(** ** Delivery *)

(** A vote that arrives twice. *)
Lemma redelivery_is_harmless_witness :
  let l := disputed ++ [join [5]] in
  market_reachable (after disputed) ∧ apply_event 7000 (join [5]).2 (after disputed) = Ok (after l) ∧
  apply_event 7100 (join [5]).2 (after l) = Ok (after (l ++ [(7100, (join [5]).2)])) ∧
  after (l ++ [(7100, (join [5]).2)]) = after l.
Proof.
  intros l. assert (market_reachable (after disputed)) as Hn by replay.
  assert (apply_event 7000 (join [5]).2 (after disputed) = Ok (after l)) as H1 by (apply after_step; evaluate).
  assert (apply_event 7100 (join [5]).2 (after l) = Ok (after (l ++ [(7100, (join [5]).2)]))) as H2
    by (apply after_step; evaluate).
  split; [exact Hn|]. split; [exact H1|]. split; [exact H2|].
  exact (redelivery_is_harmless 7000 7100 (join [5]).2 (after disputed) _ _ Hn I H1 H2).
Defined.

(** ** The gaps *)

Lemma reversed_payment_replays_witness :
  let l := paid ++ [(4500, PaymentReversedEvent take_back)] in
  apply_event 4500 (PaymentReversedEvent take_back) (after paid) = Ok (after l) ∧
  ∃ n3 s, apply_event 90000000 (PaymentSubmittedEvent notice) (after l) = Ok n3 ∧
    nd_settlements n3 !! "s"%string = Some s ∧ sm_state s = SettlementState.PaymentSubmitted.
Proof.
  intros l.
  assert (apply_event 4500 (PaymentReversedEvent take_back) (after paid) = Ok (after l)) as H2
    by (apply after_step; evaluate).
  split; [exact H2|].
  apply (reversed_payment_replays 4000 4500 90000000 notice take_back (after settling) (after paid) (after l)).
  - replay.
  - reflexivity.
  - apply after_step. evaluate.
  - exact H2.
Defined.

Definition hijack : SettlementInitiate :=
  mkSettlementInitiate "h" "r" stranger stranger stranger stranger (usdc 1) 2500.

(** The toy signature of a statement by a key is the key. *)
Lemma toy_signed key x : signed_by key x key.
Proof. unfold signed_by, preimage. cbn. eexists. split; [reflexivity|]. by apply bool_decide_eq_true. Qed.

(** The taker settles with a merchant who never answers. *)
Definition posed : SettlementInitiate :=
  mkSettlementInitiate "p" "r" taker taker merchant taker (usdc 100) 2500.

Lemma initiator_approves_as_seller_witness :
  ∃ n' s', apply_events [(2500, SettlementInitiated (mkSigned posed taker));
      (2500, PaymentSubmittedEvent (mkSigned (mkPaymentSubmitted "p" taker None 2500) taker));
      (2500, SettlementApprovedEvent (mkSigned (mkSettlementApproved "p" merchant 2500) taker))]
      (after reserved) = Ok n' ∧
    nd_settlements n' !! "p"%string = Some s' ∧ sm_state s' = SettlementState.Approved ∧ sm_seller s' = merchant ∧
    is_Some (sm_merchant_responded_at s') ∧ peer_id_from_public_key (sm_seller_public_key s') ≠ Some merchant.
Proof.
  apply (initiator_approves_as_seller 2500 taker taker merchant posed); try reflexivity; try apply toy_signed.
  - replay.
  - discriminate.
Defined.

Lemma stranger_settles_reservation_witness :
  ∃ r, nd_reservations (after reserved) !! "r"%string = Some r ∧ rv_requester r = taker ∧
  ∃ n' r', apply_events [(2500, SettlementInitiated (mkSigned hijack stranger));
      (2500, PaymentSubmittedEvent (mkSigned (mkPaymentSubmitted "h" stranger None 2500) stranger));
      (2500, SettlementApprovedEvent (mkSigned (mkSettlementApproved "h" stranger 2500) stranger))]
      (after reserved) = Ok n' ∧
    nd_reservations n' !! "r"%string = Some r' ∧ rv_state r' = ReservationState.Settled ∧
    rv_requester r' = rv_requester r ∧ rv_advertisement_id r' = rv_advertisement_id r.
Proof.
  destruct (nd_reservations (after reserved) !! "r"%string) as [r|] eqn:Hr; [|exfalso; revert Hr; vm_compute; discriminate].
  assert ((λ r, (rv_requester r, rv_state r, rv_advertisement_id r)) <$> Some r =
    Some (taker, ReservationState.EscrowLocked, "offer"%string)) as Hf by (rewrite <-Hr; evaluate).
  injection Hf as Hq Hst Had. exists r. split; [reflexivity|]. split; [exact Hq|].
  destruct (nd_ads (after reserved) !! "offer"%string) as [ad|] eqn:Ha; [|exfalso; revert Ha; vm_compute; discriminate].
  assert (ad_merchant <$> Some ad = Some merchant) as Hm by (rewrite <-Ha; evaluate). injection Hm as Hm.
  apply (stranger_settles_reservation 2500 stranger stranger "r" r ad hijack); try reflexivity; try apply toy_signed.
  - replay.
  - exact Hr.
  - exact Hst.
  - rewrite Had. exact Ha.
  - rewrite Hq. discriminate.
  - rewrite Hm. discriminate.
Defined.

Lemma stranger_unlocks_reservation_witness :
  ∃ r s, nd_reservations (after paid) !! "r"%string = Some r ∧ nd_settlements (after paid) !! "s"%string = Some s ∧
  ∃ n' r', apply_events [(4100, SettlementInitiated (mkSigned hijack stranger));
      (4100, SettlementCancelledEvent (mkSigned (mkSettlementCancelled "h" stranger 4100) stranger))] (after paid) = Ok n' ∧
    nd_reservations n' !! "r"%string = Some r' ∧ rv_state r' = ReservationState.EscrowLocked ∧
    rv_requester r' = rv_requester r ∧ nd_settlements n' !! "s"%string = Some s.
Proof.
  destruct (nd_reservations (after paid) !! "r"%string) as [r|] eqn:Hr; [|exfalso; revert Hr; vm_compute; discriminate].
  destruct (nd_settlements (after paid) !! "s"%string) as [s|] eqn:Hs; [|exfalso; revert Hs; vm_compute; discriminate].
  assert (rv_state <$> Some r = Some ReservationState.Settling) as Hst by (rewrite <-Hr; evaluate). injection Hst as Hst.
  assert (sm_reservation_id <$> Some s = Some "r"%string) as Hsr by (rewrite <-Hs; evaluate). injection Hsr as Hsr.
  exists r, s. split; [reflexivity|]. split; [reflexivity|].
  apply (stranger_unlocks_reservation 4100 stranger stranger "r" r "s" s hijack); try reflexivity; try apply toy_signed;
    try assumption. replay.
Defined.

Lemma rejected_then_disputed_unlocks_witness :
  let l := rejected ++ [(6000, DisputeOpened opening)] in
  ∃ s s' r', nd_settlements (after paid) !! "s"%string = Some s ∧
    nd_settlements (after l) !! "s"%string = Some s' ∧ sm_state s' = SettlementState.Disputed ∧
    nd_reservations (after l) !! sm_reservation_id s = Some r' ∧ rv_state r' = ReservationState.EscrowLocked.
Proof.
  intros l.
  destruct (nd_settlements (after paid) !! "s"%string) as [s|] eqn:Hs; [|exfalso; revert Hs; vm_compute; discriminate].
  destruct (nd_reservations (after paid) !! "r"%string) as [r|] eqn:Hr; [|exfalso; revert Hr; vm_compute; discriminate].
  assert (rv_state <$> Some r = Some ReservationState.Settling) as Hst by (rewrite <-Hr; evaluate). injection Hst as Hst.
  assert (sm_reservation_id <$> Some s = Some "r"%string) as Hsr by (rewrite <-Hs; evaluate). injection Hsr as Hsr.
  destruct (rejected_then_disputed_unlocks 5000 6000 rejection opening (after paid) (after rejected) (after l) s r)
    as (s' & r' & H1 & H2 & H3 & H4 & _).
  - replay.
  - exact Hs.
  - rewrite Hsr. exact Hr.
  - exact Hst.
  - reflexivity.
  - apply after_step. evaluate.
  - apply after_step. evaluate.
  - exists s, s', r'. split; [reflexivity|]. split; [exact H1|]. split; [exact H2|]. split; [exact H3|exact H4].
Defined.

(** ** Separation *)

(** An encoder of two kinds of cancellation, which tells the statements of each
    kind apart and writes the same bytes for one of either with the same
    fields. *)
Definition cancel_wire : Wire := {|
  verify key _ sig := bool_decide (sig = key);
  peer_id_from_public_key key := Some key;
  base58 _ := EmptyString;
  json x := match x with
            | StReservationCancel c => Some [Z.pos (encode (rcl_id c, rcl_requester c, rcl_timestamp c))]
            | StSettlementCancelled c =>
                Some [Z.pos (encode (scn_settlement_id c, scn_canceller c, scn_timestamp c))]
            | _ => None
            end;
  digest m := m;
|}.

Lemma statements_are_separated_witness :
  let x := StReservationCancel (mkReservationCancel "r" taker 1) in
  let y := StSettlementCancelled (mkSettlementCancelled "r" taker 1) in
  @json cancel_wire x = @json cancel_wire y ∧ @preimage cancel_wire x ≠ @preimage cancel_wire y.
Proof.
  intros x y. split; [reflexivity|]. intros Heq.
  assert (x = y) as Hxy; [|discriminate Hxy].
  apply (@statements_are_separated cancel_wire x y); try exact I.
  - intros u v b Hk _ _ Hu Hv. destruct u; try discriminate; destruct v; try discriminate;
      cbn in Hu, Hv; rewrite <-Hu in Hv; injection Hv as Hv; apply (inj encode) in Hv;
      repeat match goal with c : ReservationCancel |- _ => destruct c | c : SettlementCancelled |- _ => destruct c end;
      cbn in Hv; by injection Hv as -> -> ->.
  - cbn. by eexists.
  - exact Heq.
Defined.
