(* ===== verification/ChainReads.v ===== *)
(** * ChainReads: how a node reads the programs' accounts

    The hand-written decoders of the off-chain workspace, which cannot import
    the programs: [crates/rpc/src/onchain_dispute.rs],
    [crates/rpc/src/onchain_stake.rs], the readers of
    [crates/snapshot/src/stake.rs] and [decode_proposal] of
    [crates/governance/src/onchain.rs].  Each is shown to read back what the
    program's own layout writes. *)

From S2P Require Import Prelude Runtime Shared StakingState EscrowState GovernanceState.
From S2P Require Import Peers Pricing Statements Offers MarketState.

(** ** What the programs' accounts look like on disk

    The Borsh layout Anchor gives the account structs of the programs: the
    eight-byte discriminator of the account's type, then the fields in
    declaration order. *)

(** ** Borsh *)

Definition borsh_bool (b : bool) : list Z := [if b then 1 else 0].
Definition borsh_vec {A} (f : A → list Z) (l : list A) : list Z :=
  to_le 4 (Z.of_nat (length l)) ++ concat (f <$> l).
Definition borsh_option {A} (f : A → list Z) (o : option A) : list Z :=
  match o with None => [0] | Some a => 1 :: f a end.

(** A fieldless enum is the index of its variant. *)
Definition borsh_role (r : Role) : list Z := [Z.of_nat (role_index r)].
Definition borsh_outcome (o : DisputeOutcome) : list Z :=
  [match o with BuyerWins => 0 | MerchantWins => 1 | MutualSettlement => 2 | InvalidDispute => 3 end].
Definition borsh_reason (r : TerminalSplitReason) : list Z :=
  [match r with NoConsensus => 0 | QuorumNotReached => 1 | RoundUnstaffed => 2 | PoolExhausted => 3 end].
Definition borsh_category (c : ProposalCategory) : list Z :=
  [match c with
   | Informational => 0 | Standards => 1 | Parameter_ => 2 | Treasury => 3 | ProtocolUpgrade => 4
   | Constitutional => 5
   end].
Definition borsh_state (s : ProposalState) : list Z :=
  [match s with Draft => 0 | Voting => 1 | Accepted => 2 | Rejected => 3 end].

(** ** The accounts

    A bump seed is stored in the account and never read by the model, so it is
    an argument of the encoding. *)
Section encode.
Context `{Hashing}.

Definition encode_stake_account (a : StakeAccount) (bump : Z) : list (list Z) :=
  [ anchor_discriminator "StakeAccount"; key_bytes (sa_owner a); borsh_role (sa_role a);
    to_le 8 (sa_amount a); to_le 8 (unbonding_amount a); to_le 8 (unbonding_release_at a);
    to_le 8 (slashed_total a); to_le 8 (pending_rewards a); [bump]; to_le 8 (first_staked_at a) ].

Definition encode_staking_config (c : StakingConfig) (bump stake_vault_bump rewards_vault_bump : Z)
    : list (list Z) :=
  [ anchor_discriminator "StakingConfig"; key_bytes (sc_admin c); key_bytes (sc_mint c) ]
  ++ (to_le 8 <$> min_stake_by_role c) ++ (to_le 8 <$> unbonding_period_secs_by_role c)
  ++ [ to_le 2 (slash_bps c); key_bytes (slashing_authority c); key_bytes (slash_destination c);
       key_bytes (rewards_authority c); [bump]; [stake_vault_bump]; [rewards_vault_bump] ].

Definition encode_proposal (p : Proposal) (bump : Z) : list (list Z) :=
  [ anchor_discriminator "Proposal"; to_le 8 (pr_id p); borsh_category (pr_category p);
    key_bytes (pr_proposer p); title_hash p; summary_hash p; to_le 8 (stake_deposit p);
    to_le 8 (votes_for p); to_le 8 (votes_against p); to_le 8 (quorum_snapshot p);
    to_le 2 (threshold_snapshot p); to_le 8 (pr_created_at p); to_le 8 (voting_ends_at p);
    borsh_state (pr_state p); borsh_bool (quorum_met p); borsh_bool (deposit_settled p);
    borsh_bool (executed p); [bump]; offchain_id_hash p ].

Definition encode_case (d : DisputeCase) (bump : Z) : list (list Z) :=
  [ anchor_discriminator "DisputeCase"; to_le 8 (dc_reservation_id d); key_bytes (dc_trade_escrow d);
    to_le 8 (dc_opened_at d); to_le 8 (dc_commit_deadline d); to_le 8 (dc_reveal_deadline d);
    borsh_bool (dc_resolved d); to_le 1 (dc_round d); to_le 8 (dc_commit_window_secs d);
    to_le 8 (dc_reveal_window_secs d); dc_case_seed d; to_le 8 (dc_round_opened_at d);
    borsh_vec key_bytes (dc_arbitrators d); borsh_vec id (dc_commitments d);
    borsh_vec (borsh_option borsh_outcome) (dc_revealed_outcomes d); borsh_vec (to_le 8) (dc_weights d);
    borsh_vec borsh_bool (dc_reward_claimed d); borsh_vec key_bytes (dc_barred d);
    key_bytes (dc_deposit_vault d); key_bytes (dc_deposit_mint d); to_le 8 (dc_deposit d);
    to_le 8 (dc_deposit_shortfall d); borsh_option borsh_outcome (dc_outcome d);
    to_le 8 (dc_winning_weight d); to_le 8 (dc_reward_pool d); to_le 8 (dc_reward_remaining d);
    borsh_bool (dc_deposit_settled d); [bump]; to_le 4 (dc_seats_taken_total d);
    borsh_option borsh_reason (dc_terminal_reason d) ].
End encode.

(** ** Reading a field back *)

Lemma slice_skip (a b : list Z) (off len : nat) : slice (length a + off)%nat len (a ++ b) = slice off len b.
Proof. unfold slice. by rewrite drop_app_add. Qed.

(** The bytes of a field are where the lengths of the fields before it put
    them. *)
Lemma slice_field (fs : list (list Z)) (rest : list Z) (i off len : nat) (f : list Z) :
  fs !! i = Some f → off = length (concat (take i fs)) → len = length f →
  slice off len (concat fs ++ rest) = f.
Proof.
  revert i off. induction fs as [|g fs IH]; intros [|i] off Hf -> ->; try done; cbn in *.
  - injection Hf as ->. unfold slice. rewrite drop_0, <-app_assoc. by rewrite take_app_length.
  - rewrite <-app_assoc, length_app, slice_skip. by eapply IH.
Qed.

(** ** The readers *)

(** [openfiat_chain::PROGRAM_IDS], as the base 58 strings an RPC node reports. *)
Definition STAKING_PROGRAM_ID : string := "3MF1nAPiECRAGs36RpQTkLb8CvMZuhcgXv1hGZoXEiid".
Definition GOVERNANCE_PROGRAM_ID : string := "2k71DBDoxM4SUFYGbyMXFiTSUynPuY2CqFUsx3FuarXF".
Definition ESCROW_PROGRAM_ID : string := "CYdn27x69hQ8WBxBeWRGpr9c8B4dcKj8GvyBn6Sdma9s".

(** ** Dispute cases *)

Module RpcError.
Inductive RpcError := InvalidParams (message : string) | MalformedTransaction.
End RpcError.
Import RpcError.

Definition DISPUTE_CASE_DISCRIMINATOR : list Z := [164; 200; 54; 239; 94; 76; 51; 130].
Definition FIXED_PREFIX : Z := 8 + 32 + 8 + 8 + 8 + 1 + 1 + 8 + 8 + 32 + 8.

Abbreviation read A := (result RpcError A).

(** [Cursor::take]: the bytes taken, and what is left. *)
Definition cursor_take (count : Z) (data : list Z) : read (list Z * list Z) :=
  if decide (Z.of_nat (length data) < count)
  then Err (Code (InvalidParams "dispute case account is shorter than its own layout"))
  else Ok (take (Z.to_nat count) data, drop (Z.to_nat count) data).

Definition skip_vec (item_size : Z) (data : list Z) : read (list Z) :=
  r ← cursor_take 4 data;
  bytes ← ok_or (checked_mul_u64 (from_le r.1) item_size) (Code (InvalidParams "implausible vector length"));
  r ← cursor_take bytes r.2; Ok r.2.

(** The loop of [skip_option_vec]. *)
Fixpoint skip_options (len : nat) (data : list Z) : read (list Z) :=
  match len with
  | O => Ok data
  | S len =>
      r ← cursor_take 1 data;
      if decide (r.1 = [1]) then r ← cursor_take 1 r.2; skip_options len r.2
      else skip_options len r.2
  end.

Definition skip_option_vec (data : list Z) : read (list Z) :=
  r ← cursor_take 4 data; skip_options (Z.to_nat (from_le r.1)) r.2.

Definition resolution_from_discriminant (raw : Z) : read Resolution.t :=
  if decide (raw = 0) then Ok Resolution.BuyerWins
  else if decide (raw = 1) then Ok Resolution.MerchantWins
  else if decide (raw = 2) then
    Err (Code (InvalidParams
      "the chain settled this case by mutual agreement, which is not an arbitrator ruling"))
  else if decide (raw = 3) then Ok Resolution.Invalid
  else Err (Code (InvalidParams "unknown DisputeOutcome discriminant")).

(** The first byte of a slice that has one. *)
Definition byte_of (bs : list Z) : Z := default 0 (head bs).

Definition decode_outcome (owner : string) (data : list Z) : read (option Resolution.t) :=
  _ ← require (owner = ESCROW_PROGRAM_ID)
        (Code (InvalidParams "dispute case account is not owned by the escrow program"));
  r ← cursor_take 8 data;
  _ ← require (r.1 = DISPUTE_CASE_DISCRIMINATOR) (Code (InvalidParams "account is not a DisputeCase"));
  r ← cursor_take FIXED_PREFIX r.2;
  data ← skip_vec 32 r.2;
  data ← skip_vec 32 data;
  data ← skip_option_vec data;
  data ← skip_vec 8 data;
  data ← skip_vec 1 data;
  data ← skip_vec 32 data;
  r ← cursor_take (32 + 32 + 8 + 8) data;
  r ← cursor_take 1 r.2;
  if decide (byte_of r.1 = 0) then Ok None
  else if decide (byte_of r.1 = 1) then
    r ← cursor_take 1 r.2; o ← resolution_from_discriminant (byte_of r.1); Ok (Some o)
  else Err (Code (InvalidParams "outcome is neither present nor absent")).

(** ** Stakes *)

Definition STAKE_ACCOUNT_DISCRIMINATOR : list Z := [80; 158; 67; 124; 50; 189; 192; 255].
Definition STAKING_CONFIG_DISCRIMINATOR : list Z := [45; 134; 252; 82; 37; 57; 84; 25].

Record DecodedStakeAccount := mkDecodedStake { ds_owner : list Z; ds_amount : Z }.

(** [onchain_stake::decode_stake_account]. *)
Definition decode_stake_account (data : list Z) : read DecodedStakeAccount :=
  _ ← require (49 ≤ Z.of_nat (length data)) (Code MalformedTransaction);
  _ ← require (take 8 data = STAKE_ACCOUNT_DISCRIMINATOR) (Code MalformedTransaction);
  Ok (mkDecodedStake (slice 8 32 data) (from_le (slice 41 8 data))).

Inductive SnapshotStakeError := ForeignStakeAccount | MalformedStakeAccount.

Definition SNAPSHOT_PROVIDER_ROLE : Z := 6.

Definition decode_provider_stake (owner : string) (data : list Z) : result SnapshotStakeError Z :=
  _ ← require (owner = STAKING_PROGRAM_ID) (Code ForeignStakeAccount);
  _ ← require (¬ (Z.of_nat (length data) < 49 ∨ take 8 data ≠ STAKE_ACCOUNT_DISCRIMINATOR))
        (Code MalformedStakeAccount);
  _ ← require (slice 40 1 data = [SNAPSHOT_PROVIDER_ROLE]) (Code MalformedStakeAccount);
  Ok (from_le (slice 41 8 data)).

Definition decode_required_stake (owner : string) (data : list Z) : result SnapshotStakeError Z :=
  _ ← require (owner = STAKING_PROGRAM_ID) (Code ForeignStakeAccount);
  _ ← require (¬ (Z.of_nat (length data) < 128 ∨ take 8 data ≠ STAKING_CONFIG_DISCRIMINATOR))
        (Code MalformedStakeAccount);
  Ok (from_le (slice (72 + 8 * 6)%nat 8 data)).

(** ** Proposals *)

Definition PROPOSAL_DISCRIMINATOR : list Z := [26; 94; 189; 187; 116; 136; 53; 33].

Module OnchainProposalState.
Inductive t := Draft | Voting | Accepted | Rejected.
#[global] Instance t_eq_dec : EqDecision t.
Proof. solve_decision. Defined.
End OnchainProposalState.

(** The errors of the off-chain index of proposals. *)
Module RegistryError.
Inductive GovernanceError :=
  | InvalidSignature | Unauthorized | DuplicateProposalId | MalformedProposal | ProposalNotFound
  | VotingClosed | DuplicateVote | InvalidStateTransition.
#[global] Instance GovernanceError_eq_dec : EqDecision GovernanceError.
Proof. solve_decision. Defined.
End RegistryError.

Definition from_discriminant (raw : Z) : result RegistryError.GovernanceError OnchainProposalState.t :=
  if decide (raw = 0) then Ok OnchainProposalState.Draft
  else if decide (raw = 1) then Ok OnchainProposalState.Voting
  else if decide (raw = 2) then Ok OnchainProposalState.Accepted
  else if decide (raw = 3) then Ok OnchainProposalState.Rejected
  else Err (Code RegistryError.MalformedProposal).

Record OnchainProposal := mkOnchainProposal {
  op_id : Z;
  op_state : OnchainProposalState.t;
  op_votes_for : Z;
  op_votes_against : Z;
  op_quorum_met : bool;
  op_deposit_settled : bool;
  op_executed : bool;
  op_voting_ends_at : Z;
  op_offchain_id_hash : option (list Z);
}.

(** [x as i64] of a [u64]. *)
Definition as_i64 (z : Z) : Z := if decide (z < 2 ^ 63) then z else z - 2 ^ 64.

Module offsets.
Definition ID : nat := 8.
Definition VOTES_FOR : nat := (8 + 8 + 1 + 32 + 32 + 32 + 8)%nat.
Definition VOTES_AGAINST : nat := (VOTES_FOR + 8)%nat.
Definition VOTING_ENDS_AT : nat := (VOTES_AGAINST + 8 + 8 + 2 + 8)%nat.
Definition STATE : nat := (VOTING_ENDS_AT + 8)%nat.
Definition QUORUM_MET : nat := (STATE + 1)%nat.
Definition DEPOSIT_SETTLED : nat := (QUORUM_MET + 1)%nat.
Definition EXECUTED : nat := (DEPOSIT_SETTLED + 1)%nat.
Definition OFFCHAIN_ID_HASH : nat := (EXECUTED + 1 + 1)%nat.
Definition LEN : nat := (OFFCHAIN_ID_HASH + 32)%nat.
End offsets.

Definition decode_proposal (owner : string) (data : list Z) : result RegistryError.GovernanceError OnchainProposal :=
  _ ← require (owner = GOVERNANCE_PROGRAM_ID) (Code RegistryError.Unauthorized);
  _ ← require (¬ ((length data < offsets.LEN)%nat ∨ take 8 data ≠ PROPOSAL_DISCRIMINATOR))
        (Code RegistryError.MalformedProposal);
  let u64_at offset := from_le (slice offset 8 data) in
  let hash := slice offsets.OFFCHAIN_ID_HASH 32 data in
  state ← from_discriminant (byte_of (slice offsets.STATE 1 data));
  Ok (mkOnchainProposal (u64_at offsets.ID) state (u64_at offsets.VOTES_FOR) (u64_at offsets.VOTES_AGAINST)
        (bool_decide (slice offsets.QUORUM_MET 1 data ≠ [0]))
        (bool_decide (slice offsets.DEPOSIT_SETTLED 1 data ≠ [0]))
        (bool_decide (slice offsets.EXECUTED 1 data ≠ [0]))
        (as_i64 (u64_at offsets.VOTING_ENDS_AT))
        (if decide (hash = replicate 32 0) then None else Some hash)).

(** ** What was written is what is read *)

Section readback.
Context `{Hashing}.

Lemma cursor_take_app (a b : list Z) count :
  count = Z.of_nat (length a) → cursor_take count (a ++ b) = Ok (a, b).
Proof.
  intros ->. unfold cursor_take. rewrite decide_False by (rewrite length_app; lia).
  by rewrite Nat2Z.id, take_app_length, drop_app_length.
Qed.

Lemma concat_length_uniform {A} (f : A → list Z) (w : nat) (l : list A) :
  Forall (λ a, length (f a) = w) l → length (concat (f <$> l)) = (length l * w)%nat.
Proof. induction 1; cbn; [done|]. rewrite length_app. lia. Qed.

Lemma skip_vec_app {A} (f : A → list Z) (w : nat) (l : list A) rest size :
  size = Z.of_nat w → Forall (λ a, length (f a) = w) l →
  Z.of_nat (length l) < 2 ^ 32 → Z.of_nat w < 2 ^ 32 → skip_vec size (borsh_vec f l ++ rest) = Ok rest.
Proof.
  intros -> Hf Hl Hw. unfold skip_vec, borsh_vec. rewrite <-app_assoc.
  rewrite cursor_take_app by (by rewrite to_le_length). cbn [mbind result_bind fst snd].
  rewrite from_to_le by lia.
  assert (checked_mul_u64 (Z.of_nat (length l)) (Z.of_nat w) = Some (Z.of_nat (length l * w))) as ->.
  { unfold checked_mul_u64, checked. rewrite decide_True; [by rewrite Nat2Z.inj_mul|].
    pose proof (Z.mul_le_mono_nonneg (Z.of_nat (length l)) (2 ^ 32 - 1) (Z.of_nat w) (2 ^ 32 - 1)). ilia. }
  cbn. by rewrite cursor_take_app by (by rewrite (concat_length_uniform f w)).
Qed.

Lemma skip_options_app (l : list (option DisputeOutcome)) rest :
  skip_options (length l) (concat (borsh_option borsh_outcome <$> l) ++ rest) = Ok rest.
Proof.
  induction l as [|[o|] l IH]; cbn [skip_options length fmap list_fmap concat]; [done|..];
    rewrite <-app_assoc.
  - change (borsh_option borsh_outcome (Some o)) with ([1] ++ borsh_outcome o). rewrite <-app_assoc.
    rewrite cursor_take_app by done. cbn [mbind result_bind fst snd].
    rewrite decide_True by done. rewrite cursor_take_app by done. apply IH.
  - rewrite cursor_take_app by done. apply IH.
Qed.

Lemma skip_option_vec_app (l : list (option DisputeOutcome)) rest :
  Z.of_nat (length l) < 2 ^ 32 →
  skip_option_vec (borsh_vec (borsh_option borsh_outcome) l ++ rest) = Ok rest.
Proof.
  intros Hl. unfold skip_option_vec, borsh_vec. rewrite <-app_assoc.
  rewrite cursor_take_app by (by rewrite to_le_length). cbn [mbind result_bind fst snd]. rewrite from_to_le by lia.
  rewrite Nat2Z.id. apply skip_options_app.
Qed.

(** The fixed widths and vector bounds of the account types. *)
Record case_sized (d : DisputeCase) : Prop := {
  cz_seed : length (dc_case_seed d) = 32%nat;
  cz_commitments : Forall (λ c, length c = 32%nat) (dc_commitments d);
  cz_arbitrators_len : Z.of_nat (length (dc_arbitrators d)) < 2 ^ 32;
  cz_commitments_len : Z.of_nat (length (dc_commitments d)) < 2 ^ 32;
  cz_reveals_len : Z.of_nat (length (dc_revealed_outcomes d)) < 2 ^ 32;
  cz_weights_len : Z.of_nat (length (dc_weights d)) < 2 ^ 32;
  cz_claimed_len : Z.of_nat (length (dc_reward_claimed d)) < 2 ^ 32;
  cz_barred_len : Z.of_nat (length (dc_barred d)) < 2 ^ 32;
}.

(** What a node makes of the program's outcome. *)
Definition outcome_read (o : option DisputeOutcome) : read (option Resolution.t) :=
  match o with
  | None => Ok None
  | Some BuyerWins => Ok (Some Resolution.BuyerWins)
  | Some MerchantWins => Ok (Some Resolution.MerchantWins)
  | Some InvalidDispute => Ok (Some Resolution.Invalid)
  | Some MutualSettlement => Err (Code (InvalidParams
      "the chain settled this case by mutual agreement, which is not an arbitrator ruling"))
  end.

Lemma concat_cons_app (f : list Z) fs rest : concat (f :: fs) ++ rest = f ++ (concat fs ++ rest).
Proof. cbn. by rewrite app_assoc. Qed.

Lemma concat_split n (fs : list (list Z)) rest :
  concat fs ++ rest = concat (take n fs) ++ (concat (drop n fs) ++ rest).
Proof. rewrite app_assoc. by rewrite <-concat_app, take_drop. Qed.

(** The length of the bytes of fields of known widths. *)
Ltac widths :=
  unfold offsets.OFFCHAIN_ID_HASH, offsets.EXECUTED, offsets.DEPOSIT_SETTLED, offsets.QUORUM_MET,
    offsets.STATE, offsets.VOTING_ENDS_AT, offsets.VOTES_AGAINST, offsets.VOTES_FOR, offsets.ID;
  cbn [concat take drop]; rewrite ?length_app, ?anchor_discriminator_length, ?key_bytes_length, ?to_le_length;
  cbn [length borsh_bool borsh_role borsh_category borsh_state]; lia.

Lemma decode_outcome_encode d bump rest :
  anchor_discriminator "DisputeCase" = DISPUTE_CASE_DISCRIMINATOR → case_sized d →
  decode_outcome ESCROW_PROGRAM_ID (concat (encode_case d bump) ++ rest) = outcome_read (dc_outcome d).
Proof.
  intros Hd [Hs Hc]. unfold decode_outcome. rewrite require_true by done.
  unfold encode_case. rewrite concat_cons_app.
  rewrite cursor_take_app by (by rewrite anchor_discriminator_length). cbn [mbind result_bind fst snd].
  rewrite require_true by done.
  rewrite (concat_split 11), cursor_take_app by (unfold FIXED_PREFIX; widths).
  cbn [mbind result_bind fst snd drop]. rewrite concat_cons_app.
  rewrite (skip_vec_app _ 32) by (done || apply Forall_true, key_bytes_length). cbn [mbind result_bind].
  rewrite concat_cons_app, (skip_vec_app _ 32) by done. cbn [mbind result_bind].
  rewrite concat_cons_app, skip_option_vec_app by done. cbn [mbind result_bind].
  rewrite concat_cons_app, (skip_vec_app _ 8) by (done || apply Forall_true; intros; apply to_le_length).
  cbn [mbind result_bind]. rewrite concat_cons_app, (skip_vec_app _ 1) by (done || by apply Forall_true).
  cbn [mbind result_bind].
  rewrite concat_cons_app, (skip_vec_app _ 32) by (done || apply Forall_true, key_bytes_length).
  cbn [mbind result_bind]. rewrite (concat_split 4), cursor_take_app by widths.
  cbn [mbind result_bind fst snd drop]. rewrite concat_cons_app.
  destruct (dc_outcome d) as [o|]; cbn [borsh_option].
  - change (1 :: borsh_outcome o) with ([1] ++ borsh_outcome o). rewrite <-app_assoc.
    rewrite cursor_take_app by done. cbn [mbind result_bind fst snd].
    rewrite decide_False, decide_True by done. rewrite cursor_take_app by done. by destruct o.
  - by rewrite cursor_take_app.
Qed.

(** Read one field of an encoded account: the slice at an offset is the field
    with that index. *)
Ltac field off i :=
  match goal with |- context [slice off ?len (concat ?fs ++ ?rest)] =>
    let f := eval cbn [lookup list_lookup from_option id] in (default [] (fs !! i)) in
    replace (slice off len (concat fs ++ rest)) with f
      by (symmetry; apply (slice_field fs rest i); [reflexivity|widths|widths])
  end.

Lemma take_discriminator (name : string) (fs : list (list Z)) rest :
  take 8 (concat (anchor_discriminator name :: fs) ++ rest) = anchor_discriminator name.
Proof.
  rewrite concat_cons_app. by rewrite take_app_length' by (by rewrite anchor_discriminator_length).
Qed.

Lemma encode_stake_account_length a bump : length (concat (encode_stake_account a bump)) = 90%nat.
Proof. unfold encode_stake_account. widths. Qed.

Lemma decode_stake_account_encode a bump rest :
  anchor_discriminator "StakeAccount" = STAKE_ACCOUNT_DISCRIMINATOR → u64 (sa_amount a) →
  decode_stake_account (concat (encode_stake_account a bump) ++ rest) =
    Ok (mkDecodedStake (key_bytes (sa_owner a)) (sa_amount a)).
Proof.
  intros Hd Ha. unfold decode_stake_account.
  rewrite require_true by (rewrite length_app, encode_stake_account_length; lia).
  unfold encode_stake_account. rewrite take_discriminator, require_true by done.
  field 8%nat 1%nat. field 41%nat 3%nat. rewrite from_to_le; [done|]. ilia.
Qed.

Lemma decode_provider_stake_encode a bump rest :
  anchor_discriminator "StakeAccount" = STAKE_ACCOUNT_DISCRIMINATOR → u64 (sa_amount a) →
  decode_provider_stake STAKING_PROGRAM_ID (concat (encode_stake_account a bump) ++ rest) =
    if decide (sa_role a = SnapshotProvider) then Ok (sa_amount a) else Err (Code MalformedStakeAccount).
Proof.
  intros Hd Ha. unfold decode_provider_stake. rewrite require_true by done.
  rewrite require_true.
  2: { intros [Hl|Hl]; [rewrite length_app, encode_stake_account_length in Hl; lia|].
       unfold encode_stake_account in Hl. by rewrite take_discriminator in Hl. }
  unfold encode_stake_account. field 40%nat 2%nat. field 41%nat 3%nat. rewrite from_to_le by ilia.
  unfold require, borsh_role, SNAPSHOT_PROVIDER_ROLE. by destruct (sa_role a).
Qed.

(** The array of minimums is a fixed-size array of seven. *)
Lemma decode_required_stake_encode c b1 b2 b3 rest :
  anchor_discriminator "StakingConfig" = STAKING_CONFIG_DISCRIMINATOR →
  length (min_stake_by_role c) = ROLE_COUNT → Forall u64 (min_stake_by_role c) →
  decode_required_stake STAKING_PROGRAM_ID (concat (encode_staking_config c b1 b2 b3) ++ rest) =
    Ok (min_stake_for c SnapshotProvider).
Proof.
  intros Hd Hlen Hu. unfold decode_required_stake, min_stake_for, encode_staking_config.
  destruct (min_stake_by_role c) as [|m0 [|m1 [|m2 [|m3 [|m4 [|m5 [|m6 [|]]]]]]]]; try done.
  set (more := to_le 8 <$> unbonding_period_secs_by_role c). cbn [fmap list_fmap app].
  rewrite require_true by done. rewrite require_true.
  2: { rewrite take_discriminator. intros [Hl|Hl]; [|done].
       rewrite (concat_split 10), length_app in Hl. cbn [take] in Hl. revert Hl.
       cbn [concat]. rewrite !length_app, anchor_discriminator_length, !key_bytes_length, !to_le_length. cbn. lia. }
  field (72 + 8 * 6)%nat 9%nat. rewrite from_to_le; [done|].
  assert (u64 m6) by (do 6 apply Forall_cons in Hu as [_ Hu]; by apply Forall_cons in Hu as [? _]). ilia.
Qed.

(** A proposal as the program's own record says it is. *)
Definition proposal_read (p : Proposal) : OnchainProposal :=
  mkOnchainProposal (pr_id p)
    (match pr_state p with
     | Draft => OnchainProposalState.Draft | Voting => OnchainProposalState.Voting
     | Accepted => OnchainProposalState.Accepted | Rejected => OnchainProposalState.Rejected
     end) (votes_for p) (votes_against p) (quorum_met p) (deposit_settled p) (executed p)
    (voting_ends_at p)
    (if decide (offchain_id_hash p = replicate 32 0) then None else Some (offchain_id_hash p)).

Record proposal_sized (p : Proposal) : Prop := {
  pz_id : u64 (pr_id p);
  pz_title : length (title_hash p) = 32%nat;
  pz_summary : length (summary_hash p) = 32%nat;
  pz_for : u64 (votes_for p);
  pz_against : u64 (votes_against p);
  pz_ends : i64 (voting_ends_at p);
  pz_hash : length (offchain_id_hash p) = 32%nat;
}.

Lemma from_to_le_mod w z : from_le (to_le w z) = z mod 256 ^ Z.of_nat w.
Proof.
  revert z. induction w as [|w IH]; intros z; [by rewrite Z.mod_1_r|]. cbn [to_le from_le].
  rewrite Nat2Z.inj_succ, Z.pow_succ_r, IH by lia. rewrite Z.rem_mul_r; [done|lia|].
  apply Z.pow_pos_nonneg; lia.
Qed.

Lemma as_i64_le z : i64 z → as_i64 (from_le (to_le 8 z)) = z.
Proof.
  intros Hz. rewrite from_to_le_mod. unfold as_i64. change (256 ^ Z.of_nat 8) with (2 ^ 64).
  unfold i64, I64_MIN, I64_MAX in Hz. destruct (decide (0 ≤ z)).
  - rewrite Z.mod_small by lia. rewrite decide_True by lia. done.
  - replace (z mod 2 ^ 64) with (z + 2 ^ 64); [rewrite decide_False by lia; lia|].
    rewrite <-(Z.mod_add z 1) by lia. rewrite Z.mod_small by lia. lia.
Qed.

Lemma decode_proposal_encode p bump rest :
  anchor_discriminator "Proposal" = PROPOSAL_DISCRIMINATOR → proposal_sized p →
  decode_proposal GOVERNANCE_PROGRAM_ID (concat (encode_proposal p bump) ++ rest) = Ok (proposal_read p).
Proof.
  intros Hd [Hid Ht Hs Hf Ha He Hh]. unfold decode_proposal. rewrite require_true by done.
  rewrite require_true.
  2: { unfold encode_proposal. rewrite take_discriminator. intros [Hl|Hl]; [|done].
       rewrite length_app in Hl. revert Hl. unfold offsets.LEN, offsets.OFFCHAIN_ID_HASH. cbn [concat].
       rewrite !length_app, anchor_discriminator_length, !key_bytes_length, !to_le_length. cbn. lia. }
  unfold encode_proposal.
  field offsets.STATE 13%nat. field offsets.ID 1%nat. field offsets.VOTES_FOR 7%nat.
  field offsets.VOTES_AGAINST 8%nat. field offsets.QUORUM_MET 14%nat. field offsets.DEPOSIT_SETTLED 15%nat.
  field offsets.EXECUTED 16%nat. field offsets.VOTING_ENDS_AT 12%nat. field offsets.OFFCHAIN_ID_HASH 18%nat.
  rewrite as_i64_le, !from_to_le by (done || ilia). unfold proposal_read.
  by destruct (pr_state p), (quorum_met p), (deposit_settled p), (executed p).
Qed.

(** C21: a node reads what the programs wrote.  For every case, stake, staking
    configuration and proposal a program can hold, followed by whatever the
    allocation leaves behind it, each hand-written decoder finds the fields at
    the places the program's own layout puts them. *)
Theorem accounts_read_back d a c p bump rest :
  anchor_discriminator "DisputeCase" = DISPUTE_CASE_DISCRIMINATOR →
  anchor_discriminator "StakeAccount" = STAKE_ACCOUNT_DISCRIMINATOR →
  anchor_discriminator "StakingConfig" = STAKING_CONFIG_DISCRIMINATOR →
  anchor_discriminator "Proposal" = PROPOSAL_DISCRIMINATOR →
  case_sized d → u64 (sa_amount a) → length (min_stake_by_role c) = ROLE_COUNT →
  Forall u64 (min_stake_by_role c) → proposal_sized p →
  decode_outcome ESCROW_PROGRAM_ID (concat (encode_case d bump) ++ rest) = outcome_read (dc_outcome d) ∧
  decode_stake_account (concat (encode_stake_account a bump) ++ rest) =
    Ok (mkDecodedStake (key_bytes (sa_owner a)) (sa_amount a)) ∧
  decode_provider_stake STAKING_PROGRAM_ID (concat (encode_stake_account a bump) ++ rest) =
    (if decide (sa_role a = SnapshotProvider) then Ok (sa_amount a) else Err (Code MalformedStakeAccount)) ∧
  decode_required_stake STAKING_PROGRAM_ID (concat (encode_staking_config c bump bump bump) ++ rest) =
    Ok (min_stake_for c SnapshotProvider) ∧
  decode_proposal GOVERNANCE_PROGRAM_ID (concat (encode_proposal p bump) ++ rest) = Ok (proposal_read p).
Proof.
  intros. split; [by apply decode_outcome_encode|]. split; [by apply decode_stake_account_encode|].
  split; [by apply decode_provider_stake_encode|]. split; [by apply decode_required_stake_encode|].
  by apply decode_proposal_encode.
Qed.
End readback.
