(* ===== verification/Blockhash.v ===== *)
(** * Blockhash: which chain head a node builds on

    Models [crates/chain/src/blockhash.rs].  The clock is monotone and read
    once per call; durations are in milliseconds. *)

From S2P Require Import Prelude Runtime.

Definition BLOCKHASH_VALIDITY : Z := 75 * 1000.

Record Observed := mkObserved { ob_slot : Z; ob_observed_at : Z }.

Record BlockhashCache := mkBlockhashCache {
  bc_seen : gmap (string * Z) Z;
  bc_current : option (string * Observed);
}.
#[export] Instance BlockhashCache_eta : Settable BlockhashCache := fun r =>
  mkBlockhashCache (bc_seen r) (bc_current r).

Definition blockhash_new : BlockhashCache := mkBlockhashCache ∅ None.

Definition prune_expired (now : Z) (c : BlockhashCache) : BlockhashCache :=
  c <| bc_seen := filter (λ kv, now - kv.2 < BLOCKHASH_VALIDITY) (bc_seen c) |>.

(** Whether the pair is new, and the cache after. *)
Definition observe (now : Z) (blockhash : string) (slot : Z) (c : BlockhashCache) : bool * BlockhashCache :=
  let c := prune_expired now c in
  let first_seen := bool_decide (bc_seen c !! (blockhash, slot) = None) in
  let c := c <| bc_seen := <[(blockhash, slot) := now]> (bc_seen c) |> in
  let is_newer := match bc_current c with
                  | Some (_, observed) => bool_decide (ob_slot observed < slot)
                  | None => true
                  end in
  (first_seen, if is_newer then c <| bc_current := Some (blockhash, mkObserved slot now) |> else c).

Definition current_blockhash (now : Z) (c : BlockhashCache) : option (string * Z) :=
  match bc_current c with
  | Some (hash, observed) =>
      if decide (now - ob_observed_at observed < BLOCKHASH_VALIDITY) then Some (hash, ob_slot observed) else None
  | None => None
  end.

Definition current_age (now : Z) (c : BlockhashCache) : option Z :=
  match bc_current c with
  | Some (_, observed) =>
      let elapsed := now - ob_observed_at observed in
      if decide (elapsed < BLOCKHASH_VALIDITY) then Some elapsed else None
  | None => None
  end.

(** A history of observations: when, which hash, which slot; latest last. *)
Abbreviation history := (list (Z * (string * Z))).

Definition run_observations (h : history) (c : BlockhashCache) : BlockhashCache :=
  foldl (λ c o, (observe o.1 o.2.1 o.2.2 c).2) c h.

(** The answers [observe] gave along a history. *)
Fixpoint answers (h : history) (c : BlockhashCache) : list bool :=
  match h with
  | [] => []
  | o :: h => (observe o.1 o.2.1 o.2.2 c).1 :: answers h (observe o.1 o.2.1 o.2.2 c).2
  end.

(** ** Recency *)

(** The head kept is the first observation of the highest slot. *)
Definition is_head (h : history) (o : Z * (string * Z)) : Prop :=
  ∃ before after, h = before ++ o :: after ∧
    (∀ o', o' ∈ before → o'.2.2 < o.2.2) ∧ (∀ o', o' ∈ after → o'.2.2 ≤ o.2.2).

Lemma observe_current now b s c :
  bc_current (observe now b s c).2 =
    match bc_current c with
    | Some (_, observed) =>
        if bool_decide (ob_slot observed < s) then Some (b, mkObserved s now) else bc_current c
    | None => Some (b, mkObserved s now)
    end.
Proof. unfold observe. cbn. destruct (bc_current c) as [[h o]|]; cbn; [|done]. by case_bool_decide. Qed.

Lemma run_observations_snoc h o c :
  run_observations (h ++ [o]) c = (observe o.1 o.2.1 o.2.2 (run_observations h c)).2.
Proof. unfold run_observations. by rewrite foldl_app. Qed.

Lemma head_kept h :
  match bc_current (run_observations h blockhash_new) with
  | None => h = []
  | Some (b, ob) => is_head h (ob_observed_at ob, (b, ob_slot ob))
  end.
Proof.
  induction h as [|[t [b s]] h IH] using rev_ind; [done|]. rewrite run_observations_snoc, observe_current.
  destruct (bc_current _) as [[b0 ob]|]; cbn [fst snd].
  - destruct IH as (l1 & l2 & -> & H1 & H2). case_bool_decide as Hs.
    + exists (l1 ++ (ob_observed_at ob, (b0, ob_slot ob)) :: l2), []. split; [done|].
      split; [|by intros ? ?%elem_of_nil]. cbn in *.
      intros o' [Ho|[Ho|Ho]%elem_of_cons]%elem_of_app; [specialize (H1 o' Ho)|subst|specialize (H2 o' Ho)]; cbn; lia.
    + exists l1, (l2 ++ [(t, (b, s))]). split; [by rewrite <-app_assoc|]. split; [done|].
      intros o' [Ho| ->%list_elem_of_singleton]%elem_of_app; cbn in *; [by apply H2|lia].
  - subst h. exists [], []. split; [done|]. by split; intros ? ?%elem_of_nil.
Qed.

(** The head a node builds on is fresh and the newest it heard of.  Whatever it
    observed in whatever order, the blockhash it uses was announced within the
    validity window and no announced slot is higher. *)
Theorem head_is_newest now h b s :
  current_blockhash now (run_observations h blockhash_new) = Some (b, s) →
  ∃ t, (t, (b, s)) ∈ h ∧ now - t < BLOCKHASH_VALIDITY ∧ ∀ o, o ∈ h → o.2.2 ≤ s.
Proof.
  unfold current_blockhash. pose proof (head_kept h) as Hh. destruct (bc_current _) as [[b0 ob]|]; [|done].
  case_decide as Hfresh; [|done]. intros [= <- <-]. exists (ob_observed_at ob).
  destruct Hh as (l1 & l2 & -> & H1 & H2). split; [set_solver|]. split; [done|].
  intros o [Ho|[Ho|Ho]%elem_of_cons]%elem_of_app; [specialize (H1 o Ho)|subst|specialize (H2 o Ho)]; cbn in *; lia.
Qed.

(** One announcement of the highest slot blinds a node for good.  Once a
    blockhash with a slot no honest announcement exceeds has been observed and
    its window has passed, the node has no blockhash at all, however many
    fresh ones are announced afterwards: the stale head is still what the new
    ones are compared with. *)
Theorem far_slot_blinds_node t b s before after now :
  (∀ o, o ∈ before → o.1 ≤ t) → (∀ o, o ∈ before ++ after → o.2.2 ≤ s) →
  t + BLOCKHASH_VALIDITY ≤ now →
  current_blockhash now (run_observations (before ++ (t, (b, s)) :: after) blockhash_new) = None.
Proof.
  intros Hold Hmax Hnow. unfold current_blockhash. set (h := before ++ _).
  pose proof (head_kept h) as Hh. destruct (bc_current _) as [[b0 ob]|]; [|done].
  destruct Hh as (l1 & l2 & Heq & H1 & H2). cbn in *.
  assert (ob_observed_at ob ≤ t); [|rewrite decide_False; [done|lia]].
  assert (s ≤ ob_slot ob) as Hs.
  { assert ((t, (b, s)) ∈ h) as Hin by set_solver. rewrite Heq in Hin.
    apply elem_of_app in Hin as [Hin|[Hin|Hin]%elem_of_cons];
      [apply H1 in Hin; cbn in *; lia|by injection Hin as _ _ <-|by apply H2 in Hin]. }
  unfold h in Heq. clearbody h.
  destruct (app_eq_inv _ _ _ _ Heq) as [(k & Hk1 & Hk2)|(k & Hk1 & Hk2)].
  - (* the head comes at or before the announcement *)
    destruct k as [|o k]; cbn in *; simplify_eq.
    + lia.
    + apply (Hold (ob_observed_at ob, (b0, ob_slot ob))). set_solver.
  - destruct k as [|o k]; cbn in *; simplify_eq; [lia|].
    specialize (H1 (t, (b, s))). cbn in H1. assert (s < ob_slot ob) by (apply H1; set_solver).
    assert (ob_slot ob ≤ s); [|lia]. apply (Hmax (ob_observed_at ob, (b0, ob_slot ob))). set_solver.
Qed.

(** ** Amplification *)

Lemma observe_seen now b s p c t :
  bc_seen c !! p = Some t → now - t < BLOCKHASH_VALIDITY →
  ∃ t', bc_seen (observe now b s c).2 !! p = Some t' ∧ (t' = t ∨ t' = now).
Proof.
  intros Hp Hfresh. assert (bc_seen (observe now b s c).2 =
    <[(b, s) := now]> (bc_seen (prune_expired now c))) as ->.
  { unfold observe. cbn. destruct (bc_current c) as [[? ?]|]; [case_bool_decide|]; done. }
  rewrite lookup_insert. case_decide; [by eauto|]. exists t. split; [|by left]. cbn.
  by apply map_lookup_filter_Some.
Qed.

(** An announcement is forwarded once per window: after a pair has been
    observed, every further observation of it within the validity window is
    answered with [false], whatever else is observed in between. *)
Theorem announcement_forwarded_once t p c h :
  Forall (λ o, t ≤ o.1 < t + BLOCKHASH_VALIDITY) h →
  ∀ i t', h !! i = Some (t', p) → answers h (observe t p.1 p.2 c).2 !! i = Some false.
Proof.
  intros Hh. set (c1 := (observe t p.1 p.2 c).2).
  assert (∃ t0, bc_seen c1 !! p = Some t0 ∧ t ≤ t0) as Hseen.
  { exists t. split; [|lia]. unfold c1, observe. destruct p as [b s]. cbn.
    destruct (bc_current c) as [[? ?]|]; [case_bool_decide|]; cbn; by rewrite lookup_insert_eq. }
  clearbody c1. revert c1 Hseen. induction Hh as [|o h Ho Hh IH]; intros c1 (t0 & Hp & Ht0) i t' Hi; [done|].
  destruct i as [|i]; cbn in *.
  - injection Hi as ->. destruct p as [b s]. cbn in *. f_equal. unfold observe. cbn.
    rewrite bool_decide_eq_false. rewrite (map_lookup_filter_Some_2 _ _ _ t0); [done|done|cbn; lia].
  - apply (IH _) with t'; [|done].
    destruct (observe_seen o.1 o.2.1 o.2.2 p c1 t0 Hp) as (t1 & Ht1 & Hor); [lia|].
    exists t1. split; [done|]. destruct Hor; lia.
Qed.
