(* ===== verification/ChainRelay.v ===== *)
(** * ChainRelay: submitting transactions and believing what the chain did

    Models the queue of [crates/chain/src/state.rs] and the submission and
    confirmation loops of [poll_chain] in [crates/rpc/src/actor.rs], with
    [read_dispute_outcome] and the tags that route a confirmation to a
    registry.  The RPC client is a parameter: what it answers during one tick.
    What the tick announces to peers or hands to the notifier is its output. *)

From Stdlib Require Import Ascii.
From S2P Require Import Prelude Runtime Shared StakingState EscrowState GovernanceState.
From S2P Require Import Peers Pricing Statements Offers MarketState Reservations Settlements Cases.
From S2P Require Import Market LiquidityInv DisputeBook ChainReads Blockhash.

Inductive SignatureStatus := Success | Failed.
#[export] Instance SignatureStatus_eq_dec : EqDecision SignatureStatus.
Proof. solve_decision. Defined.

(** What the endpoint answers; [None] stands for an error or no answer. *)
Record ChainClient := mkClient {
  send_transaction : list Z → option string;
  get_signature_status : string → option SignatureStatus;
  get_account : string → option (string * list Z);
}.

Record PendingRelay := mkPendingRelay { pl_tx_bytes : list Z; pl_correlation : option string }.
Record AwaitingConfirmation := mkAwaiting {
  aw_signature : string;
  aw_slot_submitted : Z;
  aw_correlation : option string;
}.

Record ChainState := mkChainState {
  ch_cache : BlockhashCache;
  ch_pending_relay : list PendingRelay;
  ch_awaiting_confirmation : list AwaitingConfirmation;
}.
#[export] Instance ChainState_eta : Settable ChainState := fun r =>
  mkChainState (ch_cache r) (ch_pending_relay r) (ch_awaiting_confirmation r).

Inductive ChainError := MalformedChainTransaction.

(** ** The queue *)

(** [valid] is the deserialiser of transactions. *)
Definition enqueue_relay (valid : list Z → bool) (tx_bytes : list Z) (correlation : option string)
    (cs : ChainState) : result ChainError ChainState :=
  _ ← require (valid tx_bytes = true) (Code MalformedChainTransaction);
  Ok (cs <| ch_pending_relay := ch_pending_relay cs ++ [mkPendingRelay tx_bytes correlation] |>).

Definition drain_pending_relay (cs : ChainState) : list PendingRelay * ChainState :=
  (ch_pending_relay cs, cs <| ch_pending_relay := [] |>).

Definition track_awaiting_confirmation (signature : string) (slot_submitted : Z)
    (correlation : option string) (cs : ChainState) : ChainState :=
  cs <| ch_awaiting_confirmation := ch_awaiting_confirmation cs
          ++ [mkAwaiting signature slot_submitted correlation] |>.

(** Remove the first entry with the signature. *)
Fixpoint remove_signature (signature : string) (l : list AwaitingConfirmation) : list AwaitingConfirmation :=
  match l with
  | [] => []
  | a :: l => if decide (aw_signature a = signature) then l else a :: remove_signature signature l
  end.

Definition resolve_confirmation (signature : string) (cs : ChainState) : ChainState :=
  cs <| ch_awaiting_confirmation := remove_signature signature (ch_awaiting_confirmation cs) |>.

(** ** Tags *)

(** [s.split_once(':')]. *)
Fixpoint split_once (s : string) : option (string * string) :=
  match s with
  | EmptyString => None
  | String c rest =>
      if Ascii.eqb c ":"%char then Some (EmptyString, rest)
      else '(a, b) ← split_once rest; Some (String c a, b)
  end.

Definition read_dispute_outcome (client : ChainClient) (case_account : string) : option Resolution.t :=
  match get_account client case_account with
  | None => None
  | Some (owner, data) => match decode_outcome owner data with Ok outcome => outcome | Err _ => None end
  end.

(** ** One tick *)

Inductive relay_output :=
  | AnnounceRelayConfirmation (signature : string) (slot_submitted : Z)
  | ObserveEscrowRelease (settlement signature : string).

Section tick.
Context `{Wire}.
Implicit Types (now : Timestamp) (n : node) (cs : ChainState).

Definition submit_one now (client : ChainClient) cs (p : PendingRelay) : ChainState :=
  match send_transaction client (pl_tx_bytes p) with
  | Some signature =>
      let slot_submitted := match current_blockhash now (ch_cache cs) with Some (_, slot) => slot | None => 0 end in
      track_awaiting_confirmation signature slot_submitted (pl_correlation p) cs
  | None => cs
  end.

(** The follow-up a confirmed transaction's tag asks for. *)
Definition route_confirmation now (client : ChainClient) (a : AwaitingConfirmation) n
    : node * list relay_output :=
  match tag ← aw_correlation a; split_once tag with
  | Some (domain, id) =>
      if decide (domain = "settlement"%string) then
        (ignoring (apply_escrow_released now id (aw_signature a) n) n,
         [ObserveEscrowRelease id (aw_signature a)])
      else if decide (domain = "dispute"%string) then
        let '(id, outcome) :=
          match split_once id with
          | Some (id, account) => (id, read_dispute_outcome client account)
          | None => (id, None)
          end in
        (ignoring (apply_onchain_execution now id (aw_signature a) outcome n) n, [])
      else (n, [])
  | None => (n, [])
  end.

Definition confirm_one now (client : ChainClient) (acc : ChainState * node * list relay_output)
    (a : AwaitingConfirmation) : ChainState * node * list relay_output :=
  let '(cs, n, out) := acc in
  match get_signature_status client (aw_signature a) with
  | Some Success =>
      let cs := resolve_confirmation (aw_signature a) cs in
      let '(n, more) := route_confirmation now client a n in
      (cs, n, out ++ AnnounceRelayConfirmation (aw_signature a) (aw_slot_submitted a) :: more)
  | Some Failed => (resolve_confirmation (aw_signature a) cs, n, out)
  | None => (cs, n, out)
  end.

Definition relay_tick now (client : ChainClient) cs n : ChainState * node * list relay_output :=
  let '(pending, cs) := drain_pending_relay cs in
  let cs := foldl (submit_one now client) cs pending in
  foldl (confirm_one now client) (cs, n, []) (ch_awaiting_confirmation cs).
End tick.

(** ** What a tick does *)

Section theorems.
Context `{Wire}.
Implicit Types (now : Timestamp) (n : node) (cs : ChainState).

(** The entries a tick submits. *)
Definition submitted now (client : ChainClient) cs : list AwaitingConfirmation :=
  let slot := match current_blockhash now (ch_cache cs) with Some (_, slot) => slot | None => 0 end in
  omap (λ p, signature ← send_transaction client (pl_tx_bytes p);
             Some (mkAwaiting signature slot (pl_correlation p))) (ch_pending_relay cs).

Definition unanswered (client : ChainClient) (a : AwaitingConfirmation) : Prop :=
  get_signature_status client (aw_signature a) = None.
#[local] Instance unanswered_dec client a : Decision (unanswered client a).
Proof. unfold unanswered. apply _. Defined.

Lemma submit_all now client cs l :
  let slot := match current_blockhash now (ch_cache cs) with Some (_, slot) => slot | None => 0 end in
  foldl (submit_one now client) cs l =
    cs <| ch_awaiting_confirmation := ch_awaiting_confirmation cs ++
      omap (λ p, signature ← send_transaction client (pl_tx_bytes p);
                 Some (mkAwaiting signature slot (pl_correlation p))) l |>.
Proof.
  intros slot. assert (cs = cs <| ch_awaiting_confirmation := ch_awaiting_confirmation cs ++ [] |>) as Hcs.
  { rewrite app_nil_r. by destruct cs. }
  revert cs slot Hcs. induction l as [|p l IH]; intros cs slot Hcs; cbn [foldl omap]; [done|].
  unfold submit_one at 2. destruct (send_transaction client (pl_tx_bytes p)) as [sig|] eqn:Hs.
  - rewrite IH by (by cbn; rewrite app_nil_r). cbn. rewrite Hs. cbn. by rewrite <-app_assoc.
  - rewrite IH by done. cbn. by rewrite Hs.
Qed.

Lemma remove_skip sig (l k : list AwaitingConfirmation) :
  Forall (λ a, aw_signature a ≠ sig) l → remove_signature sig (l ++ k) = l ++ remove_signature sig k.
Proof. induction 1 as [|a l Ha _ IH]; [done|]. cbn. by rewrite decide_False, IH. Qed.

(** The awaiting entries after a loop: those no answer came for. *)
Lemma confirm_all now client l pre cs n out :
  ch_awaiting_confirmation cs = filter (unanswered client) pre ++ l →
  ch_awaiting_confirmation (foldl (confirm_one now client) (cs, n, out) l).1.1 =
    filter (unanswered client) (pre ++ l) ∧
  ch_pending_relay (foldl (confirm_one now client) (cs, n, out) l).1.1 = ch_pending_relay cs.
Proof.
  revert pre cs n out. induction l as [|a l IH]; intros pre cs n out Hcs; cbn [foldl].
  { by rewrite app_nil_r in *. }
  assert (∀ st, get_signature_status client (aw_signature a) = Some st →
    remove_signature (aw_signature a) (ch_awaiting_confirmation cs) =
      filter (unanswered client) (pre ++ [a]) ++ l) as Hrm.
  { intros st Hst. rewrite Hcs, remove_skip.
    - cbn. rewrite decide_True by done. rewrite filter_app, filter_cons_False, filter_nil, app_nil_r; [done|].
      unfold unanswered. congruence.
    - apply Forall_forall. intros b [Hb _]%list_elem_of_filter Heq. unfold unanswered in Hb. congruence. }
  replace (pre ++ a :: l) with ((pre ++ [a]) ++ l) by (by rewrite <-app_assoc).
  unfold confirm_one at 2 4. destruct (get_signature_status _ _) as [[|]|] eqn:Hst.
  - destruct (route_confirmation now client a n) as [n' more].
    destruct (IH (pre ++ [a]) (resolve_confirmation (aw_signature a) cs) n'
      (out ++ AnnounceRelayConfirmation (aw_signature a) (aw_slot_submitted a) :: more)) as [H1 H2]; [by eapply Hrm|].
    by split; [|rewrite H2].
  - destruct (IH (pre ++ [a]) (resolve_confirmation (aw_signature a) cs) n out) as [H1 H2]; [by eapply Hrm|].
    by split; [|rewrite H2].
  - apply IH. rewrite Hcs, filter_app, filter_cons_True, filter_nil by done. by rewrite <-app_assoc.
Qed.

Lemma ignoring_step now e n (r : result market_error node) :
  event_typed e → apply_event now e n = r → steps market_step n (ignoring r n).
Proof.
  intros He Hr. destruct r as [n'|]; cbn; [|apply steps_refl]. eapply steps_snoc; [apply steps_refl|].
  by eapply market_apply.
Qed.

Lemma ignoring_lift {E} (f : E → market_error) (r : result E node) n : ignoring (lift f r) n = ignoring r n.
Proof. by destruct r as [|[]]. Qed.

Lemma route_steps now client a n : steps market_step n (route_confirmation now client a n).1.
Proof.
  unfold route_confirmation. destruct (_ ≫= _) as [[domain id]|]; [|apply steps_refl].
  case_decide; [|case_decide; [|apply steps_refl]].
  - cbn. rewrite <-(ignoring_lift SettlementRefused).
    by apply (ignoring_step now (EscrowReleaseObserved id (aw_signature a))).
  - destruct (split_once id) as [[id' account]|]; cbn; rewrite <-(ignoring_lift DisputeRefused).
    + by apply (ignoring_step now (ExecutionObserved id' (aw_signature a) (read_dispute_outcome client account))).
    + by apply (ignoring_step now (ExecutionObserved id (aw_signature a) None)).
Qed.

Lemma confirm_steps now client l acc :
  steps market_step acc.1.2 (foldl (confirm_one now client) acc l).1.2.
Proof.
  revert acc. induction l as [|a l IH]; intros [[cs n] out]; cbn [foldl]; [apply steps_refl|].
  unfold confirm_one at 2. destruct (get_signature_status _ _) as [[|]|]; [|exact (IH (resolve_confirmation (aw_signature a) cs, n, out)) | exact (IH (cs, n, out))].
  destruct (route_confirmation now client a n) as [n' more] eqn:Hr.
  pose proof (route_steps now client a n) as Hs. rewrite Hr in Hs. cbn in Hs |- *.
  eapply steps_trans; [exact Hs|]. exact (IH (resolve_confirmation (aw_signature a) cs, n', _)).
Qed.

Lemma confirm_none now client l cs n out :
  Forall (λ a, get_signature_status client (aw_signature a) ≠ Some Success) l →
  (foldl (confirm_one now client) (cs, n, out) l).1.2 = n ∧
  (foldl (confirm_one now client) (cs, n, out) l).2 = out.
Proof.
  intros Hl. revert cs. induction Hl as [|a l Ha _ IH]; intros cs; cbn [foldl]; [done|].
  unfold confirm_one at 2 4. destruct (get_signature_status _ _) as [[|]|]; [done|apply IH..].
Qed.

(** Submitting is not confirming.  One tick empties the queue; what still waits
    afterwards is exactly what the endpoint accepted, now or before, and has
    given no answer for; the node's books move only by steps the node itself
    could take, and not at all unless the chain reported a success. *)
Theorem relay_tick_faithful now client cs n :
  let '(cs', n', out) := relay_tick now client cs n in
  ch_pending_relay cs' = [] ∧
  ch_awaiting_confirmation cs' =
    filter (unanswered client) (ch_awaiting_confirmation cs ++ submitted now client cs) ∧
  steps market_step n n' ∧
  (Forall (λ a, get_signature_status client (aw_signature a) ≠ Some Success)
     (ch_awaiting_confirmation cs ++ submitted now client cs) → n' = n ∧ out = []).
Proof.
  destruct (relay_tick now client cs n) as [[cs' n'] out] eqn:Ht.
  unfold relay_tick in Ht. cbn [drain_pending_relay] in Ht. rewrite submit_all in Ht. cbn in Ht.
  fold (submitted now client cs) in Ht.
  set (l := ch_awaiting_confirmation cs ++ submitted now client cs) in *.
  set (cs1 := mkChainState _ _ _) in Ht.
  destruct (confirm_all now client l [] cs1 n []) as [H1 H2]; [done|].
  pose proof (confirm_steps now client l (cs1, n, [])) as Hs.
  pose proof (confirm_none now client l cs1 n []) as Hn. rewrite Ht in *. cbn in *.
  split; [done|]. split; [done|]. split; [done|]. done.
Qed.

(** ** What a confirmation is taken for *)

Lemma tick_of_one now client cs n a :
  ch_pending_relay cs = [] → ch_awaiting_confirmation cs = [a] →
  get_signature_status client (aw_signature a) = Some Success →
  (relay_tick now client cs n).1.2 = (route_confirmation now client a n).1.
Proof.
  intros Hp Ha Hs. unfold relay_tick. cbn [drain_pending_relay]. rewrite Hp. cbn. rewrite Ha. cbn.
  rewrite Hs. by destruct (route_confirmation now client a n).
Qed.

Lemma route_dispute now client n a tail id account :
  aw_correlation a = Some ("dispute:" ++ tail)%string → split_once tail = Some (id, account) →
  (route_confirmation now client a n).1 =
    ignoring (apply_onchain_execution now id (aw_signature a) (read_dispute_outcome client account) n) n.
Proof.
  intros Hc Ht. unfold route_confirmation. rewrite Hc. cbn [mbind option_bind].
  assert (split_once ("dispute:" ++ tail) = Some ("dispute", tail))%string as -> by reflexivity.
  rewrite decide_False, decide_True by done. by rewrite Ht.
Qed.

(** A verdict is taken from whichever case the tag names.  Whoever has a
    transaction of any kind confirmed with a tag that pairs a live dispute with
    some decided case, of another trade and other parties for all the node
    checks, gets the dispute resolved with that case's outcome, and the trade
    it froze ended accordingly. *)
Theorem foreign_case_decides_dispute `{Hashing} now client cs n a tail id account d c bump rest :
  market_reachable n → ch_pending_relay cs = [] → ch_awaiting_confirmation cs = [a] →
  get_signature_status client (aw_signature a) = Some Success →
  aw_correlation a = Some ("dispute:" ++ tail)%string → split_once tail = Some (id, account) →
  nd_disputes n !! id = Some d → dp_status d ≠ DisputeStatus.Resolved →
  anchor_discriminator "DisputeCase" = DISPUTE_CASE_DISCRIMINATOR → case_sized c →
  dc_outcome c = Some BuyerWins →
  get_account client account = Some (ESCROW_PROGRAM_ID, concat (encode_case c bump) ++ rest) →
  let n' := (relay_tick now client cs n).1.2 in
  ∃ d' s', nd_disputes n' !! id = Some d' ∧ dp_resolution d' = Some Resolution.BuyerWins ∧
    nd_settlements n' !! dp_settlement_id d = Some s' ∧ sm_state s' = SettlementState.Completed.
Proof.
  intros Hn%reachable_book Hp Ha Hs Hc Ht Hd Hr Hdisc Hsz Ho Hacc n'. subst n'.
  rewrite (tick_of_one _ _ _ _ a), (route_dispute _ _ _ _ tail id account) by done.
  unfold read_dispute_outcome. rewrite Hacc, decode_outcome_encode, Ho by done. cbn [outcome_read].
  destruct (bk_keyed _ Hn) as [Hk1 Hk2]. destruct (bk_about _ Hn _ _ Hd) as (s & Hls & _ & _ & _ & _ & Hst).
  specialize (Hst Hr). pose proof (Hk1 _ _ Hls) as Hsid. rewrite <-Hsid in Hls.
  destruct (dispute_resolved_settles now EscrowReleased (aw_signature a) n s Hls Hst) as (s' & Heq & _ & Hst').
  rewrite Hsid in Heq. unfold apply_onchain_execution. rewrite Hd. cbn. rewrite require_true by done. cbn.
  eexists _, s'. rewrite (Hk2 _ _ Hd), lookup_insert_eq. split; [reflexivity|]. split; [done|].
  rewrite Heq. by rewrite lookup_insert_eq.
Qed.

(** A case the chain closed without a verdict never closes here.  When the
    program ended a case on an even split, or on a mutual settlement, the node
    that reads it back records no resolution: the dispute stays live and the
    trade stays frozen, and nothing else resolves a dispute. *)
Theorem split_case_stays_frozen `{Hashing} now client cs n a tail id account d c bump rest :
  market_reachable n → ch_pending_relay cs = [] → ch_awaiting_confirmation cs = [a] →
  get_signature_status client (aw_signature a) = Some Success →
  aw_correlation a = Some ("dispute:" ++ tail)%string → split_once tail = Some (id, account) →
  nd_disputes n !! id = Some d → dp_status d ≠ DisputeStatus.Resolved →
  anchor_discriminator "DisputeCase" = DISPUTE_CASE_DISCRIMINATOR → case_sized c →
  dc_resolved c = true → dc_outcome c = None ∨ dc_outcome c = Some MutualSettlement →
  get_account client account = Some (ESCROW_PROGRAM_ID, concat (encode_case c bump) ++ rest) →
  let n' := (relay_tick now client cs n).1.2 in
  ∃ d' s', nd_disputes n' !! id = Some d' ∧ dp_status d' = dp_status d ∧ dp_resolution d' = dp_resolution d ∧
    nd_settlements n' !! dp_settlement_id d = Some s' ∧ sm_state s' = SettlementState.Disputed.
Proof.
  intros Hn%reachable_book Hp Ha Hs Hc Ht Hd Hr Hdisc Hsz _ Ho Hacc n'. subst n'.
  rewrite (tick_of_one _ _ _ _ a), (route_dispute _ _ _ _ tail id account) by done.
  assert (read_dispute_outcome client account = None) as ->.
  { unfold read_dispute_outcome. rewrite Hacc, decode_outcome_encode by done. by destruct Ho as [-> | ->]. }
  destruct (bk_keyed _ Hn) as [Hk1 Hk2]. destruct (bk_about _ Hn _ _ Hd) as (s & Hls & _ & _ & _ & _ & Hst).
  unfold apply_onchain_execution. rewrite Hd. cbn. rewrite require_true by done. cbn.
  eexists _, s. rewrite (Hk2 _ _ Hd), lookup_insert_eq. split; [reflexivity|]. auto.
Qed.
End theorems.
