(* ===== verification/ChainScenario.v ===== *)
(** * ChainScenario: accounts and a confirmation, evaluated

    A hash that gives the four account types their deployed discriminators,
    one account of each, and the confirmation of a tagged transaction: the
    witnesses of [ChainReads], [Blockhash] and [ChainRelay]. *)

From S2P Require Import Prelude Runtime Shared StakingState EscrowState GovernanceState.
From S2P Require Import Peers Pricing Statements Offers MarketState Reservations Settlements Cases.
From S2P Require Import Market LiquidityInv DisputeBook MarketTheorems MarketScenario.
From S2P Require Import ChainReads Blockhash ChainRelay.

(** ** A hash with the deployed discriminators *)

Definition known_discriminators : list (string * list Z) :=
  [ ("DisputeCase"%string, DISPUTE_CASE_DISCRIMINATOR);
    ("StakeAccount"%string, STAKE_ACCOUNT_DISCRIMINATOR);
    ("StakingConfig"%string, STAKING_CONFIG_DISCRIMINATOR);
    ("Proposal"%string, PROPOSAL_DISCRIMINATOR) ].

Definition deployed_sha256 (m : list Z) : list Z :=
  match list_find (λ nd, m = bytes_of "account:" ++ bytes_of nd.1) known_discriminators with
  | Some (_, (_, d)) => d ++ replicate 24 0
  | None => to_le 32 (foldr (λ b acc, b + 257 * acc) 1 m)
  end.

Lemma known_shape nd : nd ∈ known_discriminators → length nd.2 = 8%nat ∧ Forall byte nd.2.
Proof.
  revert nd. apply Forall_forall, (bool_decide_unpack _). by vm_compute.
Qed.

Program Definition deployed_hashing : Hashing := {|
  sha256 := deployed_sha256;
  key_bytes k := to_le 32 (Z.pos (encode k));
|}.
Next Obligation.
  intros m. unfold deployed_sha256. destruct (list_find _ _) as [[i [nm d]]|] eqn:Hf; [|apply to_le_length].
  apply list_find_Some in Hf as (Hl & _). apply list_elem_of_lookup_2, known_shape in Hl as [Hl _].
  cbn in Hl. rewrite length_app, Hl. done.
Qed.
Next Obligation.
  intros m. unfold deployed_sha256. destruct (list_find _ _) as [[i [nm d]]|] eqn:Hf; [|apply to_le_bytes].
  apply list_find_Some in Hf as (Hl & _). apply list_elem_of_lookup_2, known_shape in Hl as [_ Hl].
  apply Forall_app. split; [done|]. apply Forall_replicate. unfold byte. lia.
Qed.
Next Obligation. intros k. apply to_le_length. Qed.

(** ** One account of each type *)

Definition decided_case (o : option DisputeOutcome) : DisputeCase :=
  mkCase 7 (Key 1) 100 200 300 true 2 60 60 (replicate 32 3) 100
    [Key 5; Key 6; Key 8] [replicate 32 1; replicate 32 2; replicate 32 4] [Some BuyerWins; None; Some BuyerWins]
    [10; 0; 20] [false; false; false] [Key 9] (Key 2) (Key 3) 50 0 o 30 50 50 true 3
    (match o with None => Some NoConsensus | Some _ => None end).

Definition provider_account : StakeAccount :=
  mkStakeAccount (Key 4) SnapshotProvider 10000000000 0 0 0 0 0.

Definition live_config : StakingConfig :=
  mkStakingConfig (Key 1) (Key 2) [1; 2; 3; 4; 5; 6; 100000000000] (replicate 7 86400) 500 (Key 3) (Key 4) (Key 5).

Definition passed_proposal : Proposal :=
  mkProposal 12 Treasury (Key 1) (replicate 32 1) (replicate 32 2) 10 900 100 500 5000 1000 (-5)
    Accepted true true false (replicate 32 7).

Lemma decided_case_sized o : case_sized (decided_case o).
Proof.
  split; cbn; try lia. apply (bool_decide_unpack _). by vm_compute.
Qed.

Lemma accounts_read_back_witness :
  let bytes := concat (@encode_case deployed_hashing (decided_case (Some BuyerWins)) 255) ++ replicate 10 0 in
  decode_outcome ESCROW_PROGRAM_ID bytes = Ok (Some Resolution.BuyerWins) ∧
  decode_proposal GOVERNANCE_PROGRAM_ID
    (concat (@encode_proposal deployed_hashing passed_proposal 255) ++ replicate 10 0) =
    Ok (proposal_read passed_proposal).
Proof.
  intros bytes.
  destruct (@accounts_read_back deployed_hashing (decided_case (Some BuyerWins)) provider_account live_config
    passed_proposal 255 (replicate 10 0)) as (H1 & _ & _ & _ & H5).
  1-4: vm_compute; reflexivity.
  - apply decided_case_sized.
  - apply (bool_decide_unpack _). vm_compute. exact I.
  - reflexivity.
  - apply (bool_decide_unpack _). vm_compute. exact I.
  - split; try reflexivity; apply (bool_decide_unpack _); vm_compute; exact I.
  - split; [exact H1|exact H5].
Defined.

(** ** A node that follows the chain *)

Lemma head_is_newest_witness :
  let h := [(0, ("a"%string, 10)); (5, ("b"%string, 12)); (9, ("c"%string, 11))] in
  current_blockhash 10 (run_observations h blockhash_new) = Some ("b"%string, 12) ∧
  ∃ t, (t, ("b"%string, 12)) ∈ h ∧ 10 - t < BLOCKHASH_VALIDITY ∧ ∀ o, o ∈ h → o.2.2 ≤ 12.
Proof.
  intros h. assert (current_blockhash 10 (run_observations h blockhash_new) = Some ("b"%string, 12)) as Hc
    by (vm_compute; reflexivity).
  split; [exact Hc|]. exact (head_is_newest 10 h "b" 12 Hc).
Defined.

(** Somebody announces the last slot there is; an honest announcement follows. *)
Lemma far_slot_blinds_node_witness :
  current_blockhash 100000
    (run_observations ([(0, ("a"%string, 10))] ++ (1000, ("x"%string, U64_MAX)) :: [(99999, ("b"%string, 12))])
       blockhash_new) = None.
Proof.
  apply (far_slot_blinds_node 1000 "x" U64_MAX [(0, ("a"%string, 10))] [(99999, ("b"%string, 12))] 100000).
  - apply Forall_forall, (bool_decide_unpack _). vm_compute. exact I.
  - apply Forall_forall, (bool_decide_unpack _). vm_compute. exact I.
  - vm_compute. discriminate.
Defined.

Lemma announcement_forwarded_once_witness :
  answers [(5, ("b"%string, 12)); (9, ("a"%string, 10))] (observe 0 "a" 10 blockhash_new).2 !! 1%nat = Some false.
Proof.
  apply (announcement_forwarded_once 0 ("a"%string, 10) blockhash_new
    [(5, ("b"%string, 12)); (9, ("a"%string, 10))]) with 9.
  - apply (bool_decide_unpack _). vm_compute. exact I.
  - reflexivity.
Defined.

(** ** A confirmation with a tag *)

Definition tagged : AwaitingConfirmation := mkAwaiting "sig" 1 (Some "dispute:d:elsewhere"%string).
Definition waiting : ChainState := mkChainState blockhash_new [] [tagged].

(** The endpoint confirms everything and serves one case at every address. *)
Definition serving (o : option DisputeOutcome) : ChainClient := {|
  send_transaction _ := None;
  get_signature_status _ := Some Success;
  get_account _ := Some (ESCROW_PROGRAM_ID, concat (@encode_case deployed_hashing (decided_case o) 255) ++ []);
|}.

Lemma foreign_case_decides_dispute_witness :
  let n' := (relay_tick 9999 (serving (Some BuyerWins)) waiting (after voted)).1.2 in
  ∃ d' s', nd_disputes n' !! "d"%string = Some d' ∧ dp_resolution d' = Some Resolution.BuyerWins ∧
    nd_settlements n' !! "s"%string = Some s' ∧ sm_state s' = SettlementState.Completed.
Proof.
  intros n'.
  destruct (nd_disputes (after voted) !! "d"%string) as [d|] eqn:Hd; [|exfalso; revert Hd; vm_compute; discriminate].
  assert ((λ d, (dp_status d, dp_settlement_id d)) <$> Some d =
    Some (DisputeStatus.AwaitingChainExecution, "s"%string)) as Hf by (rewrite <-Hd; vm_compute; reflexivity).
  injection Hf as Hst Hsid. rewrite <-Hsid.
  apply (@foreign_case_decides_dispute toy_wire deployed_hashing 9999 (serving (Some BuyerWins)) waiting (after voted)
    tagged "d:elsewhere" "d" "elsewhere" d (decided_case (Some BuyerWins)) 255 []).
  - apply after_reachable. vm_compute. reflexivity.
  - reflexivity.
  - reflexivity.
  - reflexivity.
  - reflexivity.
  - vm_compute. reflexivity.
  - exact Hd.
  - rewrite Hst. discriminate.
  - vm_compute. reflexivity.
  - apply decided_case_sized.
  - reflexivity.
  - reflexivity.
Defined.

Lemma split_case_stays_frozen_witness :
  let n' := (relay_tick 9999 (serving None) waiting (after voted)).1.2 in
  ∃ d' s', nd_disputes n' !! "d"%string = Some d' ∧ dp_status d' = DisputeStatus.AwaitingChainExecution ∧
    nd_settlements n' !! "s"%string = Some s' ∧ sm_state s' = SettlementState.Disputed.
Proof.
  intros n'.
  destruct (nd_disputes (after voted) !! "d"%string) as [d|] eqn:Hd; [|exfalso; revert Hd; vm_compute; discriminate].
  assert ((λ d, (dp_status d, dp_settlement_id d)) <$> Some d =
    Some (DisputeStatus.AwaitingChainExecution, "s"%string)) as Hf by (rewrite <-Hd; vm_compute; reflexivity).
  injection Hf as Hst Hsid.
  destruct (@split_case_stays_frozen toy_wire deployed_hashing 9999 (serving None) waiting (after voted)
    tagged "d:elsewhere" "d" "elsewhere" d (decided_case None) 255 []) as (d' & s' & H1 & H2 & _ & H3 & H4).
  - apply after_reachable. vm_compute. reflexivity.
  - reflexivity.
  - reflexivity.
  - reflexivity.
  - reflexivity.
  - vm_compute. reflexivity.
  - exact Hd.
  - rewrite Hst. discriminate.
  - vm_compute. reflexivity.
  - apply decided_case_sized.
  - reflexivity.
  - left. reflexivity.
  - reflexivity.
  - exists d', s'. rewrite Hst in H2. rewrite Hsid in H3. split; [exact H1|]. split; [exact H2|]. split; [exact H3|exact H4].
Defined.
