(* ===== verification/ProposalIndex.v ===== *)
(** * ProposalIndex: proposals off chain, and the chain's verdict on them

    Models [crates/governance/src/record.rs], [store.rs] and the join of
    [onchain.rs], the queue of votes awaiting verification
    ([crates/rpc/src/state.rs]) and the two polls that read the chain for them,
    [poll_vote_verifications] and [poll_proposal_resolutions] of
    [crates/rpc/src/actor.rs]. *)

From S2P Require Import Prelude Runtime Shared StakingState EscrowState GovernanceState.
From S2P Require Import Peers Pricing Statements Offers MarketState ChainReads.
From S2P Require Import Reservations Settlements Cases Market LiquidityInv DisputeBook Blockhash ChainRelay.
Import RegistryError.

Module ProposalStatus.
Inductive t := Voting | Accepted | Rejected | Withdrawn | Activated.
#[global] Instance t_eq_dec : EqDecision t.
Proof. solve_decision. Defined.
End ProposalStatus.

Record CastVote := mkCastVote {
  cv_voter : PeerId;
  cv_choice : Gov.VoteChoice;
  cv_weight : Z;
  cv_timestamp : Timestamp;
}.

(** The off-chain [Proposal]; the program's account is [GovernanceState.Proposal]. *)
Module Local.
Record Proposal := mkProposal {
  lp_id : string;
  lp_title : string;
  lp_summary : string;
  lp_category : Gov.ProposalCategory;
  lp_author : PeerId;
  lp_author_public_key : PublicKey;
  lp_status : ProposalStatus.t;
  lp_votes : list CastVote;
  lp_onchain_proposal_id : option Z;
  lp_voting_closes_at : Timestamp;
  lp_created_at : Timestamp;
  lp_updated_at : Timestamp;
}.
#[global] Instance Proposal_eta : Settable Proposal := fun r =>
  mkProposal (lp_id r) (lp_title r) (lp_summary r) (lp_category r) (lp_author r) (lp_author_public_key r)
    (lp_status r) (lp_votes r) (lp_onchain_proposal_id r) (lp_voting_closes_at r) (lp_created_at r)
    (lp_updated_at r).
End Local.
Import Local.

Abbreviation index := (gmap string Local.Proposal).
Abbreviation reg A := (result GovernanceError A).

(** Seven days, in milliseconds. *)
Definition DEFAULT_VOTING_PERIOD : Z := 7 * 24 * 60 * 60 * 1000.

Definition vote_by (p : Local.Proposal) (voter : PeerId) : option CastVote :=
  find (λ v, bool_decide (cv_voter v = voter)) (lp_votes p).

Definition put_local (m : index) (p : Local.Proposal) : index := <[lp_id p := p]> m.

(** ** The index *)

Section registry.
Context `{Wire}.
Implicit Types (m : index) (p : Local.Proposal) (now : Timestamp).

Definition verify_create (x : signed Gov.ProposalCreate) : reg unit :=
  verify_self MalformedProposal InvalidSignature Unauthorized (Gov.pc_author_public_key (payload x))
    (Gov.pc_author (payload x)) (StProposalCreate (payload x)) (signature x).

Definition verify_vote (x : signed Gov.VoteCast) : reg unit :=
  verify_self MalformedProposal InvalidSignature Unauthorized (Gov.vc_voter_public_key (payload x))
    (Gov.vc_voter (payload x)) (StVoteCast (payload x)) (signature x).

Definition create_proposal (x : signed Gov.ProposalCreate) m : reg index :=
  let c := payload x in
  _ ← verify_create x;
  _ ← require (m !! Gov.pc_id c = None) (Code DuplicateProposalId);
  closes ← or_panic u64 (Gov.pc_timestamp c + DEFAULT_VOTING_PERIOD);
  Ok (put_local m
        (mkProposal (Gov.pc_id c) (Gov.pc_title c) (Gov.pc_summary c) (Gov.pc_category c)
           (Gov.pc_author c) (Gov.pc_author_public_key c) ProposalStatus.Voting []
           (Gov.pc_onchain_proposal_id c) closes (Gov.pc_timestamp c) (Gov.pc_timestamp c))).

Definition apply_vote_inner (x : signed Gov.VoteCast) (weight : Z) m : reg index :=
  let v := payload x in
  p ← ok_or (m !! Gov.vc_proposal_id v) (Code ProposalNotFound);
  _ ← require (¬ (lp_status p ≠ ProposalStatus.Voting ∨ lp_voting_closes_at p ≤ Gov.vc_timestamp v))
        (Code VotingClosed);
  _ ← require (vote_by p (Gov.vc_voter v) = None) (Code DuplicateVote);
  Ok (put_local m
        (p <| lp_votes := lp_votes p ++ [mkCastVote (Gov.vc_voter v) (Gov.vc_choice v) weight (Gov.vc_timestamp v)] |>
           <| lp_updated_at := Gov.vc_timestamp v |>)).

Definition apply_vote (x : signed Gov.VoteCast) m : reg index :=
  _ ← verify_vote x; apply_vote_inner x (Gov.vc_weight (payload x)) m.

Definition apply_vote_with_verified_weight (x : signed Gov.VoteCast) (verified_weight : Z) m : reg index :=
  _ ← verify_vote x; apply_vote_inner x verified_weight m.

Definition apply_withdraw (x : signed Gov.ProposalWithdraw) m : reg index :=
  let w := payload x in
  p ← ok_or (m !! Gov.pw_proposal_id w) (Code ProposalNotFound);
  _ ← require (lp_author p = Gov.pw_author w) (Code Unauthorized);
  _ ← check_signature MalformedProposal InvalidSignature (lp_author_public_key p) (StProposalWithdraw w)
        (signature x);
  _ ← require (lp_status p = ProposalStatus.Voting) (Code InvalidStateTransition);
  Ok (put_local m (p <| lp_status := ProposalStatus.Withdrawn |> <| lp_updated_at := Gov.pw_timestamp w |>)).

Definition apply_activate (x : signed Gov.ProposalActivate) m : reg index :=
  let a := payload x in
  p ← ok_or (m !! Gov.pv_proposal_id a) (Code ProposalNotFound);
  _ ← require (lp_author p = Gov.pv_author a) (Code Unauthorized);
  _ ← check_signature MalformedProposal InvalidSignature (lp_author_public_key p) (StProposalActivate a)
        (signature x);
  _ ← require (lp_status p = ProposalStatus.Accepted) (Code InvalidStateTransition);
  Ok (put_local m (p <| lp_status := ProposalStatus.Activated |> <| lp_updated_at := Gov.pv_timestamp a |>)).

Definition apply_onchain_resolution now (id : string) (resolved : ProposalStatus.t) m : reg index :=
  _ ← require (resolved = ProposalStatus.Accepted ∨ resolved = ProposalStatus.Rejected)
        (Code InvalidStateTransition);
  p ← ok_or (m !! id) (Code ProposalNotFound);
  _ ← require (lp_status p = ProposalStatus.Voting) (Code InvalidStateTransition);
  Ok (put_local m (p <| lp_status := resolved |> <| lp_updated_at := now |>)).

(** ** What the held votes add up to *)

Record VotePreview := mkVotePreview {
  vp_voters_seen : nat;
  vp_approve_weight : Z;
  vp_reject_weight : Z;
  vp_abstain_weight : Z;
  vp_voting_closed : bool;
}.

(** The loop of [local_vote_preview]. *)
Fixpoint add_votes (votes : list CastVote) (approve reject abstain : Z) : reg (Z * Z * Z) :=
  match votes with
  | [] => Ok (approve, reject, abstain)
  | v :: votes =>
      match cv_choice v with
      | Gov.Approve => a ← or_panic u64 (approve + cv_weight v); add_votes votes a reject abstain
      | Gov.Reject => r ← or_panic u64 (reject + cv_weight v); add_votes votes approve r abstain
      | Gov.Abstain => a ← or_panic u64 (abstain + cv_weight v); add_votes votes approve reject a
      end
  end.

Definition local_vote_preview now (id : string) m : reg (option VotePreview) :=
  match m !! id with
  | None => Ok None
  | Some p =>
      r ← add_votes (lp_votes p) 0 0 0;
      Ok (Some (mkVotePreview (length (lp_votes p)) r.1.1 r.1.2 r.2
                  (bool_decide (lp_voting_closes_at p ≤ now))))
  end.
End registry.

(** ** The join with the chain *)

Inductive ChainAgreement :=
  | NoClaim | ClaimNotReciprocated | LinkedStillVoting | LinkedAwaitingAdoption | LinkedAgreed
  | LinkedDisagreed.
#[export] Instance ChainAgreement_eq_dec : EqDecision ChainAgreement.
Proof. solve_decision. Defined.

(** [OnchainProposalState::resolution]. *)
Definition resolution (s : OnchainProposalState.t) : option ProposalStatus.t :=
  match s with
  | OnchainProposalState.Accepted => Some ProposalStatus.Accepted
  | OnchainProposalState.Rejected => Some ProposalStatus.Rejected
  | OnchainProposalState.Draft | OnchainProposalState.Voting => None
  end.

Record ProposalChainView := mkChainView {
  pcv_offchain : Local.Proposal;
  pcv_onchain : option OnchainProposal;
  pcv_agreement : ChainAgreement;
}.

(** A vote whose weight the node has not read from the chain yet; the bytes of
    the signed vote are the vote itself. *)
Record PendingVoteVerification := mkPendingVote {
  pvv_stake_account : string;
  pvv_signed_vote : signed Gov.VoteCast;
  pvv_attempts : Z;
}.

Definition VOTE_VERIFICATION_MAX_ATTEMPTS : Z := 30.

(** The index and the queue of one node. *)
Record gov_node := mkGovNode { gn_index : index; gn_pending : list PendingVoteVerification }.
#[export] Instance gov_node_eta : Settable gov_node := fun r => mkGovNode (gn_index r) (gn_pending r).

(** What peers gossip about governance. *)
Inductive gov_event :=
  | EvProposalCreated (x : signed Gov.ProposalCreate)
  | EvVoteCast (x : signed Gov.VoteCast)
  | EvProposalCancelled (x : signed Gov.ProposalWithdraw)
  | EvProposalActivated (x : signed Gov.ProposalActivate).

Section join.
Context `{Wire} `{Hashing}.
Implicit Types (m : index) (p : Local.Proposal) (now : Timestamp) (n : gov_node).

Definition id_hash (id : string) : list Z := sha256 (bytes_of id).

Definition onchain_proposal_address (id : Z) : string := base58 (key_bytes (proposal_key id)).

Definition compare p (onchain : option OnchainProposal) : ChainAgreement :=
  match lp_onchain_proposal_id p with
  | None => NoClaim
  | Some claimed_id =>
      match onchain with
      | None => ClaimNotReciprocated
      | Some onchain =>
          if decide (op_id onchain ≠ claimed_id ∨ op_offchain_id_hash onchain ≠ Some (id_hash (lp_id p)))
          then ClaimNotReciprocated
          else
            match resolution (op_state onchain) with
            | None => LinkedStillVoting
            | Some resolved =>
                if decide (resolved = lp_status p) then LinkedAgreed
                else if decide (lp_status p = ProposalStatus.Voting) then LinkedAwaitingAdoption
                else LinkedDisagreed
            end
      end
  end.

Definition adopt_onchain_resolution now (id : string) (onchain : option OnchainProposal) m
    : reg (ChainAgreement * index) :=
  p ← ok_or (m !! id) (Code ProposalNotFound);
  let agreement := compare p onchain in
  if decide (agreement = LinkedAwaitingAdoption) then
    resolved ← ok_or (o ← onchain; resolution (op_state o)) Panic;
    match apply_onchain_resolution now id resolved m with
    | Ok m' => Ok (agreement, m')
    | Err (Code InvalidStateTransition) => Ok (agreement, m)
    | Err other => Err other
    end
  else Ok (agreement, m).

Definition chain_view (id : string) (onchain : option OnchainProposal) m : option ProposalChainView :=
  p ← m !! id; Some (mkChainView p onchain (compare p onchain)).

(** The claim of a proposal the node has not resolved. *)
Definition pending_claim p : option Z :=
  if decide (lp_status p = ProposalStatus.Voting) then lp_onchain_proposal_id p else None.

Definition pending_of (entry : string * Local.Proposal) : option (string * Z) :=
  onchain_id ← pending_claim entry.2; Some (lp_id entry.2, onchain_id).

Definition pending_onchain_resolutions m : list (string * Z) := omap pending_of (map_to_list m).

(** ** The polls *)

(** The account the endpoint returned, if it is a proposal of the program. *)
Definition read_proposal (client : ChainClient) (onchain_id : Z) : option OnchainProposal :=
  match get_account client (onchain_proposal_address onchain_id) with
  | Some (owner, data) => match decode_proposal owner data with Ok d => Some d | Err _ => None end
  | None => None
  end.

Definition resolve_one now (client : ChainClient) m (c : string * Z) : index :=
  match adopt_onchain_resolution now c.1 (read_proposal client c.2) m with
  | Ok (_, m') => m'
  | Err _ => m
  end.

Definition poll_proposal_resolutions now (client : ChainClient) n : gov_node :=
  n <| gn_index := fold_left (resolve_one now client) (pending_onchain_resolutions (gn_index n)) (gn_index n) |>.

Definition enqueue_vote_verification (x : signed Gov.VoteCast) n : gov_node :=
  n <| gn_pending := gn_pending n ++ [mkPendingVote (Gov.vc_stake_account (payload x)) x 0] |>.

Definition requeue_vote_verification (v : PendingVoteVerification) n : gov_node :=
  n <| gn_pending := gn_pending n ++ [v] |>.

Definition drain_vote_verifications n : list PendingVoteVerification * gov_node :=
  (gn_pending n, n <| gn_pending := [] |>).

Definition verify_one (client : ChainClient) n (v : PendingVoteVerification) : gov_node :=
  match get_account client (pvv_stake_account v) with
  | Some (owner, data) =>
      if decide (owner ≠ STAKING_PROGRAM_ID) then n
      else match decode_stake_account data with
           | Ok decoded =>
               if decide (ds_owner decoded = Gov.vc_voter_public_key (payload (pvv_signed_vote v)))
               then n <| gn_index := ignoring (apply_vote_with_verified_weight (pvv_signed_vote v)
                                                 (ds_amount decoded) (gn_index n)) (gn_index n) |>
               else n
           | Err _ => n
           end
  | None =>
      let v := mkPendingVote (pvv_stake_account v) (pvv_signed_vote v) (pvv_attempts v + 1) in
      if decide (VOTE_VERIFICATION_MAX_ATTEMPTS ≤ pvv_attempts v) then n
      else requeue_vote_verification v n
  end.

Definition poll_vote_verifications (client : ChainClient) n : gov_node :=
  let '(votes, n) := drain_vote_verifications n in fold_left (verify_one client) votes n.

(** What a node without an endpoint does with its votes. *)
Definition discard_unverifiable_votes n : gov_node := (drain_vote_verifications n).2.

(** ** What the node does with an event

    A vote is queued; everything else goes to the index. *)

Definition governance_apply_event (e : gov_event) m : index :=
  match e with
  | EvProposalCreated x => ignoring (create_proposal x m) m
  | EvVoteCast x => ignoring (apply_vote x m) m
  | EvProposalCancelled x => ignoring (apply_withdraw x m) m
  | EvProposalActivated x => ignoring (apply_activate x m) m
  end.

Definition governance_handler (e : gov_event) n : gov_node :=
  match e with
  | EvVoteCast x => enqueue_vote_verification x n
  | e => n <| gn_index := governance_apply_event e (gn_index n) |>
  end.

(** [sendVoteCast] checks the signature and queues the vote; the event it then
    originates goes through the node's own handler as well. *)
Definition send_vote_cast (x : signed Gov.VoteCast) n : reg gov_node :=
  _ ← verify_vote x; Ok (governance_handler (EvVoteCast x) (enqueue_vote_verification x n)).

Definition send_proposal_create (x : signed Gov.ProposalCreate) n : reg gov_node :=
  m ← create_proposal x (gn_index n); Ok (governance_handler (EvProposalCreated x) (n <| gn_index := m |>)).

(** [getProposalChainLink]: the view with no account read. *)
Definition proposal_chain_link (id : string) n : option ChainAgreement :=
  pcv_agreement <$> chain_view id None (gn_index n).
End join.
