(* ===== verification/ProposalJoin.v ===== *)
(** * ProposalJoin: a node's governance record and the chain's

    A node that hears gossip and reads accounts, beside the governance program
    whose accounts it reads.  The endpoint may lag: what it reports is what the
    program held at some earlier point of the same history.  Every verdict the
    node holds is then the program's, and stays so. *)

From S2P Require Import Prelude Runtime Shared StakingState Staking EscrowState GovernanceState Governance.
From S2P Require Import GovernanceInv GovernanceHistory.
From S2P Require Import Peers Pricing Statements Offers MarketState ChainReads.
From S2P Require Import Reservations Settlements Cases Market LiquidityInv DisputeBook Blockhash ChainRelay.
From S2P Require Import ProposalIndex.
Import RegistryError Local.

(** ** Records *)

Definition one_vote_each (q : Local.Proposal) : Prop :=
  NoDup (cv_voter <$> lp_votes q) ∧ Forall (λ v, cv_timestamp v < lp_voting_closes_at q) (lp_votes q).

Definition keyed (m : index) : Prop := ∀ id q, m !! id = Some q → lp_id q = id.

Lemma vote_by_None q voter : vote_by q voter = None → voter ∉ cv_voter <$> lp_votes q.
Proof.
  unfold vote_by. intros Hf (v & -> & Hv)%list_elem_of_fmap.
  apply list_elem_of_In in Hv. pose proof (find_none _ _ Hf _ Hv) as Hb. by apply bool_decide_eq_false in Hb.
Qed.

Section registry.
Context `{Wire} `{Hashing}.
Implicit Types (m : index) (q : Local.Proposal) (now : Timestamp) (n : gov_node).

Ltac inv_reg := cbv zeta in *; inv_ok; inv_signed.

Lemma vote_inner_Ok x weight m m' :
  apply_vote_inner x weight m = Ok m' →
  ∃ q, m !! Gov.vc_proposal_id (payload x) = Some q ∧ lp_status q = ProposalStatus.Voting ∧
    Gov.vc_timestamp (payload x) < lp_voting_closes_at q ∧ vote_by q (Gov.vc_voter (payload x)) = None ∧
    m' = put_local m (q <| lp_votes := lp_votes q ++ [mkCastVote (Gov.vc_voter (payload x))
            (Gov.vc_choice (payload x)) weight (Gov.vc_timestamp (payload x))] |>
            <| lp_updated_at := Gov.vc_timestamp (payload x) |>).
Proof.
  unfold apply_vote_inner. intros Hrun. inv_reg.
  match goal with Hq : m !! _ = Some ?q, Hv : ¬ _ |- _ => exists q; rename Hv into Hopen end.
  match goal with |- _ ∧ lp_status ?q = _ ∧ _ =>
    destruct (decide (lp_status q = ProposalStatus.Voting)) as [Hst|]; [|tauto] end.
  split_and!; (done || lia).
Qed.

(** ** What the resolution poll does to one record *)

(** The record after one account was read for it. *)
Definition adopted now (o : option OnchainProposal) q : Local.Proposal :=
  if decide (compare q o = LinkedAwaitingAdoption) then
    match o ≫= (λ o, resolution (op_state o)) with
    | Some r => q <| lp_status := r |> <| lp_updated_at := now |>
    | None => q
    end
  else q.

Definition after_poll now client q : Local.Proposal :=
  match pending_claim q with
  | Some onchain_id => adopted now (read_proposal client onchain_id) q
  | None => q
  end.

(** What adoption needs. *)
Lemma compare_awaiting q o :
  compare q o = LinkedAwaitingAdoption ↔
  lp_status q = ProposalStatus.Voting ∧
  ∃ cid d r, lp_onchain_proposal_id q = Some cid ∧ o = Some d ∧ op_id d = cid ∧
    op_offchain_id_hash d = Some (id_hash (lp_id q)) ∧ resolution (op_state d) = Some r.
Proof.
  unfold compare. split.
  - intros Hc. destruct (lp_onchain_proposal_id q) as [cid|]; [|done]. destruct o as [d|]; [|done].
    case_decide as Hl; [done|]. apply Decidable.not_or in Hl as [Hid Hh].
    destruct (resolution (op_state d)) as [r|] eqn:Hr; [|done]. case_decide; [done|].
    case_decide as Hv; [|done]. split; [done|]. exists cid, d, r. split_and!; try done.
    + by apply dec_stable.
    + by apply dec_stable.
  - intros (Hv & cid & d & r & -> & -> & Hid & Hh & Hr). rewrite decide_False by (intros [?|?]; done). rewrite Hr, Hv.
    rewrite decide_False; [|intros ->; by destruct (op_state d)]. by rewrite decide_True.
Qed.

Lemma resolution_final d r : resolution d = Some r → r = ProposalStatus.Accepted ∨ r = ProposalStatus.Rejected.
Proof. destruct d; cbn; intros; simplify_eq; auto. Qed.

Lemma alter_as_insert f id m q : m !! id = Some q → alter f id m = <[id := f q]> m.
Proof.
  intros Hq. apply map_eq. intros j. destruct (decide (id = j)) as [<-|Hj].
  - by rewrite lookup_alter_eq, lookup_insert_eq, Hq.
  - by rewrite lookup_alter_ne, lookup_insert_ne.
Qed.

Lemma resolve_one_alter now client m c :
  keyed m → resolve_one now client m c = alter (adopted now (read_proposal client c.2)) c.1 m.
Proof.
  intros Hm. unfold resolve_one, adopt_onchain_resolution. destruct (m !! c.1) as [q|] eqn:Hq; cbn.
  2: { apply map_eq. intros j. destruct (decide (c.1 = j)) as [<-|Hj].
       - by rewrite lookup_alter_eq, Hq.
       - by rewrite lookup_alter_ne. }
  rewrite (alter_as_insert _ _ _ _ Hq). unfold adopted. case_decide as Hc; [|by rewrite insert_id].
  apply compare_awaiting in Hc as (Hv & cid & d & r & Hcl & -> & Hid & Hh & Hr). cbn. rewrite Hr. cbn.
  unfold apply_onchain_resolution. rewrite require_true by (by eapply resolution_final).
  rewrite Hq. cbn. rewrite require_true by done. cbn. unfold put_local. cbn. by rewrite (Hm _ _ Hq).
Qed.

Lemma adopted_id now o q : lp_id (adopted now o q) = lp_id q.
Proof. unfold adopted. case_decide; [|done]. by destruct (_ ≫= _). Qed.

Lemma keyed_alter f id m : keyed m → (∀ q, lp_id (f q) = lp_id q) → keyed (alter f id m).
Proof.
  intros Hm Hf j q Hq. destruct (decide (id = j)) as [<-|Hj].
  - rewrite lookup_alter_eq in Hq. apply fmap_Some in Hq as (r & Hr & ->). rewrite Hf. by apply Hm.
  - rewrite lookup_alter_ne in Hq by done. by apply Hm.
Qed.

(** Reading for records one after the other is reading for each. *)
Lemma resolve_all now client cs m id :
  keyed m → NoDup cs.*1 →
  fold_left (resolve_one now client) cs m !! id =
    match list_find (λ c, c.1 = id) cs with
    | Some (_, c) => adopted now (read_proposal client c.2) <$> m !! id
    | None => m !! id
    end.
Proof.
  revert m. induction cs as [|c cs IH]; intros m Hm Hnd; [done|]. cbn [fold_left list_find].
  apply NoDup_cons in Hnd as [Hc Hnd]. rewrite resolve_one_alter by done.
  rewrite IH by first [done | apply keyed_alter; [done|intros; apply adopted_id]].
  destruct (decide (c.1 = id)) as [<-|Hid].
  - assert (list_find (λ d, d.1 = c.1) cs = None) as ->; [|by rewrite lookup_alter_eq].
    apply list_find_None, Forall_forall. intros d Hd Heq. apply Hc. rewrite <-Heq.
    by apply list_elem_of_fmap_2.
  - rewrite lookup_alter_ne by done. by destruct (list_find _ cs) as [[]|].
Qed.

(** The claims the poll reads for are the pending ones, each once. *)
Lemma pending_of_Some m id cid e :
  keyed m → m !! e.1 = Some e.2 → pending_of e = Some (id, cid) ↔ e.1 = id ∧ pending_claim e.2 = Some cid.
Proof.
  intros Hm He. unfold pending_of. rewrite <-(Hm _ _ He).
  destruct (pending_claim e.2) as [c|]; cbn; naive_solver.
Qed.

Lemma pending_elem m id cid :
  keyed m → (id, cid) ∈ pending_onchain_resolutions m ↔ ∃ q, m !! id = Some q ∧ pending_claim q = Some cid.
Proof.
  intros Hm. unfold pending_onchain_resolutions. rewrite list_elem_of_omap. split.
  - intros ([j q] & Hq%elem_of_map_to_list & Hp). apply (pending_of_Some m) in Hp as [<- Hc]; eauto.
  - intros (q & Hq & Hc). exists (id, q). split; [by apply elem_of_map_to_list|].
    by apply (pending_of_Some m).
Qed.

Lemma pending_NoDup m : keyed m → NoDup (pending_onchain_resolutions m).*1.
Proof.
  intros Hm. unfold pending_onchain_resolutions.
  assert (∀ e, e ∈ map_to_list m → m !! e.1 = Some e.2) as Hin.
  { intros [j q] He. by apply elem_of_map_to_list in He. }
  pose proof (NoDup_fst_map_to_list m) as Hnd. revert Hin Hnd.
  induction (map_to_list m) as [|e l IH]; intros Hin Hnd; [apply NoDup_nil_2|].
  apply NoDup_cons in Hnd as [Hj Hnd]. specialize (IH ltac:(set_solver) Hnd). cbn.
  destruct (pending_of e) as [[id cid]|] eqn:He; [|done]. apply (pending_of_Some m) in He as [<- _]; [|done|set_solver].
  apply NoDup_cons. split; [|done]. intros ([k d] & Hk & Hd)%list_elem_of_fmap.
  apply list_elem_of_omap in Hd as (e' & He' & Hp). apply (pending_of_Some m) in Hp as [Hk' _]; [|done|set_solver].
  cbn in Hk. apply Hj. rewrite Hk, <-Hk'. by apply list_elem_of_fmap_2.
Qed.

Lemma poll_lookup now client n id :
  keyed (gn_index n) →
  gn_index (poll_proposal_resolutions now client n) !! id = after_poll now client <$> gn_index n !! id.
Proof.
  intros Hm. unfold poll_proposal_resolutions. cbn.
  rewrite resolve_all by (done || by apply pending_NoDup).
  destruct (list_find _ _) as [[i [j cid]]|] eqn:Hf.
  - apply list_find_Some in Hf as (Hi & Hj & _). cbn in Hj. subst j. cbn.
    apply list_elem_of_lookup_2 in Hi. apply pending_elem in Hi as (q & Hq & Hc); [|done]. rewrite Hq. cbn.
    unfold after_poll. by rewrite Hc.
  - destruct (gn_index n !! id) as [q|] eqn:Hq; [|done]. cbn. unfold after_poll.
    destruct (pending_claim q) as [cid|] eqn:Hc; [|done]. exfalso.
    apply list_find_None in Hf. rewrite Forall_forall in Hf. apply (Hf (id, cid)); [|done].
    apply pending_elem; eauto.
Qed.
End registry.

(** ** The node beside the program *)

(** The program's outcome a status stands for. *)
Definition chain_outcome (st : ProposalStatus.t) : option ProposalState :=
  match st with
  | ProposalStatus.Accepted | ProposalStatus.Activated => Some Accepted
  | ProposalStatus.Rejected => Some Rejected
  | ProposalStatus.Voting | ProposalStatus.Withdrawn => None
  end.

Section joint.
Context {L : Type} `{TokenLedger L} `{Hashing} `{Wire}.
(** The stakes the staking program has held. *)
Variable held : StakeAccount → Prop.
Implicit Types (w : Z * gov_state L) (m : index) (q : Local.Proposal) (now : Timestamp) (n : gov_node)
  (client : ChainClient).

(** What a proposal account answers is what the program held there, now or
    earlier. *)
Definition reports_proposals w client : Prop :=
  ∀ id data, get_account client (onchain_proposal_address id) = Some (GOVERNANCE_PROGRAM_ID, data) →
    ∃ w0 p bump rest, gov_reachable w0 ∧ steps gov_step w0 w ∧ gs_proposals w0.2 !! proposal_key id = Some p ∧
      proposal_sized p ∧ data = concat (encode_proposal p bump) ++ rest.

(** What an account of the staking program answers, if it reads as a stake, is
    a stake the program held. *)
Definition reports_stakes client : Prop :=
  ∀ address data d, get_account client address = Some (STAKING_PROGRAM_ID, data) →
    decode_stake_account data = Ok d →
    ∃ a bump rest, held a ∧ u64 (sa_amount a) ∧ data = concat (encode_stake_account a bump) ++ rest.

Inductive gov_node_step w : gov_node → gov_node → Prop :=
  | node_hears e n : gov_node_step w n (governance_handler e n)
  | node_votes x n n' : send_vote_cast x n = Ok n' → gov_node_step w n n'
  | node_proposes x n n' : send_proposal_create x n = Ok n' → gov_node_step w n n'
  | node_verifies client n : reports_stakes client → gov_node_step w n (poll_vote_verifications client n)
  | node_discards n : gov_node_step w n (discard_unverifiable_votes n)
  | node_resolves now client n :
      reports_proposals w client → gov_node_step w n (poll_proposal_resolutions now client n).

Inductive joint_step : (Z * gov_state L) * gov_node → (Z * gov_state L) * gov_node → Prop :=
  | joint_chain w w' n : gov_step w w' → joint_step (w, n) (w', n)
  | joint_node w n n' : gov_node_step w n n' → joint_step (w, n) (w, n').

Definition joint_reachable (wn : (Z * gov_state L) * gov_node) : Prop :=
  ∃ t l, steps joint_step ((t, gov_init l), mkGovNode ∅ []) wn.

(** ** The invariant *)

(** The program reached the outcome the record has, for the proposal the record
    claims, which names the record back. *)
Definition verdict_backed (s : gov_state L) q : Prop :=
  ∀ o, chain_outcome (lp_status q) = Some o →
    ∃ cid p, lp_onchain_proposal_id q = Some cid ∧ gs_proposals s !! proposal_key cid = Some p ∧
      offchain_id_hash p = id_hash (lp_id q) ∧ pr_state p = o.

(** The voter signed this choice on this proposal at this time under the key
    their peer id is made from, and the weight is the stake of that key. *)
Definition vote_backed (id : string) (v : CastVote) : Prop :=
  ∃ x sig a, let key := Gov.vc_voter_public_key x in
    signed_by key (StVoteCast x) sig ∧ peer_id_from_public_key key = Some (cv_voter v) ∧
    Gov.vc_proposal_id x = id ∧ Gov.vc_voter x = cv_voter v ∧ Gov.vc_choice x = cv_choice v ∧
    Gov.vc_timestamp x = cv_timestamp v ∧
    held a ∧ key_bytes (sa_owner a) = key ∧ sa_amount a = cv_weight v.

Record record_ok (s : gov_state L) id q : Prop := {
  ro_id : lp_id q = id;
  ro_verdict : verdict_backed s q;
  ro_once : one_vote_each q;
  ro_votes : Forall (vote_backed id) (lp_votes q);
}.

Definition index_ok (s : gov_state L) m : Prop := ∀ id q, m !! id = Some q → record_ok s id q.

Lemma index_ok_keyed s m : index_ok s m → keyed m.
Proof. intros Hm id q Hq. by apply Hm in Hq as [Hid]. Qed.

Lemma verdict_kept s q q' :
  lp_id q' = lp_id q → lp_onchain_proposal_id q' = lp_onchain_proposal_id q →
  chain_outcome (lp_status q') = chain_outcome (lp_status q) ∨ chain_outcome (lp_status q') = None →
  verdict_backed s q → verdict_backed s q'.
Proof. intros Hid Hc Ho Hv o Hq. rewrite Hid, Hc. apply Hv. destruct Ho; congruence. Qed.

Lemma index_ok_put s m q : index_ok s m → record_ok s (lp_id q) q → index_ok s (put_local m q).
Proof.
  intros Hm Hq id r Hr. unfold put_local in Hr.
  destruct (decide (id = lp_id q)) as [->|Hid]; simplify_map_eq; [done|by apply Hm].
Qed.

(** A move that adopts nothing and counts nothing keeps a record sound. *)
Lemma record_ok_moved s id q q' :
  record_ok s id q → lp_id q' = lp_id q → lp_onchain_proposal_id q' = lp_onchain_proposal_id q →
  lp_votes q' = lp_votes q → lp_voting_closes_at q' = lp_voting_closes_at q →
  chain_outcome (lp_status q') = chain_outcome (lp_status q) ∨ chain_outcome (lp_status q') = None →
  record_ok s (lp_id q') q'.
Proof.
  intros [Hid Hver Honce Hvotes] Hid' Hc Hv Hcl Ho. split; [done|by eapply verdict_kept|..].
  - unfold one_vote_each. by rewrite Hv, Hcl.
  - by rewrite Hv, Hid', Hid.
Qed.

Lemma create_ok s x m m' : index_ok s m → create_proposal x m = Ok m' → index_ok s m'.
Proof.
  unfold create_proposal. intros Hm Hrun. cbv zeta in *. inv_ok. apply index_ok_put; [done|].
  split; cbn; [done|by intros o|split; [apply NoDup_nil_2|done]|done].
Qed.

Lemma withdraw_ok s x m m' : index_ok s m → apply_withdraw x m = Ok m' → index_ok s m'.
Proof.
  unfold apply_withdraw. intros Hm Hrun. cbv zeta in *. inv_ok. apply index_ok_put; [done|].
  match goal with Hq : m !! _ = Some ?q |- _ => eapply (record_ok_moved _ _ q); [by apply Hm|done..|] end.
  cbn. auto.
Qed.

Lemma activate_ok s x m m' : index_ok s m → apply_activate x m = Ok m' → index_ok s m'.
Proof.
  unfold apply_activate. intros Hm Hrun. cbv zeta in *. inv_ok. apply index_ok_put; [done|].
  match goal with Hq : m !! _ = Some ?q, Hs : lp_status _ = _ |- _ =>
    eapply (record_ok_moved _ _ q); [by apply Hm|done..|]; cbn; rewrite Hs end.
  cbn. auto.
Qed.

Lemma vote_ok s x weight m m' :
  index_ok s m → apply_vote_with_verified_weight x weight m = Ok m' →
  (∃ a, held a ∧ key_bytes (sa_owner a) = Gov.vc_voter_public_key (payload x) ∧ sa_amount a = weight) →
  index_ok s m'.
Proof.
  intros Hm Hrun (a & Ha & Hkey & Hw). unfold apply_vote_with_verified_weight, verify_vote in Hrun. inv_ok.
  inv_signed. match goal with Hi : apply_vote_inner _ _ _ = Ok _ |- _ =>
    apply vote_inner_Ok in Hi as (q & Hq & Hst & Ht & Hnew & ->) end.
  apply index_ok_put; [done|]. destruct (Hm _ _ Hq) as [Hid Hver [Hnd Hts] Hvotes]. split; cbn; [done|..].
  - by eapply verdict_kept; [| | |exact Hver]; [..|left].
  - unfold one_vote_each. cbn. rewrite fmap_app. split.
    + apply NoDup_app. split_and!; [done| |apply NoDup_singleton].
      intros v Hv ->%list_elem_of_singleton. by apply vote_by_None in Hnew.
    + apply Forall_app. split; [done|]. by apply Forall_singleton.
  - rewrite Hid. apply Forall_app. split; [done|]. apply Forall_singleton.
    exists (payload x), (signature x), a. cbn. by split_and!.
Qed.

Lemma handler_ok s e n : index_ok s (gn_index n) → index_ok s (gn_index (governance_handler e n)).
Proof.
  intros Hm. destruct e as [x|x|x|x]; cbn; [|done|..]; unfold ignoring.
  - destruct (create_proposal x _) eqn:Hrun; [by eapply create_ok|done].
  - destruct (apply_withdraw x _) eqn:Hrun; [by eapply withdraw_ok|done].
  - destruct (apply_activate x _) eqn:Hrun; [by eapply activate_ok|done].
Qed.

Hypothesis Hstake : anchor_discriminator "StakeAccount" = STAKE_ACCOUNT_DISCRIMINATOR.
Hypothesis Hproposal : anchor_discriminator "Proposal" = PROPOSAL_DISCRIMINATOR.

Lemma verify_one_ok s client n v :
  reports_stakes client → index_ok s (gn_index n) → index_ok s (gn_index (verify_one client n v)).
Proof using Hstake.
  intros Hc Hm. unfold verify_one. destruct (get_account client _) as [[owner data]|] eqn:Hacc.
  2: { case_decide; done. }
  case_decide as Ho; [done|]. subst owner.
  destruct (decode_stake_account data) as [d|] eqn:Hd; [|done]. case_decide as Hkey; [|done]. cbn.
  unfold ignoring. destruct (apply_vote_with_verified_weight _ _ _) as [m'|] eqn:Hrun; [|done].
  eapply vote_ok; [done..|]. destruct (Hc _ _ _ Hacc Hd) as (a & bump & rest & Ha & Hu & ->).
  rewrite decode_stake_account_encode in Hd by done. simplify_eq. cbn in *. by exists a.
Qed.

Lemma poll_votes_ok s client n :
  reports_stakes client → index_ok s (gn_index n) → index_ok s (gn_index (poll_vote_verifications client n)).
Proof using Hstake.
  intros Hc. unfold poll_vote_verifications, drain_vote_verifications.
  set (n0 := n <| gn_pending := [] |>). change (gn_index n) with (gn_index n0). generalize n0. clear n0.
  induction (gn_pending n) as [|v vs IH]; intros n' Hm; [done|]. cbn. apply IH. by apply verify_one_ok.
Qed.

(** A verdict of the program is there for good. *)
Lemma verdict_persists t s t' s' id p :
  gov_reachable (t, s) → steps gov_step (t, s) (t', s') → gs_proposals s !! proposal_key id = Some p →
  pr_state p ≠ Voting → ∃ p', gs_proposals s' !! proposal_key id = Some p' ∧ pr_state p' = pr_state p ∧
    offchain_id_hash p' = offchain_id_hash p.
Proof.
  intros Hr%gov_reachable_inv Hs Hp Hv. apply (gov_later t s) in Hs as [Hle _]; [|done].
  apply (gl_proposals _ _ Hle) in Hp as (p' & Hp' & Hle'). destruct (pl_final _ _ Hle' Hv) as (? & _ & _ & _ & ?).
  eauto.
Qed.

Lemma read_proposal_held w client cid d :
  reports_proposals w client → read_proposal client cid = Some d →
  ∃ w0 p, gov_reachable w0 ∧ steps gov_step w0 w ∧ gs_proposals w0.2 !! proposal_key cid = Some p ∧ d = proposal_read p.
Proof using Hproposal.
  intros Hc Hr. unfold read_proposal in Hr. destruct (get_account client _) as [[owner data]|] eqn:Hacc; [|done].
  destruct (decode_proposal owner data) as [d'|] eqn:Hd; simplify_eq.
  assert (owner = GOVERNANCE_PROGRAM_ID) as -> by (unfold decode_proposal in Hd; by inv_ok).
  destruct (Hc _ _ Hacc) as (w0 & p & bump & rest & Hr0 & Hs0 & Hp & Hz & ->).
  rewrite decode_proposal_encode in Hd by done. simplify_eq. by exists w0, p.
Qed.

Lemma read_linked p h : op_offchain_id_hash (proposal_read p) = Some h → offchain_id_hash p = h.
Proof. unfold proposal_read. cbn [op_offchain_id_hash]. case_decide; [done|congruence]. Qed.

Lemma read_resolved p r :
  resolution (op_state (proposal_read p)) = Some r → pr_state p ≠ Voting ∧ chain_outcome r = Some (pr_state p).
Proof. unfold proposal_read. destruct (pr_state p); cbn; intros; by simplify_eq. Qed.

Lemma adopted_ok w client now id q cid :
  reports_proposals w client → record_ok w.2 id q → lp_onchain_proposal_id q = Some cid →
  record_ok w.2 id (adopted now (read_proposal client cid) q).
Proof using Hproposal.
  intros Hc Hq Hcid. unfold adopted. case_decide as Ha; [|done].
  apply compare_awaiting in Ha as (Hv & cid' & d & r & Hcl & Hd & Hid & Hh & Hres). simplify_eq. rewrite Hd. cbn.
  rewrite Hres. apply (read_proposal_held w) in Hd as ([t0 s0] & p & Hr0 & Hs0 & Hp & ->); [|done].
  apply read_linked in Hh. apply read_resolved in Hres as [Hfinal Hres].
  destruct w as [t s]. destruct Hq as [Hqid Hver Honce Hvotes]. split; [done| |done..]. intros o Ho.
  change (op_id (proposal_read p)) with (pr_id p) in *. exists (pr_id p).
  destruct (verdict_persists t0 s0 t s (pr_id p) p) as (p' & Hp' & Hst & Hhash); [done..|].
  exists p'. cbn in *. split_and!; [done|done|congruence|congruence].
Qed.

Lemma poll_resolutions_ok w now client n :
  reports_proposals w client → index_ok w.2 (gn_index n) →
  index_ok w.2 (gn_index (poll_proposal_resolutions now client n)).
Proof using Hproposal.
  intros Hc Hm id q Hq. rewrite poll_lookup in Hq by (by eapply index_ok_keyed).
  apply fmap_Some in Hq as (q0 & Hq0 & ->). unfold after_poll, pending_claim.
  case_decide; [|by apply Hm]. destruct (lp_onchain_proposal_id q0) as [cid|] eqn:Hcid; [|by apply Hm].
  apply adopted_ok; [done|by apply Hm|done].
Qed.

Lemma node_step_ok w n n' : gov_node_step w n n' → index_ok w.2 (gn_index n) → index_ok w.2 (gn_index n').
Proof using Hstake Hproposal.
  intros Hstep Hm. destruct Hstep as [e n|x n n' Hrun|x n n' Hrun|client n Hc|n|now client n Hc].
  - by apply handler_ok.
  - unfold send_vote_cast in Hrun. by inv_ok.
  - unfold send_proposal_create in Hrun. destruct (create_proposal x (gn_index n)) as [m|] eqn:Hc; [|done].
    injection Hrun as <-. change (index_ok w.2 (gn_index (governance_handler (EvProposalCreated x) (n <| gn_index := m |>)))).
    apply handler_ok. by eapply create_ok.
  - by apply poll_votes_ok.
  - done.
  - by apply poll_resolutions_ok.
Qed.

Lemma chain_step_ok w w' m : gov_reachable w → gov_step w w' → index_ok w.2 m → index_ok w'.2 m.
Proof.
  intros Hr Hstep Hm id q Hq. destruct (Hm _ _ Hq) as [Hid Hver Honce Hvotes]. split; [done| |done..].
  intros o Ho. destruct (Hver o Ho) as (cid & p & Hc & Hp & Hh & Hst). destruct w as [t s], w' as [t' s'].
  destruct (verdict_persists t s t' s' cid p) as (p' & Hp' & Hst' & Hh'); [done|by apply steps_one|done| |].
  - subst o. destruct (lp_status q), (pr_state p); by simplify_eq/=.
  - exists cid, p'. split_and!; [done..|congruence|congruence].
Qed.

Lemma joint_inv w n : joint_reachable (w, n) → gov_reachable w ∧ index_ok w.2 (gn_index n).
Proof using Hstake Hproposal.
  intros (t & l & Hs).
  apply (steps_invariant _ (λ wn, gov_reachable wn.1 ∧ index_ok wn.1.2 (gn_index wn.2))) in Hs; [done| |].
  - intros [w1 n1] [w2 n2] [Hr Hm] Hstep. cbn in *.
    inversion Hstep as [? ? ? Hc|? ? ? Hc]; subst; cbn.
    + split; [|by eapply chain_step_ok]. eapply gov_reachable_steps; [done|by apply steps_one].
    + split; [done|]. by eapply node_step_ok.
  - cbn. split; [|by intros id q Hq]. exists t, l. constructor.
Qed.

(** ** Theorems *)

(** C24: a node's verdict is the program's.  Whatever peers gossip and however far
    the endpoint lags, a proposal a node holds as accepted, activated or
    rejected claims an account of the governance program that names the
    proposal back, has that outcome now, and whose voting window is over; it is
    accepted exactly if the stake-weighted votes recorded on chain reach the
    quorum and the threshold. *)
Theorem adopted_verdict_is_the_chains w n id q o :
  joint_reachable (w, n) → gn_index n !! id = Some q → chain_outcome (lp_status q) = Some o →
  ∃ cid p, lp_onchain_proposal_id q = Some cid ∧ gs_proposals w.2 !! proposal_key cid = Some p ∧
    offchain_id_hash p = id_hash id ∧ pr_state p = o ∧ voting_ends_at p ≤ w.1 ∧ (o = Accepted ↔ passes p) ∧
    votes_for p = votes_cast (proposal_key cid) true (gs_votes w.2) ∧
    votes_against p = votes_cast (proposal_key cid) false (gs_votes w.2).
Proof using Hstake Hproposal.
  intros [Hr Hm]%joint_inv Hq Ho. destruct (Hm _ _ Hq) as [Hid Hver _ _].
  destruct (Hver o Ho) as (cid & p & Hc & Hp & Hh & Hst). destruct w as [t s]. apply gov_reachable_inv in Hr.
  destruct (gi_proposals _ _ Hr _ _ Hp) as [_ (_ & _ & _ & _ & Hout)].
  destruct (gi_tally _ _ Hr _ _ Hp) as [Hfor Hagainst]. subst id. exists cid, p. cbn in *.
  unfold outcome_ok in Hout. rewrite Hst in Hout. destruct o; [by destruct (lp_status q)..| |].
  - destruct Hout as (? & _ & ?). split_and!; done.
  - destruct Hout as (? & _ & ? & _). split_and!; done.
Qed.

(** Two nodes that follow one chain, the second at a later time, never hold
    opposite outcomes for records with the same claim. *)
Theorem nodes_never_contradict w1 w2 n1 n2 id q1 q2 o1 o2 :
  joint_reachable (w1, n1) → joint_reachable (w2, n2) → steps gov_step w1 w2 →
  gn_index n1 !! id = Some q1 → gn_index n2 !! id = Some q2 →
  lp_onchain_proposal_id q1 = lp_onchain_proposal_id q2 →
  chain_outcome (lp_status q1) = Some o1 → chain_outcome (lp_status q2) = Some o2 → o1 = o2.
Proof using Hstake Hproposal.
  intros [Hr1 Hm1]%joint_inv [Hr2 Hm2]%joint_inv Hs Hq1 Hq2 Hc Ho1 Ho2.
  destruct (ro_verdict _ _ _ (Hm1 _ _ Hq1) _ Ho1) as (c1 & p1 & Hc1 & Hp1 & _ & Hst1).
  destruct (ro_verdict _ _ _ (Hm2 _ _ Hq2) _ Ho2) as (c2 & p2 & Hc2 & Hp2 & _ & Hst2).
  assert (c1 = c2) as -> by congruence. destruct w1 as [t1 s1], w2 as [t2 s2].
  destruct (verdict_persists t1 s1 t2 s2 c2 p1) as (p' & Hp' & Hst' & _); [done..| |].
  - subst o1. destruct (lp_status q1), (pr_state p1); by simplify_eq/=.
  - cbn in *. congruence.
Qed.

(** C25: the program's verdict reaches the node.  One poll of an endpoint that
    returns the account gives every proposal that is still open, claims a
    tallied account and is named back by it, the outcome of that account, and
    changes nothing else of the record. *)
Theorem chain_verdict_reaches_node w n id q cid p bump rest now client :
  joint_reachable (w, n) → gn_index n !! id = Some q → lp_status q = ProposalStatus.Voting →
  lp_onchain_proposal_id q = Some cid → gs_proposals w.2 !! proposal_key cid = Some p →
  pr_state p ≠ Voting → proposal_sized p → offchain_id_hash p = id_hash id → id_hash id ≠ replicate 32 0 →
  get_account client (onchain_proposal_address cid) =
    Some (GOVERNANCE_PROGRAM_ID, concat (encode_proposal p bump) ++ rest) →
  ∃ st, chain_outcome st = Some (pr_state p) ∧
    gn_index (poll_proposal_resolutions now client n) !! id =
      Some (q <| lp_status := st |> <| lp_updated_at := now |>).
Proof using Hstake Hproposal.
  intros [Hr Hm]%joint_inv Hq Hv Hc Hp Hfinal Hz Hh Hnz Hacc. destruct w as [t s]. apply gov_reachable_inv in Hr.
  destruct (gi_proposals _ _ Hr _ _ Hp) as [[= Hid] (_ & _ & _ & _ & Hout)].
  rewrite poll_lookup, Hq by (by eapply index_ok_keyed). cbn [fmap option_fmap option_map].
  unfold after_poll, pending_claim. rewrite decide_True, Hc by done. unfold read_proposal.
  rewrite Hacc, decode_proposal_encode by done.
  assert (∃ st, resolution (op_state (proposal_read p)) = Some st ∧ chain_outcome st = Some (pr_state p))
    as (st & Hres & Hst).
  { unfold outcome_ok in Hout. unfold proposal_read. destruct (pr_state p); cbn; eauto; done. }
  exists st. split; [done|]. unfold adopted. rewrite decide_True.
  - cbn [mbind option_bind]. by rewrite Hres.
  - apply compare_awaiting. split; [done|]. exists cid, (proposal_read p), st. split_and!; try done.
    unfold proposal_read. cbn [op_offchain_id_hash]. rewrite (ro_id _ _ _ (Hm _ _ Hq)), Hh.
    by rewrite decide_False.
Qed.

(** C26: a vote counts once, as its voter signed it and with the voter's own
    stake.  In every record a node holds no peer votes twice and no vote is
    dated after the window; each counted vote carries the choice and the time of
    a statement about that proposal, by that voter, signed under the key the
    voter's peer id is made from; and its weight is the amount of a stake
    account the staking program held for that same key, whatever weight the
    statement claims. *)
Theorem counted_votes_are_staked w n id q :
  joint_reachable (w, n) → gn_index n !! id = Some q → one_vote_each q ∧ Forall (vote_backed id) (lp_votes q).
Proof using Hstake Hproposal.
  intros [_ Hm]%joint_inv Hq. destruct (Hm _ _ Hq). done.
Qed.

(** An adopted verdict is reported as a disagreement.  [getProposalChainLink]
    says of every proposal that took its outcome from the chain that the claim
    is not reciprocated, and comparing an activated proposal with the very
    account it was accepted by says the outcomes differ. *)
Theorem adopted_verdict_is_denied w n id q o :
  joint_reachable (w, n) → gn_index n !! id = Some q → chain_outcome (lp_status q) = Some o →
  id_hash id ≠ replicate 32 0 →
  proposal_chain_link id n = Some ClaimNotReciprocated ∧
  ∃ cid p, lp_onchain_proposal_id q = Some cid ∧ gs_proposals w.2 !! proposal_key cid = Some p ∧
    compare q (Some (proposal_read p)) =
      if decide (lp_status q = ProposalStatus.Activated) then LinkedDisagreed else LinkedAgreed.
Proof using Hstake Hproposal.
  intros [Hr Hm]%joint_inv Hq Ho Hnz. destruct (Hm _ _ Hq) as [Hid Hver _ _].
  destruct (Hver o Ho) as (cid & p & Hc & Hp & Hh & Hst). destruct w as [t s]. apply gov_reachable_inv in Hr.
  destruct (gi_proposals _ _ Hr _ _ Hp) as [[= Hcid] _]. split.
  - unfold proposal_chain_link, chain_view. rewrite Hq. cbn. unfold compare. by rewrite Hc.
  - exists cid, p. split_and!; [done..|]. unfold compare. rewrite Hc, decide_False.
    + unfold proposal_read. cbn [op_state]. subst o. destruct (lp_status q), (pr_state p); by simplify_eq/=.
    + unfold proposal_read. cbn [op_id op_offchain_id_hash]. rewrite Hh, Hid, decide_False by done. naive_solver.
Qed.
End joint.

(** ** The queue of votes *)

Section queue.
Context `{Wire}.

Lemma verify_one_pending client n v :
  Forall (λ v, 0 ≤ pvv_attempts v < VOTE_VERIFICATION_MAX_ATTEMPTS) (gn_pending n) →
  0 ≤ pvv_attempts v →
  Forall (λ v, 0 ≤ pvv_attempts v < VOTE_VERIFICATION_MAX_ATTEMPTS) (gn_pending (verify_one client n v)) ∧
  ∀ k, Forall (λ v, k < pvv_attempts v) (gn_pending n) → k ≤ pvv_attempts v →
    Forall (λ v, k < pvv_attempts v) (gn_pending (verify_one client n v)).
Proof.
  intros Hn Hv. unfold verify_one. destruct (get_account client _) as [[owner data]|].
  - case_decide; [done|]. destruct (decode_stake_account data); [|done]. by case_decide.
  - case_decide as Hmax; [done|]. cbn in *. split.
    + apply Forall_app. split; [done|]. apply Forall_singleton. cbn. lia.
    + intros k Hk Hkv. apply Forall_app. split; [done|]. apply Forall_singleton. cbn. lia.
Qed.

(** Every vote a poll leaves in the queue has been tried once more. *)
Lemma poll_votes_pending client n k :
  0 ≤ k → Forall (λ v, k ≤ pvv_attempts v) (gn_pending n) →
  Forall (λ v, k < pvv_attempts v < VOTE_VERIFICATION_MAX_ATTEMPTS) (gn_pending (poll_vote_verifications client n)).
Proof.
  intros Hk Hn. unfold poll_vote_verifications, drain_vote_verifications.
  set (n0 := n <| gn_pending := [] |>).
  assert (Forall (λ v, k < pvv_attempts v < VOTE_VERIFICATION_MAX_ATTEMPTS) (gn_pending n0)) as H0 by constructor.
  revert H0. generalize n0. clear n0. induction Hn as [|v vs Hv Hvs IH]; intros n0 H0; [done|]. cbn. apply IH.
  destruct (verify_one_pending client n0 v) as [Hb Hl]; [|lia|].
  - eapply Forall_impl; [done|]. cbn. lia.
  - apply Forall_and. split; [|eapply Forall_impl; [done|cbn; lia]].
    apply Hl; [|done]. eapply Forall_impl; [done|]. cbn. lia.
Qed.

Lemma polls_pending clients n k :
  0 ≤ k → Forall (λ v, k ≤ pvv_attempts v) (gn_pending n) →
  Forall (λ v, k + Z.of_nat (length clients) ≤ pvv_attempts v ∧
               (clients ≠ [] → pvv_attempts v < VOTE_VERIFICATION_MAX_ATTEMPTS))
    (gn_pending (fold_left (λ n client, poll_vote_verifications client n) clients n)).
Proof.
  revert n k. induction clients as [|c cs IH]; intros n k Hk Hn.
  - eapply Forall_impl; [done|]. cbn. intros v Hv. split; [lia|done].
  - cbn [fold_left length]. pose proof (poll_votes_pending c n k Hk Hn) as Hp.
    destruct cs as [|c' cs].
    + eapply Forall_impl; [exact Hp|]. cbn. intros v Hv. split; lia.
    + eapply Forall_impl; [apply (IH _ (k + 1)); [lia|]|].
      * eapply Forall_impl; [exact Hp|]. cbn. lia.
      * intros v [Hv Hm]. split; [cbn [length] in *; lia|]. intros _. by apply Hm.
Qed.

(** The queue of unverified votes empties.  Whatever is queued, and whatever
    the endpoint answers or fails to answer, after thirty polls with nothing
    new no vote is left waiting. *)
Theorem vote_queue_drains clients n :
  length clients = Z.to_nat VOTE_VERIFICATION_MAX_ATTEMPTS →
  Forall (λ v, 0 ≤ pvv_attempts v) (gn_pending n) →
  gn_pending (fold_left (λ n client, poll_vote_verifications client n) clients n) = [].
Proof.
  intros Hlen Hn. pose proof (polls_pending clients n 0 ltac:(lia) Hn) as Hp. rewrite Hlen in Hp.
  destruct (gn_pending (fold_left _ clients n)) as [|v vs]; [done|].
  apply Forall_cons in Hp as [[Hv Hm] _]. unfold VOTE_VERIFICATION_MAX_ATTEMPTS in *.
  assert (clients ≠ []) as Hne by (by intros ->). specialize (Hm Hne). lia.
Qed.
End queue.
