(* ===== verification/ProposalScenario.v ===== *)
(** * ProposalScenario: a proposal, its vote and its verdict, evaluated

    The governance program runs one linked proposal to acceptance; a node hears
    of the proposal and of a vote, reads the voter's stake and the program's
    verdict, and the author activates it. *)

From S2P Require Import Prelude Runtime Shared StakingState Staking EscrowState GovernanceState Governance.
From S2P Require Import GovernanceInv GovernanceHistory Scenario GovernanceScenario.
From S2P Require Import Peers Pricing Statements Offers MarketState ChainReads.
From S2P Require Import Reservations Settlements Cases Market LiquidityInv DisputeBook Blockhash ChainRelay.
From S2P Require Import ProposalIndex ProposalJoin ChainScenario.
Import RegistryError Local.

(** ** Keys and addresses to compute with

    The key of the first proposal is told apart from every other. *)

Definition first_proposal : pubkey := proposal_key 1.

Program Definition linked_hashing : Hashing := {|
  sha256 := deployed_sha256;
  key_bytes k := (if decide (k = first_proposal) then 1 else 0) :: to_le 31 (Z.pos (encode k));
|}.
Next Obligation. exact (@sha256_length deployed_hashing). Qed.
Next Obligation. exact (@sha256_bytes deployed_hashing). Qed.
Next Obligation. intros k. cbn [length]. by rewrite to_le_length. Qed.

Definition linked_wire : Wire := {|
  verify key _ sig := bool_decide (sig = key);
  peer_id_from_public_key key := Some key;
  base58 b := if decide (head b = Some 1) then "first" else "other";
  json _ := Some [];
  digest m := m;
|}.

#[local] Existing Instance linked_hashing.
#[local] Existing Instance linked_wire.

(** ** The program's side *)

Definition linked_exec (x : gov_tx) (s : gov_state simple_ledger)
    : result GovernanceError.ErrorCode (gov_state simple_ledger) :=
  @Governance.process _ _ linked_hashing x.1 (EscrowState.sv_config staking0)
    (EscrowState.sv_accounts staking0) x.2 s.

Lemma linked_exec_step t x s s' :
  t ≤ gov_time x → gov_typed x = true → linked_exec x s = Ok s' →
  @gov_step _ _ linked_hashing (t, s) (gov_time x, s').
Proof.
  unfold gov_typed. rewrite andb_true_iff, !bool_decide_eq_true. intros Ht [Hn Hi] Hrun.
  eapply step_ix; [done|done|apply stakes0_typed|done|done].
Qed.

Definition linked : list gov_tx :=
  [ gsend 10 (InitializeGovernanceConfig admin OPEN (Key 72) gparams);
    propose 20 1 NoAction;
    gsend 25 (LinkOffchainProposal (Key 3) pk1 (@id_hash linked_hashing "p"));
    gsend 30 (Governance.CastVote (arb 1) pk1 true Arbitrator);
    gsend 31 (Governance.CastVote (arb 2) pk1 true Arbitrator);
    gsend 130 (TallyAndFinalize pk1) ].

Definition chain_end : Z * gov_state simple_ledger :=
  (end_time gov_time 0 linked, after linked_exec (gov_init gov_ledger0) linked).

Lemma chain_end_steps : steps (@gov_step _ _ linked_hashing) (0, gov_init gov_ledger0) chain_end.
Proof. eapply after_steps; [exact linked_exec_step|by vm_compute|by vm_compute]. Qed.

Definition accepted_account : GovernanceState.Proposal :=
  default (GovernanceState.mkProposal 0 Treasury (Key 0) [] [] 0 0 0 0 0 0 0 Voting false false false [])
    (gs_proposals chain_end.2 !! proposal_key 1).

(** ** The node's side *)

Definition author : PeerId := [1].
Definition voter_key : PublicKey := @key_bytes linked_hashing (Key 4).

Definition staker : StakeAccount := mkStakeAccount (Key 4) NodeOperator 700 0 0 0 0 0.

Definition created : gov_event :=
  EvProposalCreated (mkSigned
    (Gov.mkProposalCreate "p" "title" "summary" Gov.Protocol author author (Some 1) 1000) author).
Definition vote : gov_event :=
  EvVoteCast (mkSigned (Gov.mkVoteCast "p" voter_key voter_key Gov.Approve 999999 "stake" 2000) voter_key).
Definition activated : gov_event :=
  EvProposalActivated (mkSigned (Gov.mkProposalActivate "p" author 9000) author).

Definition endpoint : ChainClient := {|
  send_transaction _ := None;
  get_signature_status _ := None;
  get_account address :=
    if decide (address = "first"%string)
    then Some (GOVERNANCE_PROGRAM_ID, concat (@encode_proposal linked_hashing accepted_account 255) ++ [])
    else if decide (address = "stake"%string)
    then Some (STAKING_PROGRAM_ID, concat (@encode_stake_account linked_hashing staker 255) ++ [])
    else None;
|}.

Definition heard : gov_node := governance_handler vote (governance_handler created (mkGovNode ∅ [])).
Definition counted : gov_node := poll_vote_verifications endpoint heard.
Definition resolved : gov_node := poll_proposal_resolutions 5000 endpoint counted.
Definition live : gov_node := governance_handler activated resolved.

Definition record (st : ProposalStatus.t) (updated : Timestamp) : Local.Proposal :=
  Local.mkProposal "p" "title" "summary" Gov.Protocol author author st
    [mkCastVote voter_key Gov.Approve 700 2000] (Some 1) (1000 + DEFAULT_VOTING_PERIOD) 1000 updated.

Example node_run :
  gn_index counted !! "p"%string = Some (record ProposalStatus.Voting 2000) ∧
  gn_index resolved !! "p"%string = Some (record ProposalStatus.Accepted 5000) ∧
  gn_index live !! "p"%string = Some (record ProposalStatus.Activated 9000).
Proof. by vm_compute. Qed.

(** ** The run is a path of the joint system *)

Definition held_here (a : StakeAccount) : Prop := a = staker.

Lemma stake_name : @anchor_discriminator linked_hashing "StakeAccount" = STAKE_ACCOUNT_DISCRIMINATOR.
Proof. by vm_compute. Qed.

Lemma proposal_name : @anchor_discriminator linked_hashing "Proposal" = PROPOSAL_DISCRIMINATOR.
Proof. by vm_compute. Qed.

Lemma accepted_lookup : gs_proposals chain_end.2 !! proposal_key 1 = Some accepted_account.
Proof. unfold accepted_account. by vm_compute. Qed.

Lemma accepted_sized : proposal_sized accepted_account.
Proof. split; apply (bool_decide_unpack _); by vm_compute. Qed.

Lemma endpoint_proposals : reports_proposals chain_end endpoint.
Proof.
  intros id data Hacc. destruct (decide (proposal_key id = first_proposal)) as [[= ->]|Hne].
  - change (Some (GOVERNANCE_PROGRAM_ID, concat (encode_proposal accepted_account 255) ++ []) =
      Some (GOVERNANCE_PROGRAM_ID, data)) in Hacc.
    exists chain_end, accepted_account, 255, []. split_and!.
    + exists 0, gov_ledger0. apply chain_end_steps.
    + apply steps_refl.
    + apply accepted_lookup.
    + apply accepted_sized.
    + congruence.
  - unfold onchain_proposal_address, base58 in Hacc. cbn [linked_wire key_bytes linked_hashing head] in Hacc.
    rewrite (decide_False (P := proposal_key id = first_proposal)) in Hacc by done. discriminate.
Qed.

Lemma endpoint_stakes : reports_stakes held_here endpoint.
Proof.
  intros address data d Hacc _. cbn [get_account endpoint] in Hacc. case_decide; [discriminate|].
  case_decide; [|discriminate]. exists staker, 255, []. split_and!; [done|cbn; ilia|congruence].
Qed.

Lemma joint_counted : joint_reachable held_here (chain_end, counted).
Proof.
  exists 0, gov_ledger0.
  assert (steps (joint_step held_here) ((0, gov_init gov_ledger0), mkGovNode ∅ []) (chain_end, mkGovNode ∅ []))
    as Hchain.
  { generalize chain_end_steps. generalize chain_end. intros w Hs.
    induction Hs as [|w1 w2 w3 Hs IH Hstep]; [apply steps_refl|]. eapply steps_snoc; [exact IH|]. by constructor. }
  eapply steps_snoc; [eapply steps_snoc; [eapply steps_snoc; [exact Hchain|]|]|].
  - apply joint_node, (node_hears _ _ created).
  - apply joint_node, (node_hears _ _ vote).
  - apply joint_node. apply (node_verifies _ _ endpoint), endpoint_stakes.
Qed.

Lemma joint_resolved : joint_reachable held_here (chain_end, resolved).
Proof.
  destruct joint_counted as (t & l & Hs). exists t, l. eapply steps_snoc; [exact Hs|].
  apply joint_node. apply (node_resolves _ _ 5000 endpoint), endpoint_proposals.
Qed.

Lemma joint_live : joint_reachable held_here (chain_end, live).
Proof.
  destruct joint_resolved as (t & l & Hs). exists t, l. eapply steps_snoc; [exact Hs|].
  apply joint_node, (node_hears _ _ activated).
Qed.

Lemma hash_set : @id_hash linked_hashing "p" ≠ replicate 32 0.
Proof. apply (bool_decide_unpack _). by vm_compute. Qed.

(** ** Witnesses *)

Lemma adopted_verdict_is_the_chains_witness :
  gn_index live !! "p"%string = Some (record ProposalStatus.Activated 9000) ∧
  ∃ cid p, Some 1 = Some cid ∧ gs_proposals chain_end.2 !! proposal_key cid = Some p ∧
    offchain_id_hash p = id_hash "p" ∧ pr_state p = Accepted ∧ voting_ends_at p ≤ chain_end.1 ∧
    (Accepted = Accepted ↔ passes p) ∧
    votes_for p = votes_cast (proposal_key cid) true (gs_votes chain_end.2) ∧
    votes_against p = votes_cast (proposal_key cid) false (gs_votes chain_end.2).
Proof.
  split; [by vm_compute|].
  apply (adopted_verdict_is_the_chains held_here stake_name proposal_name chain_end live "p"
           (record ProposalStatus.Activated 9000) Accepted).
  - exact joint_live.
  - by vm_compute.
  - reflexivity.
Defined.

Lemma nodes_never_contradict_witness :
  gn_index live !! "p"%string = Some (record ProposalStatus.Activated 9000) ∧ Accepted = Accepted.
Proof.
  split; [by vm_compute|].
  apply (nodes_never_contradict held_here stake_name proposal_name chain_end chain_end resolved live "p"
           (record ProposalStatus.Accepted 5000) (record ProposalStatus.Activated 9000)).
  - exact joint_resolved.
  - exact joint_live.
  - apply steps_refl.
  - by vm_compute.
  - by vm_compute.
  - reflexivity.
  - reflexivity.
  - reflexivity.
Defined.

Lemma chain_verdict_reaches_node_witness :
  lp_status (record ProposalStatus.Voting 2000) = ProposalStatus.Voting ∧
  ∃ st, chain_outcome st = Some (pr_state accepted_account) ∧
    gn_index (poll_proposal_resolutions 5000 endpoint counted) !! "p"%string =
      Some (record ProposalStatus.Voting 2000 <| lp_status := st |> <| lp_updated_at := 5000 |>).
Proof.
  split; [reflexivity|].
  apply (chain_verdict_reaches_node held_here stake_name proposal_name chain_end counted "p"
           (record ProposalStatus.Voting 2000) 1 accepted_account 255 [] 5000 endpoint).
  - exact joint_counted.
  - by vm_compute.
  - reflexivity.
  - reflexivity.
  - exact accepted_lookup.
  - by vm_compute.
  - exact accepted_sized.
  - by vm_compute.
  - exact hash_set.
  - reflexivity.
Defined.

Lemma counted_votes_are_staked_witness :
  lp_votes (record ProposalStatus.Voting 2000) ≠ [] ∧
  one_vote_each (record ProposalStatus.Voting 2000) ∧
  Forall (vote_backed held_here "p") (lp_votes (record ProposalStatus.Voting 2000)).
Proof.
  split; [discriminate|].
  apply (counted_votes_are_staked held_here stake_name proposal_name chain_end counted "p").
  - exact joint_counted.
  - by vm_compute.
Defined.

Lemma adopted_verdict_is_denied_witness :
  lp_status (record ProposalStatus.Activated 9000) = ProposalStatus.Activated ∧
  proposal_chain_link "p" live = Some ClaimNotReciprocated ∧
  ∃ cid p, Some 1 = Some cid ∧ gs_proposals chain_end.2 !! proposal_key cid = Some p ∧
    compare (record ProposalStatus.Activated 9000) (Some (proposal_read p)) = LinkedDisagreed.
Proof.
  split; [reflexivity|].
  apply (adopted_verdict_is_denied held_here stake_name proposal_name chain_end live "p"
           (record ProposalStatus.Activated 9000) Accepted).
  - exact joint_live.
  - by vm_compute.
  - reflexivity.
  - exact hash_set.
Defined.

(** An endpoint that is down. *)
Definition silent : ChainClient := {|
  send_transaction _ := None;
  get_signature_status _ := None;
  get_account _ := None;
|}.

Lemma vote_queue_drains_witness :
  gn_pending heard ≠ [] ∧
  gn_pending (fold_left (λ n client, poll_vote_verifications client n) (replicate 30 silent) heard) = [].
Proof.
  split; [discriminate|]. apply vote_queue_drains.
  - reflexivity.
  - apply Forall_singleton. cbn. lia.
Defined.
