(* ===== verification/Cid.v ===== *)
(** * Cid: content identifiers

    Models [crates/crypto/src/cid.rs]: the base 32 alphabet, its decoder and
    encoder over a 16-bit buffer, the variable-length integers of the header,
    and the parser every identifier goes through.  A string is its bytes; only
    ASCII is in the alphabet, so a character that is not is refused either way. *)

From Stdlib Require Import Ascii.
From S2P Require Import Prelude Runtime.

(** ** The alphabet *)

(** The value of a character, and the character of a value. *)
Definition base32_value (c : ascii) : option Z :=
  let z := Z.of_N (N_of_ascii c) in
  if decide (97 ≤ z ≤ 122) then Some (z - 97)
  else if decide (50 ≤ z ≤ 55) then Some (z - 50 + 26)
  else None.

Definition base32_char (v : Z) : ascii :=
  ascii_of_N (Z.to_N (if decide (v < 26) then v + 97 else v - 26 + 50)).

Definition as_u8 (z : Z) : Z := z mod 2 ^ 8.
Definition as_u16 (z : Z) : Z := z mod 2 ^ 16.

(** ** Base 32 *)

(** The loop of [base32_lower_decode]: a 16-bit buffer of which the low [bits]
    bits are not yet in the output. *)
Fixpoint decode_loop (input : list ascii) (buffer bits : Z) (out : list Z) : option (Z * Z * list Z) :=
  match input with
  | [] => Some (buffer, bits, out)
  | c :: input =>
      value ← base32_value c;
      let buffer := Z.lor (as_u16 (Z.shiftl buffer 5)) value in
      let bits := bits + 5 in
      if decide (8 ≤ bits) then
        decode_loop input buffer (bits - 8) (out ++ [as_u8 (Z.shiftr buffer (bits - 8))])
      else decode_loop input buffer bits out
  end.

Definition base32_lower_decode (input : list ascii) : option (list Z) :=
  r ← decode_loop input 0 0 [];
  let '(buffer, bits, out) := r in
  if decide (5 ≤ bits ∨ Z.land buffer (Z.shiftl 1 bits - 1) ≠ 0) then None else Some out.

(** The inner loop of [base32_lower_encode]: at most two groups of five bits
    are complete at a time. *)
Fixpoint encode_groups (fuel : nat) (buffer bits : Z) (out : list ascii) : Z * list ascii :=
  match fuel with
  | O => (bits, out)
  | S fuel =>
      if decide (5 ≤ bits) then
        encode_groups fuel buffer (bits - 5)
          (out ++ [base32_char (Z.land (Z.shiftr buffer (bits - 5)) 31)])
      else (bits, out)
  end.

Fixpoint encode_loop (bytes : list Z) (buffer bits : Z) (out : list ascii) : Z * Z * list ascii :=
  match bytes with
  | [] => (buffer, bits, out)
  | byte :: bytes =>
      let buffer := Z.lor (as_u16 (Z.shiftl buffer 8)) byte in
      let '(bits, out) := encode_groups 2 buffer (bits + 8) out in
      encode_loop bytes buffer bits out
  end.

Definition base32_lower_encode (bytes : list Z) : list ascii :=
  let '(buffer, bits, out) := encode_loop bytes 0 0 [] in
  if decide (0 < bits) then out ++ [base32_char (Z.land (as_u16 (Z.shiftl buffer (5 - bits))) 31)] else out.

(** ** The header *)

(** [read_varint]: nine bytes at most, the value in 64 bits. *)
Fixpoint varint_loop (fuel : nat) (index value : Z) (cursor : list Z) : option (Z * list Z) :=
  match fuel with
  | O => None
  | S fuel =>
      match cursor with
      | [] => None
      | byte :: cursor =>
          let value := Z.lor value (Z.shiftl (Z.land byte 127) (index * 7)) in
          if decide (Z.land byte 128 = 0) then Some (value, cursor)
          else varint_loop fuel (index + 1) value cursor
      end
  end.

Definition read_varint (cursor : list Z) : option (Z * list Z) := varint_loop 9 0 0 cursor.

Definition CODEC_RAW : Z := 85.
Definition CODEC_DAG_PB : Z := 112.
Definition HASH_SHA2_256 : Z := 18.
Definition SHA2_256_LEN : Z := 32.

(** The header of a binary identifier, and what is left after it. *)
Definition read_header (bytes : list Z) : option (Z * list Z) :=
  v ← read_varint bytes;
  _ ← guard (v.1 = 1);
  codec ← read_varint v.2;
  _ ← guard (codec.1 = CODEC_RAW ∨ codec.1 = CODEC_DAG_PB);
  hash ← read_varint codec.2;
  _ ← guard (hash.1 = HASH_SHA2_256);
  len ← read_varint hash.2;
  _ ← guard (len.1 = SHA2_256_LEN);
  Some (codec.1, len.2).

Module Cid.
(** A [Cid] keeps the string it was parsed from. *)
Definition parse (input : list ascii) : option (list ascii) :=
  match input with
  | c :: rest =>
      _ ← guard (c = "b"%char);
      bytes ← base32_lower_decode rest;
      h ← read_header bytes;
      _ ← guard (Z.of_nat (length h.2) = SHA2_256_LEN);
      Some input
  | [] => None
  end.

Definition to_binary (cid : list ascii) : option (list Z) := base32_lower_decode (tail cid).

Definition is_verifiable (cid : list ascii) : option bool :=
  bytes ← to_binary cid;
  v ← read_varint bytes;
  codec ← read_varint v.2;
  Some (bool_decide (codec.1 = CODEC_RAW)).

(** Skip the first varints of a binary identifier. *)
Fixpoint skip_varints (n : nat) (cursor : list Z) : option (list Z) :=
  match n with O => Some cursor | S n => r ← read_varint cursor; skip_varints n r.2 end.

Definition digest (cid : list ascii) : option (list Z) := bytes ← to_binary cid; skip_varints 4 bytes.

Definition multihash (cid : list ascii) : option (list Z) := bytes ← to_binary cid; skip_varints 2 bytes.

Definition prefix (cid : list ascii) : option (list Z) :=
  bytes ← to_binary cid; Some (take (length bytes - 32) bytes).

Definition from_binary (bytes : list Z) : option (list ascii) := parse ("b"%char :: base32_lower_encode bytes).

Definition matches `{Hashing} (cid : list ascii) (content : list Z) : bool :=
  bool_decide (digest cid = Some (sha256 content)).
End Cid.

(** ** Bits, most significant first *)

Fixpoint bits_of (n : nat) (z : Z) : list bool :=
  match n with O => [] | S n => Z.testbit z (Z.of_nat n) :: bits_of n z end.

Lemma bits_of_length n z : length (bits_of n z) = n.
Proof. induction n; simpl; congruence. Qed.

Lemma bits_of_ext n z z' :
  (∀ i, 0 ≤ i < Z.of_nat n → Z.testbit z i = Z.testbit z' i) → bits_of n z = bits_of n z'.
Proof.
  induction n as [|n IH]; intros Hz; [done|]. cbn [bits_of]. f_equal; [apply Hz; lia|].
  apply IH. intros i Hi. apply Hz. lia.
Qed.

Lemma bits_of_testbit n z z' i :
  bits_of n z = bits_of n z' → 0 ≤ i < Z.of_nat n → Z.testbit z i = Z.testbit z' i.
Proof.
  induction n as [|n IH]; intros Hb Hi; [lia|]. cbn [bits_of] in Hb. injection Hb as Htop Hb.
  destruct (decide (i = Z.of_nat n)) as [->|]; [done|]. apply IH; [done|lia].
Qed.

Lemma testbit_high n z i : 0 ≤ z < 2 ^ n → 0 ≤ n ≤ i → Z.testbit z i = false.
Proof.
  intros Hz Hi. destruct (decide (z = 0)) as [->|]; [apply Z.bits_0|].
  apply Z.bits_above_log2; [lia|]. apply Z.log2_lt_pow2; [lia|].
  eapply Z.lt_le_trans; [apply Hz|]. apply Z.pow_le_mono_r; lia.
Qed.

Lemma bits_of_inj n z z' :
  0 ≤ z < 2 ^ Z.of_nat n → 0 ≤ z' < 2 ^ Z.of_nat n → bits_of n z = bits_of n z' → z = z'.
Proof.
  intros Hz Hz' Hb. apply Z.bits_inj'. intros i Hi. destruct (decide (i < Z.of_nat n)).
  - by eapply bits_of_testbit.
  - rewrite !(testbit_high (Z.of_nat n)) by lia. done.
Qed.

Lemma bits_of_app n m z : bits_of (n + m) z = bits_of n (Z.shiftr z (Z.of_nat m)) ++ bits_of m z.
Proof.
  induction n as [|n IH]; [done|]. cbn [Nat.add bits_of app]. f_equal; [|done].
  rewrite Z.shiftr_spec by lia. f_equal. lia.
Qed.

Lemma bits_of_zero n : bits_of n 0 = replicate n false.
Proof. induction n as [|n IH]; [done|]. cbn [bits_of replicate]. by rewrite Z.bits_0, IH. Qed.

(** The bits of a sequence of groups. *)
Definition bits_of_list (n : nat) (l : list Z) : list bool := concat (bits_of n <$> l).

Lemma bits_of_list_app n l k : bits_of_list n (l ++ k) = bits_of_list n l ++ bits_of_list n k.
Proof. unfold bits_of_list. by rewrite fmap_app, concat_app. Qed.

Lemma bits_of_list_length n l : length (bits_of_list n l) = (n * length l)%nat.
Proof.
  unfold bits_of_list. induction l as [|z l IH]; cbn; [lia|]. rewrite length_app, bits_of_length, IH. lia.
Qed.

Lemma bits_of_list_inj n l k :
  n ≠ O → Forall (λ z, 0 ≤ z < 2 ^ Z.of_nat n) l → Forall (λ z, 0 ≤ z < 2 ^ Z.of_nat n) k →
  bits_of_list n l = bits_of_list n k → l = k.
Proof.
  intros Hn Hl. revert k. induction Hl as [|z l Hz Hl IH]; intros k Hk Hb.
  - destruct k as [|y k]; [done|]. apply (f_equal length) in Hb. rewrite !bits_of_list_length in Hb. cbn in Hb. lia.
  - destruct k as [|y k]. { apply (f_equal length) in Hb. rewrite !bits_of_list_length in Hb. cbn in Hb. lia. }
    apply Forall_cons in Hk as [Hy Hk]. unfold bits_of_list in Hb. cbn in Hb.
    apply app_inj_1 in Hb as [Hzy Hb]; [|by rewrite !bits_of_length].
    f_equal; [by eapply bits_of_inj|]. by apply IH.
Qed.

(** ** The buffer *)

(** Pushing [m] bits into the buffer, while fewer than 16 are pending. *)
Lemma push_bits n m buffer v :
  (n + m ≤ 16)%nat → 0 ≤ v < 2 ^ Z.of_nat m →
  bits_of (n + m) (Z.lor (as_u16 (Z.shiftl buffer (Z.of_nat m))) v) = bits_of n buffer ++ bits_of m v.
Proof.
  intros Hnm Hv. rewrite bits_of_app. f_equal; apply bits_of_ext; intros i Hi; unfold as_u16.
  - rewrite Z.shiftr_spec, Z.lor_spec by lia. rewrite (testbit_high (Z.of_nat m) v) by lia.
    rewrite Z.mod_pow2_bits_low, Z.shiftl_spec, orb_false_r by lia. f_equal. lia.
  - rewrite Z.lor_spec, Z.mod_pow2_bits_low, Z.shiftl_spec, Z.testbit_neg_r by lia. done.
Qed.

(** Taking the first [m] of the pending bits. *)
Lemma take_bits n m buffer :
  bits_of (m + n) buffer = bits_of m (Z.shiftr buffer (Z.of_nat n) mod 2 ^ Z.of_nat m) ++ bits_of n buffer.
Proof.
  rewrite bits_of_app. f_equal. apply bits_of_ext. intros i Hi. by rewrite Z.mod_pow2_bits_low by lia.
Qed.

Lemma land_ones_mod z n : 0 ≤ n → Z.land z (Z.shiftl 1 n - 1) = z mod 2 ^ n.
Proof. intros Hn. rewrite Z.shiftl_1_l, <-Z.land_ones by done. f_equal. rewrite Z.ones_equiv. lia. Qed.

(** ** The alphabet *)

Lemma base32_value_range c v : base32_value c = Some v → 0 ≤ v < 2 ^ Z.of_nat 5.
Proof. unfold base32_value. repeat case_decide; intros; simplify_eq; cbn; lia. Qed.

Lemma base32_value_char v : 0 ≤ v < 32 → base32_value (base32_char v) = Some v.
Proof.
  intros Hv. unfold base32_value, base32_char. rewrite N_ascii_embedding by (case_decide; lia).
  rewrite Z2N.id by (case_decide; lia). destruct (decide (v < 26)).
  - rewrite decide_True by lia. f_equal. lia.
  - rewrite decide_False, decide_True by lia. f_equal. lia.
Qed.

Lemma base32_char_value c v : base32_value c = Some v → base32_char v = c.
Proof.
  unfold base32_value, base32_char. pose proof (N_ascii_bounded c) as Hc.
  repeat case_decide; intros; simplify_eq; try lia;
    (transitivity (ascii_of_N (N_of_ascii c)); [f_equal; lia|apply ascii_N_embedding]).
Qed.

(** ** What the loops compute *)

(** The decoder moves bits from the input to the output and the buffer. *)
Lemma decode_loop_bits input buffer bits out vs :
  mapM base32_value input = Some vs → (bits < 8)%nat → Forall byte out →
  ∃ buffer' bits' out', decode_loop input buffer (Z.of_nat bits) out = Some (buffer', Z.of_nat bits', out') ∧
    (bits' < 8)%nat ∧ Forall byte out' ∧
    bits_of_list 8 out ++ bits_of bits buffer ++ bits_of_list 5 vs = bits_of_list 8 out' ++ bits_of bits' buffer'.
Proof.
  revert buffer bits out vs. induction input as [|c input IH]; intros buffer bits out vs Hvs Hbits Hout.
  - injection Hvs as <-. exists buffer, bits, out. by rewrite app_nil_r.
  - apply mapM_Some in Hvs. apply Forall2_cons_inv_l in Hvs as (v & vs' & Hv & Hvs & ->).
    cbn [decode_loop]. rewrite Hv. cbn [mbind option_bind].
    set (b' := Z.lor (as_u16 (Z.shiftl buffer 5)) v).
    assert (bits_of (bits + 5) b' = bits_of bits buffer ++ bits_of 5 v) as Hpush
      by (apply push_bits; [lia|by eapply base32_value_range]).
    apply mapM_Some in Hvs. case_decide as H8.
    + replace (Z.of_nat bits + 5 - 8) with (Z.of_nat (bits + 5 - 8)) by lia.
      destruct (IH b' (bits + 5 - 8)%nat (out ++ [as_u8 (Z.shiftr b' (Z.of_nat (bits + 5 - 8)))]) vs')
        as (b2 & n2 & o2 & Hrun & Hn2 & Ho2 & Heq); [done|lia| |].
      { apply Forall_app. split; [done|]. apply Forall_singleton. unfold byte, as_u8. apply Z.mod_pos_bound. lia. }
      exists b2, n2, o2. split_and!; [done..|]. rewrite <-Heq, bits_of_list_app, <-!app_assoc. f_equal.
      change (bits_of_list 5 (v :: vs')) with (bits_of 5 v ++ bits_of_list 5 vs'). rewrite (app_assoc (bits_of bits buffer)), <-Hpush.
      replace (bits + 5)%nat with (8 + (bits + 5 - 8))%nat at 1 by lia. by rewrite take_bits, <-app_assoc.
    + replace (Z.of_nat bits + 5) with (Z.of_nat (bits + 5)) by lia.
      destruct (IH b' (bits + 5)%nat out vs') as (b2 & n2 & o2 & Hrun & Hn2 & Ho2 & Heq); [done|lia|done|].
      exists b2, n2, o2. split_and!; [done..|]. rewrite <-Heq. f_equal.
      change (bits_of_list 5 (v :: vs')) with (bits_of 5 v ++ bits_of_list 5 vs'). by rewrite app_assoc, <-Hpush.
Qed.

Lemma decode_loop_None input buffer bits out :
  mapM base32_value input = None → decode_loop input buffer bits out = None.
Proof.
  revert buffer bits out. induction input as [|c input IH]; intros buffer bits out Hvs; [done|].
  cbn in Hvs |- *. destruct (base32_value c) as [v|]; [|done]. cbn in *.
  destruct (mapM base32_value input); [done|]. case_decide; by apply IH.
Qed.

Lemma bits_of_false n z : bits_of n z = replicate n false ↔ z mod 2 ^ Z.of_nat n = 0.
Proof.
  rewrite <-bits_of_zero. split.
  - intros Hb. apply (bits_of_inj n); [apply Z.mod_pos_bound; lia|lia|]. rewrite <-Hb.
    apply bits_of_ext. intros i Hi. apply Z.mod_pow2_bits_low. lia.
  - intros Hz. apply bits_of_ext. intros i Hi. rewrite <-Hz. symmetry. apply Z.mod_pow2_bits_low. lia.
Qed.

(** A string decodes to the bytes with the same bits, up to fewer than five
    zeros. *)
Definition same_bits (vs bytes : list Z) : Prop :=
  ∃ r, (r < 5)%nat ∧ bits_of_list 5 vs = bits_of_list 8 bytes ++ replicate r false.

Lemma decode_spec input bytes :
  base32_lower_decode input = Some bytes ↔
  ∃ vs, mapM base32_value input = Some vs ∧ Forall byte bytes ∧ same_bits vs bytes.
Proof.
  unfold base32_lower_decode. destruct (mapM base32_value input) as [vs|] eqn:Hvs.
  2: { rewrite decode_loop_None by done. naive_solver. }
  destruct (decode_loop_bits input 0 0 [] vs) as (buffer & bits & out & Hrun & Hbits & Hout & Heq); [done|lia|done|].
  change (decode_loop input 0 0 []) with (decode_loop input 0 (Z.of_nat 0) []). rewrite Hrun.
  cbn [mbind option_bind]. cbn [app bits_of_list concat fmap list_fmap bits_of] in Heq.
  rewrite land_ones_mod by lia. split.
  - case_decide as Hpad; intros; simplify_eq. exists vs. split_and!; [done..|]. exists bits.
    split; [lia|]. rewrite Heq. f_equal. apply bits_of_false. destruct (decide (buffer mod 2 ^ Z.of_nat bits = 0)); tauto.
  - intros (? & [= <-] & Hb & r & Hr & Hbits'). pose proof Hbits' as Hlen. rewrite Heq in Hlen.
    apply (f_equal length) in Hlen. rewrite !length_app, !bits_of_list_length, bits_of_length, length_replicate in Hlen.
    rewrite Heq in Hbits'. apply app_inj_1 in Hbits' as [Hob Hz]; [|rewrite !bits_of_list_length; lia].
    assert (bits = r) as -> by lia. apply bits_of_list_inj in Hob; [|done..]. apply bits_of_false in Hz.
    rewrite decide_False; [by rewrite Hob|]. intros [?|?]; [lia|done].
Qed.

Lemma land_31 z : Z.land z 31 = z mod 2 ^ Z.of_nat 5.
Proof. change 31 with (Z.ones 5). by apply Z.land_ones. Qed.

Lemma five_bits z : 0 ≤ z mod 2 ^ Z.of_nat 5 < 2 ^ Z.of_nat 5.
Proof. apply Z.mod_pos_bound. lia. Qed.

Lemma encode_groups_bits fuel buffer bits vs :
  (bits < 5 * fuel + 5)%nat → Forall (λ z, 0 ≤ z < 2 ^ Z.of_nat 5) vs →
  ∃ bits' vs', encode_groups fuel buffer (Z.of_nat bits) (base32_char <$> vs) =
      (Z.of_nat bits', base32_char <$> vs') ∧
    (bits' < 5)%nat ∧ Forall (λ z, 0 ≤ z < 2 ^ Z.of_nat 5) vs' ∧
    bits_of_list 5 vs ++ bits_of bits buffer = bits_of_list 5 vs' ++ bits_of bits' buffer.
Proof.
  revert bits vs. induction fuel as [|fuel IH]; intros bits vs Hbits Hvs; cbn [encode_groups].
  { exists bits, vs. split_and!; (done || lia). }
  case_decide as H5; [|exists bits, vs; split_and!; (done || lia)].
  replace (Z.of_nat bits - 5) with (Z.of_nat (bits - 5)) by lia. rewrite land_31.
  set (v := Z.shiftr buffer (Z.of_nat (bits - 5)) mod 2 ^ Z.of_nat 5).
  destruct (IH (bits - 5)%nat (vs ++ [v])) as (b' & vs' & Hrun & Hb' & Hvs' & Heq); [lia| |].
  { apply Forall_app. split; [done|]. apply Forall_singleton, five_bits. }
  exists b', vs'. rewrite fmap_app in Hrun. split_and!; [done..|]. rewrite <-Heq, bits_of_list_app, <-app_assoc.
  f_equal. replace bits with (5 + (bits - 5))%nat at 1 by lia. by rewrite take_bits.
Qed.

Lemma encode_loop_bits bytes buffer bits vs :
  Forall byte bytes → (bits < 5)%nat → Forall (λ z, 0 ≤ z < 2 ^ Z.of_nat 5) vs →
  ∃ buffer' bits' vs', encode_loop bytes buffer (Z.of_nat bits) (base32_char <$> vs) =
      (buffer', Z.of_nat bits', base32_char <$> vs') ∧
    (bits' < 5)%nat ∧ Forall (λ z, 0 ≤ z < 2 ^ Z.of_nat 5) vs' ∧
    bits_of_list 5 vs ++ bits_of bits buffer ++ bits_of_list 8 bytes = bits_of_list 5 vs' ++ bits_of bits' buffer'.
Proof.
  intros Hbytes. revert buffer bits vs. induction Hbytes as [|b bytes Hb Hbytes IH]; intros buffer bits vs Hbits Hvs.
  { exists buffer, bits, vs. by rewrite app_nil_r. }
  cbn [encode_loop]. set (b' := Z.lor (as_u16 (Z.shiftl buffer 8)) b).
  assert (bits_of (bits + 8) b' = bits_of bits buffer ++ bits_of 8 b) as Hpush by (apply push_bits; [lia|exact Hb]).
  replace (Z.of_nat bits + 8) with (Z.of_nat (bits + 8)) by lia.
  destruct (encode_groups_bits 2 b' (bits + 8) vs) as (n1 & vs1 & -> & Hn1 & Hvs1 & Heq1); [lia|done|].
  destruct (IH b' n1 vs1) as (b2 & n2 & vs2 & -> & Hn2 & Hvs2 & Heq2); [done..|].
  exists b2, n2, vs2. split_and!; [done..|]. rewrite <-Heq2, (app_assoc (bits_of_list 5 vs1)), <-Heq1, Hpush.
  by rewrite <-!app_assoc.
Qed.

Lemma encode_spec bytes :
  Forall byte bytes →
  ∃ vs, base32_lower_encode bytes = base32_char <$> vs ∧ Forall (λ z, 0 ≤ z < 2 ^ Z.of_nat 5) vs ∧ same_bits vs bytes.
Proof.
  intros Hb. unfold base32_lower_encode.
  destruct (encode_loop_bits bytes 0 0 []) as (buffer & bits & vs & Hrun & Hbits & Hvs & Heq); [done|lia|done|].
  change (encode_loop bytes 0 0 []) with (encode_loop bytes 0 (Z.of_nat 0) (base32_char <$> [])).
  rewrite Hrun. cbn [app bits_of_list concat fmap list_fmap bits_of] in Heq. case_decide as Hpad.
  - rewrite land_31. set (x := as_u16 (Z.shiftl buffer (5 - Z.of_nat bits))).
    exists (vs ++ [x mod 2 ^ Z.of_nat 5]). split_and!.
    + by rewrite fmap_app.
    + apply Forall_app. split; [done|]. apply Forall_singleton, five_bits.
    + exists (5 - bits)%nat. split; [lia|]. rewrite bits_of_list_app, Heq, <-app_assoc. f_equal.
      unfold bits_of_list. cbn [fmap list_fmap concat]. rewrite app_nil_r, <-bits_of_zero.
      pose proof (push_bits bits (5 - bits) buffer 0 ltac:(lia) ltac:(split; [lia|apply Z.pow_pos_nonneg; lia])) as Hpush.
      rewrite <-Hpush, Z.lor_0_r. replace (bits + (5 - bits))%nat with 5%nat by lia.
      replace (Z.of_nat (5 - bits)) with (5 - Z.of_nat bits) by lia. fold x.
      apply bits_of_ext. intros i Hi. by rewrite Z.mod_pow2_bits_low by lia.
  - exists vs. split_and!; [done..|]. exists 0%nat. split; [lia|]. assert (bits = 0)%nat as -> by lia.
    rewrite Heq. cbn [bits_of replicate]. by rewrite !app_nil_r.
Qed.

(** ** Encoding and decoding *)

Lemma same_bits_inj vs vs' bytes :
  Forall (λ z, 0 ≤ z < 2 ^ Z.of_nat 5) vs → Forall (λ z, 0 ≤ z < 2 ^ Z.of_nat 5) vs' →
  same_bits vs bytes → same_bits vs' bytes → vs = vs'.
Proof.
  intros Hvs Hvs' (r & Hr & Hb) (r' & Hr' & Hb'). apply (bits_of_list_inj 5); [done..|]. rewrite Hb, Hb'. f_equal.
  apply (f_equal length) in Hb, Hb'. rewrite length_app, !bits_of_list_length, length_replicate in Hb, Hb'.
  f_equal. lia.
Qed.

Lemma values_range input vs :
  mapM base32_value input = Some vs → Forall (λ z, 0 ≤ z < 2 ^ Z.of_nat 5) vs ∧ base32_char <$> vs = input.
Proof.
  intros Hvs%mapM_Some. induction Hvs as [|c v input vs Hv Hvs [IH1 IH2]]; [done|]. split.
  - apply Forall_cons. split; [by eapply base32_value_range|done].
  - cbn. f_equal; [by apply base32_char_value|done].
Qed.

Lemma values_of_chars vs :
  Forall (λ z, 0 ≤ z < 2 ^ Z.of_nat 5) vs → mapM base32_value (base32_char <$> vs) = Some vs.
Proof.
  intros Hvs. apply mapM_Some. induction Hvs; cbn; [constructor|]. constructor; [by apply base32_value_char|done].
Qed.

Lemma decode_encode bytes : Forall byte bytes → base32_lower_decode (base32_lower_encode bytes) = Some bytes.
Proof.
  intros Hb. destruct (encode_spec bytes Hb) as (vs & -> & Hvs & Hsame). apply decode_spec. exists vs.
  split; [by apply values_of_chars|done].
Qed.

Lemma encode_decode input bytes :
  base32_lower_decode input = Some bytes → Forall byte bytes ∧ base32_lower_encode bytes = input.
Proof.
  intros (vs & Hvs & Hb & Hsame)%decode_spec. split; [done|].
  destruct (encode_spec bytes Hb) as (vs' & -> & Hvs' & Hsame'). destruct (values_range _ _ Hvs) as [Hr <-].
  f_equal. by eapply same_bits_inj.
Qed.

(** ** The header *)

#[local] Arguments read_varint : simpl never.

Lemma varint_suffix fuel index value cursor v rest :
  varint_loop fuel index value cursor = Some (v, rest) → ∃ p, cursor = p ++ rest.
Proof.
  revert index value cursor. induction fuel as [|fuel IH]; intros index value cursor Hrun; [done|].
  destruct cursor as [|b cursor]; [done|]. cbn in Hrun. case_decide.
  - injection Hrun as _ <-. by exists [b].
  - apply IH in Hrun as (p & ->). by exists (b :: p).
Qed.

Lemma read_header_spec bytes codec rest :
  read_header bytes = Some (codec, rest) →
  Cid.skip_varints 4 bytes = Some rest ∧ ∃ p, bytes = p ++ rest.
Proof.
  unfold read_header. intros Hrun.
  destruct (read_varint bytes) as [[v1 r1]|] eqn:Hr1; [|done]. cbn in Hrun. case_guard; [|done]. cbn in Hrun.
  destruct (read_varint r1) as [[v2 r2]|] eqn:Hr2; [|done]. cbn in Hrun. case_guard; [|done]. cbn in Hrun.
  destruct (read_varint r2) as [[v3 r3]|] eqn:Hr3; [|done]. cbn in Hrun. case_guard; [|done]. cbn in Hrun.
  destruct (read_varint r3) as [[v4 r4]|] eqn:Hr4; [|done]. cbn in Hrun. case_guard; simplify_eq/=.
  split; [cbn; by rewrite Hr1; cbn; rewrite Hr2; cbn; rewrite Hr3; cbn; rewrite Hr4|].
  apply varint_suffix in Hr1 as (p1 & ->), Hr2 as (p2 & ->), Hr3 as (p3 & ->), Hr4 as (p4 & ->).
  exists (p1 ++ p2 ++ p3 ++ p4). by rewrite <-!app_assoc.
Qed.

Lemma parse_Some s c :
  Cid.parse s = Some c →
  c = s ∧ ∃ rest bytes codec d, s = "b"%char :: rest ∧ base32_lower_decode rest = Some bytes ∧
    read_header bytes = Some (codec, d) ∧ length d = 32%nat.
Proof.
  destruct s as [|ch rest]; [done|]. cbn. case_guard; [|done]. cbn. subst ch. intros Hrun.
  destruct (base32_lower_decode rest) as [bytes|] eqn:Hd; [|done]. cbn in Hrun.
  destruct (read_header bytes) as [[codec d]|] eqn:Hh; [|done]. cbn in Hrun. case_guard as Hlen; simplify_eq/=.
  split; [done|]. exists rest, bytes, codec, d. split_and!; [done..|]. unfold SHA2_256_LEN in Hlen. lia.
Qed.

Lemma parse_binary bytes codec d :
  Forall byte bytes → read_header bytes = Some (codec, d) → length d = 32%nat →
  Cid.from_binary bytes = Some ("b"%char :: base32_lower_encode bytes).
Proof.
  intros Hb Hh Hd. unfold Cid.from_binary. cbn. rewrite decode_encode by done. cbn. rewrite Hh. cbn.
  rewrite Hd. done.
Qed.

(** ** Theorems *)

(** An identifier is its bytes.  What the parser accepts is written in the
    thirty-two characters of the alphabet, has a binary form, an expected digest
    of thirty-two bytes and a prefix that together are that form, and is the one
    string the binary form spells; none of the readers of a parsed identifier
    panics. *)
Theorem cid_roundtrip s c :
  Cid.parse s = Some c →
  c = s ∧ Forall (λ ch, is_Some (base32_value ch)) s ∧
  ∃ bytes p d, Cid.to_binary c = Some bytes ∧ Cid.prefix c = Some p ∧ Cid.digest c = Some d ∧
    bytes = p ++ d ∧ length d = 32%nat ∧ is_Some (Cid.multihash c) ∧ is_Some (Cid.is_verifiable c) ∧
    Cid.from_binary bytes = Some c.
Proof.
  intros (-> & rest & bytes & codec & d & -> & Hdec & Hh & Hd)%parse_Some. split; [done|].
  destruct (encode_decode _ _ Hdec) as [Hb Henc]. destruct (read_header_spec _ _ _ Hh) as [Hskip (p & Hp)]. split.
  - apply Forall_cons. split; [by eexists|]. apply decode_spec in Hdec as (vs & Hvs & _).
    apply mapM_Some in Hvs. clear -Hvs. induction Hvs; constructor; [by eexists|done].
  - exists bytes, p, d. unfold Cid.prefix, Cid.digest, Cid.multihash, Cid.is_verifiable, Cid.to_binary. cbn [tail].
    rewrite Hdec. cbn [mbind option_bind]. split_and!; [done| |done..| | |].
    + subst bytes. rewrite length_app, Hd. f_equal. apply take_app_length'. lia.
    + cbn in Hskip |- *. destruct (read_varint bytes) as [[? r]|]; [|done]. cbn in *.
      destruct (read_varint r); [|done]. by eexists.
    + cbn in Hskip |- *. destruct (read_varint bytes) as [[? r]|]; [|done]. cbn in *.
      destruct (read_varint r); [|done]. by eexists.
    + by rewrite (parse_binary _ codec d), Henc.
Qed.

(** Base 32 is a bijection.  Every byte string has a spelling that decodes to
    it, and every string that decodes is the spelling of what it decodes to; the
    sixteen-bit buffer loses nothing. *)
Theorem base32_bijection :
  (∀ bytes, Forall byte bytes → base32_lower_decode (base32_lower_encode bytes) = Some bytes) ∧
  (∀ input bytes, base32_lower_decode input = Some bytes →
     Forall byte bytes ∧ base32_lower_encode bytes = input).
Proof. split; [apply decode_encode|apply encode_decode]. Qed.

(** The same content has two identifiers.  A header integer may carry a
    redundant continuation byte, so for every codec and digest there are two
    different strings that both parse, name the same codec and have the same
    digest. *)
Theorem content_has_two_spellings codec d :
  codec = CODEC_RAW ∨ codec = CODEC_DAG_PB → length d = 32%nat → Forall byte d →
  ∃ c c', Cid.parse c = Some c ∧ Cid.parse c' = Some c' ∧ c ≠ c' ∧
    Cid.digest c = Some d ∧ Cid.digest c' = Some d ∧ Cid.is_verifiable c = Cid.is_verifiable c'.
Proof.
  intros Hcodec Hd Hb. set (short := [1; codec; 18; 32] ++ d). set (long := [129; 0; codec; 18; 32] ++ d).
  assert (Forall byte short ∧ Forall byte long) as [Hs Hl].
  { unfold short, long. destruct Hcodec as [-> | ->];
      split; apply Forall_app; (split; [|done]); apply (bool_decide_unpack _); by vm_compute. }
  assert (read_header short = Some (codec, d) ∧ read_header long = Some (codec, d)) as [Hhs Hhl]
    by (destruct Hcodec as [-> | ->]; split; reflexivity).
  exists ("b"%char :: base32_lower_encode short), ("b"%char :: base32_lower_encode long).
  split_and!.
  - by eapply parse_binary.
  - by eapply parse_binary.
  - intros [= Heq]. apply (f_equal base32_lower_decode) in Heq. rewrite !decode_encode in Heq by done. discriminate.
  - unfold Cid.digest, Cid.to_binary. cbn [tail]. rewrite decode_encode by done. by apply read_header_spec in Hhs as [? _].
  - unfold Cid.digest, Cid.to_binary. cbn [tail]. rewrite decode_encode by done. by apply read_header_spec in Hhl as [? _].
  - unfold Cid.is_verifiable, Cid.to_binary. cbn [tail]. rewrite !decode_encode by done.
    by destruct Hcodec as [-> | ->].
Qed.

(** ** Witnesses *)

Definition sample : list ascii := "b"%char :: base32_lower_encode ([1; 85; 18; 32] ++ replicate 32 7).

Lemma cid_roundtrip_witness :
  Cid.parse sample = Some sample ∧
  ∃ bytes p d, Cid.to_binary sample = Some bytes ∧ Cid.prefix sample = Some p ∧ Cid.digest sample = Some d ∧
    bytes = p ++ d ∧ length d = 32%nat ∧ is_Some (Cid.multihash sample) ∧ is_Some (Cid.is_verifiable sample) ∧
    Cid.from_binary bytes = Some sample.
Proof. split; [by vm_compute|]. apply (cid_roundtrip sample sample). by vm_compute. Defined.

Lemma content_has_two_spellings_witness :
  length (replicate 32 7) = 32%nat ∧
  ∃ c c', Cid.parse c = Some c ∧ Cid.parse c' = Some c' ∧ c ≠ c' ∧
    Cid.digest c = Some (replicate 32 7) ∧ Cid.digest c' = Some (replicate 32 7) ∧
    Cid.is_verifiable c = Cid.is_verifiable c'.
Proof.
  split; [reflexivity|]. apply (content_has_two_spellings CODEC_RAW).
  - by left.
  - reflexivity.
  - apply (bool_decide_unpack _). by vm_compute.
Defined.
