(* ===== verification/Identity.v ===== *)
(** * Identity: what a wallet says of itself

    Models [crates/identity/src/record.rs] and [store.rs]: the index of signed
    claims, the cap on live claims, the sweep that forgets dead ones, and the
    key others seal to.  Whether a string is an X25519 key worth sealing to is
    the curve's arithmetic and is a parameter; whether one is a content
    identifier is [Cid.parse]. *)

From stdpp Require Import sorting.
From Stdlib Require Import Ascii.
From S2P Require Import Prelude Runtime Peers Pricing Statements Cid MarketState.
Import Ident.

Module IdentityError.
Inductive IdentityError :=
  | InvalidSignature | Unauthorized | DuplicateClaimId | MalformedClaim | ClaimNotFound
  | InvalidClaimState | TooManyClaims.
End IdentityError.
Import IdentityError.

Inductive VerificationStatus := Unverified | SelfAttested.

Record Claim := mkClaim {
  cl_id : string;
  cl_wallet : PeerId;
  cl_wallet_public_key : PublicKey;
  cl_claim_type : ClaimType;
  cl_value : string;
  cl_verification_status : VerificationStatus;
  cl_supersedes : option string;
  cl_expires_at : option Timestamp;
  cl_revoked : bool;
  cl_created_at : Timestamp;
  cl_updated_at : Timestamp;
}.
#[export] Instance Claim_eta : Settable Claim := fun r =>
  mkClaim (cl_id r) (cl_wallet r) (cl_wallet_public_key r) (cl_claim_type r) (cl_value r)
    (cl_verification_status r) (cl_supersedes r) (cl_expires_at r) (cl_revoked r) (cl_created_at r)
    (cl_updated_at r).

Abbreviation claims := (gmap string Claim).
Abbreviation id_result := (result IdentityError).

Definition MAX_CLAIMS_PER_WALLET : nat := 64.
(** Seven days, in milliseconds. *)
Definition CLAIM_RETENTION : Z := 7 * 24 * 60 * 60 * 1000.

(** [EncryptionPublicKey::parse]. *)
Class KeyParser := encryption_key_parse : string → option (list Z).

Definition is_valid (now : Timestamp) (c : Claim) : Prop :=
  cl_revoked c = false ∧ match cl_expires_at c with None => True | Some expiry => now < expiry end.
#[export] Instance is_valid_dec now c : Decision (is_valid now c).
Proof. unfold is_valid. destruct (cl_expires_at c); apply _. Defined.

(** The claims in the order the store iterates them, which is the order of
    their keys. *)
Definition all_claims (m : claims) : list Claim := (merge_sort key_le (map_to_list m)).*2.

Definition find_by_wallet (wallet : PeerId) (m : claims) : list Claim :=
  filter (λ c, cl_wallet c = wallet) (all_claims m).

(** The claims some claim of a list replaces. *)
Definition superseded (cs : list Claim) : gset string := list_to_set (omap cl_supersedes cs).

Definition live_claim_ids (wallet : PeerId) (now : Timestamp) (m : claims) : gset string :=
  let cs := find_by_wallet wallet m in
  list_to_set (cl_id <$> filter (λ c, is_valid now c ∧ cl_id c ∉ superseded cs) cs).

(** The last of the elements with the greatest key. *)
Fixpoint max_by_key {A} (f : A → Z) (l : list A) (best : option A) : option A :=
  match l with
  | [] => best
  | a :: l =>
      max_by_key f l (match best with
                      | Some b => if decide (f b ≤ f a) then Some a else Some b
                      | None => Some a
                      end)
  end.

Section identity.
Context `{Wire} `{KeyParser}.
Implicit Types (m : claims) (now : Timestamp) (c : Claim).

Definition accepts (t : ClaimType) (value : string) : bool :=
  match t with
  | Avatar => bool_decide (is_Some (Cid.parse (String.list_ascii_of_string value)))
  | EncryptionKey => bool_decide (is_Some (encryption_key_parse value))
  | _ => true
  end.

Definition current_encryption_key (cs : list Claim) now : option (list Z) :=
  c ← max_by_key cl_created_at
        (filter (λ c, cl_claim_type c = EncryptionKey ∧ is_valid now c ∧ cl_id c ∉ superseded cs) cs) None;
  encryption_key_parse (cl_value c).

Definition encryption_key (wallet : PeerId) now m : option (list Z) :=
  current_encryption_key (find_by_wallet wallet m) now.

Definition put_claim m c : claims := <[cl_id c := c]> m.

Definition apply_publish now (x : signed ClaimPublish) m : id_result claims :=
  let p := payload x in
  _ ← verify_self MalformedClaim InvalidSignature Unauthorized (cp_wallet_public_key p) (cp_wallet p)
        (StClaimPublish p) (signature x);
  _ ← require (m !! cp_id p = None) (Code DuplicateClaimId);
  _ ← require (accepts (cp_claim_type p) (cp_value p) = true) (Code MalformedClaim);
  let live := live_claim_ids (cp_wallet p) now m in
  let is_genuine_supersede := match cp_supersedes p with Some target => bool_decide (target ∈ live) | None => false end in
  _ ← require (¬ (is_genuine_supersede = false ∧ (MAX_CLAIMS_PER_WALLET ≤ size live)%nat)) (Code TooManyClaims);
  Ok (put_claim m
        (mkClaim (cp_id p) (cp_wallet p) (cp_wallet_public_key p) (cp_claim_type p) (cp_value p)
           (if cp_verified p then SelfAttested else Unverified) (cp_supersedes p) (cp_expires_at p) false
           (cp_timestamp p) (cp_timestamp p))).

Definition apply_verify (x : signed ClaimVerify) m : id_result claims :=
  let v := payload x in
  c ← ok_or (m !! cy_claim_id v) (Code ClaimNotFound);
  _ ← require (cl_wallet c = cy_wallet v) (Code Unauthorized);
  _ ← check_signature MalformedClaim InvalidSignature (cl_wallet_public_key c) (StClaimVerify v) (signature x);
  _ ← require (cl_revoked c = false) (Code InvalidClaimState);
  Ok (put_claim m (c <| cl_verification_status := SelfAttested |> <| cl_updated_at := cy_timestamp v |>)).

Definition apply_revoke (x : signed ClaimRevoke) m : id_result claims :=
  let r := payload x in
  c ← ok_or (m !! ck_claim_id r) (Code ClaimNotFound);
  _ ← require (cl_wallet c = ck_wallet r) (Code Unauthorized);
  _ ← check_signature MalformedClaim InvalidSignature (cl_wallet_public_key c) (StClaimRevoke r) (signature x);
  _ ← require (cl_revoked c = false) (Code InvalidClaimState);
  Ok (put_claim m (c <| cl_revoked := true |> <| cl_updated_at := ck_timestamp r |>)).

(** One sweep: what each claim is judged by is read before anything is
    deleted. *)
Definition prune now m : claims :=
  let cs := all_claims m in
  let replaced := superseded cs in
  let cutoff := Z.max 0 (now - CLAIM_RETENTION) in
  fold_left
    (λ m c, if decide ((cl_revoked c = true ∨ ¬ is_valid now c ∨ cl_id c ∈ replaced) ∧ cl_updated_at c ≤ cutoff)
            then delete (cl_id c) m else m) cs m.

Inductive identity_event :=
  | ClaimCreated (x : signed ClaimPublish)
  | ClaimVerified (x : signed ClaimVerify)
  | ClaimRevoked (x : signed ClaimRevoke).

Definition identity_apply_event now (e : identity_event) m : claims :=
  match e with
  | ClaimCreated x => ignoring (apply_publish now x m) m
  | ClaimVerified x => ignoring (apply_verify x m) m
  | ClaimRevoked x => ignoring (apply_revoke x m) m
  end.
End identity.
