(* ===== verification/IdentityTheorems.v ===== *)
(** * IdentityTheorems: the claims a node holds

    The cap on live claims, whose words a claim is, which key is sealed to, and
    two things the sweep does that its documentation says it does not. *)

From stdpp Require Import sorting.
From Stdlib Require Import Ascii.
From S2P Require Import Prelude Runtime Peers Pricing Statements Cid MarketState Identity.
Import Ident IdentityError.

(** ** Reading the index *)

Definition claims_keyed (m : claims) : Prop := ∀ id c, m !! id = Some c → cl_id c = id.

Lemma elem_all_claims m c : c ∈ all_claims m ↔ ∃ k, m !! k = Some c.
Proof.
  unfold all_claims. rewrite list_elem_of_fmap. split.
  - intros ([k d] & -> & Hk). rewrite merge_sort_Permutation in Hk. apply elem_of_map_to_list in Hk. eauto.
  - intros (k & Hk). exists (k, c). split; [done|]. rewrite merge_sort_Permutation. by apply elem_of_map_to_list.
Qed.

Lemma elem_find_by_wallet w m c : c ∈ find_by_wallet w m ↔ cl_wallet c = w ∧ ∃ k, m !! k = Some c.
Proof. unfold find_by_wallet. by rewrite list_elem_of_filter, elem_all_claims. Qed.

Lemma elem_superseded cs id : id ∈ superseded cs ↔ ∃ d, d ∈ cs ∧ cl_supersedes d = Some id.
Proof. unfold superseded. rewrite elem_of_list_to_set, list_elem_of_omap. done. Qed.

(** Another claim of the wallet replaces the claim. *)
Definition replaced_by_wallet (w : PeerId) (m : claims) (id : string) : Prop :=
  ∃ k d, m !! k = Some d ∧ cl_wallet d = w ∧ cl_supersedes d = Some id.

Lemma wallet_superseded w m id : id ∈ superseded (find_by_wallet w m) ↔ replaced_by_wallet w m id.
Proof.
  rewrite elem_superseded. unfold replaced_by_wallet. split.
  - intros (d & [Hw (k & Hk)]%elem_find_by_wallet & Hs). eauto.
  - intros (k & d & Hk & Hw & Hs). exists d. split; [|done]. apply elem_find_by_wallet. eauto.
Qed.

Lemma elem_live w now m id :
  claims_keyed m →
  id ∈ live_claim_ids w now m ↔
    ∃ c, m !! id = Some c ∧ cl_wallet c = w ∧ is_valid now c ∧ ¬ replaced_by_wallet w m id.
Proof.
  intros Hm. unfold live_claim_ids. rewrite elem_of_list_to_set, list_elem_of_fmap. split.
  - intros (c & -> & [[Hv Hs] [Hw (k & Hk)]%elem_find_by_wallet]%list_elem_of_filter).
    rewrite wallet_superseded in Hs. pose proof (Hm _ _ Hk) as <-. eauto.
  - intros (c & Hc & Hw & Hv & Hs). exists c. split; [symmetry; by apply Hm|].
    apply list_elem_of_filter. rewrite elem_find_by_wallet, wallet_superseded, (Hm _ _ Hc). eauto.
Qed.

(** ** The sweep *)

Definition swept (now : Timestamp) (m : claims) (c : Claim) : Prop :=
  (cl_revoked c = true ∨ ¬ is_valid now c ∨ cl_id c ∈ superseded (all_claims m)) ∧
  cl_updated_at c ≤ Z.max 0 (now - CLAIM_RETENTION).
#[export] Instance swept_dec now m c : Decision (swept now m c).
Proof. unfold swept. apply _. Defined.

Lemma fold_delete (P : Claim → Prop) `{∀ c, Decision (P c)} cs (m : claims) id :
  fold_left (λ m c, if decide (P c) then delete (cl_id c) m else m) cs m !! id =
    if decide (Exists (λ c, cl_id c = id ∧ P c) cs) then None else m !! id.
Proof.
  revert m. induction cs as [|c cs IH]; intros m.
  { rewrite decide_False; [done|]. intros Hex. inversion Hex. }
  cbn [fold_left]. rewrite IH. destruct (decide (Exists _ cs)) as [Hcs|Hcs].
  { rewrite decide_True; [done|]. by apply Exists_cons_tl. }
  destruct (decide (P c)) as [HP|HP].
  - destruct (decide (cl_id c = id)) as [<-|Hid].
    + rewrite lookup_delete_eq, decide_True; [done|]. by apply Exists_cons_hd.
    + rewrite lookup_delete_ne, decide_False; [done| |done]. rewrite Exists_cons. naive_solver.
  - rewrite decide_False; [done|]. rewrite Exists_cons. naive_solver.
Qed.

Lemma prune_lookup now m id :
  claims_keyed m → prune now m !! id = c ← m !! id; if decide (swept now m c) then None else Some c.
Proof.
  intros Hm. unfold prune. rewrite (fold_delete (swept now m)). case_decide as Hex.
  - apply Exists_exists in Hex as (c & [k Hk]%elem_all_claims & Hid & Hs). pose proof (Hm _ _ Hk) as Hk'.
    rewrite <-Hid, Hk', Hk. cbn. by rewrite decide_True.
  - destruct (m !! id) as [c|] eqn:Hc; [|done]. cbn. rewrite decide_False; [done|]. intros Hs. apply Hex.
    apply Exists_exists. exists c. split; [apply elem_all_claims; eauto|]. split; [by apply Hm|done].
Qed.

Lemma prune_subseteq now m : claims_keyed m → prune now m ⊆ m.
Proof.
  intros Hm. apply map_subseteq_spec. intros id c. rewrite prune_lookup by done.
  destruct (m !! id) as [d|]; cbn; [|done]. by case_decide.
Qed.

Section claims.
Context `{Wire} `{KeyParser}.
Implicit Types (m : claims) (now : Timestamp) (c : Claim).

Ltac inv_id := cbv zeta in *; inv_ok; inv_signed.

(** ** The node's index over time *)

Inductive identity_step : Z * claims → Z * claims → Prop :=
  | identity_hears t now e m : t ≤ now → identity_step (t, m) (now, identity_apply_event now e m)
  | identity_sweeps t now m : t ≤ now → identity_step (t, m) (now, prune now m).

Definition identity_reachable (tm : Z * claims) : Prop := ∃ t, steps identity_step (t, ∅) tm.

(** ** Whose words a claim is *)

(** The claim is what the wallet's key signed; what moved since was signed by
    the same key. *)
Definition said_by_wallet c : Prop :=
  peer_id_from_public_key (cl_wallet_public_key c) = Some (cl_wallet c) ∧
  accepts (cl_claim_type c) (cl_value c) = true ∧
  (∃ p sig, signed_by (cl_wallet_public_key c) (StClaimPublish p) sig ∧ cp_id p = cl_id c ∧
     cp_wallet p = cl_wallet c ∧ cp_wallet_public_key p = cl_wallet_public_key c ∧
     cp_claim_type p = cl_claim_type c ∧ cp_value p = cl_value c ∧ cp_supersedes p = cl_supersedes c ∧
     cp_expires_at p = cl_expires_at c ∧ cp_timestamp p = cl_created_at c) ∧
  (cl_revoked c = true → ∃ r sig, signed_by (cl_wallet_public_key c) (StClaimRevoke r) sig ∧
     ck_claim_id r = cl_id c ∧ ck_wallet r = cl_wallet c).

Definition index_said m : Prop := ∀ id c, m !! id = Some c → cl_id c = id ∧ said_by_wallet c.

Lemma index_said_keyed m : index_said m → claims_keyed m.
Proof. intros Hm id c Hc. by apply Hm in Hc as [? _]. Qed.

Lemma index_said_put m c : index_said m → said_by_wallet c → index_said (put_claim m c).
Proof.
  intros Hm Hc id d Hd. unfold put_claim in Hd.
  destruct (decide (id = cl_id c)) as [->|Hid]; simplify_map_eq; [done|by apply Hm].
Qed.

Lemma publish_said now x m m' : index_said m → apply_publish now x m = Ok m' → index_said m'.
Proof.
  unfold apply_publish. intros Hm Hrun. inv_id. apply index_said_put; [done|].
  split_and!; cbn; [done|done|by exists (payload x), (signature x)|done].
Qed.

Lemma verify_said x m m' : index_said m → apply_verify x m = Ok m' → index_said m'.
Proof.
  unfold apply_verify. intros Hm Hrun. inv_id. apply index_said_put; [done|].
  match goal with Hc : m !! _ = Some _ |- _ => apply Hm in Hc as [_ Hc] end. done.
Qed.

Lemma revoke_said x m m' : index_said m → apply_revoke x m = Ok m' → index_said m'.
Proof.
  unfold apply_revoke. intros Hm Hrun. inv_id. apply index_said_put; [done|].
  match goal with Hc : m !! _ = Some ?c |- _ => apply Hm in Hc as [Hid (Hpeer & Hacc & Hp & Hr)] end.
  split_and!; cbn; [done|done|done|]. intros _. exists (payload x), (signature x). split_and!; (done || congruence).
Qed.

Lemma step_said tm tm' : index_said tm.2 → identity_step tm tm' → index_said tm'.2.
Proof.
  intros Hm Hstep. destruct Hstep as [t now e m Ht|t now m Ht]; cbn in *.
  - destruct e as [x|x|x]; cbn; unfold ignoring.
    + destruct (apply_publish now x m) eqn:Hrun; [by eapply publish_said|done].
    + destruct (apply_verify x m) eqn:Hrun; [by eapply verify_said|done].
    + destruct (apply_revoke x m) eqn:Hrun; [by eapply revoke_said|done].
  - intros id c Hc. pose proof (prune_subseteq now m (index_said_keyed _ Hm)) as Hsub.
    apply Hm. by eapply lookup_weaken.
Qed.

Lemma reachable_said t m : identity_reachable (t, m) → index_said m.
Proof.
  intros (t0 & Hs). apply (steps_invariant _ (λ tm, index_said tm.2)) in Hs; [done| |done].
  intros ? ?. apply step_said.
Qed.

(** ** The key others seal to *)

Lemma max_by_key_spec {A} (f : A → Z) l best :
  match max_by_key f l best with
  | Some a => (a ∈ l ∨ best = Some a) ∧ (∀ b, b ∈ l → f b ≤ f a) ∧ (∀ b, best = Some b → f b ≤ f a)
  | None => l = [] ∧ best = None
  end.
Proof.
  revert best. induction l as [|x l IH]; intros best; cbn.
  { destruct best as [b|]; [|done]. split_and!; [by right|set_solver|]. intros ? [= ->]. done. }
  set (best' := match best with Some b => if decide (f b ≤ f x) then Some x else Some b | None => Some x end).
  specialize (IH best'). destruct (max_by_key f l best') as [a|].
  - destruct IH as (Hin & Hl & Hb).
    assert (∃ b', best' = Some b' ∧ f x ≤ f b' ∧ (b' = x ∨ best = Some b') ∧ ∀ b, best = Some b → f b ≤ f b')
      as (b' & Hb' & Hx & Hor & Hold).
    { unfold best'. destruct best as [b|]; [case_decide|].
      - exists x. split_and!; [done|lia|by left|]. intros ? [= ->]. done.
      - exists b. split_and!; [done|lia|by right|]. intros ? [= ->]. done.
      - exists x. split_and!; [done|lia|by left|done]. }
    pose proof (Hb b' Hb') as Hle. split_and!.
    + destruct Hin as [Hin|Hin]; [left; by right|]. assert (a = b') as -> by congruence.
      destruct Hor as [-> | ->]; [left; by left|by right].
    + intros b [-> | Hbl]%elem_of_cons; [lia|by apply Hl].
    + intros b Hbest. specialize (Hold b Hbest). lia.
  - destruct IH as [_ IH]. unfold best' in IH. destruct best; [case_decide|]; done.
Qed.

(** An encryption key of the wallet that the index shows in force. *)
Definition key_in_force w now m c : Prop :=
  m !! cl_id c = Some c ∧ cl_wallet c = w ∧ cl_claim_type c = EncryptionKey ∧ is_valid now c ∧
  ¬ replaced_by_wallet w m (cl_id c).

Lemma elem_candidates w now m c :
  claims_keyed m →
  c ∈ filter (λ c, cl_claim_type c = EncryptionKey ∧ is_valid now c ∧ cl_id c ∉ superseded (find_by_wallet w m))
        (find_by_wallet w m) ↔ key_in_force w now m c.
Proof.
  intros Hm. rewrite list_elem_of_filter, elem_find_by_wallet, wallet_superseded. unfold key_in_force. split.
  - intros ((Ht & Hv & Hs) & Hw & k & Hk). pose proof (Hm _ _ Hk) as <-. done.
  - intros (Hk & Hw & Ht & Hv & Hs). split_and!; eauto.
Qed.

Lemma encryption_key_spec w now m :
  index_said m →
  match encryption_key w now m with
  | Some k => ∃ c, key_in_force w now m c ∧ said_by_wallet c ∧ encryption_key_parse (cl_value c) = Some k ∧
      ∀ d, key_in_force w now m d → cl_created_at d ≤ cl_created_at c
  | None => ∀ c, ¬ key_in_force w now m c
  end.
Proof.
  intros Hsaid. pose proof (index_said_keyed _ Hsaid) as Hm.
  unfold encryption_key, current_encryption_key.
  pose proof (max_by_key_spec cl_created_at (filter (λ c, cl_claim_type c = EncryptionKey ∧ is_valid now c ∧
    cl_id c ∉ superseded (find_by_wallet w m)) (find_by_wallet w m)) None) as Hmax.
  destruct (max_by_key _ _ _) as [c|]; cbn [mbind option_bind].
  - destruct Hmax as ([Hc|] & Hnew & _); [|done]. apply elem_candidates in Hc; [|done].
    pose proof Hc as (Hk & _ & Ht & _). destruct (Hsaid _ _ Hk) as [_ Hs].
    pose proof Hs as (_ & Hacc & _). rewrite Ht in Hacc. cbn in Hacc. apply bool_decide_eq_true in Hacc as [k Hparse]. rewrite Hparse.
    exists c. split_and!; [done..|]. intros d Hd. apply Hnew. by apply elem_candidates.
  - destruct Hmax as [Hnil _]. intros c Hc. apply (elem_candidates w now m c Hm) in Hc. rewrite Hnil in Hc. set_solver.
Qed.

(** *** What the node heard *)

(** The index after hearing events, each at its time, with no sweep between. *)
Definition hear_all (h : list (Timestamp * identity_event)) m : claims :=
  foldl (λ m te, identity_apply_event te.1 te.2 m) m h.

(** The wallet's own revocation of the claim. *)
Definition genuine_revoke (x : signed ClaimRevoke) c : Prop :=
  ck_claim_id (payload x) = cl_id c ∧ ck_wallet (payload x) = cl_wallet c ∧
  signed_by (cl_wallet_public_key c) (StClaimRevoke (payload x)) (signature x).

(** What hearing never changes in a claim the node holds. *)
Definition same_claim c c' : Prop :=
  cl_id c' = cl_id c ∧ cl_wallet c' = cl_wallet c ∧ cl_wallet_public_key c' = cl_wallet_public_key c ∧
  (cl_revoked c = true → cl_revoked c' = true).

Lemma hear_keeps now e m id c :
  claims_keyed m → m !! id = Some c →
  ∃ c', identity_apply_event now e m !! id = Some c' ∧ same_claim c c'.
Proof.
  intros Hm Hc. destruct e as [x|x|x]; cbn; unfold ignoring.
  - destruct (apply_publish now x m) eqn:Hrun; [|by exists c]. unfold apply_publish in Hrun. inv_id.
    exists c. split; [|done]. unfold put_claim. rewrite lookup_insert_ne; [done|]. cbn. congruence.
  - destruct (apply_verify x m) eqn:Hrun; [|by exists c]. unfold apply_verify in Hrun. inv_id.
    unfold put_claim; cbn. rewrite lookup_insert. case_decide; [|by exists c]. eexists. split; [done|].
    match goal with Hd : m !! ?k = Some ?d, Hid : cl_id ?d = id |- _ =>
      pose proof (Hm _ _ Hd); assert (d = c) as -> by congruence end. by split_and!.
  - destruct (apply_revoke x m) eqn:Hrun; [|by exists c]. unfold apply_revoke in Hrun. inv_id.
    unfold put_claim; cbn. rewrite lookup_insert. case_decide; [|by exists c]. eexists. split; [done|].
    match goal with Hd : m !! ?k = Some ?d, Hid : cl_id ?d = id |- _ =>
      pose proof (Hm _ _ Hd); assert (d = c) as -> by congruence end. by split_and!.
Qed.

Lemma hear_said now e m : index_said m → index_said (identity_apply_event now e m).
Proof. intros Hm. apply (step_said (now, m) (now, _)); [done|]. by apply identity_hears. Qed.

Lemma hear_all_said h m : index_said m → index_said (hear_all h m).
Proof.
  revert m. induction h as [|[now e] h IH]; intros m Hm; [done|]. cbn. by apply IH, hear_said.
Qed.

Lemma hear_all_keeps h m id c :
  index_said m → m !! id = Some c → ∃ c', hear_all h m !! id = Some c' ∧ same_claim c c'.
Proof.
  revert m c. induction h as [|[now e] h IH]; intros m c Hm Hc; [by exists c|]. cbn.
  destruct (hear_keeps now e m id c) as (c1 & Hc1 & (? & ? & ? & Hr1)); [by apply index_said_keyed|done|].
  destruct (IH _ c1 (hear_said now e m Hm) Hc1) as (c2 & Hc2 & (? & ? & ? & Hr2)).
  exists c2. split; [done|]. split_and!; congruence || auto.
Qed.

(** The wallet's revocation of a claim the node holds takes effect. *)
Lemma revoke_takes now x m c :
  claims_keyed m → m !! cl_id c = Some c → genuine_revoke x c →
  ∃ c', identity_apply_event now (ClaimRevoked x) m !! cl_id c = Some c' ∧ cl_revoked c' = true.
Proof.
  intros Hm Hc (Hid & Hw & Hsig). cbn. unfold ignoring, apply_revoke. cbv zeta. rewrite Hid, Hc. cbn [ok_or mbind result_bind].
  rewrite require_true by done. cbn [mbind result_bind].
  assert (check_signature MalformedClaim InvalidSignature (cl_wallet_public_key c) (StClaimRevoke (payload x))
    (signature x) = Ok tt) as -> by (by apply check_signature_Ok). cbn [mbind result_bind].
  destruct (cl_revoked c) eqn:Hr; [by exists c|]. cbn. eexists. split; [apply lookup_insert_eq|done].
Qed.

(** Why a key the wallet published does not count: the wallet revoked it, it
    has expired, or a claim of the wallet replaces it. *)
Definition out_of_force now m c : Prop :=
  (∃ r sig, signed_by (cl_wallet_public_key c) (StClaimRevoke r) sig ∧ ck_claim_id r = cl_id c ∧
     ck_wallet r = cl_wallet c) ∨
  (∃ expiry, cl_expires_at c = Some expiry ∧ expiry ≤ now) ∨ replaced_by_wallet (cl_wallet c) m (cl_id c).

Definition holds_key w m c : Prop := m !! cl_id c = Some c ∧ cl_wallet c = w ∧ cl_claim_type c = EncryptionKey.

Lemma in_force_or_out now m c w :
  index_said m → holds_key w m c → key_in_force w now m c ∨ out_of_force now m c.
Proof.
  intros Hm (Hc & Hw & Ht). destruct (Hm _ _ Hc) as [_ (_ & _ & _ & Hrev)].
  destruct (decide (cl_id c ∈ superseded (find_by_wallet w m))) as [Hs%wallet_superseded|Hs].
  { right. right. right. by rewrite Hw. }
  rewrite wallet_superseded in Hs. destruct (cl_revoked c) eqn:Hr; [right; left; by apply Hrev|].
  destruct (cl_expires_at c) as [expiry|] eqn:He.
  - destruct (decide (now < expiry)) as [Hlt|Hge].
    + left. split_and!; [done..| |done]. split; [done|]. by rewrite He.
    + right. right. left. exists expiry. split; [done|lia].
  - left. split_and!; [done..| |done]. split; [done|]. by rewrite He.
Qed.

(** C35: others seal to a key the wallet stands by.  Take a node in any state it
    can reach and whatever events it hears next, until its next sweep.  The key
    it then returns for a wallet is the value of an encryption-key claim the
    node holds that the wallet's key signed, that has not expired, that no claim
    of the wallet the node holds replaces, and that the wallet never revoked:
    no revocation of it under the wallet's signature was heard while the node
    held the claim.  It is the newest, but for claims the wallet revoked or
    replaced or that have expired; and a node returns no key only when all the
    wallet's keys it holds are such.  A sweep is another matter: it can drop a
    claim in force and let a revoked one be published again
    ([stranger_deletes_claim], [revoked_claim_returns]). *)
Theorem sealed_to_the_wallets_key t m0 h w now :
  identity_reachable (t, m0) →
  let m := hear_all h m0 in
  match encryption_key w now m with
  | Some k => ∃ c, holds_key w m c ∧ said_by_wallet c ∧ encryption_key_parse (cl_value c) = Some k ∧
      (∀ expiry, cl_expires_at c = Some expiry → now < expiry) ∧ ¬ replaced_by_wallet w m (cl_id c) ∧
      (∀ h1 now' x h2 c1, h = h1 ++ (now', ClaimRevoked x) :: h2 → hear_all h1 m0 !! cl_id c = Some c1 →
         ¬ genuine_revoke x c1) ∧
      ∀ d, holds_key w m d → cl_created_at d ≤ cl_created_at c ∨ out_of_force now m d
  | None => ∀ c, holds_key w m c → out_of_force now m c
  end.
Proof.
  intros Hr m. pose proof (reachable_said _ _ Hr) as Hsaid0. pose proof (hear_all_said h m0 Hsaid0) as Hsaid.
  fold m in Hsaid. pose proof (encryption_key_spec w now m Hsaid) as Hkey.
  destruct (encryption_key w now m) as [k|].
  - destruct Hkey as (c & Hf & Hs & Hparse & Hnew). pose proof Hf as (Hc & Hw & Ht & [Hrev Hexp] & Hnr).
    exists c. split_and!; [done..| |done| |].
    + intros expiry He. by rewrite He in Hexp.
    + intros h1 now' x h2 c1 -> Hc1 Hgen. pose proof (hear_all_said h1 m0 Hsaid0) as Hsaid1.
      pose proof (Hsaid1 _ _ Hc1) as [Hid1 _]. rewrite <-Hid1 in Hc1.
      destruct (revoke_takes now' x _ c1 (index_said_keyed _ Hsaid1) Hc1 Hgen) as (c2 & Hc2 & Hr2).
      destruct (hear_all_keeps h2 _ _ c2 (hear_said now' (ClaimRevoked x) _ Hsaid1) Hc2)
        as (c3 & Hc3 & (_ & _ & _ & Hr3)).
      assert (m !! cl_id c1 = Some c3) as Hc3' by (unfold m, hear_all; by rewrite foldl_app).
      rewrite Hid1, Hc in Hc3'. injection Hc3' as <-. rewrite Hr3 in Hrev by done. done.
    + intros d Hd. destruct (in_force_or_out now m d w Hsaid Hd) as [Hin|]; [left; by apply Hnew|by right].
  - intros c Hc. destruct (in_force_or_out now m c w Hsaid Hc) as [Hin|]; [|done]. by apply Hkey in Hin.
Qed.

(** ** The cap *)

(** Hearing events, without a sweep. *)
Definition hears (tm tm' : Z * claims) : Prop :=
  ∃ now e, tm.1 ≤ now ∧ tm' = (now, identity_apply_event now e tm.2).

Lemma is_valid_mono now now' c : now ≤ now' → is_valid now' c → is_valid now c.
Proof. unfold is_valid. intros Hle [Hr He]. split; [done|]. destruct (cl_expires_at c); [lia|done]. Qed.

Lemma live_mono w now now' m :
  claims_keyed m → now ≤ now' → live_claim_ids w now' m ⊆ live_claim_ids w now m.
Proof.
  intros Hm Hle id. rewrite !elem_live by done. intros (c & Hc & Hw & Hv & Hs). exists c.
  split_and!; [done..| |done]. by eapply is_valid_mono.
Qed.

(** Replacing a claim by a less valid one with the same links. *)
Lemma live_update w now m c c' :
  claims_keyed m → m !! cl_id c = Some c → cl_id c' = cl_id c → cl_wallet c' = cl_wallet c →
  cl_supersedes c' = cl_supersedes c → (is_valid now c' → is_valid now c) →
  live_claim_ids w now (put_claim m c') ⊆ live_claim_ids w now m.
Proof.
  intros Hm Hc Hid Hw Hs Hv id. assert (claims_keyed (put_claim m c')) as Hm'.
  { intros j d Hd. unfold put_claim in Hd. destruct (decide (j = cl_id c')) as [->|]; simplify_map_eq; [done|by apply Hm]. }
  rewrite !elem_live by done. intros (d & Hd & Hdw & Hdv & Hdr).
  assert (¬ replaced_by_wallet w m id) as Hnr.
  { intros (k & e & Hk & Hew & Hes). apply Hdr. destruct (decide (k = cl_id c)) as [->|Hne].
    - assert (e = c) as -> by congruence. exists (cl_id c'), c'. split_and!; [by apply lookup_insert_eq|congruence..].
    - exists k, e. split_and!; [|done..]. unfold put_claim. rewrite lookup_insert_ne; congruence. }
  unfold put_claim in Hd. destruct (decide (id = cl_id c')) as [->|Hne]; simplify_map_eq.
  - exists c. rewrite Hid. split_and!; [done|congruence|by apply Hv|by rewrite <-Hid].
  - exists d. done.
Qed.

Lemma put_keyed m c : claims_keyed m → claims_keyed (put_claim m c).
Proof.
  intros Hm j d Hd. unfold put_claim in Hd.
  destruct (decide (j = cl_id c)) as [->|]; simplify_map_eq; [done|by apply Hm].
Qed.

(** What is live after a new claim: the claim, and what was live and is not
    replaced by it. *)
Lemma live_after_new w now now' m new id :
  claims_keyed m → now ≤ now' → m !! cl_id new = None →
  id ∈ live_claim_ids w now' (put_claim m new) →
  id = cl_id new ∧ cl_wallet new = w ∨
  id ∈ live_claim_ids w now m ∧ (cl_wallet new = w → cl_supersedes new ≠ Some id).
Proof.
  intros Hm Hle Hnone. rewrite !elem_live by eauto using put_keyed. intros (d & Hd & Hdw & Hdv & Hdr).
  unfold put_claim in Hd. destruct (decide (id = cl_id new)) as [->|Hne]; simplify_map_eq; [by left|]. right. split.
  - exists d. split_and!; [done..|by eapply is_valid_mono|]. intros (k & e & Hk & Hew & Hes). apply Hdr.
    exists k, e. split_and!; [|done..]. unfold put_claim. rewrite lookup_insert_ne; [done|]. intros <-. congruence.
  - intros Hnw Hns. apply Hdr. exists (cl_id new), new. split_and!; [apply lookup_insert_eq|done..].
Qed.

Lemma size_add (A B : gset string) x : B ⊆ {[x]} ∪ A → (size B ≤ 1 + size A)%nat.
Proof.
  intros Hsub%subseteq_size. rewrite size_union_alt, size_singleton in Hsub.
  assert (size (A ∖ {[x]}) ≤ size A)%nat by (apply subseteq_size; set_solver). lia.
Qed.

Lemma size_swap (A B : gset string) x y : y ∈ A → B ⊆ {[x]} ∪ A ∖ {[y]} → (size B ≤ size A)%nat.
Proof.
  intros Hy Hsub%size_add. rewrite size_difference in Hsub by set_solver. rewrite size_singleton in Hsub.
  assert (size A ≠ 0)%nat by (rewrite size_non_empty_iff; set_solver). lia.
Qed.

Lemma publish_live now now' x m m' w :
  claims_keyed m → now ≤ now' → apply_publish now x m = Ok m' →
  (size (live_claim_ids w now m) ≤ MAX_CLAIMS_PER_WALLET)%nat →
  (size (live_claim_ids w now' m') ≤ MAX_CLAIMS_PER_WALLET)%nat.
Proof.
  unfold apply_publish. intros Hm Hle Hrun Hsize. inv_id.
  match goal with |- context [put_claim m ?c] => set (new := c) end.
  match goal with Hn : m !! _ = None |- _ => pose proof (λ id, live_after_new w now now' m new id Hm Hle Hn) as Hlive end.
  match goal with Hc : ¬ (_ = false ∧ _) |- _ => rename Hc into Hcap end.
  destruct (decide (cl_wallet new = w)) as [Hw|Hw].
  2: { etrans; [|exact Hsize]. apply subseteq_size. intros id Hid. destruct (Hlive id Hid) as [[_ ?]|[? _]]; done. }
  change (cp_wallet (payload x)) with (cl_wallet new) in Hcap.
  change (cp_supersedes (payload x)) with (cl_supersedes new) in Hcap. rewrite Hw in Hcap.
  assert ((∃ target, cl_supersedes new = Some target ∧ target ∈ live_claim_ids w now m) ∨
    ¬ ∃ target, cl_supersedes new = Some target ∧ target ∈ live_claim_ids w now m) as [(y & Hy & Hlv)|Hno].
  { destruct (cl_supersedes new) as [y|]; [destruct (decide (y ∈ live_claim_ids w now m))|]; naive_solver. }
  - etrans; [|exact Hsize]. apply (size_swap _ _ (cl_id new) y Hlv). intros id Hid.
    destruct (Hlive id Hid) as [[-> _]|[? Hns]]; [set_solver|]. specialize (Hns Hw).
    assert (id ≠ y) by congruence. set_solver.
  - assert (size (live_claim_ids w now m) < MAX_CLAIMS_PER_WALLET)%nat.
    { apply Nat.nle_gt. intros Hfull. apply Hcap. split; [|done].
      destruct (cl_supersedes new) as [y|]; [|done]. apply bool_decide_eq_false. naive_solver. }
    assert (size (live_claim_ids w now' (put_claim m new)) ≤ 1 + size (live_claim_ids w now m))%nat; [|lia].
    apply (size_add _ _ (cl_id new)). intros id Hid. destruct (Hlive id Hid) as [[-> _]|[? _]]; set_solver.
Qed.

Definition cap_inv (tm : Z * claims) : Prop :=
  claims_keyed tm.2 ∧
  ∀ w now, tm.1 ≤ now → (size (live_claim_ids w now tm.2) ≤ MAX_CLAIMS_PER_WALLET)%nat.

(** A claim moved by its wallet is no more valid than before. *)
Lemma cap_update t now m c c' :
  cap_inv (t, m) → t ≤ now → m !! cl_id c = Some c → cl_id c' = cl_id c → cl_wallet c' = cl_wallet c →
  cl_supersedes c' = cl_supersedes c → (∀ now, is_valid now c' → is_valid now c) → cap_inv (now, put_claim m c').
Proof.
  intros [Hm Hcap] Ht Hc Hid Hw Hs Hv. split; [by apply put_keyed|]. cbn in *. intros w now' Hn.
  etrans; [|apply (Hcap w now'); lia]. apply subseteq_size. apply (live_update w now' m c c'); auto.
Qed.

Lemma hears_cap tm tm' : cap_inv tm → hears tm tm' → cap_inv tm'.
Proof.
  destruct tm as [t m]. intros Hinv (now & e & Ht & ->). pose proof Hinv as [Hm Hcap]. cbn in *.
  assert (cap_inv (now, m)) as Hsame by (split; [done|]; intros; apply Hcap; cbn in *; lia).
  destruct e as [x|x|x]; cbn; unfold ignoring.
  - destruct (apply_publish now x m) as [m'|] eqn:Hrun; [|done]. split; cbn.
    + unfold apply_publish in Hrun. inv_id. by apply put_keyed.
    + intros w now' Hn. eapply publish_live; [done|exact Hn|done|]. by apply Hcap.
  - destruct (apply_verify x m) as [m'|] eqn:Hrun; [|done]. unfold apply_verify in Hrun. inv_id.
    match goal with Hc : m !! _ = Some ?c |- _ => pose proof (Hm _ _ Hc) as Hid; rewrite <-Hid in Hc;
      by eapply (cap_update t now m c) end.
  - destruct (apply_revoke x m) as [m'|] eqn:Hrun; [|done]. unfold apply_revoke in Hrun. inv_id.
    match goal with Hc : m !! _ = Some ?c |- _ => pose proof (Hm _ _ Hc) as Hid; rewrite <-Hid in Hc;
      eapply (cap_update t now m c); [done..|] end. by intros ? [? _].
Qed.

(** A wallet holds at most sixty-four live claims.  Whatever is published,
    with whatever timestamps and links, as long as the node's clock does not go
    back and no sweep has run, the live claims of every wallet stay within the
    cap, then and at any later time. *)
Theorem claims_capped t0 t m w now :
  steps hears (t0, ∅) (t, m) → t ≤ now → (size (live_claim_ids w now m) ≤ MAX_CLAIMS_PER_WALLET)%nat.
Proof.
  intros Hs Ht. apply (steps_invariant _ cap_inv) in Hs; [by apply Hs| |].
  - intros ? ?. apply hears_cap.
  - split; [done|]. cbn. intros w' now' _. assert (live_claim_ids w' now' ∅ = ∅) as ->; [|rewrite size_empty; lia].
    apply set_eq. intros id. rewrite elem_live by done. set_solver.
Qed.

(** ** What the sweep takes *)

(** A stranger has a claim deleted.  The sweep counts a claim as superseded
    when any claim of any wallet names it: once a stranger's claim that does so
    is accepted, a claim its own wallet still has in force, a week old, is
    gone at the next sweep. *)
Theorem stranger_deletes_claim now x m m' c :
  claims_keyed m → m !! cl_id c = Some c → cl_id c ∈ live_claim_ids (cl_wallet c) now m →
  cl_updated_at c ≤ now - CLAIM_RETENTION →
  cp_wallet (payload x) ≠ cl_wallet c → cp_supersedes (payload x) = Some (cl_id c) →
  apply_publish now x m = Ok m' →
  cl_id c ∈ live_claim_ids (cl_wallet c) now m' ∧ prune now m' !! cl_id c = None.
Proof.
  unfold apply_publish. intros Hm Hc Hlive Hold Hw Hs Hrun. inv_id.
  match goal with |- context [put_claim m ?n] => set (new := n) end.
  match goal with Hn : m !! _ = None |- _ => change (cp_id (payload x)) with (cl_id new) in Hn; rename Hn into Hnone end.
  assert (cl_id new ≠ cl_id c) as Hne by congruence.
  assert (put_claim m new !! cl_id c = Some c) as Hc' by (unfold put_claim; by rewrite lookup_insert_ne).
  split.
  - apply elem_live in Hlive as (c0 & Hc0 & _ & Hv & Hnr); [|done]. assert (c0 = c) as -> by congruence.
    apply elem_live; [by apply put_keyed|]. exists c. split_and!; [done..|].
    intros (k & d & Hd & Hdw & Hds). unfold put_claim in Hd.
    destruct (decide (k = cl_id new)) as [->|]; simplify_map_eq. apply Hnr. by exists k, d.
  - rewrite prune_lookup by (by apply put_keyed). rewrite Hc'. cbn. rewrite decide_True; [done|]. split; [|lia].
    right; right. apply elem_superseded. exists new. split; [|done]. apply elem_all_claims. exists (cl_id new).
    apply lookup_insert_eq.
Qed.

(** A signed claim of an acceptable value meets only two more conditions. *)
Lemma publish_signed now x m :
  signed_by (cp_wallet_public_key (payload x)) (StClaimPublish (payload x)) (signature x) →
  peer_id_from_public_key (cp_wallet_public_key (payload x)) = Some (cp_wallet (payload x)) →
  accepts (cp_claim_type (payload x)) (cp_value (payload x)) = true →
  (m !! cp_id (payload x) ≠ None → apply_publish now x m = Err (Code DuplicateClaimId)) ∧
  (m !! cp_id (payload x) = None →
   (size (live_claim_ids (cp_wallet (payload x)) now m) < MAX_CLAIMS_PER_WALLET)%nat →
   ∃ c, apply_publish now x m = Ok (put_claim m c) ∧ cl_id c = cp_id (payload x) ∧ cl_revoked c = false ∧
     cl_value c = cp_value (payload x) ∧ cl_expires_at c = cp_expires_at (payload x)).
Proof.
  intros Hsig Hpeer Hacc. unfold apply_publish. cbv zeta.
  assert (verify_self MalformedClaim InvalidSignature Unauthorized (cp_wallet_public_key (payload x))
    (cp_wallet (payload x)) (StClaimPublish (payload x)) (signature x) = Ok tt) as -> by (by apply verify_self_Ok).
  cbn [mbind result_bind]. split.
  - intros Hdup. by destruct (m !! cp_id (payload x)).
  - intros Hnone Hcap. rewrite (require_true (m !! _ = None)) by done. cbn [mbind result_bind].
    rewrite (require_true (accepts _ _ = true)) by done. cbn [mbind result_bind]. eexists. split.
    + rewrite require_true; [done|]. intros [_ Hfull]. lia.
    + done.
Qed.

(** A revoked claim comes back.  The index refuses the statement a claim was
    published with as a duplicate, and no longer does once the revoked claim
    was swept: delivering the same signed statement again, which anyone can,
    publishes the claim as if it had never been revoked. *)
Theorem revoked_claim_returns now x m c :
  claims_keyed m → m !! cl_id c = Some c → cl_revoked c = true → cl_updated_at c ≤ now - CLAIM_RETENTION →
  cp_id (payload x) = cl_id c →
  signed_by (cp_wallet_public_key (payload x)) (StClaimPublish (payload x)) (signature x) →
  peer_id_from_public_key (cp_wallet_public_key (payload x)) = Some (cp_wallet (payload x)) →
  accepts (cp_claim_type (payload x)) (cp_value (payload x)) = true → cp_expires_at (payload x) = None →
  (size (live_claim_ids (cp_wallet (payload x)) now (prune now m)) < MAX_CLAIMS_PER_WALLET)%nat →
  apply_publish now x m = Err (Code DuplicateClaimId) ∧
  ∃ m' c', apply_publish now x (prune now m) = Ok m' ∧ m' !! cl_id c = Some c' ∧ is_valid now c' ∧
    cl_value c' = cp_value (payload x).
Proof.
  intros Hm Hc Hrev Hold Hid Hsig Hpeer Hacc Hexp Hcap. split.
  - apply publish_signed; [done..|]. by rewrite Hid, Hc.
  - destruct (publish_signed now x (prune now m) Hsig Hpeer Hacc) as [_ Hok].
    destruct Hok as (c' & Hrun & Hid' & Hrev' & Hval & Hexp'); [|done|].
    + rewrite Hid, prune_lookup, Hc by done. cbn. rewrite decide_True; [done|]. split; [by left|lia].
    + exists (put_claim (prune now m) c'), c'. unfold put_claim. rewrite Hid', Hid, lookup_insert_eq.
      split_and!; [|done| |done].
      * by rewrite Hrun; unfold put_claim; rewrite Hid', Hid.
      * split; [done|]. by rewrite Hexp', Hexp.
Qed.

(** The sweep brings a superseded claim back: when the claim that replaced it
    has expired and is swept, and the old one was touched within the week, the
    old one is in force again. *)
Theorem sweep_revives_superseded now m a b :
  claims_keyed m → m !! cl_id a = Some a → m !! cl_id b = Some b → cl_wallet a = cl_wallet b →
  cl_supersedes a = Some (cl_id b) → swept now m a → is_valid now b → now - CLAIM_RETENTION < cl_updated_at b →
  0 < cl_updated_at b →
  (∀ k d, m !! k = Some d → cl_supersedes d = Some (cl_id b) → d = a) →
  (cl_id b ∉ live_claim_ids (cl_wallet b) now m) ∧ cl_id b ∈ live_claim_ids (cl_wallet b) now (prune now m).
Proof.
  intros Hm Ha Hb Hw Hs Hswept Hv Hnew Hposb Honly.
  assert (claims_keyed (prune now m)) as Hm'.
  { intros k d Hd. apply Hm. eapply lookup_weaken; [done|by apply prune_subseteq]. }
  split.
  - rewrite elem_live by done. intros (c & Hc & _ & _ & Hnr). apply Hnr. by exists (cl_id a), a.
  - apply elem_live; [done|]. exists b. split_and!; [|done|done|].
    + rewrite prune_lookup, Hb by done. cbn. rewrite decide_False; [done|]. intros [_ Hcut]. lia.
    + intros (k & d & Hd & _ & Hds). pose proof Hd as Hd'. rewrite prune_lookup in Hd' by done.
      assert (m !! k = Some d) as Hk by (eapply lookup_weaken; [done|by apply prune_subseteq]).
      rewrite Hk in Hd'. cbn in Hd'. pose proof (Honly k d Hk Hds) as ->. by rewrite decide_True in Hd'.
Qed.
End claims.
