(* ===== verification/TradeChannel.v ===== *)
(** * TradeChannel: the sealed conversation of a trade

    Models [crates/tradechannel/src/record.rs], [key.rs] and [store.rs]: the
    framing, padding and binding of an entry's payload, and the index of key
    grants and entries, which reads the node's settlements and disputes to
    decide who may write and who may be given the key.  The cipher is a
    parameter. *)

From stdpp Require Import sorting.
From S2P Require Import Prelude Runtime Peers Pricing Statements Offers MarketState.
Import Chan.

Module TradeChannelError.
Inductive TradeChannelError :=
  | InvalidSignature | SettlementNotFound | NotAParty | RecipientNotPermitted | EntryTooLarge
  | SequenceReused | MalformedEntry | PayloadDidNotOpen.
End TradeChannelError.
Import TradeChannelError.

Abbreviation chan_result := (result TradeChannelError).

(** ** Payloads *)

Definition PADDING_BLOCK : Z := 256.
Definition MAX_ENTRY_PLAINTEXT : Z := 4096.
Definition MAX_ENTRY_CIPHERTEXT : Z := 4352 + 16.

Definition KEY_ID_DOMAIN : list Z := bytes_of "openfiat/tradechannel/keyid/v1".
Definition BINDING_DOMAIN : list Z := bytes_of "openfiat/tradechannel/binding/v1".

Definition kind_name (k : EntryKind) : string :=
  match k with PaymentDetails => "PaymentDetails" | Message => "Message" end.

Record EntryBinding := mkBinding {
  eb_settlement_id : string;
  eb_author : PeerId;
  eb_sequence : Z;
  eb_kind : EntryKind;
}.

(** Each field behind its length. *)
Definition framed (field : list Z) : list Z := to_le 4 (Z.of_nat (length field)) ++ field.

Definition transcript (b : EntryBinding) : list Z :=
  concat (framed <$> [BINDING_DOMAIN; bytes_of (eb_settlement_id b); eb_author b; to_be_u64 (eb_sequence b);
                      bytes_of (kind_name (eb_kind b))]).

Definition div_ceil (a b : Z) : Z := (a + b - 1) / b.

Definition pad (plaintext : list Z) : list Z :=
  let unpadded := 4 + Z.of_nat (length plaintext) in
  let padded := div_ceil unpadded PADDING_BLOCK * PADDING_BLOCK in
  let buffer := to_le 4 (Z.of_nat (length plaintext)) ++ plaintext in
  buffer ++ replicate (Z.to_nat padded - length buffer) 0.

Definition unpad (padded : list Z) : chan_result (list Z) :=
  _ ← require (¬ (length padded < 4)%nat) (Code PayloadDidNotOpen);
  let declared := Z.to_nat (from_le (take 4 padded)) in
  _ ← require ((4 + declared ≤ length padded)%nat) (Code PayloadDidNotOpen);
  Ok (take declared (drop 4 padded)).

(** [ChaCha20Poly1305]: key, nonce, message, associated data. *)
Class Aead := {
  encrypt : list Z → list Z → list Z → list Z → option (list Z);
  decrypt : list Z → list Z → list Z → list Z → option (list Z);
}.

Section payloads.
Context `{Aead} `{Hashing}.

Definition key_id (key : list Z) : list Z := take 8 (sha256 (KEY_ID_DOMAIN ++ key)).

(** [nonce] is the randomness drawn. *)
Definition seal_entry (key nonce : list Z) (b : EntryBinding) (plaintext : list Z)
    : chan_result ChannelCiphertext :=
  _ ← require (¬ MAX_ENTRY_PLAINTEXT < Z.of_nat (length plaintext)) (Code EntryTooLarge);
  c ← ok_or (encrypt key nonce (pad plaintext) (transcript b)) (Code PayloadDidNotOpen);
  Ok (mkChannelCiphertext (key_id key) nonce c).

Definition open_entry (key : list Z) (b : EntryBinding) (p : ChannelCiphertext) : chan_result (list Z) :=
  padded ← ok_or (decrypt key (cc_nonce p) (cc_ciphertext p) (transcript b)) (Code PayloadDidNotOpen);
  unpad padded.
End payloads.

(** ** The index *)

Inductive GrantRole := Party | Arbitrator.
#[export] Instance GrantRole_eq_dec : EqDecision GrantRole.
Proof. solve_decision. Defined.

Record KeyGrant := mkKeyGrant {
  gr_settlement_id : string;
  gr_granter : PeerId;
  gr_recipient : PeerId;
  gr_role : GrantRole;
  gr_key_id : list Z;
  gr_sealed_key : SealedBox;
  gr_granted_at : Timestamp;
}.

Record ChannelEntry := mkChannelEntry {
  ce_settlement_id : string;
  ce_author : PeerId;
  ce_sequence : Z;
  ce_kind : EntryKind;
  ce_payload : ChannelCiphertext;
  ce_posted_at : Timestamp;
}.
#[export] Instance ChannelEntry_eq_dec : EqDecision ChannelEntry.
Proof. solve_decision. Defined.

(** The two column families, by their keys. *)
Record channels := mkChannels { ch_grants : gmap (list Z) KeyGrant; ch_entries : gmap (list Z) ChannelEntry }.
#[export] Instance channels_eta : Settable channels := fun r => mkChannels (ch_grants r) (ch_entries r).

Definition length_prefixed (field : list Z) : list Z := to_be_u32 (Z.of_nat (length field)) ++ field.

Definition channel_prefix (settlement_id : string) : list Z := length_prefixed (bytes_of settlement_id).

Definition entry_key (settlement_id : string) (author : PeerId) (sequence : Z) : list Z :=
  channel_prefix settlement_id ++ length_prefixed author ++ to_be_u64 sequence.

Definition grant_key (settlement_id : string) (recipient granter : PeerId) : list Z :=
  channel_prefix settlement_id ++ length_prefixed recipient ++ granter.

Definition party_key (s : Settlement) (peer : PeerId) : chan_result PublicKey :=
  if decide (peer = sm_buyer s) then Ok (sm_buyer_public_key s)
  else if decide (peer = sm_seller s) then Ok (sm_seller_public_key s)
  else Err (Code NotAParty).

(** A dispute over the settlement has the peer on its bench. *)
Definition is_arbitrator (n : node) (settlement_id : string) (peer : PeerId) : bool :=
  existsb (λ kd, bool_decide (dp_settlement_id kd.2 = settlement_id ∧ peer ∈ dp_arbitrators kd.2))
    (map_to_list (nd_disputes n)).

Definition role_of (n : node) (s : Settlement) (recipient : PeerId) : chan_result GrantRole :=
  if decide (recipient = sm_buyer s ∨ recipient = sm_seller s) then Ok Party
  else if is_arbitrator n (sm_id s) recipient then Ok Arbitrator
  else Err (Code RecipientNotPermitted).

Section channel.
Context `{Wire}.
Implicit Types (n : node) (ch : channels).

Definition apply_key_grant n (x : signed TradeChannelKeyGrant) ch : chan_result channels :=
  let g := payload x in
  s ← ok_or (nd_settlements n !! kg_settlement_id g) (Code SettlementNotFound);
  granter_key ← party_key s (kg_granter g);
  _ ← check_signature MalformedEntry InvalidSignature granter_key (StTradeChannelKeyGrant g) (signature x);
  role ← role_of n s (kg_recipient g);
  Ok (ch <| ch_grants :=
        <[grant_key (kg_settlement_id g) (kg_recipient g) (kg_granter g) :=
            mkKeyGrant (kg_settlement_id g) (kg_granter g) (kg_recipient g) role (kg_key_id g)
              (kg_sealed_key g) (kg_timestamp g)]> (ch_grants ch) |>).

Definition apply_entry n (x : signed TradeChannelEntryPost) ch : chan_result channels :=
  let p := payload x in
  s ← ok_or (nd_settlements n !! ep_settlement_id p) (Code SettlementNotFound);
  author_key ← party_key s (ep_author p);
  _ ← check_signature MalformedEntry InvalidSignature author_key (StTradeChannelEntryPost p) (signature x);
  _ ← require (¬ MAX_ENTRY_CIPHERTEXT < Z.of_nat (length (cc_ciphertext (ep_payload p)))) (Code EntryTooLarge);
  let entry := mkChannelEntry (ep_settlement_id p) (ep_author p) (ep_sequence p) (ep_kind p) (ep_payload p)
                 (ep_timestamp p) in
  let key := entry_key (ep_settlement_id p) (ep_author p) (ep_sequence p) in
  match ch_entries ch !! key with
  | Some existing => if decide (existing = entry) then Ok ch else Err (Code SequenceReused)
  | None => Ok (ch <| ch_entries := <[key := entry]> (ch_entries ch) |>)
  end.

Inductive channel_event :=
  | TradeChannelKeyGranted (x : signed TradeChannelKeyGrant)
  | TradeChannelEntryPosted (x : signed TradeChannelEntryPost).

Definition channel_apply_event n (e : channel_event) ch : channels :=
  match e with
  | TradeChannelKeyGranted x => ignoring (apply_key_grant n x ch) ch
  | TradeChannelEntryPosted x => ignoring (apply_entry n x ch) ch
  end.
End channel.

(** ** Reading a channel *)

Record TradeChannel := mkTradeChannel {
  tc_settlement_id : string;
  tc_grants : list KeyGrant;
  tc_entries : list ChannelEntry;
}.

(** [iter_prefix]. *)
Definition with_prefix {V} (prefix : list Z) (m : gmap (list Z) V) : list V :=
  (filter (λ kv, prefix `prefix_of` kv.1) (map_to_list m)).*2.

(** Lexicographic: the first, and the second where the first is no answer. *)
Definition grant_le (a b : KeyGrant) : Prop :=
  gr_recipient a ≠ gr_recipient b ∧ bytes_le (gr_recipient a) (gr_recipient b) ∨
  gr_recipient a = gr_recipient b ∧ bytes_le (gr_granter a) (gr_granter b).
#[export] Instance grant_le_dec a b : Decision (grant_le a b).
Proof. unfold grant_le. apply _. Defined.

Definition entry_le (a b : ChannelEntry) : Prop :=
  ce_posted_at a < ce_posted_at b ∨
  ce_posted_at a = ce_posted_at b ∧
    (ce_author a ≠ ce_author b ∧ bytes_le (ce_author a) (ce_author b) ∨
     ce_author a = ce_author b ∧ ce_sequence a ≤ ce_sequence b).
#[export] Instance entry_le_dec a b : Decision (entry_le a b).
Proof. unfold entry_le. apply _. Defined.

Definition channel (settlement_id : string) (ch : channels) : TradeChannel :=
  let prefix := channel_prefix settlement_id in
  mkTradeChannel settlement_id (merge_sort grant_le (with_prefix prefix (ch_grants ch)))
    (merge_sort entry_le (with_prefix prefix (ch_entries ch))).

Definition is_reader (c : TradeChannel) (peer : PeerId) : bool :=
  existsb (λ g, bool_decide (gr_recipient g = peer)) (tc_grants c).

Definition entries_of_kind (kind : EntryKind) (c : TradeChannel) : list ChannelEntry :=
  filter (λ e, ce_kind e = kind) (tc_entries c).

Definition payment_details (c : TradeChannel) : list ChannelEntry := entries_of_kind PaymentDetails c.
Definition messages (c : TradeChannel) : list ChannelEntry := entries_of_kind Message c.

(** The next free number of an author, if the arithmetic does not overflow. *)
Definition next_sequence (author : PeerId) (c : TradeChannel) : chan_result Z :=
  foldr (λ e acc, best ← acc; succ ← or_panic u64 (ce_sequence e + 1); Ok (Z.max best succ)) (Ok 0)
    (filter (λ e, ce_author e = author) (tc_entries c)).
