(* ===== verification/ChannelTheorems.v ===== *)
(** * ChannelTheorems: who can read a trade's conversation, and who wrote it

    The framing is unambiguous, a payload opens in its own place and in no
    other, and in every state a node reaches the grants and the entries of a
    channel are the parties' own. *)

From stdpp Require Import sorting.
From S2P Require Import Prelude Runtime Peers Pricing Statements Offers MarketState Reservations.
From S2P Require Import Settlements Cases Market LiquidityInv DisputeBook MarketTheorems TradeChannel.
Import Chan TradeChannelError.

(** ** Framing *)

Definition short (l : list Z) : Prop := Z.of_nat (length l) < 2 ^ 32.

Lemma framed_inj a b r r' : short a → short b → framed a ++ r = framed b ++ r' → a = b ∧ r = r'.
Proof.
  unfold framed, short. intros Ha Hb Heq. rewrite <-!app_assoc in Heq.
  apply app_inj_1 in Heq as [Hlen Heq]; [|by rewrite !to_le_length].
  apply (f_equal from_le) in Hlen. rewrite !from_to_le in Hlen by lia. apply app_inj_1 in Heq; [done|lia].
Qed.

Lemma length_prefixed_inj a b r r' :
  short a → short b → length_prefixed a ++ r = length_prefixed b ++ r' → a = b ∧ r = r'.
Proof.
  unfold length_prefixed, short. intros Ha Hb Heq. rewrite <-!app_assoc in Heq.
  apply app_inj_1 in Heq as [Hlen Heq]; [|unfold to_be_u32; by rewrite !length_reverse, !to_le_length].
  apply to_be_u32_inj in Hlen; [|ilia..]. apply app_inj_1 in Heq; [done|lia].
Qed.

Record binding_sized (b : EntryBinding) : Prop := {
  bz_settlement : short (bytes_of (eb_settlement_id b));
  bz_author : short (eb_author b);
  bz_sequence : u64 (eb_sequence b);
}.

(** Two bindings with the same transcript are the same. *)
Lemma transcript_inj b b' : binding_sized b → binding_sized b' → transcript b = transcript b' → b = b'.
Proof.
  intros [Hs Ha Hq] [Hs' Ha' Hq'] Heq. unfold transcript in Heq. cbn [fmap list_fmap concat] in Heq.
  apply framed_inj in Heq as [_ Heq]; [|by vm_compute..].
  apply framed_inj in Heq as [Hset Heq]; [|done..]. apply bytes_of_inj in Hset.
  apply framed_inj in Heq as [Haut Heq]; [|done..].
  apply framed_inj in Heq as [Hseq Heq];
    [|unfold short, to_be_u64; rewrite length_reverse, to_le_length; lia..].
  apply to_be_u64_inj in Hseq; [|done..].
  apply framed_inj in Heq as [Hkind _]; [|by destruct (eb_kind b)|by destruct (eb_kind b')].
  apply bytes_of_inj in Hkind. destruct b as [? ? ? k], b' as [? ? ? k']. cbn in *. subst.
  f_equal. by destruct k, k'.
Qed.

(** ** Padding *)

Lemma pad_length pt :
  let blocks := div_ceil (4 + Z.of_nat (length pt)) PADDING_BLOCK in
  0 < blocks ∧ Z.of_nat (length (pad pt)) = blocks * PADDING_BLOCK ∧
    4 + Z.of_nat (length pt) ≤ blocks * PADDING_BLOCK < 4 + Z.of_nat (length pt) + PADDING_BLOCK.
Proof.
  unfold pad, div_ceil, PADDING_BLOCK. cbv zeta. set (n := Z.of_nat (length pt)). assert (0 ≤ n) by lia.
  pose proof (Z.div_mod (4 + n + 256 - 1) 256 ltac:(lia)) as Hdm.
  pose proof (Z.mod_pos_bound (4 + n + 256 - 1) 256 ltac:(lia)) as Hb.
  rewrite !length_app, length_replicate, to_le_length. split_and!; lia.
Qed.

Lemma unpad_pad pt : short pt → unpad (pad pt) = Ok pt.
Proof.
  intros Hs. unfold short in Hs. unfold unpad.
  destruct (pad_length pt) as (Hb & Hlen & Hge & _). rewrite require_true by lia. cbn [mbind result_bind].
  assert (from_le (take 4 (pad pt)) = Z.of_nat (length pt)) as ->.
  { unfold pad. rewrite <-app_assoc, take_app_length' by (by rewrite to_le_length). apply from_to_le. lia. }
  rewrite Nat2Z.id. rewrite require_true by lia. cbn [mbind result_bind]. f_equal.
  unfold pad. rewrite <-app_assoc, drop_app_length' by (by rewrite to_le_length). by apply take_app_length.
Qed.

Section payloads.
Context `{Aead} `{Hashing}.
(** What the cipher promises: it encrypts what fits in memory, with a tag of
    sixteen bytes, and decrypts what it encrypted. *)
Hypothesis aead_encrypts : ∀ k n m a, is_Some (encrypt k n m a).
Hypothesis aead_tag : ∀ k n m a c, encrypt k n m a = Some c → length c = (length m + 16)%nat.
Hypothesis aead_decrypts : ∀ k n m a c, encrypt k n m a = Some c → decrypt k n c a = Some m.

(** A break of the cipher on this very payload: the ciphertext made of [pt] with
    the transcript of [b] is accepted with the other transcript of [b']. *)
Definition accepted_elsewhere (key nonce : list Z) (b b' : EntryBinding) (pt c : list Z) : Prop :=
  transcript b' ≠ transcript b ∧ encrypt key nonce (pad pt) (transcript b) = Some c ∧
  is_Some (decrypt key nonce c (transcript b')).

(** C34: a payload opens where it was written, and elsewhere only by breaking
    the cipher.  Whatever is sealed for one settlement, author, number and kind
    opens there to exactly what was written and fits what a node accepts; its
    ciphertext is as long as four bytes and the text rounded up to a whole
    number of blocks, plus the sixteen bytes of the tag; and where it opens
    under any other settlement, author, number or kind, the cipher has accepted
    this ciphertext with associated data other than the one it was made with. *)
Theorem sealed_entry_opens key nonce b pt :
  Z.of_nat (length pt) ≤ MAX_ENTRY_PLAINTEXT → binding_sized b →
  ∃ c, seal_entry key nonce b pt = Ok c ∧ open_entry key b c = Ok pt ∧
    Z.of_nat (length (cc_ciphertext c)) ≤ MAX_ENTRY_CIPHERTEXT ∧
    Z.of_nat (length (cc_ciphertext c)) =
      div_ceil (4 + Z.of_nat (length pt)) PADDING_BLOCK * PADDING_BLOCK + 16 ∧
    ∀ b' pt', binding_sized b' → b' ≠ b → open_entry key b' c = Ok pt' →
      accepted_elsewhere key nonce b b' pt (cc_ciphertext c).
Proof using aead_encrypts aead_tag aead_decrypts.
  intros Hlen Hb. unfold seal_entry, open_entry. unfold MAX_ENTRY_PLAINTEXT in *. rewrite require_true by lia.
  destruct (aead_encrypts key nonce (pad pt) (transcript b)) as [c Hc]. rewrite Hc. cbn [ok_or mbind result_bind].
  eexists. split; [done|]. cbn [cc_nonce cc_ciphertext]. rewrite (aead_decrypts _ _ _ _ _ Hc). cbn [ok_or mbind result_bind].
  apply aead_tag in Hc as Htag. destruct (pad_length pt) as (Hpos & Hpad & Hlo & Hhi).
  unfold PADDING_BLOCK, MAX_ENTRY_CIPHERTEXT in *. split_and!.
  - apply unpad_pad. unfold short. lia.
  - lia.
  - lia.
  - intros b' pt' Hb' Hne Hopen. destruct (decrypt key nonce c (transcript b')) as [m'|] eqn:Hd; [|done].
    split_and!; [|done|by exists m']. intros Heq. apply Hne. by apply transcript_inj.
Qed.
End payloads.

(** ** Keys of the store *)

Lemma channel_prefix_of s s' rest :
  short (bytes_of s) → short (bytes_of s') →
  channel_prefix s `prefix_of` channel_prefix s' ++ rest ↔ s = s'.
Proof.
  intros Hs Hs'. split.
  - intros [k Hk]. unfold channel_prefix in Hk. symmetry in Hk. apply length_prefixed_inj in Hk as [Heq _]; [|done..].
    by apply bytes_of_inj.
  - intros ->. by apply prefix_app_r.
Qed.

Lemma entry_key_inj s a q s' a' q' :
  short (bytes_of s) → short (bytes_of s') → short a → short a' → u64 q → u64 q' →
  entry_key s a q = entry_key s' a' q' → s = s' ∧ a = a' ∧ q = q'.
Proof.
  intros Hs Hs' Ha Ha' Hq Hq' Heq. unfold entry_key, channel_prefix in Heq.
  apply length_prefixed_inj in Heq as [Hset Heq]; [|done..].
  apply length_prefixed_inj in Heq as [Haut Heq]; [|done..]. split_and!; [by apply bytes_of_inj|done|].
  by apply to_be_u64_inj.
Qed.

Lemma elem_with_prefix {V} (p : list Z) (m : gmap (list Z) V) (v : V) :
  v ∈ with_prefix p m ↔ ∃ k, m !! k = Some v ∧ p `prefix_of` k.
Proof.
  unfold with_prefix. rewrite list_elem_of_fmap. split.
  - intros ([k v'] & -> & [Hp Hk]%list_elem_of_filter). apply elem_of_map_to_list in Hk. eauto.
  - intros (k & Hk & Hp). exists (k, v). split; [done|]. apply list_elem_of_filter. split; [done|].
    by apply elem_of_map_to_list.
Qed.

(** ** The node and its channels *)

Section index.
Context `{Wire}.
Implicit Types (n : node) (ch : channels) (now : Timestamp).

Definition channel_event_typed (e : channel_event) : Prop :=
  match e with
  | TradeChannelKeyGranted x =>
      short (bytes_of (kg_settlement_id (payload x))) ∧ short (kg_recipient (payload x))
  | TradeChannelEntryPosted x =>
      short (bytes_of (ep_settlement_id (payload x))) ∧ short (ep_author (payload x)) ∧ u64 (ep_sequence (payload x))
  end.

Inductive channel_step : node * channels → node * channels → Prop :=
  | channel_market n n' ch : market_step n n' → channel_step (n, ch) (n', ch)
  | channel_hears n ch e : channel_event_typed e → channel_step (n, ch) (n, channel_apply_event n e ch).

Definition channel_reachable (nc : node * channels) : Prop :=
  steps channel_step (empty_node, mkChannels ∅ ∅) nc.

(** A case keeps its settlement and its bench. *)
Lemma case_moves_on now e n n' k d :
  book_inv n → apply_event now e n = Ok n' → nd_disputes n !! k = Some d →
  ∃ d', nd_disputes n' !! k = Some d' ∧ same_case d d'.
Proof.
  intros Hn Hrun Hd. destruct (bk_keyed _ Hn) as [_ Hk].
  assert (∀ d, same_case d d) as Hrefl by (intros d0; unfold same_case; by split_and!).
  assert (∀ k0 d0 d1 m, nd_disputes n !! k0 = Some d0 → same_case d0 d1 → m = <[dp_id d0 := d1]> (nd_disputes n) →
    ∃ d', m !! k = Some d' ∧ same_case d d') as Hput.
  { intros k0 d0 d1 m H0 Hs ->. rewrite (Hk _ _ H0). destruct (decide (k0 = k)) as [->|Hne].
    - rewrite Hd in H0. injection H0 as <-. exists d1. by rewrite lookup_insert_eq.
    - exists d. by rewrite lookup_insert_ne. }
  destruct (event_book _ _ _ _ (bk_keyed _ Hn) Hrun) as [? Hd'|? ? ? ? ? Hd'|? ? ? ? ? ? ? ? ? Hd'
    |? ? ? d0 ? ? ? Hnew ? ? ? ? ? ? ? ? ? Hd'|k0 d0 d1 Hl Hc ? ? ? ? Hd'|k0 d0 d1 Hl Hc ? ? ? Hd' ? ?].
  - rewrite Hd'. eauto.
  - rewrite Hd'. eauto.
  - rewrite Hd'. eauto.
  - exists d. rewrite Hd', lookup_insert_ne by congruence. auto.
  - by eapply Hput.
  - by eapply Hput.
Qed.

(** The peer is one of the settlement's two, and the key is the one on file for
    them.  The buyer's is the buyer's own; the seller's is what the buyer's
    initiation says it is ([deal_signed]). *)
Definition is_party (s : Settlement) (peer : PeerId) (key : PublicKey) : Prop :=
  peer = sm_buyer s ∧ key = sm_buyer_public_key s ∨ peer = sm_seller s ∧ key = sm_seller_public_key s.

Lemma party_key_Ok s peer key : party_key s peer = Ok key → is_party s peer key.
Proof. unfold party_key, is_party. repeat case_decide; intros; simplify_eq; auto. Qed.

Lemma same_deal_party s s' peer key : same_deal s s' → is_party s peer key → is_party s' peer key.
Proof. unfold same_deal, is_party. intros (_ & _ & -> & -> & -> & -> & _). done. Qed.

(** Why a peer may read: a party, or on the bench of a case about the trade. *)
Definition may_read n sid (s : Settlement) (peer : PeerId) : Prop :=
  (peer = sm_buyer s ∨ peer = sm_seller s) ∨
  ∃ k d, nd_disputes n !! k = Some d ∧ dp_settlement_id d = sid ∧ peer ∈ dp_arbitrators d.

Lemma role_of_Ok n s peer role : role_of n s peer = Ok role → may_read n (sm_id s) s peer.
Proof.
  unfold role_of, may_read. case_decide as Hp; [by left|]. destruct (is_arbitrator n (sm_id s) peer) eqn:Ha; [|done].
  intros _. right. unfold is_arbitrator in Ha. apply existsb_exists in Ha as ([k d] & Hin & Hb).
  apply bool_decide_eq_true in Hb as [Hs Hp']. exists k, d. split_and!; [|done..].
  apply elem_of_map_to_list. by apply list_elem_of_In.
Qed.

(** A grant is a party's own, to someone who may read. *)
Definition grant_ok n (k : list Z) (g : KeyGrant) : Prop :=
  short (bytes_of (gr_settlement_id g)) ∧ k = grant_key (gr_settlement_id g) (gr_recipient g) (gr_granter g) ∧
  ∃ s, nd_settlements n !! gr_settlement_id g = Some s ∧ may_read n (gr_settlement_id g) s (gr_recipient g) ∧
    ∃ key e sig, is_party s (gr_granter g) key ∧ signed_by key (StTradeChannelKeyGrant e) sig ∧
      kg_settlement_id e = gr_settlement_id g ∧ kg_granter e = gr_granter g ∧ kg_recipient e = gr_recipient g ∧
      kg_sealed_key e = gr_sealed_key g.

(** An entry is its author's own. *)
Definition entry_ok n (k : list Z) (c : ChannelEntry) : Prop :=
  short (bytes_of (ce_settlement_id c)) ∧ short (ce_author c) ∧ u64 (ce_sequence c) ∧
  k = entry_key (ce_settlement_id c) (ce_author c) (ce_sequence c) ∧
  Z.of_nat (length (cc_ciphertext (ce_payload c))) ≤ MAX_ENTRY_CIPHERTEXT ∧
  ∃ s key e sig, nd_settlements n !! ce_settlement_id c = Some s ∧ is_party s (ce_author c) key ∧
    signed_by key (StTradeChannelEntryPost e) sig ∧
    c = mkChannelEntry (ep_settlement_id e) (ep_author e) (ep_sequence e) (ep_kind e) (ep_payload e) (ep_timestamp e).

Definition channels_ok n ch : Prop :=
  (∀ k g, ch_grants ch !! k = Some g → grant_ok n k g) ∧
  (∀ k c, ch_entries ch !! k = Some c → entry_ok n k c).

Lemma market_keeps n n' ch : book_inv n → market_step n n' → channels_ok n ch → channels_ok n' ch.
Proof.
  intros Hb Hstep [Hg He]. destruct Hstep as [now e n n' _ Hrun]. split.
  - intros k g Hk. destruct (Hg k g Hk) as (Hs & Hkey & s & Hset & Hread & key & ev & sig & Hp & Hrest).
    destruct (trade_moves _ _ _ _ _ _ Hb Hrun Hset) as (s' & Hset' & Hdeal & _).
    split_and!; [done..|]. exists s'. split_and!; [done| |].
    + destruct Hread as [Hp'|(j & d & Hd & Hds & Ha)].
      * left. destruct Hdeal as (_ & _ & -> & _ & -> & _). done.
      * right. destruct (case_moves_on _ _ _ _ _ _ Hb Hrun Hd) as (d' & Hd' & (_ & Hds' & _ & _ & _ & _ & _ & _ & Hpre)).
        exists j, d'. split_and!; [done|congruence|]. by eapply elem_of_prefix.
    + exists key, ev, sig. split; [by eapply same_deal_party|done].
  - intros k c Hk. destruct (He k c Hk) as (? & ? & ? & ? & ? & s & key & ev & sig & Hset & Hp & Hrest).
    destruct (trade_moves _ _ _ _ _ _ Hb Hrun Hset) as (s' & Hset' & Hdeal & _).
    split_and!; [done..|]. exists s', key, ev, sig. split_and!; [done|by eapply same_deal_party|apply Hrest..].
Qed.

Lemma grant_keeps n x ch ch' :
  book_inv n → channel_event_typed (TradeChannelKeyGranted x) → channels_ok n ch →
  apply_key_grant n x ch = Ok ch' → channels_ok n ch'.
Proof.
  intros Hb [Hs _] [Hg He] Hrun. unfold apply_key_grant in Hrun. cbv zeta in *. inv_ok. inv_signed. split; [|done].
  intros k g Hk. cbn in Hk. rewrite lookup_insert in Hk. case_decide as Heq; [|by apply Hg].
  simplify_eq. split_and!; [done..|]. cbn.
  match goal with Hset : nd_settlements n !! _ = Some ?s |- _ =>
    exists s; pose proof (proj1 (bk_keyed _ Hb) _ _ Hset) as Hid end.
  split_and!; [done| |].
  - match goal with Hr : role_of _ _ _ = Ok _ |- _ => apply role_of_Ok in Hr; by rewrite Hid in Hr end.
  - match goal with Hp : party_key _ _ = Ok ?key |- _ => apply party_key_Ok in Hp; exists key, (payload x), (signature x) end.
    done.
Qed.

Lemma entry_keeps n x ch ch' :
  channel_event_typed (TradeChannelEntryPosted x) → channels_ok n ch → apply_entry n x ch = Ok ch' →
  channels_ok n ch' ∧ ch_entries ch ⊆ ch_entries ch'.
Proof.
  intros (Hs & Ha & Hq) [Hg He] Hrun. unfold apply_entry in Hrun. cbv zeta in *. inv_ok. inv_signed.
  destruct (ch_entries ch !! _) as [old|] eqn:Hold; [case_decide; by inv_ok|]. inv_ok.
  split; [|by apply insert_subseteq]. split; [done|]. intros k c Hk. cbn in Hk. rewrite lookup_insert in Hk.
  case_decide as Heq; [|by apply He]. simplify_eq. split_and!; [done|done|done|done| |].
  - cbn. lia.
  - match goal with Hset : nd_settlements n !! _ = Some ?s, Hp : party_key _ _ = Ok ?key |- _ =>
      apply party_key_Ok in Hp; by exists s, key, (payload x), (signature x) end.
Qed.

Lemma channel_step_ok nc nc' :
  book_inv nc.1 ∧ channels_ok nc.1 nc.2 → channel_step nc nc' →
  (book_inv nc'.1 ∧ channels_ok nc'.1 nc'.2) ∧ ch_entries nc.2 ⊆ ch_entries nc'.2.
Proof.
  intros [Hb Hok] Hstep. destruct Hstep as [n n' ch Hm|n ch e Ht]; cbn in *.
  - split; [|done]. split; [|by eapply market_keeps]. destruct Hm as [now e n n' Hty Hrun].
    eapply book_step_inv; [done|]. by eapply event_book; [apply Hb|].
  - destruct e as [x|x]; cbn; unfold ignoring.
    + destruct (apply_key_grant n x ch) as [ch'|] eqn:Hrun; [|done]. split; [split; [done|by eapply grant_keeps]|].
      unfold apply_key_grant in Hrun. cbv zeta in Hrun. by inv_ok.
    + destruct (apply_entry n x ch) as [ch'|] eqn:Hrun; [|done]. destruct (entry_keeps n x ch ch') as [? ?]; done.
Qed.

Lemma channel_inv n ch : channel_reachable (n, ch) → book_inv n ∧ channels_ok n ch.
Proof.
  intros Hs. apply (steps_invariant _ (λ nc, book_inv nc.1 ∧ channels_ok nc.1 nc.2)) in Hs; [done| |].
  - intros ? ? Hinv Hstep. by eapply channel_step_ok.
  - split; [apply empty_book|]. by split; intros ? ? ?; set_solver.
Qed.

(** Channel events leave the market alone. *)
Lemma channel_market_reachable n ch : channel_reachable (n, ch) → market_reachable n.
Proof.
  unfold channel_reachable, market_reachable. intros Hs.
  change n with (n, ch).1. change empty_node with (empty_node, mkChannels ∅ ∅).1.
  induction Hs as [|w1 w2 w3 Hs IH Hstep]; [apply steps_refl|].
  destruct Hstep as [n1 n2 ch1 Hm|]; [by eapply steps_snoc|done].
Qed.

Lemma entries_stay nc nc' :
  book_inv nc.1 ∧ channels_ok nc.1 nc.2 → steps channel_step nc nc' → ch_entries nc.2 ⊆ ch_entries nc'.2.
Proof.
  intros Hinv Hs. induction Hs as [|w1 w2 w3 Hs IH Hstep]; [done|]. etrans; [by apply IH|].
  eapply channel_step_ok; [|done].
  eapply (steps_invariant _ (λ nc, book_inv nc.1 ∧ channels_ok nc.1 nc.2)); [|done|done].
  intros ? ? Hi Hst. by eapply channel_step_ok.
Qed.
Lemma channel_grant n ch sid g :
  channels_ok n ch → short (bytes_of sid) → g ∈ tc_grants (channel sid ch) →
  gr_settlement_id g = sid ∧ ∃ k, ch_grants ch !! k = Some g ∧ grant_ok n k g.
Proof.
  intros [Hg _] Hs Hin. cbn in Hin. rewrite merge_sort_Permutation in Hin. apply elem_with_prefix in Hin as (k & Hk & Hp).
  pose proof (Hg _ _ Hk) as Hok. split; [|by exists k]. destruct Hok as (Hs' & -> & _).
  unfold grant_key in Hp. by eapply channel_prefix_of in Hp.
Qed.

Lemma channel_entry n ch sid c :
  channels_ok n ch → short (bytes_of sid) → c ∈ tc_entries (channel sid ch) →
  ce_settlement_id c = sid ∧ ch_entries ch !! entry_key sid (ce_author c) (ce_sequence c) = Some c ∧
  entry_ok n (entry_key sid (ce_author c) (ce_sequence c)) c.
Proof.
  intros [_ He] Hs Hin. cbn in Hin. rewrite merge_sort_Permutation in Hin. apply elem_with_prefix in Hin as (k & Hk & Hp).
  pose proof (He _ _ Hk) as Hok. pose proof Hok as (Hs' & _ & _ & -> & _).
  assert (ce_settlement_id c = sid) as <- by (unfold entry_key in Hp; by eapply channel_prefix_of in Hp). done.
Qed.

Lemma entry_in_channel sid author seq ch c :
  ch_entries ch !! entry_key sid author seq = Some c → c ∈ tc_entries (channel sid ch).
Proof.
  intros Hk. cbn. rewrite merge_sort_Permutation. apply elem_with_prefix. exists (entry_key sid author seq).
  split; [done|]. unfold entry_key. by eexists.
Qed.

(** C32: in every state a node reaches, whoever a trade's channel lists as a
    reader is a party to that trade or sits on the bench of a dispute about
    it, and was handed the key by a statement that names this trade, this reader
    and one of the two parties as the granter, signed under the key the
    settlement has on file for that party.  The buyer's key on file is the one
    the buyer's peer id is made from; the seller's is the one an initiation
    signed by the buyer names, and the seller need not know it. *)
Theorem channel_readers_permitted n ch sid peer :
  channel_reachable (n, ch) → short (bytes_of sid) → is_reader (channel sid ch) peer = true →
  ∃ s granter key e sig, nd_settlements n !! sid = Some s ∧ deal_signed s ∧ may_read n sid s peer ∧
    is_party s granter key ∧ signed_by key (StTradeChannelKeyGrant e) sig ∧
    kg_settlement_id e = sid ∧ kg_granter e = granter ∧ kg_recipient e = peer.
Proof.
  intros Hr Hs Hin. pose proof (reachable_deals _ (channel_market_reachable _ _ Hr)) as Hdeals.
  apply channel_inv in Hr as [_ Hok]. unfold is_reader in Hin.
  apply existsb_exists in Hin as (g & Hg & <-%bool_decide_eq_true). apply list_elem_of_In in Hg.
  destruct (channel_grant _ _ _ _ Hok Hs Hg) as (<- & k & _ & _ & _ & s & Hset & Hread & key & e & sig & Hp & Hsig & Hrest).
  exists s, (gr_granter g), key, e, sig. pose proof (Hdeals _ _ Hset). naive_solver.
Qed.

(** C33: a conversation only grows and nobody's words change: an entry a channel
    shows was signed, as it stands, under the key the settlement has on file for
    the party it names (the buyer's own, or the one the buyer's signed
    initiation gives the seller), fits the size limit, is still shown in every
    later state whatever the node hears, and stays the only entry of its author
    under its number. *)
Theorem conversation_append_only n ch n' ch' sid c :
  channel_reachable (n, ch) → steps channel_step (n, ch) (n', ch') → short (bytes_of sid) →
  c ∈ tc_entries (channel sid ch) →
  (∃ s key e sig, nd_settlements n !! sid = Some s ∧ deal_signed s ∧ is_party s (ce_author c) key ∧
     signed_by key (StTradeChannelEntryPost e) sig ∧
     c = mkChannelEntry (ep_settlement_id e) (ep_author e) (ep_sequence e) (ep_kind e) (ep_payload e) (ep_timestamp e)) ∧
  Z.of_nat (length (cc_ciphertext (ce_payload c))) ≤ MAX_ENTRY_CIPHERTEXT ∧
  c ∈ tc_entries (channel sid ch') ∧
  ∀ c', c' ∈ tc_entries (channel sid ch') → ce_author c' = ce_author c → ce_sequence c' = ce_sequence c → c' = c.
Proof.
  intros Hr Hs Hsid Hc. pose proof (reachable_deals _ (channel_market_reachable _ _ Hr)) as Hdeals. assert (channel_reachable (n', ch')) as [_ Hok']%channel_inv by by eapply steps_trans.
  apply channel_inv in Hr as Hinv. destruct (channel_entry _ _ _ _ (proj2 Hinv) Hsid Hc) as (Hid & Hk & Hok).
  apply entries_stay in Hs; [|done]. cbn in Hs. pose proof (lookup_weaken _ _ _ _ Hk Hs) as Hk'.
  destruct Hok as (_ & _ & _ & _ & Hsize & Hauth). rewrite Hid in Hauth.
  destruct Hauth as (s & key & e & sig & Hset & Hp & Hsig & Heq). pose proof (Hdeals _ _ Hset).
  split_and!; [by exists s, key, e, sig|done|by eapply entry_in_channel|].
  intros c' Hc' Ha Hq. destruct (channel_entry _ _ _ _ Hok' Hsid Hc') as (_ & Hl & _). rewrite Ha, Hq in Hl. congruence.
Qed.

(** The record an accepted post becomes. *)
Definition stored (p : TradeChannelEntryPost) : ChannelEntry :=
  mkChannelEntry (ep_settlement_id p) (ep_author p) (ep_sequence p) (ep_kind p) (ep_payload p) (ep_timestamp p).

(** A post taken at a free number is stored there, and refused wherever the
    number is taken by another. *)
Lemma entry_accepted n x ch ch' :
  let p := payload x in
  let k := entry_key (ep_settlement_id p) (ep_author p) (ep_sequence p) in
  apply_entry n x ch = Ok ch' → ch_entries ch !! k = None →
  ch_entries ch' = <[k := stored p]> (ch_entries ch) ∧
  ∀ ch0 old, ch_entries ch0 !! k = Some old → old ≠ stored p → apply_entry n x ch0 = Err (Code SequenceReused).
Proof.
  intros p k. unfold apply_entry. fold p. fold k. fold (stored p). cbv zeta.
  destruct (nd_settlements n !! _) as [s|]; [|done]. cbn [ok_or mbind result_bind].
  destruct (party_key s _) as [key|]; [|done]. cbn [mbind result_bind].
  destruct (check_signature _ _ _ _ _) as [[]|]; [|done]. cbn [mbind result_bind].
  destruct (require _ _) as [[]|]; [|done]. cbn [mbind result_bind]. intros Hrun Hnone. rewrite Hnone in Hrun.
  injection Hrun as <-. split; [done|]. intros ch0 old Hl Hne. by rewrite Hl, decide_False.
Qed.

(** The first version does not stand everywhere: when a party signs two
    different entries under one number, two nodes in the same state that hear
    them in opposite orders each refuse the other's, and from then on show
    different entries there in every state either reaches. *)
Theorem equivocation_splits_nodes n ch x y chx chy nx chx' ny chy' :
  channel_reachable (n, ch) →
  channel_event_typed (TradeChannelEntryPosted x) → channel_event_typed (TradeChannelEntryPosted y) →
  let k := entry_key (ep_settlement_id (payload x)) (ep_author (payload x)) (ep_sequence (payload x)) in
  ep_settlement_id (payload y) = ep_settlement_id (payload x) → ep_author (payload y) = ep_author (payload x) →
  ep_sequence (payload y) = ep_sequence (payload x) → payload x ≠ payload y → ch_entries ch !! k = None →
  apply_entry n x ch = Ok chx → apply_entry n y ch = Ok chy →
  steps channel_step (n, chx) (nx, chx') → steps channel_step (n, chy) (ny, chy') →
  apply_entry n y chx = Err (Code SequenceReused) ∧ apply_entry n x chy = Err (Code SequenceReused) ∧
  ∃ a b, ch_entries chx' !! k = Some a ∧ ch_entries chy' !! k = Some b ∧ a ≠ b.
Proof.
  intros Hr Htx Hty k Hs Ha Hq Hne Hfresh Hx Hy Hsx Hsy.
  assert (∀ z chz, channel_event_typed (TradeChannelEntryPosted z) → apply_entry n z ch = Ok chz →
    channel_reachable (n, chz)) as Hnext.
  { intros z chz Ht Hz. eapply steps_trans; [done|]. apply steps_one.
    pose proof (channel_hears n ch (TradeChannelEntryPosted z) Ht) as Hst. cbn in Hst. rewrite Hz in Hst. exact Hst. }
  pose proof (entries_stay (n, chx) (nx, chx') (channel_inv _ _ (Hnext _ _ Htx Hx)) Hsx) as Hmx.
  pose proof (entries_stay (n, chy) (ny, chy') (channel_inv _ _ (Hnext _ _ Hty Hy)) Hsy) as Hmy. cbn in Hmx, Hmy.
  destruct (entry_accepted _ _ _ _ Hx) as [Hix Hrx]; [done|]. rewrite Hix in Hmx.
  destruct (entry_accepted _ _ _ _ Hy) as [Hiy Hry]; [by rewrite Hs, Ha, Hq|]. rewrite Hs, Ha, Hq in Hiy, Hry.
  rewrite Hiy in Hmy. assert (stored (payload x) ≠ stored (payload y)) as Hdiff.
  { unfold stored. intros Heq. apply Hne. destruct (payload x), (payload y). by simplify_eq/=. }
  split_and!.
  - apply (Hry _ (stored (payload x))); [rewrite Hix; apply lookup_insert_eq|done].
  - apply (Hrx _ (stored (payload y))); [rewrite Hiy; apply lookup_insert_eq|done].
  - exists (stored (payload x)), (stored (payload y)).
    split_and!; [eapply lookup_weaken; [apply lookup_insert_eq|done]..|done].
Qed.
End index.
