(* ===== verification/Gossip.v ===== *)
(** * Gossip: how a node hears events and passes them on

    [crates/gossip]: the event envelope and its id, what a node accepts, the
    credit it grants each relaying peer, the forwarding of what it stores, and
    the recovery of what it missed.  What a call sends or hands to the domain
    crates is the list of [output]s it returns. *)

From stdpp Require Import sorting.
From Stdlib Require Import Floats.SpecFloat.
From S2P Require Import Prelude Runtime Peers Pricing Statements.

(** ** Double precision *)

Module F64.
Abbreviation f64 := spec_float.
Definition of_Z (n : Z) : f64 := binary_normalize 53 1024 n 0 false.
Definition add : f64 → f64 → f64 := SFadd 53 1024.
Definition sub : f64 → f64 → f64 := SFsub 53 1024.
Definition mul : f64 → f64 → f64 := SFmul 53 1024.
Definition div : f64 → f64 → f64 := SFdiv 53 1024.
Definition geb (a b : f64) : bool := SFleb b a.

(** [f64::min]: a NaN is no answer. *)
Definition min (a b : f64) : f64 :=
  match a, b with
  | S754_nan, _ => b
  | _, S754_nan => a
  | _, _ => if SFltb b a then b else a
  end.

Definition NANOS_PER_SEC : Z := 1000000000.

(** [Duration::as_secs_f64], of nanoseconds. *)
Definition as_secs (d : Z) : f64 :=
  add (of_Z (d / NANOS_PER_SEC)) (div (of_Z (d mod NANOS_PER_SEC)) (of_Z NANOS_PER_SEC)).
End F64.

(** ** The envelope *)

Inductive Priority :=
  | SessionReservationSettlement | TradeEscrow | AdvertisementPriority | ReputationPriority
  | GovernancePriority | SnapshotPriority | BackgroundSync.
#[export] Instance Priority_eq_dec : EqDecision Priority.
Proof. solve_decision. Defined.

Record EventEnvelope := mkEventEnvelope {
  ev_id : list Z;
  ev_type : string;
  ev_ofs_spec : Z;
  ev_version : Z;
  ev_origin : PeerId;
  ev_timestamp : Timestamp;
  ev_ttl : Z;
  ev_priority : Priority;
  ev_signature : Signature;
  ev_payload : list Z;
}.
#[export] Instance EventEnvelope_eq_dec : EqDecision EventEnvelope.
Proof. solve_decision. Defined.
#[export] Instance EventEnvelope_eta : Settable EventEnvelope := fun r =>
  mkEventEnvelope (ev_id r) (ev_type r) (ev_ofs_spec r) (ev_version r) (ev_origin r) (ev_timestamp r) (ev_ttl r)
    (ev_priority r) (ev_signature r) (ev_payload r).

Definition is_ascii_uppercase (c : Z) : bool := (65 <=? c) && (c <=? 90).
Definition is_ascii_alphanumeric (c : Z) : bool :=
  is_ascii_uppercase c || (97 <=? c) && (c <=? 122) || (48 <=? c) && (c <=? 57).

(** [EventType::new]. *)
Definition is_pascal_case (name : string) : bool :=
  match bytes_of name with
  | [] => false
  | c :: _ => is_ascii_uppercase c && forallb is_ascii_alphanumeric (bytes_of name)
  end.

(** The raw bytes, where there are sixty-four of them. *)
Definition sig_bytes (s : Signature) : list Z := if decide (length s = 64%nat) then s else [].

Definition signable_bytes (event_type : string) (ofs_spec : Z) (origin : PeerId) (timestamp : Timestamp)
    (payload : list Z) : list Z :=
  bytes_of event_type ++ to_be_u16 ofs_spec ++ origin ++ to_be_u64 timestamp ++ payload.

Definition id_input (event_type : string) (payload : list Z) (timestamp : Timestamp) (origin : PeerId)
    (sig : Signature) : list Z :=
  bytes_of event_type ++ payload ++ to_be_u64 timestamp ++ origin ++ sig_bytes sig.

Definition compute `{Wire} (event_type : string) (payload : list Z) (timestamp : Timestamp) (origin : PeerId)
    (sig : Signature) : list Z :=
  digest (id_input event_type payload timestamp origin sig).

Definition matches `{Wire} (e : EventEnvelope) : bool :=
  bool_decide (compute (ev_type e) (ev_payload e) (ev_timestamp e) (ev_origin e) (ev_signature e) = ev_id e).

(** ** Who may say what, and who listens *)

Inductive NodeRole :=
  | FullNode | BootstrapNode | SnapshotProvider | NotificationGateway | OracleProvider
  | RiskIntelligenceProvider | MerchantGateway | PublicApiNode.
#[export] Instance NodeRole_eq_dec : EqDecision NodeRole.
Proof. solve_decision. Defined.

Definition required_role (event_type : string) : option NodeRole :=
  if decide (event_type = "AdvertisementCreated" ∨ event_type = "AdvertisementUpdated")%string then Some MerchantGateway
  else if decide (event_type = "FXPriceUpdated"%string) then Some OracleProvider
  else if decide (event_type = "NotificationStatus"%string) then Some NotificationGateway
  else if decide (event_type = "WalletFlagged"%string) then Some RiskIntelligenceProvider
  else None.

Definition is_authorized (roles : list NodeRole) (event_type : string) : bool :=
  match required_role event_type with
  | Some role => bool_decide (role ∈ roles)
  | None => true
  end.

Module Channel.
Inductive t :=
  | Marketplace | Governance | Reputation | Notifications | Oracle | RiskIntelligence | Chain | Infrastructure.
#[global] Instance t_eq_dec : EqDecision t.
Proof. solve_decision. Defined.
End Channel.

Definition for_ofs_spec (ofs_spec : Z) : Channel.t :=
  if decide (2000 ≤ ofs_spec ≤ 2999) then Channel.Marketplace
  else if decide (ofs_spec = 4000) then Channel.Governance
  else if decide (ofs_spec = 3000) then Channel.Reputation
  else if decide (ofs_spec = 6000) then Channel.Notifications
  else if decide (ofs_spec = 7000) then Channel.Oracle
  else if decide (ofs_spec = 7100) then Channel.RiskIntelligence
  else if decide (ofs_spec = 4300) then Channel.Chain
  else Channel.Infrastructure.

Inductive Subscription := All | Only (channels : list Channel.t).

Definition subscription_accepts (s : Subscription) (c : Channel.t) : bool :=
  match s with All => true | Only cs => bool_decide (c ∈ cs) end.

Definition timestamp_le (a b : EventEnvelope) : Prop := ev_timestamp a ≤ ev_timestamp b.
#[export] Instance timestamp_le_dec a b : Decision (timestamp_le a b).
Proof. unfold timestamp_le. apply _. Defined.

(** ** The service *)

Module GossipError.
Inductive t :=
  | InvalidSignature | UnauthorizedOrigination | ProtocolVersionMismatch | MalformedPayload | EventIdMismatch
  | TimestampTooFarAhead | IdentityInUseElsewhere | RelayCreditExhausted.
End GossipError.
Abbreviation gossip_result := (result GossipError.t).

Definition MIN_OBSERVERS : Z := 2.
Definition MAX_TTL : Z := 16.
Definition MAX_CLOCK_SKEW_MILLIS : Z := 5 * 60 * 1000.
Definition MAX_REACHABLE_ADDRESSES : Z := 256.
Definition MAX_OBSERVERS_PER_ADDRESS : Z := 8.
Definition GOSSIP_PEER_CREDIT_CAPACITY : Z := 200.
Definition GOSSIP_PEER_CREDIT_REFILL_PER_SEC : Z := 20.
Definition GOSSIP_PEER_DROP_DISCONNECT_THRESHOLD : Z := 1000.
Definition RECOVERY_RESPONSE_BUDGET_BYTES : Z := 768 * 1024.

Inductive ReceiveOutcome := Stored | Duplicate | Rejected (f : fault GossipError.t).

(** An [Instant]: nanoseconds of a clock that never goes back. *)
Abbreviation Instant := Z.

Record PeerCredit := mkPeerCredit {
  pcr_tokens : F64.f64;
  pcr_last_refill : Instant;
  pcr_drops : Z;
  pcr_escalated : bool;
}.

Definition new_credit (tick : Instant) : PeerCredit :=
  mkPeerCredit (F64.of_Z GOSSIP_PEER_CREDIT_CAPACITY) tick 0 false.

Definition try_consume (tick : Instant) (c : PeerCredit) : bool * PeerCredit :=
  let elapsed := F64.as_secs (Z.max 0 (tick - pcr_last_refill c)) in
  let tokens := F64.min (F64.add (pcr_tokens c) (F64.mul elapsed (F64.of_Z GOSSIP_PEER_CREDIT_REFILL_PER_SEC)))
                  (F64.of_Z GOSSIP_PEER_CREDIT_CAPACITY) in
  if F64.geb tokens (F64.of_Z 1)
  then (true, mkPeerCredit (F64.sub tokens (F64.of_Z 1)) tick (pcr_drops c) (pcr_escalated c))
  else (false, mkPeerCredit tokens tick (pcr_drops c) (pcr_escalated c)).

Abbreviation Multiaddr := string.

Record gossip := mkGossip {
  gs_store : gmap (list Z) EventEnvelope;
  gs_self_peer_id : PeerId;
  gs_self_roles : list NodeRole;
  gs_subscription : Subscription;
  gs_peer_keys : gmap PeerId PublicKey;
  gs_connected : gset PeerId;
  gs_recovery_served : gset PeerId;
  gs_reachable : gset Multiaddr;
  gs_bound : gset Multiaddr;
  gs_observed_by : gmap Multiaddr (gset PeerId);
  gs_started_at : Timestamp;
  gs_identity_conflicts : Z;
  gs_newly_reachable : list Multiaddr;
  gs_peer_credits : gmap PeerId PeerCredit;
}.
#[export] Instance gossip_eta : Settable gossip := fun r =>
  mkGossip (gs_store r) (gs_self_peer_id r) (gs_self_roles r) (gs_subscription r) (gs_peer_keys r) (gs_connected r)
    (gs_recovery_served r) (gs_reachable r) (gs_bound r) (gs_observed_by r) (gs_started_at r)
    (gs_identity_conflicts r) (gs_newly_reachable r) (gs_peer_credits r).

Definition new_gossip (self : PeerId) (roles : list NodeRole) (subscription : Subscription) (now : Timestamp)
    (store : gmap (list Z) EventEnvelope) : gossip :=
  mkGossip store self roles subscription ∅ ∅ ∅ ∅ ∅ ∅ now 0 [] ∅.

(** What leaves the service: an event for the domain crates, a push, a request
    or an answer to a peer, and a connection closed. *)
Inductive output :=
  | Notify (e : EventEnvelope)
  | Push (to : PeerId) (e : EventEnvelope)
  | AskRecovery (to : PeerId) (s : Subscription)
  | AnswerRecovery (to : PeerId) (events : list EventEnvelope)
  | Acknowledge (to : PeerId)
  | GracefulDisconnect (peer : PeerId).

(** libp2p: the key a peer id carries, and postcard: the encoded length. *)
Class Transport := {
  libp2p_key : PeerId → option PublicKey;
  wire_size : EventEnvelope → Z;
}.

Section service.
Context `{Wire} `{Transport}.
Implicit Types (g : gossip) (e : EventEnvelope) (now : Timestamp) (tick : Instant).

Definition register_peer_key (peer : PeerId) (key : PublicKey) g : gossip :=
  g <| gs_peer_keys := <[peer := key]> (gs_peer_keys g) |>.

(** The connected peers, but one. *)
Definition broadcast e (exclude : option PeerId) g : list output :=
  (λ peer, Push peer e) <$> filter (λ peer, Some peer ≠ exclude) (elements (gs_connected g)).

Definition put e g : gossip := g <| gs_store := <[ev_id e := e]> (gs_store g) |>.

(** [sign] is the node's own key at work. *)
Definition originate (sign : list Z → Signature) now (event_type : string) (ofs_spec : Z) (priority : Priority)
    (ttl : Z) (payload : list Z) g : gossip_result (list Z) * gossip * list output :=
  if is_authorized (gs_self_roles g) event_type then
    let sig := sign (signable_bytes event_type ofs_spec (gs_self_peer_id g) now payload) in
    let id := compute event_type payload now (gs_self_peer_id g) sig in
    let e := mkEventEnvelope id event_type ofs_spec 1 (gs_self_peer_id g) now ttl priority sig payload in
    (Ok id, put e g, Notify e :: broadcast e None g)
  else (Err (Code GossipError.UnauthorizedOrigination), g, []).

Definition is_impostor e g : bool :=
  bool_decide (ev_origin e = gs_self_peer_id g ∧ gs_started_at g < ev_timestamp e).

Definition origin_key (origin : PeerId) g : option PublicKey :=
  match libp2p_key origin with
  | Some key => Some key
  | None => gs_peer_keys g !! origin
  end.

Definition validate now e g : gossip_result unit :=
  _ ← require (ev_version e = 1) (Code GossipError.ProtocolVersionMismatch);
  _ ← require (¬ saturating_add_u64 now MAX_CLOCK_SKEW_MILLIS < ev_timestamp e) (Code GossipError.TimestampTooFarAhead);
  public_key ← ok_or (origin_key (ev_origin e) g) (Code GossipError.InvalidSignature);
  let signable := signable_bytes (ev_type e) (ev_ofs_spec e) (ev_origin e) (ev_timestamp e) (ev_payload e) in
  _ ← require (verify public_key signable (ev_signature e) = true) (Code GossipError.InvalidSignature);
  require (matches e = true) (Code GossipError.EventIdMismatch).

Definition consume_relay_credit tick (peer : PeerId) g : bool * gossip * list output :=
  let '(taken, c) := try_consume tick (default (new_credit tick) (gs_peer_credits g !! peer)) in
  if taken then (true, g <| gs_peer_credits := <[peer := c]> (gs_peer_credits g) |>, [])
  else
    let drops := pcr_drops c + 1 in
    let should_escalate := bool_decide (GOSSIP_PEER_DROP_DISCONNECT_THRESHOLD ≤ drops) && negb (pcr_escalated c) in
    let c' := mkPeerCredit (pcr_tokens c) (pcr_last_refill c) drops (pcr_escalated c || should_escalate) in
    (false, g <| gs_peer_credits := <[peer := c']> (gs_peer_credits g) |>,
     if should_escalate then [GracefulDisconnect peer] else []).

Definition forward (from : option PeerId) e g : list output :=
  let next_ttl := ev_ttl e - 1 in
  if decide (0 ≤ next_ttl ∧ 0 < next_ttl) then broadcast (e <| ev_ttl := next_ttl |>) from g else [].

(** [fwd]: what the registered forward filters answer together. *)
Definition receive_event (fwd : EventEnvelope → bool) now tick (from : option PeerId) e g
    : ReceiveOutcome * gossip * list output :=
  match gs_store g !! ev_id e with
  | Some _ => (Duplicate, g, [])
  | None =>
      let '(credit, g, out) :=
        match from with
        | Some peer => consume_relay_credit tick peer g
        | None => (true, g, [])
        end in
      if credit then
        match validate now e g with
        | Err f => (Rejected f, g, out)
        | Ok _ =>
            if is_impostor e g
            then (Rejected (Code GossipError.IdentityInUseElsewhere),
                  g <| gs_identity_conflicts := gs_identity_conflicts g + 1 |>, out)
            else
              let e := e <| ev_ttl := Z.min (ev_ttl e) MAX_TTL |> in
              let g := put e g in
              (Stored, g, out ++ Notify e :: (if fwd e then forward from e g else []))
        end
      else (Rejected (Code GossipError.RelayCreditExhausted), g, out)
  end.

(** ** The log *)

(** [iter_prefix] of the whole column family: by key. *)
Definition all_events (m : gmap (list Z) EventEnvelope) : list EventEnvelope :=
  (merge_sort (λ a b : list Z * EventEnvelope, bytes_le a.1 b.1) (map_to_list m)).*2.

Definition all_for_subscription (s : Subscription) g : list EventEnvelope :=
  filter (λ e, subscription_accepts s (for_ofs_spec (ev_ofs_spec e)) = true) (all_events (gs_store g)).

Definition prune_before (cutoff : Timestamp) g : Z * gossip :=
  let kept := filter (λ kv : list Z * EventEnvelope, ¬ ev_timestamp kv.2 < cutoff) (gs_store g) in
  (Z.of_nat (size (gs_store g)) - Z.of_nat (size kept), g <| gs_store := kept |>).

Definition GOSSIP_LOG_RETENTION : Z := 7 * 24 * 60 * 60 * 1000.

Definition poll_gossip_pruning now g : gossip := (prune_before (saturating_sub_u64 now GOSSIP_LOG_RETENTION) g).2.

(** ** Recovery *)

(** Stop at the first event that does not fit. *)
Fixpoint fits (budget : Z) (l : list EventEnvelope) : list EventEnvelope :=
  match l with
  | [] => []
  | e :: l => if decide (wire_size e ≤ budget) then e :: fits (budget - wire_size e) l else []
  end.

Definition recoverable_for (s : Subscription) g : list EventEnvelope :=
  fits RECOVERY_RESPONSE_BUDGET_BYTES (merge_sort timestamp_le (all_for_subscription s g)).

(** An envelope of another peer, with what its payload decodes to. *)
Inductive request_message :=
  | GossipPush (e : option EventEnvelope)
  | GossipRecoveryRequest (s : option Subscription)
  | UnknownMessage.

Inductive response_message :=
  | GossipRecoveryResponse (events : option (list EventEnvelope))
  | GossipPushAck.

Definition on_request (fwd : EventEnvelope → bool) now tick (peer : PeerId) (m : request_message) g
    : gossip * list output :=
  match m with
  | GossipPush (Some e) =>
      let '(_, g, out) := receive_event fwd now tick (Some peer) e g in (g, out ++ [Acknowledge peer])
  | GossipPush None => (g, [Acknowledge peer])
  | GossipRecoveryRequest (Some s) =>
      if decide (peer ∈ gs_recovery_served g) then (g, [AnswerRecovery peer []])
      else (g <| gs_recovery_served := {[peer]} ∪ gs_recovery_served g |>, [AnswerRecovery peer (recoverable_for s g)])
  | GossipRecoveryRequest None => (g, [AnswerRecovery peer []])
  | UnknownMessage => (g, [Acknowledge peer])
  end.

Fixpoint receive_all (fwd : EventEnvelope → bool) now tick (peer : PeerId) (l : list EventEnvelope) g
    : gossip * list output :=
  match l with
  | [] => (g, [])
  | e :: l =>
      let '(_, g, out) := receive_event fwd now tick (Some peer) e g in
      let '(g, out') := receive_all fwd now tick peer l g in (g, out ++ out')
  end.

Definition on_response (fwd : EventEnvelope → bool) now tick (peer : PeerId) (m : response_message) g
    : gossip * list output :=
  match m with
  | GossipRecoveryResponse (Some events) => receive_all fwd now tick peer events g
  | _ => (g, [])
  end.

(** ** Connections and addresses *)

Definition is_dialable (address : Multiaddr) : bool :=
  negb (existsb (λ w, String.prefix w address) ["/ip4/0.0.0.0/"; "/ip6/::/"]%string).

Definition record_reachable (address : Multiaddr) g : bool * gossip :=
  if is_dialable address then
    if decide (address ∈ gs_reachable g) then (true, g)
    else if decide (MAX_REACHABLE_ADDRESSES ≤ Z.of_nat (size (gs_reachable g))) then (false, g)
    else (true, g <| gs_reachable := {[address]} ∪ gs_reachable g |>
                  <| gs_newly_reachable := gs_newly_reachable g ++ [address] |>)
  else (false, g).

Definition record_observed (peer : PeerId) (address : Multiaddr) g : gossip :=
  if is_dialable address then
    let '(tracked, g) := record_reachable address g in
    if tracked then
      let reporters := default ∅ (gs_observed_by g !! address) in
      let reporters' :=
        if decide (Z.of_nat (size reporters) < MAX_OBSERVERS_PER_ADDRESS) then {[peer]} ∪ reporters else reporters in
      g <| gs_observed_by := <[address := reporters']> (gs_observed_by g) |>
    else g
  else g.

Definition corroborated_addresses g : list Multiaddr :=
  elements (gs_bound g) ++
  (filter (λ kv : Multiaddr * gset PeerId, MIN_OBSERVERS ≤ Z.of_nat (size kv.2)) (map_to_list (gs_observed_by g))).*1.

Definition take_newly_reachable g : list Multiaddr * gossip := (gs_newly_reachable g, g <| gs_newly_reachable := [] |>).

Inductive swarm_event :=
  | ConnectionEstablished (peer : PeerId)
  | ConnectionClosed (peer : PeerId)
  | NewListenAddr (address : Multiaddr)
  | IdentifyReceived (peer : PeerId) (observed_addr : Multiaddr).

Definition handle_lifecycle (ev : swarm_event) g : gossip * list output :=
  match ev with
  | ConnectionEstablished peer =>
      (g <| gs_connected := {[peer]} ∪ gs_connected g |>, [AskRecovery peer (gs_subscription g)])
  | ConnectionClosed peer =>
      (g <| gs_connected := gs_connected g ∖ {[peer]} |>
         <| gs_recovery_served := gs_recovery_served g ∖ {[peer]} |>
         <| gs_peer_credits := delete peer (gs_peer_credits g) |>, [])
  | NewListenAddr address =>
      let g := if is_dialable address then g <| gs_bound := {[address]} ∪ gs_bound g |> else g in
      ((record_reachable address g).2, [])
  | IdentifyReceived peer observed_addr => (record_observed peer observed_addr g, [])
  end.

(** ** Everything that happens to the service *)

Inductive gossip_event :=
  | Originated (now : Timestamp) (event_type : string) (ofs_spec : Z) (priority : Priority) (ttl : Z) (payload : list Z)
  | Requested (now : Timestamp) (tick : Instant) (peer : PeerId) (m : request_message)
  | Responded (now : Timestamp) (tick : Instant) (peer : PeerId) (m : response_message)
  | Lifecycle (ev : swarm_event).

Definition handle (sign : list Z → Signature) (fwd : EventEnvelope → bool) (ev : gossip_event) g
    : gossip * list output :=
  match ev with
  | Originated now event_type ofs_spec priority ttl payload =>
      let '(_, g, out) := originate sign now event_type ofs_spec priority ttl payload g in (g, out)
  | Requested now tick peer m => on_request fwd now tick peer m g
  | Responded now tick peer m => on_response fwd now tick peer m g
  | Lifecycle ev => handle_lifecycle ev g
  end.
End service.
