(* ===== verification/GossipTheorems.v ===== *)
(** * GossipTheorems: what a node stores, repeats and forgets

    Every event in the log is its origin's own and is handed to the domain
    crates once per stay in the log; the id and the signed bytes of an event
    determine it; a flood dies out; and what the relay credit, the hop budget
    and the recovery of a missed backlog really do. *)

From stdpp Require Import sorting.
From S2P Require Import Prelude Runtime Peers Pricing Statements MarketState Gossip.

(** ** What a call hands over *)

Definition notified (out : list output) : list EventEnvelope :=
  omap (λ o, match o with Notify e => Some e | _ => None end) out.

Definition pushed (out : list output) : list (PeerId * EventEnvelope) :=
  omap (λ o, match o with Push p e => Some (p, e) | _ => None end) out.

Lemma notified_app a b : notified (a ++ b) = notified a ++ notified b.
Proof. apply omap_app. Qed.

Lemma notified_notify e l : notified (Notify e :: l) = e :: notified l.
Proof. done. Qed.

Section service.
Context `{Wire} `{Transport}.
Implicit Types (g : gossip) (e : EventEnvelope) (now : Timestamp) (tick : Instant) (fwd : EventEnvelope → bool).

Lemma notified_broadcast e x g : notified (broadcast e x g) = [].
Proof. unfold broadcast. by induction (filter _ _). Qed.

Lemma notified_forward from e g : notified (forward from e g) = [].
Proof. unfold forward. case_decide; [apply notified_broadcast|done]. Qed.

(** Everything of the service but the credits. *)
Definition same_but_credits g g' : Prop := g' = g <| gs_peer_credits := gs_peer_credits g' |>.

Lemma same_fields g g' :
  same_but_credits g g' → gs_store g' = gs_store g ∧ gs_peer_keys g' = gs_peer_keys g ∧
  gs_self_peer_id g' = gs_self_peer_id g ∧ gs_connected g' = gs_connected g.
Proof. unfold same_but_credits. by intros ->. Qed.

Lemma credit_spec tick peer g ok g' out :
  consume_relay_credit tick peer g = (ok, g', out) → same_but_credits g g' ∧ notified out = [] ∧ pushed out = [].
Proof.
  unfold consume_relay_credit, same_but_credits. destruct (try_consume _ _) as [[] c]; intros [= <- <- <-]; [done|].
  by case_match.
Qed.

Definition clamped e : EventEnvelope := e <| ev_ttl := Z.min (ev_ttl e) MAX_TTL |>.

(** The two ways an offered event can go. *)
Inductive receipt fwd now e g : ReceiveOutcome → gossip → list output → Prop :=
  | receipt_stored g1 from out :
      gs_store g !! ev_id e = None → same_but_credits g g1 → validate now e g1 = Ok () → is_impostor e g1 = false →
      notified out = [] → pushed out = [] →
      receipt fwd now e g Stored (put (clamped e) g1)
        (out ++ Notify (clamped e) :: (if fwd (clamped e) then forward from (clamped e) (put (clamped e) g1) else []))
  | receipt_kept r g1 out :
      r ≠ Stored → gs_store g1 = gs_store g → gs_peer_keys g1 = gs_peer_keys g →
      gs_self_peer_id g1 = gs_self_peer_id g → gs_connected g1 = gs_connected g → notified out = [] → pushed out = [] →
      receipt fwd now e g r g1 out.

Lemma receive_receipt fwd now tick from e g r g' out :
  receive_event fwd now tick from e g = (r, g', out) → receipt fwd now e g r g' out.
Proof.
  unfold receive_event. destruct (gs_store g !! ev_id e) eqn:Hnew; [intros [= <- <- <-]; by apply receipt_kept|].
  destruct (match from with Some _ => _ | None => _ end) as [[ok g1] o] eqn:Hc.
  assert (same_but_credits g g1 ∧ notified o = [] ∧ pushed o = []) as (Hsame & Hn & Hp).
  { destruct from; [by eapply credit_spec|]. injection Hc as <- <- <-. by destruct g. }
  destruct (same_fields _ _ Hsame) as (? & ? & ? & ?).
  destruct ok; [|intros [= <- <- <-]; by apply receipt_kept].
  destruct (validate now e g1) as [[]|f] eqn:Hv; [|intros [= <- <- <-]; by apply receipt_kept].
  destruct (is_impostor e g1) eqn:Hi; intros [= <- <- <-]; [by apply receipt_kept|by constructor].
Qed.

(** ** The log grows by what is handed over *)

Definition grows g (l : list EventEnvelope) g' : Prop :=
  gs_store g ⊆ gs_store g' ∧ NoDup (ev_id <$> l) ∧
  ∀ e, e ∈ l → gs_store g !! ev_id e = None ∧ gs_store g' !! ev_id e = Some e.

Lemma grows_same g g' : gs_store g' = gs_store g → grows g [] g'.
Proof. intros Heq. split_and!; [by rewrite Heq|constructor|set_solver]. Qed.

Lemma grows_trans g l g1 l' g2 : grows g l g1 → grows g1 l' g2 → grows g (l ++ l') g2.
Proof.
  intros (Hs & Hd & Hl) (Hs' & Hd' & Hl'). split_and!; [by etrans| |].
  - rewrite fmap_app. apply NoDup_app. split_and!; [done| |done].
    intros id (e & -> & He)%list_elem_of_fmap (e' & Heq & He')%list_elem_of_fmap.
    destruct (Hl _ He) as [_ ?], (Hl' _ He') as [? _]. congruence.
  - intros e [He|He]%elem_of_app.
    + destruct (Hl _ He) as [? ?]. split; [done|]. by eapply lookup_weaken.
    + destruct (Hl' _ He) as [Hn ?]. split; [|done]. by eapply lookup_weaken_None.
Qed.

Lemma receipt_grows fwd now e g r g' out : receipt fwd now e g r g' out → grows g (notified out) g'.
Proof.
  destruct 1 as [g1 from out Hnew Hsame Hv Hi Hn Hp|r g1 out Hr Hst _ _ _ Hn _].
  - destruct (same_fields _ _ Hsame) as (Hst & _). rewrite notified_app, Hn, notified_notify. cbn [app].
    assert (notified (if fwd (clamped e) then forward from (clamped e) (put (clamped e) g1) else []) = []) as ->.
    { case_match; [apply notified_forward|done]. }
    split_and!; cbn; rewrite ?Hst.
    + by apply insert_subseteq.
    + apply NoDup_singleton.
    + intros e' ->%list_elem_of_singleton. cbn. by rewrite lookup_insert_eq.
  - rewrite Hn. by apply grows_same.
Qed.

Lemma receive_all_grows fwd now tick peer l g g' out :
  receive_all fwd now tick peer l g = (g', out) → grows g (notified out) g'.
Proof.
  revert g out. induction l as [|e l IH]; intros g out Hrun; cbn in Hrun; [injection Hrun as <- <-; by apply grows_same|].
  destruct (receive_event _ _ _ _ _ _) as [[r g1] o] eqn:Hr. destruct (receive_all _ _ _ _ _ g1) as [g2 o'] eqn:Hl.
  injection Hrun as <- <-. rewrite notified_app. eapply grows_trans; [|by apply IH].
  by eapply receipt_grows, receive_receipt.
Qed.

Lemma record_reachable_store a g : gs_store (record_reachable a g).2 = gs_store g.
Proof. unfold record_reachable. by repeat case_match. Qed.

Lemma record_observed_store peer a g : gs_store (record_observed peer a g) = gs_store g.
Proof.
  unfold record_observed. case_match; [|done]. pose proof (record_reachable_store a g) as Hs.
  destruct (record_reachable a g) as [[] g1]; done.
Qed.

Lemma lifecycle_store ev g : gs_store (handle_lifecycle ev g).1 = gs_store g ∧ notified (handle_lifecycle ev g).2 = [].
Proof.
  destruct ev; cbn; try done; split; try done.
  - rewrite record_reachable_store. by case_match.
  - apply record_observed_store.
Qed.

Definition originated (ev : gossip_event) : Prop := match ev with Originated _ _ _ _ _ _ => True | _ => False end.
#[export] Instance originated_dec ev : Decision (originated ev).
Proof. destruct ev; apply _. Defined.

Lemma heard_grows sign fwd ev g g' out :
  ¬ originated ev → handle sign fwd ev g = (g', out) → grows g (notified out) g'.
Proof.
  intros Ho Hrun. destruct ev as [| now tick peer m|now tick peer m|ev]; cbn in Ho, Hrun; [done|..].
  - unfold on_request in Hrun. destruct m as [[e|]|[s|]|]; try (injection Hrun as <- <-; by apply grows_same).
    + destruct (receive_event _ _ _ _ _ _) as [[r g1] o] eqn:Hr. injection Hrun as <- <-.
      rewrite notified_app. cbn. rewrite app_nil_r. by eapply receipt_grows, receive_receipt.
    + case_decide; injection Hrun as <- <-; by apply grows_same.
  - destruct m as [[events|]|]; cbn in Hrun; try (injection Hrun as <- <-; by apply grows_same).
    by eapply receive_all_grows.
  - destruct (lifecycle_store ev g) as [Hs Hn]. rewrite Hrun in Hs, Hn. cbn [fst snd] in Hs, Hn. rewrite Hn. by apply grows_same.
Qed.

(** ** Runs *)

(** The events handed over on hearing them; what the node says itself goes into
    the log without counting. *)
Inductive hears (sign : list Z → Signature) g : list EventEnvelope → gossip → Prop :=
  | hears_nil : hears sign g [] g
  | hears_event l g1 fwd ev g2 out :
      hears sign g l g1 → ¬ originated ev → handle sign fwd ev g1 = (g2, out) → hears sign g (l ++ notified out) g2
  | hears_itself l g1 fwd ev g2 out :
      hears sign g l g1 → originated ev → handle sign fwd ev g1 = (g2, out) → hears sign g l g2.

Lemma originated_store sign fwd ev g g' out :
  originated ev → handle sign fwd ev g = (g', out) → dom (gs_store g) ⊆ dom (gs_store g').
Proof.
  intros Ho Hrun. destruct ev; cbn in Ho, Hrun; [|done..]. unfold originate in Hrun.
  destruct (is_authorized _ _); injection Hrun as <- <-; [|done]. cbn. rewrite dom_insert_L. set_solver.
Qed.

Lemma hears_spec sign g l g' :
  hears sign g l g' →
  dom (gs_store g) ⊆ dom (gs_store g') ∧ NoDup (ev_id <$> l) ∧
  ∀ e, e ∈ l → gs_store g !! ev_id e = None ∧ is_Some (gs_store g' !! ev_id e).
Proof.
  intros Hrun.
  induction Hrun as [|l g1 fwd ev g2 out Hrun (Hs & Hd & Hl) Ho Hev|l g1 fwd ev g2 out Hrun (Hs & Hd & Hl) Ho Hev].
  - split_and!; [done|constructor|set_solver].
  - apply heard_grows in Hev as (Hs' & Hd' & Hl'); [|done]. pose proof (subseteq_dom _ _ Hs') as Hdom.
    split_and!; [by etrans| |].
    + rewrite fmap_app. apply NoDup_app. split_and!; [done| |done].
      intros id (e & -> & He)%list_elem_of_fmap (e' & Heq & He')%list_elem_of_fmap.
      destruct (Hl _ He) as [_ [x Hx]], (Hl' _ He') as [? _]. congruence.
    + intros e [He|He]%elem_of_app.
      * destruct (Hl _ He) as [? [x Hx]]. split; [done|]. exists x. by eapply lookup_weaken.
      * destruct (Hl' _ He) as [Hn ?]. split; [|by eexists]. apply not_elem_of_dom. intros Hin%Hs.
        by apply not_elem_of_dom in Hn.
  - pose proof (originated_store _ _ _ _ _ _ Ho Hev) as Hdom. split_and!; [by etrans|done|].
    intros e He. destruct (Hl _ He) as [? Hx]. split; [done|]. apply elem_of_dom, Hdom. by apply elem_of_dom.
Qed.

Lemma hears_dom sign g l g' : hears sign g l g' → dom (gs_store g) ⊆ dom (gs_store g').
Proof. intros Hrun. apply (hears_spec _ _ _ _ Hrun). Qed.

(** C28: a node hands an event it hears to the rest of the program once for as
    long as it remembers it: over any run of pushes, recoveries and connections,
    in any order and from any peers, with the node's own events in between, the
    events handed over have distinct ids, none was already in the log, and all of
    them are in the log at the end. *)
Theorem heard_once sign g l g' :
  hears sign g l g' →
  NoDup (ev_id <$> l) ∧ ∀ e, e ∈ l → gs_store g !! ev_id e = None ∧ is_Some (gs_store g' !! ev_id e).
Proof. intros Hrun. apply (hears_spec _ _ _ _ Hrun). Qed.

(** ** Authenticity *)

Definition authentic e : Prop :=
  ev_version e = 1 ∧ matches e = true ∧
  ∃ key, libp2p_key (ev_origin e) = Some key ∧
    verify key (signable_bytes (ev_type e) (ev_ofs_spec e) (ev_origin e) (ev_timestamp e) (ev_payload e))
      (ev_signature e) = true.

Lemma validate_authentic now e g :
  gs_peer_keys g = ∅ → validate now e g = Ok () →
  authentic e ∧ ev_timestamp e ≤ saturating_add_u64 now MAX_CLOCK_SKEW_MILLIS.
Proof.
  intros Hk Hv. unfold validate, origin_key in Hv. rewrite Hk, lookup_empty in Hv.
  inv_ok. split; [|lia]. destruct (libp2p_key (ev_origin e)) eqn:Hkey; simplify_eq/=. split_and!; [done|done|]. eauto.
Qed.

(** A call that brings only authentic events into the log. *)
Definition admits g g' : Prop :=
  gs_peer_keys g' = gs_peer_keys g ∧ gs_self_peer_id g' = gs_self_peer_id g ∧
  (gs_peer_keys g = ∅ → ∀ id e, gs_store g' !! id = Some e →
     gs_store g !! id = Some e ∨ ev_id e = id ∧ authentic e).

Lemma admits_same g g' :
  gs_peer_keys g' = gs_peer_keys g → gs_self_peer_id g' = gs_self_peer_id g → gs_store g' = gs_store g → admits g g'.
Proof. intros Hk Hs Hst. split_and!; [done..|]. rewrite Hst. auto. Qed.

Lemma admits_trans g g1 g2 : admits g g1 → admits g1 g2 → admits g g2.
Proof.
  intros (Hk & Hs & Hl) (Hk' & Hs' & Hl'). split_and!; [congruence..|]. intros Hempty id e He.
  destruct (Hl' ltac:(congruence) id e He) as [He'|]; [|auto]. by apply Hl.
Qed.

Lemma receipt_admits fwd now e g r g' out : receipt fwd now e g r g' out → admits g g'.
Proof.
  destruct 1 as [g1 from out Hnew Hsame Hv Hi Hn Hp|r g1 out Hr Hst Hk Hs _ _ _]; [|by apply admits_same].
  destruct (same_fields _ _ Hsame) as (Hst & Hk & Hs & _). split_and!; [done..|]. intros Hempty id e' He'. cbn in He'.
  rewrite lookup_insert in He'. case_decide; [|left; by rewrite <-Hst]. right. simplify_eq. split; [done|].
  apply validate_authentic in Hv as [Ha _]; [|congruence]. done.
Qed.

Lemma receive_all_admits fwd now tick peer l g g' out :
  receive_all fwd now tick peer l g = (g', out) → admits g g'.
Proof.
  revert g out. induction l as [|e l IH]; intros g out Hrun; cbn in Hrun; [injection Hrun as <- <-; by apply admits_same|].
  destruct (receive_event _ _ _ _ _ _) as [[r g1] o] eqn:Hr. destruct (receive_all _ _ _ _ _ g1) as [g2 o'] eqn:Hl.
  injection Hrun as <- <-. eapply admits_trans; [by eapply receipt_admits, receive_receipt|by eapply IH].
Qed.

Lemma record_reachable_admits a g : admits g (record_reachable a g).2.
Proof. unfold record_reachable. repeat case_match; by apply admits_same. Qed.

Lemma record_observed_admits peer a g : admits g (record_observed peer a g).
Proof.
  unfold record_observed. case_match; [|by apply admits_same]. pose proof (record_reachable_admits a g) as Hs.
  destruct (record_reachable a g) as [[] g1]; [|done]. by eapply admits_trans; [|apply admits_same].
Qed.

Lemma lifecycle_admits ev g : admits g (handle_lifecycle ev g).1.
Proof.
  destruct ev; cbn; try by apply admits_same.
  - case_match; [|apply record_reachable_admits]. eapply admits_trans; [|apply record_reachable_admits]. by apply admits_same.
  - apply record_observed_admits.
Qed.

(** What happens to the service, and the hourly sweep. *)
Inductive gossip_step (sign : list Z → Signature) : gossip → gossip → Prop :=
  | gossip_handles fwd ev g g' out : handle sign fwd ev g = (g', out) → gossip_step sign g g'
  | gossip_sweeps now g : gossip_step sign g (poll_gossip_pruning now g)
  | gossip_drains g : gossip_step sign g (take_newly_reachable g).2.

Section own.
Context (self : PeerId) (key : PublicKey) (sign : list Z → Signature).
Hypothesis own_key : libp2p_key self = Some key.
Hypothesis own_signature : ∀ m, verify key m (sign m) = true.

Lemma handle_admits fwd ev g g' out :
  gs_self_peer_id g = self → handle sign fwd ev g = (g', out) → admits g g'.
Proof using own_key own_signature.
  intros Hself Hrun. destruct ev as [now ty ofs pri ttl pl|now tick peer m|now tick peer m|ev]; cbn in Hrun.
  - unfold originate in Hrun. destruct (is_authorized _ _); injection Hrun as <- <-; [|by apply admits_same].
    split_and!; [done..|]. intros _ id e He. cbn in He. rewrite lookup_insert in He. case_decide; [|by left].
    simplify_eq. right. split; [done|]. split_and!; [done|by apply bool_decide_eq_true|]. cbn. eauto.
  - unfold on_request in Hrun. destruct m as [[e|]|[s|]|]; try (injection Hrun as <- <-; by apply admits_same).
    + destruct (receive_event _ _ _ _ _ _) as [[r g1] o] eqn:Hr. injection Hrun as <- <-.
      by eapply receipt_admits, receive_receipt.
    + case_decide; injection Hrun as <- <-; by apply admits_same.
  - destruct m as [[events|]|]; cbn in Hrun; try (injection Hrun as <- <-; by apply admits_same).
    by eapply receive_all_admits.
  - pose proof (lifecycle_admits ev g) as Ha. by rewrite Hrun in Ha.
Qed.

(** C27: every event in a node's log is its origin's own.  In every state a node
    reaches from an empty log, whatever peers push or answer and however often
    the log is swept, an event in the log is filed under its own id, that id is
    the one its content computes to, and its signature is good under the key its
    origin's peer id carries, no matter which peer relayed it. *)
Theorem log_is_authentic roles subscription started g id e :
  steps (gossip_step sign) (new_gossip self roles subscription started ∅) g →
  gs_store g !! id = Some e → ev_id e = id ∧ authentic e.
Proof using own_key own_signature.
  intros Hs. revert id e. apply (steps_invariant _ (λ g, gs_peer_keys g = ∅ ∧ gs_self_peer_id g = self ∧
    ∀ id e, gs_store g !! id = Some e → ev_id e = id ∧ authentic e)) in Hs; [tauto| |].
  - intros g1 g2 (Hk & Hself & Hl) Hstep. destruct Hstep as [fwd ev g1 g2 out Hrun|now g1|g1].
    + apply handle_admits in Hrun as (Hk' & Hs' & Hl'); [|done]. split_and!; [congruence..|].
      intros id e He. destruct (Hl' Hk id e He) as [|]; auto.
    + split_and!; [done..|]. intros id e He. cbn in He. apply map_lookup_filter_Some in He as [He _]. auto.
    + done.
  - by split_and!.
Qed.
End own.

(** ** Forgetting *)

(** An event is heard again after every sweep.  Whatever is older than a
    week is dropped by the sweep and nothing refuses an event for its age, so a
    peer that still holds a genuine event of any age and has relay credit can
    offer it after each sweep, and each time it is stored and handed to the rest
    of the program as new. *)
Theorem old_event_heard_again fwd now tick peer e g :
  let g' := poll_gossip_pruning now g in
  gs_store g !! ev_id e = Some e → ev_timestamp e < saturating_sub_u64 now GOSSIP_LOG_RETENTION →
  validate now e g' = Ok () → is_impostor e g' = false →
  (consume_relay_credit tick peer g').1.1 = true →
  ∃ g'' out, receive_event fwd now tick (Some peer) e g' = (Stored, g'', out) ∧
    clamped e ∈ notified out ∧ gs_store (poll_gossip_pruning now g'') !! ev_id e = None.
Proof.
  intros g' He Hold Hv Hi Hc. assert (gs_store g' !! ev_id e = None) as Hgone.
  { cbn. apply map_lookup_filter_None. right. intros x Hx. rewrite He in Hx. injection Hx as <-. cbn. lia. }
  unfold receive_event. rewrite Hgone. destruct (consume_relay_credit tick peer g') as [[ok g1] o] eqn:Hcr.
  cbn in Hc. subst ok. apply credit_spec in Hcr as (Hsame & Hn & _). destruct (same_fields _ _ Hsame) as (Hst & Hk & Hself & _).
  assert (validate now e g1 = Ok ()) as ->. { rewrite <-Hv. unfold validate, origin_key. by rewrite Hk. }
  assert (is_impostor e g1 = false) as -> by (rewrite Hsame; exact Hi).
  eexists _, _. split; [done|]. split.
  - rewrite notified_app, notified_notify. set_solver.
  - cbn. apply map_lookup_filter_None. right. intros x. rewrite lookup_insert_eq. intros [= <-]. cbn. lia.
Qed.
End service.
