(* ===== verification/GossipFlow.v ===== *)
(** * GossipFlow: identity of an event, hop budgets, credit and recovery

    An event's id and its signed bytes determine it; a flood dies out by its hop
    budget; and three things the service does to honest traffic: a lowered budget
    stops an event, a long recovery disconnects its sender, and recovery never
    gets past the front of a large log. *)

From stdpp Require Import sorting.
From S2P Require Import Prelude Runtime Peers Pricing Statements MarketState Gossip GossipTheorems.

(** ** The bytes of an event *)

(** The multihash of a protobuf-encoded Ed25519 key. *)
Definition ed25519_peer (p : PeerId) : Prop := ∃ key, length key = 32%nat ∧ p = [0; 36; 8; 1; 18; 32] ++ key.

Lemma pascal_nonzero ty : is_pascal_case ty = true → Forall (λ c, c ≠ 0) (bytes_of ty).
Proof.
  unfold is_pascal_case. destruct (bytes_of ty) as [|c l]; [done|]. intros [_ Hall]%andb_true_iff.
  apply Forall_forall. intros x Hx -> . rewrite forallb_forall in Hall. apply list_elem_of_In in Hx.
  by apply Hall in Hx.
Qed.

(** A name that holds no zero ends where the two bytes before a peer id begin. *)
Lemma name_ends t1 t2 h1 l1 h2 l2 r1 r2 :
  Forall (λ c, c ≠ 0) t1 → Forall (λ c, c ≠ 0) t2 →
  t1 ++ h1 :: l1 :: 0 :: 36 :: 8 :: r1 = t2 ++ h2 :: l2 :: 0 :: 36 :: 8 :: r2 →
  t1 = t2 ∧ h1 = h2 ∧ l1 = l2 ∧ r1 = r2.
Proof.
  revert t2. induction t1 as [|a t1 IH]; intros t2 Hn1 Hn2 Heq.
  - destruct t2 as [|b [|c [|d t2]]]; simplify_eq/=; [done|].
    repeat match goal with Hf : Forall _ (_ :: _) |- _ => apply Forall_cons in Hf as [? ?] end. done.
  - destruct t2 as [|b t2].
    + destruct t1 as [|c [|d t1]]; simplify_eq/=.
      repeat match goal with Hf : Forall _ (_ :: _) |- _ => apply Forall_cons in Hf as [? ?] end. done.
    + apply Forall_cons in Hn1 as [_ Hn1], Hn2 as [_ Hn2]. cbn in Heq. injection Heq as -> Heq.
      destruct (IH t2 Hn1 Hn2 Heq) as (-> & ?). done.
Qed.

Definition content (e : EventEnvelope) : string * Z * PeerId * Timestamp * list Z :=
  (ev_type e, ev_ofs_spec e, ev_origin e, ev_timestamp e, ev_payload e).

Definition signable (e : EventEnvelope) : list Z :=
  signable_bytes (ev_type e) (ev_ofs_spec e) (ev_origin e) (ev_timestamp e) (ev_payload e).

Record event_shaped (e : EventEnvelope) : Prop := {
  es_type : is_pascal_case (ev_type e) = true;
  es_origin : ed25519_peer (ev_origin e);
  es_spec : u16 (ev_ofs_spec e);
  es_timestamp : u64 (ev_timestamp e);
}.

Lemma be_u16_two n : ∃ h l, to_be_u16 n = [h; l].
Proof. unfold to_be_u16. cbn. eauto. Qed.

Lemma to_be_u64_length n : length (to_be_u64 n) = 8%nat.
Proof. unfold to_be_u64. by rewrite length_reverse, to_le_length. Qed.

Lemma signable_inj e e' : event_shaped e → event_shaped e' → signable e = signable e' → content e = content e'.
Proof.
  intros [Ht (k & Hk & Ho) Hs Hts] [Ht' (k' & Hk' & Ho') Hs' Hts']. unfold signable, signable_bytes, content.
  destruct (be_u16_two (ev_ofs_spec e)) as (h & l & Hbe), (be_u16_two (ev_ofs_spec e')) as (h' & l' & Hbe').
  rewrite Hbe, Hbe', Ho, Ho'. cbn [app]. intros Heq.
  apply name_ends in Heq as (Hty & -> & -> & Heq); [|by apply pascal_nonzero..].
  rewrite <-Hbe in Hbe'. apply to_be_u16_inj in Hbe'; [|done..]. apply bytes_of_inj in Hty.
  apply (app_inv_head [1; 18; 32]) in Heq. apply app_inj_1 in Heq as [-> Heq]; [|congruence].
  apply app_inj_1 in Heq as [Hb ->]; [|by rewrite !to_be_u64_length].
  apply to_be_u64_inj in Hb; [|done..]. congruence.
Qed.

Section ids.
Context `{Wire} `{Transport}.
(** [verify] refuses a signature that is not sixty-four bytes. *)
Hypothesis verify_length : ∀ key m sig, verify key m sig = true → length sig = 64%nat.

(** The two events' ids hash different bytes to the same digest. *)
Definition id_bytes (e : EventEnvelope) : list Z :=
  id_input (ev_type e) (ev_payload e) (ev_timestamp e) (ev_origin e) (ev_signature e).
Definition ids_collide (e e' : EventEnvelope) : Prop :=
  id_bytes e ≠ id_bytes e' ∧ digest (id_bytes e) = digest (id_bytes e').

(** The one signature both events carry is good, under their origin's key, for
    the different messages the two events sign. *)
Definition signature_shared (e e' : EventEnvelope) : Prop :=
  signable e ≠ signable e' ∧ ev_signature e = ev_signature e' ∧ ev_origin e = ev_origin e' ∧
  ∃ key, libp2p_key (ev_origin e) = Some key ∧ verify key (signable e) (ev_signature e) = true ∧
    verify key (signable e') (ev_signature e) = true.

(** C29: one id is one event.  Two genuine events with a PascalCase type and an
    Ed25519 origin that carry the same id have the same type, specification,
    origin, time, payload and signature, unless the bytes these two ids are made
    of collide under the hash, or the signature both carry is good for the
    different messages of both; the hop budget and the priority are all a relay
    can change. *)
Theorem one_id_one_event e e' :
  authentic e → authentic e' → event_shaped e → event_shaped e' → ev_id e = ev_id e' →
  content e = content e' ∧ ev_signature e = ev_signature e' ∨ ids_collide e e' ∨ signature_shared e e'.
Proof using verify_length.
  intros (_ & Hm & key & Hkey & Hv) (_ & Hm' & key' & Hkey' & Hv') He He' Hid.
  apply bool_decide_eq_true in Hm, Hm'. unfold compute in Hm, Hm'.
  destruct (decide (id_bytes e = id_bytes e')) as [Heq|Hne];
    [|right; left; split; [exact Hne|unfold id_bytes; congruence]].
  pose proof (verify_length _ _ _ Hv) as Hl. pose proof (verify_length _ _ _ Hv') as Hl'.
  unfold id_bytes, id_input, sig_bytes in Heq. rewrite !decide_True in Heq by done. rewrite !(app_assoc (bytes_of _)) in Heq.
  destruct (es_origin _ He) as (k & Hk & Ho), (es_origin _ He') as (k' & Hk' & Ho').
  apply app_inj_2 in Heq as [_ Heq]; [|rewrite !length_app, !to_be_u64_length, Ho, Ho', !length_app; cbn; lia].
  apply app_inj_1 in Heq as [_ Heq]; [|by rewrite !to_be_u64_length].
  apply app_inj_1 in Heq as [Horigin Hsig]; [|rewrite Ho, Ho', !length_app; cbn; lia].
  destruct (decide (signable e = signable e')) as [Hs|Hs]; [left; split; [by apply signable_inj|done]|].
  right. right. split_and!; [done..|]. exists key. split_and!; [done|done|].
  rewrite Horigin, Hkey' in Hkey. injection Hkey as <-. by rewrite Hsig.
Qed.
End ids.

(** ** Hop budgets *)

Section hops.
Context `{Wire} `{Transport}.
Implicit Types (g : gossip) (e : EventEnvelope) (fwd : EventEnvelope → bool).

Lemma pushed_app a b : pushed (a ++ b) = pushed a ++ pushed b.
Proof. apply omap_app. Qed.

Lemma pushed_broadcast e x g :
  pushed (broadcast e x g) = (λ p, (p, e)) <$> filter (λ p, Some p ≠ x) (elements (gs_connected g)).
Proof. unfold broadcast. induction (filter _ _) as [|p l IH]; [done|]. cbn. by rewrite <-IH. Qed.

Lemma pushed_forward from e g :
  pushed (forward from e g) =
  if decide (1 < ev_ttl e) then
    (λ p, (p, e <| ev_ttl := ev_ttl e - 1 |>)) <$> filter (λ p, Some p ≠ from) (elements (gs_connected g))
  else [].
Proof. unfold forward. repeat case_decide; try lia; [apply pushed_broadcast|done]. Qed.

(** What an offered event makes a node send: nothing, or one copy with a hop less
    to some of its peers. *)
Lemma receive_pushes fwd now tick from e g r g' out :
  receive_event fwd now tick from e g = (r, g', out) →
  gs_connected g' = gs_connected g ∧ (length (pushed out) ≤ size (gs_connected g))%nat ∧
  ∀ p e', (p, e') ∈ pushed out → ev_ttl e' = Z.min (ev_ttl e) MAX_TTL - 1 ∧ 0 < ev_ttl e'.
Proof.
  intros Hrun%receive_receipt. destruct Hrun as [g1 from' out Hnew Hsame Hv Hi Hn Hp|r g1 out Hr _ _ _ Hc _ Hp].
  - destruct (same_fields _ _ Hsame) as (_ & _ & _ & Hc). split; [done|].
    rewrite pushed_app, Hp. change (pushed (Notify ?e :: ?l)) with (pushed l). cbn [app].
    destruct (fwd (clamped e)); [|split; [cbn; lia|by intros ? ? ?%elem_of_nil]].
    rewrite pushed_forward. case_decide as Ht; [|split; [cbn; lia|by intros ? ? ?%elem_of_nil]]. split.
    + rewrite length_fmap, length_filter. change (gs_connected (put ?e ?g)) with (gs_connected g). by rewrite Hc.
    + intros p e' (q & [= -> ->] & _)%list_elem_of_fmap. cbn in *. lia.
  - rewrite Hp. split_and!; [done|cbn; lia|by intros ? ? ?%elem_of_nil].
Qed.

(** Lowering the hop budget silences an event.  The budget is not signed: if
    the first copy of an event a node hears has a budget of one, the node keeps
    the event and passes it to nobody, and for as long as it remembers it every
    other copy, whatever its budget and whoever sends it, is a duplicate that is
    passed to nobody either. *)
Theorem lowered_budget_silences sign fwd now tick from e g g' out l g'' fwd' now' tick' from' e' :
  receive_event fwd now tick from e g = (Stored, g', out) → ev_ttl e ≤ 1 →
  hears sign g' l g'' → ev_id e' = ev_id e →
  pushed out = [] ∧ receive_event fwd' now' tick' from' e' g'' = (Duplicate, g'', []).
Proof.
  intros Hrun Ht Hh Hid. destruct (receive_pushes _ _ _ _ _ _ _ _ _ Hrun) as (_ & _ & Hp). split.
  - destruct (pushed out) as [|[p x] rest]; [done|]. destruct (Hp p x) as [? ?]; [left|]. unfold MAX_TTL in *. lia.
  - apply receive_receipt in Hrun. inversion Hrun as [g1 from0 out0 _ _ _ _ _ _|]; [|done]. subst.
    assert (is_Some (gs_store g'' !! ev_id e')) as [x Hx].
    { rewrite Hid. apply elem_of_dom. apply (hears_dom _ _ _ _ Hh). cbn. rewrite dom_insert. set_solver. }
    unfold receive_event. by rewrite Hx.
Qed.

(** ** Floods *)

(** The nodes, and the pushes under way: from whom, to whom, what. *)
Abbreviation flight := (list (PeerId * PeerId * EventEnvelope)).

Inductive delivery : gmap PeerId gossip * flight → gmap PeerId gossip * flight → Prop :=
  | delivered nodes f1 f2 from to e g g' r out fwd now tick :
      nodes !! to = Some g → receive_event fwd now tick (Some from) e g = (r, g', out) →
      delivery (nodes, f1 ++ (from, to, e) :: f2)
        (<[to := g']> nodes, f1 ++ f2 ++ ((λ pe : PeerId * EventEnvelope, (to, pe.1, pe.2)) <$> pushed out))
  | lost nodes f1 f2 m : delivery (nodes, f1 ++ m :: f2) (nodes, f1 ++ f2).

Definition level e : nat := Z.to_nat (Z.min (ev_ttl e) MAX_TTL).
Definition weight (d : nat) (m : PeerId * PeerId * EventEnvelope) : nat := ((d + 1) ^ level m.2)%nat.
Definition total (d : nat) (f : flight) : nat := sum_list_with (weight d) f.

Lemma weight_pos d m : (0 < weight d m)%nat.
Proof. unfold weight. apply Nat.neq_0_lt_0, Nat.pow_nonzero. lia. Qed.

Lemma pushes_weigh_less d from to e (l : list (PeerId * EventEnvelope)) :
  (length l ≤ d)%nat →
  (∀ p e', (p, e') ∈ l → ev_ttl e' = Z.min (ev_ttl e) MAX_TTL - 1 ∧ 0 < ev_ttl e') →
  (total d ((λ pe : PeerId * EventEnvelope, (to, pe.1, pe.2)) <$> l) < weight d (from, to, e))%nat.
Proof.
  intros Hd Hl. destruct (decide (l = [])) as [->|Hne]; [apply weight_pos|].
  destruct l as [|[p0 e0] l0] eqn:El; [done|]. destruct (Hl p0 e0) as [Ht0 Hp0]; [left|]. rewrite <-El in *. clear El Hne.
  assert (total d ((λ pe : PeerId * EventEnvelope, (to, pe.1, pe.2)) <$> l) ≤ length l * (d + 1) ^ (level e - 1))%nat as Hsum.
  { clear Hd. induction l as [|[p x] l IH]; [done|]. cbn. destruct (Hl p x) as [Ht Hp]; [left|].
    specialize (IH ltac:(intros; apply (Hl p1 e'); by right)). unfold total in IH.
    replace (weight d (to, p, x)) with ((d + 1) ^ (level e - 1))%nat; [lia|].
    unfold weight, level. cbn. f_equal. unfold MAX_TTL in *. lia. }
  unfold weight. cbn [snd]. assert (level e = S (level e - 1)) as -> by (unfold level, MAX_TTL in *; lia).
  rewrite Nat.pow_succ_r'. pose proof (Nat.pow_nonzero (d + 1) (level e - 1)). nia.
Qed.

Lemma delivery_shrinks d s s' :
  map_Forall (λ _ g, (size (gs_connected g) ≤ d)%nat) s.1 → delivery s s' →
  map_Forall (λ _ g, (size (gs_connected g) ≤ d)%nat) s'.1 ∧ (total d s'.2 < total d s.2)%nat.
Proof.
  intros Hd Hstep. destruct Hstep as [nodes f1 f2 from to e g g' r out fwd now tick Hg Hrun|nodes f1 f2 m]; cbn in *.
  - destruct (receive_pushes _ _ _ _ _ _ _ _ _ Hrun) as (Hc & Hlen & Hp). specialize (Hd to g Hg) as Hdg. cbn in Hdg. split.
    + apply map_Forall_insert_2; [by rewrite Hc|done].
    + unfold total. rewrite !sum_list_with_app. cbn.
      pose proof (pushes_weigh_less d from to e (pushed out) ltac:(lia) Hp). unfold total in *. lia.
  - split; [done|]. unfold total. rewrite !sum_list_with_app. cbn. pose proof (weight_pos d m). lia.
Qed.

Lemma push_weight_bound d m : (weight d m ≤ (d + 1) ^ 16)%nat.
Proof. unfold weight, level, MAX_TTL. apply Nat.pow_le_mono_r; lia. Qed.

Lemma total_bound d f : (total d f ≤ length f * (d + 1) ^ 16)%nat.
Proof.
  unfold total. induction f as [|m f IH]; [done|]. cbn [sum_list_with length].
  pose proof (push_weight_bound d m). lia.
Qed.

(** C30: every flood dies out.  In a network of nodes with at most [d] connections
    each, whatever is being pushed to begin with, whatever hop budgets it claims,
    however the pushes are ordered, lost or filtered, and whatever the nodes
    already know, at most [(d+1)^16] deliveries per initial push can follow. *)
Theorem floods_die_out d nodes (f : flight) k s' :
  map_Forall (λ _ g, (size (gs_connected g) ≤ d)%nat) nodes →
  nsteps delivery k (nodes, f) s' → (k ≤ length f * (d + 1) ^ 16)%nat.
Proof.
  intros Hd Hrun. etrans; [|apply total_bound].
  cut (∀ s, map_Forall (λ _ g, (size (gs_connected g) ≤ d)%nat) s.1 → nsteps delivery k s s' → (k ≤ total d s.2)%nat).
  { intros Hcut. by apply (Hcut (nodes, f)). }
  clear. induction k as [|k IH]; intros s Hd Hrun; [lia|]. inversion Hrun as [|? ? s1 ? Hstep Hrest]; subst.
  destruct (delivery_shrinks _ _ _ Hd Hstep) as [Hd1 Hlt]. specialize (IH _ Hd1 Hrest). lia.
Qed.
End hops.

(** ** Relay credit *)

#[export] Instance spec_float_eq_dec : EqDecision SpecFloat.spec_float.
Proof. solve_decision. Defined.

(** A bucket at one instant, after so many tokens. *)
Definition bucket (tick : Instant) (spent : Z) : PeerCredit :=
  mkPeerCredit (F64.of_Z (GOSSIP_PEER_CREDIT_CAPACITY - spent)) tick 0 false.

(** An empty bucket, after so many drops. *)
Definition dry (tick : Instant) (drops : Z) : PeerCredit :=
  mkPeerCredit (F64.of_Z 0) tick drops (bool_decide (GOSSIP_PEER_DROP_DISCONNECT_THRESHOLD ≤ drops)).

Definition refilled (tokens : F64.f64) : F64.f64 :=
  F64.min (F64.add tokens (F64.mul (F64.as_secs 0) (F64.of_Z GOSSIP_PEER_CREDIT_REFILL_PER_SEC)))
    (F64.of_Z GOSSIP_PEER_CREDIT_CAPACITY).

(** The floating-point arithmetic of a whole bucket, evaluated. *)
Lemma bucket_exact k :
  0 ≤ k < 200 →
  F64.geb (refilled (F64.of_Z (200 - k))) (F64.of_Z 1) = true ∧
  F64.sub (refilled (F64.of_Z (200 - k))) (F64.of_Z 1) = F64.of_Z (200 - (k + 1)).
Proof.
  intros Hk. assert (Forall (λ k, F64.geb (refilled (F64.of_Z (200 - k))) (F64.of_Z 1) = true ∧
    F64.sub (refilled (F64.of_Z (200 - k))) (F64.of_Z 1) = F64.of_Z (200 - (k + 1))) (seqZ 0 200)) as Hall.
  { apply (bool_decide_unpack _). by vm_compute. }
  rewrite Forall_forall in Hall. apply Hall. apply elem_of_seqZ. lia.
Qed.

Lemma bucket_gives tick k : 0 ≤ k < 200 → try_consume tick (bucket tick k) = (true, bucket tick (k + 1)).
Proof.
  intros Hk. destruct (bucket_exact k Hk) as [Hge Hsub]. unfold try_consume, bucket.
  cbn [pcr_tokens pcr_last_refill pcr_drops pcr_escalated]. rewrite Z.sub_diag, Z.max_id.
  change (GOSSIP_PEER_CREDIT_CAPACITY - ?z) with (200 - z). fold (refilled (F64.of_Z (200 - k))). cbv zeta.
  by rewrite Hge, Hsub.
Qed.

Lemma dry_refuses tick d : try_consume tick (dry tick d) = (false, dry tick d).
Proof. unfold try_consume, dry. cbn [pcr_tokens pcr_last_refill]. by rewrite Z.sub_diag, Z.max_id. Qed.

Lemma bucket_empties tick : bucket tick 200 = dry tick 0.
Proof. done. Qed.

Section recovery.
Context `{Wire} `{Transport}.
Implicit Types (g : gossip) (e : EventEnvelope) (l : list EventEnvelope) (fwd : EventEnvelope → bool).

Definition credit_of tick peer g : PeerCredit := default (new_credit tick) (gs_peer_credits g !! peer).

Lemma credit_gives tick peer g k :
  0 ≤ k < 200 → credit_of tick peer g = bucket tick k →
  consume_relay_credit tick peer g =
    (true, g <| gs_peer_credits := <[peer := bucket tick (k + 1)]> (gs_peer_credits g) |>, []).
Proof. intros Hk Hc. unfold consume_relay_credit. fold (credit_of tick peer g). by rewrite Hc, bucket_gives. Qed.

Lemma credit_refuses tick peer g d :
  credit_of tick peer g = dry tick d →
  consume_relay_credit tick peer g =
    (false, g <| gs_peer_credits := <[peer := dry tick (d + 1)]> (gs_peer_credits g) |>,
     if decide (d + 1 = GOSSIP_PEER_DROP_DISCONNECT_THRESHOLD) then [GracefulDisconnect peer]
     else []).
Proof.
  intros Hc. unfold consume_relay_credit. fold (credit_of tick peer g). rewrite Hc, dry_refuses.
  unfold dry. cbn [pcr_tokens pcr_last_refill pcr_drops pcr_escalated]. cbv zeta.
  repeat case_bool_decide; case_decide; cbn; try lia; done.
Qed.

(** Events a node is about to take: new to it, distinct and good. *)
Definition welcome now g l : Prop :=
  NoDup (ev_id <$> l) ∧
  ∀ e, e ∈ l → gs_store g !! ev_id e = None ∧ validate now e g = Ok () ∧ is_impostor e g = false.

Lemma welcome_credit now g l c : welcome now g l → welcome now (g <| gs_peer_credits := c |>) l.
Proof. done. Qed.

Lemma welcome_put now g e l c :
  welcome now g (e :: l) → welcome now (put (clamped e) (g <| gs_peer_credits := c |>)) l.
Proof.
  intros [Hd Hl]. apply NoDup_cons in Hd as [Hni Hd]. split; [done|]. intros x Hx.
  destruct (Hl x) as (Hn & Hv & Hi); [by right|]. split_and!; [|done|done].
  cbn. rewrite lookup_insert_ne; [done|]. intros Heq. apply Hni. rewrite Heq. apply list_elem_of_fmap. eauto.
Qed.

Lemma receive_dry fwd now tick peer l g g' out d :
  0 ≤ d → welcome now g l → credit_of tick peer g = dry tick d →
  receive_all fwd now tick peer l g = (g', out) →
  notified out = [] ∧ gs_store g' = gs_store g ∧
  (d < GOSSIP_PEER_DROP_DISCONNECT_THRESHOLD ≤ d + Z.of_nat (length l) → GracefulDisconnect peer ∈ out).
Proof.
  revert g out d. induction l as [|e l IH]; intros g out d Hd Hw Hc Hrun; cbn [receive_all] in Hrun.
  - injection Hrun as <- <-. split_and!; [done|done|]. cbn. lia.
  - destruct (proj2 Hw e) as (Hn & _); [left|]. unfold receive_event in Hrun.
    rewrite Hn, (credit_refuses _ _ _ d Hc) in Hrun. cbn iota beta in Hrun.
    destruct (receive_all _ _ _ _ _ _) as [g2 o'] eqn:Hl. injection Hrun as <- <-.
    assert (welcome now (g <| gs_peer_credits := <[peer := dry tick (d + 1)]> (gs_peer_credits g) |>) l) as Hw'.
    { destruct Hw as [Hnd Hall]. apply NoDup_cons in Hnd as [_ Hnd]. split; [done|]. intros x Hx. apply Hall. by right. }
    apply (IH _ _ (d + 1)) in Hl as (Hno & Hst & Hdis); [|lia|done|unfold credit_of; cbn; by rewrite lookup_insert_eq].
    rewrite notified_app, Hno. split_and!; [by case_decide|done|]. intros Hr. cbn [length] in Hr.
    apply elem_of_app. case_decide; [left; by left|]. right. apply Hdis. lia.
Qed.

Lemma receive_funded fwd now tick peer e g k :
  0 ≤ k < 200 → credit_of tick peer g = bucket tick k →
  gs_store g !! ev_id e = None → validate now e g = Ok () → is_impostor e g = false →
  let g1 := put (clamped e) (g <| gs_peer_credits := <[peer := bucket tick (k + 1)]> (gs_peer_credits g) |>) in
  receive_event fwd now tick (Some peer) e g =
    (Stored, g1, Notify (clamped e) :: (if fwd (clamped e) then forward (Some peer) (clamped e) g1 else [])).
Proof.
  intros Hk Hc Hn Hv Hi. unfold receive_event. rewrite Hn, (credit_gives _ _ _ k Hk Hc).
  change (validate now e (g <| gs_peer_credits := ?c |>)) with (validate now e g).
  change (is_impostor e (g <| gs_peer_credits := ?c |>)) with (is_impostor e g). by rewrite Hv, Hi.
Qed.

Lemma receive_bucket fwd now tick peer l g g' out k :
  0 ≤ k ≤ 200 → welcome now g l → credit_of tick peer g = bucket tick k →
  receive_all fwd now tick peer l g = (g', out) →
  notified out = clamped <$> take (Z.to_nat (200 - k)) l ∧
  (GOSSIP_PEER_DROP_DISCONNECT_THRESHOLD ≤ Z.of_nat (length l) - (200 - k) → GracefulDisconnect peer ∈ out).
Proof.
  revert g out k. induction l as [|e l IH]; intros g out k Hk Hw Hc Hrun.
  { cbn in Hrun. injection Hrun as <- <-. rewrite take_nil. split; [done|]. cbn. unfold GOSSIP_PEER_DROP_DISCONNECT_THRESHOLD. lia. }
  destruct (decide (k = 200)) as [->|Hne].
  { rewrite bucket_empties in Hc. apply (receive_dry _ _ _ _ _ _ _ _ 0) in Hrun as (Hno & _ & Hdis); [|done..].
    split; [done|]. intros Hr. apply Hdis. unfold GOSSIP_PEER_DROP_DISCONNECT_THRESHOLD in *. lia. }
  cbn [receive_all] in Hrun. destruct (proj2 Hw e) as (Hn & Hv & Hi); [left|].
  rewrite (receive_funded _ _ _ _ _ _ k ltac:(lia) Hc Hn Hv Hi) in Hrun.
  destruct (receive_all _ _ _ _ _ _) as [g2 o'] eqn:Hl. apply pair_equal_spec in Hrun as [<- <-].
  apply (IH _ _ (k + 1)) in Hl as (Hno & Hdis);
    [|lia|by apply welcome_put|unfold credit_of; cbn; by rewrite lookup_insert_eq].
  rewrite notified_app, notified_notify, Hno.
  replace (Z.to_nat (200 - k)) with (S (Z.to_nat (200 - (k + 1)))) by lia. cbn [take fmap list_fmap]. split.
  - case_match; [by rewrite notified_forward|done].
  - intros Hr. apply elem_of_app. right. apply Hdis. cbn [length] in Hr. lia.
Qed.

(** A long recovery costs an honest peer its connection.  Of the events a
    peer answers a recovery request with, all of them good and new, handled at
    one instant on a fresh connection, a node takes the first two hundred and
    drops the rest for want of relay credit; and from twelve hundred events on it
    disconnects the peer that answered. *)
Theorem long_recovery_disconnects fwd now tick peer l g g' out :
  gs_peer_credits g !! peer = None → welcome now g l →
  on_response fwd now tick peer (GossipRecoveryResponse (Some l)) g = (g', out) →
  notified out = clamped <$> take 200 l ∧ (1200 ≤ Z.of_nat (length l) → GracefulDisconnect peer ∈ out).
Proof.
  intros Hnone Hw Hrun. apply (receive_bucket _ _ _ _ _ _ _ _ 0) in Hrun as [Hno Hdis]; [|lia|done|].
  - split; [done|]. intros Hr. apply Hdis. unfold GOSSIP_PEER_DROP_DISCONNECT_THRESHOLD. lia.
  - unfold credit_of. by rewrite Hnone.
Qed.
End recovery.

(** ** What a recovery request is answered with *)

Section answer.
Context `{Wire} `{Transport}.
Implicit Types (g : gossip) (e : EventEnvelope) (l : list EventEnvelope).
Hypothesis wire_size_pos : ∀ e, 0 ≤ wire_size e.

Fixpoint sizes l : Z := match l with [] => 0 | e :: l => wire_size e + sizes l end.

Lemma sizes_app l k : sizes (l ++ k) = sizes l + sizes k.
Proof. induction l as [|e l IH]; cbn; lia. Qed.

Lemma sizes_pos l : 0 ≤ sizes l.
Proof using wire_size_pos. induction l as [|e l IH]; cbn; [lia|]. pose proof (wire_size_pos e). lia. Qed.

Lemma sizes_perm l k : l ≡ₚ k → sizes l = sizes k.
Proof. induction 1; cbn; lia. Qed.

Lemma fits_prefix b l : fits b l `prefix_of` l.
Proof. revert b. induction l as [|e l IH]; intros b; cbn; [done|]. case_decide; [by apply prefix_cons|apply prefix_nil]. Qed.

Lemma fits_within b l : 0 ≤ b → sizes (fits b l) ≤ b.
Proof. revert b. induction l as [|e l IH]; intros b Hb; cbn; [lia|]. case_decide; cbn; [|lia]. specialize (IH (b - wire_size e)). lia. Qed.

Lemma fits_all b l : sizes l ≤ b → fits b l = l.
Proof using wire_size_pos.
  revert b. induction l as [|e l IH]; intros b Hb; cbn in *; [done|]. pose proof (sizes_pos l).
  rewrite decide_True by lia. f_equal. apply IH. lia.
Qed.

(** Whatever precedes an event that fits fits too. *)
Lemma fits_before b l1 e l2 :
  0 ≤ b → e ∈ fits b (l1 ++ e :: l2) → e ∉ l1 → sizes l1 ≤ b.
Proof using wire_size_pos.
  revert b. induction l1 as [|x l1 IH]; intros b Hb Hin Hni; cbn in *; [done|]. case_decide; [|by apply elem_of_nil in Hin].
  apply not_elem_of_cons in Hni as [Hne Hni]. apply elem_of_cons in Hin as [->|Hin]; [done|].
  apply IH in Hin; [lia|lia|done].
Qed.

Definition older e (l : list EventEnvelope) : list EventEnvelope := filter (λ x, ev_timestamp x < ev_timestamp e) l.

Lemma sorted_older l1 e l2 :
  StronglySorted timestamp_le (l1 ++ e :: l2) → sizes (older e (l1 ++ e :: l2)) ≤ sizes l1.
Proof using wire_size_pos.
  intros Hs. unfold older. rewrite filter_app, sizes_app.
  assert (filter (λ x, ev_timestamp x < ev_timestamp e) (e :: l2) = []) as ->.
  { induction l1 as [|x l1 IH]; [|inversion Hs; auto]. cbn in Hs. inversion Hs as [|? ? Hs2 Hall]; subst.
    rewrite filter_cons_False by lia. clear Hs Hs2. induction l2 as [|y l2 IH]; [done|].
    apply Forall_cons in Hall as [Hy Hall]. unfold timestamp_le in Hy. rewrite filter_cons_False by lia. auto. }
  cbn. clear Hs. induction l1 as [|x l1 IH]; [done|]. rewrite filter_cons. pose proof (wire_size_pos x). case_decide; cbn; lia.
Qed.

#[export] Instance timestamp_le_trans : Transitive timestamp_le.
Proof. intros a b c. unfold timestamp_le. lia. Qed.
#[export] Instance timestamp_le_total : Total timestamp_le.
Proof. intros a b. unfold timestamp_le. lia. Qed.

(** Recovery serves the front of the log, not of the gap.  The answer to a
    recovery request holds only events of the log the requester subscribes to
    and at most the byte budget; it holds all of them when they fit; but it is
    the same whatever the requester already has, and an event preceded by more
    than the budget of older events is never in it, so a peer missing only that
    event does not get it from any recovery. *)
Theorem recovery_serves_the_front s g :
  let log := all_for_subscription s g in
  recoverable_for s g ⊆ log ∧ sizes (recoverable_for s g) ≤ RECOVERY_RESPONSE_BUDGET_BYTES ∧
  (sizes log ≤ RECOVERY_RESPONSE_BUDGET_BYTES → recoverable_for s g ≡ₚ log) ∧
  ∀ e, RECOVERY_RESPONSE_BUDGET_BYTES < sizes (older e log) → e ∉ recoverable_for s g.
Proof using wire_size_pos.
  intros log. unfold recoverable_for. fold log. set (sorted := merge_sort timestamp_le log).
  pose proof (merge_sort_Permutation timestamp_le log : sorted ≡ₚ log) as Hp.
  pose proof (StronglySorted_merge_sort timestamp_le log : StronglySorted timestamp_le sorted) as Hs.
  split_and!.
  - intros e He. rewrite <-Hp. eapply elem_of_prefix; [done|apply fits_prefix].
  - by apply fits_within.
  - intros Hall. rewrite fits_all; [done|]. by rewrite (sizes_perm _ _ Hp).
  - intros e Hbig Hin. assert (e ∈ sorted) as He by (eapply elem_of_prefix; [done|apply fits_prefix]).
    apply list_elem_of_split_l in He as (l1 & l2 & Heq & Hni). rewrite Heq in Hin, Hs.
    apply fits_before in Hin; [|done|done]. pose proof (sorted_older _ _ _ Hs) as Ho.
    assert (sizes (older e log) = sizes (older e (l1 ++ e :: l2))) as Hsz.
    { apply sizes_perm. unfold older. rewrite <-Heq. by rewrite Hp. }
    lia.
Qed.
End answer.
