(* ===== verification/Reviews.v ===== *)
(** * Reviews: what traders say of one another

    [crates/reviews]: the review and its derived id, who may review whom, the
    replicated index with its rule for amended reviews, and the two ways of
    reading it. *)

From stdpp Require Import sorting.
From S2P Require Import Prelude Runtime Peers Pricing Statements MarketState.
Import Rev.

Module ReviewError.
Inductive t := InvalidSignature | NotAParty | AlreadyReviewed | MalformedReview.
End ReviewError.
Abbreviation review_result := (result ReviewError.t).

Definition stars (r : Rating) : Z := match r with One => 1 | Two => 2 | Three => 3 | Four => 4 | Five => 5 end.

Definition from_stars (z : Z) : option Rating :=
  if decide (z = 1) then Some One else if decide (z = 2) then Some Two else if decide (z = 3) then Some Three
  else if decide (z = 4) then Some Four else if decide (z = 5) then Some Five else None.

Definition MAX_COMMENT_CHARS : Z := 500.
Definition MILLIS_PER_DAY : Z := 24 * 60 * 60 * 1000.

(** [char::is_control]: the general category Cc. *)
Definition is_control (c : Z) : bool := (c <=? 31) || (127 <=? c) && (c <=? 159).

Definition is_display_hazard (c : Z) : bool :=
  if decide (c = 10) then false
  else is_control c || (8234 <=? c) && (c <=? 8238) || (8294 <=? c) && (c <=? 8297).

Definition validate_review (r : Review) : review_result unit :=
  _ ← require (¬ MAX_COMMENT_CHARS < Z.of_nat (length (rw_comment r))) (Code ReviewError.MalformedReview);
  require (existsb is_display_hazard (rw_comment r) = false) (Code ReviewError.MalformedReview).

Definition is_settled (s : SettlementState.t) : bool :=
  match s with SettlementState.Approved | SettlementState.Completed => true | _ => false end.

Definition subject_of (s : Settlement) (author : PeerId) : option PeerId :=
  if is_settled (sm_state s) then
    if decide (author = sm_buyer s) then Some (sm_seller s)
    else if decide (author = sm_seller s) then Some (sm_buyer s)
    else None
  else None.

(** postcard: the canonical bytes of a record. *)
Class ReviewWire := review_bytes : Review → list Z.

Abbreviation reviews := (gmap string Review).

Record PublishedReview := mkPublishedReview {
  pb_id : string;
  pb_settlement : string;
  pb_author : PeerId;
  pb_about : PeerId;
  pb_rating : Rating;
  pb_comment : list Z;
  pb_created_at : Timestamp;
}.

Record PublicReview := mkPublicReview {
  pu_about : PeerId;
  pu_rating : Rating;
  pu_comment : list Z;
  pu_created_on : Timestamp;
}.

Definition public_review (p : PublishedReview) : PublicReview :=
  mkPublicReview (pb_about p) (pb_rating p) (pb_comment p) (pb_created_at p - pb_created_at p mod MILLIS_PER_DAY).

(** Newest first, then by id. *)
Definition feed_le (a b : PublishedReview) : Prop :=
  pb_created_at b < pb_created_at a ∨
  pb_created_at a = pb_created_at b ∧ bytes_le (bytes_of (pb_id a)) (bytes_of (pb_id b)).
#[export] Instance feed_le_dec a b : Decision (feed_le a b).
Proof. unfold feed_le. apply _. Defined.

(** Oldest first, then by id. *)
Definition transcript_le (a b : PublishedReview) : Prop :=
  pb_created_at a < pb_created_at b ∨
  pb_created_at a = pb_created_at b ∧ bytes_le (bytes_of (pb_id a)) (bytes_of (pb_id b)).
#[export] Instance transcript_le_dec a b : Decision (transcript_le a b).
Proof. unfold transcript_le. apply _. Defined.

Section reviews.
Context `{Wire} `{ReviewWire}.
Implicit Types (m : reviews) (r : Review).

Definition review_id_of (settlement : string) (author : PeerId) : string :=
  String.append settlement (String.append ":" (base58 author)).

Definition review_id r : string := review_id_of (rw_settlement r) (rw_author r).

Definition verify_review (x : signed Review) : review_result unit :=
  let r := payload x in
  expected ← ok_or (peer_id_from_public_key (rw_author_public_key r)) (Code ReviewError.InvalidSignature);
  _ ← require (expected = rw_author r) (Code ReviewError.InvalidSignature);
  check_signature ReviewError.MalformedReview ReviewError.InvalidSignature (rw_author_public_key r) (StReviewPublish r)
    (signature x).

(** The pair of the time and the bytes, compared. *)
Definition supersedes (incoming existing : Review) : bool :=
  bool_decide (rw_created_at existing < rw_created_at incoming ∨
    rw_created_at incoming = rw_created_at existing ∧
      ¬ bytes_le (review_bytes incoming) (review_bytes existing)).

Definition apply_publish_review (x : signed Review) m : review_result reviews :=
  _ ← verify_review x;
  _ ← validate_review (payload x);
  let id := review_id (payload x) in
  match m !! id with
  | Some existing =>
      if supersedes (payload x) existing then Ok (<[id := payload x]> m) else Err (Code ReviewError.AlreadyReviewed)
  | None => Ok (<[id := payload x]> m)
  end.

Definition review_apply_event (x : signed Review) m : reviews := ignoring (apply_publish_review x m) m.

(** ** Reading *)

Definition published r (about : PeerId) : PublishedReview :=
  mkPublishedReview (review_id r) (rw_settlement r) (rw_author r) about (rw_rating r) (rw_comment r) (rw_created_at r).

Definition find_for_settlement (s : Settlement) m : list PublishedReview :=
  merge_sort transcript_le
    (omap (λ party, r ← m !! review_id_of (sm_id s) party; published r <$> subject_of s (rw_author r))
       [sm_buyer s; sm_seller s]).

Definition all_reviews m : list Review := (merge_sort key_le (map_to_list m)).*2.

Definition authorized (n : node) m : list PublishedReview :=
  merge_sort feed_le
    (omap (λ r, s ← nd_settlements n !! rw_settlement r; published r <$> subject_of s (rw_author r)) (all_reviews m)).

Definition about (n : node) (wallet : PeerId) m : list PublishedReview :=
  filter (λ p, pb_about p = wallet) (authorized n m).

Definition public_about (n : node) (wallet : PeerId) m : list PublicReview := public_review <$> about n wallet m.

Definition involving (n : node) (wallet : PeerId) m : list PublishedReview :=
  filter (λ p, pb_author p = wallet ∨ pb_about p = wallet) (authorized n m).
End reviews.

Section reviews.
Context `{Wire} `{ReviewWire}.
Implicit Types (m : reviews) (r : Review) (l : list (signed Review)).

(** The canonical encoding tells records apart. *)
Hypothesis review_bytes_inj : ∀ r r', review_bytes r = review_bytes r' → r = r'.

Lemma supersedes_asym r r' : supersedes r r' = true → supersedes r' r = false.
Proof.
  unfold supersedes. rewrite bool_decide_eq_true, bool_decide_eq_false. intros [Hlt|[Heq Hb]] [Hlt'|[Heq' Hb']]; try lia.
  by destruct (total bytes_le (review_bytes r) (review_bytes r')).
Qed.

Lemma supersedes_trans r1 r2 r3 : supersedes r1 r2 = true → supersedes r2 r3 = true → supersedes r1 r3 = true.
Proof.
  unfold supersedes. rewrite !bool_decide_eq_true. intros [Hlt|[Heq Hb]] [Hlt'|[Heq' Hb']]; [left; lia..|].
  right. split; [lia|]. intros Hc. apply Hb. etrans; [exact Hc|].
  by destruct (total bytes_le (review_bytes r2) (review_bytes r3)).
Qed.

Lemma supersedes_total r r' : r ≠ r' → supersedes r r' = false → supersedes r' r = true.
Proof using review_bytes_inj.
  unfold supersedes. rewrite bool_decide_eq_false, bool_decide_eq_true. intros Hne Hn.
  destruct (decide (rw_created_at r = rw_created_at r')) as [Heq|]; [|left; lia]. right. split; [done|].
  intros Hb. apply Hn. right. split; [done|]. intros Hb'. apply Hne, review_bytes_inj. by apply (anti_symm bytes_le).
Qed.

(** ** The index *)

Definition acceptable (x : signed Review) : Prop := verify_review x = Ok () ∧ validate_review (payload x) = Ok ().

Definition index_after l : reviews := foldl (λ m x, review_apply_event x m) ∅ l.

(** The records a list offers under an id, and the one that wins. *)
Definition offers l (id : string) r : Prop := ∃ x, x ∈ l ∧ acceptable x ∧ payload x = r ∧ review_id r = id.

Definition wins l (id : string) r : Prop :=
  offers l id r ∧ ∀ r', offers l id r' → r' = r ∨ supersedes r r' = true.

Lemma wins_unique l id r r' : wins l id r → wins l id r' → r = r'.
Proof.
  intros [Ho Hw] [Ho' Hw']. destruct (Hw _ Ho') as [|Hs]; [done|]. destruct (Hw' _ Ho) as [|Hs']; [done|].
  apply supersedes_asym in Hs. congruence.
Qed.

Lemma apply_cases x m :
  acceptable x ∧ (∀ r, m !! review_id (payload x) = Some r → supersedes (payload x) r = true) ∧
    review_apply_event x m = <[review_id (payload x) := payload x]> m ∨
  acceptable x ∧ (∃ r, m !! review_id (payload x) = Some r ∧ supersedes (payload x) r = false) ∧
    review_apply_event x m = m ∨
  ¬ acceptable x ∧ review_apply_event x m = m.
Proof.
  unfold review_apply_event, apply_publish_review, acceptable, ignoring.
  destruct (verify_review x) as [[]|]; [|right; right; by split; [intros [? _]|]]. cbn [mbind result_bind].
  destruct (validate_review (payload x)) as [[]|]; [|right; right; by split; [intros [_ ?]|]]. cbn [mbind result_bind].
  destruct (m !! review_id (payload x)) as [r|] eqn:Hm; [|left; naive_solver].
  destruct (supersedes (payload x) r) eqn:Hs; [left|right; left]; naive_solver.
Qed.

Lemma offers_snoc l x id r :
  offers (l ++ [x]) id r ↔ offers l id r ∨ acceptable x ∧ payload x = r ∧ review_id r = id.
Proof.
  unfold offers. setoid_rewrite elem_of_app. setoid_rewrite list_elem_of_singleton. split.
  - intros (y & [Hy| ->] & Ha & Hp & Hid); [left; by exists y|by right].
  - intros [(y & Hy & Hrest)|(Ha & Hp & Hid)]; [exists y|exists x]; auto.
Qed.

Lemma index_spec l id :
  match index_after l !! id with Some r => wins l id r | None => ∀ r, ¬ offers l id r end.
Proof using review_bytes_inj.
  revert id. induction l as [|x l IH] using rev_ind; intros id.
  { unfold index_after. cbn [foldl]. rewrite lookup_empty. intros r (x & Hx & _). by apply elem_of_nil in Hx. }
  unfold index_after in *. rewrite foldl_app. cbn [foldl]. set (m := foldl _ _ l) in *. specialize (IH id).
  destruct (apply_cases x m) as [(Ha & Hs & ->)|[(Ha & (r & Hr & Hs) & ->)|[Ha ->]]].
  - destruct (decide (id = review_id (payload x))) as [->|Hne].
    + rewrite lookup_insert_eq. split; [apply offers_snoc; by right|]. intros r' [Ho|(_ & -> & _)]%offers_snoc; [|by left].
      right. destruct (m !! review_id (payload x)) as [r|]; [|by apply IH in Ho].
      destruct IH as [_ Hw]. destruct (Hw _ Ho) as [->|Hsr]; [by apply Hs|]. eapply supersedes_trans; [by apply Hs|done].
    + rewrite lookup_insert_ne by done. destruct (m !! id) as [r|].
      * destruct IH as [Ho Hw]. split; [apply offers_snoc; by left|].
        intros r' [?|(_ & <- & <-)]%offers_snoc; [auto|done].
      * intros r [Ho|(_ & <- & <-)]%offers_snoc; [by apply IH in Ho|done].
  - destruct (m !! id) as [r0|] eqn:Hm.
    + destruct IH as [Ho Hw]. split; [apply offers_snoc; by left|]. intros r' [?|(_ & <- & Hid)]%offers_snoc; [auto|].
      rewrite Hid, Hm in Hr. injection Hr as ->. destruct (decide (payload x = r)); [by left|]. right.
      by apply supersedes_total.
    + intros r' [Ho|(_ & <- & Hid)]%offers_snoc; [by apply IH in Ho|congruence].
  - destruct (m !! id) as [r0|].
    + destruct IH as [Ho Hw]. split; [apply offers_snoc; by left|]. intros r' [?|[? _]]%offers_snoc; [auto|done].
    + intros r' [Ho|[? _]]%offers_snoc; [by apply IH in Ho|done].
Qed.

Lemma index_after_same l l' : (∀ x, x ∈ l ↔ x ∈ l') → index_after l = index_after l'.
Proof using review_bytes_inj.
  intros Hsame. assert (∀ id r, offers l id r ↔ offers l' id r) as Ho by (unfold offers; naive_solver).
  assert (∀ id r, wins l id r ↔ wins l' id r) as Hw by (unfold wins; naive_solver).
  apply map_eq. intros id. pose proof (index_spec l id) as Hl. pose proof (index_spec l' id) as Hl'.
  destruct (index_after l !! id) as [r|], (index_after l' !! id) as [r'|]; [|exfalso..|done].
  - f_equal. apply (wins_unique l id); [done|]. by apply Hw.
  - apply (Hl' r), Ho, Hl.
  - apply (Hl r'), Ho, Hl'.
Qed.

(** ** What is shown *)

Lemma authorized_spec n m p :
  p ∈ authorized n m ↔
  ∃ k r s about, m !! k = Some r ∧ nd_settlements n !! rw_settlement r = Some s ∧
    subject_of s (rw_author r) = Some about ∧ p = published r about.
Proof.
  unfold authorized, all_reviews. rewrite merge_sort_Permutation, list_elem_of_omap. split.
  - intros (r & Hr & Hp). apply list_elem_of_fmap in Hr as ([k r'] & -> & Hin). rewrite merge_sort_Permutation in Hin.
    apply elem_of_map_to_list in Hin. cbn in Hp. destruct (nd_settlements n !! rw_settlement r') as [s|] eqn:Hs; [|done].
    cbn in Hp. destruct (subject_of s (rw_author r')) as [a|] eqn:Ha; [|done]. cbn in Hp. injection Hp as <-.
    by exists k, r', s, a.
  - intros (k & r & s & a & Hm & Hs & Ha & ->). exists r. split; [|by rewrite Hs; cbn; rewrite Ha].
    apply list_elem_of_fmap. exists (k, r). split; [done|]. rewrite merge_sort_Permutation. by apply elem_of_map_to_list.
Qed.

Lemma subject_of_Some s author about :
  subject_of s author = Some about →
  is_settled (sm_state s) = true ∧
  (author = sm_buyer s ∧ about = sm_seller s ∨ author = sm_seller s ∧ about = sm_buyer s).
Proof. unfold subject_of. destruct (is_settled _); [|done]. repeat case_decide; naive_solver. Qed.

Lemma index_keyed l k r : index_after l !! k = Some r → k = review_id r ∧ ∃ x, x ∈ l ∧ acceptable x ∧ payload x = r.
Proof using review_bytes_inj.
  intros Hk. pose proof (index_spec l k) as Hs. rewrite Hk in Hs. destruct Hs as [(x & ? & ? & <- & ?) _]. naive_solver.
Qed.

(** A review is shown only where its author was in the trade.  Whatever
    records a node has been sent, every review it shows is of a settlement it
    holds that was approved or completed, was signed by one of that settlement's
    two parties as it stands, is about the other one, and is that party's only
    review of it. *)
Theorem reviews_are_by_parties n l p :
  p ∈ authorized n (index_after l) →
  (∃ s x, nd_settlements n !! pb_settlement p = Some s ∧ is_settled (sm_state s) = true ∧
     (pb_author p = sm_buyer s ∧ pb_about p = sm_seller s ∨ pb_author p = sm_seller s ∧ pb_about p = sm_buyer s) ∧
     x ∈ l ∧ p = published (payload x) (pb_about p) ∧
     peer_id_from_public_key (rw_author_public_key (payload x)) = Some (pb_author p) ∧
     signed_by (rw_author_public_key (payload x)) (StReviewPublish (payload x)) (signature x)) ∧
  ∀ p', p' ∈ authorized n (index_after l) →
    pb_settlement p' = pb_settlement p → pb_author p' = pb_author p → p' = p.
Proof using review_bytes_inj.
  intros (k & r & s & a & Hm & Hs & Ha & ->)%authorized_spec. split.
  - destruct (index_keyed _ _ _ Hm) as (_ & x & Hx & [Hv _] & <-). destruct (subject_of_Some _ _ _ Ha) as [? ?].
    exists s, x. unfold verify_review in Hv. inv_ok. inv_signed. cbn. split_and!; congruence || done.
  - intros p' (k' & r' & s' & a' & Hm' & Hs' & Ha' & ->)%authorized_spec Hset Haut. cbn in Hset, Haut.
    apply index_keyed in Hm as Hk. apply index_keyed in Hm' as Hk'. destruct Hk as [-> _], Hk' as [-> _].
    assert (review_id r' = review_id r) as Heq by (unfold review_id; congruence). rewrite Heq, Hm in Hm'.
    injection Hm' as <-. congruence.
Qed.

(** Base58 writes no colon and is a spelling of the bytes. *)
Hypothesis base58_inj : ∀ p p', base58 p = base58 p' → p = p'.
Hypothesis base58_colon : ∀ p, 58 ∉ bytes_of (base58 p).

Lemma review_id_inj s a s' a' : review_id_of s a = review_id_of s' a' → s = s' ∧ a = a'.
Proof using base58_inj base58_colon.
  unfold review_id_of. intros Heq%(f_equal bytes_of). rewrite !bytes_of_append in Heq.
  change (bytes_of ":") with [58] in Heq. cbn [app] in Heq. apply last_colon in Heq as [Hs%bytes_of_inj Ha%bytes_of_inj]; auto.
Qed.

(** ** Which review stands *)

(** A review as its author signed it, within the limits. *)
Definition genuine (x : signed Review) : Prop :=
  let r := payload x in
  peer_id_from_public_key (rw_author_public_key r) = Some (rw_author r) ∧
  signed_by (rw_author_public_key r) (StReviewPublish r) (signature x) ∧
  Z.of_nat (length (rw_comment r)) ≤ 500 ∧ existsb is_display_hazard (rw_comment r) = false.

Definition reviewed l (settlement : string) (author : PeerId) r : Prop :=
  ∃ x, x ∈ l ∧ genuine x ∧ payload x = r ∧ rw_settlement r = settlement ∧ rw_author r = author.

(** The latest genuine review, and among those of its date the one whose bytes
    come last. *)
Definition latest l (settlement : string) (author : PeerId) r : Prop :=
  reviewed l settlement author r ∧
  ∀ r', reviewed l settlement author r' →
    rw_created_at r' < rw_created_at r ∨
    rw_created_at r' = rw_created_at r ∧ bytes_le (review_bytes r') (review_bytes r).

Lemma acceptable_genuine x : acceptable x ↔ genuine x.
Proof.
  unfold acceptable, genuine, verify_review, validate_review. split.
  - intros [Hv Hw]. inv_ok. inv_signed. unfold MAX_COMMENT_CHARS in *. split_and!; congruence || done || lia.
  - intros (Hp & Hs & Hl & Hh). rewrite Hp. cbn. rewrite require_true by done. cbn.
    split; [by apply check_signature_Ok|]. unfold MAX_COMMENT_CHARS.
    rewrite require_true by lia. by apply require_Ok.
Qed.

Lemma offers_reviewed l settlement author r :
  offers l (review_id_of settlement author) r ↔ reviewed l settlement author r.
Proof using base58_inj base58_colon.
  unfold offers, reviewed. setoid_rewrite acceptable_genuine. split.
  - intros (x & Hx & Hg & Hp & [Hs Ha]%review_id_inj). by exists x.
  - intros (x & Hx & Hg & Hp & <- & <-). by exists x.
Qed.

Lemma wins_latest l settlement author r :
  wins l (review_id_of settlement author) r ↔ latest l settlement author r.
Proof using review_bytes_inj base58_inj base58_colon.
  unfold wins, latest. setoid_rewrite offers_reviewed. split; intros [Ho Hw]; (split; [done|]); intros r' Hr'.
  - destruct (Hw r' Hr') as [->|Hs]; [right; split; [done|by destruct (total bytes_le (review_bytes r) (review_bytes r))]|]. unfold supersedes in Hs. apply bool_decide_eq_true in Hs.
    destruct Hs as [?|[? Hb]]; [by left|right]. split; [done|].
    by destruct (total bytes_le (review_bytes r) (review_bytes r')).
  - destruct (decide (r' = r)) as [|Hne]; [by left|right]. unfold supersedes. apply bool_decide_eq_true.
    destruct (Hw r' Hr') as [?|[? Hb]]; [by left|right]. split; [done|]. intros Hb'.
    apply Hne, review_bytes_inj. by apply (anti_symm bytes_le).
Qed.

(** C31: all nodes end up with the same reviews, and with the latest.  Two nodes
    that heard the same review events, each in its own order and any of them any
    number of times, hold the same index: for every trade and author it has,
    among the reviews of that trade that author signed and that keep the limits
    on comments, the one with the latest date, and of several with that date the
    one whose bytes come last. *)
Theorem reviews_converge l l' :
  (∀ x, x ∈ l ↔ x ∈ l') →
  index_after l = index_after l' ∧
  ∀ settlement author r,
    index_after l !! review_id_of settlement author = Some r ↔ latest l settlement author r.
Proof using review_bytes_inj base58_inj base58_colon.
  intros Hsame. split; [by apply index_after_same|]. intros settlement author r. rewrite <-wins_latest.
  pose proof (index_spec l (review_id_of settlement author)) as Hl. split.
  - intros Hr. by rewrite Hr in Hl.
  - intros Hw. destruct (index_after l !! _) as [r'|]; [f_equal; by eapply wins_unique|].
    destruct Hw as [Ho _]. by apply Hl in Ho.
Qed.

(** The two ways of reading agree.  For a settlement a node holds, looking up
    the two parties' reviews under their derived ids gives exactly the reviews of
    that settlement in the node's whole list of authorized ones. *)
Theorem readings_agree n l s p :
  nd_settlements n !! sm_id s = Some s →
  p ∈ find_for_settlement s (index_after l) ↔ p ∈ authorized n (index_after l) ∧ pb_settlement p = sm_id s.
Proof using review_bytes_inj base58_inj base58_colon.
  intros Hs. rewrite authorized_spec. unfold find_for_settlement. rewrite merge_sort_Permutation, list_elem_of_omap. split.
  - intros (party & Hp & Hf). destruct (index_after l !! _) as [r|] eqn:Hm; [|done]. cbn in Hf.
    apply index_keyed in Hm as Hk. destruct Hk as [Hid _]. apply review_id_inj in Hid as [Hset Haut].
    destruct (subject_of s (rw_author r)) as [a|] eqn:Ha; [|done]. cbn in Hf. injection Hf as <-.
    split; [|done]. exists (review_id_of (sm_id s) party), r, s, a. by rewrite <-Hset.
  - intros [(k & r & s' & a & Hm & Hs' & Ha & ->) Hset]. cbn in Hset. rewrite Hset, Hs in Hs'. injection Hs' as <-.
    exists (rw_author r). split; [destruct (subject_of_Some _ _ _ Ha) as [_ [[-> _]|[-> _]]]; set_solver|].
    apply index_keyed in Hm as Hk. destruct Hk as [-> _]. unfold review_id in Hm. rewrite Hset in Hm.
    rewrite Hm. cbn. by rewrite Ha.
Qed.
End reviews.
