(* ===== verification/Sessions.v ===== *)
(** * Sessions: a wallet's sessions, replicated

    [crates/sessions]: the session, the four signed events, the sweep of expired
    ones, and what they guarantee: only the wallet moves its session, its version
    only rises and its revocation stays, but the version does not make replicas
    agree. *)

From stdpp Require Import sorting.
From S2P Require Import Prelude Runtime Peers Pricing Statements MarketState.
Import Sess.

Module SessionError.
Inductive t :=
  | InvalidSignature | Unauthorized | MalformedSession | DuplicateSessionId | SessionNotFound | AlreadyRevoked
  | StaleVersion.
End SessionError.
Abbreviation session_result := (result SessionError.t).

Record Session := mkSession {
  ss_id : string;
  ss_wallet : PeerId;
  ss_wallet_public_key : PublicKey;
  ss_authenticated_at : Timestamp;
  ss_expires_at : Timestamp;
  ss_client : string;
  ss_host_node : PeerId;
  ss_permissions : list string;
  ss_version : Z;
  ss_revoked : bool;
}.
#[export] Instance Session_eta : Settable Session := fun r =>
  mkSession (ss_id r) (ss_wallet r) (ss_wallet_public_key r) (ss_authenticated_at r) (ss_expires_at r) (ss_client r)
    (ss_host_node r) (ss_permissions r) (ss_version r) (ss_revoked r).

Definition is_current (now : Timestamp) (s : Session) : bool :=
  negb (ss_revoked s) && (now <? ss_expires_at s).

Abbreviation sessions := (gmap string Session).

Definition EXPIRED_GRACE : Z := 7 * 24 * 60 * 60 * 1000.

Definition put_session (s : Session) (m : sessions) : sessions := <[ss_id s := s]> m.

Definition prune_expired (now : Timestamp) (m : sessions) : Z * sessions :=
  let kept := filter (λ kv : string * Session, ¬ ss_expires_at kv.2 < saturating_sub_u64 now EXPIRED_GRACE) m in
  (Z.of_nat (size m) - Z.of_nat (size kept), kept).

Definition all_sessions (m : sessions) : list Session := (merge_sort key_le (map_to_list m)).*2.

Definition sessions_of (wallet : PeerId) (m : sessions) : list Session :=
  filter (λ s, ss_wallet s = wallet) (all_sessions m).

Section sessions.
Context `{Wire}.
Implicit Types (m : sessions) (s : Session).

Definition create_session (x : signed SessionCreate) m : session_result sessions :=
  let c := payload x in
  _ ← verify_self SessionError.MalformedSession SessionError.InvalidSignature SessionError.Unauthorized
        (sc_wallet_public_key c) (sc_wallet c) (StSessionCreate c) (signature x);
  _ ← require (m !! sc_id c = None) (Code SessionError.DuplicateSessionId);
  Ok (put_session (mkSession (sc_id c) (sc_wallet c) (sc_wallet_public_key c) (sc_timestamp c) (sc_expires_at c)
                     (sc_client c) (sc_host_node c) (sc_permissions c) 0 false) m).

(** What renewing, revoking and migrating check alike. *)
Definition session_checks (id : string) (wallet : PeerId) (st : statement) (sig : Signature) m : session_result Session :=
  s ← ok_or (m !! id) (Code SessionError.SessionNotFound);
  _ ← require (ss_wallet s = wallet) (Code SessionError.Unauthorized);
  _ ← check_signature SessionError.MalformedSession SessionError.InvalidSignature (ss_wallet_public_key s) st sig;
  _ ← require (ss_revoked s = false) (Code SessionError.AlreadyRevoked);
  Ok s.

Definition renew_session (x : signed SessionRenew) m : session_result sessions :=
  let r := payload x in
  s ← session_checks (sr_session_id r) (sr_wallet r) (StSessionRenew r) (signature x) m;
  _ ← require (¬ sr_version r ≤ ss_version s) (Code SessionError.StaleVersion);
  Ok (put_session (s <| ss_expires_at := sr_new_expires_at r |> <| ss_version := sr_version r |>) m).

Definition revoke_session (x : signed SessionRevoke) m : session_result sessions :=
  let r := payload x in
  s ← session_checks (sk_session_id r) (sk_wallet r) (StSessionRevoke r) (signature x) m;
  Ok (put_session (s <| ss_revoked := true |>) m).

Definition migrate_session (x : signed SessionMigrate) m : session_result sessions :=
  let g := payload x in
  s ← session_checks (sg_session_id g) (sg_wallet g) (StSessionMigrate g) (signature x) m;
  _ ← require (¬ sg_version g ≤ ss_version s) (Code SessionError.StaleVersion);
  Ok (put_session (s <| ss_host_node := sg_new_host_node g |> <| ss_version := sg_version g |>) m).

Inductive session_event :=
  | SessionEstablished (x : signed SessionCreate)
  | SessionRenewed (x : signed SessionRenew)
  | SessionRevoked (x : signed SessionRevoke)
  | SessionMigrated (x : signed SessionMigrate).

Definition session_apply_event (e : session_event) m : sessions :=
  match e with
  | SessionEstablished x => ignoring (create_session x m) m
  | SessionRenewed x => ignoring (renew_session x m) m
  | SessionRevoked x => ignoring (revoke_session x m) m
  | SessionMigrated x => ignoring (migrate_session x m) m
  end.

(** ** What holds *)

Definition sessions_keyed m : Prop := ∀ k s, m !! k = Some s → ss_id s = k.

Definition event_statement (e : session_event) : statement * Signature :=
  match e with
  | SessionEstablished x => (StSessionCreate (payload x), signature x)
  | SessionRenewed x => (StSessionRenew (payload x), signature x)
  | SessionRevoked x => (StSessionRevoke (payload x), signature x)
  | SessionMigrated x => (StSessionMigrate (payload x), signature x)
  end.

Lemma session_checks_Ok id wallet st sig m s :
  session_checks id wallet st sig m = Ok s →
  m !! id = Some s ∧ ss_wallet s = wallet ∧ signed_by (ss_wallet_public_key s) st sig ∧ ss_revoked s = false.
Proof. unfold session_checks. intros Hrun. inv_ok. inv_signed. by split_and!. Qed.

Lemma session_checks_intro id st sig m s :
  m !! id = Some s → signed_by (ss_wallet_public_key s) st sig → ss_revoked s = false →
  session_checks id (ss_wallet s) st sig m = Ok s.
Proof.
  intros Hm Hsig Hr. unfold session_checks. rewrite Hm. cbn. rewrite require_true by done.
  apply (check_signature_Ok SessionError.MalformedSession SessionError.InvalidSignature _ _ _ tt) in Hsig.
  rewrite Hsig. cbn. by rewrite Hr, require_true.
Qed.

(** How a session may change: it is revoked and nothing else, or its version
    rises. *)
Definition session_moved s s' : Prop :=
  ss_id s' = ss_id s ∧ ss_wallet s' = ss_wallet s ∧ ss_wallet_public_key s' = ss_wallet_public_key s ∧
  ss_client s' = ss_client s ∧ ss_permissions s' = ss_permissions s ∧ ss_authenticated_at s' = ss_authenticated_at s ∧
  (s' = s <| ss_revoked := true |> ∨ ss_revoked s' = ss_revoked s ∧ ss_version s < ss_version s').

Lemma checked_moves id wallet st sig m t t' k s :
  sessions_keyed m → m !! k = Some s → session_checks id wallet st sig m = Ok t → session_moved t t' →
  ∃ s', put_session t' m !! k = Some s' ∧
    (s' = s ∨ signed_by (ss_wallet_public_key s) st sig ∧ ss_revoked s = false ∧ session_moved s s').
Proof.
  intros Hkey Hk Hc Hmv. apply session_checks_Ok in Hc as (Hl & _ & Hsig & Hrev). unfold put_session.
  rewrite (proj1 Hmv), (Hkey _ _ Hl), lookup_insert. case_decide as Heq; [|eauto]. subst k.
  rewrite Hl in Hk. injection Hk as ->. eauto 6.
Qed.

(** Only the wallet moves its session, and only forward.  Whatever event a
    node hears, a session it holds is still there; if anything about it changed,
    the event was signed with the session's key, the session was not revoked
    before, its wallet, key, client and permissions are the same, and either it
    is revoked now and nothing else changed, or its version is higher. *)
Theorem session_moves_forward e m k s :
  sessions_keyed m → m !! k = Some s →
  ∃ s', session_apply_event e m !! k = Some s' ∧
    (s' = s ∨ signed_by (ss_wallet_public_key s) (event_statement e).1 (event_statement e).2 ∧
       ss_revoked s = false ∧ session_moved s s').
Proof.
  intros Hkey Hk. destruct e as [x|x|x|x]; cbn; unfold ignoring.
  - destruct (create_session x m) as [m'|] eqn:Hrun; [|eauto]. unfold create_session in Hrun. cbv zeta in Hrun. inv_ok.
    exists s. unfold put_session. cbn. rewrite lookup_insert_ne by congruence. auto.
  - destruct (renew_session x m) as [m'|] eqn:Hrun; [|eauto]. unfold renew_session in Hrun. cbv zeta in Hrun. inv_ok.
    eapply checked_moves; [done..|]. unfold session_moved. cbn. split_and!; try done. right. split; [done|lia].
  - destruct (revoke_session x m) as [m'|] eqn:Hrun; [|eauto]. unfold revoke_session in Hrun. cbv zeta in Hrun. inv_ok.
    eapply checked_moves; [done..|]. unfold session_moved. cbn. split_and!; auto.
  - destruct (migrate_session x m) as [m'|] eqn:Hrun; [|eauto]. unfold migrate_session in Hrun. cbv zeta in Hrun. inv_ok.
    eapply checked_moves; [done..|]. unfold session_moved. cbn. split_and!; try done. right. split; [done|lia].
Qed.

Lemma migrate_runs x m t :
  m !! sg_session_id (payload x) = Some t → ss_id t = sg_session_id (payload x) → ss_wallet t = sg_wallet (payload x) →
  signed_by (ss_wallet_public_key t) (StSessionMigrate (payload x)) (signature x) → ss_revoked t = false →
  session_apply_event (SessionMigrated x) m =
    if decide (sg_version (payload x) ≤ ss_version t) then m
    else <[ss_id t := t <| ss_host_node := sg_new_host_node (payload x) |> <| ss_version := sg_version (payload x) |>]> m.
Proof.
  intros Hm Hid Hw Hsig Hr. cbn. unfold migrate_session. cbv zeta. rewrite <-Hw, (session_checks_intro _ _ _ _ _ Hm Hsig Hr).
  cbn. unfold require. repeat case_decide; done.
Qed.

Lemma renew_runs x m t :
  m !! sr_session_id (payload x) = Some t → ss_id t = sr_session_id (payload x) → ss_wallet t = sr_wallet (payload x) →
  signed_by (ss_wallet_public_key t) (StSessionRenew (payload x)) (signature x) → ss_revoked t = false →
  session_apply_event (SessionRenewed x) m =
    if decide (sr_version (payload x) ≤ ss_version t) then m
    else <[ss_id t := t <| ss_expires_at := sr_new_expires_at (payload x) |> <| ss_version := sr_version (payload x) |>]> m.
Proof.
  intros Hm Hid Hw Hsig Hr. cbn. unfold renew_session. cbv zeta. rewrite <-Hw, (session_checks_intro _ _ _ _ _ Hm Hsig Hr).
  cbn. unfold require. repeat case_decide; done.
Qed.

#[local] Arguments session_apply_event : simpl never.

(** The version does not settle conflicts.  When a wallet migrates a session
    at one version and renews it at a higher one, a replica that hears the
    migration first ends on the new host and one that hears the renewal first
    refuses the migration and stays on the old one, at the same version on both,
    and hearing either event again changes neither. *)
Theorem session_replicas_diverge m s (mg : signed SessionMigrate) (rn : signed SessionRenew) :
  let migrated := SessionMigrated mg in
  let renewed := SessionRenewed rn in
  m !! ss_id s = Some s → ss_revoked s = false →
  sg_session_id (payload mg) = ss_id s → sg_wallet (payload mg) = ss_wallet s →
  sr_session_id (payload rn) = ss_id s → sr_wallet (payload rn) = ss_wallet s →
  signed_by (ss_wallet_public_key s) (StSessionMigrate (payload mg)) (signature mg) →
  signed_by (ss_wallet_public_key s) (StSessionRenew (payload rn)) (signature rn) →
  ss_version s < sg_version (payload mg) < sr_version (payload rn) → sg_new_host_node (payload mg) ≠ ss_host_node s →
  let a := session_apply_event renewed (session_apply_event migrated m) in
  let b := session_apply_event migrated (session_apply_event renewed m) in
  (∃ sa sb, a !! ss_id s = Some sa ∧ b !! ss_id s = Some sb ∧ ss_version sa = ss_version sb ∧
     ss_host_node sa = sg_new_host_node (payload mg) ∧ ss_host_node sb = ss_host_node s ∧
     ss_host_node sa ≠ ss_host_node sb) ∧
  session_apply_event migrated a = a ∧ session_apply_event renewed a = a ∧
  session_apply_event migrated b = b ∧ session_apply_event renewed b = b.
Proof.
  intros migrated renewed Hm Hrev Hgi Hgw Hri Hrw Hgs Hrs Hv Hhost.
  assert (∀ t, <[ss_id s := t]> m !! sg_session_id (payload mg) = Some t) as Hlm by (intros; by rewrite Hgi, lookup_insert_eq).
  assert (∀ t, <[ss_id s := t]> m !! sr_session_id (payload rn) = Some t) as Hlr by (intros; by rewrite Hri, lookup_insert_eq).
  intros a b. subst a b migrated renewed.
  rewrite (migrate_runs mg m s), (renew_runs rn m s) by congruence. rewrite !decide_False by lia.
  rewrite (renew_runs rn _ _ (Hlr _)), (migrate_runs mg _ _ (Hlm _)) by done. cbn [ss_version ss_id].
  rewrite decide_False, decide_True by (cbn; lia). cbn. rewrite insert_insert_eq. split.
  - eexists _, _. rewrite !lookup_insert_eq. by split_and!.
  - rewrite !(migrate_runs mg _ _ (Hlm _)), !(renew_runs rn _ _ (Hlr _)) by done. by rewrite !decide_True by (cbn; lia).
Qed.
End sessions.
