(* ===== verification/Challenges.v ===== *)
(** * Challenges: proving control of a key without a login

    [crates/crypto/src/challenge.rs], the ledger of outstanding nonces, and
    [crates/registry/src/earnings.rs], the statement a provider reads by
    answering one.  The entropy a nonce is drawn from is an argument of the
    operation that draws it. *)

From Stdlib Require Import Ascii.
From stdpp Require Import sorting.
From S2P Require Import Prelude Runtime Peers Pricing.

Definition CHALLENGE_TTL_SECS : Z := 300.

Module ChallengeError.
Inductive t := Unknown | Expired.
End ChallengeError.
Abbreviation challenge_result := (result ChallengeError.t).

Record Challenge := mkChallenge {
  ch_subject : string;
  ch_nonce : string;
  ch_expires_at : Timestamp;
}.

Definition colon_sep (a b : string) : string := String.append a (String.append ":" b).

Definition signing_bytes (c : Challenge) (domain : string) : list Z :=
  bytes_of (colon_sep domain (colon_sep (ch_subject c) (ch_nonce c))).

Definition hex_char (v : Z) : ascii :=
  Ascii.ascii_of_N (Z.to_N (if decide (v < 10) then 48 + v else 87 + v)).

(** Two lower-case digits a byte. *)
Definition hex (bytes : list Z) : string :=
  String.string_of_list_ascii (b ← bytes; [hex_char (b / 16); hex_char (b mod 16)]).

(** ** The ledger *)

Abbreviation ledger := (gmap string Challenge).

(** The order a hash map is walked in: some order of its entries. *)
Class HashOrder := {
  walk : ledger → list (string * Challenge);
  walk_entries m : walk m ≡ₚ map_to_list m;
}.

Definition MAX_OUTSTANDING : Z := 4096.

Definition expiry_le (a b : string * Timestamp) : Prop := a.2 ≤ b.2.
#[export] Instance expiry_le_dec a b : Decision (expiry_le a b).
Proof. unfold expiry_le. apply _. Defined.
#[export] Instance expiry_le_total : Total expiry_le.
Proof. intros a b. unfold expiry_le. lia. Qed.
#[export] Instance expiry_le_trans : Transitive expiry_le.
Proof. intros a b c. unfold expiry_le. lia. Qed.

Definition outstanding_challenges (m : ledger) : Z := Z.of_nat (size m).

Section ledger.
Context `{HashOrder}.
Implicit Types m : ledger.

(** The sort leaves the order of ties open, as the walk does. *)
Definition by_expiry m : list (string * Timestamp) :=
  merge_sort expiry_le ((λ '(nonce, c), (nonce, ch_expires_at c)) <$> walk m).

Definition prune_challenges (now : Timestamp) m : ledger :=
  let kept := filter (λ '(_, c), now ≤ ch_expires_at c) m in
  if decide (outstanding_challenges kept < MAX_OUTSTANDING) then kept
  else
    let excess := outstanding_challenges kept + 1 - MAX_OUTSTANDING in
    foldr delete kept (take (Z.to_nat excess) (by_expiry kept)).*1.

Definition issue (subject : string) (now ttl_secs : Z) (entropy : list Z) m : challenge_result (Challenge * ledger) :=
  let m := prune_challenges now m in
  ttl ← or_panic u64 (ttl_secs * 1000);
  let c := mkChallenge subject (hex entropy) (saturating_add_u64 now ttl) in
  Ok (c, <[ch_nonce c := c]> m).

(** The entry is gone whatever the answer. *)
Definition consume (subject nonce : string) (now : Timestamp) m : (ChallengeError.t + Challenge) * ledger :=
  match m !! nonce with
  | None => (inl ChallengeError.Unknown, m)
  | Some c =>
      ( if decide (ch_subject c ≠ subject) then inl ChallengeError.Unknown
        else if decide (ch_expires_at c < now) then inl ChallengeError.Expired
        else inr c,
        delete nonce m )
  end.
End ledger.

(** ** Earnings *)

Record EarningEntry := mkEarningEntry {
  ee_token_mint : string;
  ee_amount : Amount;
  ee_reference : string;
  ee_credited_at : Timestamp;
}.

Record ProviderEarnings := mkProviderEarnings {
  pe_service_id : string;
  pe_payout_wallet : option string;
  pe_entries : list EarningEntry;
}.

(** The first running total of the mint takes the amount, when it can. *)
Fixpoint add_total (e : EarningEntry) (totals : list (string * Amount)) : list (string * Amount) :=
  match totals with
  | [] => [(ee_token_mint e, ee_amount e)]
  | (mint, running) :: rest =>
      if decide (mint = ee_token_mint e)
      then (mint, default running (amount_checked_add running (ee_amount e))) :: rest
      else (mint, running) :: add_total e rest
  end.

Definition totals (p : ProviderEarnings) : list (string * Amount) :=
  foldl (λ acc e, add_total e acc) [] (pe_entries p).

Definition SIGNING_DOMAIN : string := "openfiat-earnings".

Record EarningsChallenge := mkEarningsChallenge {
  ec_service_id : string;
  ec_nonce : string;
  ec_expires_at : Timestamp;
}.

Definition as_challenge (c : EarningsChallenge) : Challenge :=
  mkChallenge (ec_service_id c) (ec_nonce c) (ec_expires_at c).

Definition from_challenge (c : Challenge) (service_id : string) : EarningsChallenge :=
  mkEarningsChallenge service_id (ch_nonce c) (ch_expires_at c).

Definition earnings_signing_bytes (c : EarningsChallenge) : list Z := signing_bytes (as_challenge c) SIGNING_DOMAIN.

Module EarningsError.
Inductive t := UnknownChallenge | ChallengeExpired.
End EarningsError.

Record EarningsLedger := mkEarningsLedger {
  el_entries : gmap string (list EarningEntry);
  el_challenges : ledger;
}.

Definition credit (service_id : string) (e : EarningEntry) (l : EarningsLedger) : EarningsLedger :=
  mkEarningsLedger (<[service_id := default [] (el_entries l !! service_id) ++ [e]]> (el_entries l)) (el_challenges l).

Definition issue_challenge `{HashOrder} (service_id : string) (now : Timestamp) (entropy : list Z) (l : EarningsLedger) :
    challenge_result (EarningsChallenge * EarningsLedger) :=
  '(c, m) ← issue service_id now CHALLENGE_TTL_SECS entropy (el_challenges l);
  Ok (from_challenge c service_id, mkEarningsLedger (el_entries l) m).

Definition consume_challenge (service_id nonce : string) (now : Timestamp) (l : EarningsLedger) :
    (EarningsError.t + EarningsChallenge) * EarningsLedger :=
  let '(r, m) := consume service_id nonce now (el_challenges l) in
  ( match r with
    | inr c => inr (from_challenge c service_id)
    | inl ChallengeError.Unknown => inl EarningsError.UnknownChallenge
    | inl ChallengeError.Expired => inl EarningsError.ChallengeExpired
    end,
    mkEarningsLedger (el_entries l) m ).

Definition statement_of (service_id : string) (payout_wallet : option string) (l : EarningsLedger) : ProviderEarnings :=
  mkProviderEarnings service_id payout_wallet (default [] (el_entries l !! service_id)).

(** ** Pruning *)

Section pruning.
Context `{HashOrder}.
Implicit Types m : ledger.

Lemma foldr_delete_lookup m l k : foldr delete m l !! k = if decide (k ∈ l) then None else m !! k.
Proof.
  induction l as [|x l IH]; simpl; [done|]. rewrite lookup_delete, IH.
  repeat case_decide; set_solver.
Qed.

Lemma foldr_delete_size m l :
  NoDup l → (∀ k, k ∈ l → is_Some (m !! k)) → (size (foldr delete m l) + length l = size m)%nat.
Proof.
  induction 1 as [|x l Hx _ IH]; intros Hl; simpl; [lia|].
  destruct (Hl x) as [c Hc]; [set_solver|].
  assert (foldr delete m l !! x = Some c) as Hm by (rewrite foldr_delete_lookup; by case_decide).
  rewrite map_size_delete, Hm. specialize (IH ltac:(intros; apply Hl; set_solver)).
  assert (size (foldr delete m l) ≠ 0%nat) by (rewrite map_size_ne_0_lookup; eauto). lia.
Qed.

Lemma by_expiry_entries m n t : (n, t) ∈ by_expiry m ↔ ∃ c, m !! n = Some c ∧ ch_expires_at c = t.
Proof.
  unfold by_expiry. rewrite merge_sort_Permutation, walk_entries, list_elem_of_fmap. split.
  - intros ([n' c] & [= -> ->] & Hin%elem_of_map_to_list). eauto.
  - intros (c & Hm & <-). exists (n, c). by rewrite elem_of_map_to_list.
Qed.

Lemma by_expiry_nonces m : (by_expiry m).*1 ≡ₚ (map_to_list m).*1.
Proof.
  unfold by_expiry. rewrite merge_sort_Permutation, walk_entries, <-list_fmap_compose.
  apply reflexive_eq, list_fmap_ext. by intros ? [].
Qed.

Lemma by_expiry_sorted m : StronglySorted expiry_le (by_expiry m).
Proof. apply StronglySorted_merge_sort; apply _. Qed.

Lemma by_expiry_length m : length (by_expiry m) = size m.
Proof. by rewrite <-(length_fmap fst), by_expiry_nonces, length_fmap, length_map_to_list. Qed.

(** What a cut of the order takes was not later than what it leaves. *)
Lemma evicted_earlier m k n t n' c' :
  (n, t) ∈ take k (by_expiry m) → m !! n' = Some c' → n' ∉ (take k (by_expiry m)).*1 → t ≤ ch_expires_at c'.
Proof.
  intros Hin Hm Hout. pose proof (by_expiry_sorted m) as Hs.
  assert ((n', ch_expires_at c') ∈ by_expiry m) as Hin' by (apply by_expiry_entries; eauto).
  rewrite <-(take_drop k (by_expiry m)) in Hs, Hin'. apply elem_of_app in Hin' as [Hin'|Hin'].
  { destruct Hout. apply list_elem_of_fmap. by exists (n', ch_expires_at c'). }
  change (expiry_le (n, t) (n', ch_expires_at c')). by eapply StronglySorted_app_1_elem_of.
Qed.

Lemma pruned_lookup now m n c : prune_challenges now m !! n = Some c → m !! n = Some c ∧ now ≤ ch_expires_at c.
Proof.
  unfold prune_challenges. case_decide; [rewrite map_lookup_filter_Some; naive_solver|].
  rewrite foldr_delete_lookup. case_decide; [done|]. rewrite map_lookup_filter_Some. naive_solver.
Qed.

(** Issuing makes room for one more. *)
Lemma prune_room now m : outstanding_challenges (prune_challenges now m) < MAX_OUTSTANDING.
Proof.
  unfold prune_challenges. case_decide as Hlt; [done|]. set (kept := filter _ m) in *.
  set (k := Z.to_nat _). unfold outstanding_challenges, MAX_OUTSTANDING in *.
  pose proof (foldr_delete_size kept (take k (by_expiry kept)).*1) as Hsize.
  rewrite length_fmap, length_take, by_expiry_length in Hsize.
  assert (NoDup (take k (by_expiry kept)).*1) as Hnd.
  { rewrite fmap_take. eapply sublist_NoDup; [|apply sublist_take].
    rewrite by_expiry_nonces. apply NoDup_fst_map_to_list. }
  specialize (Hsize Hnd). rewrite Nat.min_l in Hsize by (unfold k, outstanding_challenges; lia).
  enough (size (foldr delete kept (take k (by_expiry kept)).*1) + k = size kept)%nat by (unfold k, outstanding_challenges in *; lia).
  apply Hsize. intros n Hn. apply list_elem_of_fmap in Hn as ([n' t] & -> & Hin).
  apply elem_of_take in Hin as (i & Hi & _). apply list_elem_of_lookup_2, by_expiry_entries in Hi as (c & Hc & _).
  eauto.
Qed.

(** A challenge is pushed out after all those that expire before it. *)
Lemma prune_later now m n c n' c' :
  prune_challenges now m !! n = Some c → m !! n' = Some c' → ch_expires_at c < ch_expires_at c' → prune_challenges now m !! n' = Some c'.
Proof.
  intros Hn Hm Hlt. pose proof (pruned_lookup _ _ _ _ Hn) as [Hc Hnow].
  assert (filter (λ '(_, c), now ≤ ch_expires_at c) m !! n' = Some c') as Hk'
    by (rewrite map_lookup_filter_Some; split; [done|lia]).
  unfold prune_challenges in *. case_decide as Hroom; [done|]. set (kept := filter _ m) in *.
  rewrite foldr_delete_lookup in *. case_decide as Hin; [done|]. case_decide as Hin'; [|done].
  apply list_elem_of_fmap in Hin' as ([n'' t] & -> & Hin'). simpl in *.
  pose proof (evicted_earlier _ _ _ _ _ _ Hin' Hn Hin) as Hle.
  apply elem_of_take in Hin' as (i & Hi & _). apply list_elem_of_lookup_2, by_expiry_entries in Hi as (c2 & Hc2 & <-).
  rewrite Hk' in Hc2. injection Hc2 as ->. lia.
Qed.

(** Below the ceiling nobody's challenge is touched. *)
Lemma prune_quiet now m n c :
  outstanding_challenges m < MAX_OUTSTANDING → m !! n = Some c → now ≤ ch_expires_at c → prune_challenges now m !! n = Some c.
Proof.
  intros Hroom Hm Hnow. unfold prune_challenges. rewrite decide_True; [by rewrite map_lookup_filter_Some|].
  unfold outstanding_challenges in *. pose proof (map_size_filter (λ '(_, c), now ≤ ch_expires_at c) m). lia.
Qed.
End pruning.

(** ** A nonce opens one door, once *)

(** What a caller of the ledger asked, and what it was told. *)
Inductive seen :=
  | Issued (subject : string) (now ttl : Z) (c : Challenge)
  | Opened (subject nonce : string) (now : Timestamp) (c : Challenge)
  | Refused (subject nonce : string) (now : Timestamp) (e : ChallengeError.t).

Inductive conversation `{HashOrder} : ledger → list seen → Prop :=
  | conversation_start : conversation ∅ []
  | conversation_issue m log subject now ttl entropy c m' :
      conversation m log → issue subject now ttl entropy m = Ok (c, m') → conversation m' (Issued subject now ttl c :: log)
  | conversation_open m log subject nonce now c m' :
      conversation m log → consume subject nonce now m = (inr c, m') → conversation m' (Opened subject nonce now c :: log)
  | conversation_refuse m log subject nonce now e m' :
      conversation m log → consume subject nonce now m = (inl e, m') → conversation m' (Refused subject nonce now e :: log).

(** The nonces handed out, those presented, and those accepted. *)
Definition handed_out (log : list seen) : list string := omap (λ x, if x is Issued _ _ _ c then Some (ch_nonce c) else None) log.
Definition accepted (log : list seen) : list string := omap (λ x, if x is Opened _ n _ _ then Some n else None) log.
Definition presented (log : list seen) : list string :=
  omap (λ x, match x with Issued _ _ _ _ => None | Opened _ n _ _ | Refused _ n _ _ => Some n end) log.

Section conversations.
Context `{HashOrder}.
Implicit Types m : ledger.

Lemma issue_Ok subject now ttl entropy m c m' :
  issue subject now ttl entropy m = Ok (c, m') →
  c = mkChallenge subject (hex entropy) (saturating_add_u64 now (ttl * 1000)) ∧ m' = <[ch_nonce c := c]> (prune_challenges now m).
Proof. unfold issue. intros Hi. apply bind_Ok in Hi as (t & [-> _]%or_panic_Ok & [= <- <-]). done. Qed.

Lemma issue_lookup subject now ttl entropy m c m' n c' :
  issue subject now ttl entropy m = Ok (c, m') → m' !! n = Some c' →
  n = ch_nonce c ∧ c' = c ∨ n ≠ ch_nonce c ∧ prune_challenges now m !! n = Some c'.
Proof. intros [_ ->]%issue_Ok. rewrite lookup_insert_Some. naive_solver. Qed.

Lemma consume_Ok subject nonce now m c m' :
  consume subject nonce now m = (inr c, m') ↔
  m !! nonce = Some c ∧ ch_subject c = subject ∧ now ≤ ch_expires_at c ∧ m' = delete nonce m.
Proof.
  unfold consume. split.
  - intros. destruct (m !! nonce) eqn:?; repeat case_decide; simplify_eq. naive_solver lia.
  - intros (-> & <- & Hnow & ->). rewrite decide_False by naive_solver. by rewrite decide_False by lia.
Qed.

(** Presented once, a nonce is gone, and nothing else is. *)
Lemma consume_lookup subject nonce now m n c :
  (consume subject nonce now m).2 !! n = Some c → m !! n = Some c ∧ n ≠ nonce.
Proof.
  unfold consume. destruct (m !! nonce) eqn:Hn; simpl; [rewrite lookup_delete_Some; naive_solver|].
  intros Hc. split; [done|]. congruence.
Qed.

(** A standing challenge was issued, and its nonce has not been presented since. *)
Definition standing (log : list seen) (n : string) (c : Challenge) : Prop :=
  ch_nonce c = n ∧ ∃ between subject now ttl before, log = between ++ Issued subject now ttl c :: before ∧
    ch_subject c = subject ∧ ch_expires_at c = saturating_add_u64 now (ttl * 1000) ∧ n ∉ presented between.

Lemma standing_cons log n c x : standing log n c → n ∉ presented [x] → standing (x :: log) n c.
Proof.
  intros (Hn & between & subject & now & ttl & before & -> & ? & ? & Hb) Hx. split; [done|].
  exists (x :: between), subject, now, ttl, before. split_and!; [done..|].
  change (n ∉ presented ([x] ++ between)). unfold presented in *. rewrite omap_app. set_solver.
Qed.

Lemma conversation_stands m log : conversation m log → ∀ n c, m !! n = Some c → standing log n c.
Proof.
  induction 1 as [|m log subject now ttl entropy c m' _ IH Hi|m log subject nonce now c m' _ IH Hc
    |m log subject nonce now e m' _ IH Hc]; intros n c' Hn; [done| | |].
  - destruct (issue_lookup _ _ _ _ _ _ _ _ _ Hi Hn) as [[-> ->]|[_ [Hp _]%pruned_lookup]];
      [|by apply standing_cons; [apply IH|apply not_elem_of_nil]].
    apply issue_Ok in Hi as [-> _]. split; [done|]. exists [], subject, now, ttl, log. split_and!; [done..|apply not_elem_of_nil].
  - apply (f_equal snd) in Hc. simpl in Hc. subst m'. apply consume_lookup in Hn as [Hn Hne].
    apply standing_cons; [by apply IH|]. change (n ∉ [nonce]). by rewrite list_elem_of_singleton.
  - apply (f_equal snd) in Hc. simpl in Hc. subst m'. apply consume_lookup in Hn as [Hn Hne].
    apply standing_cons; [by apply IH|]. change (n ∉ [nonce]). by rewrite list_elem_of_singleton.
Qed.

Lemma standing_handed_out log n c : standing log n c → n ∈ handed_out log.
Proof.
  intros (<- & between & subject & now & ttl & before & -> & _). unfold handed_out. rewrite omap_app. apply elem_of_app. right. left.
Qed.

(** While nonces do not repeat, an accepted one is not standing any more. *)
Lemma conversation_accepted m log :
  conversation m log → NoDup (handed_out log) →
  NoDup (accepted log) ∧ (∀ n, n ∈ accepted log → n ∈ handed_out log ∧ m !! n = None).
Proof.
  induction 1 as [|m log subject now ttl entropy c m' Hrun IH Hi|m log subject nonce now c m' Hrun IH Hc
    |m log subject nonce now e m' Hrun IH Hc]; intros Hnd.
  - split; [constructor|]. by intros n ?%not_elem_of_nil.
  - apply NoDup_cons in Hnd as [Hfresh Hnd]. destruct (IH Hnd) as [Hacc Hgone]. split; [done|].
    intros n Hn. destruct (Hgone n Hn) as [Hout Hm]. split; [by right|].
    destruct (m' !! n) as [c'|] eqn:Hc'; [|done].
    destruct (issue_lookup _ _ _ _ _ _ _ _ _ Hi Hc') as [[-> _]|[_ [Hp _]%pruned_lookup]]; [done|congruence].
  - apply consume_Ok in Hc as (Hn & _ & _ & ->). destruct (IH Hnd) as [Hacc Hgone].
    change (accepted (Opened subject nonce now c :: log)) with (nonce :: accepted log). split.
    + constructor; [|done]. intros Hin. destruct (Hgone _ Hin). congruence.
    + intros n [->|Hin]%elem_of_cons; [split; [|apply lookup_delete_eq]|].
      * change (nonce ∈ handed_out log). by apply (standing_handed_out _ _ c), (conversation_stands m).
      * destruct (Hgone n Hin) as [? Hm]. split; [done|]. apply lookup_delete_None. by right.
  - destruct (IH Hnd) as [Hacc Hgone]. split; [exact Hacc|]. intros n Hin. destruct (Hgone n Hin) as [Hout Hm]. split; [exact Hout|].
    destruct (m' !! n) eqn:Hn; [|done]. apply (f_equal snd) in Hc. simpl in Hc. subst m'.
    apply consume_lookup in Hn as [Hn _]. congruence.
Qed.

(** A run is a run of its beginnings. *)
Lemma conversation_earlier m later log : conversation m (later ++ log) → ∃ m0, conversation m0 log.
Proof. revert m. induction later as [|x later IH]; intros m Hrun; [eauto|]. inversion Hrun; subst; eauto. Qed.

(** C39: a nonce opens one door, once.  In every run of the ledger in which the
    random nonces do not repeat, no nonce is accepted twice; and each nonce it
    accepts is that of the challenge it returns, which it issued earlier to the
    subject that presents it, which had not expired by then, and whose nonce
    nobody had presented since, rightly or wrongly; whatever else is issued,
    refused or evicted in between.  And a challenge just issued opens for its
    subject until it expires. *)
Theorem challenge_opens_once m log :
  conversation m log → NoDup (handed_out log) →
  NoDup (accepted log) ∧
  (∀ later subject nonce now c earlier, log = later ++ Opened subject nonce now c :: earlier →
     ch_nonce c = nonce ∧ ∃ between issued_at ttl before,
       earlier = between ++ Issued subject issued_at ttl c :: before ∧
       now ≤ saturating_add_u64 issued_at (ttl * 1000) ∧ nonce ∉ presented between) ∧
  (∀ subject issued_at ttl c earlier now, log = Issued subject issued_at ttl c :: earlier →
     now ≤ saturating_add_u64 issued_at (ttl * 1000) → (consume subject (ch_nonce c) now m).1 = inr c).
Proof.
  intros Hrun Hnd. split; [by apply (conversation_accepted m)|]. split.
  - intros later subject nonce now c earlier ->. apply conversation_earlier in Hrun as [m0 Hrun].
    inversion Hrun as [| |m1 log1 ????? Hrun1 Hc|]; subst. apply consume_Ok in Hc as (Hn & <- & Hnow & _).
    destruct (conversation_stands _ _ Hrun1 _ _ Hn) as (Hnonce & between & s & t & ttl & before & -> & <- & He & Hb).
    split; [done|]. exists between, t, ttl, before. by rewrite <- He.
  - intros subject issued_at ttl c earlier now -> Hnow. inversion Hrun as [|m1 log1 ?????? Hrun1 Hi| |]; subst.
    apply issue_Ok in Hi as [-> ->].
    by erewrite (proj2 (consume_Ok _ _ _ _ _ _)) by (split_and!; [apply lookup_insert_eq|done..]).
Qed.
End conversations.

(** ** The ceiling *)

Record issue_request := mkRequest { rq_subject : string; rq_now : Timestamp; rq_ttl : Z; rq_entropy : list Z }.

Fixpoint issue_all `{HashOrder} (rs : list issue_request) (m : ledger) : challenge_result (list Challenge * ledger) :=
  match rs with
  | [] => Ok ([], m)
  | r :: rs =>
      '(c, m) ← issue (rq_subject r) (rq_now r) (rq_ttl r) (rq_entropy r) m;
      '(cs, m) ← issue_all rs m;
      Ok (c :: cs, m)
  end.

Section ceiling.
Context `{HashOrder}.
Implicit Types m : ledger.

Lemma issue_all_runs rs m :
  Forall (λ r, u64 (rq_ttl r * 1000)) rs → ∃ cs m', issue_all rs m = Ok (cs, m').
Proof.
  intros Hrs. revert m. induction Hrs as [|r rs Hr _ IH]; intros m; [eauto|]. simpl.
  unfold issue. rewrite or_panic_fits by done. cbn [mbind result_bind].
  destruct (IH (<[hex (rq_entropy r) := mkChallenge (rq_subject r) (hex (rq_entropy r))
    (saturating_add_u64 (rq_now r) (rq_ttl r * 1000))]> (prune_challenges (rq_now r) m))) as (cs & m' & Hm').
  eexists _, _. cbn [ch_nonce]. by rewrite Hm'.
Qed.

Lemma issue_all_challenges rs m cs m' :
  issue_all rs m = Ok (cs, m') →
  cs = (λ r, mkChallenge (rq_subject r) (hex (rq_entropy r)) (saturating_add_u64 (rq_now r) (rq_ttl r * 1000))) <$> rs.
Proof.
  revert m cs. induction rs as [|r rs IH]; intros m cs Hrun; simpl in Hrun; [by injection Hrun as <- <-|].
  apply bind_Ok in Hrun as ([c m1] & Hi & Hrun). apply bind_Ok in Hrun as ([cs' m2] & Hrs & [= <- <-]).
  apply issue_Ok in Hi as [-> _]. by rewrite (IH _ _ Hrs).
Qed.

(** While a challenge stands, so does every one that expires later. *)
Lemma issue_all_stands rs m cs m' n c held :
  issue_all rs m = Ok (cs, m') → NoDup (ch_nonce <$> held ++ cs) → n ∉ ch_nonce <$> cs →
  (∀ d, d ∈ held ++ cs → ch_expires_at c < ch_expires_at d) →
  (m !! n = Some c → ∀ d, d ∈ held → m !! ch_nonce d = Some d) →
  m' !! n = Some c → ∀ d, d ∈ held ++ cs → m' !! ch_nonce d = Some d.
Proof.
  revert m cs held. induction rs as [|r rs IH]; intros m cs held Hrun Hnd Hn Hlate Hheld; simpl in Hrun.
  { injection Hrun as <- <-. by rewrite app_nil_r. }
  apply bind_Ok in Hrun as ([c1 m1] & Hi & Hrun). apply bind_Ok in Hrun as ([cs' m2] & Hrs & [= <- <-]).
  rewrite cons_middle, app_assoc in Hnd, Hlate |- *. apply (IH _ _ _ Hrs); [done|set_solver|done|].
  intros Hc d Hd. destruct (issue_lookup _ _ _ _ _ _ _ _ _ Hi Hc) as [[-> _]|[Hne Hp]]; [set_solver|].
  apply issue_Ok in Hi as [_ ->]. apply elem_of_app in Hd as [Hd|<-%list_elem_of_singleton]; [|by rewrite lookup_insert_eq].
  rewrite lookup_insert_ne.
  - pose proof (pruned_lookup _ _ _ _ Hp) as [Hc' _]. eapply prune_later; [done|by apply Hheld|].
    apply Hlate. set_solver.
  - intros Heq. rewrite fmap_app in Hnd. apply NoDup_app in Hnd as [Hnd _]. rewrite fmap_app in Hnd.
    apply NoDup_app in Hnd as (_ & Hdisj & _). apply (Hdisj (ch_nonce d)); set_solver.
Qed.

Lemma issue_all_room rs m cs m' : issue_all rs m = Ok (cs, m') → rs ≠ [] → outstanding_challenges m' ≤ MAX_OUTSTANDING.
Proof.
  revert m cs. induction rs as [|r rs IH]; intros m cs Hrun Hne; [done|]. simpl in Hrun.
  apply bind_Ok in Hrun as ([c1 m1] & Hi & Hrun). apply bind_Ok in Hrun as ([cs' m2] & Hrs & [= <- <-]).
  destruct rs as [|r' rs]; [|by eapply IH]. injection Hrs as <- <-. apply issue_Ok in Hi as [_ ->].
  pose proof (prune_room (rq_now r) m). unfold outstanding_challenges in *. rewrite map_size_insert. case_match; simpl; lia.
Qed.

Lemma issue_all_old rs m cs m' n c :
  issue_all rs m = Ok (cs, m') → n ∉ ch_nonce <$> cs → m' !! n = Some c → m !! n = Some c.
Proof.
  revert m cs. induction rs as [|r rs IH]; intros m cs Hrun Hn Hc; simpl in Hrun; [by injection Hrun as <- <-|].
  apply bind_Ok in Hrun as ([c1 m1] & Hi & Hrun). apply bind_Ok in Hrun as ([cs' m2] & Hrs & [= <- <-]).
  assert (m1 !! n = Some c) as Hm1 by (eapply IH; [done|set_solver|done]).
  destruct (issue_lookup _ _ _ _ _ _ _ _ _ Hi Hm1) as [[-> _]|[_ Hp]]; [set_solver|]. by apply pruned_lookup in Hp as [? _].
Qed.

Lemma listed_size (m : ledger) l : NoDup l → (∀ k, k ∈ l → is_Some (m !! k)) → (length l ≤ size m)%nat.
Proof.
  intros Hnd Hall. rewrite <-(size_dom (D:=gset string)), <-(size_list_to_set (C:=gset string)) by done.
  apply subseteq_size. intros k. rewrite elem_of_list_to_set, elem_of_dom. apply Hall.
Qed.

(** A stranger can push out anybody's challenge.  Below the ceiling issuing
    leaves every unexpired challenge alone; but as many requests as the ceiling,
    each expiring after a challenge and for whatever subject, drop it unexpired and
    unanswered, and its owner is told that it never existed. *)
Theorem flood_evicts_challenge m n c rs cs m' :
  m !! n = Some c → issue_all rs m = Ok (cs, m') → MAX_OUTSTANDING ≤ Z.of_nat (length rs) →
  NoDup (n :: (ch_nonce <$> cs)) → (∀ d, d ∈ cs → ch_expires_at c < ch_expires_at d) →
  (∀ subject now ttl entropy c' m1, outstanding_challenges m < MAX_OUTSTANDING → now ≤ ch_expires_at c → hex entropy ≠ n →
     issue subject now ttl entropy m = Ok (c', m1) → m1 !! n = Some c) ∧
  ∀ now, consume (ch_subject c) n now m' = (inl ChallengeError.Unknown, m').
Proof.
  intros Hm Hrun Hlen [Hn Hnd]%NoDup_cons Hlate. split.
  { intros subject now ttl entropy c' m1 Hroom Hnow Hne [-> ->]%issue_Ok. rewrite lookup_insert_ne by done.
    by apply prune_quiet. }
  intros now. unfold consume. destruct (m' !! n) as [c'|] eqn:Hc; [|done]. exfalso.
  pose proof (issue_all_old _ _ _ _ _ _ Hrun Hn Hc) as Hm'. rewrite Hm in Hm'. injection Hm' as <-.
  pose proof (issue_all_stands rs m cs m' n c [] Hrun Hnd Hn Hlate ltac:(set_solver) Hc) as Hall.
  pose proof (issue_all_room _ _ _ _ Hrun) as Hroom.
  pose proof (issue_all_challenges _ _ _ _ Hrun) as Hcs. apply (f_equal length) in Hcs. rewrite length_fmap in Hcs.
  assert (length (n :: (ch_nonce <$> cs)) ≤ size m')%nat as Hsize.
  { apply listed_size; [by constructor|]. intros k [->|(d & -> & Hd)%list_elem_of_fmap]%elem_of_cons; eauto. }
  unfold outstanding_challenges, MAX_OUTSTANDING in *. cbn [length] in Hsize. rewrite length_fmap in Hsize.
  specialize (Hroom ltac:(intros ->; simpl in *; lia)). lia.
Qed.
End ceiling.

(** ** What is signed *)

Lemma hex_char_range v : 0 ≤ v < 16 → hex_char v ≠ ":"%char ∧ ∀ w, 0 ≤ w < 16 → hex_char v = hex_char w → v = w.
Proof.
  intros Hv. assert (∀ k, 0 ≤ k < 16 → Z.of_N (N_of_ascii (hex_char k)) = if decide (k < 10) then 48 + k else 87 + k) as Hval.
  { intros k Hk. unfold hex_char. rewrite N_ascii_embedding; case_decide; lia. }
  split.
  - intros Heq. pose proof (Hval v Hv) as Hx. rewrite Heq in Hx. change (Z.of_N (N_of_ascii ":")) with 58 in Hx.
    case_decide; lia.
  - intros w Hw Heq. pose proof (Hval v Hv) as Hx. rewrite Heq, Hval in Hx by done. repeat case_decide; lia.
Qed.

Lemma nibbles b : byte b → 0 ≤ b / 16 < 16 ∧ 0 ≤ b mod 16 < 16.
Proof. unfold byte. intros. split; [split; [apply Z.div_pos|apply Z.div_lt_upper_bound]; lia|apply Z.mod_pos_bound; lia]. Qed.

Lemma hex_inj l k : Forall byte l → Forall byte k → hex l = hex k → l = k.
Proof.
  unfold hex. intros Hl. revert k. induction Hl as [|b l Hb _ IH]; intros k Hk Heq;
    apply (f_equal String.list_ascii_of_string) in Heq; rewrite !String.list_ascii_of_string_of_list_ascii in Heq;
    destruct Hk as [|b' k Hb' Hk]; simplify_eq/=; [done|].
  destruct (nibbles b Hb), (nibbles b' Hb').
  assert (b / 16 = b' / 16) by (by eapply hex_char_range). assert (b mod 16 = b' mod 16) by (by eapply hex_char_range).
  f_equal; [rewrite (Z.div_mod b 16), (Z.div_mod b' 16) by lia; congruence|]. apply IH; [done|]. by f_equal.
Qed.

Lemma hex_colon l : Forall byte l → 58 ∉ bytes_of (hex l).
Proof.
  intros Hl. unfold bytes_of, hex. rewrite String.list_ascii_of_string_of_list_ascii.
  intros (a & Ha & Hin)%list_elem_of_fmap. assert (a = ":"%char) as ->.
  { rewrite <-(ascii_N_embedding a). by replace (N_of_ascii a) with 58%N by lia. }
  apply list_elem_of_bind in Hin as (b & Hin & Hb). rewrite Forall_forall in Hl. destruct (nibbles b (Hl b Hb)).
  rewrite !elem_of_cons, elem_of_nil in Hin. destruct Hin as [Hc|[Hc|[]]]; symmetry in Hc; by eapply hex_char_range in Hc.
Qed.

(** An answer names its question.  Two challenges the ledger drew, under
    feature names without a colon, with the same bytes to sign are for the same
    feature, the same subject and the same nonce: a signature collected for one
    is no answer to another, whatever characters a subject is made of. *)
Theorem answers_are_separated domain domain' c c' e e' :
  58 ∉ bytes_of domain → 58 ∉ bytes_of domain' → Forall byte e → Forall byte e' →
  ch_nonce c = hex e → ch_nonce c' = hex e' → signing_bytes c domain = signing_bytes c' domain' →
  domain = domain' ∧ ch_subject c = ch_subject c' ∧ e = e'.
Proof.
  intros Hd Hd' He He' Hn Hn' Heq. unfold signing_bytes, colon_sep in Heq. rewrite Hn, Hn', !bytes_of_append in Heq.
  change (bytes_of ":") with [58] in Heq. cbn [app] in Heq.
  apply first_colon in Heq as [->%bytes_of_inj Heq]; [|done..].
  apply last_colon in Heq as [->%bytes_of_inj Hx%bytes_of_inj]; [|by apply hex_colon..].
  split; [done|]. split; [done|]. by apply hex_inj.
Qed.

(** ** A provider's totals *)

Definition of_mint (mint : string) (l : list EarningEntry) : list EarningEntry := filter (λ e, ee_token_mint e = mint) l.

Fixpoint total_of (mint : string) (l : list (string * Amount)) : option Amount :=
  match l with
  | [] => None
  | (m, a) :: l => if decide (m = mint) then Some a else total_of mint l
  end.

Lemma add_total_of e l mint :
  total_of mint (add_total e l) =
  if decide (ee_token_mint e = mint) then
    match total_of mint l with
    | None => Some (ee_amount e)
    | Some a => Some (default a (amount_checked_add a (ee_amount e)))
    end
  else total_of mint l.
Proof.
  induction l as [|[m a] l IH]; simpl; [done|]. destruct (decide (m = ee_token_mint e)) as [->|Hne]; simpl.
  - by case_decide.
  - destruct (decide (m = mint)) as [->|]; [by rewrite decide_False by congruence|done].
Qed.

(** A mint's credits in one scale add up, while they fit. *)
Lemma totals_exact p mint d :
  (∀ e, e ∈ of_mint mint (pe_entries p) → decimals (ee_amount e) = d ∧ 0 ≤ base_units (ee_amount e)) →
  sum_list (base_units ∘ ee_amount <$> of_mint mint (pe_entries p)) ≤ U64_MAX →
  total_of mint (totals p) =
    if decide (of_mint mint (pe_entries p) = []) then None
    else Some (mkAmount (sum_list (base_units ∘ ee_amount <$> of_mint mint (pe_entries p))) d).
Proof.
  unfold totals. induction (pe_entries p) as [|e l IH] using rev_ind; [done|]. intros Hall Hfit.
  rewrite foldl_app. cbn [foldl]. rewrite add_total_of. unfold of_mint in *. rewrite filter_app in Hall, Hfit |- *.
  rewrite fmap_app, sum_list_app in Hfit. rewrite filter_cons, filter_nil in *.
  destruct (decide (ee_token_mint e = mint)) as [Hm|Hm].
  2:{ rewrite app_nil_r in *. apply IH; [done|]. simpl in Hfit. lia. }
  set (f := filter _ l) in *. assert (0 ≤ sum_list (base_units ∘ ee_amount <$> f)) as Hpos.
  { apply sum_list_nonneg, Forall_fmap, Forall_forall. intros x Hx. apply Hall. set_solver. }
  destruct (Hall e ltac:(set_solver)) as [He Hb]. simpl in Hfit. rewrite Z.add_0_r in Hfit.
  rewrite IH by (set_solver || lia). rewrite (decide_False (P:=f ++ [e] = [])) by (by intros [_ ?]%app_nil).
  f_equal. rewrite fmap_app, sum_list_app. simpl. rewrite Z.add_0_r. case_decide as Hf.
  - rewrite Hf. simpl. by destruct (ee_amount e); simplify_eq/=.
  - unfold amount_checked_add. rewrite decide_True by done. simpl. unfold checked_add_u64, checked.
    by rewrite decide_True by ilia.
Qed.

(** A credit in another scale of the same mint is left out. *)
Lemma totals_skip_other_scale :
  totals (mkProviderEarnings "svc" None
    [mkEarningEntry "mint" (mkAmount 5 6) "a" 0; mkEarningEntry "mint" (mkAmount 7 9) "b" 0])
  = [("mint", mkAmount 5 6)].
Proof. reflexivity. Qed.

(** ** An instance *)

#[local] Instance listed_order : HashOrder := {| walk := map_to_list; walk_entries m := reflexivity _ |}.

Definition alices : Challenge := mkChallenge "alice" (hex [255]) 300999.
Definition flood : list issue_request := (λ i, mkRequest "anyone" 1000 300 (to_le 2 i)) <$> seqZ 0 4096.

Lemma flood_nonces : NoDup (hex [255] :: ((λ r, hex (rq_entropy r)) <$> flood)).
Proof.
  unfold flood. rewrite <-list_fmap_compose. constructor.
  - intros (i & Hi & Hin)%list_elem_of_fmap. change (hex [255] = hex (to_le 2 i)) in Hi.
    apply hex_inj in Hi; [|by repeat constructor|apply to_le_bytes]. apply (f_equal length) in Hi. by rewrite to_le_length in Hi.
  - apply NoDup_fmap_2_strong; [|apply NoDup_seqZ]. intros i j Hi%elem_of_seqZ Hj%elem_of_seqZ Heq.
    change (hex (to_le 2 i) = hex (to_le 2 j)) in Heq. apply hex_inj in Heq; [|apply to_le_bytes..].
    rewrite <-(from_to_le 2 i), <-(from_to_le 2 j), Heq by lia. done.
Qed.

Lemma flood_evicts_challenge_witness : ∃ cs m',
  issue_all flood {[hex [255] := alices]} = Ok (cs, m') ∧
  consume "alice" (hex [255]) 2000 m' = (inl ChallengeError.Unknown, m').
Proof.
  destruct (issue_all_runs flood {[hex [255] := alices]}) as (cs & m' & Hrun).
  { apply Forall_fmap, Forall_forall. intros i _. simpl. ilia. }
  exists cs, m'. split; [exact Hrun|]. pose proof (issue_all_challenges _ _ _ _ Hrun) as ->.
  refine (proj2 (flood_evicts_challenge {[hex [255] := alices]} (hex [255]) alices flood _ m' _ Hrun _ _ _) 2000).
  - apply lookup_singleton_eq.
  - unfold flood. rewrite length_fmap, length_seqZ. unfold MAX_OUTSTANDING. lia.
  - rewrite <-list_fmap_compose. exact flood_nonces.
  - intros d (r & -> & (i & -> & _)%list_elem_of_fmap)%list_elem_of_fmap. by vm_compute.
Defined.

(** Alice answers once; the second answer is refused. *)
Definition alices_run : ledger * list seen :=
  let c := mkChallenge "alice" (hex [255]) 301000 in
  (∅, [Refused "alice" (hex [255]) 2001 ChallengeError.Unknown; Opened "alice" (hex [255]) 2000 c; Issued "alice" 1000 300 c]).

Lemma alices_conversation : conversation alices_run.1 alices_run.2.
Proof.
  set (c := mkChallenge "alice" (hex [255]) 301000).
  assert (issue "alice" 1000 300 [255] ∅ = Ok (c, {[hex [255] := c]})) as Hi by reflexivity.
  assert (consume "alice" (hex [255]) 2000 {[hex [255] := c]} = (inr c, ∅)) as Hc by reflexivity.
  assert (consume "alice" (hex [255]) 2001 ∅ = (inl ChallengeError.Unknown, ∅)) as Hr by reflexivity.
  exact (conversation_refuse _ _ _ _ _ _ _ (conversation_open _ _ _ _ _ _ _ (conversation_issue _ _ _ _ _ _ _ _ conversation_start Hi) Hc) Hr).
Qed.

Lemma challenge_opens_once_witness :
  NoDup (accepted alices_run.2) ∧ accepted alices_run.2 = [hex [255]] ∧
  ∃ between issued_at ttl before,
    drop 2 alices_run.2 = between ++ Issued "alice" issued_at ttl (mkChallenge "alice" (hex [255]) 301000) :: before ∧
    2000 ≤ saturating_add_u64 issued_at (ttl * 1000) ∧ hex [255] ∉ presented between.
Proof.
  destruct (challenge_opens_once alices_run.1 alices_run.2 alices_conversation) as (Hnd & Hopen & _).
  { apply (bool_decide_unpack _). by vm_compute. }
  split; [exact Hnd|]. split; [reflexivity|].
  apply (Hopen (take 1 alices_run.2) "alice"%string (hex [255]) 2000). reflexivity.
Defined.

Lemma answers_are_separated_witness :
  let c := mkChallenge "alice" (hex [7]) 0 in
  SIGNING_DOMAIN = SIGNING_DOMAIN ∧ ch_subject c = ch_subject c ∧ [7] = [7].
Proof.
  apply (answers_are_separated SIGNING_DOMAIN SIGNING_DOMAIN (mkChallenge "alice" (hex [7]) 0)
    (mkChallenge "alice" (hex [7]) 9) [7] [7]); try reflexivity;
    first [by repeat constructor | apply (bool_decide_unpack _); by vm_compute].
Defined.
