(* ===== verification/ServiceRegistry.v ===== *)
(** * ServiceRegistry: who offers what, and what it costs

    [crates/registry]: the checks a registration passes ([branding.rs],
    [registration.rs]), the replicated table of services ([store.rs]), and
    the price of a fee in another token with the commitment to pay it
    ([settlement.rs]).  Text is a list of Unicode scalar values. *)

From Stdlib Require Import SpecFloat Ascii.
From stdpp Require Import sorting.
From S2P Require Import Prelude Runtime Peers Pricing Statements Cid MarketState Reviews.
Import Svc.

Module RegistryError.
Inductive t :=
  | InvalidSignature | UnauthorizedUpdate | DuplicateServiceId | MalformedRegistration | ServiceNotFound
  | PricingWithoutPayoutWallet | UnresolvableEndpoint | MalformedBranding.
End RegistryError.
Abbreviation registry_result := (result RegistryError.t).

(** ** Text *)

Abbreviation text := (list Z).

Fixpoint take_until (stop : Z → bool) (s : text) : text :=
  match s with [] => [] | c :: s => if stop c then [] else c :: take_until stop s end.

Fixpoint drop_while (p : Z → bool) (s : text) : text :=
  match s with [] => [] | c :: s' => if p c then drop_while p s' else s end.

Fixpoint starts_with (p s : text) : bool :=
  match p, s with
  | [], _ => true
  | _ :: _, [] => false
  | a :: p, b :: s => (a =? b) && starts_with p s
  end.

Definition ends_with (p s : text) : bool := starts_with (reverse p) (reverse s).

(** What follows the first occurrence of [p]. *)
Fixpoint after_first (p s : text) : option text :=
  if starts_with p s then Some (drop (length p) s)
  else match s with [] => None | _ :: s => after_first p s end.

(** What precedes the first occurrence of [p]: everything, if there is none. *)
Fixpoint before_first (p s : text) : text :=
  if starts_with p s then []
  else match s with [] => [] | c :: s => c :: before_first p s end.

Definition ascii_lower (c : Z) : Z := if (65 <=? c) && (c <=? 90) then c + 32 else c.

(** ** Registrations *)

Definition UNRESOLVABLE_SUFFIXES : list text := bytes_of <$> [".test"; ".invalid"; ".example"]%string.

(** The host between the scheme and the path, without user, port and trailing
    dots, lies in a reserved domain. *)
Definition is_unresolvable (endpoint : text) : bool :=
  let scheme := bytes_of "://" in
  let after_scheme := from_option (before_first scheme) endpoint (after_first scheme endpoint) in
  let authority := take_until (λ c, (c =? 47) || (c =? 63) || (c =? 35)) after_scheme in
  let host := reverse (take_until (λ c, c =? 64) (reverse authority)) in
  let host := take_until (λ c, c =? 58) host in
  let host := ascii_lower <$> reverse (drop_while (λ c, c =? 46) (reverse host)) in
  existsb (λ suffix, ends_with suffix host) UNRESOLVABLE_SUFFIXES.

Definition MAX_NAME_CHARS : Z := 64.
Definition MAX_DESCRIPTION_CHARS : Z := 280.
Definition MAX_WEBSITE_CHARS : Z := 256.

Definition is_display_hostile (c : Z) : bool :=
  is_control c || (c =? 8206) || (c =? 8207) || (8234 <=? c) && (c <=? 8238) || (8294 <=? c) && (c <=? 8297).

Definition check_text (value : option text) (max_chars : Z) : registry_result unit :=
  match value with
  | None => Ok ()
  | Some value =>
      _ ← require (¬ (value = [] ∨ max_chars < Z.of_nat (length value))) (Code RegistryError.MalformedBranding);
      require (existsb is_display_hostile value = false) (Code RegistryError.MalformedBranding)
  end.

Definition check_website (value : option text) : registry_result unit :=
  match value with
  | None => Ok ()
  | Some value =>
      _ ← check_text (Some value) MAX_WEBSITE_CHARS;
      let lower := ascii_lower <$> value in
      _ ← require (starts_with (bytes_of "https://") lower = true ∨ starts_with (bytes_of "http://") lower = true)
            (Code RegistryError.MalformedBranding);
      require (is_unresolvable value = false) (Code RegistryError.MalformedBranding)
  end.

Definition is_empty_branding (b : ServiceBranding) : bool :=
  bool_decide (br_name b = None) && bool_decide (br_description b = None) &&
  bool_decide (br_logo b = None) && bool_decide (br_website b = None).

Definition validate_branding (b : ServiceBranding) : registry_result unit :=
  _ ← check_text (br_name b) MAX_NAME_CHARS;
  _ ← check_text (br_description b) MAX_DESCRIPTION_CHARS;
  _ ← check_website (br_website b);
  match br_logo b with
  | None => Ok ()
  | Some logo =>
      _ ← ok_or (Cid.parse (String.list_ascii_of_string logo)) (Code RegistryError.MalformedBranding);
      Ok ()
  end.

Record ServiceRecord := mkServiceRecord {
  sv_service_id : string;
  sv_service_type : ServiceType;
  sv_provider : PeerId;
  sv_provider_public_key : PublicKey;
  sv_endpoints : list text;
  sv_supported_ofs : list Z;
  sv_region : option string;
  sv_capabilities : list string;
  sv_branding : option ServiceBranding;
  sv_pricing : option ServicePricing;
  sv_payout_wallet : option string;
  sv_health : HealthState;
  sv_registered_at : Timestamp;
  sv_last_health_update : Timestamp;
}.

#[export] Instance ServiceRecord_eta : Settable ServiceRecord := fun r =>
  mkServiceRecord (sv_service_id r) (sv_service_type r) (sv_provider r) (sv_provider_public_key r) (sv_endpoints r)
    (sv_supported_ofs r) (sv_region r) (sv_capabilities r) (sv_branding r) (sv_pricing r) (sv_payout_wallet r)
    (sv_health r) (sv_registered_at r) (sv_last_health_update r).

Definition into_record (r : Registration) : ServiceRecord :=
  mkServiceRecord (rg_service_id r) (rg_service_type r) (rg_provider r) (rg_provider_public_key r) (rg_endpoints r)
    (rg_supported_ofs r) (rg_region r) (rg_capabilities r)
    (b ← rg_branding r; if is_empty_branding b then None else Some b)
    (rg_pricing r) (rg_payout_wallet r) Online (rg_timestamp r) (rg_timestamp r).

Abbreviation services := (gmap string ServiceRecord).

Definition all_services (m : services) : list ServiceRecord := (merge_sort key_le (map_to_list m)).*2.

Section registry.
Context `{Wire}.
Implicit Types m : services.

Definition verify_registration (x : signed Registration) : registry_result unit :=
  let r := payload x in
  _ ← require (¬ (is_Some (rg_pricing r) ∧ rg_payout_wallet r = None)) (Code RegistryError.PricingWithoutPayoutWallet);
  _ ← from_option validate_branding (Ok ()) (rg_branding r);
  _ ← require (existsb is_unresolvable (rg_endpoints r) = false) (Code RegistryError.UnresolvableEndpoint);
  verify_self RegistryError.MalformedRegistration RegistryError.InvalidSignature RegistryError.UnauthorizedUpdate
    (rg_provider_public_key r) (rg_provider r) (StRegistration r) (signature x).

Definition find_by_type (t : ServiceType) m : list ServiceRecord :=
  filter (λ s, sv_service_type s = t) (all_services m).

Definition apply_registration (x : signed Registration) m : registry_result services :=
  _ ← verify_registration x;
  let id := rg_service_id (payload x) in
  _ ← match m !! id with
      | Some existing => require (sv_provider existing = rg_provider (payload x)) (Code RegistryError.DuplicateServiceId)
      | None => Ok ()
      end;
  Ok (<[id := into_record (payload x)]> m).

Definition apply_health_update (x : signed HealthUpdate) m : registry_result services :=
  let u := payload x in
  r ← ok_or (m !! hu_service_id u) (Code RegistryError.ServiceNotFound);
  _ ← require (sv_provider r = hu_provider u) (Code RegistryError.UnauthorizedUpdate);
  _ ← check_signature RegistryError.MalformedRegistration RegistryError.InvalidSignature
        (sv_provider_public_key r) (StHealthUpdate u) (signature x);
  Ok (<[sv_service_id r := r <| sv_health := hu_state u |> <| sv_last_health_update := hu_timestamp u |>]> m).

Definition apply_withdrawal (x : signed Withdrawal) m : registry_result services :=
  let w := payload x in
  r ← ok_or (m !! wd_service_id w) (Code RegistryError.ServiceNotFound);
  _ ← require (sv_provider r = wd_provider w) (Code RegistryError.UnauthorizedUpdate);
  _ ← check_signature RegistryError.MalformedRegistration RegistryError.InvalidSignature
        (sv_provider_public_key r) (StWithdrawal w) (signature x);
  Ok (delete (wd_service_id w) m).

(** The services dropped are deleted under the id their record carries. *)
Definition expire_stale_services (now threshold : Timestamp) m : services * Z :=
  let cutoff := saturating_sub_u64 now threshold in
  let stale := sv_service_id <$> filter (λ r, sv_last_health_update r < cutoff) (all_services m) in
  (foldl (λ m id, delete id m) m stale, Z.of_nat (length stale)).

Inductive RegistryEvent :=
  | Registered (x : signed Registration)
  | Updated (x : signed HealthUpdate)
  | Unregistered (x : signed Withdrawal).

Definition registry_apply_event (e : RegistryEvent) m : services :=
  ignoring
    match e with
    | Registered x => apply_registration x m
    | Updated x => apply_health_update x m
    | Unregistered x => apply_withdrawal x m
    end m.

(** What befalls the table of a node: an event it hears, or its own sweep of
    the services that have gone silent. *)
Inductive registry_input :=
  | Heard (e : RegistryEvent)
  | Swept (now threshold : Timestamp).

Definition registry_react m (i : registry_input) : services :=
  match i with
  | Heard e => registry_apply_event e m
  | Swept now threshold => (expire_stale_services now threshold m).1
  end.

(** The table after a history, from an empty one. *)
Definition table (h : list registry_input) : services := foldl registry_react ∅ h.
End registry.

(** ** Fees in another token *)

Definition MAX_QUOTE_VALIDITY : Z := 120000.
Definition MAX_QUOTE_CLOCK_SKEW : Z := 60000.

Inductive SettlementRate :=
  | Available (rate : f64) (expires_at : Timestamp)
  | RateNoOracleData
  | RateStaleOracleData.

Module UnsettleableReason.
Inductive t := NoOracleData | StaleOracleData | UnknownSettlementToken | RateOutOfRange | AmountOutOfRange.
End UnsettleableReason.

Inductive FeeQuote :=
  | Free
  | Native (fee : Amount)
  | Settleable (fee : Amount) (fee_mint settlement_mint : string) (settlement_amount : Amount) (rate : f64)
      (quoted_at expires_at : Timestamp)
  | Unsettleable (reason : UnsettleableReason.t).

Definition settlement_amount_of (q : FeeQuote) : option Amount :=
  match q with
  | Native fee => Some fee
  | Settleable _ _ _ settlement_amount _ _ _ => Some settlement_amount
  | Free | Unsettleable _ => None
  end.

(** [powi] with a negative exponent divides at the end.  The language leaves the
    precision of [f64::powi] to the platform: here it is one function, the
    repeated squaring of the compiler's runtime, so what the theorems say of two
    nodes holds of nodes whose platform computes it so. *)
Definition powi_signed (x : f64) (n : Z) : f64 :=
  if decide (n < 0) then f64_div (f64_of_int 1) (powi x (- n)) else powi x n.

(** The least integer not below [m * 2^e]. *)
Definition ceil_int (m : positive) (e : Z) : Z :=
  if decide (0 ≤ e) then Z.pos m * 2 ^ e else - (- Z.pos m / 2 ^ (- e)).

Definition exact_fee (fee : Amount) (rate : f64) (settlement_decimals : Z) : f64 :=
  f64_mul (f64_mul (f64_of_int (base_units fee)) rate)
    (powi_signed (f64_of_int 10) (settlement_decimals - decimals fee)).

Definition convert (fee : Amount) (rate : f64) (settlement_decimals : Z) : option Amount :=
  match exact_fee fee rate settlement_decimals with
  | S754_zero _ => Some (mkAmount 0 settlement_decimals)
  | S754_finite false m e =>
      let rounded := ceil_int m e in
      if decide (18446744073709551616 ≤ rounded) then None else Some (mkAmount rounded settlement_decimals)
  | S754_finite true _ _ | S754_infinity _ | S754_nan => None
  end.

Definition usable_rate (rate : f64) : bool := match rate with S754_finite false _ _ => true | _ => false end.

Definition settle_in (p : ServicePricing) (settlement_mint : string) (settlement_decimals : Z) (rate : SettlementRate)
    (now : Timestamp) : FeeQuote :=
  if decide (settlement_mint = sp_token_mint p) then Native (sp_amount p)
  else
    match rate with
    | RateNoOracleData => Unsettleable UnsettleableReason.NoOracleData
    | RateStaleOracleData => Unsettleable UnsettleableReason.StaleOracleData
    | Available rate feed_expires_at =>
        if negb (usable_rate rate) then Unsettleable UnsettleableReason.RateOutOfRange
        else
          let expires_at := Z.min feed_expires_at (saturating_add_u64 now MAX_QUOTE_VALIDITY) in
          if decide (expires_at ≤ now) then Unsettleable UnsettleableReason.StaleOracleData
          else
            match convert (sp_amount p) rate settlement_decimals with
            | Some settlement_amount =>
                Settleable (sp_amount p) (sp_token_mint p) settlement_mint settlement_amount rate now expires_at
            | None => Unsettleable UnsettleableReason.AmountOutOfRange
            end
    end.

Module FeeSettlementError.
Inductive t :=
  | InvalidSignature | UnauthorizedPayer | ServiceNotPriced | FeeDisagreement | PriceDisagreement
  | QuoteWindowTooLong | QuoteExpired.
End FeeSettlementError.
Abbreviation fee_result := (result FeeSettlementError.t).

Section fees.
Context `{Wire}.

Definition verify_fee_settlement (x : signed FeeSettlement) : fee_result unit :=
  verify_self FeeSettlementError.InvalidSignature FeeSettlementError.InvalidSignature FeeSettlementError.UnauthorizedPayer
    (fs_payer_public_key (payload x)) (fs_payer (payload x)) (StFeeSettlement (payload x)) (signature x).

Definition accepts_settlement (x : signed FeeSettlement) (pricing : option ServicePricing) (now : Timestamp) : fee_result unit :=
  _ ← verify_fee_settlement x;
  let s := payload x in
  p ← ok_or pricing (Code FeeSettlementError.ServiceNotPriced);
  _ ← require (sp_token_mint p = fs_fee_mint s ∧ base_units (sp_amount p) = base_units (fs_fee s) ∧
               decimals (sp_amount p) = decimals (fs_fee s)) (Code FeeSettlementError.FeeDisagreement);
  window ← ok_or (checked_sub_u64 (fs_expires_at s) (fs_quoted_at s)) (Code FeeSettlementError.QuoteWindowTooLong);
  _ ← require (¬ (MAX_QUOTE_VALIDITY < window ∨
               saturating_add_u64 (saturating_add_u64 now MAX_QUOTE_VALIDITY) MAX_QUOTE_CLOCK_SKEW < fs_expires_at s))
        (Code FeeSettlementError.QuoteWindowTooLong);
  _ ← require (now < fs_expires_at s) (Code FeeSettlementError.QuoteExpired);
  match settle_in p (fs_settlement_mint s) (decimals (fs_settlement_amount s))
          (Available (fs_rate s) (fs_expires_at s)) (fs_quoted_at s) with
  | Settleable _ _ _ settlement_amount _ _ expires_at =>
      require (settlement_amount = fs_settlement_amount s ∧ expires_at = fs_expires_at s)
        (Code FeeSettlementError.PriceDisagreement)
  | _ => Err (Code FeeSettlementError.PriceDisagreement)
  end.
End fees.

(** ** A listing is its provider's *)

(** A web address, with no user part, whose host is in a reserved domain, in any
    case and before any port, path, query or fragment. *)
Definition reserved_web_address (e : text) : Prop :=
  ∃ scheme host rest domain suffix,
    e = scheme ++ bytes_of "://" ++ host ++ rest ∧ (58 ∉ scheme) ∧
    Forall (λ c, c ∉ [47; 63; 35; 64; 58]) host ∧ (64 ∉ rest) ∧
    (rest = [] ∨ ∃ c rest', rest = c :: rest' ∧ c ∈ [47; 63; 35; 58]) ∧
    suffix ∈ UNRESOLVABLE_SUFFIXES ∧ ascii_lower <$> host = domain ++ suffix.

Lemma starts_with_app p s : starts_with p (p ++ s) = true.
Proof. induction p as [|c p IH]; [done|]. simpl. by rewrite Z.eqb_refl. Qed.

Lemma after_scheme_first scheme s : 58 ∉ scheme → after_first (bytes_of "://") (scheme ++ bytes_of "://" ++ s) = Some s.
Proof.
  induction scheme as [|c scheme IH]; [done|]. rewrite not_elem_of_cons. intros [Hc Hs]. rewrite <- (IH Hs).
  cbn [app after_first]. by replace (starts_with (bytes_of "://") (c :: scheme ++ bytes_of "://" ++ s)) with false
    by (change (bytes_of "://") with [58; 47; 47]; cbn [starts_with]; rewrite (proj2 (Z.eqb_neq 58 c)) by done; done).
Qed.

Lemma before_scheme_app host rest :
  58 ∉ host → before_first (bytes_of "://") (host ++ rest) = host ++ before_first (bytes_of "://") rest.
Proof.
  induction host as [|c host IH]; [done|]. rewrite not_elem_of_cons. intros [Hc Hh]. rewrite <- app_comm_cons.
  change (bytes_of "://") with [58; 47; 47]. cbn [before_first starts_with].
  rewrite (proj2 (Z.eqb_neq 58 c)) by done. cbn [andb app]. f_equal. by apply IH.
Qed.

Lemma take_until_app stop s t : Forall (λ c, stop c = false) s → take_until stop (s ++ t) = s ++ take_until stop t.
Proof. induction 1 as [|c s Hc _ IH]; [done|]. cbn [app take_until]. by rewrite Hc, IH. Qed.

Lemma take_until_none stop s : Forall (λ c, stop c = false) s → take_until stop s = s.
Proof. intros Hs. rewrite <- (app_nil_r s) at 1. by rewrite take_until_app, app_nil_r. Qed.

Lemma elem_of_take_until stop s c : c ∈ take_until stop s → c ∈ s.
Proof. induction s as [|x s IH]; [done|]. simpl. destruct (stop x); [inversion 1|]. rewrite !elem_of_cons. naive_solver. Qed.

Lemma elem_of_before_first p s c : c ∈ before_first p s → c ∈ s.
Proof.
  induction s as [|x s IH]; simpl; destruct (starts_with p _); try inversion 1; subst; rewrite elem_of_cons; [by left|].
  right. by apply IH.
Qed.

(** A host of a reserved domain does not end in a dot. *)
Lemma reserved_undotted host domain suffix :
  suffix ∈ UNRESOLVABLE_SUFFIXES → ascii_lower <$> host = domain ++ suffix →
  reverse (drop_while (λ c, c =? 46) (reverse host)) = host ∧ ends_with suffix (ascii_lower <$> host) = true.
Proof.
  intros Hin Heq. unfold ends_with. rewrite Heq, reverse_app. split; [|apply starts_with_app].
  destruct host as [|c host] using rev_ind; [done|]. rewrite reverse_snoc. cbn [drop_while].
  assert (c ≠ 46) as Hc.
  { intros ->. rewrite fmap_app in Heq. change (ascii_lower <$> [46]) with [46] in Heq. apply (f_equal last) in Heq. rewrite last_snoc in Heq.
    unfold UNRESOLVABLE_SUFFIXES in Hin. apply list_elem_of_fmap in Hin as (w & -> & Hw).
    rewrite !elem_of_cons, elem_of_nil in Hw. rewrite last_app in Heq. by destruct Hw as [->|[->|[->|[]]]]. }
  rewrite (proj2 (Z.eqb_neq c 46)) by done. by rewrite reverse_cons, reverse_involutive.
Qed.

Lemma reserved_web_address_refused e : reserved_web_address e → is_unresolvable e = true.
Proof.
  intros (scheme & host & rest & domain & suffix & -> & Hs & Hh & Hr & Hrest & Hin & Heq).
  destruct (reserved_undotted _ _ _ Hin Heq) as [Hdots Hends].
  assert (∀ c, c ∈ [47; 63; 35; 64; 58] → c ∉ host) as Hno by (rewrite Forall_forall in Hh; intros c ? ?; by eapply Hh).
  unfold is_unresolvable. rewrite after_scheme_first by done. cbn [from_option].
  rewrite before_scheme_app by (apply Hno; set_solver). set (rest1 := before_first _ rest).
  rewrite take_until_app by (eapply Forall_impl; [exact Hh|]; intros c Hc; apply orb_false_iff; split;
    [apply orb_false_iff; split|]; apply Z.eqb_neq; set_solver).
  set (rest2 := take_until _ rest1).
  assert (64 ∉ rest2) as Hr2 by (intros ?%elem_of_take_until%elem_of_before_first; done).
  rewrite (take_until_none (λ c, c =? 64)), reverse_involutive
    by (rewrite Forall_reverse, Forall_forall; intros c Hc; apply Z.eqb_neq; intros ->; apply elem_of_app in Hc as [Hc|Hc];
        [by apply (Hno 64) in Hc; [|set_solver]|done]).
  rewrite take_until_app by (eapply Forall_impl; [exact Hh|]; intros c Hc; apply Z.eqb_neq; set_solver).
  assert (take_until (λ c, c =? 58) rest2 = []) as ->.
  { unfold rest2, rest1. destruct Hrest as [->|(c & rest' & -> & Hc)]; [done|].
    rewrite !elem_of_cons, elem_of_nil in Hc. change (bytes_of "://") with [58; 47; 47]. cbn [before_first].
    destruct (starts_with _ _); [done|]. by destruct Hc as [->|[->|[->|[->|[]]]]]. }
  rewrite app_nil_r, Hdots. apply existsb_exists. exists suffix. split; [by apply list_elem_of_In|done].
Qed.

(** The texts a branding puts before a reader. *)
Definition shown (b : ServiceBranding) : list text := omap id [br_name b; br_description b; br_website b].

Lemma check_text_Ok v n u :
  check_text v n = Ok u → ∀ s, v = Some s → existsb is_display_hostile s = false ∧ 0 < Z.of_nat (length s) ≤ n.
Proof.
  unfold check_text. intros Hv s ->. apply bind_Ok in Hv as (? & Hs%require_Ok & Hh%require_Ok).
  split; [done|]. destruct s; simpl in *; naive_solver lia.
Qed.

Lemma validate_branding_Ok b u :
  validate_branding b = Ok u → ∀ s, s ∈ shown b → existsb is_display_hostile s = false ∧ 0 < Z.of_nat (length s) ≤ 280.
Proof.
  unfold validate_branding. intros Hb s Hs. apply bind_Ok in Hb as (? & Hname & Hb).
  apply bind_Ok in Hb as (? & Hdesc & Hb). apply bind_Ok in Hb as (? & Hweb & _).
  apply list_elem_of_omap in Hs as (v & Hv & Hs). rewrite !elem_of_cons, elem_of_nil in Hv.
  destruct Hv as [->|[->|[->|[]]]]; unfold id in Hs.
  - pose proof (check_text_Ok _ _ _ Hname s Hs) as [? ?]. unfold MAX_NAME_CHARS in *. split; [done|lia].
  - by apply (check_text_Ok _ _ _ Hdesc s Hs).
  - unfold check_website in Hweb. rewrite Hs in Hweb. apply bind_Ok in Hweb as (? & Hweb & _).
    pose proof (check_text_Ok _ _ _ Hweb s eq_refl) as [? ?]. unfold MAX_WEBSITE_CHARS in *. split; [done|lia].
Qed.

Section listings.
Context `{Wire}.
Implicit Types m : services.

Lemma verify_registration_Ok x u :
  verify_registration x = Ok u →
  let r := payload x in
  peer_id_from_public_key (rg_provider_public_key r) = Some (rg_provider r) ∧
  signed_by (rg_provider_public_key r) (StRegistration r) (signature x) ∧
  (is_Some (rg_pricing r) → is_Some (rg_payout_wallet r)) ∧
  (∀ e, e ∈ rg_endpoints r → is_unresolvable e = false) ∧
  (∀ b s, rg_branding r = Some b → s ∈ shown b → existsb is_display_hostile s = false ∧ 0 < Z.of_nat (length s) ≤ 280).
Proof.
  unfold verify_registration. intros Hx. apply bind_Ok in Hx as (? & Hp%require_Ok & Hx).
  apply bind_Ok in Hx as (? & Hb & Hx). apply bind_Ok in Hx as (? & He%require_Ok & Hx).
  apply verify_self_Ok in Hx as [? ?]. split_and!; [done..| | |].
  - intros Hsome. destruct (rg_payout_wallet (payload x)); [eauto|]. naive_solver.
  - intros e Hin. apply not_true_is_false. intros He'. apply not_true_iff_false in He. apply He.
    apply existsb_exists. exists e. split; [by apply list_elem_of_In|done].
  - intros b s Hbr. rewrite Hbr in Hb. by apply (validate_branding_Ok _ _ Hb).
Qed.

Lemma apply_registration_Ok x m m' :
  apply_registration x m = Ok m' →
  verify_registration x = Ok () ∧ m' = <[rg_service_id (payload x) := into_record (payload x)]> m ∧
  ∀ r, m !! rg_service_id (payload x) = Some r → sv_provider r = rg_provider (payload x).
Proof.
  unfold apply_registration. intros Hx. apply bind_Ok in Hx as ([] & Hv & Hx). apply bind_Ok in Hx as (? & Hd & [= <-]).
  split; [done|]. split; [done|]. intros r Hr. rewrite Hr in Hd. by apply require_Ok in Hd.
Qed.

Lemma apply_registration_intro x m :
  verify_registration x = Ok () → (∀ r, m !! rg_service_id (payload x) = Some r → sv_provider r = rg_provider (payload x)) →
  apply_registration x m = Ok (<[rg_service_id (payload x) := into_record (payload x)]> m).
Proof.
  intros Hv Hm. unfold apply_registration. rewrite Hv. cbn [mbind result_bind].
  destruct (m !! _) as [r|]; [|done]. by rewrite require_true by (by apply Hm).
Qed.

Lemma apply_health_update_Ok u m m' :
  apply_health_update u m = Ok m' → ∃ r, m !! hu_service_id (payload u) = Some r ∧ sv_provider r = hu_provider (payload u) ∧
    signed_by (sv_provider_public_key r) (StHealthUpdate (payload u)) (signature u) ∧
    m' = <[sv_service_id r :=
      r <| sv_health := hu_state (payload u) |> <| sv_last_health_update := hu_timestamp (payload u) |>]> m.
Proof.
  unfold apply_health_update. intros Hu. apply bind_Ok in Hu as (r & Hr%ok_or_Ok & Hu).
  apply bind_Ok in Hu as (? & Hp%require_Ok & Hu). apply bind_Ok in Hu as (? & Hs%check_signature_Ok & [= <-]). eauto.
Qed.

Lemma apply_withdrawal_Ok w m m' :
  apply_withdrawal w m = Ok m' → ∃ r, m !! wd_service_id (payload w) = Some r ∧ sv_provider r = wd_provider (payload w) ∧
    signed_by (sv_provider_public_key r) (StWithdrawal (payload w)) (signature w) ∧ m' = delete (wd_service_id (payload w)) m.
Proof.
  unfold apply_withdrawal. intros Hu. apply bind_Ok in Hu as (r & Hr%ok_or_Ok & Hu).
  apply bind_Ok in Hu as (? & Hp%require_Ok & Hu). apply bind_Ok in Hu as (? & Hs%check_signature_Ok & [= <-]). eauto.
Qed.

(** The three intents a provider can have heeded. *)
Definition genuine_update (r : ServiceRecord) (u : signed HealthUpdate) : Prop :=
  hu_service_id (payload u) = sv_service_id r ∧ hu_provider (payload u) = sv_provider r ∧
  signed_by (sv_provider_public_key r) (StHealthUpdate (payload u)) (signature u).

Definition genuine_withdrawal (r : ServiceRecord) (w : signed Withdrawal) : Prop :=
  wd_service_id (payload w) = sv_service_id r ∧ wd_provider (payload w) = sv_provider r ∧
  signed_by (sv_provider_public_key r) (StWithdrawal (payload w)) (signature w).

Definition renewal (r : ServiceRecord) (x : signed Registration) : Prop :=
  rg_service_id (payload x) = sv_service_id r ∧ rg_provider (payload x) = sv_provider r ∧ verify_registration x = Ok ().

Lemma apply_health_update_intro u m r :
  m !! sv_service_id r = Some r → genuine_update r u →
  apply_health_update u m = Ok (<[sv_service_id r :=
    r <| sv_health := hu_state (payload u) |> <| sv_last_health_update := hu_timestamp (payload u) |>]> m).
Proof.
  intros Hr (Hid & Hp & Hs). unfold apply_health_update. rewrite Hid, Hr. cbn [ok_or mbind result_bind].
  rewrite require_true by done. apply (check_signature_Ok RegistryError.MalformedRegistration RegistryError.InvalidSignature _ _ _ tt) in Hs.
  by rewrite Hs.
Qed.

Lemma apply_withdrawal_intro w m r :
  m !! sv_service_id r = Some r → genuine_withdrawal r w → apply_withdrawal w m = Ok (delete (sv_service_id r) m).
Proof.
  intros Hr (Hid & Hp & Hs). unfold apply_withdrawal. rewrite Hid, Hr. cbn [ok_or mbind result_bind].
  rewrite require_true by done. apply (check_signature_Ok RegistryError.MalformedRegistration RegistryError.InvalidSignature _ _ _ tt) in Hs.
  by rewrite Hs.
Qed.

Lemma expire_services_lookup now threshold m id r : (expire_stale_services now threshold m).1 !! id = Some r → m !! id = Some r.
Proof.
  unfold expire_stale_services. simpl. generalize (sv_service_id <$> filter (λ r, sv_last_health_update r < saturating_sub_u64 now threshold)
    (all_services m)) as l. intros l. revert m. induction l as [|k l IH]; intros m; simpl; [done|].
  intros Hl%IH. by apply lookup_delete_Some in Hl as [_ ?].
Qed.

(** Everything a record shows besides its health is what the registration said;
    a branding that says nothing is no branding. *)
Definition shows (r : ServiceRecord) (g : Registration) : Prop :=
  sv_service_id r = rg_service_id g ∧ sv_service_type r = rg_service_type g ∧ sv_provider r = rg_provider g ∧
  sv_provider_public_key r = rg_provider_public_key g ∧ sv_endpoints r = rg_endpoints g ∧
  sv_supported_ofs r = rg_supported_ofs g ∧ sv_region r = rg_region g ∧ sv_capabilities r = rg_capabilities g ∧
  (∀ b, sv_branding r = Some b ↔ rg_branding g = Some b ∧ b ≠ mkServiceBranding None None None None) ∧
  sv_pricing r = rg_pricing g ∧ sv_payout_wallet r = rg_payout_wallet g ∧ sv_registered_at r = rg_timestamp g.

(** The health shown is the last the provider gave since they registered: that of
    the last genuine update, or the one a registration starts with if there has
    been none. *)
Definition health_as_last_said (r : ServiceRecord) (since : list registry_input) : Prop :=
  (∃ u h h', since = h ++ Heard (Updated u) :: h' ∧ genuine_update r u ∧
     sv_health r = hu_state (payload u) ∧ sv_last_health_update r = hu_timestamp (payload u) ∧
     ∀ u', Heard (Updated u') ∈ h' → ¬ genuine_update r u') ∨
  (sv_health r = Online ∧ sv_last_health_update r = sv_registered_at r ∧
   ∀ u, Heard (Updated u) ∈ since → ¬ genuine_update r u).

(** The registration that stands after a history is the last the provider made,
    and they have not withdrawn it since. *)
Definition registration_stands (h : list registry_input) (r : ServiceRecord) (x : signed Registration) : Prop :=
  ∃ before since, h = before ++ Heard (Registered x) :: since ∧ shows r (payload x) ∧
    (∀ y, Heard (Registered y) ∈ since → ¬ renewal r y) ∧
    (∀ w, Heard (Unregistered w) ∈ since → ¬ genuine_withdrawal r w) ∧
    health_as_last_said r since.

Definition listed (h : list registry_input) (id : string) (r : ServiceRecord) : Prop :=
  sv_service_id r = id ∧ ∃ x, verify_registration x = Ok () ∧ registration_stands h r x.

Lemma into_record_shows g : shows (into_record g) g.
Proof.
  unfold shows. split_and!; try done. intros b. simpl. destruct (rg_branding g) as [b'|]; [|naive_solver].
  cbn [mbind option_bind]. assert (is_empty_branding b' = true ↔ b' = mkServiceBranding None None None None) as He.
  { unfold is_empty_branding. rewrite !andb_true_iff, !bool_decide_eq_true. destruct b'; simpl. naive_solver. }
  destruct (is_empty_branding b'); naive_solver.
Qed.

(** An input that leaves the record as it was, and that the provider did not
    make, changes nothing of this. *)
Lemma listed_snoc h id r i :
  listed h id r →
  (∀ y, i = Heard (Registered y) → ¬ renewal r y) → (∀ w, i = Heard (Unregistered w) → ¬ genuine_withdrawal r w) →
  (∀ u, i = Heard (Updated u) → ¬ genuine_update r u) → listed (h ++ [i]) id r.
Proof.
  intros (Hid & x & Hv & before & since & -> & Hshows & Hreg & Hwd & Hh) Hi1 Hi2 Hi3.
  split; [done|]. exists x. split; [done|]. exists before, (since ++ [i]). rewrite <- app_assoc, <- app_comm_cons.
  split_and!; [done|done| | |].
  - intros y [Hy|Hy%list_elem_of_singleton]%elem_of_app; eauto.
  - intros w [Hw|Hw%list_elem_of_singleton]%elem_of_app; eauto.
  - destruct Hh as [(u & l & l' & -> & Hu & Hs & Ht & Hl)|(Hs & Ht & Hl)].
    + left. exists u, l, (l' ++ [i]). rewrite <- app_assoc, <- app_comm_cons. split_and!; [done..|].
      intros u' [Hu'|Hu'%list_elem_of_singleton]%elem_of_app; eauto.
    + right. split_and!; [done..|]. intros u [Hu|Hu%list_elem_of_singleton]%elem_of_app; eauto.
Qed.

Lemma listed_registered h x : verify_registration x = Ok () →
  listed (h ++ [Heard (Registered x)]) (rg_service_id (payload x)) (into_record (payload x)).
Proof.
  intros Hv. split; [done|]. exists x. split; [done|]. exists h, []. split_and!; [done|apply into_record_shows| | |].
  - intros y Hy. by apply not_elem_of_nil in Hy.
  - intros w Hw. by apply not_elem_of_nil in Hw.
  - right. split_and!; [done..|]. intros u Hu. by apply not_elem_of_nil in Hu.
Qed.

Lemma listed_updated h id r u : listed h id r → genuine_update r u →
  listed (h ++ [Heard (Updated u)]) id
    (r <| sv_health := hu_state (payload u) |> <| sv_last_health_update := hu_timestamp (payload u) |>).
Proof.
  intros (Hid & x & Hv & before & since & -> & Hshows & Hreg & Hwd & _) Hu. split; [done|]. exists x. split; [done|].
  exists before, (since ++ [Heard (Updated u)]). rewrite <- app_assoc, <- app_comm_cons. split_and!; [done|done| | |].
  - intros y [Hy|Hy%list_elem_of_singleton]%elem_of_app; [by apply (Hreg y)|done].
  - intros w [Hw|Hw%list_elem_of_singleton]%elem_of_app; [by apply (Hwd w)|done].
  - left. exists u, since, []. split_and!; [done..|]. intros u' Hu'. by apply not_elem_of_nil in Hu'.
Qed.

(** One input: the record at an id is the one before, which the provider has not
    touched, or the one their registration or update makes of it. *)
Lemma registered_lookup x m id r : registry_apply_event (Registered x) m !! id = Some r →
  (m !! id = Some r ∧ (sv_service_id r = id → ¬ renewal r x)) ∨
  verify_registration x = Ok () ∧ rg_service_id (payload x) = id ∧ r = into_record (payload x) ∧
    ∀ r0, m !! id = Some r0 → sv_provider r0 = sv_provider r.
Proof.
  unfold registry_apply_event. destruct (apply_registration x m) as [m'|] eqn:Hx; simpl.
  - apply apply_registration_Ok in Hx as (Hv & -> & Hd). intros [[<- <-]|[Hne Hr]]%lookup_insert_Some; [by right; eauto|].
    left. split; [done|]. intros Hid (Hid' & _). congruence.
  - intros Hr. left. split; [done|]. intros Hid (Hid' & Hp & Hv).
    rewrite apply_registration_intro in Hx; [done|done|]. rewrite Hid', Hid. intros ? Hr'. congruence.
Qed.

Lemma updated_lookup u m id r :
  (∀ id r, m !! id = Some r → sv_service_id r = id) → registry_apply_event (Updated u) m !! id = Some r →
  (m !! id = Some r ∧ ¬ genuine_update r u) ∨
  ∃ r0, m !! id = Some r0 ∧ genuine_update r0 u ∧
    r = r0 <| sv_health := hu_state (payload u) |> <| sv_last_health_update := hu_timestamp (payload u) |>.
Proof.
  intros Hids. unfold registry_apply_event. destruct (apply_health_update u m) as [m'|] eqn:Hu; simpl.
  - apply apply_health_update_Ok in Hu as (r0 & Hr0 & Hp & Hs & ->). pose proof (Hids _ _ Hr0) as Hid0.
    intros [[<- <-]|[Hne Hr]]%lookup_insert_Some; [right; exists r0; rewrite <- Hid0 in Hr0; by split_and!|].
    left. split; [done|]. intros (Hid & _). apply Hids in Hr. congruence.
  - intros Hr. left. split; [done|]. intros Hg. pose proof (Hids _ _ Hr) as <-. by rewrite (apply_health_update_intro _ _ r) in Hu.
Qed.

Lemma unregistered_lookup w m id r :
  (∀ id r, m !! id = Some r → sv_service_id r = id) → registry_apply_event (Unregistered w) m !! id = Some r →
  m !! id = Some r ∧ ¬ genuine_withdrawal r w.
Proof.
  intros Hids. unfold registry_apply_event. destruct (apply_withdrawal w m) as [m'|] eqn:Hw; simpl.
  - apply apply_withdrawal_Ok in Hw as (r0 & _ & _ & _ & ->). intros [Hne Hr]%lookup_delete_Some.
    split; [done|]. intros (Hid & _). apply Hids in Hr. congruence.
  - intros Hr. split; [done|]. intros Hg. pose proof (Hids _ _ Hr) as <-. by rewrite (apply_withdrawal_intro _ _ r) in Hw.
Qed.

Lemma table_snoc h i : table (h ++ [i]) = registry_react (table h) i.
Proof. apply foldl_snoc. Qed.

Lemma table_listed h : ∀ id r, table h !! id = Some r → listed h id r.
Proof.
  induction h as [|i h IH] using rev_ind; intros id r; [done|]. rewrite table_snoc. intros Hr.
  assert (∀ id r, table h !! id = Some r → sv_service_id r = id) as Hids by (intros ?? Hl; by apply IH in Hl as [? _]).
  destruct i as [[x|u|w]|now threshold]; cbn [registry_react] in Hr.
  - apply registered_lookup in Hr as [[Hr Hn]|(Hv & <- & -> & _)]; [|by apply listed_registered].
    apply listed_snoc; [by apply IH|intros y [= <-]; by apply Hn, Hids|done..].
  - destruct (updated_lookup _ _ _ _ Hids Hr) as [[Hr' Hn]|(r0 & Hr' & Hg & ->)]; [|by apply listed_updated; [apply IH|]].
    apply listed_snoc; [by apply IH|done|done|by intros ? [= <-]].
  - destruct (unregistered_lookup _ _ _ _ Hids Hr) as [Hr' Hn]. apply listed_snoc; [by apply IH|done|by intros ? [= <-]|done].
  - apply expire_services_lookup in Hr. apply listed_snoc; [by apply IH|done..].
Qed.

Lemma table_provider h i id r r' : table h !! id = Some r → table (h ++ [i]) !! id = Some r' → sv_provider r' = sv_provider r.
Proof.
  intros Hr. rewrite table_snoc.
  assert (∀ id r, table h !! id = Some r → sv_service_id r = id) as Hids by (intros ?? [? _]%table_listed; done).
  destruct i as [[x|u|w]|now threshold]; cbn [registry_react].
  - intros [[? _]|(_ & _ & _ & Hd)]%registered_lookup; [congruence|]. by rewrite (Hd _ Hr).
  - intros [[? _]|(r0 & ? & _ & ->)]%updated_lookup; [congruence| |done]. simpl. congruence.
  - intros [? _]%unregistered_lookup; [congruence|done].
  - intros ?%expire_services_lookup. congruence.
Qed.


(** The last registration to arrive wins, not the last one made.  Of two
    registrations of one service by one provider, the older one, arriving
    second, replaces the newer; two nodes that hear them in the two orders list
    different services; and a service its provider has withdrawn is listed again
    when its registration is heard again. *)
Theorem older_registration_wins x y w m m1 m2 :
  apply_registration x m = Ok m1 → verify_registration y = Ok () →
  rg_service_id (payload y) = rg_service_id (payload x) → rg_provider (payload y) = rg_provider (payload x) →
  into_record (payload x) ≠ into_record (payload y) → rg_timestamp (payload x) < rg_timestamp (payload y) →
  apply_withdrawal w m1 = Ok m2 → wd_service_id (payload w) = rg_service_id (payload x) →
  let id := rg_service_id (payload x) in
  ∃ newer stale reversed back,
    apply_registration y m = Ok newer ∧ apply_registration x newer = Ok stale ∧ stale !! id = Some (into_record (payload x)) ∧
    apply_registration y m1 = Ok reversed ∧ reversed !! id = Some (into_record (payload y)) ∧ stale ≠ reversed ∧
    m2 !! id = None ∧ apply_registration x m2 = Ok back ∧ back !! id = Some (into_record (payload x)).
Proof.
  intros (Hv & -> & Hd)%apply_registration_Ok Hy Hid Hp Hne _ (r & _ & _ & _ & ->)%apply_withdrawal_Ok Hw id.
  assert (∀ r, m !! rg_service_id (payload y) = Some r → sv_provider r = rg_provider (payload y)) as Hdy
    by (intros r0 Hr0; rewrite Hid in Hr0; rewrite Hp; by apply Hd).
  eexists _, _, _, _. split; [by apply apply_registration_intro|].
  split; [apply apply_registration_intro; [done|]; rewrite Hid, lookup_insert_eq; by intros ? [= <-]|].
  split; [apply lookup_insert_eq|].
  split; [apply apply_registration_intro; [done|]; rewrite Hid, lookup_insert_eq; by intros ? [= <-]|].
  split; [by rewrite Hid, lookup_insert_eq|]. split.
  { intros Heq. apply (f_equal (lookup id)) in Heq. unfold id in Heq. rewrite Hid, !lookup_insert_eq in Heq. congruence. }
  split; [rewrite Hw; apply lookup_delete_eq|].
  split; [apply apply_registration_intro; [done|]; rewrite Hw, lookup_delete_eq; done|]. apply lookup_insert_eq.
Qed.
End listings.

(** ** A quoted fee is an accepted fee *)

(** [z] is the least integer not below the double. *)
Definition least_above (x : f64) (z : Z) : Prop :=
  match x with
  | S754_zero _ => z = 0
  | S754_finite false m e =>
      (0 ≤ e → z = Z.pos m * 2 ^ e) ∧ (e < 0 → Z.pos m ≤ z * 2 ^ (- e) < Z.pos m + 2 ^ (- e))
  | _ => False
  end.

Lemma ceil_int_covers m e : least_above (S754_finite false m e) (ceil_int m e).
Proof.
  unfold least_above, ceil_int. case_decide; [split; [done|lia]|]. split; [lia|intros He].
  assert (0 < 2 ^ (- e)) as Hd by (apply Z.pow_pos_nonneg; lia).
  pose proof (Z.div_mod (- Z.pos m) (2 ^ (- e)) ltac:(lia)). pose proof (Z.mod_pos_bound (- Z.pos m) (2 ^ (- e)) Hd). nia.
Qed.

Lemma convert_covers fee rate d a :
  convert fee rate d = Some a → decimals a = d ∧ base_units a ≤ U64_MAX ∧ least_above (exact_fee fee rate d) (base_units a).
Proof.
  unfold convert. destruct (exact_fee fee rate d) as [s|s| |[] m e]; try done.
  - intros [= <-]. split_and!; [done| |done]. simpl. ilia.
  - case_decide; [done|]. intros [= <-]. split_and!; [done|simpl; ilia|apply ceil_int_covers].
Qed.

Lemma settle_in_Settleable p mint d rate feed now fee fm sm a r q e :
  settle_in p mint d (Available rate feed) now = Settleable fee fm sm a r q e ↔
  mint ≠ sp_token_mint p ∧ usable_rate rate = true ∧ now < e ∧ convert (sp_amount p) rate d = Some a ∧
  fee = sp_amount p ∧ fm = sp_token_mint p ∧ sm = mint ∧ r = rate ∧ q = now ∧
  e = Z.min feed (saturating_add_u64 now MAX_QUOTE_VALIDITY).
Proof.
  unfold settle_in. case_decide; [naive_solver|]. destruct (usable_rate rate); [|naive_solver]. cbn [negb].
  case_decide; [split; [done|]; intros (_ & _ & ? & _ & _ & _ & _ & _ & _ & ->); lia|]. destruct (convert _ _ _) as [a'|]; [|naive_solver].
  split; [intros [= <- <- <- <- <- <- <-]; split_and!; (done || lia)|intros; destruct_and!; by simplify_eq].
Qed.

Section commitments.
Context `{Wire}.

(** C37: a fee quoted is a fee accepted.  When a node prices a service's fee in
    another token off its own oracle read, the commitment a payer signs to that
    quote is honoured by every node that knows the service's price, whatever
    oracle records that node holds, at every moment before the quote lapses and
    up to a minute of clock difference before it was made. *)
Theorem quote_is_honoured p mint d rate feed quoted_at fee fm sm a r q e x now :
  settle_in p mint d (Available rate feed) quoted_at = Settleable fee fm sm a r q e →
  u64 quoted_at → u64 feed → u64 now → verify_fee_settlement x = Ok () →
  fs_fee (payload x) = fee → fs_fee_mint (payload x) = fm → fs_settlement_mint (payload x) = sm →
  fs_settlement_amount (payload x) = a → fs_rate (payload x) = r → fs_quoted_at (payload x) = q →
  fs_expires_at (payload x) = e → quoted_at ≤ now + MAX_QUOTE_CLOCK_SKEW → now < e →
  accepts_settlement x (Some p) now = Ok ().
Proof.
  intros Hq Hu Hf Hn Hv Hfee Hfm Hsm Ha Hr Hqa He Hskew Hlive. pose proof Hq as Hquote.
  apply settle_in_Settleable in Hq as (Hne & Hrate & Hlt & Hc & -> & -> & -> & -> & -> & Hmin).
  destruct (convert_covers _ _ _ _ Hc) as (Hd & _ & _).
  unfold accepts_settlement. rewrite Hv. cbn [mbind result_bind ok_or]. rewrite Hfee, Hfm, Hsm, Ha, Hr, Hqa, He.
  rewrite require_true by done. unfold checked_sub_u64, checked. unfold saturating_add_u64, MAX_QUOTE_VALIDITY, MAX_QUOTE_CLOCK_SKEW in *.
  rewrite decide_True by ilia. cbn [ok_or mbind result_bind]. rewrite require_true by ilia. rewrite require_true by lia.
  assert (settle_in p mint (decimals a) (Available rate e) quoted_at
    = Settleable (sp_amount p) (sp_token_mint p) mint a rate quoted_at e) as ->.
  { apply settle_in_Settleable. rewrite Hd. split_and!; try done. unfold saturating_add_u64, MAX_QUOTE_VALIDITY. lia. }
  by apply require_Ok.
Qed.

(** What is accepted was owed.  A commitment a node honours is signed by the
    payer it names for the fee the provider registered, in a window of two
    minutes at most that is open now, and its amount is the least whole number
    of base units not below the fee at the rate the payer recorded. *)
Theorem honoured_fee_is_owed x pricing now :
  accepts_settlement x pricing now = Ok () → u64 now →
  let s := payload x in
  ∃ p, pricing = Some p ∧ sp_token_mint p = fs_fee_mint s ∧ sp_amount p = fs_fee s ∧
    peer_id_from_public_key (fs_payer_public_key s) = Some (fs_payer s) ∧
    signed_by (fs_payer_public_key s) (StFeeSettlement s) (signature x) ∧
    fs_settlement_mint s ≠ fs_fee_mint s ∧ usable_rate (fs_rate s) = true ∧
    now < fs_expires_at s ≤ now + MAX_QUOTE_VALIDITY + MAX_QUOTE_CLOCK_SKEW ∧
    fs_quoted_at s < fs_expires_at s ≤ fs_quoted_at s + MAX_QUOTE_VALIDITY ∧
    least_above (exact_fee (fs_fee s) (fs_rate s) (decimals (fs_settlement_amount s))) (base_units (fs_settlement_amount s)).
Proof.
  intros Hx Hn s. unfold accepts_settlement in Hx. apply bind_Ok in Hx as (? & [Hkey Hsig]%verify_self_Ok & Hx).
  apply bind_Ok in Hx as (p & ->%ok_or_Ok & Hx). apply bind_Ok in Hx as (? & (Hmint & Hb & Hd)%require_Ok & Hx).
  apply bind_Ok in Hx as (w & Hw%ok_or_Ok & Hx). apply checked_Some in Hw as [-> _].
  apply bind_Ok in Hx as (? & Hwin%require_Ok & Hx). apply bind_Ok in Hx as (? & Hlive%require_Ok & Hx).
  destruct (settle_in _ _ _ _ _) as [| |fee fm sm a r q e|] eqn:Hq; [done..| |done]. apply require_Ok in Hx as [-> ->].
  apply settle_in_Settleable in Hq as (Hne & Hrate & Hlt & Hc & -> & -> & _ & _ & _ & Hmin).
  assert (sp_amount p = fs_fee s) as Hfee by (destruct (sp_amount p), (fs_fee s) eqn:Hf; subst s; rewrite Hf in *; simpl in *; congruence).
  exists p. rewrite Hfee in Hc. apply convert_covers in Hc as (_ & _ & Hcov).
  unfold saturating_add_u64, MAX_QUOTE_VALIDITY, MAX_QUOTE_CLOCK_SKEW in *.
  subst s. rewrite Hmint in Hne. split_and!; first [done | ilia].
Qed.
End commitments.

(** A converted fee can fall short of the declared one.  At the rate of one
    for one, in the same scale, a fee of [2^53 + 1] base units is quoted one unit
    lower; and at a positive rate a positive fee can be quoted as nothing. *)
Theorem converted_fee_falls_short :
  settle_in (mkServicePricing "USDC" (mkAmount 9007199254740993 6) Request) "OPEN" 6 (Available (f64_of_int 1) 60000) 0
  = Settleable (mkAmount 9007199254740993 6) "USDC" "OPEN" (mkAmount 9007199254740992 6) (f64_of_int 1) 0 60000 ∧
  settle_in (mkServicePricing "USDC" (mkAmount 400 6) Request) "OPEN" 3 (Available (S754_finite false 1 (-1074)) 60000) 0
  = Settleable (mkAmount 400 6) "USDC" "OPEN" (mkAmount 0 3) (S754_finite false 1 (-1074)) 0 60000.
Proof. split; vm_compute; reflexivity. Qed.

(** The host is looked for after a scheme: a reserved name in a web address is
    found, in a multiaddress it is not. *)
Lemma reserved_multiaddress_passes :
  is_unresolvable (bytes_of "https://ops@HOST.TEST.:8443/rpc") = true ∧
  is_unresolvable (bytes_of "/dns4/rpc.openfiat.test/udp/4001/quic-v1") = false.
Proof. split; reflexivity. Qed.
