(* ===== verification/Oracles.v ===== *)
(** * Oracles: published rates and their median

    [crates/oracles]: signed records of market data, the replicated index that
    takes them from the registry's market-data providers, the median rate of a
    pair, and the reading a fee is priced with. *)

From Stdlib Require Import SpecFloat.
From stdpp Require Import sorting infinite strings.
From S2P Require Import Prelude Runtime Peers Pricing Statements MarketState ServiceRegistry.
Import Svc Orc.

Module OracleError.
Inductive t := InvalidSignature | Unauthorized | MalformedRecord | AlreadyExpired | StaleVersion.
End OracleError.
Abbreviation oracle_result := (result OracleError.t).

Module OracleCategory.
Inductive t := ExchangeRate | StablecoinMetadata | PaymentInfrastructure | RegionalMetadata.
#[global] Instance t_eq_dec : EqDecision t.
Proof. solve_decision. Defined.
End OracleCategory.

Definition category (d : OracleData) : OracleCategory.t :=
  match d with
  | ExchangeRate _ _ _ => OracleCategory.ExchangeRate
  | StablecoinMetadata _ _ _ _ _ _ _ => OracleCategory.StablecoinMetadata
  | PaymentInfrastructure _ _ _ => OracleCategory.PaymentInfrastructure
  | RegionalMetadata _ _ _ => OracleCategory.RegionalMetadata
  end.

Record OracleRecord := mkOracleRecord {
  or_id : string;
  or_provider : PeerId;
  or_provider_public_key : PublicKey;
  or_data : OracleData;
  or_version : Z;
  or_published_at : Timestamp;
  or_expires_at : Timestamp;
}.

Abbreviation oracle_index := (gmap string OracleRecord).

Definition all_records (m : oracle_index) : list OracleRecord := (merge_sort key_le (map_to_list m)).*2.

(** ** Doubles as bits *)

Definition f64_of_bits (bits : Z) : f64 :=
  let s := Z.testbit bits 63 in
  let e := Z.land (Z.shiftr bits 52) 2047 in
  let m := Z.land bits 4503599627370495 in
  if decide (e = 2047) then if decide (m = 0) then S754_infinity s else S754_nan
  else if decide (e = 0) then if decide (m = 0) then S754_zero s else S754_finite s (Z.to_pos m) (-1074)
  else S754_finite s (Z.to_pos (m + 4503599627370496)) (e - 1075).

(** [total_cmp] compares the bits as signed integers, the low ones turned over
    under a sign. *)
Definition total_key (bits : Z) : Z := if decide (bits < 2 ^ 63) then bits else 2 ^ 63 - 1 - bits.

Definition rate_le (a b : Z * Timestamp) : Prop := total_key a.1 ≤ total_key b.1.
#[export] Instance rate_le_dec a b : Decision (rate_le a b).
Proof. unfold rate_le. apply _. Defined.
#[export] Instance rate_le_total : Total rate_le.
Proof. intros a b. unfold rate_le. lia. Qed.
#[export] Instance rate_le_trans : Transitive rate_le.
Proof. intros a b c. unfold rate_le. lia. Qed.

(** ** The index *)

Definition ORACLE_EXPIRED_GRACE : Z := 7 * 24 * 60 * 60 * 1000.

Inductive ExchangeRateLookup :=
  | Current (rate : Z) (expires_at : Timestamp)
  | Stale
  | NoData.

Definition as_settlement_rate (l : ExchangeRateLookup) : SettlementRate :=
  match l with
  | Current rate expires_at => Available (f64_of_bits rate) expires_at
  | Stale => RateStaleOracleData
  | NoData => RateNoOracleData
  end.

Definition record_is_current (r : OracleRecord) (now : Timestamp) : bool := now <? or_expires_at r.

Definition is_market_data (t : ServiceType) : bool := match t with MarketData _ => true | _ => false end.

Definition market_data_provider (sv : services) (p : PeerId) : bool :=
  existsb (λ s, bool_decide (sv_provider s = p) && is_market_data (sv_service_type s)) (all_services sv).

Section index.
Context `{Wire}.
Implicit Types m : oracle_index.

Definition verify_publish (x : signed OraclePublish) : oracle_result unit :=
  verify_self OracleError.MalformedRecord OracleError.InvalidSignature OracleError.Unauthorized
    (op_provider_public_key (payload x)) (op_provider (payload x)) (StOraclePublish (payload x)) (signature x).

Definition published_record (p : OraclePublish) : OracleRecord :=
  mkOracleRecord (op_id p) (op_provider p) (op_provider_public_key p) (op_data p) (op_version p) (op_timestamp p)
    (op_expires_at p).

Definition apply_publish_oracle (sv : services) (x : signed OraclePublish) m : oracle_result oracle_index :=
  _ ← verify_publish x;
  let p := payload x in
  _ ← require (market_data_provider sv (op_provider p) = true) (Code OracleError.Unauthorized);
  _ ← require (op_timestamp p < op_expires_at p) (Code OracleError.AlreadyExpired);
  _ ← match m !! op_id p with
      | Some existing => require (or_version existing < op_version p) (Code OracleError.StaleVersion)
      | None => Ok ()
      end;
  Ok (<[op_id p := published_record p]> m).

Definition prune_expired (now : Timestamp) m : oracle_index * Z :=
  let cutoff := saturating_sub_u64 now ORACLE_EXPIRED_GRACE in
  let kept := filter (λ '(_, r), ¬ or_expires_at r < cutoff) m in
  (kept, Z.of_nat (size m) - Z.of_nat (size kept)).

Definition find_by_category (c : OracleCategory.t) m : list OracleRecord :=
  filter (λ r, category (or_data r) = c) (all_records m).
End index.

(** The records of a pair, fresh or not. *)
Definition quoted (base quote : string) (r : OracleRecord) : option (Z * Timestamp) :=
  match or_data r with
  | ExchangeRate b q rate => if decide (b = base ∧ q = quote) then Some (rate, or_expires_at r) else None
  | _ => None
  end.

Definition matching (base quote : string) (m : oracle_index) : list (Z * Timestamp) :=
  omap (quoted base quote) (all_records m).

Definition current (base quote : string) (now : Timestamp) (m : oracle_index) : list (Z * Timestamp) :=
  filter (λ '(_, expires_at), now < expires_at) (matching base quote m).

Definition exchange_rate (base quote : string) (now : Timestamp) (m : oracle_index) : ExchangeRateLookup :=
  match matching base quote m with
  | [] => NoData
  | _ =>
      match current base quote now m with
      | [] => Stale
      | (r0, e0) :: rest =>
          let sorted := merge_sort rate_le (current base quote now m) in
          match sorted !! (length sorted / 2)%nat with
          | Some (rate, _) => Current rate (foldr (λ '(_, e) acc, Z.min e acc) e0 rest)
          | None => NoData
          end
      end
  end.

Definition median_exchange_rate (base quote : string) (now : Timestamp) (m : oracle_index) : option Z :=
  match exchange_rate base quote now m with Current rate _ => Some rate | _ => None end.

(** ** The median *)

Definition within (lo hi : Z) (y : Z * Timestamp) : Prop := lo ≤ total_key y.1 ≤ hi.
#[export] Instance within_dec lo hi y : Decision (within lo hi y).
Proof. unfold within. apply _. Defined.

Lemma filter_none {A} (P : A → Prop) `{∀ x, Decision (P x)} l : (∀ x, x ∈ l → ¬ P x) → filter P l = [].
Proof. induction l as [|x l IH]; intros Hl; [done|]. rewrite filter_cons_False; [apply IH|apply Hl]; set_solver. Qed.

Lemma filter_all {A} (P : A → Prop) `{∀ x, Decision (P x)} (l : list A) : (∀ x, x ∈ l → P x) → filter P l = l.
Proof. induction l as [|x l IH]; intros Hl; [done|]. rewrite filter_cons_True; [f_equal; apply IH|apply Hl]; set_solver. Qed.

(** The middle of a sorted list lies where most of it does. *)
Lemma middle_in_majority lo hi (l : list (Z * Timestamp)) x :
  StronglySorted rate_le l → l !! (length l / 2)%nat = Some x →
  (length l < 2 * length (filter (within lo hi) l))%nat → lo ≤ total_key x.1 ≤ hi.
Proof.
  intros Hs Hx Hmost. pose proof (take_drop_middle _ _ _ Hx) as Hsplit. set (k := (length l / 2)%nat) in *.
  assert (k < length l)%nat as Hk by (by apply lookup_lt_Some in Hx).
  pose proof (Nat.div_mod (length l) 2 ltac:(lia)) as Hdiv. pose proof (Nat.mod_upper_bound (length l) 2 ltac:(lia)) as Hmod.
  fold k in Hdiv. rewrite <-Hsplit in Hs, Hmost. rewrite Hsplit in Hmost at 1.
  assert (∀ y, y ∈ take k l → rate_le y x) as Hlow by (intros y Hy; eapply StronglySorted_app_1_elem_of; [done..|set_solver]).
  assert (∀ y, y ∈ drop (S k) l → rate_le x y) as Hhigh.
  { intros y Hy. apply StronglySorted_app_1_r, StronglySorted_inv in Hs as [_ Hs]. rewrite Forall_forall in Hs. by apply Hs. }
  rewrite filter_app, length_app in Hmost. unfold rate_le in *.
  pose proof (length_filter (within lo hi) (take k l)) as Ht. rewrite length_take in Ht.
  pose proof (length_filter (within lo hi) (drop (S k) l)) as Hd. rewrite length_drop in Hd.
  split; apply Znot_gt_le; intros Hgt.
  - rewrite (filter_none _ (take k l)), filter_cons_False in Hmost by (unfold within; (lia || intros y Hy%Hlow; lia)). simpl in Hmost. lia.
  - rewrite filter_cons_False, (filter_none _ (drop (S k) l)) in Hmost by (unfold within; (lia || intros y Hy%Hhigh; lia)). simpl in Hmost. lia.
Qed.

Lemma min_fold e0 (l : list (Z * Timestamp)) :
  let e := foldr (λ '(_, e) acc, Z.min e acc) e0 l in
  (e = e0 ∨ ∃ r, (r, e) ∈ l) ∧ e ≤ e0 ∧ ∀ r x, (r, x) ∈ l → e ≤ x.
Proof.
  induction l as [|[r x] l (IH1 & IH2 & IH3)]; simpl in *.
  { split; [by left|]. split; [done|]. by intros ?? ?%elem_of_nil. }
  set (e := foldr (λ '(_, e) (acc : Z), e `min` acc) e0 l) in *. split_and!; [|lia|].
  - destruct (Z.min_spec x e) as [[_ ->]|[_ ->]]; [right; exists r; set_solver|].
    destruct IH1 as [->|[r' Hr']]; [by left|]. right. exists r'. set_solver.
  - intros r' x' [[= -> ->]|Hin]%elem_of_cons; [lia|]. specialize (IH3 _ _ Hin). lia.
Qed.

(** What a reading says of the index. *)
Lemma exchange_rate_Current base quote now m rate e :
  exchange_rate base quote now m = Current rate e →
  let l := merge_sort rate_le (current base quote now m) in
  (∃ x, l !! (length l / 2)%nat = Some (rate, x) ∧ (rate, x) ∈ current base quote now m) ∧
  now < e ∧ (∃ r, (r, e) ∈ current base quote now m) ∧ ∀ r x, (r, x) ∈ current base quote now m → e ≤ x.
Proof.
  intros Hx l. unfold exchange_rate in Hx. destruct (matching base quote m); [done|].
  destruct (current base quote now m) as [|[r0 e0] rest] eqn:Hc; [done|]. fold l in Hx.
  destruct (l !! (length l / 2)%nat) as [[rate' x]|] eqn:Hl; [|done]. injection Hx as -> He.
  destruct (min_fold e0 rest) as (H1 & H2 & H3). rewrite He in H1, H2, H3.
  assert (∃ r, (r, e) ∈ (r0, e0) :: rest) as Hin by (destruct H1 as [->|[r Hr]]; [exists r0|exists r]; set_solver).
  assert (now < e) as Hnow.
  { destruct Hin as [r Hr]. rewrite <-Hc in Hr. unfold current in Hr. by apply list_elem_of_filter in Hr as [? _]. }
  split_and!; [|done|done|].
  - exists x. split; [done|]. apply list_elem_of_lookup_2 in Hl. unfold l in Hl. by rewrite merge_sort_Permutation in Hl.
  - intros r y [[= -> ->]|Hy]%elem_of_cons; [done|]. by eapply H3.
Qed.

(** A reading is absent, stale or current as its records are. *)
Lemma exchange_rate_cases base quote now m :
  (exchange_rate base quote now m = NoData ↔ matching base quote m = []) ∧
  (exchange_rate base quote now m = Stale ↔ matching base quote m ≠ [] ∧ current base quote now m = []).
Proof.
  unfold exchange_rate. destruct (matching base quote m) as [|y l] eqn:Hm; [naive_solver|].
  destruct (current base quote now m) as [|[r0 e0] rest] eqn:Hc; [naive_solver|].
  set (s := merge_sort rate_le _). assert (length s = S (length rest)) as Hlen
    by (unfold s; rewrite merge_sort_Permutation; done).
  assert (length s / 2 < length s)%nat as Hlt by (apply Nat.div_lt; lia).
  apply lookup_lt_is_Some in Hlt as [[rate x] ->]. naive_solver.
Qed.

(** The readings of a pair are those of its unexpired records. *)
Definition live_rate (base quote : string) (now : Timestamp) (m : oracle_index) (rate : Z) (expires_at : Timestamp) : Prop :=
  ∃ id r, m !! id = Some r ∧ or_data r = ExchangeRate base quote rate ∧ or_expires_at r = expires_at ∧ now < expires_at.

Lemma current_live base quote now m rate e : (rate, e) ∈ current base quote now m ↔ live_rate base quote now m rate e.
Proof.
  unfold current, matching, all_records, live_rate. rewrite list_elem_of_filter, list_elem_of_omap. split.
  - intros (Hnow & r & Hr & Hq). apply list_elem_of_fmap in Hr as ([id r'] & -> & Hin).
    rewrite (merge_sort_Permutation key_le), elem_of_map_to_list in Hin. unfold quoted in Hq. simpl in Hq.
    destruct (or_data r') as [b q v| | |] eqn:Hd; try done. case_decide as Heq; [|done]. destruct Heq as [-> ->].
    injection Hq as -> He. by exists id, r'.
  - intros (id & r & Hm & Hd & He & Hnow). split; [done|]. exists r. split.
    + apply list_elem_of_fmap. exists (id, r). by rewrite (merge_sort_Permutation key_le), elem_of_map_to_list.
    + unfold quoted. by rewrite Hd, decide_True, He.
Qed.

(** C38: a minority of records does not move the rate.  When more than half of
    the unexpired records of a pair lie between two bounds, in the total order
    of doubles, so does the rate a node reads, whatever the other records say.
    The rate is that of an unexpired record of the pair, and the reading lapses
    with the first of the pair's unexpired records: its expiry is the expiry of
    one of them and no later than that of any other. *)
Theorem median_resists_minority base quote now m rate e lo hi :
  exchange_rate base quote now m = Current rate e →
  (length (current base quote now m)
     < 2 * length (filter (within lo hi) (current base quote now m)))%nat →
  lo ≤ total_key rate ≤ hi ∧ (∃ x, live_rate base quote now m rate x) ∧
  (∃ r, live_rate base quote now m r e) ∧ ∀ r x, live_rate base quote now m r x → e ≤ x.
Proof.
  intros ((x & Hl & Hx) & Hnow & (r & He) & Hmin)%exchange_rate_Current Hmost. split_and!.
  1,2: eapply (middle_in_majority lo hi _ (rate, x)); [apply StronglySorted_merge_sort; apply _|done|];
    by rewrite merge_sort_Permutation.
  - exists x. by apply current_live.
  - exists r. by apply current_live.
  - intros r' x' ?%current_live. by eapply Hmin.
Qed.

(** ** Who publishes *)

Section publishing.
Context `{Wire}.
Implicit Types m : oracle_index.

Fixpoint publish_all (sv : services) (xs : list (signed OraclePublish)) m : oracle_result oracle_index :=
  match xs with
  | [] => Ok m
  | x :: xs => m ← apply_publish_oracle sv x m; publish_all sv xs m
  end.

Lemma apply_publish_oracle_Ok sv x m m' :
  apply_publish_oracle sv x m = Ok m' ↔
  let p := payload x in
  verify_publish x = Ok () ∧ market_data_provider sv (op_provider p) = true ∧ op_timestamp p < op_expires_at p ∧
  (∀ r, m !! op_id p = Some r → or_version r < op_version p) ∧ m' = <[op_id p := published_record p]> m.
Proof.
  cbv zeta. unfold apply_publish_oracle. split.
  - intros Hx. apply bind_Ok in Hx as ([] & Hv & Hx). apply bind_Ok in Hx as (? & Hp%require_Ok & Hx).
    apply bind_Ok in Hx as (? & Ht%require_Ok & Hx). apply bind_Ok in Hx as (? & Hver & [= <-]).
    split_and!; [done..| |done]. intros r Hr. rewrite Hr in Hver. by apply require_Ok in Hver.
  - intros (Hv & Hp & Ht & Hver & ->). rewrite Hv. cbn [mbind result_bind]. rewrite !require_true by done.
    destruct (m !! op_id (payload x)) as [r|]; [by rewrite require_true by (by apply Hver)|done].
Qed.

Lemma current_insert base quote now m id r y :
  m !! id = None → quoted base quote r = Some y → now < y.2 →
  current base quote now (<[id := r]> m) ≡ₚ y :: current base quote now m.
Proof.
  intros Hm Hy Hnow. unfold current, matching, all_records. rewrite !(merge_sort_Permutation key_le), map_to_list_insert by done. simpl. rewrite Hy.
  rewrite filter_cons_True; [done|by destruct y].
Qed.

(** The rates are doubles. *)
Definition rates_typed m : Prop :=
  ∀ id r b q v, m !! id = Some r → or_data r = ExchangeRate b q v → u64 v.

Lemma total_key_inj a b : u64 a → u64 b → total_key a = total_key b → a = b.
Proof. unfold total_key. intros. repeat case_decide; ilia. Qed.

Lemma current_typed base quote now m v e : rates_typed m → (v, e) ∈ current base quote now m → u64 v.
Proof.
  intros Hm [_ Hin]%list_elem_of_filter. apply list_elem_of_omap in Hin as (r & Hr & Hq).
  apply list_elem_of_fmap in Hr as ([id r'] & -> & Hin).
  rewrite (merge_sort_Permutation key_le) in Hin. apply elem_of_map_to_list in Hin. unfold quoted in Hq. simpl in *.
  destruct (or_data r') eqn:Hd; try done. case_decide; [|done]. injection Hq as -> _. by eapply Hm.
Qed.

(** One provider's share of the index. *)
Section one_provider.
Context (sv : services) (p : PeerId) (key : PublicKey) (base quote : string) (rate : Z) (now : Timestamp).
Hypothesis signs : ∀ pub, op_provider pub = p → op_provider_public_key pub = key → ∃ sig, verify_publish (mkSigned pub sig) = Ok ().
Hypothesis registered : market_data_provider sv p = true.
Hypothesis rate_u64 : u64 rate.

Lemma publish_copies k m : rates_typed m → ∃ xs m',
  Forall (λ x, op_provider (payload x) = p) xs ∧ publish_all sv xs m = Ok m' ∧ rates_typed m' ∧
  current base quote now m' ≡ₚ replicate k (rate, now + 1) ++ current base quote now m.
Proof using signs registered rate_u64.
  revert m. induction k as [|k IH]; intros m Hm; [by exists [], m|].
  set (id := fresh (dom m : gset string)).
  assert (m !! id = None) as Hid by (apply not_elem_of_dom, is_fresh).
  set (pub := mkOraclePublish id p key (ExchangeRate base quote rate) 0 now (now + 1)).
  destruct (signs pub) as [sig Hsig]; [done..|].
  destruct (IH (<[id := published_record pub]> m)) as (xs & m' & Hxs & Hrun & Hm' & Hc).
  { intros id' r b q v [[<- <-]|[_ ?]]%lookup_insert_Some Hr; [by injection Hr as _ _ <-|by eapply Hm]. }
  exists (mkSigned pub sig :: xs), m'. split; [by constructor|]. split; [|split; [done|]].
  - simpl. assert (apply_publish_oracle sv (mkSigned pub sig) m = Ok (<[id := published_record pub]> m)) as ->; [|done].
    apply apply_publish_oracle_Ok. split_and!; [done..|simpl; lia| |done]. cbn [payload op_id pub]. by rewrite Hid.
  - rewrite Hc, (current_insert _ _ _ _ _ _ (rate, now + 1)); [|done|unfold quoted; simpl; by rewrite decide_True|simpl; lia].
    by rewrite <-Permutation_middle.
Qed.

(** One provider is a majority.  The rate counts records, not providers: a
    single registered market-data provider, whatever the index holds, can
    publish records under new ids, each accepted, after which the rate every
    reader of the pair is given is the one it chose. *)
Theorem one_provider_sets_the_rate m : rates_typed m → ∃ xs m' e,
  Forall (λ x, op_provider (payload x) = p) xs ∧ publish_all sv xs m = Ok m' ∧
  exchange_rate base quote now m' = Current rate e.
Proof using signs registered rate_u64.
  intros Hm. set (n := length (current base quote now m)).
  destruct (publish_copies (S n) m Hm) as (xs & m' & Hxs & Hrun & Hm' & Hc).
  destruct (exchange_rate_cases base quote now m') as [Hno Hst].
  destruct (exchange_rate base quote now m') as [r e| |] eqn:Hr.
  - exists xs, m', e. split; [done|]. split; [done|]. rewrite Hr. f_equal.
    assert (length (current base quote now m')
      < 2 * length (filter (within (total_key rate) (total_key rate)) (current base quote now m')))%nat as Hmost.
    { rewrite Hc, filter_app, !length_app, length_replicate. rewrite (filter_all _ (replicate (S n) _)).
      - rewrite length_replicate. change (length (current base quote now m)) with n. lia.
      - intros y [-> _]%elem_of_replicate. unfold within. simpl. lia. }
    destruct (exchange_rate_Current _ _ _ _ _ _ Hr) as ((x & Hl & Hx) & _).
    apply total_key_inj; [by eapply current_typed|done|].
    enough (within (total_key rate) (total_key rate) (r, x)) by (unfold within in *; simpl in *; lia).
    eapply middle_in_majority; [apply StronglySorted_merge_sort; apply _|done|by rewrite merge_sort_Permutation].
  - destruct (proj1 Hst eq_refl) as [_ He]. rewrite He in Hc. by apply Permutation_nil_l in Hc.
  - assert (matching base quote m' = []) as He by (by apply Hno). unfold current in Hc at 1. rewrite He in Hc.
    by apply Permutation_nil_l in Hc.
Qed.
End one_provider.

Definition publish_step m m' : Prop := ∃ sv x, u64 (op_version (payload x)) ∧ apply_publish_oracle sv x m = Ok m'.

(** A feed belongs to whoever publishes last.  A registered market-data
    provider may publish under another provider's oracle id; at the largest
    version the record is accepted in place of the other's, and from then on no
    publication by anyone, the first provider included, changes it. *)
Theorem provider_seizes_feed sv x r m :
  verify_publish x = Ok () → market_data_provider sv (op_provider (payload x)) = true →
  op_timestamp (payload x) < op_expires_at (payload x) → op_version (payload x) = U64_MAX →
  m !! op_id (payload x) = Some r → or_version r < U64_MAX → or_provider r ≠ op_provider (payload x) →
  ∃ m', apply_publish_oracle sv x m = Ok m' ∧
    ∀ m'', steps publish_step m' m'' → m'' !! op_id (payload x) = Some (published_record (payload x)).
Proof.
  intros Hv Hp Ht Hver Hr Hlt _. exists (<[op_id (payload x) := published_record (payload x)]> m). split.
  { apply apply_publish_oracle_Ok. split_and!; [done..| |done]. intros r' Hr'. rewrite Hr in Hr'. injection Hr' as <-. by rewrite Hver. }
  intros m'' Hsteps. eapply (steps_invariant publish_step (λ m, m !! _ = Some _)); [|exact Hsteps|apply lookup_insert_eq].
  intros a b Ha (sv' & y & Hy & (_ & _ & _ & Hold & ->)%apply_publish_oracle_Ok). rewrite lookup_insert_ne; [done|].
  intros Heq. rewrite <-Heq in Ha. specialize (Hold _ Ha). simpl in Hold. ilia.
Qed.
End publishing.

(** A fee is priced off live rates.  A fee a node quotes in another token
    from its own index is converted at the rate of an unexpired record of the
    pair, the middle one; the quote lapses in two minutes at most and no later
    than the first of the records it was read from; with no unexpired record
    there is no quote. *)
Theorem fee_is_priced_live p mint d base quote now m fee fm sm a r q e :
  settle_in p mint d (as_settlement_rate (exchange_rate base quote now m)) now = Settleable fee fm sm a r q e →
  u64 now →
  (∃ bits x, (bits, x) ∈ current base quote now m ∧ r = f64_of_bits bits ∧ usable_rate r = true) ∧
  now < e ≤ now + MAX_QUOTE_VALIDITY ∧ (∀ bits x, (bits, x) ∈ current base quote now m → e ≤ x) ∧
  least_above (exact_fee (sp_amount p) r d) (base_units a).
Proof.
  intros Hq Hn. destruct (exchange_rate base quote now m) as [bits x| |] eqn:Hr; simpl in Hq.
  2,3: unfold settle_in in Hq; by case_decide.
  apply settle_in_Settleable in Hq as (_ & Hu & Hlt & Hc & -> & _ & _ & -> & -> & He).
  apply exchange_rate_Current in Hr as ((y & _ & Hin) & Hx & _ & Hmin). apply convert_covers in Hc as (_ & _ & Hcov).
  unfold saturating_add_u64, MAX_QUOTE_VALIDITY in *. split_and!; [by exists bits, y|lia|lia| |done].
  intros b z Hz%Hmin. lia.
Qed.
