(* ===== verification/Evidence.v ===== *)
(** * Evidence: what is said of a wallet, and what is attached to a trade

    [crates/risk]: signed flags and clearances of wallets by the registry's risk
    providers, and the screening that combines them.  [crates/content]: signed
    attachments of a settlement ([record.rs], [events.rs], [store.rs]) and how
    long their content is kept ([retention.rs]). *)

From Stdlib Require Import Ascii.
From stdpp Require Import sorting.
From S2P Require Import Prelude Runtime Peers Pricing Statements MarketState ServiceRegistry.
Import Svc Rsk Att.

(** ** Risk records *)

Module RiskError.
Inductive t := InvalidSignature | Unauthorized | MalformedRecord | DuplicateRecordId.
End RiskError.
Abbreviation risk_result := (result RiskError.t).

Record RiskRecord := mkRiskRecord {
  rk_id : string;
  rk_provider : PeerId;
  rk_provider_public_key : PublicKey;
  rk_wallet : PeerId;
  rk_category : ProviderCategory;
  rk_outcome : RiskOutcome;
  rk_severity : Severity;
  rk_confidence : Confidence;
  rk_reason : string;
  rk_evidence : list string;
  rk_published_at : Timestamp;
  rk_expires_at : option Timestamp;
}.

Abbreviation risk_index := (gmap string RiskRecord).

Definition all_risks (m : risk_index) : list RiskRecord := (merge_sort key_le (map_to_list m)).*2.

Definition risk_is_current (now : Timestamp) (r : RiskRecord) : Prop := from_option (λ e, now < e) True (rk_expires_at r).
#[export] Instance risk_is_current_dec now r : Decision (risk_is_current now r).
Proof. unfold risk_is_current. destruct (rk_expires_at r); simpl; apply _. Defined.

Definition RISK_EXPIRED_GRACE : Z := 7 * 24 * 60 * 60 * 1000.

Definition prune_expired_risks (now : Timestamp) (m : risk_index) : risk_index * Z :=
  let cutoff := saturating_sub_u64 now RISK_EXPIRED_GRACE in
  let kept := filter (λ '(_, r), ¬ from_option (λ at_, at_ <? cutoff) false (rk_expires_at r) = true) m in
  (kept, Z.of_nat (size m) - Z.of_nat (size kept)).

Definition for_wallet (wallet : PeerId) (m : risk_index) : list RiskRecord :=
  filter (λ r, rk_wallet r = wallet) (all_risks m).

Definition risk_provider (sv : services) (p : PeerId) : bool :=
  existsb (λ s, bool_decide (sv_provider s = p) &&
    bool_decide (sv_service_type s = Security RiskIntelligenceProvider)) (all_services sv).

Definition risk_record (p : RiskPublish) : RiskRecord :=
  mkRiskRecord (rp_id p) (rp_provider p) (rp_provider_public_key p) (rp_wallet p) (rp_category p) (rp_outcome p)
    (rp_severity p) (rp_confidence p) (rp_reason p) (rp_evidence p) (rp_timestamp p) (rp_expires_at p).

Section risk.
Context `{Wire}.

Definition verify_risk (x : signed RiskPublish) : risk_result unit :=
  verify_self RiskError.MalformedRecord RiskError.InvalidSignature RiskError.Unauthorized
    (rp_provider_public_key (payload x)) (rp_provider (payload x)) (StRiskPublish (payload x)) (signature x).

Definition apply_publish_risk (sv : services) (x : signed RiskPublish) (m : risk_index) : risk_result risk_index :=
  _ ← verify_risk x;
  let p := payload x in
  _ ← require (risk_provider sv (rp_provider p) = true) (Code RiskError.Unauthorized);
  _ ← require (m !! rp_id p = None) (Code RiskError.DuplicateRecordId);
  Ok (<[rp_id p := risk_record p]> m).
End risk.

(** The declared order of severities. *)
Definition severity_rank (s : Severity) : Z :=
  match s with Informational => 0 | Low => 1 | Medium => 2 | High => 3 | Critical => 4 end.

Definition worst (a : Severity) (b : option Severity) : option Severity :=
  match b with
  | None => Some a
  | Some b => Some (if decide (severity_rank a < severity_rank b) then b else a)
  end.

Definition published_le (a b : RiskRecord) : Prop := rk_published_at a ≤ rk_published_at b.
#[export] Instance published_le_dec a b : Decision (published_le a b).
Proof. unfold published_le. apply _. Defined.
#[export] Instance published_le_total : Total published_le.
Proof. intros a b. unfold published_le. lia. Qed.
#[export] Instance published_le_trans : Transitive published_le.
Proof. intros a b c. unfold published_le. lia. Qed.

Record ScreeningResult := mkScreeningResult {
  sr_wallet : PeerId;
  sr_highest_severity : option Severity;
  sr_active_flags : list RiskRecord;
}.

Definition cleared_at (records : list RiskRecord) : option Timestamp :=
  rk_published_at ∘ snd <$> list_find (λ r, rk_outcome r = Cleared) (reverse records).

Definition screen (wallet : PeerId) (now : Timestamp) (m : risk_index) : ScreeningResult :=
  let records := merge_sort published_le (filter (risk_is_current now) (for_wallet wallet m)) in
  let active_flags := filter (λ r, rk_outcome r = Flagged ∧
    from_option (λ cleared, cleared <? rk_published_at r) true (cleared_at records) = true) records in
  mkScreeningResult wallet (foldr worst None (rk_severity <$> active_flags)) active_flags.

(** ** Attachments *)

Module ContentError.
Inductive t := UnsupportedMediaType | TooLarge | InvalidSignature | NotAParty | DuplicateAttachmentId | MalformedAttachment.
End ContentError.
Abbreviation content_result := (result ContentError.t).

Definition MAX_ATTACHMENT_BYTES : Z := 10 * 1024 * 1024.
Definition MAX_CAPTION_CHARS : Z := 200.

Definition media_type_str (t : MediaType) : string :=
  match t with Png => "image/png" | Jpeg => "image/jpeg" | Webp => "image/webp" | Pdf => "application/pdf" end.

Definition parse_media_type (s : string) : content_result MediaType :=
  if decide (s = "image/png"%string) then Ok Png
  else if decide (s = "image/jpeg"%string) then Ok Jpeg
  else if decide (s = "image/webp"%string) then Ok Webp
  else if decide (s = "application/pdf"%string) then Ok Pdf
  else Err (Code ContentError.UnsupportedMediaType).

Definition magic (t : MediaType) : list Z :=
  match t with
  | Png => [137; 80; 78; 71; 13; 10; 26; 10]
  | Jpeg => [255; 216; 255]
  | Webp => [82; 73; 70; 70]
  | Pdf => [37; 80; 68; 70; 45]
  end.

Definition looks_like (t : MediaType) (content : list Z) : bool :=
  starts_with (magic t) content &&
  match t with
  | Webp => (12 <=? Z.of_nat (length content)) && bool_decide (slice 8 4 content = [87; 69; 66; 80])
  | _ => true
  end.

Definition validate_attachment (a : Attachment) : content_result unit :=
  _ ← require (¬ (at_size_bytes a = 0 ∨ MAX_ATTACHMENT_BYTES < at_size_bytes a)) (Code ContentError.TooLarge);
  _ ← require (¬ MAX_CAPTION_CHARS < Z.of_nat (length (at_caption a))) (Code ContentError.MalformedAttachment);
  require (at_id a ≠ EmptyString) (Code ContentError.MalformedAttachment).

Abbreviation attachments := (gmap string Attachment).

Definition all_attachments (m : attachments) : list Attachment := (merge_sort key_le (map_to_list m)).*2.

Definition attachment_le (a b : Attachment) : Prop :=
  at_created_at a < at_created_at b ∨
  at_created_at a = at_created_at b ∧ bytes_le (bytes_of (at_id a)) (bytes_of (at_id b)).
#[export] Instance attachment_le_dec a b : Decision (attachment_le a b).
Proof. unfold attachment_le. apply _. Defined.

Definition find_by_settlement (settlement : string) (parties : list PeerId) (m : attachments) : list Attachment :=
  merge_sort attachment_le
    (filter (λ a, at_subject a = SettlementSubject settlement ∧ at_author a ∈ parties) (all_attachments m)).

Section attachments.
Context `{Wire}.

Definition verify_attachment (x : signed Attachment) : content_result unit :=
  verify_self ContentError.MalformedAttachment ContentError.InvalidSignature ContentError.NotAParty
    (at_author_public_key (payload x)) (at_author (payload x)) (StAttachmentPublish (payload x)) (signature x).

Definition apply_publish_attachment (x : signed Attachment) (m : attachments) : content_result attachments :=
  _ ← verify_attachment x;
  _ ← validate_attachment (payload x);
  _ ← require (m !! at_id (payload x) = None) (Code ContentError.DuplicateAttachmentId);
  Ok (<[at_id (payload x) := payload x]> m).
End attachments.

(** ** Retention *)

Definition MINIMUM_DAYS : Z := 30.
Definition DAY_MILLIS : Z := 24 * 60 * 60 * 1000.

Inductive Retention := Rolling (days : Z) | Archival.

(** [u64::from_str]: digits, one plus sign allowed before them. *)
Definition digit (c : Z) : option Z := if (48 <=? c) && (c <=? 57) then Some (c - 48) else None.

Fixpoint digits (s : list Z) (acc : Z) : option Z :=
  match s with
  | [] => Some acc
  | c :: s => d ← digit c; n ← checked u64 (acc * 10); n ← checked u64 (n + d); digits s n
  end.

Definition parse_u64 (s : list Z) : option Z :=
  match s with
  | [] => None
  | c :: rest => let body := if decide (c = 43) then rest else s in if decide (body = []) then None else digits body 0
  end.

Definition parse_retention (input : list Z) : option Retention :=
  if decide (ascii_lower <$> input = bytes_of "archival") then Some Archival
  else days ← parse_u64 input; if decide (days < MINIMUM_DAYS) then None else Some (Rolling days).

Definition within_days (created_at now : Timestamp) (days : Z) : bool :=
  saturating_sub_u64 now created_at <=? saturating_mul_u64 days DAY_MILLIS.

Definition keeps (r : Retention) (created_at now : Timestamp) : bool :=
  match r with Archival => true | Rolling days => within_days created_at now days end.

Definition challenge_window (created_at now : Timestamp) : bool := within_days created_at now MINIMUM_DAYS.

(** ** Screening *)

Lemma all_risks_spec m r : r ∈ all_risks m ↔ ∃ id, m !! id = Some r.
Proof.
  unfold all_risks. rewrite list_elem_of_fmap. setoid_rewrite (merge_sort_Permutation key_le). split.
  - intros ([id r'] & -> & Hin%elem_of_map_to_list). eauto.
  - intros [id Hid]. exists (id, r). by rewrite elem_of_map_to_list.
Qed.

(** The last clearance in time order is the latest. *)
Lemma cleared_at_latest l :
  StronglySorted published_le l →
  match cleared_at l with
  | Some t => (∃ r, r ∈ l ∧ rk_outcome r = Cleared ∧ rk_published_at r = t) ∧
              ∀ r, r ∈ l → rk_outcome r = Cleared → rk_published_at r ≤ t
  | None => ∀ r, r ∈ l → rk_outcome r ≠ Cleared
  end.
Proof.
  induction l as [|r l IH] using rev_ind; intros Hs; [by intros r ?%elem_of_nil|]. unfold cleared_at in *.
  rewrite reverse_snoc. cbn [list_find]. case_decide as Hr.
  - cbn [fmap option_fmap option_map compose snd]. split; [exists r; set_solver|].
    intros r' [Hin|<-%list_elem_of_singleton]%elem_of_app _; [|done].
    change (published_le r' r). eapply StronglySorted_app_1_elem_of; [done|done|set_solver].
  - specialize (IH (StronglySorted_app_1_l _ _ _ Hs)).
    destruct (list_find (λ r, rk_outcome r = Cleared) (reverse l)) as [[i r']|]; cbn [fmap option_fmap option_map compose snd] in *.
    + destruct IH as [(q & Hq & Hc & Ht) Hall]. split; [exists q; set_solver|].
      intros x [Hin| ->%list_elem_of_singleton]%elem_of_app Hx; [by apply Hall|done].
    + intros x [Hin| ->%list_elem_of_singleton]%elem_of_app; [by apply IH|done].
Qed.

Lemma worst_max (l : list Severity) :
  match foldr worst None l with
  | None => l = []
  | Some s => s ∈ l ∧ ∀ s', s' ∈ l → severity_rank s' ≤ severity_rank s
  end.
Proof.
  induction l as [|a l IH]; simpl; [done|]. destruct (foldr worst None l) as [b|]; simpl.
  - destruct IH as [Hin Hall]. case_decide.
    + split; [set_solver|]. intros s' [->|Hs']%elem_of_cons; [lia|by apply Hall].
    + split; [set_solver|]. intros s' [->|Hs'%Hall]%elem_of_cons; lia.
  - subst l. split; [set_solver|]. intros s' ->%list_elem_of_singleton. lia.
Qed.

Definition stands (wallet : PeerId) (now : Timestamp) (m : risk_index) (r : RiskRecord) : Prop :=
  (∃ id, m !! id = Some r) ∧ rk_wallet r = wallet ∧ risk_is_current now r.

(** Screening gives the flags that stand: a wallet's current flags published
    after every current clearance of it, by whichever providers, and the worst
    of their severities. *)
Theorem screening_is_exact wallet now m :
  let s := screen wallet now m in
  (∀ r, r ∈ sr_active_flags s ↔
     stands wallet now m r ∧ rk_outcome r = Flagged ∧
     ∀ c, stands wallet now m c → rk_outcome c = Cleared → rk_published_at c < rk_published_at r) ∧
  match sr_highest_severity s with
  | None => sr_active_flags s = []
  | Some w => (∃ r, r ∈ sr_active_flags s ∧ rk_severity r = w) ∧
              ∀ r, r ∈ sr_active_flags s → severity_rank (rk_severity r) ≤ severity_rank w
  end.
Proof.
  unfold screen. cbn [sr_active_flags sr_highest_severity].
  set (l := merge_sort published_le _). set (flags := filter _ l).
  assert (∀ r, r ∈ l ↔ stands wallet now m r) as Hl.
  { intros r. unfold l. rewrite merge_sort_Permutation, list_elem_of_filter. unfold for_wallet.
    rewrite list_elem_of_filter, all_risks_spec. unfold stands. tauto. }
  pose proof (cleared_at_latest l ltac:(apply StronglySorted_merge_sort; apply _)) as Hc. split.
  - intros r. unfold flags. rewrite list_elem_of_filter, Hl. destruct (cleared_at l) as [t|]; simpl.
    + destruct Hc as [(q & Hq & Ho & <-) Hall]. setoid_rewrite Hl in Hall. rewrite Z.ltb_lt. split.
      * intros [[? ?] ?]. split_and!; [done..|]. intros c Hs Hcl. specialize (Hall c Hs Hcl). lia.
      * intros (? & ? & Hlt). split_and!; [done|by apply Hlt; [apply Hl|]|done].
    + setoid_rewrite Hl in Hc. naive_solver.
  - pose proof (worst_max (rk_severity <$> flags)) as Hw. destruct (foldr worst None _) as [w|].
    + destruct Hw as [(r & -> & Hr)%list_elem_of_fmap Hall]. split; [eauto|]. intros r' Hr'. apply Hall, list_elem_of_fmap. eauto.
    + by apply fmap_nil_inv in Hw.
Qed.

Section clearance.
Context `{Wire}.

Lemma apply_publish_risk_Ok sv x m m' :
  apply_publish_risk sv x m = Ok m' →
  risk_provider sv (rp_provider (payload x)) = true ∧ m !! rp_id (payload x) = None ∧
  m' = <[rp_id (payload x) := risk_record (payload x)]> m.
Proof.
  unfold apply_publish_risk. intros Hx. apply bind_Ok in Hx as (? & _ & Hx). apply bind_Ok in Hx as (? & Hp%require_Ok & Hx).
  by apply bind_Ok in Hx as (? & Hn%require_Ok & [= <-]).
Qed.

(** What happens to the index: publications and sweeps. *)
Inductive risk_step : risk_index → risk_index → Prop :=
  | risk_published sv x m m' : u64 (rp_timestamp (payload x)) → apply_publish_risk sv x m = Ok m' → risk_step m m'
  | risk_swept now m : risk_step m (prune_expired_risks now m).1.

Lemma risk_provider_intro sv id s :
  sv !! id = Some s → sv_service_type s = Security RiskIntelligenceProvider → risk_provider sv (sv_provider s) = true.
Proof.
  intros Hs Ht. unfold risk_provider. apply existsb_exists. exists s. split; [|by rewrite !bool_decide_true].
  apply list_elem_of_In. unfold all_services. apply list_elem_of_fmap. exists (id, s). split; [done|].
  by rewrite (merge_sort_Permutation key_le), elem_of_map_to_list.
Qed.

(** A wallet can clear itself, for good.  Its own registration as a risk provider
    is accepted, and so is its clearance of itself, dated at the end of time and
    never expiring; from then on no flag of any provider, earlier or later,
    stands against the wallet. *)
Theorem wallet_clears_itself sv0 reg x m :
  let w := rp_wallet (payload x) in
  verify_registration reg = Ok () → sv0 !! rg_service_id (payload reg) = None →
  rg_provider (payload reg) = w → rg_service_type (payload reg) = Security RiskIntelligenceProvider →
  verify_risk x = Ok () → rp_provider (payload x) = w → m !! rp_id (payload x) = None →
  rp_outcome (payload x) = Cleared → rp_timestamp (payload x) = U64_MAX → rp_expires_at (payload x) = None →
  (∀ id r, m !! id = Some r → u64 (rk_published_at r)) →
  ∃ sv m', apply_registration reg sv0 = Ok sv ∧ apply_publish_risk sv x m = Ok m' ∧
    ∀ m'' now, steps risk_step m' m'' → sr_active_flags (screen w now m'') = [].
Proof.
  intros w Hreg Hfresh Hw Htype Hv Hself Hid Hout Ht Hexp Hu.
  exists (<[rg_service_id (payload reg) := into_record (payload reg)]> sv0), (<[rp_id (payload x) := risk_record (payload x)]> m).
  split; [apply apply_registration_intro; [done|]; by rewrite Hfresh|]. split.
  { unfold apply_publish_risk. rewrite Hv. cbn [mbind result_bind]. rewrite require_true; [by rewrite require_true|].
    rewrite Hself, <-Hw. by eapply (risk_provider_intro _ _ (into_record (payload reg))); [apply lookup_insert_eq|]. }
  intros m'' now Hsteps.
  set (I (m : risk_index) := (∀ id r, m !! id = Some r → u64 (rk_published_at r)) ∧
    m !! rp_id (payload x) = Some (risk_record (payload x))).
  assert (I m'') as [Hu' Hin].
  { apply (steps_invariant risk_step I _ m'') in Hsteps; [done| |].
    - intros a b HI Hstep. revert HI. destruct Hstep as [sv' y c d Hy (_ & Hn & ->)%apply_publish_risk_Ok|now' c]; intros [Ha Hx].
      + split; [|rewrite lookup_insert_ne; [done|intros Heq; rewrite Heq in Hn; by rewrite Hn in Hx]]. intros id r [[_ <-]|[_ ?]]%lookup_insert_Some; [done|by eapply Ha].
      + split; [intros id r Hr; apply map_lookup_filter_Some in Hr as [? _]; by eapply Ha|].
        apply map_lookup_filter_Some. split; [done|]. simpl. by rewrite Hexp.
    - split; [|apply lookup_insert_eq]. intros id r [[_ <-]|[_ ?]]%lookup_insert_Some; [simpl; rewrite Ht; ilia|by eapply Hu]. }
  destruct (screening_is_exact w now m'') as [Hflags _].
  destruct (sr_active_flags _) as [|r l]; [done|]. destruct (proj1 (Hflags r)) as ([[id Hr] _] & _ & Hlate); [set_solver|].
  specialize (Hlate (risk_record (payload x))). cbn [risk_record rk_published_at rk_outcome] in Hlate. rewrite Ht in Hlate.
  assert (U64_MAX < rk_published_at r) as Hlt; [|specialize (Hu' _ _ Hr); ilia].
  apply Hlate; [|done]. split; [by eexists|]. split; [done|]. unfold risk_is_current. simpl. by rewrite Hexp.
Qed.
End clearance.

(** ** Attachments stand *)

Section attached.
Context `{Wire}.

Definition attachment_step (m m' : attachments) : Prop := ∃ x, apply_publish_attachment x m = Ok m'.

Lemma apply_publish_attachment_Ok x m m' :
  apply_publish_attachment x m = Ok m' ↔
  verify_attachment x = Ok () ∧ validate_attachment (payload x) = Ok () ∧ m !! at_id (payload x) = None ∧
  m' = <[at_id (payload x) := payload x]> m.
Proof.
  unfold apply_publish_attachment. split.
  - intros Hx. apply bind_Ok in Hx as ([] & Hv & Hx). apply bind_Ok in Hx as ([] & Hs & Hx).
    by apply bind_Ok in Hx as (? & Hn%require_Ok & [= <-]).
  - intros (-> & -> & Hn & ->). cbn [mbind result_bind]. by rewrite require_true.
Qed.

Lemma attachment_stands m m' id a : steps attachment_step m m' → m !! id = Some a → m' !! id = Some a.
Proof.
  intros Hsteps. apply (steps_invariant attachment_step (λ m, m !! id = Some a)); [|done].
  intros b c Hb (x & (_ & _ & Hn & ->)%apply_publish_attachment_Ok). rewrite lookup_insert_ne; [done|congruence].
Qed.

Lemma find_by_settlement_spec s parties m a :
  a ∈ find_by_settlement s parties m ↔
  (∃ id, m !! id = Some a) ∧ at_subject a = SettlementSubject s ∧ at_author a ∈ parties.
Proof.
  unfold find_by_settlement. rewrite merge_sort_Permutation, list_elem_of_filter. unfold all_attachments.
  rewrite list_elem_of_fmap. setoid_rewrite (merge_sort_Permutation key_le). split.
  - intros [? ([id r'] & -> & Hin%elem_of_map_to_list)]. split; [eauto|done].
  - intros [[id Hid] ?]. split; [done|]. exists (id, a). by rewrite elem_of_map_to_list.
Qed.

(** The attachments shown for a trade were signed by its parties, are of the
    declared shape, and stay: what a node has once shown it shows for good. *)
Theorem attachments_are_the_parties m m' s parties a :
  steps attachment_step ∅ m → a ∈ find_by_settlement s parties m →
  at_author a ∈ parties ∧ peer_id_from_public_key (at_author_public_key a) = Some (at_author a) ∧
  (∃ sig, signed_by (at_author_public_key a) (StAttachmentPublish a) sig) ∧ validate_attachment a = Ok () ∧
  (steps attachment_step m m' → a ∈ find_by_settlement s parties m').
Proof.
  intros Hsteps ((id & Hid) & Hs & Hp)%find_by_settlement_spec.
  set (I (m : attachments) := ∀ id a, m !! id = Some a → validate_attachment a = Ok () ∧ ∃ sig, verify_attachment (mkSigned a sig) = Ok ()).
  assert (I m) as HI.
  { apply (steps_invariant attachment_step I ∅ m); [|done|by intros ??].
    intros b c Hb (x & (Hv & Hval & _ & ->)%apply_publish_attachment_Ok) id' a' [[_ <-]|[_ ?]]%lookup_insert_Some; [|by eapply Hb].
    split; [done|]. exists (signature x). by destruct x. }
  destruct (HI _ _ Hid) as (Hval & sig & [Hkey Hsig]%verify_self_Ok). split_and!; [done|done|by exists sig|done|].
  intros Hsteps'. apply find_by_settlement_spec. split; [|done]. exists id. by eapply attachment_stands.
Qed.

(** Evidence depends on who is heard first.  A stranger who copies the id of a
    party's attachment and is heard first keeps it out of a node's record for
    good, while a node that heard the party first shows it. *)
Theorem squatted_attachment_vanishes x y s parties m :
  verify_attachment x = Ok () → validate_attachment (payload x) = Ok () →
  verify_attachment y = Ok () → validate_attachment (payload y) = Ok () →
  at_subject (payload x) = SettlementSubject s → at_author (payload x) ∈ parties → at_author (payload y) ∉ parties →
  at_id (payload y) = at_id (payload x) → m !! at_id (payload x) = None → (∀ id a, m !! id = Some a → at_id a = id) →
  ∃ honest squatted,
    apply_publish_attachment x m = Ok honest ∧ payload x ∈ find_by_settlement s parties honest ∧
    apply_publish_attachment y m = Ok squatted ∧
    ∀ later, steps attachment_step squatted later →
      (payload x ∉ find_by_settlement s parties later) ∧
      apply_publish_attachment x later = Err (Code ContentError.DuplicateAttachmentId).
Proof.
  intros Hx Hvx Hy Hvy Hs Hp Hnp Hid Hn Hkeyed.
  exists (<[at_id (payload x) := payload x]> m), (<[at_id (payload y) := payload y]> m).
  split; [by apply apply_publish_attachment_Ok|].
  split; [apply find_by_settlement_spec; split; [|done]; exists (at_id (payload x)); apply lookup_insert_eq|].
  split; [apply apply_publish_attachment_Ok; by rewrite Hid|]. intros later Hsteps.
  assert (later !! at_id (payload x) = Some (payload y)) as Hy'
    by (eapply attachment_stands; [done|]; rewrite Hid; apply lookup_insert_eq).
  assert (∀ id a, later !! id = Some a → at_id a = id) as Hk.
  { refine (steps_invariant attachment_step (λ m : attachments, ∀ id a, m !! id = Some a → at_id a = id) _ _ _ Hsteps _).
    - intros b c Hb (z & (_ & _ & _ & ->)%apply_publish_attachment_Ok) id a [[<- <-]|[_ ?]]%lookup_insert_Some; [done|by apply Hb].
    - intros id a [[<- <-]|[_ ?]]%lookup_insert_Some; [done|by apply Hkeyed]. }
  split.
  - intros ((id & Hin) & _ & _)%find_by_settlement_spec. pose proof (Hk _ _ Hin) as Hid'. rewrite <-Hid', Hy' in Hin.
    injection Hin as Heq. by rewrite Heq in Hnp.
  - unfold apply_publish_attachment. rewrite Hx, Hvx. cbn [mbind result_bind]. unfold require. by rewrite Hy'.
Qed.
End attached.

(** ** A fair challenge *)

(** Whatever retention an operator may configure, the content any node can be
    challenged about is content this node keeps. *)
Theorem challenge_is_fair input r created_at now :
  parse_retention input = Some r → challenge_window created_at now = true → keeps r created_at now = true.
Proof.
  unfold parse_retention, challenge_window, keeps, within_days, saturating_mul_u64, MINIMUM_DAYS, DAY_MILLIS.
  case_decide; [intros [= <-]; done|]. destruct (parse_u64 input) as [days|]; [|done]. cbn [mbind option_bind].
  case_decide; [done|]. intros [= <-]. rewrite !Z.leb_le. lia.
Qed.
