(* ===== verification/Standing.v ===== *)
(** * Standing: what a node derives about the traders it knows

    [crates/reputation]: a wallet's profile and its rates.  [crates/trade]: the
    join of reservations and settlements ([view.rs]) and the record of each
    counterparty ([counterparties.rs]).  All are read off the node's book; a
    counter that overflows aborts the reading. *)

From Stdlib Require Import SpecFloat.
From stdpp Require Import sorting.
From S2P Require Import Prelude Runtime Peers Pricing Statements Offers MarketState.

Abbreviation reading := (result Empty_set).

Definition all_settlements (n : node) : list Settlement := (merge_sort key_le (map_to_list (nd_settlements n))).*2.
Definition all_disputes (n : node) : list Dispute := (merge_sort key_le (map_to_list (nd_disputes n))).*2.

Fixpoint foldM {A B} (f : B → A → reading B) (l : list A) (b : B) : reading B :=
  match l with [] => Ok b | a :: l => b ← f b a; foldM f l b end.

(** ** Reputation *)

Inductive MerchantTier := Explorer | Verified | Professional | Elite | Institutional.

Record ReputationProfile := mkProfile {
  rf_wallet : PeerId;
  rf_trades_started : Z;
  rf_trades_completed : Z;
  rf_trades_cancelled : Z;
  rf_disputes_involved : Z;
  rf_disputes_lost : Z;
  rf_reservations_missed : Z;
  rf_payment_responses_due : Z;
  rf_payment_responses_made : Z;
  rf_payments_submitted : Z;
  rf_payment_discrepancies : Z;
  rf_response_latency_sum_ms : Z;
  rf_total_volume : list Amount;
  rf_completed_duration_sum_ms : Z;
  rf_first_active_at : option Timestamp;
}.
#[export] Instance ReputationProfile_eta : Settable ReputationProfile := fun r =>
  mkProfile (rf_wallet r) (rf_trades_started r) (rf_trades_completed r) (rf_trades_cancelled r) (rf_disputes_involved r)
    (rf_disputes_lost r) (rf_reservations_missed r) (rf_payment_responses_due r) (rf_payment_responses_made r)
    (rf_payments_submitted r) (rf_payment_discrepancies r) (rf_response_latency_sum_ms r) (rf_total_volume r)
    (rf_completed_duration_sum_ms r) (rf_first_active_at r).

Definition empty_profile (wallet : PeerId) : ReputationProfile := mkProfile wallet 0 0 0 0 0 0 0 0 0 0 0 [] 0 None.

Definition ratio (a b : Z) : option f64 := if decide (0 < b) then Some (f64_div (f64_of_int a) (f64_of_int b)) else None.

Definition trade_success_rate (p : ReputationProfile) := ratio (rf_trades_completed p) (rf_trades_started p).
Definition dispute_rate (p : ReputationProfile) := ratio (rf_disputes_involved p) (rf_trades_completed p).
Definition average_settlement_duration_ms (p : ReputationProfile) := ratio (rf_completed_duration_sum_ms p) (rf_trades_completed p).
Definition average_ticket_size (p : ReputationProfile) : list (Amount * f64) :=
  if decide (rf_trades_completed p = 0) then []
  else (λ total, (total, f64_div (f64_of_int (base_units total)) (f64_of_int (rf_trades_completed p)))) <$> rf_total_volume p.
Definition response_rate (p : ReputationProfile) := ratio (rf_payment_responses_made p) (rf_payment_responses_due p).
Definition average_response_latency_ms (p : ReputationProfile) :=
  ratio (rf_response_latency_sum_ms p) (rf_payment_responses_made p).
Definition payment_discrepancy_rate (p : ReputationProfile) := ratio (rf_payment_discrepancies p) (rf_payments_submitted p).
Definition merchant_age_ms (now : Timestamp) (p : ReputationProfile) : option Z :=
  saturating_sub_u64 now <$> rf_first_active_at p.

Definition tier (p : ReputationProfile) : MerchantTier :=
  let n := rf_trades_completed p in
  if decide (1000 ≤ n) then Institutional else if decide (250 ≤ n) then Elite else if decide (50 ≤ n) then Professional
  else if decide (5 ≤ n) then Verified else Explorer.

(** [+=] on a counter. *)
Definition bump (f : ReputationProfile → Z) `{!Setter f} (d : Z) (p : ReputationProfile) : reading ReputationProfile :=
  n ← or_panic u64 (f p + d); Ok (set_field f (λ _, n) p).

Fixpoint add_volume (amount : Amount) (l : list Amount) : list Amount :=
  match l with
  | [] => [amount]
  | a :: l => if decide (decimals a = decimals amount) then default a (amount_checked_add a amount) :: l else a :: add_volume amount l
  end.

Definition record_volume (amount : Amount) (p : ReputationProfile) : ReputationProfile :=
  p <| rf_total_volume := add_volume amount (rf_total_volume p) |>.

Definition record_payment_response (latency_ms : Z) (p : ReputationProfile) : reading ReputationProfile :=
  p ← bump rf_payment_responses_due 1 p;
  p ← bump rf_payment_responses_made 1 p;
  bump rf_response_latency_sum_ms latency_ms p.

Definition observe_activity_at (at_ : Timestamp) (p : ReputationProfile) : ReputationProfile :=
  p <| rf_first_active_at := Some match rf_first_active_at p with
                                  | Some existing => if decide (existing ≤ at_) then existing else at_
                                  | None => at_
                                  end |>.

Definition is_payment_accuracy_fault (d : PaymentDiscrepancy.t) : bool :=
  match d with PaymentDiscrepancy.Other => false | _ => true end.

Definition involves (wallet : PeerId) (s : Settlement) : bool :=
  bool_decide (sm_buyer s = wallet) || bool_decide (sm_seller s = wallet).

(** The merchant is judged on answering a payment declaration. *)
Definition count_response (wallet : PeerId) (s : Settlement) (p : ReputationProfile) : reading ReputationProfile :=
  match sm_payment_submitted_at s with
  | Some submitted =>
      if decide (sm_seller s = wallet) then
        match sm_merchant_responded_at s with
        | Some responded => record_payment_response (saturating_sub_u64 responded submitted) p
        | None => bump rf_payment_responses_due 1 p
        end
      else Ok p
  | None => Ok p
  end.

(** The payer is judged on the payment's details. *)
Definition count_payment (wallet : PeerId) (s : Settlement) (p : ReputationProfile) : reading ReputationProfile :=
  if decide (sm_buyer s = wallet) then
    p ← (if decide (is_Some (sm_payment_submitted_at s)) then bump rf_payments_submitted 1 p else Ok p);
    if decide (from_option is_payment_accuracy_fault false (sm_payment_discrepancy s) = true)
    then bump rf_payment_discrepancies 1 p else Ok p
  else Ok p.

Definition count_outcome (s : Settlement) (p : ReputationProfile) : reading ReputationProfile :=
  match sm_state s with
  | SettlementState.Approved | SettlementState.Completed =>
      p ← bump rf_trades_completed 1 p;
      bump rf_completed_duration_sum_ms (saturating_sub_u64 (sm_updated_at s) (sm_created_at s))
        (record_volume (sm_amount s) p)
  | SettlementState.Cancelled | SettlementState.Rejected => bump rf_trades_cancelled 1 p
  | SettlementState.AwaitingPayment | SettlementState.PaymentSubmitted | SettlementState.Disputed => Ok p
  end.

Definition count_settlement (wallet : PeerId) (p : ReputationProfile) (s : Settlement) : reading ReputationProfile :=
  if involves wallet s then
    p ← bump rf_trades_started 1 p;
    p ← count_response wallet s (observe_activity_at (sm_created_at s) p);
    p ← count_payment wallet s p;
    count_outcome s p
  else Ok p.

Definition count_dispute (wallet : PeerId) (p : ReputationProfile) (d : Dispute) : reading ReputationProfile :=
  let is_buyer := bool_decide (dp_buyer d = wallet) in
  let is_seller := bool_decide (dp_seller d = wallet) in
  if negb is_buyer && negb is_seller then Ok p
  else
    p ← bump rf_disputes_involved 1 p;
    match dp_resolution d with
    | Some Resolution.BuyerWins => if is_seller then bump rf_disputes_lost 1 p else Ok p
    | Some Resolution.MerchantWins => if is_buyer then bump rf_disputes_lost 1 p else Ok p
    | _ => Ok p
    end.

Definition count_reservation (wallet : PeerId) (p : ReputationProfile) (r : Reservation) : reading ReputationProfile :=
  if decide (rv_requester r = wallet ∧ rv_state r = ReservationState.Expired) then bump rf_reservations_missed 1 p else Ok p.

Definition profile (n : node) (wallet : PeerId) : reading ReputationProfile :=
  p ← foldM (count_settlement wallet) (all_settlements n) (empty_profile wallet);
  p ← foldM (count_dispute wallet) (all_disputes n) p;
  foldM (count_reservation wallet) (all_reservations n) p.

(** ** Trades *)

Module TradeStatus.
Inductive t := EscrowLocked | AwaitingPayment | PaymentSubmitted | Completed | Rejected | Cancelled | Disputed.
End TradeStatus.

Record TradeOf := mkTradeOf { tr_reservation : Reservation; tr_settlement : option Settlement }.

Definition status (t : TradeOf) : TradeStatus.t :=
  match tr_settlement t with
  | Some s =>
      match sm_state s with
      | SettlementState.AwaitingPayment => TradeStatus.AwaitingPayment
      | SettlementState.PaymentSubmitted => TradeStatus.PaymentSubmitted
      | SettlementState.Approved | SettlementState.Completed => TradeStatus.Completed
      | SettlementState.Rejected => TradeStatus.Rejected
      | SettlementState.Cancelled => TradeStatus.Cancelled
      | SettlementState.Disputed => TradeStatus.Disputed
      end
  | None =>
      match rv_state (tr_reservation t) with
      | ReservationState.EscrowLocked | ReservationState.Settling => TradeStatus.EscrowLocked
      | ReservationState.Settled => TradeStatus.Completed
      | ReservationState.Cancelled | ReservationState.Expired => TradeStatus.Cancelled
      end
  end.

(** The first settlement, in key order, of the reservation. *)
Definition settlement_for (id : string) (l : list Settlement) : option Settlement :=
  snd <$> list_find (λ s, sm_reservation_id s = id) l.

Definition get_trade (n : node) (id : string) : option TradeOf :=
  r ← nd_reservations n !! id; Some (mkTradeOf r (settlement_for id (all_settlements n))).

Definition all_trades (n : node) : list TradeOf :=
  (λ r, mkTradeOf r (settlement_for (rv_id r) (all_settlements n))) <$> all_reservations n.

(** ** Counterparties *)

Record CounterpartySummary := mkSummary {
  cy_counterparty : PeerId;
  cy_trades : Z;
  cy_in_progress : Z;
  cy_abandoned : Z;
  cy_disputed : Z;
  cy_last_traded_at : option Timestamp;
}.
#[export] Instance CounterpartySummary_eta : Settable CounterpartySummary := fun r =>
  mkSummary (cy_counterparty r) (cy_trades r) (cy_in_progress r) (cy_abandoned r) (cy_disputed r) (cy_last_traded_at r).

Definition empty_summary (c : PeerId) : CounterpartySummary := mkSummary c 0 0 0 0 None.

Definition settlements_of (c : CounterpartySummary) : reading Z :=
  a ← or_panic u32 (cy_trades c + cy_in_progress c); or_panic u32 (a + cy_abandoned c).

Definition record (c : CounterpartySummary) (s : Settlement) : reading CounterpartySummary :=
  c ← match sm_state s with
      | SettlementState.Approved | SettlementState.Completed =>
          k ← or_panic u32 (cy_trades c + 1);
          let concluded_at := default (sm_updated_at s) (sm_merchant_responded_at s) in
          Ok (c <| cy_trades := k |>
                <| cy_last_traded_at := Some (from_option (λ previous, Z.max previous concluded_at) concluded_at
                                               (cy_last_traded_at c)) |>)
      | SettlementState.AwaitingPayment | SettlementState.PaymentSubmitted | SettlementState.Disputed =>
          k ← or_panic u32 (cy_in_progress c + 1); Ok (c <| cy_in_progress := k |>)
      | SettlementState.Rejected | SettlementState.Cancelled =>
          k ← or_panic u32 (cy_abandoned c + 1); Ok (c <| cy_abandoned := k |>)
      end;
  if decide (is_Some (sm_disputed_at s)) then k ← or_panic u32 (cy_disputed c + 1); Ok (c <| cy_disputed := k |>) else Ok c.

Definition counterparty_of (s : Settlement) (wallet : PeerId) : option PeerId :=
  if decide (sm_buyer s = sm_seller s) then None
  else if decide (sm_buyer s = wallet) then Some (sm_seller s)
  else if decide (sm_seller s = wallet) then Some (sm_buyer s)
  else None.

(** Most trades first, then the latest, then by the peer's bytes. *)
Definition rank_le (a b : CounterpartySummary) : Prop :=
  cy_trades b < cy_trades a ∨
  cy_trades a = cy_trades b ∧
    (default 0 (cy_last_traded_at b) < default 0 (cy_last_traded_at a) ∨
     default 0 (cy_last_traded_at a) = default 0 (cy_last_traded_at b) ∧ bytes_le (cy_counterparty a) (cy_counterparty b)).
#[export] Instance rank_le_dec a b : Decision (rank_le a b).
Proof. unfold rank_le. apply _. Defined.

Definition by_counterparty_step (wallet : PeerId) (m : gmap PeerId CounterpartySummary) (s : Settlement) :
    reading (gmap PeerId CounterpartySummary) :=
  match counterparty_of s wallet with
  | None => Ok m
  | Some c => x ← record (default (empty_summary c) (m !! c)) s; Ok (<[c := x]> m)
  end.

Definition counterparties (n : node) (wallet : PeerId) : reading (list CounterpartySummary) :=
  m ← foldM (by_counterparty_step wallet) (all_settlements n) ∅;
  Ok (merge_sort rank_le (map_to_list m).*2).

Definition pair_step (wallet c : PeerId) (x : CounterpartySummary) (s : Settlement) : reading CounterpartySummary :=
  if decide (counterparty_of s wallet = Some c) then record x s else Ok x.

Definition pair_summary (n : node) (wallet c : PeerId) : reading CounterpartySummary :=
  if decide (wallet = c) then Ok (empty_summary c)
  else foldM (pair_step wallet c) (all_settlements n) (empty_summary c).

(** ** The two readings of a counterparty agree *)

Lemma counterparty_sym s a b : counterparty_of s a = Some b ↔ counterparty_of s b = Some a.
Proof. unfold counterparty_of. repeat case_decide; naive_solver. Qed.

Lemma counterparty_ne s a b : counterparty_of s a = Some b → a ≠ b.
Proof. unfold counterparty_of. repeat case_decide; naive_solver. Qed.

(** The map holds, for each peer met, the pair's own record. *)
Lemma by_counterparty_pair wallet l m m' c :
  foldM (by_counterparty_step wallet) l m = Ok m' →
  match m' !! c with
  | Some x => foldM (pair_step wallet c) l (default (empty_summary c) (m !! c)) = Ok x ∧
              (m !! c = None → ∃ s, s ∈ l ∧ counterparty_of s wallet = Some c)
  | None => m !! c = None ∧ ∀ s, s ∈ l → counterparty_of s wallet ≠ Some c
  end.
Proof.
  revert m. induction l as [|s l IH]; intros m Hrun; simpl in Hrun.
  { injection Hrun as <-. destruct (m !! c) as [x|] eqn:Hc; [by split|]. split; [done|]. by intros s ?%elem_of_nil. }
  apply bind_Ok in Hrun as (m1 & Hs & Hrun). specialize (IH _ Hrun). unfold by_counterparty_step in Hs. cbn [foldM].
  assert (counterparty_of s wallet = Some c ∧ (∃ x, record (default (empty_summary c) (m !! c)) s = Ok x ∧ m1 !! c = Some x) ∨
    counterparty_of s wallet ≠ Some c ∧ m1 !! c = m !! c) as [[Hcp (x & Hx & Hm1)]|[Hcp Hm1]].
  { destruct (counterparty_of s wallet) as [c'|] eqn:Hcp; [|injection Hs as <-; by right].
    apply bind_Ok in Hs as (x & Hx & [= <-]). destruct (decide (c' = c)) as [->|Hne].
    - left. split; [done|]. exists x. by rewrite lookup_insert_eq.
    - right. split; [congruence|]. by rewrite lookup_insert_ne. }
  - assert (pair_step wallet c (default (empty_summary c) (m !! c)) s = Ok x) as -> by (unfold pair_step; by rewrite decide_True).
    cbn [mbind result_bind]. rewrite Hm1 in IH.
    destruct (m' !! c) as [y|]; [|by destruct IH]. destruct IH as [Hy _]. split; [done|]. intros _. exists s. set_solver.
  - assert (∀ x, pair_step wallet c x s = Ok x) as Hskip by (intros; unfold pair_step; by rewrite decide_False).
    rewrite Hskip. cbn [mbind result_bind]. rewrite Hm1 in IH.
    destruct (m' !! c) as [y|].
    + destruct IH as [Hy Hin]. split; [done|]. intros Hn. destruct (Hin Hn) as (s' & ? & ?). exists s'. set_solver.
    + destruct IH as [Hn Hno]. split; [done|]. intros s' [->|Hs']%elem_of_cons; [done|by apply Hno].
Qed.

(** Renaming the counterparty changes nothing else. *)
Lemma record_renamed c x y s z :
  record x s = Ok y → z = x <| cy_counterparty := c |> → record z s = Ok (y <| cy_counterparty := c |>).
Proof.
  intros Hx ->. unfold record in *. destruct x. simpl in *.
  destruct (sm_state s); simpl in *; apply bind_Ok in Hx as (x1 & H1 & Hx); apply bind_Ok in H1 as (k & Hk & [= <-]);
    rewrite Hk; cbn [mbind result_bind]; simpl in *;
    (case_decide; [apply bind_Ok in Hx as (k2 & Hk2 & [= <-]); rewrite Hk2; done|by injection Hx as <-]).
Qed.

Lemma pair_renamed a b l x y :
  foldM (pair_step a b) l x = Ok y →
  foldM (pair_step b a) l (x <| cy_counterparty := a |>) = Ok (y <| cy_counterparty := a |>).
Proof.
  revert x. induction l as [|s l IH]; intros x Hrun; cbn [foldM] in *; [by injection Hrun as <-|].
  apply bind_Ok in Hrun as (x1 & Hs & Hrun).
  assert (pair_step b a (x <| cy_counterparty := a |>) s = Ok (x1 <| cy_counterparty := a |>)) as ->; [|by apply IH].
  unfold pair_step in *. destruct (decide (counterparty_of s a = Some b)) as [Hc|Hc].
  - rewrite decide_True by (by apply counterparty_sym). by eapply record_renamed.
  - rewrite decide_False by (by rewrite counterparty_sym). by injection Hs as <-.
Qed.

Lemma record_counterparty x s y : record x s = Ok y → cy_counterparty y = cy_counterparty x.
Proof.
  unfold record. intros Hx. apply bind_Ok in Hx as (x1 & H1 & Hx).
  assert (cy_counterparty x1 = cy_counterparty x) as <-
    by (destruct (sm_state s); by apply bind_Ok in H1 as (k & _ & [= <-])).
  case_decide; [by apply bind_Ok in Hx as (k & _ & [= <-])|by injection Hx as <-].
Qed.

Lemma pair_counterparty a b l x y : foldM (pair_step a b) l x = Ok y → cy_counterparty y = cy_counterparty x.
Proof.
  revert x. induction l as [|s l IH]; intros x Hrun; cbn [foldM] in *; [by injection Hrun as <-|].
  apply bind_Ok in Hrun as (x1 & Hs & Hrun). rewrite (IH _ Hrun). unfold pair_step in Hs.
  case_decide; [by eapply record_counterparty|by injection Hs as <-].
Qed.

(** Two traders have one history.  The list of a wallet's counterparties names
    each peer it has traded with once, with the record a reading of that pair
    gives; and the two sides of a pair read the same counts and dates. *)
Theorem counterparties_agree n wallet l :
  counterparties n wallet = Ok l →
  NoDup (cy_counterparty <$> l) ∧
  (∀ x, x ∈ l ↔ pair_summary n wallet (cy_counterparty x) = Ok x ∧
     ∃ s, s ∈ all_settlements n ∧ counterparty_of s wallet = Some (cy_counterparty x)) ∧
  ∀ x, x ∈ l → pair_summary n (cy_counterparty x) wallet = Ok (x <| cy_counterparty := wallet |>).
Proof.
  unfold counterparties. intros Hrun. apply bind_Ok in Hrun as (m & Hm & [= <-]).
  assert (∀ c x, m !! c = Some x → foldM (pair_step wallet c) (all_settlements n) (empty_summary c) = Ok x ∧
    (∃ s, s ∈ all_settlements n ∧ counterparty_of s wallet = Some c) ∧ cy_counterparty x = c) as Hin.
  { intros c x Hx. pose proof (by_counterparty_pair _ _ _ _ c Hm) as Hp. rewrite Hx, lookup_empty in Hp.
    destruct Hp as [Hp Hs]. split_and!; [done|by apply Hs|]. by apply pair_counterparty in Hp. }
  assert (∀ x, x ∈ merge_sort rank_le (map_to_list m).*2 ↔ m !! cy_counterparty x = Some x) as Hl.
  { intros x. rewrite merge_sort_Permutation, list_elem_of_fmap. split.
    - intros ([c y] & -> & Hc%elem_of_map_to_list). simpl. by destruct (Hin _ _ Hc) as (_ & _ & ->).
    - intros Hx. exists (cy_counterparty x, x). by rewrite elem_of_map_to_list. }
  assert (∀ c s, s ∈ all_settlements n → counterparty_of s wallet = Some c → wallet ≠ c) as Hne
    by (intros c s _; apply counterparty_ne).
  split_and!.
  - rewrite merge_sort_Permutation, <-list_fmap_compose.
    erewrite list_fmap_ext; [apply (NoDup_fst_map_to_list m)|]. intros i [c x] Hi%list_elem_of_lookup_2%elem_of_map_to_list.
    simpl. by destruct (Hin _ _ Hi) as (_ & _ & ->).
  - intros x. rewrite Hl. unfold pair_summary. split.
    + intros Hx. destruct (Hin _ _ Hx) as (Hp & (s & Hs & Hc) & _). rewrite decide_False by (by eapply Hne). eauto.
    + intros [Hp (s & Hs & Hc)]. rewrite decide_False in Hp by (by eapply Hne).
      pose proof (by_counterparty_pair _ _ _ _ (cy_counterparty x) Hm) as Hq. rewrite lookup_empty in Hq.
      destruct (m !! cy_counterparty x) as [y|]; [destruct Hq; simpl in *; congruence|]. by destruct (proj2 Hq s Hs).
  - intros x Hx%Hl. destruct (Hin _ _ Hx) as (Hp & (s & Hs & Hc) & _). unfold pair_summary.
    rewrite decide_False by (intros Heq; by eapply Hne). by apply pair_renamed in Hp.
Qed.

(** ** What a profile counts *)

Definition one_if (b : bool) : Z := if b then 1 else 0.

Definition finished (s : Settlement) : bool :=
  match sm_state s with SettlementState.Approved | SettlementState.Completed => true | _ => false end.
Definition called_off (s : Settlement) : bool :=
  match sm_state s with SettlementState.Cancelled | SettlementState.Rejected => true | _ => false end.

Definition asked (wallet : PeerId) (s : Settlement) : bool :=
  bool_decide (sm_seller s = wallet) && bool_decide (is_Some (sm_payment_submitted_at s)).
Definition answered (wallet : PeerId) (s : Settlement) : bool :=
  asked wallet s && bool_decide (is_Some (sm_merchant_responded_at s)).

(** The time the wallet took to answer, as the two signers dated it. *)
Definition latency (wallet : PeerId) (s : Settlement) : Z :=
  match sm_payment_submitted_at s, sm_merchant_responded_at s with
  | Some submitted, Some responded =>
      if decide (sm_seller s = wallet) then saturating_sub_u64 responded submitted else 0
  | _, _ => 0
  end.

Lemma bump_Ok f `{!Setter f} d p p' :
  bump f d p = Ok p' ↔ u64 (f p + d) ∧ p' = set_field f (λ _, f p + d) p.
Proof.
  unfold bump. split.
  - intros Hb. by apply bind_Ok in Hb as (n & [-> ?]%or_panic_Ok & [= <-]).
  - intros [Hu ->]. by rewrite (or_panic_fits u64) by done.
Qed.

(** Read the counters a pass has bumped. *)
Ltac inv_bumps :=
  repeat match goal with
  | Hb : bump _ _ _ = Ok _ |- _ => apply bump_Ok in Hb as [? ->]
  | Hb : Ok _ = Ok _ |- _ => injection Hb as <-
  | Hb : (_ ≫= _) = Ok _ |- _ => apply bind_Ok in Hb as (? & ? & ?)
  | Hb : record_payment_response _ _ = Ok _ |- _ => unfold record_payment_response in Hb
  end.

(** The counters of the settlement pass. *)
Record tally_of := mkTally { ty_started : Z; ty_completed : Z; ty_cancelled : Z; ty_due : Z; ty_made : Z; ty_latency : Z }.

Definition counters (p : ReputationProfile) : tally_of :=
  mkTally (rf_trades_started p) (rf_trades_completed p) (rf_trades_cancelled p) (rf_payment_responses_due p)
    (rf_payment_responses_made p) (rf_response_latency_sum_ms p).

Definition plus (a b : tally_of) : tally_of :=
  mkTally (ty_started a + ty_started b) (ty_completed a + ty_completed b) (ty_cancelled a + ty_cancelled b)
    (ty_due a + ty_due b) (ty_made a + ty_made b) (ty_latency a + ty_latency b).

Definition increments (wallet : PeerId) (s : Settlement) : tally_of :=
  mkTally (one_if (involves wallet s)) (one_if (involves wallet s && finished s))
    (one_if (involves wallet s && called_off s)) (one_if (asked wallet s)) (one_if (answered wallet s)) (latency wallet s).

(** What the settlement pass does not touch, and the bound it keeps. *)
Definition tallied (d : tally_of) (p p' : ReputationProfile) : Prop :=
  counters p' = plus (counters p) d ∧
  (rf_response_latency_sum_ms p ≤ U64_MAX → rf_response_latency_sum_ms p' ≤ U64_MAX) ∧
  rf_disputes_involved p' = rf_disputes_involved p ∧ rf_disputes_lost p' = rf_disputes_lost p.

Lemma plus_0_r a : plus a (mkTally 0 0 0 0 0 0) = a.
Proof. destruct a. unfold plus. simpl. f_equal; lia. Qed.

Lemma tallied_trans d1 d2 p1 p2 p3 : tallied d1 p1 p2 → tallied d2 p2 p3 → tallied (plus d1 d2) p1 p3.
Proof.
  intros (H1 & H1' & Hi1 & Hl1) (H2 & H2' & Hi2 & Hl2). split; [|split_and!; [tauto|congruence..]].
  rewrite H2, H1. destruct (counters p1), d1, d2. unfold plus. simpl. f_equal; lia.
Qed.

Ltac tallied_tac := unfold tallied, counters, plus; simpl in *; split_and!; first [done | f_equal; lia | ilia].

Lemma count_response_tallied wallet s p p' :
  count_response wallet s p = Ok p' →
  tallied (mkTally 0 0 0 (one_if (asked wallet s)) (one_if (answered wallet s)) (latency wallet s)) p p'.
Proof.
  unfold count_response, asked, answered, asked, latency. intros Hrun.
  destruct (sm_payment_submitted_at s) as [t|]; [|rewrite (bool_decide_false (is_Some None)), andb_false_r by (by intros []); inv_bumps; tallied_tac].
  rewrite (bool_decide_true (is_Some (Some t))) by eauto. rewrite andb_true_r.
  destruct (decide (sm_seller s = wallet)) as [Hs|Hs].
  2:{ rewrite bool_decide_false by done. destruct (sm_merchant_responded_at s); inv_bumps; tallied_tac. }
  rewrite bool_decide_true by done. destruct (sm_merchant_responded_at s) as [u|].
  - rewrite bool_decide_true by eauto. inv_bumps. tallied_tac.
  - rewrite bool_decide_false by (by intros []). inv_bumps. tallied_tac.
Qed.

Lemma count_payment_tallied wallet s p p' : count_payment wallet s p = Ok p' → tallied (mkTally 0 0 0 0 0 0) p p'.
Proof. unfold count_payment. intros Hrun. repeat (case_decide; inv_bumps); tallied_tac. Qed.

Lemma count_outcome_tallied s p p' :
  count_outcome s p = Ok p' → tallied (mkTally 0 (one_if (finished s)) (one_if (called_off s)) 0 0 0) p p'.
Proof. unfold count_outcome, finished, called_off. intros Hrun. destruct (sm_state s); inv_bumps; tallied_tac. Qed.

Lemma count_settlement_tallied wallet p s p' : count_settlement wallet p s = Ok p' → tallied (increments wallet s) p p'.
Proof.
  unfold count_settlement, increments. destruct (involves wallet s) eqn:Hinv; intros Hrun.
  - apply bind_Ok in Hrun as (p1 & H1 & Hrun). apply bind_Ok in Hrun as (p2 & H2%count_response_tallied & Hrun).
    apply bind_Ok in Hrun as (p3 & H3%count_payment_tallied & Hrun%count_outcome_tallied).
    apply bump_Ok in H1 as [_ ->].
    assert (tallied (mkTally 1 0 0 0 0 0) p (observe_activity_at (sm_created_at s) (set_field rf_trades_started
      (λ _, rf_trades_started p + 1) p))) as H1 by tallied_tac.
    pose proof (tallied_trans _ _ _ _ _ (tallied_trans _ _ _ _ _ (tallied_trans _ _ _ _ _ H1 H2) H3) Hrun) as Hall.
    unfold plus in Hall. simpl in Hall. rewrite ?Z.add_0_r in Hall. exact Hall.
  - injection Hrun as <-. unfold involves in Hinv. apply orb_false_iff in Hinv as [_ Hs%bool_decide_eq_false].
    assert (asked wallet s = false) as Ha by (unfold asked; by rewrite bool_decide_false).
    assert (latency wallet s = 0) as Hl.
    { unfold latency. destruct (sm_payment_submitted_at s), (sm_merchant_responded_at s); try done. by rewrite decide_False. }
    unfold answered. rewrite Ha, Hl. tallied_tac.
Qed.

Definition total (f : Settlement → Z) (n : node) : Z := sum_list (f <$> all_settlements n).

Lemma settlements_tallied wallet l p p' :
  foldM (count_settlement wallet) l p = Ok p' →
  tallied (foldr (λ s acc, plus (increments wallet s) acc) (mkTally 0 0 0 0 0 0) l) p p'.
Proof.
  revert p. induction l as [|s l IH]; intros p Hrun; simpl in Hrun; [injection Hrun as <-; tallied_tac|].
  apply bind_Ok in Hrun as (p1 & H1%count_settlement_tallied & Hrun). simpl. eapply tallied_trans; eauto.
Qed.

Lemma tally_sums wallet l :
  foldr (λ s acc, plus (increments wallet s) acc) (mkTally 0 0 0 0 0 0) l =
  mkTally (sum_list ((λ s, one_if (involves wallet s)) <$> l)) (sum_list ((λ s, one_if (involves wallet s && finished s)) <$> l))
    (sum_list ((λ s, one_if (involves wallet s && called_off s)) <$> l)) (sum_list ((λ s, one_if (asked wallet s)) <$> l))
    (sum_list ((λ s, one_if (answered wallet s)) <$> l)) (sum_list (latency wallet <$> l)).
Proof. induction l as [|s l IH]; [done|]. cbn [foldr]. by rewrite IH. Qed.

(** The later passes: disputes lost are disputes had, and nothing counted
    before is counted again. *)
Lemma disputes_counted wallet l p p' :
  foldM (count_dispute wallet) l p = Ok p' →
  counters p' = counters p ∧ rf_disputes_lost p' - rf_disputes_lost p ≤ rf_disputes_involved p' - rf_disputes_involved p.
Proof.
  revert p. induction l as [|d l IH]; intros p Hrun; simpl in Hrun; [injection Hrun as <-; split; [done|lia]|].
  apply bind_Ok in Hrun as (p1 & H1 & Hrun). destruct (IH _ Hrun) as [-> Hle].
  enough (counters p1 = counters p ∧ rf_disputes_lost p1 - rf_disputes_lost p ≤ rf_disputes_involved p1 - rf_disputes_involved p)
    as [-> ?] by (split; [done|lia]).
  clear - H1. unfold count_dispute in H1. destruct (negb _ && negb _); inv_bumps; [split; [done|lia]|].
  destruct (dp_resolution d) as [[]|]; try (destruct (bool_decide _)); inv_bumps; unfold counters; simpl; split; (done || lia).
Qed.

Lemma reservations_counted wallet l p p' :
  foldM (count_reservation wallet) l p = Ok p' →
  counters p' = counters p ∧ rf_disputes_lost p' = rf_disputes_lost p ∧ rf_disputes_involved p' = rf_disputes_involved p.
Proof.
  revert p. induction l as [|r l IH]; intros p Hrun; simpl in Hrun; [by injection Hrun as <-|].
  apply bind_Ok in Hrun as (p1 & H1 & Hrun). destruct (IH _ Hrun) as (-> & -> & ->).
  unfold count_reservation in H1. case_decide; by inv_bumps.
Qed.

Lemma sum_list_le {A} (f g : A → Z) l : (∀ x, f x ≤ g x) → sum_list (f <$> l) ≤ sum_list (g <$> l).
Proof. intros Hfg. induction l as [|x l IH]; [done|]. rewrite !fmap_cons, !sum_list_cons. specialize (Hfg x). lia. Qed.

(** A profile counts each trade once.  A reading that succeeds counts every
    settlement the wallet is a party to, each as completed, called off or still
    open; the answers it gave are among those it was asked for, the disputes it
    lost among those it had, and its response time is the sum of the answers'. *)
Theorem profile_counts n wallet p :
  profile n wallet = Ok p →
  rf_trades_started p = total (λ s, one_if (involves wallet s)) n ∧
  rf_trades_completed p = total (λ s, one_if (involves wallet s && finished s)) n ∧
  rf_trades_cancelled p = total (λ s, one_if (involves wallet s && called_off s)) n ∧
  rf_trades_completed p + rf_trades_cancelled p ≤ rf_trades_started p ∧
  rf_payment_responses_made p ≤ rf_payment_responses_due p ∧
  rf_disputes_lost p ≤ rf_disputes_involved p ∧
  rf_response_latency_sum_ms p = total (latency wallet) n ∧ total (latency wallet) n ≤ U64_MAX.
Proof.
  unfold profile. intros Hrun. apply bind_Ok in Hrun as (p1 & H1%settlements_tallied & Hrun).
  apply bind_Ok in Hrun as (p2 & [H2 Hlost]%disputes_counted & (H3 & Hl3 & Hi3)%reservations_counted).
  destruct H1 as (H1 & Hu & Hi & Hl). rewrite tally_sums in H1. rewrite H1 in H2. rewrite H2 in H3.
  unfold counters, plus in H3. simpl in H3. injection H3 as Hs Hc Hx Hd Hm Hlat.
  unfold counters, plus in H1. simpl in H1. injection H1 as _ _ _ _ _ Hlat1. unfold total.
  specialize (Hu ltac:(simpl; ilia)). simpl in *. split_and!; try done.
  - rewrite Hs, Hc, Hx. clear. induction (all_settlements n) as [|s l IH]; [done|]. rewrite !fmap_cons, !sum_list_cons.
    assert (one_if (involves wallet s && finished s) + one_if (involves wallet s && called_off s) ≤ one_if (involves wallet s)); [|lia].
    unfold finished, called_off. destruct (involves wallet s), (sm_state s); simpl; lia.
  - rewrite Hd, Hm. apply sum_list_le. intros s. unfold answered. destruct (asked wallet s), (bool_decide _); simpl; lia.
  - rewrite Hl3, Hi3. lia.
  - lia.
Qed.

(** C40: a profile that cannot be read.  The dates of a payment and of its answer are
    whatever the two signers wrote; when a wallet's answers add up past the
    counter's width, every reading of its profile aborts. *)
Theorem reputation_read_aborts n wallet :
  U64_MAX < total (latency wallet) n → ∀ p, profile n wallet ≠ Ok p.
Proof. intros Hlt p Hp. apply profile_counts in Hp. lia. Qed.
