(* ===== verification/NodeScenario.v ===== *)
(** * NodeScenario: the node's other components, evaluated

    The witnesses of [IdentityTheorems], [ChannelTheorems], [GossipTheorems],
    [GossipFlow], [Reviews], [Sessions], [ServiceRegistry], [Oracles], [Evidence]
    and [Standing], a module for each group. *)

From stdpp Require Import sorting.
From S2P Require Import Prelude Runtime Peers Pricing Statements Offers MarketState.
From S2P Require Import Reservations Settlements Cases Market LiquidityInv DisputeBook MarketTheorems MarketScenario.
From S2P Require Import Cid Identity IdentityTheorems TradeChannel ChannelTheorems Gossip GossipTheorems GossipFlow.
From S2P Require Import Reviews Sessions ServiceRegistry Oracles Evidence Standing.

(** A key published, revoked and swept. *)
Module Identities.
Import Identity IdentityTheorems Ident IdentityError.

#[local] Instance claim_wire : Wire := {|
  verify key _ sig := bool_decide (sig = key);
  peer_id_from_public_key key := Some key;
  base58 _ := EmptyString;
  json _ := Some [];
  digest m := m;
|}.

#[local] Instance any_key : KeyParser := λ s, if decide (s = EmptyString) then None else Some (bytes_of s).

Definition alice : PeerId := [1].
Definition mallory : PeerId := [9].
Definition week : Z := CLAIM_RETENTION.

Definition key_claim (id value : string) (who : PeerId) (old : option string) (t : Timestamp) : signed ClaimPublish :=
  mkSigned (mkClaimPublish id who who EncryptionKey value false old None t) who.

Definition published : claims := identity_apply_event 1000 (ClaimCreated (key_claim "k" "first" alice None 1000)) ∅.
Definition revoked : claims :=
  identity_apply_event 2000 (ClaimRevoked (mkSigned (mkClaimRevoke "k" alice 2000) alice)) published.

Definition first_key (gone : bool) : Claim :=
  mkClaim "k" alice alice EncryptionKey "first" Unverified None None gone 1000 (if gone then 2000 else 1000).

Lemma published_only c k : published !! k = Some c → c = first_key false ∧ k = "k"%string.
Proof.
  change published with (<["k"%string := first_key false]> (∅ : claims)). intros Hk.
  destruct (decide (k = "k"%string)) as [->|]; simplify_map_eq. done.
Qed.

Lemma published_keyed : claims_keyed published.
Proof. intros id c Hc. by apply published_only in Hc as [-> ->]. Qed.

Lemma revoked_keyed : claims_keyed revoked.
Proof.
  change revoked with (<["k"%string := first_key true]> published). intros id c Hc.
  destruct (decide (id = "k"%string)) as [->|]; simplify_map_eq; [done|by apply published_keyed].
Qed.

Lemma published_reachable : identity_reachable (1000, published).
Proof.
  exists 0. eapply steps_snoc; [apply steps_refl|]. apply (identity_hears 0 1000 _ ∅). lia.
Qed.

(** A second key, published and revoked. *)
Definition second_thoughts : list (Timestamp * identity_event) :=
  [(1200, ClaimCreated (key_claim "k2" "second" alice None 1200));
   (1300, ClaimRevoked (mkSigned (mkClaimRevoke "k2" alice 1300) alice))].

Lemma sealed_to_the_wallets_key_witness :
  let m := hear_all second_thoughts published in
  is_Some (m !! "k2"%string) ∧ encryption_key alice 1500 m = Some (bytes_of "first") ∧
  ∃ c, holds_key alice m c ∧ said_by_wallet c ∧ encryption_key_parse (cl_value c) = Some (bytes_of "first") ∧
    ∀ d, holds_key alice m d → cl_created_at d ≤ cl_created_at c ∨ out_of_force 1500 m d.
Proof.
  intros m. split; [by eexists|].
  assert (encryption_key alice 1500 m = Some (bytes_of "first")) as Hk by (by vm_compute).
  split; [exact Hk|].
  pose proof (sealed_to_the_wallets_key 1000 published second_thoughts alice 1500 published_reachable) as Hthm.
  cbv zeta in Hthm. fold m in Hthm. rewrite Hk in Hthm. destruct Hthm as (c & H1 & H2 & H3 & _ & _ & _ & H4).
  exists c. split; [exact H1|]. split; [exact H2|]. split; [exact H3|exact H4].
Defined.

Lemma claims_capped_witness :
  steps hears (0, ∅) (1000, published) ∧
  (size (live_claim_ids alice 1500%Z published) ≤ MAX_CLAIMS_PER_WALLET)%nat.
Proof.
  assert (steps hears (0, ∅) (1000, published)) as Hs.
  { eapply steps_snoc; [apply steps_refl|]. exists 1000, (ClaimCreated (key_claim "k" "first" alice None 1000)).
    split; [cbn; lia|reflexivity]. }
  split; [exact Hs|]. apply (claims_capped 0 1000 published alice 1500 Hs). lia.
Defined.

(** A week later a stranger names the claim. *)
Definition naming : signed ClaimPublish := key_claim "m" "other" mallory (Some "k"%string) (1000 + week).

Lemma stranger_deletes_claim_witness :
  is_Some (published !! "k"%string) ∧
  ∃ m', apply_publish (1000 + week) naming published = Ok m' ∧
    "k"%string ∈ live_claim_ids alice (1000 + week) m' ∧ prune (1000 + week) m' !! "k"%string = None.
Proof.
  split; [by eexists|].
  destruct (apply_publish (1000 + week) naming published) as [m'|] eqn:Hrun; [|by vm_compute in Hrun].
  exists m'. split; [reflexivity|].
  apply (stranger_deletes_claim (1000 + week) naming published m' (first_key false)).
  - exact published_keyed.
  - reflexivity.
  - apply (bool_decide_unpack _). by vm_compute.
  - by vm_compute.
  - discriminate.
  - reflexivity.
  - exact Hrun.
Defined.

Lemma revoked_claim_returns_witness :
  let x := key_claim "k" "first" alice None 1000 in
  apply_publish (2000 + week) x revoked = Err (Code DuplicateClaimId) ∧
  ∃ m' c', apply_publish (2000 + week) x (prune (2000 + week) revoked) = Ok m' ∧ m' !! "k"%string = Some c' ∧
    is_valid (2000 + week) c' ∧ cl_value c' = "first"%string.
Proof.
  intros x. apply (revoked_claim_returns (2000 + week) x revoked (first_key true)).
  - exact revoked_keyed.
  - reflexivity.
  - reflexivity.
  - by vm_compute.
  - reflexivity.
  - exists (preimage_raw (tag_of (StClaimPublish (payload x))) []). split; [reflexivity|]. by vm_compute.
  - reflexivity.
  - reflexivity.
  - reflexivity.
  - apply (bool_decide_unpack _). by vm_compute.
Defined.
End Identities.

(** The trade of [MarketScenario] with a key handed to each party and to an
    arbitrator, and a message posted twice. *)
Module Conversations.
Import Chan TradeChannelError.

(** ** A cipher to compute with *)

(** The tag is the associated data as one number, and fifteen zeros. *)
Definition tag (a : list Z) : list Z := Z.pos (encode a) :: replicate 15 0.
#[local] Instance toy_aead : Aead := {|
  encrypt _ _ m a := Some (tag a ++ m);
  decrypt _ _ c a := if decide (take 16 c = tag a) then Some (drop 16 c) else None;
|}.

#[local] Instance channel_hashing : Hashing.
Proof.
  refine {| sha256 _ := replicate 32 0; key_bytes _ := replicate 32 0 |}; [done| |done].
  intros _. apply (bool_decide_unpack _). by vm_compute.
Defined.

Definition here : EntryBinding := mkBinding "s" taker 0 Message.

Lemma toy_opens k n m a a' : is_Some (decrypt k n (tag a ++ m) a') → a' = a.
Proof.
  intros [m' Hd]. cbn in Hd. case_decide as Heq; [|done]. injection Heq as Heq. by apply (inj encode) in Heq.
Qed.

(** Under this cipher the payload opens nowhere else. *)
Lemma sealed_entry_opens_witness :
  ∃ c, seal_entry [] [] here (bytes_of "hello") = Ok c ∧ open_entry [] here c = Ok (bytes_of "hello") ∧
    Z.of_nat (length (cc_ciphertext c)) = 272 ∧
    ∀ b' pt', binding_sized b' → b' ≠ here → open_entry [] b' c ≠ Ok pt'.
Proof.
  destruct (sealed_entry_opens) with (key := @nil Z) (nonce := @nil Z) (b := here) (pt := bytes_of "hello")
    as (c & Hseal & Hopen & _ & Hlen & Helse).
  - intros k n m a. by eexists.
  - intros k n m a c [= <-]. cbn. lia.
  - intros k n m a c [= <-]. cbn. by rewrite decide_True.
  - by vm_compute.
  - split; by vm_compute.
  - exists c. split; [exact Hseal|]. split; [exact Hopen|]. split; [exact Hlen|].
    intros b' pt' Hb' Hne Hrun. destruct (Helse b' pt' Hb' Hne Hrun) as (Ht & Hc & Hd).
    injection Hc as Hc. rewrite <-Hc in Hd. by apply toy_opens in Hd.
Defined.

(** ** The conversation *)

Abbreviation heard := (list channel_event).

Definition none : channels := mkChannels ∅ ∅.

Definition hearing (n : node) (l : heard) (ch : channels) : channels :=
  foldl (λ ch e, channel_apply_event n e ch) ch l.

#[local] Instance typed_dec e : Decision (channel_event_typed e).
Proof. destruct e; cbn; unfold short, u64; apply _. Defined.

Lemma hearing_steps n l ch : Forall channel_event_typed l → steps channel_step (n, ch) (n, hearing n l ch).
Proof.
  revert ch. induction l as [|e l IH]; intros ch Ht; [apply steps_refl|]. apply Forall_cons in Ht as [He Ht].
  cbn. eapply steps_trans; [|by apply IH]. apply steps_one. by apply channel_hears.
Qed.

Lemma trading_steps n n' ch : steps market_step n n' → steps channel_step (n, ch) (n', ch).
Proof.
  induction 1 as [|w1 w2 w3 Hs IH Hstep]; [apply steps_refl|]. eapply steps_snoc; [done|]. by apply channel_market.
Qed.

Lemma heard_reachable l h :
  bool_decide (Forall (λ te, event_typed te.2) l) && is_ok l && bool_decide (Forall channel_event_typed h) = true →
  channel_reachable (after l, hearing (after l) h none).
Proof.
  intros [Hl Hh%bool_decide_eq_true]%andb_true_iff. eapply steps_trans; [|by apply hearing_steps].
  apply trading_steps. by apply after_reachable.
Qed.

Definition sealed : SealedBox := mkSealedBox [] [] [].

Definition hand (granter recipient : PeerId) : channel_event :=
  TradeChannelKeyGranted (mkSigned (mkKeyGrantEvent "s" granter recipient [] sealed 3500) granter).

Definition says (t : Timestamp) : signed TradeChannelEntryPost :=
  mkSigned (mkEntryPost "s" taker 0 Message (mkChannelCiphertext [] [] []) t) taker.

Definition opened_case : timed := disputed ++ (join <$> arbitrators).
Definition keys : heard := [hand taker merchant; hand merchant [5]; hand stranger stranger; hand taker stranger].

Lemma channel_readers_permitted_witness :
  let n := after opened_case in
  let ch := hearing n keys none in
  is_reader (channel "s" ch) [5] = true ∧ is_reader (channel "s" ch) stranger = false ∧
  ∃ s granter key e sig, nd_settlements n !! "s"%string = Some s ∧ deal_signed s ∧ may_read n "s" s [5] ∧
    is_party s granter key ∧ signed_by key (StTradeChannelKeyGrant e) sig ∧
    kg_settlement_id e = "s"%string ∧ kg_granter e = granter ∧ kg_recipient e = [5].
Proof.
  intros n ch. assert (is_reader (channel "s" ch) [5] = true) as Hin by evaluate.
  split; [exact Hin|]. split; [evaluate|].
  apply (channel_readers_permitted n ch "s" [5]); [apply heard_reachable; evaluate|by vm_compute|exact Hin].
Defined.

Definition said : ChannelEntry := stored (payload (says 4000)).

Lemma conversation_append_only_witness :
  let n := after settling in
  let ch := hearing n [TradeChannelEntryPosted (says 4000)] none in
  let ch' := hearing n [TradeChannelEntryPosted (says 4001)] ch in
  (∃ s key e sig, nd_settlements n !! "s"%string = Some s ∧ deal_signed s ∧ is_party s (ce_author said) key ∧
     signed_by key (StTradeChannelEntryPost e) sig ∧
     said = mkChannelEntry (ep_settlement_id e) (ep_author e) (ep_sequence e) (ep_kind e) (ep_payload e) (ep_timestamp e)) ∧
  Z.of_nat (length (cc_ciphertext (ce_payload said))) ≤ MAX_ENTRY_CIPHERTEXT ∧
  said ∈ tc_entries (channel "s" ch') ∧
  ∀ c', c' ∈ tc_entries (channel "s" ch') → ce_author c' = ce_author said → ce_sequence c' = ce_sequence said → c' = said.
Proof.
  intros n ch ch'. apply (conversation_append_only n ch n ch' "s" said).
  - apply heard_reachable. evaluate.
  - apply hearing_steps. apply (bool_decide_unpack _). by vm_compute.
  - by vm_compute.
  - apply (bool_decide_unpack _). by vm_compute.
Defined.

Lemma equivocation_splits_nodes_witness :
  let n := after settling in
  ∃ chx chy, apply_entry n (says 4000) none = Ok chx ∧ apply_entry n (says 4001) none = Ok chy ∧
    apply_entry n (says 4001) chx = Err (Code SequenceReused) ∧
    apply_entry n (says 4000) chy = Err (Code SequenceReused) ∧
    ∃ a b, ch_entries chx !! entry_key "s" taker 0 = Some a ∧ ch_entries chy !! entry_key "s" taker 0 = Some b ∧ a ≠ b.
Proof.
  intros n. pose (chx := hearing n [TradeChannelEntryPosted (says 4000)] none).
  pose (chy := hearing n [TradeChannelEntryPosted (says 4001)] none).
  assert (apply_entry n (says 4000) none = Ok chx) as Hx by evaluate.
  assert (apply_entry n (says 4001) none = Ok chy) as Hy by evaluate.
  exists chx, chy. split; [exact Hx|]. split; [exact Hy|].
  apply (equivocation_splits_nodes n none (says 4000) (says 4001) chx chy n chx n chy).
  - apply (heard_reachable settling []). evaluate.
  - apply (bool_decide_unpack _). by vm_compute.
  - apply (bool_decide_unpack _). by vm_compute.
  - done.
  - done.
  - done.
  - done.
  - done.
  - exact Hx.
  - exact Hy.
  - apply steps_refl.
  - apply steps_refl.
Defined.
End Conversations.

(** A small network. *)
Module Network.

(** A signature is the key and the end of the message; a peer id carries its key
    after six bytes. *)
Definition ending (m : list Z) : list Z := take 32 (reverse m ++ replicate 32 0).

#[local] Instance gossip_wire : Wire := {|
  verify key m sig := bool_decide (length sig = 64%nat ∧ sig = key ++ ending m);
  peer_id_from_public_key key := Some ([0; 36; 8; 1; 18; 32] ++ key);
  base58 _ := EmptyString;
  json _ := Some [];
  digest m := m;
|}.

#[local] Instance gossip_transport : Transport := {|
  libp2p_key p := if decide (take 6 p = [0; 36; 8; 1; 18; 32]) then Some (drop 6 p) else None;
  wire_size e := Z.of_nat (length (ev_payload e));
|}.

Definition key_of (b : Z) : PublicKey := replicate 32 b.
Definition peer_of (b : Z) : PeerId := [0; 36; 8; 1; 18; 32] ++ key_of b.
Definition signs (b : Z) (m : list Z) : Signature := key_of b ++ ending m.

Lemma signs_good b m : verify (key_of b) m (signs b m) = true.
Proof.
  apply bool_decide_eq_true_2. split; [|done]. unfold signs, key_of, ending.
  rewrite length_app, length_take, length_app, !length_replicate. lia.
Qed.

Definition says (b : Z) (t : Timestamp) (ttl : Z) (payload : list Z) : EventEnvelope :=
  let sig := signs b (signable_bytes "Said" 2100 (peer_of b) t payload) in
  mkEventEnvelope (compute "Said" payload t (peer_of b) sig) "Said" 2100 1 (peer_of b) t ttl TradeEscrow
    sig payload.

Definition fresh : gossip := new_gossip (peer_of 1) [FullNode] All 500 ∅.
Definition linked : gossip := (handle_lifecycle (ConnectionEstablished (peer_of 3)) fresh).1.
Definition always (_ : EventEnvelope) : bool := true.

Definition hello : EventEnvelope := says 2 1000 8 [7].

Definition push_of (e : EventEnvelope) : gossip_event := Requested 1000 0 (peer_of 2) (GossipPush (Some e)).
Definition taken (e : EventEnvelope) (g : gossip) : gossip := (handle (signs 1) always (push_of e) g).1.

Lemma hears_push g l g1 e l' :
  hears (signs 1) g l g1 → notified (handle (signs 1) always (push_of e) g1).2 = l' →
  hears (signs 1) g (l ++ l') (taken e g1).
Proof. intros Hh <-. eapply (hears_event _ _ _ _ always (push_of e)); [done|by intros []|apply surjective_pairing]. Qed.

Lemma heard_once_witness :
  hears (signs 1) fresh [hello] (taken hello (taken hello fresh)) ∧
  NoDup (ev_id <$> [hello]) ∧
  ∀ e, e ∈ [hello] → gs_store fresh !! ev_id e = None ∧ is_Some (gs_store (taken hello (taken hello fresh)) !! ev_id e).
Proof.
  assert (hears (signs 1) fresh [hello] (taken hello (taken hello fresh))) as Hrun.
  { apply (hears_push fresh [hello] (taken hello fresh) hello []); [|by vm_compute].
    apply (hears_push fresh [] fresh hello [hello]); [constructor|by vm_compute]. }
  split; [exact Hrun|]. exact (heard_once (signs 1) _ _ _ Hrun).
Defined.

Lemma log_is_authentic_witness :
  gs_store (taken hello fresh) !! ev_id hello = Some hello ∧ ev_id hello = ev_id hello ∧ authentic hello.
Proof.
  assert (gs_store (taken hello fresh) !! ev_id hello = Some hello) as Hl by (by vm_compute).
  split; [exact Hl|]. eapply (log_is_authentic (peer_of 1) (key_of 1) (signs 1)); [done|by intros m; apply signs_good|..|exact Hl].
  apply steps_one. eapply gossip_handles. apply surjective_pairing.
Defined.

Definition days (n : Z) : Timestamp := n * 24 * 60 * 60 * 1000.

Lemma old_event_heard_again_witness :
  let g' := poll_gossip_pruning (days 10) (taken hello fresh) in
  ∃ g'' out, receive_event always (days 10) 0 (Some (peer_of 9)) hello g' = (Stored, g'', out) ∧
    clamped hello ∈ notified out ∧ gs_store (poll_gossip_pruning (days 10) g'') !! ev_id hello = None.
Proof.
  apply (old_event_heard_again always (days 10) 0 (peer_of 9) hello (taken hello fresh)); by vm_compute.
Defined.

Definition lowered : EventEnvelope := says 2 1000 1 [7].

Lemma one_id_one_event_witness :
  hello ≠ lowered ∧ content hello = content lowered ∧ ev_signature hello = ev_signature lowered.
Proof.
  split; [by vm_compute|].
  destruct (one_id_one_event) with (e := hello) (e' := lowered) as [Hsame|[[Hne _]|[Hne _]]].
  - by intros key m sig [? _]%bool_decide_eq_true.
  - split_and!; [done|by vm_compute|]. exists (key_of 2). split; by vm_compute.
  - split_and!; [done|by vm_compute|]. exists (key_of 2). split; by vm_compute.
  - split; [done|by exists (key_of 2)|done|done].
  - split; [done|by exists (key_of 2)|done|done].
  - done.
  - exact Hsame.
  - exfalso. apply Hne. reflexivity.
  - exfalso. apply Hne. reflexivity.
Defined.

Lemma lowered_budget_silences_witness :
  ∃ g' out, receive_event always 1000 0 (Some (peer_of 2)) lowered linked = (Stored, g', out) ∧ pushed out = [] ∧
    receive_event always 1000 0 (Some (peer_of 2)) hello g' = (Duplicate, g', []).
Proof.
  destruct (receive_event always 1000 0 (Some (peer_of 2)) lowered linked) as [[r g'] out] eqn:Hrun.
  assert (r = Stored) as Hr.
  { change r with (r, g', out).1.1. rewrite <-Hrun. by vm_compute. }
  rewrite Hr in Hrun. exists g', out. rewrite Hr. split; [done|].
  apply (lowered_budget_silences (signs 1) always 1000 0 (Some (peer_of 2)) lowered linked g' out [] g' always 1000 0
    (Some (peer_of 2)) hello Hrun); [by vm_compute|constructor|done].
Defined.

Definition pair_of_nodes : gmap PeerId gossip := {[ peer_of 1 := linked ]}.

Lemma floods_die_out_witness :
  ∃ s', nsteps delivery 1 (pair_of_nodes, [(peer_of 2, peer_of 1, hello)]) s' ∧ (1 ≤ length [(peer_of 2, peer_of 1, hello)] * (1 + 1) ^ 16)%nat.
Proof.
  destruct (receive_event always 1000 0 (Some (peer_of 2)) hello linked) as [[r g'] out] eqn:Hrun.
  eexists. assert (nsteps delivery 1 (pair_of_nodes, [(peer_of 2, peer_of 1, hello)])
    (<[peer_of 1 := g']> pair_of_nodes, [] ++ [] ++ ((λ pe : PeerId * EventEnvelope, (peer_of 1, pe.1, pe.2)) <$> pushed out))) as Hstep.
  { eapply nsteps_l; [|constructor]. eapply (delivered pair_of_nodes [] []); [by vm_compute|exact Hrun]. }
  split; [exact Hstep|]. eapply (floods_die_out 1 pair_of_nodes); [|exact Hstep].
  apply map_Forall_singleton. apply (bool_decide_unpack _). by vm_compute.
Defined.

Definition backlog : list EventEnvelope := (λ i, says 2 1000 8 [i]) <$> seqZ 0 1200.

Lemma says_accepted i :
  gs_store fresh !! ev_id (says 2 1000 8 [i]) = None ∧ validate 1000 (says 2 1000 8 [i]) fresh = Ok () ∧
  is_impostor (says 2 1000 8 [i]) fresh = false.
Proof.
  split_and!; [done| |done]. unfold validate, matches. simpl ev_id.
  rewrite (bool_decide_eq_true_2 (compute _ _ _ _ _ = _)) by done.
  assert (verify (key_of 2) (signable (says 2 1000 8 [i])) (ev_signature (says 2 1000 8 [i])) = true) as Hv
    by apply signs_good.
  cbn [ev_version says ev_timestamp ev_origin]. rewrite !require_true by (done || by vm_compute).
  assert (origin_key (peer_of 2) fresh = Some (key_of 2)) as -> by (by vm_compute). cbn [ok_or mbind result_bind].
  rewrite (require_true (verify _ _ _ = true)) by exact Hv. by apply require_Ok.
Qed.

Lemma backlog_welcome : welcome 1000 fresh backlog.
Proof.
  split.
  - unfold backlog. rewrite <- list_fmap_compose. apply NoDup_fmap_2; [|apply NoDup_seqZ].
    intros i j Heq. apply (app_inv_head (bytes_of "Said")) in Heq. by injection Heq.
  - intros e (i & -> & _)%list_elem_of_fmap. apply says_accepted.
Qed.

Lemma long_recovery_disconnects_witness :
  let '(g', out) := on_response always 1000 0 (peer_of 2) (GossipRecoveryResponse (Some backlog)) fresh in
  notified out = clamped <$> take 200 backlog ∧ GracefulDisconnect (peer_of 2) ∈ out.
Proof.
  destruct (on_response always 1000 0 (peer_of 2) (GossipRecoveryResponse (Some backlog)) fresh) as [g' out] eqn:Hrun.
  destruct (long_recovery_disconnects always 1000 0 (peer_of 2) backlog fresh g' out) as [Hn Hd].
  - done.
  - apply backlog_welcome.
  - exact Hrun.
  - split; [exact Hn|]. apply Hd. unfold backlog. rewrite length_fmap, length_seqZ. lia.
Defined.

Lemma recovery_serves_the_front_witness :
  let log := all_for_subscription All (taken hello fresh) in
  recoverable_for All (taken hello fresh) ⊆ log ∧
  sizes (recoverable_for All (taken hello fresh)) ≤ RECOVERY_RESPONSE_BUDGET_BYTES ∧
  (sizes log ≤ RECOVERY_RESPONSE_BUDGET_BYTES → recoverable_for All (taken hello fresh) ≡ₚ log) ∧
  ∀ e, RECOVERY_RESPONSE_BUDGET_BYTES < sizes (older e log) → e ∉ recoverable_for All (taken hello fresh).
Proof. apply (recovery_serves_the_front). intros e. cbn. lia. Defined.
End Network.

(** Two reviews of a trade, and a session. *)
Module Opinions.
Import Rev Sess.

(** Base58 as a tally, the number of strokes an encoding of the bytes. *)
Definition tally (b : list Z) : string :=
  String.string_of_list_ascii (replicate (Pos.to_nat (encode b)) (Ascii.ascii_of_N 65)).

Lemma bytes_of_tally b : bytes_of (tally b) = replicate (Pos.to_nat (encode b)) 65.
Proof. unfold bytes_of, tally. by rewrite String.list_ascii_of_string_of_list_ascii, fmap_replicate. Qed.

#[local] Instance review_wire : Wire := {|
  verify key _ sig := bool_decide (sig = key);
  peer_id_from_public_key key := Some key;
  base58 := tally;
  json _ := Some [];
  digest m := m;
|}.

#[local] Instance encoded_reviews : ReviewWire := λ r,
  [Z.pos (encode (rw_settlement r, rw_author r, rw_author_public_key r, stars (rw_rating r), rw_comment r,
                  rw_created_at r))].

Lemma encoded_inj r r' : review_bytes r = review_bytes r' → r = r'.
Proof.
  unfold review_bytes, encoded_reviews. intros [= Heq%(inj encode)]. destruct r as [? ? ? [] ? ?], r' as [? ? ? [] ? ?];
    cbn in Heq; by simplify_eq.
Qed.

Lemma tally_inj p p' : base58 p = base58 p' → p = p'.
Proof.
  intros Heq%(f_equal bytes_of). change base58 with tally in Heq. rewrite !bytes_of_tally in Heq. apply (f_equal length) in Heq.
  rewrite !length_replicate in Heq. apply Pos2Nat.inj in Heq. by apply (inj encode).
Qed.

Lemma tally_colon p : 58 ∉ bytes_of (base58 p).
Proof. change base58 with tally. rewrite bytes_of_tally. intros [? _]%elem_of_replicate. done. Qed.

Definition buyer : PeerId := [1].
Definition seller : PeerId := [2].

Definition opinion (who : PeerId) (r : Rating) (t : Timestamp) : signed Review := mkSigned (mkReview "s" who who r [] t) who.

Definition trade : Settlement :=
  mkSettlement "s" "r" buyer buyer seller seller (mkAmount 100 6) SettlementState.Approved None None None None None None 0 0.
Definition traded : node := mkNode ∅ ∅ {["s"%string := trade]} ∅.

Definition posts : list (signed Review) := [opinion buyer Five 10; opinion buyer One 20; opinion seller Four 5].

Lemma reviews_converge_witness :
  index_after posts = index_after (reverse posts ++ posts) ∧
  latest posts "s" buyer (payload (opinion buyer One 20)).
Proof.
  destruct (reviews_converge) with (l := posts) (l' := reverse posts ++ posts) as [Hsame Hlatest].
  - exact encoded_inj.
  - exact tally_inj.
  - exact tally_colon.
  - intros x. rewrite elem_of_app, elem_of_reverse. tauto.
  - split; [exact Hsame|]. apply Hlatest. vm_compute. reflexivity.
Defined.

Lemma reviews_are_by_parties_witness :
  let p := published (payload (opinion buyer One 20)) seller in
  p ∈ authorized traded (index_after posts) ∧
  (∃ s x, nd_settlements traded !! pb_settlement p = Some s ∧ is_settled (sm_state s) = true ∧
     (pb_author p = sm_buyer s ∧ pb_about p = sm_seller s ∨ pb_author p = sm_seller s ∧ pb_about p = sm_buyer s) ∧
     x ∈ posts ∧ p = published (payload x) (pb_about p) ∧
     peer_id_from_public_key (rw_author_public_key (payload x)) = Some (pb_author p) ∧
     signed_by (rw_author_public_key (payload x)) (StReviewPublish (payload x)) (signature x)) ∧
  ∀ p', p' ∈ authorized traded (index_after posts) →
    pb_settlement p' = pb_settlement p → pb_author p' = pb_author p → p' = p.
Proof.
  intros p. assert (p ∈ authorized traded (index_after posts)) as Hp.
  { apply authorized_spec. exists (review_id (payload (opinion buyer One 20))), (payload (opinion buyer One 20)), trade, seller.
    split_and!; by vm_compute. }
  split; [exact Hp|]. exact (reviews_are_by_parties encoded_inj traded posts p Hp).
Defined.

Lemma readings_agree_witness :
  let p := published (payload (opinion buyer One 20)) seller in
  nd_settlements traded !! sm_id trade = Some trade ∧
  (p ∈ find_for_settlement trade (index_after posts) ↔
     p ∈ authorized traded (index_after posts) ∧ pb_settlement p = sm_id trade).
Proof.
  intros p. assert (nd_settlements traded !! sm_id trade = Some trade) as Hs by (by vm_compute).
  split; [exact Hs|]. exact (readings_agree encoded_inj tally_inj tally_colon traded posts trade p Hs).
Defined.

(** ** A session *)

Definition session : Session := mkSession "web" buyer buyer 0 100 "web" [7] [] 0 false.
Definition open_sessions : sessions := {["web"%string := session]}.
Definition migration : signed SessionMigrate := mkSigned (mkSessionMigrate "web" buyer [8] 1 10) buyer.
Definition renewal : signed SessionRenew := mkSigned (mkSessionRenew "web" buyer 200 2 20) buyer.

Lemma session_moves_forward_witness :
  ∃ s', session_apply_event (SessionMigrated migration) open_sessions !! "web"%string = Some s' ∧
    (s' = session ∨
     signed_by (ss_wallet_public_key session) (StSessionMigrate (payload migration)) (signature migration) ∧
       ss_revoked session = false ∧ session_moved session s').
Proof.
  apply (session_moves_forward (SessionMigrated migration) open_sessions "web" session); [|by vm_compute].
  intros k s Hs. unfold open_sessions in Hs. by apply lookup_singleton_Some in Hs as [<- <-].
Defined.

Lemma session_replicas_diverge_witness :
  let a := session_apply_event (SessionRenewed renewal) (session_apply_event (SessionMigrated migration) open_sessions) in
  let b := session_apply_event (SessionMigrated migration) (session_apply_event (SessionRenewed renewal) open_sessions) in
  (∃ sa sb, a !! "web"%string = Some sa ∧ b !! "web"%string = Some sb ∧ ss_version sa = ss_version sb ∧
     ss_host_node sa = [8] ∧ ss_host_node sb = [7] ∧ ss_host_node sa ≠ ss_host_node sb) ∧
  session_apply_event (SessionMigrated migration) a = a ∧ session_apply_event (SessionRenewed renewal) a = a ∧
  session_apply_event (SessionMigrated migration) b = b ∧ session_apply_event (SessionRenewed renewal) b = b.
Proof.
  apply (session_replicas_diverge open_sessions session migration renewal);
    first [done|by vm_compute|eexists; split; [done|by vm_compute]].
Defined.
End Opinions.


(** A provider registers, publishes a rate, and is paid in another token. *)
Module Services.
Import Svc Orc.

#[local] Instance service_wire : Wire := {|
  verify key _ sig := bool_decide (sig = key);
  peer_id_from_public_key key := Some key;
  base58 _ := EmptyString;
  json _ := Some [];
  digest m := m;
|}.

Definition provider : PeerId := [7].
Definition rival : PeerId := [8].
Definition payer : PeerId := [9].

Definition price : ServicePricing := mkServicePricing "USDC" (mkAmount 1500 6) Request.

Definition registration (id : string) (who : PeerId) (t : Timestamp) : signed Registration :=
  mkSigned (mkRegistration id (MarketData FxOracle) who who [bytes_of "https://fx.openfiat.network"] [7000] None ["USDC/OPEN"%string]
    (Some (mkServiceBranding (Some (bytes_of "Rates")) None None (Some (bytes_of "https://openfiat.network")))) (Some price)
    (Some "wallet"%string) t) who.

Definition listed_services : services := registry_apply_event (Registered (registration "fx" provider 1000)) ∅.
Definition health (sig : Signature) (state : HealthState) (t : Timestamp) : signed HealthUpdate :=
  mkSigned (mkHealthUpdate "fx" provider state t) sig.

(** The provider says the service is degraded; another, that it is online; and
    the node sweeps. *)
Definition fx_history : list registry_input :=
  [Heard (Registered (registration "fx" provider 1000)); Heard (Updated (health provider Degraded 2000));
   Heard (Updated (health rival Online 3000)); Heard (Registered (registration "fx" rival 4000)); Swept 5000 3500].
Definition the_listing : ServiceRecord :=
  into_record (payload (registration "fx" provider 1000)) <| sv_health := Degraded |> <| sv_last_health_update := 2000 |>.


Lemma older_registration_wins_witness : ∃ newer stale reversed back,
  apply_registration (registration "fx" provider 2000) ∅ = Ok newer ∧
  apply_registration (registration "fx" provider 1000) newer = Ok stale ∧
  stale !! "fx"%string = Some (into_record (payload (registration "fx" provider 1000))) ∧
  apply_registration (registration "fx" provider 2000) listed_services = Ok reversed ∧
  reversed !! "fx"%string = Some (into_record (payload (registration "fx" provider 2000))) ∧ stale ≠ reversed ∧
  delete "fx"%string listed_services !! "fx"%string = None ∧
  apply_registration (registration "fx" provider 1000) (delete "fx"%string listed_services) = Ok back ∧
  back !! "fx"%string = Some (into_record (payload (registration "fx" provider 1000))).
Proof.
  apply (older_registration_wins (registration "fx" provider 1000) (registration "fx" provider 2000)
    (mkSigned (mkWithdrawal "fx" provider 3000) provider)); try reflexivity. done.
Defined.

(** Two records of two OPEN to the dollar, and one that says infinity. *)
Definition two : Z := 4611686018427387904.
Definition rate_record (who : PeerId) (id : string) (bits e : Z) : OracleRecord :=
  mkOracleRecord id who who (ExchangeRate "USDC" "OPEN" bits) 1 1000 e.
Definition feed : oracle_index :=
  <["c"%string := rate_record rival "c" 9218868437227405312 70000]>
    (<["b"%string := rate_record rival "b" two 90000]> {["a"%string := rate_record provider "a" two 80000]}).

Lemma feed_reads : exchange_rate "USDC" "OPEN" 5000 feed = Current two 70000.
Proof. by vm_compute. Qed.

Lemma median_resists_minority_witness :
  total_key two ≤ total_key two ≤ total_key two ∧ (∃ x, live_rate "USDC" "OPEN" 5000 feed two x) ∧
  (∃ r, live_rate "USDC" "OPEN" 5000 feed r 70000) ∧ ∀ r x, live_rate "USDC" "OPEN" 5000 feed r x → 70000 ≤ x.
Proof.
  apply (median_resists_minority "USDC" "OPEN" 5000 feed two 70000 (total_key two) (total_key two) feed_reads).
  apply (bool_decide_unpack _). by vm_compute.
Defined.

Lemma one_provider_sets_the_rate_witness : ∃ xs m' e,
  Forall (λ x, op_provider (payload x) = provider) xs ∧ publish_all listed_services xs feed = Ok m' ∧
  exchange_rate "USDC" "OPEN" 5000 m' = Current 1 e.
Proof.
  apply (one_provider_sets_the_rate listed_services provider provider "USDC" "OPEN" 1 5000).
  - intros pub Hp Hk. exists provider. apply verify_self_Ok. simpl. rewrite Hp, Hk. split; [done|].
    eexists. split; [reflexivity|]. by apply bool_decide_eq_true.
  - by vm_compute.
  - ilia.
  - intros id r b q v. unfold feed. rewrite !lookup_insert_Some, lookup_singleton_Some.
    intros [[_ <-]|[_ [[_ <-]|[_ [_ <-]]]]] [= _ _ <-]; unfold two; ilia.
Defined.

Definition seizing : signed OraclePublish :=
  mkSigned (mkOraclePublish "b" provider provider (ExchangeRate "USDC" "OPEN" 1) U64_MAX 5000 9000) provider.

Lemma provider_seizes_feed_witness : ∃ m',
  apply_publish_oracle listed_services seizing feed = Ok m' ∧
  ∀ m'', steps publish_step m' m'' → m'' !! "b"%string = Some (published_record (payload seizing)).
Proof.
  apply (provider_seizes_feed listed_services seizing (rate_record rival "b" two 90000) feed); try reflexivity; done.
Defined.

Definition rate_read : f64 := f64_of_bits two.

(** The declared 1500 millionths are 3 000 000 billionths. *)
Lemma fee_quoted :
  settle_in price "OPEN" 9 (as_settlement_rate (exchange_rate "USDC" "OPEN" 5000 feed)) 5000
  = Settleable (mkAmount 1500 6) "USDC" "OPEN" (mkAmount 3000000 9) rate_read 5000 70000.
Proof. by vm_compute. Qed.

Lemma fee_is_priced_live_witness :
  (∃ bits x, (bits, x) ∈ current "USDC" "OPEN" 5000 feed ∧ rate_read = f64_of_bits bits ∧ usable_rate rate_read = true) ∧
  5000 < 70000 ≤ 5000 + MAX_QUOTE_VALIDITY ∧ (∀ bits x, (bits, x) ∈ current "USDC" "OPEN" 5000 feed → 70000 ≤ x) ∧
  least_above (exact_fee (sp_amount price) rate_read 9) 3000000.
Proof. apply (fee_is_priced_live price "OPEN" 9 "USDC" "OPEN" 5000 feed _ _ _ _ _ _ _ fee_quoted). ilia. Defined.

Definition commitment : signed FeeSettlement :=
  mkSigned (mkFeeSettlement "fx" payer payer (mkAmount 1500 6) "USDC" "OPEN" (mkAmount 3000000 9) rate_read 5000 70000 "ref")
    payer.

Lemma quote_is_honoured_witness : accepts_settlement commitment (Some price) 69999 = Ok ().
Proof.
  apply (quote_is_honoured price "OPEN" 9 rate_read 70000 5000 (mkAmount 1500 6) "USDC" "OPEN" (mkAmount 3000000 9) rate_read
    5000 70000); try reflexivity; first [done | ilia].
Defined.

Lemma honoured_fee_is_owed_witness :
  let s := payload commitment in
  ∃ p, Some price = Some p ∧ sp_token_mint p = fs_fee_mint s ∧ sp_amount p = fs_fee s ∧
    peer_id_from_public_key (fs_payer_public_key s) = Some (fs_payer s) ∧
    signed_by (fs_payer_public_key s) (StFeeSettlement s) (signature commitment) ∧
    fs_settlement_mint s ≠ fs_fee_mint s ∧ usable_rate (fs_rate s) = true ∧
    69999 < fs_expires_at s ≤ 69999 + MAX_QUOTE_VALIDITY + MAX_QUOTE_CLOCK_SKEW ∧
    fs_quoted_at s < fs_expires_at s ≤ fs_quoted_at s + MAX_QUOTE_VALIDITY ∧
    least_above (exact_fee (fs_fee s) (fs_rate s) (decimals (fs_settlement_amount s))) (base_units (fs_settlement_amount s)).
Proof. apply (honoured_fee_is_owed commitment (Some price) 69999); [by vm_compute|ilia]. Defined.

(** ** Clearances and attachments *)

Definition screener : signed Registration :=
  mkSigned (mkRegistration "risk" (Security RiskIntelligenceProvider) payer payer [] [] None [] None None None 1000) payer.
Definition clearance : signed Rsk.RiskPublish :=
  mkSigned (Rsk.mkRiskPublish "clear" payer payer payer Rsk.CommunityIntelligence Rsk.Cleared Rsk.Low Rsk.ConfidenceLow "fine" []
    U64_MAX None) payer.
Definition flag : RiskRecord :=
  mkRiskRecord "flag" rival rival payer Rsk.FraudIntelligence Rsk.Flagged Rsk.Critical Rsk.ConfidenceHigh "fraud" [] 3000 None.

Lemma flag_stands : sr_active_flags (screen payer 4000 {["flag"%string := flag]}) = [flag].
Proof. by vm_compute. Qed.

Lemma wallet_clears_itself_witness : ∃ sv m',
  apply_registration screener ∅ = Ok sv ∧ apply_publish_risk sv clearance {["flag"%string := flag]} = Ok m' ∧
  ∀ m'' now, steps risk_step m' m'' → sr_active_flags (screen payer now m'') = [].
Proof.
  apply (wallet_clears_itself ∅ screener clearance {["flag"%string := flag]}); try reflexivity.
  intros id r [_ <-]%lookup_singleton_Some. simpl. ilia.
Defined.

Definition receipt (who : PeerId) : signed Att.Attachment :=
  mkSigned (Att.mkAttachment "a" (Att.SettlementSubject "s") who who "cid" Att.Png 4096 [] 1000) who.

Lemma attachments_are_the_parties_witness :
  let m := {["a"%string := payload (receipt payer)]} in
  payload (receipt payer) ∈ find_by_settlement "s" [payer; provider] m ∧
  (∃ sig, signed_by payer (StAttachmentPublish (payload (receipt payer))) sig).
Proof.
  intros m. assert (payload (receipt payer) ∈ find_by_settlement "s" [payer; provider] m) as Hin.
  { apply find_by_settlement_spec. split; [exists "a"%string; apply lookup_singleton_eq|]. split; [done|]. simpl. set_solver. }
  split; [exact Hin|].
  apply (attachments_are_the_parties m m "s" [payer; provider] (payload (receipt payer))); [|exact Hin].
  eapply steps_snoc; [apply steps_refl|]. exists (receipt payer). reflexivity.
Defined.

Lemma squatted_attachment_vanishes_witness : ∃ honest squatted,
  apply_publish_attachment (receipt payer) ∅ = Ok honest ∧
  payload (receipt payer) ∈ find_by_settlement "s" [payer; provider] honest ∧
  apply_publish_attachment (receipt rival) ∅ = Ok squatted ∧
  ∀ later, steps attachment_step squatted later →
    (payload (receipt payer) ∉ find_by_settlement "s" [payer; provider] later) ∧
    apply_publish_attachment (receipt payer) later = Err (Code ContentError.DuplicateAttachmentId).
Proof.
  apply (squatted_attachment_vanishes (receipt payer) (receipt rival) "s" [payer; provider] ∅); try reflexivity.
  - apply (bool_decide_unpack _). by vm_compute.
  - apply (bool_decide_unpack _). by vm_compute.
  - by intros id a.
Defined.

Lemma challenge_is_fair_witness : keeps (Rolling 45) 1000 2592001000 = true.
Proof. apply (challenge_is_fair (bytes_of "45") (Rolling 45)); by vm_compute. Defined.
End Services.

(** Two settlements whose dates are as far apart as they can be. *)
Module Readings.

Definition requested (id : string) : market_event :=
  ReservationRequested (mkSigned (mkReservationRequest id "offer" taker taker (usdc 100) (cents 99) None 2000) taker).
Definition initiated (id r : string) : market_event :=
  SettlementInitiated (mkSigned (mkSettlementInitiate id r taker taker merchant merchant (usdc 100) 3000) taker).
Definition declared (id : string) : market_event :=
  PaymentSubmittedEvent (mkSigned (mkPaymentSubmitted id taker None 0) taker).
Definition approved (id : string) (t : Timestamp) : market_event :=
  SettlementApprovedEvent (mkSigned (mkSettlementApproved id merchant t) merchant).

Definition traded (id r : string) (t : Timestamp) : timed :=
  [(2000, requested r); (3000, initiated id r); (4000, declared id); (5000, approved id t)].

Definition honest_trades : timed := offered ++ traded "s1" "r1" 10 ++ traded "s2" "r2" 20.
Definition far_trades : timed := offered ++ traded "s1" "r1" U64_MAX ++ traded "s2" "r2" U64_MAX.

Definition merchants_profile : ReputationProfile :=
  match profile (after honest_trades) merchant with Ok p => p | Err _ => empty_profile merchant end.

Lemma profile_counts_witness :
  profile (after honest_trades) merchant = Ok merchants_profile ∧
  rf_trades_completed merchants_profile = total (λ s, one_if (involves merchant s && finished s)) (after honest_trades) ∧
  rf_response_latency_sum_ms merchants_profile = total (latency merchant) (after honest_trades) ∧
  total (latency merchant) (after honest_trades) = 30.
Proof.
  assert (profile (after honest_trades) merchant = Ok merchants_profile) as Hp by evaluate.
  pose proof (profile_counts (after honest_trades) merchant merchants_profile Hp) as (_ & Hc & _ & _ & _ & _ & Hl & _).
  split; [exact Hp|]. split; [exact Hc|]. split; [exact Hl|evaluate].
Defined.

Lemma reputation_read_aborts_witness :
  market_reachable (after far_trades) ∧ ∀ p, profile (after far_trades) merchant ≠ Ok p.
Proof.
  split; [replay|]. apply (reputation_read_aborts (after far_trades) merchant).
  apply (bool_decide_unpack _). by vm_compute.
Defined.

Lemma counterparties_agree_witness :
  let x := mkSummary taker 2 0 0 0 (Some 20) in
  counterparties (after honest_trades) merchant = Ok [x] ∧
  pair_summary (after honest_trades) taker merchant = Ok (x <| cy_counterparty := merchant |>).
Proof.
  intros x. assert (counterparties (after honest_trades) merchant = Ok [x]) as Hl by evaluate.
  split; [exact Hl|]. destruct (counterparties_agree (after honest_trades) merchant [x] Hl) as (_ & _ & Hboth).
  apply (Hboth x). set_solver.
Defined.
End Readings.
